(* ===== verification/_CoqProject ===== *)
-Q . S2P
Prelude.v
Binary.v
Rounding.v
Distance.v
Metadata.v
Bitset.v
VectorStore.v
StoreSpec.v
Replay.v
StdQueue.v
Index.v
DistanceBounds.v
FlatIndex.v
Hnsw.v
HnswSearch.v
HnswGraph.v
HnswIndex.v
Crc32.v
Bytes.v
OpCodec.v
LogStore.v
BlobStore.v
Engine.v
EngineSpec.v
EngineSearch.v
EngineConfig.v
EngineBatch.v
Recall.v
Recovery.v
Durability.v
Crash.v
Failures.v
GroupCommit.v
Demo.v
HnswDemo.v
Text.v
Embedding.v
EmbeddingBounds.v
Rag.v
RagSpec.v
RagSearch.v
RagFlat.v
RagDemo.v
RagProgram.v
Threads.v
Utf8.v
Server.v
ServerSpec.v
ServerThreads.v
ServerDemo.v
ConfigDemo.v
Suite.v
EngineSuite.v
Bench.v
BenchSpec.v
BenchDemo.v
