(* ===== verification/Prelude.v ===== *)
(** * toy-vector-db: a verification library

    A model of toy-vector-db (a single-node vector database in C++) and the
    theorems that make it correct. File names in brackets are below [src/].

    ** The program

    A [VectorStore] holds vectors of one dimension in an arena, with external
    ids, metadata and tombstones; every change is an [Op]. An [Index] finds the
    vectors nearest to a query by a distance metric, reading vectors back from
    the store; a filter over metadata becomes an allowed-set, a [Bitset]. The
    [Engine] owns both. A durable engine writes each [Op] to a write-ahead log
    ([FileLogStore]: framed, checksummed records) before applying it, writes
    snapshots to a [FileBlobStore], and recovers from snapshot and log when it
    is constructed. There are two indices: the exact [FlatIndex], which scans
    every slot, and the approximate [HnswIndex], a layered proximity graph. On
    top, a [RagEngine] cuts documents into chunks, embeds and stores them,
    retrieves the chunks nearest to a query and builds a prompt. A server offers an
    [Engine] and a [RagEngine] over HTTP with JSON bodies. A benchmark measures
    the graph index against the exact one; an example program shows retrieval.

    ** The files

    - [Prelude]: outcomes of C++ code ([result], [exn]), the monad [M] of code
      that changes an object and may throw, vectors with their undefined
      accesses ([at_], [set_at]), loops, and generic lemmas.
    - [Binary]: IEEE single and double precision over the standard library's
      [spec_float]; conversion to and from the 32 and 64 stored bits. [Rounding]:
      bounds and canonical form of rounded results, storing and loading.
    - [Distance] ([include/toyvdb/distance.hpp], [types.hpp]): the metrics as
      instances of the class [DistanceMetric]; the class [MetricLaws].
      [DistanceBounds]: vectors on which every metric is tame.
    - [Metadata] ([metadata.hpp]): values, [compare], the filter tree.
    - [Bitset] ([bitset.hpp]): words, and the set of indices they stand for.
    - [VectorStore] ([vector_store.hpp], [src/vector_store.cpp]): the fields as
      the record [VectorStore.t], each method as a definition of its name; the
      invariant [wf]; the abstraction [abs], a map from external ids to vector
      and metadata.
    - [StoreSpec]: the abstract database ([spec_apply]) and the refinement.
    - [Replay]: logs as functions on the abstract database; replaying a log over
      its own result changes nothing.
    - [StdQueue]: [std::priority_queue] and [std::sort] as classes with laws, so
      that theorems hold for every conforming implementation; [list_pqueue] and
      [insertion_sort] are instances to evaluate with.
    - [Index] ([index.hpp]): the abstract class as [IndexOps]; [IndexLaws] and
      [IndexSearchLaws] are the contract between engine and index.
    - [FlatIndex] ([flat_index.hpp], [src/flat_index.cpp]): the exact index and
      its instances of the contract.
    - [Hnsw] ([hnsw_index.hpp]): the graph index, each method as a definition of
      its name, the random source and the logarithm of the level assignment as
      the class [RandomSource]. [HnswSearch]: the searches of a layer;
      [HnswGraph]: choosing and linking neighbours; [HnswIndex]: insertion,
      whole searches and the instances of the contract.
    - [Crc32] ([crc32.hpp]); [Bytes], [OpCodec] ([op_codec.hpp],
      [src/op_codec.cpp]): checksum, memory images, encoder and decoder.
    - [LogStore] ([log_store.hpp], [src/log_store.cpp]): the log over a file,
      with the outcomes of its system calls as part of the state.
    - [BlobStore] ([blob_store.hpp], [src/blob_store.cpp]): snapshot files.
    - [Engine] ([engine.hpp], [src/engine.cpp]): the fields as [Engine.t], the
      methods in the monad over them, for any index in [IndexOps].
    - [EngineSpec]: the engine's invariant and its calls against the abstract
      database. [EngineSearch]: searches. [EngineBatch]: [search_batch] as
      a relation of steps, of the calling thread and of the rounds of its threads.
      [Recovery]: what [recover] rebuilds.
      [Durability]: the invariant between disk and memory, snapshots and
      compaction. [Crash]: reopening after crashes. [GroupCommit]: what a flush
      makes durable. [Failures]: directories and logs that do not open.
    - [Text] ([rag.hpp], [src/rag.cpp]): tokenizer, chunker, prompt builder.
      [Embedding]: the class [EmbeddingModel], its laws, and the hashing model;
      [EmbeddingBounds]: the hashing model keeps the laws.
      [Rag]: [RagEngine], each method as a definition of its name. [RagSpec]:
      it refines a map from document ids to texts. [RagSearch]: retrieval.
      [RagFlat]: retrieval over the exact index. [RagProgram]
      ([examples/rag_demo.cpp]): the example program and its output.
    - [EngineConfig]: [EngineConfig] of [engine.hpp], the index factories and the
      constructor's choice among the kinds of index and metrics.
    - [Server] ([server/server.cpp]): the handlers as definitions over the two
      engines, the JSON library as the class [JsonLib]. [Utf8]: the strings that
      it can print. [ServerSpec]: the documented behaviour of that library, the
      class [JsonLaws]; the handlers refine a pair of maps. [Threads]: threads with sections guarded by a mutex, for any
      tasks. [ServerThreads]: the handlers as such tasks, each access to the
      engines a step, and [main].
    - [Recall], [Bench] ([bench/recall_harness.cpp]): recall and percentiles in
      double precision; the benchmark over random draws and a clock, the class
      [HarnessSources]. [BenchSpec]: what its report says.
    - [Demo], [HnswDemo], [RagDemo], [ServerDemo], [ConfigDemo], [BenchDemo]: the
      theorems on concrete instances.
    - [Suite], [EngineSuite] ([tests/]): the deterministic test cases as code of the
      model, evaluated; all of them pass.

    ** What the theorems show

    - Store and engine are key-value maps: [store_refines_log] and
      [engine_refines_log], answers and exceptions included.
    - Searches: [flat_search_exact], [engine_flat_exact] (exactly the [k]
      nearest matching entries), [engine_search_sound] (any index that keeps
      its contract), [engine_every_config] (each kind of index and metric that
      the constructor makes), [search_batch_serial] (any number of threads: no
      run is infinite or stuck, every one ends with the serial answers).
    - The graph index: [hnsw_add_keeps_graph] (termination, no access out of
      range, layers and degree bounds), [hnsw_search_sound],
      [hnsw_broad_search_exact] (exact on a connected base layer when the
      breadth covers it), [select_neighbors_spec], [greedy_upper_local_min].
    - Retrieval: [rag_refines] (a library of documents, no stale chunks),
      [rag_retrieve] (only chunks of current texts, at their distances; the
      prompt in its budget), [rag_flat_exact] (exactly the nearest chunks with
      the exact index), [rag_demo_output] (the example), [chunk_text_windows], [prompt_budget]
      (the template around the texts of the longest affordable prefix),
      [mock_bag_of_words] (the hashing model keeps the embedding contract).
    - The server: [server_refines] (every request has exactly the status and the
      effect that a pair of maps gives it; an exception leaves a handler only for
      a body that does not parse), [server_linearizable] (so are concurrent
      requests, in the order in which they take the mutex; no deadlock).
    - Durability: [durable_engine_calls] (the invariant), then
      [durable_crash_recovers], [crash_in_call_atomic],
      [crash_in_snapshot_safe], [flush_survives] (calls before a flush),
      [snapshot_truncation_fails] (a log that does not reopen); below them the
      log ([log_crash_prefix], [log_replay_total],
      [log_corruption_stops], [log_append_failure]), the codec
      ([op_codec_roundtrip], [decode_op_robust]), the
      checksum ([crc32_correct]) and the snapshot store
      ([blob_put_atomic]). [compact_correct]: compaction.
    - Data: [filter_semantics]; [bitset_refines_set]; [metric_laws].
    - The benchmark: [harness_measures] (every run ends with the report it means
      to give, its times those of the clock around the measured calls), [harness_oracle] (the exact index has recall one), on
      [recall_range] and [percentile_rank].
    - Defects that the model exhibits: [wrong_length_poisons_log],
      [log_append_failure] (appends behind a torn record), [blob_put_atomic] (a
      flush that fails unseen), [filter_semantics] (integers as doubles),
      [hnsw_insert_among_tombstones], [prompt_budget] (bullets not counted),
      [harness_measures] (no queries), [server_refines] (a parse error that cannot
      be printed).

    ** Conventions and bounds

    A [std::uint32_t] is an [N] below [2^32], with [to_u32] for casts; a
    [std::size_t] is a [nat]. Floats are stored as bits ([word32]) and scores
    kept decoded. An access outside a container is [undefined_behaviour]; the
    theorems show it does not happen. Loops whose end is not structural take
    fuel: [LogStore.replay_loop] starts with one more than the length of the
    file and each round reads at least eight bytes, [Engine.replay_blob] with
    one more than the length of the blob and each round reads at least four;
    [Hnsw.greedy_loop] with one more than the number of nodes, as each round
    moves to a closer node; [Hnsw.expand] with one more than entries and nodes,
    as each round takes a candidate and a node enters once; [Text.chunk_loop]
    with one more than the number of tokens. The theorems on these functions
    show the fuel is enough, or the outcome would be [out_of_fuel]. The
    engine's theorems assume fewer than [2^32] external ids (a finite set [U],
    or a bound on the number of calls): with more, the 32-bit internal ids of
    the code wrap around. Searches assume vectors between which the metric is
    not NaN ([MetricTame], which [L2] satisfies on finite vectors and every
    metric on vectors of elements up to [2^24] in magnitude): with NaN
    the comparison of [std::priority_queue] is no strict weak order and the
    standard leaves its behaviour undefined.

    A power loss keeps a prefix of the log with at least its synced bytes, or
    an earlier content while a truncation has not reached the disk
    ([LogStore.crash_image]); the renaming of a snapshot file is atomic and
    ordered after its data ([BlobStore.put_interrupted]).

    The level of a node in the graph is an integer by hypothesis
    ([LevelDraws]: a drawn level converts to [int]); [std::mt19937], the uniform
    distribution and [std::log] are library code and stay parameters. Threads
    are modelled at the granularity of one query, which reads only immutable
    state and writes its own element of the result. The embedding model is a
    parameter of [Rag] with the laws that every text has a vector, of the
    model's dimension and among those the metric is tame on.

    ** Not modelled

    Allocation failure; capacities; the order in which a file system makes
    different files durable, but for that of a snapshot and its log. Of the server:
    the HTTP library (sockets, routing, the static page; its threads are the
    arrivals and turns of a schedule) and the JSON library, whose operations are
    parameters with its documented behaviour as laws (errors are exceptions; a
    value prints exactly when its strings are UTF-8; the parser accepts nothing
    else); a call of an engine under the mutex is one step. The bodies are any
    strings, but the theorems assume that the vectors in them are such that the
    metric is tame ([sane]). Of the benchmark and the example: the layout of their
    output as text. Of the tests: the cases with random vectors and those of
    [search_batch]. *)
From stdpp Require Export prelude list gmap strings fin_maps.
From Stdlib Require Export ZArith Lia.

(** ** Outcomes of C++ code *)

(** The exceptions the sources throw, and two outcomes no C++ program
    observes: [undefined_behaviour] (an access outside a container, which the
    sources rule out by an invariant) and [out_of_fuel] (the model's bound on
    a loop was too small; every loop has a theorem that its bound is enough). *)
Inductive exn : Type :=
| invalid_argument (what : string)
| runtime_error (what : string)
| system_error (what : string)
| bad_optional_access
| undefined_behaviour
| out_of_fuel.

Inductive result (A : Type) : Type :=
| Ok (a : A)
| Throw (e : exn).
Arguments Ok {A} a.
Arguments Throw {A} e.

#[export] Instance exn_eq_dec : EqDecision exn.
Proof. solve_decision. Defined.
#[export] Instance result_eq_dec `{EqDecision A} : EqDecision (result A).
Proof. solve_decision. Defined.

#[export] Instance result_ret : MRet result := @Ok.
#[export] Instance result_bind : MBind result := λ A B k m,
  match m with Ok a => k a | Throw e => Throw e end.
#[export] Instance result_fmap : FMap result := λ A B f m,
  match m with Ok a => Ok (f a) | Throw e => Throw e end.

(** [v[i]] on a [std::vector]: no bounds check, undefined outside. *)
Definition at_ {A} (v : list A) (i : nat) : result A :=
  match v !! i with Some x => Ok x | None => Throw undefined_behaviour end.

(** [v[i] = x]. *)
Definition set_at {A} (v : list A) (i : nat) (x : A) : result (list A) :=
  match v !! i with Some _ => Ok (<[i := x]> v) | None => Throw undefined_behaviour end.

(** ** Stateful code that may throw *)

(** The state survives an exception, as the fields of a C++ object do. *)
Definition M (S A : Type) : Type := S → result A * S.

#[export] Instance M_ret S : MRet (M S) := λ A a s, (Ok a, s).
#[export] Instance M_bind S : MBind (M S) := λ A B k m s,
  match m s with
  | (Ok a, s') => k a s'
  | (Throw e, s') => (Throw e, s')
  end.

Definition read_state {S} : M S S := λ s, (Ok s, s).
Definition write_state {S} (s : S) : M S () := λ _, (Ok tt, s).
Definition throw {S A} (e : exn) : M S A := λ s, (Throw e, s).
Definition lift {S A} (r : result A) : M S A := λ s, (r, s).

(** Run code of a field of the object. *)
Definition zoom {S T A} (proj : S → T) (upd : T → S → S) (m : M T A) : M S A := λ s,
  let '(r, t) := m (proj s) in (r, upd t s).

(** A range-for loop whose body may change the state and throw. *)
Fixpoint for_each {S A} (body : A → M S ()) (l : list A) : M S () :=
  match l with
  | [] => mret tt
  | x :: l => _ ← body x; for_each body l
  end.

(** [for (i = lo; i < lo + n; ++i)] over a local accumulator. *)
Fixpoint for_range {S} (lo n : nat) (body : nat → S → result S) (s : S) : result S :=
  match n with
  | O => Ok s
  | Datatypes.S n => s' ← body lo s; for_range (Datatypes.S lo) n body s'
  end.

(** [static_cast<std::uint32_t>] of a container's size. *)
Definition to_u32 (n : nat) : N := (N.of_nat n mod 2 ^ 32)%N.

(** ** Hints and tactics *)
Create HintDb toyvdb.

(** Split an [if] or [match] on a decidable proposition and simplify. *)
Ltac split_decide := repeat (case_decide || case_bool_decide); simplify_eq/=.

(** Prove a decidable proposition by evaluating its decision procedure. *)
Ltac vm_decide := apply (bool_decide_unpack _); vm_compute; exact I.

(** Step through a computation in one of the two monads. *)
Ltac unfold_monad :=
  unfold mbind, mret, M_bind, M_ret, result_bind, result_ret, read_state, write_state, throw, lift, zoom in *;
  cbn in *.

(** Invert a monadic equation [m ≫= k = Ok b]. *)
Lemma result_bind_Ok {A B} (m : result A) (k : A → result B) b :
  m ≫= k = Ok b ↔ ∃ a, m = Ok a ∧ k a = Ok b.
Proof.
  destruct m as [a|e]; cbn; [|naive_solver].
  split; [eauto|]. by intros (a' & [= ->] & ?).
Qed.

Ltac inv_result :=
  repeat match goal with
  | H : (_ ≫= _) = Ok _ |- _ => apply result_bind_Ok in H as (? & ? & ?)
  | H : Ok _ = Ok _ |- _ => injection H as H
  | H : Throw _ = Ok _ |- _ => discriminate H
  | H : Ok _ = Throw _ |- _ => discriminate H
  end; simplify_eq/=.

Lemma at_Ok {A} (v : list A) i x : at_ v i = Ok x ↔ v !! i = Some x.
Proof. unfold at_. destruct (v !! i); naive_solver. Qed.

Lemma at_lt {A} (v : list A) i : i < length v → ∃ x, at_ v i = Ok x ∧ v !! i = Some x.
Proof. intros [x Hx]%lookup_lt_is_Some. exists x. by rewrite at_Ok. Qed.

Lemma set_at_lt {A} (v : list A) i x : i < length v → set_at v i x = Ok (<[i := x]> v).
Proof. intros [y Hy]%lookup_lt_is_Some. unfold set_at. by rewrite Hy. Qed.

Lemma for_each_app {S A} (body : A → M S ()) l1 l2 s :
  for_each body (l1 ++ l2) s = (_ ← for_each body l1; for_each body l2) s.
Proof.
  revert s. induction l1 as [|x l1 IH]; intros s; [done|].
  cbn. unfold mbind, M_bind. destruct (body x s) as [[[]|e] s1]; [|done].
  rewrite IH. done.
Qed.
#[export] Hint Resolve set_at_lt : toyvdb.
#[export] Hint Rewrite @at_Ok : toyvdb.

(** ** Lists *)

Lemma list_filter_perm_cons {A} (P : A → Prop) `{!∀ x, Decision (P x)} x l l' :
  l ≡ₚ x :: l' → filter P l ≡ₚ filter P (x :: l').
Proof. by intros ->. Qed.

Lemma Forall_perm {A} (P : A → Prop) l l' : l ≡ₚ l' → Forall P l → Forall P l'.
Proof. by intros ->. Qed.

(** A loop that reads two arrays at its index is a fold over their elements. *)
Lemma for_range_zip {A B S} (f : S → A → B → S) (a : list A) (b : list B) lo n s :
  lo + n ≤ length a → lo + n ≤ length b →
  for_range lo n (λ i s, x ← at_ a i; y ← at_ b i; Ok (f s x y)) s =
  Ok (foldl (λ s p, f s p.1 p.2) s (zip (take n (drop lo a)) (take n (drop lo b)))).
Proof.
  revert lo s. induction n as [|n IH]; intros lo s Ha Hb; [done|].
  destruct (lookup_lt_is_Some_2 a lo) as [x Hx]; [lia|].
  destruct (lookup_lt_is_Some_2 b lo) as [y Hy]; [lia|].
  rewrite (drop_S _ _ _ Hx), (drop_S _ _ _ Hy). cbn [for_range take zip foldl].
  unfold at_. rewrite Hx, Hy. cbn. apply IH; lia.
Qed.

Lemma for_range_zip_all {A B S} (f : S → A → B → S) (a : list A) (b : list B) n s :
  length a = n → length b = n →
  for_range 0 n (λ i s, x ← at_ a i; y ← at_ b i; Ok (f s x y)) s =
  Ok (foldl (λ s p, f s p.1 p.2) s (zip a b)).
Proof.
  intros <- Hb. rewrite for_range_zip by lia. rewrite !drop_0, take_ge, take_ge by lia. done.
Qed.

(** An invariant of a counting loop: the loop ends and establishes it. *)
Lemma for_range_inv {S} (I : nat → S → Prop) lo n body (s : S) :
  (∀ i s, lo ≤ i < lo + n → I i s → ∃ s', body i s = Ok s' ∧ I (Datatypes.S i) s') → I lo s →
  ∃ s', for_range lo n body s = Ok s' ∧ I (lo + n) s'.
Proof.
  revert lo s. induction n as [|n IH]; intros lo s Hbody Hs.
  - exists s. by rewrite Nat.add_0_r.
  - destruct (Hbody lo s) as (s1 & H1 & Hs1); [lia|done|]. cbn [for_range]. rewrite H1. cbn.
    destruct (IH (Datatypes.S lo) s1) as (s2 & H2 & Hs2); [intros; apply Hbody; [lia|done]|done|].
    exists s2. split; [done|]. by replace (lo + Datatypes.S n) with (Datatypes.S lo + n) by lia.
Qed.

(** An invariant of a fold that holds for every element. *)
Lemma foldl_inv {A B} (P : B → Prop) (Q : A → Prop) (f : B → A → B) l b :
  (∀ b a, P b → Q a → P (f b a)) → P b → Forall Q l → P (foldl f b l).
Proof. intros Hf. revert b. induction l; intros b Hb Hl; [done|]. inversion Hl; subst; cbn; auto. Qed.

(** Two folds over the two ways to pair the lists. *)
Lemma foldl_zip_swap {A S T} (R : S → T → Prop) (f : S → A → A → S) (g : T → A → A → T) l1 l2 s t :
  (∀ s t x y, R s t → R (f s x y) (g t y x)) → R s t →
  R (foldl (λ s p, f s p.1 p.2) s (zip l1 l2)) (foldl (λ s p, g s p.1 p.2) t (zip l2 l1)).
Proof.
  intros H. revert l2 s t. induction l1 as [|x l1 IH]; intros [|y l2] s t Hst; cbn; auto.
Qed.

Lemma size_list_to_set_le `{Countable A} (l : list A) : size (list_to_set l : gset A) ≤ length l.
Proof.
  induction l as [|x l IH]; [done|]. rewrite list_to_set_cons, size_union_alt, size_singleton. cbn.
  assert (size (list_to_set l ∖ {[x]} : gset A) ≤ size (list_to_set l : gset A)); [|lia].
  apply subseteq_size. set_solver.
Qed.

(** Filling a map from a list without repeated keys. *)
Lemma foldl_insert_map `{Countable K} {V} (l : list (K * V)) :
  NoDup l.*1 → foldl (λ (m : gmap K V) e, <[e.1 := e.2]> m) ∅ l = list_to_map l.
Proof.
  intros Hl. trans (list_to_map (rev l) : gmap K V).
  - clear Hl. induction l as [|[k v] l IH] using rev_ind; [done|].
    by rewrite foldl_snoc, rev_app_distr, IH.
  - symmetry. by apply list_to_map_proper, Permutation_rev.
Qed.

Lemma to_u32_small n : (N.of_nat n < 2 ^ 32)%N → to_u32 n = N.of_nat n.
Proof. apply N.mod_small. Qed.

Lemma filter_ext_elem {A} (P Q : A → Prop) `{!∀ x, Decision (P x), !∀ x, Decision (Q x)} (l : list A) :
  (∀ x, x ∈ l → P x ↔ Q x) → filter P l = filter Q l.
Proof.
  induction l as [|x l IH]; intros Hl; [done|]. rewrite !filter_cons, IH by set_solver.
  specialize (Hl x ltac:(set_solver)). repeat case_decide; naive_solver.
Qed.

Lemma filter_none {A} (P : A → Prop) `{!∀ x, Decision (P x)} (l : list A) :
  (∀ x, x ∈ l → ¬ P x) → filter P l = [].
Proof.
  induction l as [|x l IH]; intros Hl; [done|].
  rewrite filter_cons_False by set_solver. apply IH. set_solver.
Qed.

Lemma filter_full {A} (P : A → Prop) `{!∀ x, Decision (P x)} (l : list A) :
  (∀ x, x ∈ l → P x) → filter P l = l.
Proof.
  induction l as [|x l IH]; intros Hl; [done|].
  rewrite filter_cons_True by set_solver. f_equal. apply IH. set_solver.
Qed.

Lemma list_filter_fmap {A B} (P : B → Prop) `{!∀ x, Decision (P x)} (f : A → B) (l : list A) :
  filter P (f <$> l) = f <$> filter (λ x, P (f x)) l.
Proof.
  induction l as [|x l IH]; [done|]. cbn [fmap list_fmap]. rewrite !filter_cons.
  case_decide; cbn; by rewrite IH.
Qed.
