(* ===== verification/Binary.v ===== *)
(** * IEEE 754 numbers

    The C++ types [float] and [double] as they are stored (their 32 or 64 bits,
    which [memcpy] copies and the arena holds) and as they are computed with
    (the Standard Library's [spec_float], the executable definition of IEEE
    arithmetic with rounding to nearest even). A stored number is decoded when
    an expression reads it. Arithmetic does not model NaN payloads, and no two
    operations are contracted into one. *)
From Stdlib Require Export SpecFloat.
From coqutil Require Import Word.Interface Word.Properties Word.Naive.
From S2P Require Import Prelude.
Local Open Scope Z_scope.

(** ** Machine words *)

(** [std::uint32_t], [std::uint64_t] and the bits of [float] and [double]. *)
Abbreviation word32 := (@word.rep 32 Naive.word32).
Abbreviation word64 := (@word.rep 64 Naive.word64).

(** Keep the types and accessors of words folded. *)
#[global] Arguments word.rep : simpl never.
#[global] Arguments word.unsigned : simpl never.
#[global] Arguments word.signed : simpl never.
#[global] Arguments word.of_Z : simpl never.

#[export] Instance word32_eq_dec : EqDecision word32.
Proof.
  intros x y. destruct (decide (word.unsigned x = word.unsigned y)) as [H|H].
  - left. by apply (word.unsigned_inj (word_ok := Naive.word32_ok)).
  - right. congruence.
Defined.

#[export] Instance word64_eq_dec : EqDecision word64.
Proof.
  intros x y. destruct (decide (word.unsigned x = word.unsigned y)) as [H|H].
  - left. by apply (word.unsigned_inj (word_ok := Naive.word64_ok)).
  - right. congruence.
Defined.

(** ** Decoding the interchange formats *)

Section Format.
(** Width of the stored significand and of the exponent. *)
Variables mw ew : Z.

Definition decode_bits (b : Z) : spec_float :=
  let m := b mod 2 ^ mw in
  let e := (b / 2 ^ mw) mod 2 ^ ew in
  let s := Z.odd (b / 2 ^ (mw + ew)) in
  let bias := 2 ^ (ew - 1) - 1 in
  if e =? 2 ^ ew - 1 then
    if m =? 0 then S754_infinity s else S754_nan
  else if e =? 0 then
    match m with
    | Zpos p => S754_finite s p (1 - bias - mw)
    | _ => S754_zero s
    end
  else
    match m + 2 ^ mw with
    | Zpos p => S754_finite s p (e - bias - mw)
    | _ => S754_nan
    end.

(** The bits of a number; a NaN gets the default quiet NaN. *)
Definition encode_bits (x : spec_float) : Z :=
  let sgn (s : bool) := if s then 2 ^ (mw + ew) else 0 in
  let bias := 2 ^ (ew - 1) - 1 in
  match x with
  | S754_zero s => sgn s
  | S754_infinity s => sgn s + (2 ^ ew - 1) * 2 ^ mw
  | S754_nan => (2 ^ ew - 1) * 2 ^ mw + 2 ^ (mw - 1)
  | S754_finite s m e =>
      if Zpos m <? 2 ^ mw then sgn s + Zpos m
      else sgn s + (e + bias + mw) * 2 ^ mw + (Zpos m - 2 ^ mw)
  end.
End Format.

(** [float] is binary32, [double] is binary64. *)
Definition float_val (x : word32) : spec_float := decode_bits 23 8 (word.unsigned x).
Definition double_val (x : word64) : spec_float := decode_bits 52 11 (word.unsigned x).
Definition float_of (x : spec_float) : word32 := word.of_Z (encode_bits 23 8 x).
Definition double_of (x : spec_float) : word64 := word.of_Z (encode_bits 52 11 x).

(** Arithmetic in single and in double precision. *)
Definition fadd := SFadd 24 128.
Definition fsub := SFsub 24 128.
Definition fmul := SFmul 24 128.
Definition fdiv := SFdiv 24 128.
Definition fsqrt := SFsqrt 24 128.
Definition f_one : spec_float := Eval vm_compute in SFone 24 128.
Definition f_zero : spec_float := S754_zero false.
Definition f_max : spec_float := Eval vm_compute in S754_finite false 16777215 104.
Definition dadd := SFadd 53 1024.
Definition dsub := SFsub 53 1024.
Definition dmul := SFmul 53 1024.
Definition ddiv := SFdiv 53 1024.
Definition dsqrt := SFsqrt 53 1024.

(** [static_cast<double>(std::int64_t)]. *)
Definition double_of_int (z : Z) : spec_float := binary_normalize 53 1024 z 0 false.

Definition d_one : spec_float := Eval vm_compute in SFone 53 1024.

(** [static_cast<int>(double)]: truncation, undefined outside of [int]. *)
Definition double_to_int (x : spec_float) : result Z :=
  let in_int (z : Z) := if decide (- 2 ^ 31 <= z < 2 ^ 31)%Z then Ok z else Throw undefined_behaviour in
  match x with
  | S754_zero _ => Ok 0%Z
  | S754_finite s m e => in_int ((if s then -1 else 1) * Z.shiftl (Zpos m) e)%Z
  | _ => Throw undefined_behaviour
  end.

(** [a < b], [a > b] and [a == b] on [float] and [double]. *)
Definition flt (a b : spec_float) : bool := SFltb a b.
Definition fgt (a b : spec_float) : bool := flt b a.
Definition feq (a b : spec_float) : bool := SFeqb a b.

Definition not_nan (x : spec_float) : Prop := x ≠ S754_nan.
Definition is_nan (x : spec_float) : bool := match x with S754_nan => true | _ => false end.
Definition finite (x : spec_float) : Prop :=
  match x with S754_zero _ | S754_finite _ _ _ => True | _ => False end.
(** The sign bit of a number that is not NaN. *)
Definition has_sign (s : bool) (x : spec_float) : Prop :=
  match x with
  | S754_zero s' | S754_infinity s' | S754_finite s' _ _ => s' = s
  | S754_nan => False
  end.

#[export] Instance not_nan_dec x : Decision (not_nan x).
Proof. destruct x; [left|left|right|left]; unfold not_nan; congruence. Defined.
#[export] Instance finite_dec x : Decision (finite x).
Proof. destruct x; cbn; apply _. Defined.

(** ** The order of numbers *)

(** Position of a number in the order: its class, then its signed exponent and
    significand. Both zeros have the same position. *)
Definition float_key (x : spec_float) : Z * Z * Z :=
  match x with
  | S754_infinity true => (-2, 0, 0)
  | S754_finite true m e => (-1, -e, -Zpos m)
  | S754_zero _ | S754_nan => (0, 0, 0)
  | S754_finite false m e => (1, e, Zpos m)
  | S754_infinity false => (2, 0, 0)
  end.

Definition key_compare (a b : Z * Z * Z) : comparison :=
  match a.1.1 ?= b.1.1 with
  | Eq => match a.1.2 ?= b.1.2 with Eq => a.2 ?= b.2 | c => c end
  | c => c
  end.

Definition key_lt (a b : Z * Z * Z) : Prop :=
  a.1.1 < b.1.1 ∨ a.1.1 = b.1.1 ∧ (a.1.2 < b.1.2 ∨ a.1.2 = b.1.2 ∧ a.2 < b.2).

Lemma key_compare_Lt a b : key_compare a b = Lt ↔ key_lt a b.
Proof.
  destruct a as [[a1 a2] a3], b as [[b1 b2] b3]. unfold key_compare, key_lt; cbn.
  destruct (Z.compare_spec a1 b1), (Z.compare_spec a2 b2), (Z.compare_spec a3 b3);
    split; intros; try done; (lia || (exfalso; lia)).
Qed.

Lemma key_compare_antisym a b : key_compare b a = CompOpp (key_compare a b).
Proof.
  unfold key_compare. rewrite (Z.compare_antisym a.1.1 b.1.1), (Z.compare_antisym a.1.2 b.1.2),
    (Z.compare_antisym a.2 b.2).
  by destruct (a.1.1 ?= b.1.1), (a.1.2 ?= b.1.2), (a.2 ?= b.2).
Qed.

Lemma SFcompare_key x y :
  not_nan x → not_nan y → SFcompare x y = Some (key_compare (float_key x) (float_key y)).
Proof.
  unfold not_nan, key_compare. intros Hx Hy.
  destruct x as [sx|sx| |sx mx ex], y as [sy|sy| |sy my ey]; try congruence;
    try destruct sx; try destruct sy; cbn; try done.
  - f_equal. rewrite Z.compare_opp, (Z.compare_antisym ex ey).
    by destruct (ex ?= ey).
Qed.

Lemma SFcompare_nan x y : is_nan x || is_nan y → SFcompare x y = None.
Proof. by destruct x as [[]|[]| |[]], y as [[]|[]| |[]]. Qed.

Lemma is_nan_spec x : is_nan x = false ↔ not_nan x.
Proof. unfold not_nan. by destruct x. Qed.

Lemma flt_key x y : flt x y ↔ not_nan x ∧ not_nan y ∧ key_lt (float_key x) (float_key y).
Proof.
  unfold flt, SFltb.
  destruct (is_nan x || is_nan y) eqn:E.
  - rewrite SFcompare_nan by by rewrite E.
    apply orb_true_iff in E. unfold not_nan. destruct x, y; naive_solver.
  - apply orb_false_iff in E as [Hx%is_nan_spec Hy%is_nan_spec].
    rewrite SFcompare_key by done. rewrite <- key_compare_Lt.
    destruct (key_compare _ _); naive_solver.
Qed.

(** Strict weak order on the numbers that are not NaN, as
    [std::priority_queue] and [std::sort] require of a comparison. *)
Lemma flt_irrefl x : ¬ flt x x.
Proof. rewrite flt_key. unfold key_lt. lia. Qed.

Lemma flt_trans x y z : flt x y → flt y z → flt x z.
Proof. rewrite !flt_key. unfold key_lt. intros (?&?&?) (?&?&?). split_and!; [done..|lia]. Qed.

Lemma flt_cotrans x y z : not_nan y → flt x z → flt x y ∨ flt y z.
Proof.
  rewrite !flt_key. intros Hy (?&?&?).
  assert (key_lt (float_key x) (float_key y) ∨ key_lt (float_key y) (float_key z)) by
    (unfold key_lt in *; lia).
  naive_solver.
Qed.

Lemma flt_asym x y : flt x y → ¬ flt y x.
Proof. intros H1 H2. by apply (flt_irrefl x), (flt_trans x y x). Qed.

Lemma flt_not_nan x y : flt x y → not_nan x ∧ not_nan y.
Proof. rewrite flt_key. naive_solver. Qed.
#[export] Hint Resolve flt_irrefl flt_asym : toyvdb.

(** ** Rounding gives a number of the requested sign *)

Lemma iter_pos_inv {A} (P : A → Prop) (f : A → A) n x :
  (∀ y, P y → P (f y)) → P x → P (SpecFloat.iter_pos f n x).
Proof. intros Hf. revert x. induction n; cbn; auto. Qed.

Lemma shr_m_nonneg mrs e n : 0 <= shr_m mrs → 0 <= shr_m (shr mrs e n).1.
Proof.
  intros H. destruct n; cbn; [done| |done].
  apply (iter_pos_inv (λ r, 0 <= shr_m r)); [|done].
  intros [[|[]|] r s]; cbn; lia.
Qed.

Lemma shr_fexp_nonneg prec emax m e l :
  0 <= m → 0 <= shr_m (shr_fexp prec emax m e l).1.
Proof. intros H. apply shr_m_nonneg. by destruct l as [|[]]. Qed.

Lemma round_nearest_even_nonneg m l : 0 <= m → 0 <= round_nearest_even m l.
Proof. intros H. destruct l as [|[]]; cbn; try destruct (Z.even m); lia. Qed.

Lemma binary_round_aux_sign prec emax s m e l :
  0 <= m → has_sign s (binary_round_aux prec emax s m e l).
Proof.
  intros H. unfold binary_round_aux.
  pose proof (shr_fexp_nonneg prec emax m e l H) as H1.
  destruct (shr_fexp prec emax m e l) as [mrs e'].
  pose proof (shr_fexp_nonneg prec emax _ e' loc_Exact
    (round_nearest_even_nonneg (shr_m mrs) (loc_of_shr_record mrs) H1)) as H2.
  destruct (shr_fexp _ _ _ e' _) as [mrs' e'']; cbn in *.
  destruct (shr_m mrs') eqn:E; cbn; [done| |cbn in *; lia]. by destruct (_ <=? _).
Qed.

Lemma binary_round_sign prec emax s m e : has_sign s (binary_round prec emax s m e).
Proof.
  unfold binary_round. destruct (shl_align _ _ _). by apply binary_round_aux_sign.
Qed.

Lemma binary_normalize_not_nan prec emax m e s :
  not_nan (binary_normalize prec emax m e s).
Proof.
  destruct m as [|p|p]; [done|..]; cbn.
  - pose proof (binary_round_sign prec emax false p e). by intros E; rewrite E in *.
  - pose proof (binary_round_sign prec emax true p e). by intros E; rewrite E in *.
Qed.

Lemma binary_normalize_sign prec emax m e :
  0 <= m → has_sign false (binary_normalize prec emax m e false).
Proof. destruct m; cbn; intros; [done|apply binary_round_sign|lia]. Qed.

Lemma has_sign_not_nan s x : has_sign s x → not_nan x.
Proof. unfold not_nan. by destruct x. Qed.
#[export] Hint Resolve has_sign_not_nan binary_normalize_not_nan : toyvdb.

(** The difference of two finite numbers is not NaN. *)
Lemma fsub_finite x y : finite x → finite y → not_nan (fsub x y).
Proof.
  intros Hx Hy. destruct x as [[]|[]| |sx mx ex], y as [[]|[]| |sy my ey]; try done.
  apply binary_normalize_not_nan.
Qed.

(** The square of a number that is not NaN has a clear sign bit. *)
Lemma fmul_square x : not_nan x → has_sign false (fmul x x).
Proof.
  intros Hx. destruct x as [s|s| |s m e]; cbn; try by rewrite ?xorb_nilpotent.
  rewrite xorb_nilpotent. by apply binary_round_aux_sign.
Qed.

Lemma SFadd_sign prec emax x y : has_sign false x → has_sign false y → has_sign false (SFadd prec emax x y).
Proof.
  intros Hx Hy. destruct x as [?|?| |? mx ex], y as [?|?| |? my ey]; cbn in *; simplify_eq; try done.
  apply binary_normalize_sign. unfold cond_Zopp. lia.
Qed.

Lemma fadd_sign x y : has_sign false x → has_sign false y → has_sign false (fadd x y).
Proof. apply SFadd_sign. Qed.

(** Multiplication and addition commute. *)
Lemma fmul_comm x y : fmul x y = fmul y x.
Proof.
  destruct x as [s|s| |s m e], y as [s'|s'| |s' m' e']; cbn; try done;
    rewrite (xorb_comm s s'); try done.
  by rewrite (Pos.mul_comm m m'), (Z.add_comm e e').
Qed.

(** [x - x] is zero on finite numbers. *)
Lemma fsub_diag x : finite x → fsub x x = S754_zero false.
Proof.
  destruct x as [[]|[]| |s m e]; try done.
  intros _. unfold fsub, SFsub. by rewrite Z.sub_diag.
Qed.

(** The sign of a difference does not change its square. *)
Lemma binary_normalize_opp prec emax m e :
  binary_normalize prec emax (- m) e false = SFopp (binary_normalize prec emax m e false) ∨ m = 0.
Proof.
  assert (∀ s p, binary_round prec emax (negb s) p e = SFopp (binary_round prec emax s p e)) as H.
  { intros s p. unfold binary_round. destruct (shl_align _ _ _) as [mz ez].
    unfold binary_round_aux. destruct (shr_fexp _ _ _ ez _) as [? e'].
    destruct (shr_fexp _ _ _ e' _) as [r e'']. destruct (shr_m r); [done| |done].
    by destruct (_ <=? _). }
  destruct m as [|p|p]; cbn; [by right|left; apply (H false)|left].
  rewrite <- (H true p). done.
Qed.

Lemma fmul_opp_square x : fmul (SFopp x) (SFopp x) = fmul x x.
Proof. by destruct x as [[]|[]| |[] ? ?]. Qed.

Lemma fsub_swap_square x y :
  fmul (fsub x y) (fsub x y) = fmul (fsub y x) (fsub y x).
Proof.
  destruct x as [[]|[]| |sx mx ex], y as [[]|[]| |sy my ey]; try done.
  1,2: by rewrite <- fmul_opp_square; cbn; rewrite ?negb_involutive.
  all: try (by rewrite <- fmul_opp_square; cbn; rewrite ?negb_involutive).
  unfold fsub, SFsub. rewrite (Z.min_comm ey ex).
  set (a := cond_Zopp sx _). set (b := cond_Zopp sy _).
  destruct (binary_normalize_opp 24 128 (a - b) (Z.min ex ey)) as [H|H].
  - replace (b - a) with (- (a - b)) by lia. by rewrite H, fmul_opp_square.
  - by replace (b - a) with (a - b) by lia.
Qed.

(** ** Storing and loading a number *)

Section Roundtrip.
Context (mw ew : Z) (Hmw : 0 < mw) (Hew : 0 < ew).

Lemma encode_decode_bits b :
  0 <= b < 2 ^ (mw + ew + 1) → not_nan (decode_bits mw ew b) →
  encode_bits mw ew (decode_bits mw ew b) = b.
Proof using Hmw Hew.
  rewrite !Z.pow_add_r, Z.pow_1_r by lia. unfold decode_bits, encode_bits.
  rewrite !Z.pow_add_r by lia.
  assert (0 < 2 ^ mw) as HM by (apply Z.pow_pos_nonneg; lia).
  assert (0 < 2 ^ ew) as HE by (apply Z.pow_pos_nonneg; lia).
  set (B := 2 ^ mw) in *. set (F := 2 ^ ew) in *. intros Hb Hn.
  rewrite <- Z.div_div in * by lia.
  pose proof (Z.div_mod b B ltac:(lia)) as D1.
  pose proof (Z.mod_pos_bound b B ltac:(lia)) as D2.
  pose proof (Z.div_mod (b / B) F ltac:(lia)) as D3.
  pose proof (Z.mod_pos_bound (b / B) F ltac:(lia)) as D4.
  set (m := b mod B) in *. set (e := (b / B) mod F) in *.
  assert (b / B / F = 0 ∨ b / B / F = 1) as Hs.
  { assert (0 <= b / B < F * 2) by (split; [apply Z.div_pos|apply Z.div_lt_upper_bound]; lia).
    assert (0 <= b / B / F < 2) by (split; [apply Z.div_pos|apply Z.div_lt_upper_bound]; lia).
    lia. }
  set (s := b / B / F) in *.
  assert ((if Z.odd s then B * F else 0) = s * (B * F)) as Hodd by
    (destruct Hs as [-> | ->]; cbn [Z.odd]; lia).
  assert (b = s * (B * F) + e * B + m) as Hb' by nia.
  destruct (e =? F - 1) eqn:E1.
  { destruct (m =? 0) eqn:E2; [|by destruct Hn]. rewrite Hodd. lia. }
  destruct (e =? 0) eqn:E2.
  { destruct m as [|p|p] eqn:Em; rewrite ?Hodd; [nia| |lia].
    destruct (Z.pos p <? B) eqn:E3; nia. }
  destruct (m + B) as [|p|p] eqn:Em; [lia| |lia].
  destruct (Z.pos p <? B) eqn:E3; [lia|]. rewrite Hodd. nia.
Qed.
End Roundtrip.

(** The bits of a number that is not NaN survive a load and a store. *)
Lemma float_of_val w : not_nan (float_val w) → float_of (float_val w) = w.
Proof.
  intros H. unfold float_of, float_val. rewrite encode_decode_bits; [|done..| |done].
  - apply word.of_Z_unsigned.
  - apply (word.unsigned_range w).
Qed.

Lemma double_of_val w : not_nan (double_val w) → double_of (double_val w) = w.
Proof.
  intros H. unfold double_of, double_val. rewrite encode_decode_bits; [|done..| |done].
  - apply word.of_Z_unsigned.
  - apply (word.unsigned_range w).
Qed.

(** ** Integers below [2^53] convert to [double] exactly *)

Lemma digits2_pos_bounds p :
  2 ^ (Zpos (digits2_pos p) - 1) <= Zpos p < 2 ^ Zpos (digits2_pos p).
Proof.
  induction p as [p IH|p IH|]; cbn [digits2_pos]; [..|by vm_compute];
    rewrite Pos2Z.inj_succ; replace (Z.succ (Zpos (digits2_pos p)) - 1)
      with (Z.succ (Zpos (digits2_pos p) - 1)) by lia;
    rewrite !Z.pow_succ_r by lia; lia.
Qed.

Lemma digits2_pos_unique p d :
  0 <= d → 2 ^ (d - 1) <= Zpos p < 2 ^ d → Zpos (digits2_pos p) = d.
Proof.
  intros H0 [H1 H2]. pose proof (digits2_pos_bounds p) as [H3 H4].
  assert (2 ^ (Zpos (digits2_pos p) - 1) < 2 ^ d) as A%Z.pow_lt_mono_r_iff by lia; [|lia..].
  assert (2 ^ (d - 1) < 2 ^ Zpos (digits2_pos p)) as B by lia.
  destruct (decide (d = 0)) as [->|]; [change (2 ^ 0) with 1 in *; lia|].
  apply Z.pow_lt_mono_r_iff in B; lia.
Qed.

Lemma pos_iter_xO p n : Zpos (Pos.iter xO p n) = Zpos p * 2 ^ Zpos n.
Proof.
  induction n as [|n IH] using Pos.peano_ind; [change (2 ^ 1) with 2; cbn [Pos.iter]; lia|].
  rewrite Pos.iter_succ, Pos2Z.inj_succ, Z.pow_succ_r by lia. lia.
Qed.

Lemma shl_align_exact m e e' :
  e' <= e → ∃ m', shl_align m e e' = (m', e') ∧ Zpos m' = Zpos m * 2 ^ (e - e').
Proof.
  intros H. unfold shl_align. destruct (e' - e) as [|p|p] eqn:E; [|lia|].
  - assert (e' = e) as -> by lia. exists m. rewrite Z.sub_diag. split; [done|lia].
  - exists (Pos.iter xO m p). split; [done|].
    rewrite pos_iter_xO. do 2 f_equal. lia.
Qed.

(** A significand of the full width is already rounded. *)
Lemma binary_round_aux_exact prec emax s m e :
  0 < prec → 3 - emax - prec <= e → e <= emax - prec → Zpos (digits2_pos m) = prec →
  binary_round_aux prec emax s (Zpos m) e loc_Exact = S754_finite s m e.
Proof.
  intros Hp Hmin Hmax Hd.
  assert (shr_fexp prec emax (Zpos m) e loc_Exact = ({| shr_m := Zpos m; shr_r := false; shr_s := false |}, e)) as Hs.
  { unfold shr_fexp, fexp, emin, Zdigits2. rewrite Hd.
    replace (Z.max (prec + e - prec) (3 - emax - prec) - e) with 0 by lia. done. }
  unfold binary_round_aux. rewrite Hs. cbn. rewrite Hs. cbn.
  by rewrite (proj2 (Z.leb_le _ _) Hmax).
Qed.

Lemma binary_round_int s p :
  Zpos p < 2 ^ 53 →
  ∃ m, binary_round 53 1024 s p 0 = S754_finite s m (Zpos (digits2_pos p) - 53) ∧
       Zpos m = Zpos p * 2 ^ (53 - Zpos (digits2_pos p)).
Proof.
  intros Hp. pose proof (digits2_pos_bounds p) as [H1 H2].
  assert (Zpos (digits2_pos p) <= 53) as Hd.
  { assert (2 ^ (Zpos (digits2_pos p) - 1) < 2 ^ 53) as A%Z.pow_lt_mono_r_iff by lia; lia. }
  unfold binary_round. set (d := Zpos (digits2_pos p)) in *.
  assert (fexp 53 1024 (d + 0) = d - 53) as -> by (unfold fexp, emin; lia).
  destruct (shl_align_exact p 0 (d - 53)) as (m & -> & Hm); [lia|].
  replace (0 - (d - 53)) with (53 - d) in Hm by lia.
  exists m. split; [|done]. apply binary_round_aux_exact; try lia.
  apply digits2_pos_unique; [lia|]. rewrite Hm.
  replace (2 ^ (53 - 1)) with (2 ^ (d - 1) * 2 ^ (53 - d)) by (rewrite <- Z.pow_add_r by lia; f_equal; lia).
  replace (2 ^ 53) with (2 ^ d * 2 ^ (53 - d)) by (rewrite <- Z.pow_add_r by lia; f_equal; lia).
  assert (0 < 2 ^ (53 - d)) by (apply Z.pow_pos_nonneg; lia). nia.
Qed.

(** The magnitude's position among the finite numbers. *)
Lemma int_key_lt p q m n :
  Zpos p < Zpos q →
  Zpos m = Zpos p * 2 ^ (53 - Zpos (digits2_pos p)) → Zpos n = Zpos q * 2 ^ (53 - Zpos (digits2_pos q)) →
  Zpos q < 2 ^ 53 →
  Zpos (digits2_pos p) < Zpos (digits2_pos q) ∨
  Zpos (digits2_pos p) = Zpos (digits2_pos q) ∧ Zpos m < Zpos n.
Proof.
  intros Hpq Hm Hn Hq.
  pose proof (digits2_pos_bounds p) as [H1 H2]. pose proof (digits2_pos_bounds q) as [H3 H4].
  assert (2 ^ (Zpos (digits2_pos p) - 1) < 2 ^ Zpos (digits2_pos q)) as A%Z.pow_lt_mono_r_iff by lia; [|lia..].
  assert (2 ^ (Zpos (digits2_pos q) - 1) < 2 ^ 53) as B%Z.pow_lt_mono_r_iff by lia; [|lia..].
  destruct (Z.eq_dec (Zpos (digits2_pos p)) (Zpos (digits2_pos q))) as [E|]; [right|left; lia].
  split; [done|]. rewrite Hm, Hn, E.
  apply Z.mul_lt_mono_pos_r; [apply Z.pow_pos_nonneg; lia|lia].
Qed.

Lemma double_of_int_lt a b :
  Z.abs a < 2 ^ 53 → Z.abs b < 2 ^ 53 → a < b → flt (double_of_int a) (double_of_int b).
Proof.
  intros Ha Hb Hab. unfold double_of_int.
  destruct a as [|p|p], b as [|q|q]; try lia; cbn [binary_normalize].
  - destruct (binary_round_int false q) as (n & -> & _); [lia|done].
  - destruct (binary_round_int false p) as (m & -> & Hm); [lia|].
    destruct (binary_round_int false q) as (n & -> & Hn); [lia|].
    apply flt_key. split_and!; [done..|]. right. split; [done|]. cbn.
    pose proof (int_key_lt p q m n ltac:(lia) Hm Hn ltac:(lia)). lia.
  - destruct (binary_round_int true p) as (m & -> & _); [lia|done].
  - destruct (binary_round_int true p) as (m & -> & _); [lia|].
    destruct (binary_round_int false q) as (n & -> & _); [lia|done].
  - destruct (binary_round_int true p) as (m & -> & Hm); [lia|].
    destruct (binary_round_int true q) as (n & -> & Hn); [lia|].
    apply flt_key. split_and!; [done..|]. right. split; [done|]. cbn -[Z.sub].
    pose proof (int_key_lt q p n m ltac:(lia) Hn Hm ltac:(lia)). lia.
Qed.
