(* ===== verification/Rounding.v ===== *)
(** * What rounding to nearest even keeps

    Rounding an exact value [m * 2^e] to a binary format does not cross a number
    of the format, and its result is in canonical form. With these facts the
    bounds of sums, products, quotients and square roots follow those of the
    exact values. *)
From coqutil Require Import Word.Interface Word.Properties Word.Naive.
From S2P Require Import Prelude Binary.
Local Open Scope Z_scope.

(** ** Comparing [m * 2^e] with [b * 2^k] *)

Definition le2 (m e b k : Z) : Prop := m * 2 ^ Z.max 0 (e - k) <= b * 2 ^ Z.max 0 (k - e).

Lemma pow2_pos n : 0 <= n → 0 < 2 ^ n.
Proof. intros. by apply Z.pow_pos_nonneg. Qed.

Lemma pow2_add a b : 0 <= a → 0 <= b → 2 ^ (a + b) = 2 ^ a * 2 ^ b.
Proof. intros. by apply Z.pow_add_r. Qed.

(** At a common scale. *)
Lemma le2_scale g m e b k : g <= e → g <= k → le2 m e b k ↔ m * 2 ^ (e - g) <= b * 2 ^ (k - g).
Proof.
  intros He Hk. unfold le2. destruct (Z.le_ge_cases e k).
  - rewrite (Z.max_l 0 (e - k)), (Z.max_r 0 (k - e)) by lia.
    replace (k - g) with (k - e + (e - g)) by lia. rewrite (pow2_add (k - e)) by lia.
    pose proof (pow2_pos (e - g)). rewrite Z.pow_0_r, Z.mul_1_r, Z.mul_assoc.
    apply Z.mul_le_mono_pos_r. lia.
  - rewrite (Z.max_r 0 (e - k)), (Z.max_l 0 (k - e)) by lia.
    replace (e - g) with (e - k + (k - g)) by lia. rewrite (pow2_add (e - k)) by lia.
    pose proof (pow2_pos (k - g)). rewrite Z.pow_0_r, Z.mul_1_r, Z.mul_assoc.
    apply Z.mul_le_mono_pos_r. lia.
Qed.

Lemma le2_refl m e : le2 m e m e.
Proof. unfold le2. by rewrite Z.sub_diag. Qed.

Lemma le2_trans a ea b eb c ec : le2 a ea b eb → le2 b eb c ec → le2 a ea c ec.
Proof.
  set (g := Z.min ea (Z.min eb ec)). rewrite !(le2_scale g) by lia. lia.
Qed.

(** The same value with another exponent. *)
Lemma le2_shift_l m e n b k : 0 <= n → le2 (m * 2 ^ n) e b k ↔ le2 m (e + n) b k.
Proof.
  intros Hn. rewrite !(le2_scale (Z.min e k)) by lia.
  replace (e + n - Z.min e k) with (n + (e - Z.min e k)) by lia.
  by rewrite pow2_add, Z.mul_assoc by lia.
Qed.

Lemma le2_shift_r m e b n k : 0 <= n → le2 m e (b * 2 ^ n) k ↔ le2 m e b (k + n).
Proof.
  intros Hn. rewrite !(le2_scale (Z.min e k)) by lia.
  replace (k + n - Z.min e k) with (n + (k - Z.min e k)) by lia.
  by rewrite pow2_add, Z.mul_assoc by lia.
Qed.

Lemma le2_mono m m' e b k : m <= m' → le2 m' e b k → le2 m e b k.
Proof.
  intros Hm. rewrite !(le2_scale (Z.min e k)) by lia. pose proof (pow2_pos (e - Z.min e k)). nia.
Qed.

(** A multiple of [2^e] is an integer at the scale [e]. *)
Lemma le2_below m e b k : e <= k → le2 m e b k ↔ m <= b * 2 ^ (k - e).
Proof. intros. rewrite (le2_scale e) by lia. by rewrite Z.sub_diag, Z.pow_0_r, Z.mul_1_r. Qed.

Lemma le2_above m e b k : e <= k → le2 b k m e ↔ b * 2 ^ (k - e) <= m.
Proof. intros. rewrite (le2_scale e) by lia. by rewrite Z.sub_diag, Z.pow_0_r, Z.mul_1_r. Qed.


(** ** Shifting out digits *)

Definition inexact (r : shr_record) : bool := shr_r r || shr_s r.

(** [r'] is [r] without its last [n] digits. *)
Record shifted (n : Z) (r r' : shr_record) : Prop := {
  sh_nonneg : 0 <= shr_m r';
  sh_floor : shr_m r' * 2 ^ n <= shr_m r < (shr_m r' + 1) * 2 ^ n;
  sh_exact : inexact r' → inexact r ∨ shr_m r' * 2 ^ n < shr_m r;
}.

Lemma shifted_refl r : 0 <= shr_m r → shifted 0 r r.
Proof. intros. split; [done|lia|by left]. Qed.

Lemma shifted_trans n n' r r' r'' :
  0 <= n → 0 <= n' → shifted n r r' → shifted n' r' r'' → shifted (n + n') r r''.
Proof.
  intros Hn Hn' [H1 H2 H3] [H4 H5 H6]. pose proof (pow2_pos n Hn). pose proof (pow2_pos n' Hn').
  split; rewrite ?pow2_add by lia; [done|nia|].
  intros [Hx|Hx]%H6; [|right; nia]. destruct (H3 Hx) as [?|?]; [by left|right; nia].
Qed.

Lemma shr_1_shifted r : 0 <= shr_m r → shifted 1 r (shr_1 r).
Proof.
  intros H. destruct r as [[|[p|p|]|p] r s]; cbn in H; try lia; unfold shr_1; split; cbn; try lia;
    unfold inexact; cbn; intros; try (right; lia); left; by destruct r, s.
Qed.

Lemma iter_shr_shifted n r : 0 <= shr_m r → shifted (Zpos n) r (SpecFloat.iter_pos shr_1 n r).
Proof.
  revert r. induction n as [n IH|n IH|]; intros r Hr; cbn [SpecFloat.iter_pos]; [| |by apply shr_1_shifted].
  - pose proof (shr_1_shifted r Hr) as H1. pose proof (IH _ (sh_nonneg _ _ _ H1)) as H2.
    pose proof (IH _ (sh_nonneg _ _ _ H2)) as H3.
    replace (Zpos n~1) with (1 + Zpos n + Zpos n) by lia.
    eapply shifted_trans; [lia|lia| |exact H3]. eapply shifted_trans; [lia|lia|done|done].
  - pose proof (IH _ Hr) as H2. pose proof (IH _ (sh_nonneg _ _ _ H2)) as H3.
    replace (Zpos n~0) with (Zpos n + Zpos n) by lia.
    eapply shifted_trans; [lia|lia|done|done].
Qed.

(** ** The two steps of a rounding *)

Lemma digits_bounds m : 0 < m → 2 ^ (Zdigits2 m - 1) <= m < 2 ^ Zdigits2 m ∧ 1 <= Zdigits2 m.
Proof. intros H. destruct m as [|p|p]; try lia. cbn [Zdigits2]. split; [apply digits2_pos_bounds|lia]. Qed.

Lemma digits_unique m d : 0 < d → 2 ^ (d - 1) <= m < 2 ^ d → Zdigits2 m = d.
Proof.
  intros Hd H. pose proof (pow2_pos (d - 1)). destruct m as [|p|p]; try lia.
  apply digits2_pos_unique; lia.
Qed.

Lemma digits_floor m n m' :
  0 <= n < Zdigits2 m → 0 < m → m' * 2 ^ n <= m < (m' + 1) * 2 ^ n → Zdigits2 m' = Zdigits2 m - n.
Proof.
  intros Hn Hm Hf. destruct (digits_bounds m Hm) as [Hb _]. pose proof (pow2_pos n ltac:(lia)).
  apply digits_unique; [lia|].
  replace (Zdigits2 m - 1) with (Zdigits2 m - n - 1 + n) in Hb by lia.
  replace (Zdigits2 m) with (Zdigits2 m - n + n) in Hb at 2 by lia. rewrite !pow2_add in Hb by lia. nia.
Qed.

Lemma digits_mono m m' : 0 <= m <= m' → Zdigits2 m <= Zdigits2 m'.
Proof.
  intros H. destruct (decide (m = 0)) as [->|]; [by destruct m'; cbn; lia|].
  destruct (digits_bounds m) as [H1 H2]; [lia|]. destruct (digits_bounds m') as [H3 H4]; [lia|].
  assert (2 ^ (Zdigits2 m - 1) < 2 ^ Zdigits2 m') as Hlt by lia. apply Z.pow_lt_mono_r_iff in Hlt; lia.
Qed.

Section Format.
Context (prec emax : Z) (Hprec : 0 < prec).

Lemma fexp_eq x : fexp prec emax x = Z.max (x - prec) (emin prec emax).
Proof. done. Qed.

(** The digits that do not fit. *)
Definition excess (m e : Z) : Z := Z.max 0 (fexp prec emax (Zdigits2 m + e) - e).

Lemma shr_fexp_spec m e l :
  0 <= m → ∃ r, shr_fexp prec emax m e l = (r, e + excess m e) ∧ shifted (excess m e) (shr_record_of_loc m l) r.
Proof.
  intros Hm. unfold shr_fexp, excess, shr. assert (shr_m (shr_record_of_loc m l) = m) as E by by destruct l as [|[]].
  destruct (fexp prec emax (Zdigits2 m + e) - e) as [|n|n].
  - eexists. split; [by rewrite Z.max_id, Z.add_0_r|]. apply shifted_refl. by rewrite E.
  - eexists. split; [done|]. apply iter_shr_shifted. by rewrite E.
  - eexists. split; [by rewrite Z.max_l, Z.add_0_r by lia|]. apply shifted_refl. by rewrite E.
Qed.

Definition floored (n m m' : Z) : Prop := 0 <= m' ∧ m' * 2 ^ n <= m < (m' + 1) * 2 ^ n.

(** Truncate to [m'], round to [m1], truncate again to [m2] (after a carry). *)
Record rounding (m e : Z) (ex : bool) (m' m1 m2 : Z) : Prop := {
  ro_first : floored (excess m e) m m';
  ro_up : m1 = m' ∨ m1 = m' + 1 ∧ (ex = false ∨ m' * 2 ^ excess m e < m);
  ro_second : floored (excess m1 (e + excess m e)) m1 m2;
}.

Definition finish (s : bool) (m2 e2 : Z) : spec_float :=
  match m2 with
  | 0 => S754_zero s
  | Zpos p => if e2 <=? emax - prec then S754_finite s p e2 else S754_infinity s
  | Zneg _ => S754_nan
  end.

Definition is_exact (l : location) : bool := match l with loc_Exact => true | _ => false end.

Lemma binary_round_aux_steps s m e l :
  0 <= m → ∃ m' m1 m2, rounding m e (is_exact l) m' m1 m2 ∧
    binary_round_aux prec emax s m e l = finish s m2 (e + excess m e + excess m1 (e + excess m e)).
Proof.
  intros Hm. destruct (shr_fexp_spec m e l Hm) as (r & Hr & [Hr0 Hr1 Hr2]).
  assert (shr_m (shr_record_of_loc m l) = m) as E by by destruct l as [|[]]. rewrite E in *.
  set (m1 := round_nearest_even (shr_m r) (loc_of_shr_record r)).
  assert (0 <= m1) as Hm1 by by apply round_nearest_even_nonneg.
  destruct (shr_fexp_spec m1 (e + excess m e) loc_Exact Hm1) as (r2 & Hr' & [Hs0 Hs1 _]). cbn in Hs1.
  exists (shr_m r), m1, (shr_m r2). split; [split|]; [done| |done|].
  - assert (m1 = shr_m r ∨ m1 = shr_m r + 1 ∧ inexact r) as [?|[? Hi]]; [|by left|].
    { unfold m1, inexact. destruct r as [mr [] []]; cbn; auto. by destruct (Z.even mr); auto. }
    right. split; [done|]. destruct (Hr2 Hi) as [Hl|]; [left|by right]. by destruct l as [|[]].
  - unfold binary_round_aux. rewrite Hr. cbn zeta. fold m1. by rewrite Hr'.
Qed.

Lemma excess_nonneg m e : 0 <= excess m e.
Proof. unfold excess. lia. Qed.

(** The exponent after truncation. *)
Lemma excess_pos m e :
  0 < excess m e → e + excess m e = Z.max (Zdigits2 m + e - prec) (emin prec emax).
Proof. unfold excess. rewrite fexp_eq. lia. Qed.

(** ** Rounding does not cross a number of the format *)

Context (b k : Z) (Hb : 0 < b < 2 ^ prec) (Hk : emin prec emax <= k).

Lemma big_value m e : 0 < m → k + prec <= Zdigits2 m + e - 1 → le2 m e b k → False.
Proof using Hb Hprec.
  intros Hm Hd Hle. destruct (digits_bounds m Hm) as [[Hl _] Hd1].
  apply (le2_scale (Z.min e k)) in Hle; [|lia..]. set (g := Z.min e k) in *.
  assert (2 ^ (Zdigits2 m - 1) * 2 ^ (e - g) <= m * 2 ^ (e - g)) as H1.
  { apply Z.mul_le_mono_nonneg_r; [|done]. pose proof (pow2_pos (e - g)). lia. }
  rewrite <- pow2_add in H1 by lia.
  assert (2 ^ (prec + (k - g)) <= 2 ^ (Zdigits2 m - 1 + (e - g))) as H2 by (apply Z.pow_le_mono_r; lia).
  rewrite pow2_add in H2 by lia. pose proof (pow2_pos (k - g) ltac:(lia)). nia.
Qed.

Lemma rounded_upper m e (ex : bool) m' m1 m2 :
  0 <= m → le2 (if ex then m else m + 1) e b k → rounding m e ex m' m1 m2 →
  le2 m1 (e + excess m e) b k.
Proof using Hb Hk Hprec.
  intros Hm Hle [[Hm' Hf] Hup _]. pose proof (excess_nonneg m e) as Hn.
  destruct (decide (excess m e = 0)) as [E|E].
  { rewrite E, Z.add_0_r in *. change (2 ^ 0) with 1 in *. eapply le2_mono; [|exact Hle]. destruct ex; lia. }
  pose proof (excess_pos m e ltac:(lia)) as He. set (n := excess m e) in *.
  assert (le2 m e b k) as Hle0 by (eapply le2_mono; [|exact Hle]; destruct ex; lia).
  destruct (decide (e + n <= k)) as [Hek|Hek].
  - apply le2_below; [lia|]. set (T := b * 2 ^ (k - (e + n))) in *.
    assert (b * 2 ^ (k - e) = T * 2 ^ n) as HT.
    { unfold T. rewrite <- Z.mul_assoc, <- pow2_add by lia. do 2 f_equal. lia. }
    apply le2_below in Hle, Hle0; [|lia..]. pose proof (pow2_pos n ltac:(lia)).
    assert (m1 = m' + 1 → m' * 2 ^ n < T * 2 ^ n) as Hlt by (destruct ex; lia).
    destruct Hup as [->|[-> Hx]]; [nia|]. specialize (Hlt eq_refl). nia.
  - destruct (decide (m = 0)) as [->|]; [cbn in He; lia|].
    destruct (big_value m e ltac:(lia) ltac:(lia) Hle0).
Qed.

(** Truncation keeps lower bounds. *)
Lemma floored_lower m e m' :
  0 < m → le2 b k m e → floored (excess m e) m m' → le2 b k m' (e + excess m e).
Proof using Hb Hk Hprec.
  intros Hm Hle [Hm' Hf]. pose proof (excess_nonneg m e) as Hn.
  destruct (decide (excess m e = 0)) as [E|E].
  { rewrite E, Z.add_0_r in *. change (2 ^ 0) with 1 in *. by assert (m' = m) as -> by lia. }
  pose proof (excess_pos m e ltac:(lia)) as He. set (n := excess m e) in *. pose proof (pow2_pos n ltac:(lia)).
  destruct (decide (e + n <= k)) as [Hek|Hek].
  - apply le2_above; [lia|]. apply le2_above in Hle; [|lia].
    replace (k - e) with (k - (e + n) + n) in Hle by lia. rewrite pow2_add, Z.mul_assoc in Hle by lia. nia.
  - destruct (digits_bounds m Hm) as [[Hl _] _].
    replace (Zdigits2 m - 1) with (prec - 1 + n) in Hl by lia. rewrite pow2_add in Hl by lia.
    assert (2 ^ (prec - 1) <= m') as Hm1 by nia.
    apply (le2_scale k); [lia..|]. rewrite Z.sub_diag, Z.pow_0_r, Z.mul_1_r.
    replace (e + n - k) with (1 + (e + n - k - 1)) by lia. rewrite pow2_add by lia.
    replace prec with (prec - 1 + 1) in Hb by lia. rewrite pow2_add in Hb by lia.
    pose proof (pow2_pos (e + n - k - 1) ltac:(lia)). nia.
Qed.

(** ** Bounds of the rounded number *)

Context (Hmax : k <= emax - prec).

(** At most [b * 2^k] in magnitude, and finite. *)
Definition fle (x : spec_float) (b k : Z) : Prop :=
  match x with
  | S754_zero _ => True
  | S754_finite _ m e => le2 (Zpos m) e b k
  | _ => False
  end.

(** Positive and at least [b * 2^k]. *)
Definition fge (x : spec_float) (b k : Z) : Prop :=
  match x with
  | S754_finite false m e => le2 b k (Zpos m) e
  | S754_infinity false => True
  | _ => False
  end.

Lemma binary_round_aux_upper s m e l :
  0 <= m → e <= emax - prec → le2 (if is_exact l then m else m + 1) e b k →
  fle (binary_round_aux prec emax s m e l) b k.
Proof using Hb Hk Hprec Hmax.
  intros Hm He Hle. destruct (binary_round_aux_steps s m e l Hm) as (m' & m1 & m2 & Hr & ->).
  pose proof (rounded_upper m e _ m' m1 m2 Hm Hle Hr) as H1. destruct Hr as [Hf1 Hup [Hm2 Hf2]].
  pose proof (excess_nonneg m e). pose proof (excess_nonneg m1 (e + excess m e)).
  assert (le2 m e b k) as Hle0 by (eapply le2_mono; [|exact Hle]; destruct (is_exact l); lia).
  set (e1 := e + excess m e) in *. set (e2 := e1 + excess m1 e1) in *.
  assert (le2 m2 e2 b k) as H2 by (apply le2_shift_l; [done|]; eapply le2_mono; [|exact H1]; lia).
  unfold finish. destruct m2 as [|p|p]; [done| |lia]. destruct (Z.leb_spec e2 (emax - prec)) as [|Hover]; [done|].
  assert (0 < m1) as Hm1 by (pose proof (pow2_pos (excess m1 e1)); nia).
  assert (emin prec emax <= emax - prec) by lia. exfalso.
  destruct (decide (excess m1 e1 = 0)) as [E1|E1].
  - assert (0 < excess m e) as E by lia. pose proof (excess_pos m e E) as He1. fold e1 in He1.
    assert (m ≠ 0) by (intros ->; cbn in He1; lia). apply (big_value m e); [lia|lia|done].
  - pose proof (excess_pos m1 e1 ltac:(lia)) as He2. fold e2 in He2. apply (big_value m1 e1); [lia|lia|done].
Qed.

Lemma binary_round_aux_lower m e l :
  0 < m → le2 b k m e → fge (binary_round_aux prec emax false m e l) b k.
Proof using Hb Hk Hprec.
  intros Hm Hle. destruct (binary_round_aux_steps false m e l ltac:(lia)) as (m' & m1 & m2 & Hr & ->).
  destruct Hr as [Hf1 Hup Hf2]. pose proof (floored_lower m e m' Hm Hle Hf1) as H1.
  assert (m' <= m1) as Hm1 by lia.
  assert (0 < m') as Hm'. { unfold le2 in H1. pose proof (pow2_pos (Z.max 0 (k - (e + excess m e)))).
    pose proof (pow2_pos (Z.max 0 (e + excess m e - k))). destruct Hf1. nia. }
  assert (le2 b k m1 (e + excess m e)) as H1'.
  { eapply le2_trans; [exact H1|]. apply (le2_mono _ m1); [done|apply le2_refl]. }
  pose proof (floored_lower m1 _ m2 ltac:(lia) H1' Hf2) as H2. destruct Hf2 as [Hm2 _].
  unfold finish. destruct m2 as [|p|p]; [|by destruct (_ <=? _)|lia].
  unfold le2 in H2. pose proof (pow2_pos (Z.max 0 (k - (e + excess m e + excess m1 (e + excess m e))))). nia.
Qed.
End Format.

(** ** Bounds of sums and products *)

Lemma le2_add m m' e b b' k : le2 m e b k → le2 m' e b' k → le2 (m + m') e (b + b') k.
Proof. unfold le2. lia. Qed.

Lemma le2_mul m e b k m' e' b' k' :
  0 <= m → 0 <= m' → le2 m e b k → le2 m' e' b' k' → le2 (m * m') (e + e') (b * b') (k + k').
Proof.
  intros Hm Hm'. set (g := Z.min e k). set (g' := Z.min e' k').
  rewrite (le2_scale g), (le2_scale g'), (le2_scale (g + g')) by lia.
  replace (e + e' - (g + g')) with ((e - g) + (e' - g')) by lia.
  replace (k + k' - (g + g')) with ((k - g) + (k' - g')) by lia.
  rewrite !pow2_add by lia. intros H1 H2.
  replace (m * m' * (2 ^ (e - g) * 2 ^ (e' - g'))) with ((m * 2 ^ (e - g)) * (m' * 2 ^ (e' - g'))) by lia.
  replace (b * b' * (2 ^ (k - g) * 2 ^ (k' - g'))) with ((b * 2 ^ (k - g)) * (b' * 2 ^ (k' - g'))) by lia.
  pose proof (pow2_pos (e - g)). pose proof (pow2_pos (e' - g')). apply Z.mul_le_mono_nonneg; nia.
Qed.

Lemma fle_mono x b b' k : b <= b' → fle x b k → fle x b' k.
Proof.
  intros Hb. destruct x as [| | |s m e]; cbn; try done. intros H. eapply le2_trans; [exact H|].
  apply (le2_mono _ b'); [done|apply le2_refl].
Qed.

Lemma fle_weaken x b k b' k' : le2 b k b' k' → fle x b k → fle x b' k'.
Proof. intros Hb. destruct x as [| | |s m e]; cbn; try done. intros H. by eapply le2_trans. Qed.

Lemma fle_finite x b k : fle x b k → finite x.
Proof. by destruct x. Qed.

(** A bound of the value bounds the exponent. *)
Lemma le2_exp m e b k n : 0 < m → 0 <= n → b < 2 ^ n → le2 m e b k → e < n + k.
Proof.
  intros Hm Hn Hb Hle. destruct (Z.lt_ge_cases e (n + k)) as [|H]; [done|]. exfalso.
  apply (le2_scale k) in Hle; [|lia..]. rewrite Z.sub_diag, Z.pow_0_r, Z.mul_1_r in Hle.
  assert (2 ^ n <= 2 ^ (e - k)) by (apply Z.pow_le_mono_r; lia). nia.
Qed.

Lemma shl_align_min p e f :
  ∃ p', shl_align p e f = (p', Z.min e f) ∧ Zpos p' = Zpos p * 2 ^ (e - Z.min e f).
Proof.
  destruct (Z.le_ge_cases f e) as [H|H].
  - rewrite Z.min_r by lia. by apply shl_align_exact.
  - rewrite Z.min_l, Z.sub_diag, Z.pow_0_r, Z.mul_1_r by lia. exists p. split; [|done].
    unfold shl_align. destruct (f - e) eqn:E; [done|done|lia].
Qed.

Section Ops.
Context (prec emax : Z) (Hprec : 0 < prec) (Hwide : 3 * prec <= emax).

Section Round.
Context (b k : Z) (Hb : 0 < b < 2 ^ prec) (Hk : emin prec emax <= k <= emax - prec).

Lemma binary_round_upper s p e :
  e <= emax - prec → le2 (Zpos p) e b k → fle (binary_round prec emax s p e) b k.
Proof using Hb Hk Hprec.
  intros He Hle. unfold binary_round.
  destruct (shl_align_min p e (fexp prec emax (Zpos (digits2_pos p) + e))) as (p' & -> & Hp).
  set (e' := Z.min _ _) in *. apply binary_round_aux_upper; [done|done|lia|lia|lia|lia|]. cbn [is_exact].
  rewrite Hp. apply le2_shift_l; [lia|]. by replace (e' + (e - e')) with e by lia.
Qed.

Lemma binary_round_lower p e : le2 b k (Zpos p) e → fge (binary_round prec emax false p e) b k.
Proof using Hb Hk Hprec.
  intros Hle. unfold binary_round.
  destruct (shl_align_min p e (fexp prec emax (Zpos (digits2_pos p) + e))) as (p' & -> & Hp).
  set (e' := Z.min _ _) in *. apply binary_round_aux_lower; [done|done|lia|lia|].
  rewrite Hp. apply le2_shift_r; [lia|]. by replace (e' + (e - e')) with e by lia.
Qed.

Lemma binary_normalize_upper v e s :
  e <= emax - prec → le2 (Z.abs v) e b k → fle (binary_normalize prec emax v e s) b k.
Proof using Hb Hk Hprec.
  intros He Hle. destruct v as [|p|p]; [done|..]; by apply binary_round_upper.
Qed.
End Round.

(** The sum, aligned at the smaller exponent. *)
Lemma cond_Zopp_abs s m : 0 <= m → Z.abs (cond_Zopp s m) = m.
Proof. destruct s; cbn; lia. Qed.

Lemma align_min s m e e' :
  ∃ m', cond_Zopp s (Zpos (shl_align m e (Z.min e e')).1) = cond_Zopp s m' ∧ m' = Zpos m * 2 ^ (e - Z.min e e').
Proof.
  destruct (shl_align_min m e (Z.min e e')) as (p & -> & Hp). exists (Zpos p). split; [done|].
  rewrite Hp. do 2 f_equal. lia.
Qed.

Lemma SFadd_upper x y b1 b2 k :
  0 <= b1 → 0 <= b2 → 0 < b1 + b2 < 2 ^ prec → emin prec emax <= k <= emax - 2 * prec →
  fle x b1 k → fle y b2 k → fle (SFadd prec emax x y) (b1 + b2) k.
Proof using Hprec Hwide.
  intros H1 H2 Hb Hk Hx Hy.
  destruct x as [[]| | |sx mx ex], y as [[]| | |sy my ey]; try done;
    try (by apply (fle_mono _ b1); [lia|]); try (by apply (fle_mono _ b2); [lia|]).
  cbn [fle] in Hx, Hy. unfold SFadd. destruct (align_min sx mx ex ey) as (a & -> & Ha).
  rewrite (Z.min_comm ex ey). destruct (align_min sy my ey ex) as (c & -> & Hc). rewrite Z.min_comm in Ha.
  set (ez := Z.min ey ex) in *.
  assert (ex < prec + k) by (apply (le2_exp (Zpos mx) ex b1); try lia; done).
  pose proof (pow2_pos (ex - ez)). pose proof (pow2_pos (ey - ez)).
  apply binary_normalize_upper; [lia|lia|lia|].
  apply (le2_mono _ (a + c)); [rewrite Ha, Hc; destruct sx, sy; cbn [cond_Zopp]; lia|].
  apply le2_add; [rewrite Ha|rewrite Hc]; apply le2_shift_l; try lia;
    [by replace (ez + (ex - ez)) with ex by lia|by replace (ez + (ey - ez)) with ey by lia].
Qed.

Lemma SFmul_upper x y b1 k1 b2 k2 :
  0 < b1 → 0 < b2 → b1 * b2 < 2 ^ prec → emin prec emax <= k1 + k2 <= emax - 3 * prec →
  fle x b1 k1 → fle y b2 k2 → fle (SFmul prec emax x y) (b1 * b2) (k1 + k2).
Proof using Hprec Hwide.
  intros H1 H2 Hb Hk Hx Hy. destruct x as [[]| | |sx mx ex], y as [[]| | |sy my ey]; try done.
  cbn [fle] in Hx, Hy.
  assert (ex < prec + k1) by (apply (le2_exp (Zpos mx) ex b1); try nia; done).
  assert (ey < prec + k2) by (apply (le2_exp (Zpos my) ey b2); try nia; done).
  apply binary_round_aux_upper; [done|nia|lia|lia|lia|lia|]. cbn [is_exact].
  rewrite Pos2Z.inj_mul. by apply le2_mul.
Qed.

(** A sum of numbers without sign is at least each of them. *)
Lemma SFadd_lower x y b k :
  0 < b < 2 ^ prec → emin prec emax <= k <= emax - prec →
  has_sign false x → has_sign false y → fge x b k ∨ fge y b k → fge (SFadd prec emax x y) b k.
Proof using Hprec.
  intros Hb Hk Hx Hy. destruct x as [?|?| |? mx ex], y as [?|?| |? my ey]; cbn in Hx, Hy; simplify_eq; try (by cbn; tauto).
  intros Hge. unfold SFadd. destruct (align_min false mx ex ey) as (a & -> & Ha).
  rewrite (Z.min_comm ex ey). destruct (align_min false my ey ex) as (c & -> & Hc). rewrite Z.min_comm in Ha.
  cbn [cond_Zopp]. set (ez := Z.min ey ex) in *. pose proof (pow2_pos (ex - ez)). pose proof (pow2_pos (ey - ez)).
  destruct (a + c) as [|p|p] eqn:E; [nia| |nia]. apply binary_round_lower; [done|done|]. rewrite <- E.
  destruct Hge as [Hge|Hge]; cbn [fge] in Hge.
  - assert (le2 b k a ez) as Hl.
    { rewrite Ha. apply le2_shift_r; [lia|]. by replace (ez + (ex - ez)) with ex by lia. }
    eapply le2_trans; [exact Hl|]. apply (le2_mono _ (a + c)); [nia|apply le2_refl].
  - assert (le2 b k c ez) as Hl.
    { rewrite Hc. apply le2_shift_r; [lia|]. by replace (ez + (ey - ez)) with ey by lia. }
    eapply le2_trans; [exact Hl|]. apply (le2_mono _ (a + c)); [nia|apply le2_refl].
Qed.
End Ops.

(** ** Square roots, quotients and squares against one *)

Section Roots.
Context (prec emax : Z) (Hprec : 1 < prec) (Hwide : 3 * prec <= emax).

Lemma one_lt_pow : 0 < 1 < 2 ^ prec.
Proof using Hprec. pose proof (Z.pow_lt_mono_r 2 0 prec). lia. Qed.

Lemma SFmul_square_lower s m e :
  le2 1 0 (Zpos m) e → fge (SFmul prec emax (S754_finite s m e) (S754_finite s m e)) 1 0.
Proof using Hprec Hwide.
  intros H. cbn [SFmul]. rewrite xorb_nilpotent.
  apply binary_round_aux_lower; [lia|apply one_lt_pow|unfold emin; lia|lia|].
  rewrite Pos2Z.inj_mul. apply (le2_mul 1 0 (Zpos m) e 1 0 (Zpos m) e); done.
Qed.

(** The integer square root with its remainder, at half the exponent. *)
Lemma sqrt_core m e :
  0 < m → ∃ q e' l n, SFsqrt_core_binary prec emax m e = (q, e', l) ∧
    0 <= n ∧ e = 2 * e' + n ∧ e' <= e / 2 ∧ 0 < q ∧
    q * q <= m * 2 ^ n < (q + 1) * (q + 1) ∧ (is_exact l = false → q * q < m * 2 ^ n).
Proof using Hprec Hwide.
  intros Hm. unfold SFsqrt_core_binary. set (f := fexp prec emax _).
  rewrite Z.div2_div in *. set (e' := Z.min f (e / 2)).
  assert (0 <= e - 2 * e') as Hn by (pose proof (Z.mul_div_le e 2); lia).
  assert (match e - 2 * e' with Zpos p => Z.shiftl m (e - 2 * e') | 0 => m | Zneg _ => 0 end = m * 2 ^ (e - 2 * e')) as Hs.
  { destruct (e - 2 * e') eqn:E; [by rewrite Z.pow_0_r, Z.mul_1_r|by rewrite <- E, Z.shiftl_mul_pow2 by lia|lia]. }
  rewrite Hs. pose proof (pow2_pos (e - 2 * e') Hn). set (m' := m * 2 ^ (e - 2 * e')) in *.
  pose proof (Z.sqrtrem_spec m' ltac:(nia)) as Hq. destruct (Z.sqrtrem m') as [q r]. destruct Hq as [Hq Hr].
  eexists q, e', _, (e - 2 * e'). split; [done|]. fold m'. split_and!; try lia; try nia.
  destruct (Z.eqb_spec r 0); [done|]. intros _. lia.
Qed.

Lemma SFsqrt_upper x k :
  emin prec emax <= k <= emax - prec → has_sign false x → fle x 1 (2 * k) → fle (SFsqrt prec emax x) 1 k.
Proof using Hprec Hwide.
  intros Hk Hs Hx. destruct x as [| | |s m e]; cbn in Hs; simplify_eq; try done. cbn [SFsqrt fle] in *.
  destruct (sqrt_core (Zpos m) e) as (q & e' & l & n & -> & Hn & He & He' & Hq0 & Hq & Hx'); [lia|].
  assert (e < 1 + 2 * k) as Hek by (apply (le2_exp (Zpos m) e 1); try lia; done).
  assert (e' <= k) as Hek' by (pose proof (Z.div_le_mono e (2 * k) 2); rewrite Z.mul_comm, Z.div_mul in *; lia).
  apply binary_round_aux_upper; [lia|apply one_lt_pow|lia|lia|lia|lia|].
  apply le2_below; [done|]. rewrite Z.mul_1_l.
  apply (le2_scale (2 * e')) in Hx; [|lia..].
  replace (e - 2 * e') with n in Hx by lia. replace (2 * k - 2 * e') with ((k - e') + (k - e')) in Hx by lia.
  rewrite pow2_add in Hx by lia. pose proof (pow2_pos (k - e')). destruct (is_exact l); [nia|].
  specialize (Hx' eq_refl). nia.
Qed.

Lemma SFsqrt_lower x : fge x 1 0 → fge (SFsqrt prec emax x) 1 0.
Proof using Hprec Hwide.
  intros Hx. destruct x as [|[]| |[] m e]; try done. cbn [SFsqrt fge] in *.
  destruct (sqrt_core (Zpos m) e) as (q & e' & l & n & -> & Hn & He & He' & Hq0 & Hq & _); [lia|].
  apply binary_round_aux_lower; [lia|apply one_lt_pow|unfold emin; lia|lia|].
  destruct (Z.le_ge_cases e' 0) as [H|H].
  - apply le2_above; [done|]. rewrite Z.mul_1_l. apply (le2_scale (2 * e')) in Hx; [|lia..].
    replace (e - 2 * e') with n in Hx by lia. replace (0 - 2 * e') with ((0 - e') + (0 - e')) in Hx by lia.
    rewrite pow2_add in Hx by lia. pose proof (pow2_pos (0 - e')). nia.
  - apply (le2_scale 0); [lia..|]. pose proof (pow2_pos (e' - 0)). lia.
Qed.

(** The reciprocal of a number from one on is at most one. *)
Lemma SFdiv_one_upper m1 e1 y :
  Zpos m1 * 2 ^ (- e1) = 2 ^ (- e1) * 2 ^ (- e1) → e1 <= 0 → Zdigits2 (Zpos m1) + e1 = 1 → finite y → fge y 1 0 →
  fle (SFdiv prec emax (S754_finite false m1 e1) y) 1 0.
Proof using Hprec Hwide.
  intros Hm1 He1 Hd Hf Hy. destruct y as [|[]| |[] m e]; try done. cbn [SFdiv fge] in *.
  unfold SFdiv_core_binary. set (f := fexp prec emax _). set (e' := Z.min f (e1 - e)).
  pose proof (pow2_pos (- e1) ltac:(lia)) as Hp1. assert (Zpos m1 = 2 ^ (- e1)) as Em by nia.
  assert (0 <= e1 - e - e') as Hs by lia. set (n := e1 - e - e') in *.
  assert (match n with Zpos _ => Z.shiftl (Zpos m1) n | 0 => Zpos m1 | Zneg _ => 0 end = Zpos m1 * 2 ^ n) as ->.
  { destruct n eqn:E; [by rewrite Z.pow_0_r, Z.mul_1_r|by rewrite <- E, Z.shiftl_mul_pow2 by lia|lia]. }
  assert (1 <= Zdigits2 (Zpos m) + e) as Hdy.
  { destruct (Z.le_gt_cases 1 (Zdigits2 (Zpos m) + e)) as [|Hlt]; [done|].
    destruct (digits_bounds (Zpos m)) as [[_ Hb] Hd1]; [lia|].
    apply (le2_scale e) in Hy; [|lia..]. rewrite Z.sub_diag, Z.pow_0_r in Hy.
    assert (2 ^ Zdigits2 (Zpos m) <= 2 ^ (0 - e)) by (apply Z.pow_le_mono_r; lia). lia. }
  assert (e' <= 0) as He'.
  { unfold e', f. rewrite fexp_eq. unfold emin. rewrite Hd. lia. }
  pose proof (Z_div_mod (Zpos m1 * 2 ^ n) (Zpos m) ltac:(lia)) as Hdm.
  destruct (Z.div_eucl (Zpos m1 * 2 ^ n) (Zpos m)) as [q r]. destruct Hdm as [Hq Hr].
  pose proof (pow2_pos n Hs). assert (0 <= q) by nia.
  apply binary_round_aux_upper; [lia|apply one_lt_pow|unfold emin; lia|lia|done|lia|].
  apply le2_below; [done|]. rewrite Z.mul_1_l. set (T := 2 ^ (0 - e')).
  (* at the scale of the quotient, the dividend is [T] times a value of at least one *)
  assert (Zpos m1 * 2 ^ n <= T * Zpos m) as Hle.
  { rewrite Em, <- pow2_add by lia. unfold T. destruct (Z.le_ge_cases 0 e).
    - assert (2 ^ (- e1 + n) <= 2 ^ (0 - e')) by (apply Z.pow_le_mono_r; lia). pose proof (pow2_pos (0 - e')). nia.
    - apply (le2_scale e) in Hy; [|lia..]. rewrite Z.sub_diag, Z.pow_0_r in Hy.
      replace (- e1 + n) with ((0 - e') + (0 - e)) by lia. rewrite pow2_add by lia. pose proof (pow2_pos (0 - e')). nia. }
  destruct (is_exact _) eqn:El; [nia|].
  assert (r ≠ 0); [|nia]. intros ->. by unfold new_location, new_location_even, new_location_odd in El; destruct (Z.even _).
Qed.
End Roots.

(** ** Results are in canonical form *)

Section Canonical.
Context (prec emax : Z) (Hprec : 1 < prec).

Abbreviation valid := (valid_binary prec emax).

(** The digits reach the exponent of the format or beyond. *)
Definition reaches (m e : Z) : Prop := e <= fexp prec emax (Zdigits2 m + e).

Lemma reaches_excess m e : reaches m e → e + excess prec emax m e = fexp prec emax (Zdigits2 m + e).
Proof using. unfold reaches, excess. lia. Qed.

Lemma excess_reaches m e m' :
  0 <= m → reaches m e → floored (excess prec emax m e) m m' → reaches m' (e + excess prec emax m e).
Proof using Hprec.
  intros Hm Hr [Hm' Hf]. pose proof (reaches_excess m e Hr) as He. unfold reaches in *.
  pose proof (excess_nonneg prec emax m e) as Hn. set (n := excess prec emax m e) in *.
  rewrite !fexp_eq in *. destruct (Z.lt_ge_cases n (Zdigits2 m)) as [Hlt|Hge].
  - destruct (decide (m = 0)) as [->|]; [cbn in Hlt; lia|].
    rewrite (digits_floor m n m') by (done || lia). lia.
  - assert (0 <= Zdigits2 m') by (by destruct m'; cbn). lia.
Qed.

(** Truncating a number of more digits than the format leaves the digits of the format. *)
Lemma binary_round_aux_valid s m e l : 0 <= m → reaches m e → valid (binary_round_aux prec emax s m e l).
Proof using Hprec.
  intros Hm Hr. destruct (binary_round_aux_steps prec emax s m e l Hm) as (m' & m1 & m2 & [Hf1 Hup Hf2] & ->).
  assert (emin prec emax <= e + excess prec emax m e) as Hmin by (rewrite (reaches_excess m e Hr), fexp_eq; lia).
  assert (reaches m1 (e + excess prec emax m e)) as H1.
  { pose proof (excess_reaches m e m' Hm Hr Hf1) as H. unfold reaches in *. destruct Hf1 as [Hm' _].
    pose proof (digits_mono m' m1 ltac:(lia)). rewrite fexp_eq in *. lia. }
  set (e1 := e + excess prec emax m e) in *. pose proof (reaches_excess m1 e1 H1) as He2.
  set (e2 := e1 + excess prec emax m1 e1) in *. destruct Hf2 as [Hm2 Hf2], Hf1 as [Hm' _].
  unfold finish. destruct m2 as [|p|p] eqn:Em2; [done| |lia].
  destruct (Z.leb_spec e2 (emax - prec)) as [Hle|]; [|done].
  cbn [valid_binary]. unfold bounded. apply andb_prop_intro. split; [|by apply Is_true_true, Z.leb_le].
  unfold canonical_mantissa. apply Is_true_true, Z.eqb_eq. change (Zpos (digits2_pos p)) with (Zdigits2 (Zpos p)).
  pose proof (excess_nonneg prec emax m1 e1) as Hn.
  destruct (decide (excess prec emax m1 e1 = 0)) as [E|E].
  - rewrite E in Hf2. change (2 ^ 0) with 1 in Hf2. assert (Zpos p = m1) as -> by lia.
    rewrite He2. f_equal. lia.
  - pose proof (excess_pos prec emax m1 e1 ltac:(lia)) as He2'. fold e2 in He2'.
    assert (0 < m1) by (pose proof (pow2_pos (excess prec emax m1 e1)); nia).
    rewrite (digits_floor m1 (excess prec emax m1 e1) (Zpos p)) by (done || lia). rewrite fexp_eq. lia.
Qed.

Lemma digits_shift p n : 0 <= n → Zdigits2 (Zpos p * 2 ^ n) = Zdigits2 (Zpos p) + n.
Proof using.
  intros Hn. destruct (digits_bounds (Zpos p)) as [Hb Hd]; [lia|]. pose proof (pow2_pos n Hn).
  apply digits_unique; [lia|].
  replace (Zdigits2 (Zpos p) + n - 1) with (Zdigits2 (Zpos p) - 1 + n) by lia. rewrite !pow2_add by lia. nia.
Qed.

Lemma binary_round_valid s p e : valid (binary_round prec emax s p e).
Proof using Hprec.
  unfold binary_round. change (Zpos (digits2_pos p)) with (Zdigits2 (Zpos p)).
  destruct (shl_align_min p e (fexp prec emax (Zdigits2 (Zpos p) + e))) as (p' & -> & Hp).
  apply binary_round_aux_valid; [done|]. unfold reaches. rewrite Hp, digits_shift by lia.
  replace (Zdigits2 (Zpos p) + (e - Z.min e (fexp prec emax (Zdigits2 (Zpos p) + e))) +
    Z.min e (fexp prec emax (Zdigits2 (Zpos p) + e))) with (Zdigits2 (Zpos p) + e) by lia. lia.
Qed.

Lemma binary_normalize_valid v e s : valid (binary_normalize prec emax v e s).
Proof using Hprec. destruct v; [done|apply binary_round_valid..]. Qed.

Lemma valid_finite s m e :
  valid (S754_finite s m e) ↔ fexp prec emax (Zdigits2 (Zpos m) + e) = e ∧ e <= emax - prec.
Proof using.
  cbn [valid_binary]. unfold bounded, canonical_mantissa. rewrite andb_True, !Is_true_true, Z.eqb_eq, Z.leb_le. done.
Qed.

Lemma SFadd_valid x y : valid x → valid y → valid (SFadd prec emax x y).
Proof using Hprec.
  intros Hx Hy. destruct x as [[]|[]| |sx mx ex], y as [[]|[]| |sy my ey]; try done. apply binary_normalize_valid.
Qed.

Lemma SFmul_valid x y : emin prec emax <= 0 → valid x → valid y → valid (SFmul prec emax x y).
Proof using Hprec.
  intros H0 Hx Hy. destruct x as [[]|[]| |sx mx ex], y as [[]|[]| |sy my ey]; try done.
  apply valid_finite in Hx as [Hx _]. apply valid_finite in Hy as [Hy _].
  apply binary_round_aux_valid; [done|]. unfold reaches. rewrite Pos2Z.inj_mul, !fexp_eq in *.
  destruct (digits_bounds (Zpos mx)) as [Hmx Hdx]; [lia|]. destruct (digits_bounds (Zpos my)) as [Hmy Hdy]; [lia|].
  assert (Zdigits2 (2 ^ (Zdigits2 (Zpos mx) - 1 + (Zdigits2 (Zpos my) - 1))) = Zdigits2 (Zpos mx) + Zdigits2 (Zpos my) - 1) as Hd.
  { apply digits_unique; [lia|]. split; [apply Z.pow_le_mono_r; lia|apply Z.pow_lt_mono_r; lia]. }
  assert (Zdigits2 (Zpos mx) + Zdigits2 (Zpos my) - 1 <= Zdigits2 (Zpos mx * Zpos my)); [|lia].
  rewrite <- Hd. apply digits_mono. split; [apply Z.pow_nonneg; lia|]. rewrite pow2_add by lia.
  pose proof (pow2_pos (Zdigits2 (Zpos mx) - 1)). pose proof (pow2_pos (Zdigits2 (Zpos my) - 1)). nia.
Qed.
End Canonical.


(** ** Storing and loading a canonical number *)

Lemma bit_fields (s : bool) (E f : Z) :
  0 <= E < 256 → 0 <= f < 8388608 →
  let b := (if s then 2147483648 else 0) + E * 8388608 + f in
  0 <= b < 4294967296 ∧ b mod 8388608 = f ∧ b / 8388608 mod 256 = E ∧ Z.odd (b / 2147483648) = s.
Proof.
  intros HE Hf b.
  assert (b / 8388608 = (if s then 256 else 0) + E ∧ b mod 8388608 = f) as [Hd Hm].
  { assert (b = ((if s then 256 else 0) + E) * 8388608 + f) as -> by (unfold b; destruct s; lia).
    split; [rewrite Z.div_add_l, Z.div_small by lia; lia|].
    by rewrite Z.add_comm, Z.mod_add, Z.mod_small by lia. }
  assert (b / 2147483648 = if s then 1 else 0) as Hs.
  { symmetry. apply (Z.div_unique b 2147483648 _ (E * 8388608 + f)); unfold b; destruct s; lia. }
  rewrite Hd, Hs. split_and!; [unfold b; destruct s; lia|unfold b; destruct s; lia|done| |by destruct s].
  symmetry. apply (Z.mod_unique _ 256 (if s then 1 else 0)); destruct s; lia.
Qed.

Lemma decode_fields_eq (s : bool) (E f : Z) :
  0 <= E < 255 → 0 <= f < 8388608 →
  decode_bits 23 8 ((if s then 2147483648 else 0) + E * 8388608 + f) =
  if E =? 0 then match f with Zpos p => S754_finite s p (-149) | _ => S754_zero s end
  else match f + 8388608 with Zpos p => S754_finite s p (E - 150) | _ => S754_nan end.
Proof.
  intros HE Hf. destruct (bit_fields s E f ltac:(lia) Hf) as (_ & H1 & H2 & H3).
  unfold decode_bits. change (2 ^ 23) with 8388608. change (2 ^ 8) with 256. change (2 ^ (23 + 8)) with 2147483648.
  rewrite H1, H2, H3. destruct (Z.eqb_spec E (256 - 1)); [lia|]. change (1 - (2 ^ (8 - 1) - 1) - 23) with (-149).
  destruct (E =? 0); [done|]. by replace (E - (2 ^ (8 - 1) - 1) - 23) with (E - 150) by lia.
Qed.

Lemma encode_range x : valid_binary 24 128 x → finite x →
  ∃ s E f, encode_bits 23 8 x = (if s : bool then 2147483648 else 0) + E * 8388608 + f ∧
    0 <= E < 255 ∧ 0 <= f < 8388608 ∧
    x = if E =? 0 then match f with Zpos p => S754_finite s p (-149) | _ => S754_zero s end
        else match f + 8388608 with Zpos p => S754_finite s p (E - 150) | _ => S754_nan end.
Proof.
  intros Hv Hf. destruct x as [s|[]| |s m e]; try done.
  { exists s, 0, 0. by split_and!; [destruct s|..]. }
  apply valid_finite in Hv as [Hc He]. destruct (digits_bounds (Zpos m)) as [Hm Hd]; [lia|].
  rewrite fexp_eq in Hc. change (emin 24 128) with (-149) in Hc.
  assert (2 ^ Zdigits2 (Zpos m) <= 2 ^ 24) by (apply Z.pow_le_mono_r; lia).
  unfold encode_bits. change (2 ^ (8 - 1) - 1) with 127. change (2 ^ (23 + 8)) with 2147483648.
  change (2 ^ 23) with 8388608. change (2 ^ 24) with 16777216 in *.
  destruct (Z.ltb_spec (Zpos m) 8388608) as [Hs|Hs].
  - assert (e = -149) as ->.
    { assert (2 ^ (Zdigits2 (Zpos m) - 1) < 2 ^ 23) as Hlt by (change (2 ^ 23) with 8388608; lia).
      apply Z.pow_lt_mono_r_iff in Hlt; lia. }
    exists s, 0, (Zpos m). split_and!; [lia..|done].
  - assert (Zdigits2 (Zpos m) = 24) as Hd24.
    { apply digits_unique; [lia|]. change (2 ^ (24 - 1)) with 8388608. change (2 ^ 24) with 16777216. lia. }
    exists s, (e + 150), (Zpos m - 8388608). split_and!; [lia..|].
    destruct (Z.eqb_spec (e + 150) 0); [lia|]. replace (Zpos m - 8388608 + 8388608) with (Zpos m) by lia.
    by replace (e + 150 - 150) with e by lia.
Qed.

Lemma float_val_of x : valid_binary 24 128 x → finite x → float_val (float_of x) = x.
Proof.
  intros Hv Hf. destruct (encode_range x Hv Hf) as (s & E & f & He & HE & Hff & Hx).
  destruct (bit_fields s E f ltac:(lia) Hff) as (Hb & _). unfold float_val, float_of.
  rewrite (word.unsigned_of_Z_nowrap (word_ok := Naive.word32_ok)), He by (rewrite He; done).
  by rewrite decode_fields_eq, <- Hx.
Qed.

(** What is loaded is in canonical form. *)
Lemma float_val_valid x : valid_binary 24 128 (float_val x).
Proof.
  unfold float_val, decode_bits. set (b := word.unsigned x). set (s := Z.odd _).
  pose proof (Z.mod_pos_bound b (2 ^ 23) eq_refl) as Hm. pose proof (Z.mod_pos_bound (b / 2 ^ 23) (2 ^ 8) eq_refl) as He.
  set (m := b mod 2 ^ 23) in *. set (e := (b / 2 ^ 23) mod 2 ^ 8) in *. clearbody m e s.
  change (2 ^ (8 - 1) - 1) with 127. change (2 ^ 23) with 8388608 in *. change (2 ^ 8) with 256 in *.
  destruct (Z.eqb_spec e (256 - 1)); [by destruct (m =? 0)|]. destruct (Z.eqb_spec e 0) as [->|].
  - destruct m as [|p|p]; [done| |done]. apply valid_finite. rewrite fexp_eq. change (emin 24 128) with (-149).
    destruct (digits_bounds (Zpos p)) as [[Hb _] Hd]; [lia|].
    assert (2 ^ (Zdigits2 (Zpos p) - 1) < 2 ^ 23) as Hlt by (change (2 ^ 23) with 8388608; lia).
    apply Z.pow_lt_mono_r_iff in Hlt; lia.
  - destruct (m + 8388608) as [|p|p] eqn:E; [lia| |lia]. apply valid_finite. rewrite fexp_eq.
    change (emin 24 128) with (-149). rewrite (digits_unique (Zpos p) 24); [lia|lia|].
    change (2 ^ (24 - 1)) with 8388608. change (2 ^ 24) with 16777216. lia.
Qed.

(** ** Quotients *)

(** The integer quotient with its remainder. *)
Lemma div_core prec emax m1 e1 m2 e2 :
  0 < m1 → 0 < m2 →
  ∃ q e' l, SFdiv_core_binary prec emax m1 e1 m2 e2 = (q, e', l) ∧ 0 <= q ∧ reaches prec emax q e'.
Proof.
  intros H1 H2. unfold SFdiv_core_binary. set (f := fexp prec emax _). set (e' := Z.min f (e1 - e2)).
  assert (0 <= e1 - e2 - e') as Hs by lia. set (n := e1 - e2 - e') in *.
  assert (match n with Zpos _ => Z.shiftl m1 n | 0 => m1 | Zneg _ => 0 end = m1 * 2 ^ n) as ->.
  { destruct n eqn:E; [by rewrite Z.pow_0_r, Z.mul_1_r|by rewrite <- E, Z.shiftl_mul_pow2 by lia|lia]. }
  pose proof (Z_div_mod (m1 * 2 ^ n) m2 ltac:(lia)) as Hdm. pose proof (pow2_pos n Hs).
  destruct (Z.div_eucl (m1 * 2 ^ n) m2) as [q r]. destruct Hdm as [Hq Hr]. assert (0 <= q) as Hq0 by nia.
  eexists q, e', _. split; [done|]. split; [done|]. unfold reaches.
  assert (e' <= f) as Hf by lia. unfold f in Hf. rewrite fexp_eq in *.
  destruct (digits_bounds m1 H1) as [Hb1 Hd1]. destruct (digits_bounds m2 H2) as [Hb2 Hd2].
  assert (Zdigits2 m1 + n <= Zdigits2 q + Zdigits2 m2); [|lia].
  destruct (decide (q = 0)) as [->|].
  - cbn [Zdigits2]. assert (2 ^ (Zdigits2 m1 - 1 + n) < 2 ^ Zdigits2 m2) as Hlt by (rewrite pow2_add by lia; nia).
    apply Z.pow_lt_mono_r_iff in Hlt; lia.
  - destruct (digits_bounds q) as [Hbq Hdq]; [lia|].
    assert (2 ^ (Zdigits2 m1 - 1 + n) < 2 ^ (Zdigits2 q + Zdigits2 m2)) as Hlt.
    { rewrite !pow2_add by lia. assert (m1 * 2 ^ n < (q + 1) * m2) by nia. nia. }
    apply Z.pow_lt_mono_r_iff in Hlt; lia.
Qed.

Lemma SFdiv_valid prec emax x y : 1 < prec → valid_binary prec emax (SFdiv prec emax x y).
Proof.
  intros Hp. destruct x as [[]|[]| |sx mx ex], y as [[]|[]| |sy my ey]; try done. cbn [SFdiv].
  destruct (div_core prec emax (Zpos mx) ex (Zpos my) ey) as (q & e' & l & -> & Hq & Hr); [lia..|].
  by apply binary_round_aux_valid.
Qed.

Lemma SFdiv_not_nan prec emax x y :
  finite x → not_nan y → SFeqb y (S754_zero false) = false → not_nan (SFdiv prec emax x y).
Proof.
  intros Hx Hy Hz. destruct x as [[]|[]| |sx mx ex], y as [[]|[]| |sy my ey]; try done.
  cbn [SFdiv]. destruct (div_core prec emax (Zpos mx) ex (Zpos my) ey) as (q & e' & l & -> & Hq & _); [lia..|].
  eapply has_sign_not_nan. by apply binary_round_aux_sign.
Qed.

(** ** Quotients against one, sums from below, and uniqueness *)

Lemma digits_le2 m1 e1 m2 e2 :
  0 < m1 → 0 < m2 → le2 m1 e1 m2 e2 → Zdigits2 m1 + e1 <= Zdigits2 m2 + e2.
Proof.
  intros H1 H2 Hle. destruct (digits_bounds m1 H1) as [[Hb1 _] Hd1]. destruct (digits_bounds m2 H2) as [[_ Hb2] Hd2].
  set (g := Z.min e1 e2). apply (le2_scale g) in Hle; [|lia..].
  assert (2 ^ (Zdigits2 m1 - 1 + (e1 - g)) < 2 ^ (Zdigits2 m2 + (e2 - g))) as Hlt.
  { rewrite !pow2_add by lia. pose proof (pow2_pos (e1 - g) ltac:(lia)). pose proof (pow2_pos (e2 - g) ltac:(lia)). nia. }
  apply Z.pow_lt_mono_r_iff in Hlt; lia.
Qed.

Section Quotients.
Context (prec emax : Z) (Hprec : 1 < prec) (Hwide : 3 * prec <= emax).

(** The integer quotient of a number by one that is at least as large. *)
Lemma div_core_upper m1 e1 m2 e2 q e' l :
  0 < m1 → 0 < m2 → le2 m1 e1 m2 e2 → SFdiv_core_binary prec emax m1 e1 m2 e2 = (q, e', l) →
  0 <= q ∧ e' <= 0 ∧ le2 (if is_exact l then q else q + 1) e' 1 0.
Proof using Hprec Hwide.
  intros H1 H2 Hle. pose proof (digits_le2 m1 e1 m2 e2 H1 H2 Hle) as Hd.
  unfold SFdiv_core_binary. set (f := fexp prec emax _). set (e0 := Z.min f (e1 - e2)).
  assert (e0 <= 0) as He0. { unfold e0, f. rewrite fexp_eq. unfold emin. lia. }
  assert (0 <= e1 - e2 - e0) as Hs by lia. set (n := e1 - e2 - e0) in *.
  assert (match n with Zpos _ => Z.shiftl m1 n | 0 => m1 | Zneg _ => 0 end = m1 * 2 ^ n) as ->.
  { destruct n eqn:E; [by rewrite Z.pow_0_r, Z.mul_1_r|by rewrite <- E, Z.shiftl_mul_pow2 by lia|lia]. }
  pose proof (Z_div_mod (m1 * 2 ^ n) m2 ltac:(lia)) as Hdm. pose proof (pow2_pos n Hs).
  destruct (Z.div_eucl (m1 * 2 ^ n) m2) as [q0 r]. destruct Hdm as [Hq Hr]. intros [= <- <- <-].
  assert (0 <= q0) by nia. split; [done|]. split; [done|]. apply le2_below; [done|]. rewrite Z.mul_1_l.
  apply (le2_scale (e2 + e0)) in Hle; [|lia..].
  replace (e1 - (e2 + e0)) with n in Hle by lia. replace (e2 - (e2 + e0)) with (0 - e0) in Hle by lia.
  set (T := 2 ^ (0 - e0)) in *. destruct (is_exact _) eqn:El; [nia|].
  assert (r ≠ 0); [|nia]. intros ->. by unfold new_location, new_location_even, new_location_odd in El; destruct (Z.even _).
Qed.

Lemma SFdiv_le_one s1 m1 e1 s2 m2 e2 :
  le2 (Zpos m1) e1 (Zpos m2) e2 →
  fle (SFdiv prec emax (S754_finite s1 m1 e1) (S754_finite s2 m2 e2)) 1 0.
Proof using Hprec Hwide.
  intros Hle. cbn [SFdiv]. destruct (SFdiv_core_binary prec emax (Zpos m1) e1 (Zpos m2) e2) as [[q e'] l] eqn:E.
  apply div_core_upper in E as (Hq & He & Hle'); [|lia|lia|done].
  apply binary_round_aux_upper; [lia|apply one_lt_pow; lia|unfold emin; lia|lia|done|lia|done].
Qed.

(** The integer quotient of a number by one that is at most as large. *)
Lemma SFdiv_ge_one m1 e1 m2 e2 :
  le2 (Zpos m2) e2 (Zpos m1) e1 →
  fge (SFdiv prec emax (S754_finite false m1 e1) (S754_finite false m2 e2)) 1 0.
Proof using Hprec Hwide.
  intros Hle. cbn [SFdiv]. unfold SFdiv_core_binary. set (f := fexp prec emax _). set (e0 := Z.min f (e1 - e2)).
  assert (0 <= e1 - e2 - e0) as Hs by lia. set (n := e1 - e2 - e0) in *.
  assert (match n with Zpos _ => Z.shiftl (Zpos m1) n | 0 => Zpos m1 | Zneg _ => 0 end = Zpos m1 * 2 ^ n) as ->.
  { destruct n eqn:E; [by rewrite Z.pow_0_r, Z.mul_1_r|by rewrite <- E, Z.shiftl_mul_pow2 by lia|lia]. }
  pose proof (Z_div_mod (Zpos m1 * 2 ^ n) (Zpos m2) ltac:(lia)) as Hdm. pose proof (pow2_pos n Hs).
  destruct (Z.div_eucl (Zpos m1 * 2 ^ n) (Zpos m2)) as [q r]. destruct Hdm as [Hq Hr]. cbn [xorb].
  assert (le2 1 0 q e0) as Hqe.
  { assert (e0 <= f) as Hef by lia. destruct (Z.le_gt_cases e0 0) as [He|He].
    - apply le2_above; [done|]. apply (le2_scale (e2 + e0)) in Hle; [|lia..].
      replace (e1 - (e2 + e0)) with n in Hle by lia. replace (e2 - (e2 + e0)) with (0 - e0) in Hle by lia.
      set (T := 2 ^ (0 - e0)) in *. nia.
    - apply le2_below; [lia|]. assert (0 < q); [|pose proof (pow2_pos (e0 - 0)); nia].
      unfold f in Hef. rewrite fexp_eq in Hef. unfold emin in Hef.
      destruct (digits_bounds (Zpos m1)) as [[Hb1 _] Hd1]; [lia|]. destruct (digits_bounds (Zpos m2)) as [[_ Hb2] Hd2]; [lia|].
      assert (2 ^ Zdigits2 (Zpos m2) <= 2 ^ (Zdigits2 (Zpos m1) - 1 + n)) as Hp by (apply Z.pow_le_mono_r; lia).
      rewrite pow2_add in Hp by lia. nia. }
  assert (0 < q) as Hq0 by (unfold le2 in Hqe; pose proof (pow2_pos (Z.max 0 (0 - e0))); pose proof (pow2_pos (Z.max 0 (e0 - 0))); nia).
  apply binary_round_aux_lower; [lia|apply one_lt_pow; lia|unfold emin; lia|done|done].
Qed.

(** Two numbers without sign, from below. *)
Lemma SFadd_ge x y b1 b2 k :
  0 < b1 → 0 < b2 → b1 + b2 < 2 ^ prec → emin prec emax <= k <= emax - prec → finite x → finite y →
  fge x b1 k → fge y b2 k → fge (SFadd prec emax x y) (b1 + b2) k.
Proof using Hprec Hwide.
  intros H1 H2 Hb Hk Fx Fy Hx Hy. destruct x as [|[]| |[] mx ex], y as [|[]| |[] my ey]; try done.
  cbn [fge] in Hx, Hy. unfold SFadd. destruct (align_min false mx ex ey) as (a & -> & Ha).
  rewrite (Z.min_comm ex ey). destruct (align_min false my ey ex) as (c & -> & Hc). rewrite Z.min_comm in Ha.
  cbn [cond_Zopp]. set (ez := Z.min ey ex) in *. pose proof (pow2_pos (ex - ez)). pose proof (pow2_pos (ey - ez)).
  assert (le2 b1 k a ez) as Hl1.
  { rewrite Ha. apply le2_shift_r; [lia|]. by replace (ez + (ex - ez)) with ex by lia. }
  assert (le2 b2 k c ez) as Hl2.
  { rewrite Hc. apply le2_shift_r; [lia|]. by replace (ez + (ey - ez)) with ey by lia. }
  destruct (a + c) as [|p|p] eqn:E; [nia| |nia]. apply binary_round_lower; [lia|lia|lia|].
  rewrite <- E. by apply le2_add.
Qed.

(** A canonical number is determined by its value. *)
Lemma canonical_eq m e m' e' :
  valid_binary prec emax (S754_finite false m e) → valid_binary prec emax (S754_finite false m' e') →
  le2 (Zpos m) e (Zpos m') e' → le2 (Zpos m') e' (Zpos m) e → S754_finite false m e = S754_finite false m' e'.
Proof using.
  clear Hprec Hwide. intros [Hc _]%andb_prop_elim [Hc' _]%andb_prop_elim H1 H2.
  unfold canonical_mantissa in Hc, Hc'. apply Is_true_true, Z.eqb_eq in Hc, Hc'.
  change (Zpos (digits2_pos m)) with (Zdigits2 (Zpos m)) in Hc. change (Zpos (digits2_pos m')) with (Zdigits2 (Zpos m')) in Hc'.
  pose proof (digits_le2 _ _ _ _ (Pos2Z.is_pos m) (Pos2Z.is_pos m') H1) as Hd.
  pose proof (digits_le2 _ _ _ _ (Pos2Z.is_pos m') (Pos2Z.is_pos m) H2) as Hd'.
  assert (Zdigits2 (Zpos m) + e = Zdigits2 (Zpos m') + e') as E by (clear - Hd Hd'; lia).
  rewrite E in Hc. assert (e = e') as <- by congruence.
  f_equal. unfold le2 in H1, H2. rewrite Z.sub_diag in H1, H2. change (2 ^ Z.max 0 0) with 1 in H1, H2. lia.
Qed.

(** Values that are at most as large are not above. *)
Lemma le2_not_flt m e m' e' :
  valid_binary prec emax (S754_finite false m e) → valid_binary prec emax (S754_finite false m' e') →
  le2 (Zpos m) e (Zpos m') e' → ¬ flt (S754_finite false m' e') (S754_finite false m e).
Proof using.
  clear Hprec Hwide. intros [Hc _]%andb_prop_elim [Hc' _]%andb_prop_elim Hle.
  unfold canonical_mantissa in Hc, Hc'. apply Is_true_true, Z.eqb_eq in Hc, Hc'.
  change (Zpos (digits2_pos m)) with (Zdigits2 (Zpos m)) in Hc. change (Zpos (digits2_pos m')) with (Zdigits2 (Zpos m')) in Hc'.
  pose proof (digits_le2 _ _ _ _ (Pos2Z.is_pos m) (Pos2Z.is_pos m') Hle) as Hd.
  rewrite fexp_eq in Hc, Hc'. rewrite flt_key. unfold key_lt, float_key; cbn [fst snd].
  intros (_ & _ & [?|[_ [?|[E Hm]]]]); [lia|lia|]. subst. unfold le2 in Hle. rewrite Z.sub_diag in Hle.
  change (2 ^ Z.max 0 0) with 1 in Hle. lia.
Qed.
End Quotients.

(** ** Integers below [2^24] in single precision *)

Section Exact.
Context (prec emax : Z) (Hprec : 1 < prec).

(** Truncating zeros is exact. *)
Lemma binary_round_aux_trunc s m2 m e :
  0 <= m → Zdigits2 (Zpos m2) = prec → m = Zpos m2 * 2 ^ excess prec emax m e →
  emin prec emax <= e + excess prec emax m e <= emax - prec →
  binary_round_aux prec emax s m e loc_Exact = S754_finite s m2 (e + excess prec emax m e).
Proof using.
  intros Hm Hd Em He. destruct (binary_round_aux_steps prec emax s m e loc_Exact Hm) as (m' & m1 & m3 & [[_ Hf1] Hup [_ Hf2]] & ->).
  set (e1 := e + excess prec emax m e) in *. pose proof (pow2_pos (excess prec emax m e) (excess_nonneg _ _ _ _)).
  assert (m' = Zpos m2) as -> by nia. assert (m1 = Zpos m2) as -> by (destruct Hup as [?|[_ [?|?]]]; [lia|discriminate|lia]).
  assert (excess prec emax (Zpos m2) e1 = 0) as E.
  { unfold excess. rewrite Hd, fexp_eq. lia. }
  rewrite E in *. change (2 ^ 0) with 1 in Hf2. assert (m3 = Zpos m2) as -> by lia.
  rewrite Z.add_0_r. unfold finish. destruct (Z.leb_spec e1 (emax - prec)); [done|lia].
Qed.
End Exact.

(** An integer with [j] zeros behind it, at the exponent [-j]. *)
Lemma binary_round_scaled s N j p :
  0 < N < 2 ^ 24 → 0 <= j <= 23 → Zpos p = N * 2 ^ j →
  ∃ m, binary_round 24 128 s p (- j) = S754_finite s m (Zdigits2 N - 24) ∧ Zpos m = N * 2 ^ (24 - Zdigits2 N).
Proof.
  intros HN Hj Hp. set (d := Zdigits2 N). destruct (digits_bounds N) as [Hb Hd]; [lia|]. fold d in Hb, Hd.
  assert (d <= 24) as Hd24.
  { assert (2 ^ (d - 1) < 2 ^ 24) as Hlt by lia. apply Z.pow_lt_mono_r_iff in Hlt; lia. }
  pose proof (pow2_pos j ltac:(lia)). pose proof (pow2_pos (24 - d) ltac:(lia)).
  assert (Zdigits2 (Zpos p) = d + j) as Hdp.
  { destruct N as [|N|]; [lia| |lia]. rewrite Hp. apply digits_shift. lia. }
  exists (Z.to_pos (N * 2 ^ (24 - d))). split; [|rewrite Z2Pos.id; nia].
  unfold binary_round. change (Zpos (digits2_pos p)) with (Zdigits2 (Zpos p)). rewrite Hdp.
  replace (d + j + - j) with d by lia.
  assert (fexp 24 128 d = d - 24) as -> by (rewrite fexp_eq; change (emin 24 128) with (-149); lia).
  destruct (shl_align_min p (- j) (d - 24)) as (p' & -> & Hp').
  assert (Zdigits2 (Zpos (Z.to_pos (N * 2 ^ (24 - d)))) = 24) as Hd2.
  { rewrite Z2Pos.id by nia. destruct N as [|N|]; [lia| |lia]. rewrite digits_shift by lia. fold d. lia. }
  set (e := Z.min (- j) (d - 24)) in *.
  assert (Zdigits2 (Zpos p') + e = d) as Hdp'.
  { rewrite Hp', digits_shift, Hdp by lia. lia. }
  assert (excess 24 128 (Zpos p') e = d - 24 - e) as Hex.
  { unfold excess. rewrite Hdp', fexp_eq. change (emin 24 128) with (-149). lia. }
  rewrite (binary_round_aux_trunc 24 128 s (Z.to_pos (N * 2 ^ (24 - d)))); rewrite ?Hex; try done.
  - f_equal. lia.
  - rewrite Hp', Hp, Z2Pos.id by nia. rewrite <- !Z.mul_assoc, <- !pow2_add by lia. do 2 f_equal. lia.
  - change (emin 24 128) with (-149). lia.
Qed.
