(* ===== verification/Distance.v ===== *)
(** * Distance kernels ([distance.hpp])

    The metrics [L2], [Dot] and [Cosine] as compile-time policies: an instance
    of the class [DistanceMetric] each. Smaller is closer for every metric. *)
From S2P Require Import Prelude Binary.
Local Open Scope nat_scope.

(** [Score] is [float], kept decoded: scores are only computed and compared. *)
Abbreviation Score := spec_float.
(** [InternalId] and [Dim] are [std::uint32_t]. *)
Abbreviation InternalId := N.
Abbreviation Dim := N.

Definition kInvalidId : InternalId := 4294967295%N.

Record SearchResult := { id : InternalId; score : Score }.

(** The concept [DistanceMetric]. *)
Class DistanceMetric := {
  distance : list word32 → list word32 → Dim → result Score;
  metric_name : string;
}.

Definition f_load (v : word32) : Score := float_val v.

(** The body of the loop of [L2::distance] once [a[i]] and [b[i]] are read. *)
Definition L2_step (sum : Score) (x y : word32) : Score :=
  let diff := fsub (f_load x) (f_load y) in fadd sum (fmul diff diff).

Definition L2_distance (a b : list word32) (d : Dim) : result Score :=
  for_range 0 (N.to_nat d) (λ i sum, x ← at_ a i; y ← at_ b i; Ok (L2_step sum x y)) f_zero.

Definition Dot_step (dot : Score) (x y : word32) : Score :=
  fadd dot (fmul (f_load x) (f_load y)).

Definition Dot_distance (a b : list word32) (d : Dim) : result Score :=
  dot ← for_range 0 (N.to_nat d) (λ i dot, x ← at_ a i; y ← at_ b i; Ok (Dot_step dot x y)) f_zero;
  Ok (SFopp dot).

(** The locals [dot], [na], [nb] of [Cosine::distance]. *)
Record cosine_acc := { acc_dot : Score; acc_na : Score; acc_nb : Score }.

Definition cosine_acc0 : cosine_acc := {| acc_dot := f_zero; acc_na := f_zero; acc_nb := f_zero |}.

Definition Cosine_step (acc : cosine_acc) (x y : word32) : cosine_acc :=
  {| acc_dot := fadd (acc_dot acc) (fmul (f_load x) (f_load y));
     acc_na := fadd (acc_na acc) (fmul (f_load x) (f_load x));
     acc_nb := fadd (acc_nb acc) (fmul (f_load y) (f_load y)) |}.

(** What [Cosine::distance] computes after its loop. *)
Definition Cosine_finish (acc : cosine_acc) : Score :=
  let denom := fmul (fsqrt (acc_na acc)) (fsqrt (acc_nb acc)) in
  if feq denom f_zero then f_one
  else
    let sim := fdiv (acc_dot acc) denom in
    let sim := if fgt sim f_one then f_one else sim in
    let sim := if flt sim (SFopp f_one) then SFopp f_one else sim in
    fsub f_one sim.

Definition Cosine_distance (a b : list word32) (d : Dim) : result Score :=
  acc ← for_range 0 (N.to_nat d) (λ i acc, x ← at_ a i; y ← at_ b i; Ok (Cosine_step acc x y))
    cosine_acc0;
  Ok (Cosine_finish acc).

Definition L2 : DistanceMetric := {| distance := L2_distance; metric_name := "l2" |}.
Definition Dot : DistanceMetric := {| distance := Dot_distance; metric_name := "dot" |}.
Definition Cosine : DistanceMetric := {| distance := Cosine_distance; metric_name := "cosine" |}.

Inductive MetricKind := MetricL2 | MetricCosine | MetricDot.

(** The switch of [make_flat_index] and [make_hnsw_index]. *)
Definition metric_of (k : MetricKind) : DistanceMetric :=
  match k with MetricL2 => L2 | MetricCosine => Cosine | MetricDot => Dot end.

(** The convenience overload on spans: the dimension is the length of the first. *)
Definition span_distance {Met : DistanceMetric} (a b : list word32) : result Score :=
  distance a b (to_u32 (length a)).

#[export] Instance MetricKind_eq_dec : EqDecision MetricKind.
Proof. solve_decision. Defined.

(** A metric is total on vectors of the store's dimension. *)
Class MetricLaws (Met : DistanceMetric) := {
  distance_total a b d :
    length a = N.to_nat d → length b = N.to_nat d → ∃ s, distance a b d = Ok s;
  distance_sym a b d :
    length a = N.to_nat d → length b = N.to_nat d → distance a b d = distance b a d;
}.

(** ** The loops as folds *)

Lemma L2_distance_fold a b d :
  length a = N.to_nat d → length b = N.to_nat d →
  L2_distance a b d = Ok (foldl (λ s p, L2_step s p.1 p.2) f_zero (zip a b)).
Proof. apply for_range_zip_all. Qed.

Lemma Dot_distance_fold a b d :
  length a = N.to_nat d → length b = N.to_nat d →
  Dot_distance a b d = Ok (SFopp (foldl (λ s p, Dot_step s p.1 p.2) f_zero (zip a b))).
Proof. intros Ha Hb. unfold Dot_distance. by rewrite for_range_zip_all. Qed.

Lemma Cosine_distance_fold a b d :
  length a = N.to_nat d → length b = N.to_nat d →
  Cosine_distance a b d =
  Ok (Cosine_finish (foldl (λ s p, Cosine_step s p.1 p.2) cosine_acc0 (zip a b))).
Proof. intros Ha Hb. unfold Cosine_distance. by rewrite for_range_zip_all. Qed.

(** ** Every metric is total and symmetric *)

#[export] Instance L2_laws : MetricLaws L2.
Proof.
  split; intros a b d Ha Hb; cbn; rewrite !L2_distance_fold by done; [eauto|].
  f_equal. apply (foldl_zip_swap eq L2_step L2_step); [|done].
  intros s ? x y <-. unfold L2_step. by rewrite fsub_swap_square.
Qed.

#[export] Instance Dot_laws : MetricLaws Dot.
Proof.
  split; intros a b d Ha Hb; cbn; rewrite !Dot_distance_fold by done; [eauto|].
  do 2 f_equal. apply (foldl_zip_swap eq Dot_step Dot_step); [|done].
  intros s ? x y <-. unfold Dot_step. by rewrite fmul_comm.
Qed.

(** The accumulators of the two calls exchange their norms. *)
Definition cosine_swapped (s t : cosine_acc) : Prop :=
  acc_dot s = acc_dot t ∧ acc_na s = acc_nb t ∧ acc_nb s = acc_na t.

#[export] Instance Cosine_laws : MetricLaws Cosine.
Proof.
  split; intros a b d Ha Hb; cbn; rewrite !Cosine_distance_fold by done; [eauto|].
  destruct (foldl_zip_swap cosine_swapped Cosine_step Cosine_step a b cosine_acc0 cosine_acc0)
    as (Hd & Hna & Hnb); [|done|].
  - intros s t x y (H1 & H2 & H3). unfold cosine_swapped, Cosine_step; cbn.
    by rewrite H1, H2, H3, (fmul_comm (f_load x)).
  - unfold Cosine_finish. by rewrite Hd, Hna, Hnb, fmul_comm.
Qed.

Lemma metric_of_laws k : MetricLaws (metric_of k).
Proof. destruct k; apply _. Qed.

(** ** Properties of the kernels *)

Definition finite_vec (v : list word32) : Prop := Forall (λ x, finite (f_load x)) v.

#[export] Instance finite_vec_dec v : Decision (finite_vec v).
Proof. unfold finite_vec. apply _. Defined.

Lemma finite_vec_zip a b :
  finite_vec a → finite_vec b →
  Forall (λ p, finite (f_load p.1) ∧ finite (f_load p.2)) (zip a b).
Proof.
  intros Ha. revert b. induction Ha as [|x a Hx Ha IH]; intros b Hb; [constructor|].
  destruct Hb as [|y b Hy Hb]; cbn; [constructor|]. constructor; [done|]. by apply IH.
Qed.

Lemma L2_distance_sign a b d :
  length a = N.to_nat d → length b = N.to_nat d → finite_vec a → finite_vec b →
  ∃ s, L2_distance a b d = Ok s ∧ has_sign false s.
Proof.
  intros Hla Hlb Ha Hb. eexists. split; [by apply L2_distance_fold|].
  eapply foldl_inv; [|done|by apply finite_vec_zip].
  intros s [x y] Hs [Hx Hy]. apply fadd_sign; [done|].
  apply fmul_square, fsub_finite; done.
Qed.

Lemma L2_distance_self a d :
  length a = N.to_nat d → finite_vec a → L2_distance a a d = Ok f_zero.
Proof.
  intros Hl Ha. rewrite L2_distance_fold by done. f_equal. clear Hl.
  induction Ha as [|x a Hx Ha IH]; [done|].
  change (foldl (λ s p, L2_step s p.1 p.2) (L2_step f_zero x x) (zip a a) = f_zero).
  assert (L2_step f_zero x x = f_zero) as -> by (unfold L2_step; by rewrite fsub_diag).
  apply IH.
Qed.

Lemma sign_nonneg s : has_sign false s → ¬ flt s f_zero.
Proof. destruct s as [[]|[]| |[] m e]; cbn; intros H; try done; by intros []. Qed.

(** Every metric is defined on all vectors of the store's dimension,
    whatever floats they hold, and is symmetric bit for bit. *)
Lemma metric_total_symmetric (k : MetricKind) (a b : list word32) (d : Dim) :
  length a = N.to_nat d → length b = N.to_nat d →
  ∃ s, @distance (metric_of k) a b d = Ok s ∧ @distance (metric_of k) b a d = Ok s.
Proof.
  intros Ha Hb. pose proof (metric_of_laws k) as HL.
  destruct (@distance_total _ HL a b d Ha Hb) as [s Hs].
  exists s. split; [done|]. by rewrite <- (@distance_sym _ HL a b d).
Qed.

(** On finite vectors [L2] is never a NaN and never negative (it may
    overflow to infinity), and a vector is at distance zero of itself. *)
Lemma L2_premetric (a b : list word32) (d : Dim) :
  length a = N.to_nat d → length b = N.to_nat d → finite_vec a → finite_vec b →
  ∃ s, L2_distance a b d = Ok s ∧ not_nan s ∧ ¬ flt s f_zero ∧
       L2_distance a a d = Ok f_zero ∧ L2_distance b b d = Ok f_zero.
Proof.
  intros Hla Hlb Ha Hb. destruct (L2_distance_sign a b d) as (s & Hs & Hsign); [done..|].
  exists s. split_and!; [done|by eapply has_sign_not_nan|by apply sign_nonneg|by apply L2_distance_self..].
Qed.

(** A float that holds an integer, and a point of the plane. *)
Definition f_of_int (z : Z) : Score := binary_normalize 24 128 z 0 false.
Definition point (x y : Z) : list word32 := [float_of (f_of_int x); float_of (f_of_int y)].

Example L2_3_4_5 : L2_distance (point 0 3) (point 4 0) 2 = Ok (f_of_int 25).
Proof. vm_compute. reflexivity. Qed.

Example Cosine_orthogonal : Cosine_distance (point 0 3) (point 4 0) 2 = Ok f_one.
Proof. vm_compute. reflexivity. Qed.
