(* ===== verification/Metadata.v ===== *)
(** * Metadata values and filters ([metadata.hpp])

    [MetaValue] is the variant, [Metadata] the key-value map, [compare] the
    three-way comparison and [Filter] the expression tree that
    [Filter::matches] evaluates. *)
From Stdlib Require OrdersEx.
From coqutil Require Import Word.Interface Word.Properties Word.Naive.
From S2P Require Import Prelude Binary.
Local Open Scope Z_scope.

(** [std::variant<std::int64_t, double, std::string, bool>]: the integer and
    the double are their 64 bits. *)
Inductive MetaValue :=
| MInt (v : word64)
| MDouble (v : word64)
| MString (s : string)
| MBool (b : bool).

#[export] Instance MetaValue_eq_dec : EqDecision MetaValue.
Proof. solve_decision. Defined.

Abbreviation Metadata := (gmap string MetaValue).

(** [v.index()]. *)
Definition variant_index (v : MetaValue) : N :=
  match v with MInt _ => 0 | MDouble _ => 1 | MString _ => 2 | MBool _ => 3 end%N.

(** [std::string]'s [operator<]: lexicographic on unsigned characters. *)
Definition str_lt (s t : string) : bool :=
  match String.compare s t with Lt => true | _ => false end.

Definition as_number (v : MetaValue) : option spec_float :=
  match v with
  | MInt z => Some (double_of_int (word.signed z))
  | MDouble d => Some (double_val d)
  | _ => None
  end.

Definition compare (a b : MetaValue) : option Z :=
  let na := as_number a in
  let nb := as_number b in
  match na, nb with
  | Some x, Some y => if flt x y then Some (-1) else if fgt x y then Some 1 else Some 0
  | _, _ =>
      if (variant_index a =? variant_index b)%N then
        match a, b with
        | MString p, MString rhs =>
            Some (if str_lt p rhs then -1 else if str_lt rhs p then 1 else 0)
        | MBool p, MBool rhs =>
            if Bool.eqb p rhs then Some 0 else Some (if p then 1 else -1)
        | _, _ => None
        end
      else None
  end.

Module Filter.
Inductive Cmp := Eq | Ne | Lt | Le | Gt | Ge.

(** The kinds [Cmp], [In], [And], [Or], [Not] with the fields each one uses. *)
Inductive Filter :=
| KCmp (key : string) (op : Cmp) (value : MetaValue)
| KIn (key : string) (set : list MetaValue)
| KAnd (children : list Filter)
| KOr (children : list Filter)
| KNot (child : Filter).

Definition eq key v := KCmp key Eq v.
Definition ne key v := KCmp key Ne v.
Definition lt key v := KCmp key Lt v.
Definition le key v := KCmp key Le v.
Definition gt key v := KCmp key Gt v.
Definition ge key v := KCmp key Ge v.
Definition in_ key values := KIn key values.
Definition all_of children := KAnd children.
Definition any_of children := KOr children.
Definition negate child := KNot child.

Definition eval_cmp (c : Z) (op : Cmp) : bool :=
  match op with
  | Eq => c =? 0
  | Ne => negb (c =? 0)
  | Lt => c <? 0
  | Le => c <=? 0
  | Gt => c >? 0
  | Ge => c >=? 0
  end.

Fixpoint matches (f : Filter) (m : Metadata) : bool :=
  match f with
  | KCmp key op value =>
      match m !! key with
      | None => false
      | Some x => match compare x value with None => false | Some c => eval_cmp c op end
      end
  | KIn key set =>
      match m !! key with
      | None => false
      | Some x =>
          existsb (λ v, match compare x v with Some c => c =? 0 | None => false end) set
      end
  | KAnd children => forallb (λ ch, matches ch m) children
  | KOr children => existsb (λ ch, matches ch m) children
  | KNot child => negb (matches child m)
  end.
End Filter.
Abbreviation Filter := Filter.Filter.

(** ** The comparison *)

(** A value that is not a NaN. *)
Definition comparable (v : MetaValue) : Prop :=
  match as_number v with Some x => not_nan x | None => True end.

Lemma str_lt_asym s t : str_lt s t → str_lt t s = false.
Proof.
  unfold str_lt. rewrite (String.compare_antisym s t).
  by destruct (String.compare t s).
Qed.

Lemma str_cmp_antisym s t :
  (if str_lt t s then -1 else if str_lt s t then 1 else 0) =
  - (if str_lt s t then -1 else if str_lt t s then 1 else 0).
Proof.
  destruct (str_lt s t) eqn:E1, (str_lt t s) eqn:E2; try done.
  apply Is_true_true, str_lt_asym in E1. congruence.
Qed.

Lemma flt_cmp_antisym x y :
  (if flt y x then Some (-1) else if flt x y then Some 1 else Some 0) =
  Z.opp <$> (if flt x y then Some (-1) else if flt y x then Some 1 else Some 0).
Proof.
  destruct (flt x y) eqn:E1, (flt y x) eqn:E2; try done.
  exfalso. apply (flt_asym x y); by apply Is_true_true.
Qed.

(** The comparison is antisymmetric on all values, NaN included. *)
Lemma compare_opp (a b : MetaValue) : compare b a = Z.opp <$> compare a b.
Proof.
  destruct a as [x|x|s|[]], b as [y|y|t|[]]; try done; unfold compare; cbn -[flt fgt Z.opp];
    try apply flt_cmp_antisym.
  by rewrite str_cmp_antisym.
Qed.

(** The three sign cases of the comparison, as strict orders of each type. *)
Definition value_lt (a b : MetaValue) : Prop :=
  match as_number a, as_number b with
  | Some x, Some y => flt x y
  | None, None =>
      match a, b with
      | MString s, MString t => str_lt s t
      | MBool p, MBool q => p = false ∧ q = true
      | _, _ => False
      end
  | _, _ => False
  end.

Definition same_class (a b : MetaValue) : Prop :=
  match as_number a, as_number b with
  | Some _, Some _ => True
  | None, None => variant_index a = variant_index b
  | _, _ => False
  end.

Lemma compare_class a b : is_Some (compare a b) ↔ same_class a b.
Proof.
  destruct a as [x|x|s|[]], b as [y|y|t|[]]; unfold compare, same_class; cbn;
    repeat case_match; try done; naive_solver.
Qed.

Lemma compare_neg a b : compare a b = Some (-1) ↔ value_lt a b.
Proof.
  destruct a as [x|x|s|[]], b as [y|y|t|[]]; unfold compare, value_lt; cbn -[flt fgt];
    repeat case_match; try done; naive_solver.
Qed.

Lemma compare_range a b c : compare a b = Some c → c = -1 ∨ c = 0 ∨ c = 1.
Proof.
  destruct a as [x|x|s|[]], b as [y|y|t|[]]; unfold compare; cbn -[flt fgt];
    repeat case_match; naive_solver.
Qed.

Lemma str_lt_compare s t : str_lt s t ↔ String.compare s t = Datatypes.Lt.
Proof. unfold str_lt. by destruct (String.compare s t). Qed.

Lemma str_lt_trans s t u : str_lt s t → str_lt t u → str_lt s u.
Proof.
  rewrite !str_lt_compare. destruct OrdersEx.String_as_OT.lt_strorder as [_ Htr]. apply Htr.
Qed.

Lemma str_lt_cotrans s t u : str_lt s u → str_lt s t ∨ str_lt t u.
Proof.
  intros H. destruct (str_lt s t) eqn:E; [by left|]. right. unfold str_lt in E.
  destruct (String.compare s t) eqn:E'; [|done|].
  - by apply String.compare_eq_iff in E' as <-.
  - apply (str_lt_trans _ s); [|done]. unfold str_lt. by rewrite String.compare_antisym, E'.
Qed.

Lemma value_lt_cotrans a b c :
  comparable b → same_class a b → value_lt a c → value_lt a b ∨ value_lt b c.
Proof.
  unfold comparable, value_lt, same_class.
  destruct a as [x|x|s|p], b as [y|y|t|q], c as [z|z|u|r]; cbn; try done;
    intros Hb Hc; try by apply flt_cotrans.
  - apply str_lt_cotrans.
  - destruct q; naive_solver.
Qed.

Lemma compare_nonpos a b c :
  compare a b = Some c → c <= 0 ↔ ¬ value_lt b a.
Proof.
  intros H. assert (compare b a = Some (- c)) as H' by (rewrite compare_opp, H; done).
  rewrite <- compare_neg, H'. destruct (compare_range _ _ _ H) as [-> |[-> | ->]];
    split; try (intros ? [=]; lia); try lia; intros Hn; by destruct Hn.
Qed.

(** Without NaN, comparison results compose as the results of an order do. *)
Lemma compare_le_trans (a b c : MetaValue) (x y : Z) :
  comparable a → comparable b → comparable c →
  compare a b = Some x → compare b c = Some y → x <= 0 → y <= 0 →
  ∃ z, compare a c = Some z ∧ z <= 0.
Proof.
  intros Ha Hb Hc Hab Hbc Hx Hy.
  assert (same_class a b) as Cab by (apply compare_class; eauto).
  assert (same_class b c) as Cbc by (apply compare_class; eauto).
  assert (is_Some (compare a c)) as [z Hz].
  { apply compare_class. unfold same_class in *. destruct (as_number a), (as_number b), (as_number c);
      naive_solver congruence. }
  exists z. split; [done|]. rewrite (compare_nonpos _ _ _ Hz).
  rewrite (compare_nonpos _ _ _ Hab) in Hx. rewrite (compare_nonpos _ _ _ Hbc) in Hy.
  intros Hca. destruct (value_lt_cotrans c b a Hb) as [?|?]; try done.
  unfold same_class in *. destruct (as_number b), (as_number c); naive_solver.
Qed.

(** The comparison is a preorder on the values that are not NaN. Exchanging
    the arguments negates the result (for all values, NaN included), and
    results that are not positive compose. *)
Theorem compare_preorder (a b c : MetaValue) (x y : Z) :
  compare b a = Z.opp <$> compare a b ∧
  (comparable a → comparable b → comparable c →
   compare a b = Some x → compare b c = Some y → x <= 0 → y <= 0 →
   ∃ z, compare a c = Some z ∧ z <= 0).
Proof. split; [apply compare_opp|apply compare_le_trans]. Qed.

(** Integers of magnitude below [2^53] compare as integers, although the code
    compares them as doubles. *)
Theorem compare_int_exact (a b : word64) :
  Z.abs (word.signed a) < 2 ^ 53 → Z.abs (word.signed b) < 2 ^ 53 →
  compare (MInt a) (MInt b) =
  Some (if word.signed a <? word.signed b then -1 else if word.signed b <? word.signed a then 1 else 0).
Proof.
  intros Ha Hb. cbv beta iota zeta delta [compare as_number fgt].
  destruct (Z.ltb_spec (word.signed a) (word.signed b)) as [H|H].
  { by rewrite (Is_true_true_1 _ (double_of_int_lt _ _ Ha Hb H)). }
  destruct (Z.ltb_spec (word.signed b) (word.signed a)) as [H'|H'].
  { pose proof (double_of_int_lt _ _ Hb Ha H') as Hlt.
    rewrite (Is_true_true_1 _ Hlt).
    destruct (flt (double_of_int (word.signed a)) _) eqn:E; [|done].
    exfalso. apply (flt_asym _ _ Hlt). by rewrite E. }
  assert (word.signed a = word.signed b) as -> by lia.
  destruct (flt _ _) eqn:E; [|done].
  exfalso. apply (flt_irrefl (double_of_int (word.signed b))). by rewrite E.
Qed.

(** Two integers that differ may compare equal from [2^53] on, and a NaN
    compares equal to every number. *)
Lemma compare_collapses :
  (∃ a b : word64, a ≠ b ∧ compare (MInt a) (MInt b) = Some 0) ∧
  (∃ nan : word64, ∀ x : MetaValue, is_Some (as_number x) → compare (MDouble nan) x = Some 0).
Proof.
  split.
  - exists (word.of_Z (2 ^ 53)), (word.of_Z (2 ^ 53 + 1)). split; [|by vm_compute].
    intros H%(f_equal word.unsigned). vm_compute in H. discriminate.
  - exists (word.of_Z (0x7ff8000000000000)). intros x [v Hx]. unfold compare. rewrite Hx.
    replace (as_number (MDouble _)) with (Some S754_nan) by (by vm_compute).
    unfold flt, fgt, SFltb. by destruct v as [[]|[]| |[]].
Qed.

(** ** Filters *)

Section FilterInd.
Import Filter.
Variable P : Filter → Prop.
Hypothesis HCmp : ∀ key op v, P (KCmp key op v).
Hypothesis HIn : ∀ key vs, P (KIn key vs).
Hypothesis HAnd : ∀ fs, Forall P fs → P (KAnd fs).
Hypothesis HOr : ∀ fs, Forall P fs → P (KOr fs).
Hypothesis HNot : ∀ f, P f → P (KNot f).

Fixpoint Filter_nested_ind (f : Filter) : P f :=
  let fix go (fs : list Filter) : Forall P fs :=
    match fs with
    | [] => Forall_nil_2 P
    | f :: fs => Forall_cons_2 P f fs (Filter_nested_ind f) (go fs)
    end in
  match f with
  | KCmp key op v => HCmp key op v
  | KIn key vs => HIn key vs
  | KAnd fs => HAnd fs (go fs)
  | KOr fs => HOr fs (go fs)
  | KNot f => HNot f (Filter_nested_ind f)
  end.
End FilterInd.

(** The keys a filter reads. *)
Fixpoint filter_keys (f : Filter) : list string :=
  match f with
  | Filter.KCmp key _ _ | Filter.KIn key _ => [key]
  | Filter.KAnd fs | Filter.KOr fs => flat_map filter_keys fs
  | Filter.KNot f => filter_keys f
  end.

Lemma forallb_ext_in {A} (p q : A → bool) l :
  Forall (λ x, p x = q x) l → forallb p l = forallb q l.
Proof. induction 1 as [|x l H _ IH]; [done|]. cbn. by rewrite H, IH. Qed.

Lemma existsb_ext_in {A} (p q : A → bool) l :
  Forall (λ x, p x = q x) l → existsb p l = existsb q l.
Proof. induction 1 as [|x l H _ IH]; [done|]. cbn. by rewrite H, IH. Qed.

Lemma filter_keys_child f fs k : f ∈ fs → k ∈ filter_keys f → k ∈ flat_map filter_keys fs.
Proof. rewrite !list_elem_of_In, in_flat_map. eauto. Qed.

(** A filter's answer depends only on the keys it names. *)
Theorem matches_frame (f : Filter) (m1 m2 : Metadata) :
  (∀ k, k ∈ filter_keys f → m1 !! k = m2 !! k) → Filter.matches f m1 = Filter.matches f m2.
Proof.
  induction f as [key op v|key vs|fs IH|fs IH|f IH] using Filter_nested_ind; cbn; intros H.
  1,2: rewrite (H key); [done|left].
  1: apply forallb_ext_in. 2: apply existsb_ext_in. 3: by rewrite IH.
  all: rewrite Forall_forall in *; intros f Hf; apply IH; [done|];
    intros k Hk; apply H; eapply filter_keys_child; eauto.
Qed.

(** What each leaf answers: false when the key is missing or the values are not
    comparable, the comparison it names otherwise. *)
Definition leaf_spec (m : Metadata) (key : string) (v : MetaValue) : Prop :=
  match x ← m !! key; compare x v with
  | None =>
      Forall (λ f, Filter.matches f m = false)
        [Filter.eq key v; Filter.ne key v; Filter.lt key v; Filter.le key v;
         Filter.gt key v; Filter.ge key v; Filter.in_ key [v]]
  | Some c =>
      (Filter.matches (Filter.lt key v) m ↔ c = -1) ∧
      (Filter.matches (Filter.eq key v) m ↔ c = 0) ∧
      (Filter.matches (Filter.gt key v) m ↔ c = 1) ∧
      Filter.matches (Filter.ne key v) m = negb (Filter.matches (Filter.eq key v) m) ∧
      Filter.matches (Filter.le key v) m = negb (Filter.matches (Filter.gt key v) m) ∧
      Filter.matches (Filter.ge key v) m = negb (Filter.matches (Filter.lt key v) m)
  end.

Lemma leaf_matches (m : Metadata) (key : string) (v : MetaValue) : leaf_spec m key v.
Proof.
  unfold leaf_spec. destruct (m !! key) as [x|] eqn:Hk; cbn; [|repeat constructor; cbn; by rewrite Hk].
  destruct (compare x v) as [c|] eqn:Hc; [|repeat constructor; cbn; by rewrite Hk, ?Hc].
  rewrite Hk, Hc. destruct (compare_range _ _ _ Hc) as [-> |[-> | ->]]; by cbn.
Qed.

(** [in] is the disjunction of equalities; [negate] exchanges AND and OR. *)
Theorem filter_algebra (m : Metadata) (key : string) (vs : list MetaValue) (fs : list Filter) :
  Filter.matches (Filter.in_ key vs) m =
    Filter.matches (Filter.any_of (Filter.eq key <$> vs)) m ∧
  Filter.matches (Filter.negate (Filter.all_of fs)) m =
    Filter.matches (Filter.any_of (Filter.negate <$> fs)) m ∧
  Filter.matches (Filter.negate (Filter.any_of fs)) m =
    Filter.matches (Filter.all_of (Filter.negate <$> fs)) m.
Proof.
  split_and!.
  - cbn. destruct (m !! key) as [x|] eqn:Hk; induction vs as [|v vs IH]; cbn; try done;
      rewrite Hk, <- IH; [|done]. by destruct (compare x v).
  - cbn. induction fs as [|f fs IH]; [done|]. cbn. by rewrite <- IH, negb_andb.
  - cbn. induction fs as [|f fs IH]; [done|]. cbn. by rewrite <- IH, negb_orb.
Qed.

(** C38: filters. The comparison of values is a preorder where there is no NaN:
    exchanging the arguments negates the result (for all values), and results
    that are not positive compose. Integers of magnitude below [2^53] compare as
    integers, although the code compares them as doubles; beyond, different
    integers may compare equal, and a NaN compares equal to every number. A
    filter's answer depends only on the keys it names; a leaf answers false on a
    missing key or values that are not comparable, and otherwise the comparison
    it names; [in] is the disjunction of equalities; [negate] exchanges AND and
    OR. *)
Theorem filter_semantics (a b c : MetaValue) (x y : Z) (i j : word64) (f : Filter) (m1 m2 : Metadata) (key : string)
    (v : MetaValue) (vs : list MetaValue) (fs : list Filter) :
  compare b a = Z.opp <$> compare a b ∧
  (comparable a → comparable b → comparable c →
   compare a b = Some x → compare b c = Some y → x <= 0 → y <= 0 →
   ∃ z, compare a c = Some z ∧ z <= 0) ∧
  (Z.abs (word.signed i) < 2 ^ 53 → Z.abs (word.signed j) < 2 ^ 53 →
   compare (MInt i) (MInt j) =
   Some (if word.signed i <? word.signed j then -1 else if word.signed j <? word.signed i then 1 else 0)) ∧
  (∃ p q : word64, p ≠ q ∧ compare (MInt p) (MInt q) = Some 0) ∧
  (∃ nan : word64, ∀ v : MetaValue, is_Some (as_number v) → compare (MDouble nan) v = Some 0) ∧
  ((∀ k, k ∈ filter_keys f → m1 !! k = m2 !! k) → Filter.matches f m1 = Filter.matches f m2) ∧
  leaf_spec m1 key v ∧
  Filter.matches (Filter.in_ key vs) m1 =
    Filter.matches (Filter.any_of (Filter.eq key <$> vs)) m1 ∧
  Filter.matches (Filter.negate (Filter.all_of fs)) m1 =
    Filter.matches (Filter.any_of (Filter.negate <$> fs)) m1 ∧
  Filter.matches (Filter.negate (Filter.any_of fs)) m1 =
    Filter.matches (Filter.all_of (Filter.negate <$> fs)) m1.
Proof.
  do 5 (split; [first [apply compare_opp|apply compare_le_trans|apply compare_int_exact|apply compare_collapses]|]).
  split; [apply matches_frame|]. split; [apply leaf_matches|apply filter_algebra].
Qed.

(** ** Examples *)

Lemma compare_preorder_witness :
  compare (MDouble (word.of_Z 4613937818241073152)) (MInt (word.of_Z 2)) =
    Z.opp <$> compare (MInt (word.of_Z 2)) (MDouble (word.of_Z 4613937818241073152)) ∧
  ∃ z, compare (MInt (word.of_Z 2)) (MInt (word.of_Z 7)) = Some z ∧ z <= 0.
Proof.
  destruct (compare_preorder (MInt (word.of_Z 2)) (MDouble (word.of_Z 4613937818241073152))
    (MInt (word.of_Z 7)) (-1) (-1)) as [H1 H2].
  split; [exact H1|]. apply H2; try (vm_compute; reflexivity); try lia; vm_compute; discriminate.
Defined.

Lemma compare_int_exact_witness :
  compare (MInt (word.of_Z (-3))) (MInt (word.of_Z 9007199254740991)) = Some (-1).
Proof. apply (compare_int_exact (word.of_Z (-3)) (word.of_Z 9007199254740991)); vm_compute; reflexivity. Defined.

Lemma matches_frame_witness :
  Filter.matches (Filter.ne "lang" (MString "en")) (<["lang" := MString "de"]> ∅) =
  Filter.matches (Filter.ne "lang" (MString "en")) (<["lang" := MString "de"]> (<["year" := MBool true]> ∅)).
Proof.
  apply (matches_frame (Filter.ne "lang" (MString "en")) (<["lang" := MString "de"]> ∅)
    (<["lang" := MString "de"]> (<["year" := MBool true]> ∅))).
  intros k Hk. apply list_elem_of_singleton in Hk. rewrite Hk. reflexivity.
Defined.

Lemma filter_semantics_witness :
  compare (MInt (word.of_Z 7)) (MInt (word.of_Z 2)) = Z.opp <$> compare (MInt (word.of_Z 2)) (MInt (word.of_Z 7)) ∧
  (∃ z, compare (MInt (word.of_Z 2)) (MInt (word.of_Z 9)) = Some z ∧ z <= 0) ∧
  compare (MInt (word.of_Z (-3))) (MInt (word.of_Z 9007199254740991)) = Some (-1) ∧
  Filter.matches (Filter.ne "lang" (MString "en")) (<["lang" := MString "de"]> ∅) =
  Filter.matches (Filter.ne "lang" (MString "en")) (<["lang" := MString "de"]> (<["year" := MBool true]> ∅)).
Proof.
  destruct (filter_semantics (MInt (word.of_Z 2)) (MInt (word.of_Z 7)) (MInt (word.of_Z 9)) (-1) (-1)
    (word.of_Z (-3)) (word.of_Z 9007199254740991) (Filter.ne "lang" (MString "en")) (<["lang" := MString "de"]> ∅)
    (<["lang" := MString "de"]> (<["year" := MBool true]> ∅)) "lang" (MString "de") [] [])
    as (H1 & H2 & H3 & _ & _ & H4 & _).
  split; [exact H1|split; [|split; [apply H3; vm_compute; reflexivity|]]].
  - apply H2; try (vm_compute; reflexivity); try lia; vm_compute; discriminate.
  - apply H4. intros k Hk. apply list_elem_of_singleton in Hk. rewrite Hk. reflexivity.
Defined.
