(* ===== verification/Bitset.v ===== *)
(** * The allowed-set ([bitset.hpp])

    A fixed-size bitset over 64-bit words. Its abstraction is the set of the
    indices whose bit is set; the operations are undefined outside the words. *)
From S2P Require Import Prelude.
Local Open Scope N_scope.

Module Bitset.

Record t := { words_ : list Z; size_ : N }.

Definition empty_bitset : t := {| words_ := []; size_ := 0 |}.

(** [i >> 6] and [i & 63]. *)
Definition word_index (i : N) : nat := N.to_nat (N.shiftr i 6).
Definition bit_index (i : N) : Z := Z.of_N (N.land i 63).

Definition resize (n : N) : t :=
  {| words_ := replicate (N.to_nat ((n + 63) / 64)) 0%Z; size_ := n |}.

Definition size (b : t) : N := size_ b.

Definition clear (b : t) : t :=
  {| words_ := (λ _, 0%Z) <$> words_ b; size_ := size_ b |}.

Definition set (i : N) (b : t) : result t :=
  w ← at_ (words_ b) (word_index i);
  ws ← set_at (words_ b) (word_index i) (Z.lor w (Z.shiftl 1 (bit_index i)));
  Ok {| words_ := ws; size_ := size_ b |}.

(** [~x] on 64 bits is [x xor (2^64 - 1)]. *)
Definition reset (i : N) (b : t) : result t :=
  w ← at_ (words_ b) (word_index i);
  ws ← set_at (words_ b) (word_index i)
         (Z.land w (Z.lxor (Z.shiftl 1 (bit_index i)) (Z.ones 64)));
  Ok {| words_ := ws; size_ := size_ b |}.

Definition test (b : t) (i : N) : result bool :=
  if size_ b <=? i then Ok false
  else
    w ← at_ (words_ b) (word_index i);
    Ok (negb (Z.land (Z.shiftr w (bit_index i)) 1 =? 0)%Z).

Fixpoint intersect_words (ws other : list Z) : list Z :=
  match ws, other with
  | w :: ws, o :: other => Z.land w o :: intersect_words ws other
  | ws, [] => (λ _, 0%Z) <$> ws
  | [], _ => []
  end.

Definition intersect (b other : t) : t :=
  {| words_ := intersect_words (words_ b) (words_ other); size_ := size_ b |}.

(** [std::popcount] of a 64-bit word. *)
Definition popcount (w : Z) : nat :=
  length (filter (λ k, Z.testbit w (Z.of_nat k)) (seq 0 64)).

Definition count (b : t) : nat := foldl (λ c w, c + popcount w)%nat 0%nat (words_ b).

(** ** Abstraction and invariant *)

Definition bit (b : t) (i : N) : bool :=
  match words_ b !! word_index i with
  | Some w => Z.testbit w (bit_index i)
  | None => false
  end.

Record bitset_wf (b : t) : Prop := {
  wf_length : length (words_ b) = N.to_nat ((size_ b + 63) / 64);
  wf_stray : ∀ i, size_ b <= i → bit b i = false;
}.

Lemma word_index_div i : word_index i = N.to_nat (i / 64).
Proof. unfold word_index. by rewrite N.shiftr_div_pow2. Qed.

Lemma bit_index_mod i : bit_index i = Z.of_N (i mod 64).
Proof. unfold bit_index. change 63 with (N.ones 6). by rewrite N.land_ones. Qed.

Lemma bit_index_range i : (0 <= bit_index i < 64)%Z.
Proof. rewrite bit_index_mod, N2Z.inj_mod. by apply Z.mod_pos_bound. Qed.

Lemma index_inj i j : word_index i = word_index j → bit_index i = bit_index j → i = j.
Proof.
  rewrite !word_index_div, !bit_index_mod. intros H1 H2.
  rewrite (N.div_mod i 64), (N.div_mod j 64) by lia. lia.
Qed.

Lemma wf_in_range b i : bitset_wf b → i < size_ b → (word_index i < length (words_ b))%nat.
Proof.
  intros [Hl _] Hi. rewrite Hl, word_index_div.
  assert (i / 64 < (size_ b + 63) / 64); [|lia].
  apply N.div_lt_upper_bound; [lia|].
  pose proof (N.div_mod' (size_ b + 63) 64).
  assert ((size_ b + 63) mod 64 < 64) by by apply N.mod_lt. lia.
Qed.

(** [test] reads the abstraction, and is defined everywhere. *)
Lemma bitset_test_bit b i : bitset_wf b → test b i = Ok (bit b i).
Proof.
  intros Hwf. unfold test. destruct (N.leb_spec (size_ b) i) as [Hi|Hi].
  - by rewrite (wf_stray b Hwf) by done.
  - destruct (at_lt (words_ b) (word_index i)) as (w & Hat & Hw); [by apply wf_in_range|].
    rewrite Hat. cbn. unfold bit. rewrite Hw. do 2 f_equal.
    change 1%Z with (Z.ones 1). rewrite Z.land_ones by lia.
    rewrite <- (Z.add_0_l (bit_index i)) at 2. rewrite <- Z.shiftr_spec by lia.
    rewrite Z.bit0_odd, Zmod_odd. by destruct (Z.odd _).
Qed.

Lemma bitset_resize_wf n : bitset_wf (resize n) ∧ ∀ i, bit (resize n) i = false.
Proof.
  assert (∀ i, bit (resize n) i = false) as Hb.
  { intros i. unfold bit, resize; cbn. destruct (replicate _ _ !! _) as [w|] eqn:E; [|done].
    apply lookup_replicate in E as [-> _]. apply Z.testbit_0_l. }
  split; [split|]; [by cbn; rewrite length_replicate|intros; apply Hb|done].
Qed.

(** Updating one word changes the bits of that word only. *)
Lemma bit_update b i w j :
  (word_index i < length (words_ b))%nat →
  bit {| words_ := <[word_index i := w]> (words_ b); size_ := size_ b |} j =
  if decide (word_index j = word_index i) then Z.testbit w (bit_index j) else bit b j.
Proof.
  intros Hi. unfold bit; cbn. case_decide as E.
  - by rewrite E, list_lookup_insert_eq.
  - by rewrite list_lookup_insert_ne.
Qed.

Lemma one_bit i k :
  (0 <= k < 64)%Z → Z.testbit (Z.shiftl 1 (bit_index i)) k = bool_decide (k = bit_index i).
Proof.
  intros Hk. pose proof (bit_index_range i).
  rewrite Z.shiftl_spec by lia. case_bool_decide as E.
  - by rewrite E, Z.sub_diag.
  - destruct (decide (k < bit_index i)%Z).
    + by apply Z.testbit_neg_r; lia.
    + change 1%Z with (2 ^ 0)%Z. apply Z.pow2_bits_false. lia.
Qed.

(** ** The operations on the abstraction *)

(** Replacing the word of [i] by [w], where [w] agrees with the old word
    outside the bit of [i], sets that bit and no other. *)
Lemma update_spec b i w (v : bool) :
  bitset_wf b → i < size_ b →
  (∀ w0, words_ b !! word_index i = Some w0 → ∀ k, (0 <= k < 64)%Z →
    Z.testbit w k = if decide (k = bit_index i) then v else Z.testbit w0 k) →
  let b' := {| words_ := <[word_index i := w]> (words_ b); size_ := size_ b |} in
  bitset_wf b' ∧ ∀ j, bit b' j = if decide (j = i) then v else bit b j.
Proof.
  intros Hwf Hi Hw b'. pose proof (wf_in_range b i Hwf Hi) as Hr.
  assert (∀ j, bit b' j = if decide (j = i) then v else bit b j) as Hb.
  { intros j. unfold b'. rewrite bit_update by done. case_decide as E.
    - destruct (lookup_lt_is_Some_2 _ _ Hr) as [w0 Hw0].
      rewrite (Hw w0 Hw0 _ (bit_index_range j)).
      case_decide as E'; case_decide as E''; subst; try done.
      + by destruct E''; apply index_inj.
      + unfold bit. by rewrite E, Hw0.
    - case_decide; [by subst|done]. }
  split; [|done]. split.
  - unfold b'; cbn. rewrite length_insert. apply Hwf.
  - intros j Hj. rewrite Hb. case_decide; [cbn in Hj; lia|]. by apply (wf_stray b Hwf).
Qed.

Lemma set_spec (b : t) (i : N) :
  bitset_wf b → i < size_ b →
  ∃ b', set i b = Ok b' ∧ bitset_wf b' ∧ size_ b' = size_ b ∧
        ∀ j, test b' j = Ok (if decide (j = i) then true else bit b j).
Proof.
  intros Hwf Hi. pose proof (wf_in_range b i Hwf Hi) as Hr.
  destruct (at_lt (words_ b) _ Hr) as (w & Hat & Hw). unfold set. rewrite Hat. cbn.
  rewrite set_at_lt by done. cbn.
  edestruct (update_spec b i (Z.lor w (Z.shiftl 1 (bit_index i))) true) as [Hwf' Hb]; [done..| |].
  { intros w0 Hw0 k Hk. assert (w0 = w) as -> by congruence. rewrite Z.lor_spec, one_bit by done.
    case_decide; case_bool_decide; try done; by rewrite ?orb_true_r, ?orb_false_r. }
  eexists. split_and!; [done..|]. intros j. by rewrite bitset_test_bit, Hb.
Qed.

Lemma reset_spec (b : t) (i : N) :
  bitset_wf b → i < size_ b →
  ∃ b', reset i b = Ok b' ∧ bitset_wf b' ∧ size_ b' = size_ b ∧
        ∀ j, test b' j = Ok (if decide (j = i) then false else bit b j).
Proof.
  intros Hwf Hi. pose proof (wf_in_range b i Hwf Hi) as Hr.
  destruct (at_lt (words_ b) _ Hr) as (w & Hat & Hw). unfold reset. rewrite Hat. cbn.
  rewrite set_at_lt by done. cbn.
  edestruct (update_spec b i (Z.land w (Z.lxor (Z.shiftl 1 (bit_index i)) (Z.ones 64))) false)
    as [Hwf' Hb]; [done..| |].
  { intros w0 Hw0 k Hk. assert (w0 = w) as -> by congruence.
    rewrite Z.land_spec, Z.lxor_spec, Z.ones_spec_low, one_bit by lia.
    case_decide; case_bool_decide; try done; by rewrite ?andb_false_r, ?andb_true_r. }
  eexists. split_and!; [done..|]. intros j. by rewrite bitset_test_bit, Hb.
Qed.

(** [set] and [reset] of an index below the size are within the words and
    change that index and no other; the bits past the size stay clear. *)
Theorem bitset_set_reset_spec (b : t) (i : N) :
  bitset_wf b → i < size_ b →
  (∃ b', set i b = Ok b' ∧ bitset_wf b' ∧ size_ b' = size_ b ∧
     ∀ j, test b' j = if decide (j = i) then Ok true else test b j) ∧
  (∃ b', reset i b = Ok b' ∧ bitset_wf b' ∧ size_ b' = size_ b ∧
     ∀ j, test b' j = if decide (j = i) then Ok false else test b j).
Proof.
  intros Hwf Hi. split.
  - destruct (set_spec b i Hwf Hi) as (b' & ? & ? & ? & Ht). exists b'. split_and!; [done..|].
    intros j. rewrite Ht, (bitset_test_bit b) by done. by case_decide.
  - destruct (reset_spec b i Hwf Hi) as (b' & ? & ? & ? & Ht). exists b'. split_and!; [done..|].
    intros j. rewrite Ht, (bitset_test_bit b) by done. by case_decide.
Qed.

Lemma intersect_words_lookup ws other k :
  intersect_words ws other !! k =
  w ← ws !! k; Some (match other !! k with Some o => Z.land w o | None => 0%Z end).
Proof.
  revert other k. induction ws as [|w ws IH]; intros other k.
  { by destruct other. }
  destruct other as [|o other].
  - etrans; [apply (list_lookup_fmap (λ _, 0%Z) (w :: ws) k)|]. by destruct ((w :: ws) !! k).
  - cbn. destruct k as [|k]; [done|]. cbn. apply IH.
Qed.

(** Intersection keeps an index exactly when both sets hold it, also when the
    sets have different sizes. *)
Theorem bitset_intersect_spec (b other : t) :
  bitset_wf b → bitset_wf other →
  bitset_wf (intersect b other) ∧
  ∀ j, test (intersect b other) j = Ok (bit b j && bit other j).
Proof.
  intros Hb Ho.
  assert (∀ j, bit (intersect b other) j = bit b j && bit other j) as Hbit.
  { intros j. unfold bit; cbn. rewrite intersect_words_lookup.
    destruct (words_ b !! _) as [w|]; [|done]. cbn.
    destruct (words_ other !! _) as [o|]; [by rewrite Z.land_spec|].
    by rewrite Z.testbit_0_l, andb_false_r. }
  assert (bitset_wf (intersect b other)) as Hwf.
  { split.
    - cbn. rewrite <- (wf_length b Hb). clear. generalize (words_ other).
      induction (words_ b) as [|w ws IH]; intros [|o os]; cbn; try done;
        by rewrite ?length_fmap, ?IH.
    - intros j Hj. rewrite Hbit, (wf_stray b Hb); done. }
  split; [done|]. intros j. by rewrite bitset_test_bit, Hbit.
Qed.

Lemma filter_seq_shift (P : nat → bool) a n :
  length (filter (λ k, P (a + k)%nat) (seq 0 n)) = length (filter P (seq a n)).
Proof.
  replace (seq a n) with (Nat.add a <$> seq 0 n) by (rewrite fmap_add_seq; f_equal; lia).
  by rewrite list_filter_fmap, length_fmap.
Qed.

Lemma count_words ws n :
  foldl (λ c w, c + popcount w)%nat 0%nat ws =
  length (filter (λ k, bit {| words_ := ws; size_ := n |} (N.of_nat k)) (seq 0 (64 * length ws))).
Proof.
  induction ws as [|w ws IH] using rev_ind; [done|].
  rewrite foldl_app, length_app, Nat.mul_add_distr_l, seq_app, filter_app, length_app.
  cbn [foldl length]. rewrite IH. unfold popcount. f_equal.
  - f_equal. apply filter_ext_elem. intros k Hk%elem_of_seq. unfold bit; cbn.
    rewrite lookup_app_l; [done|]. rewrite word_index_div.
    assert (N.of_nat k / 64 < N.of_nat (length ws)); [|lia].
    apply N.div_lt_upper_bound; lia.
  - rewrite <- (filter_seq_shift _ (0 + 64 * length ws)). rewrite Nat.mul_1_r.
    f_equal. apply filter_ext_elem. intros k Hk%elem_of_seq. unfold bit; cbn -[Nat.mul].
    replace (N.of_nat (64 * length ws + k)) with (N.of_nat (length ws) * 64 + N.of_nat k) by lia.
    rewrite word_index_div, bit_index_mod.
    rewrite N.div_add_l, (N.div_small (N.of_nat k)), N.add_0_r, Nat2N.id by lia.
    rewrite lookup_app_r, Nat.sub_diag by lia. cbn.
    rewrite N.add_comm, N.Div0.mod_add, N.mod_small by lia. by rewrite nat_N_Z.
Qed.

(** [count] is the number of indices in the set. *)
Theorem bitset_count_spec (b : t) :
  bitset_wf b →
  count b = length (filter (λ k, bit b (N.of_nat k)) (seq 0 (N.to_nat (size_ b)))).
Proof.
  intros Hwf. unfold count. rewrite (count_words _ (size_ b)), (wf_length b Hwf).
  set (n := N.to_nat (size_ b)). set (t := (64 * N.to_nat ((size_ b + 63) / 64))%nat).
  assert (n ≤ t)%nat as Hle.
  { pose proof (N.div_mod' (size_ b + 63) 64).
    assert ((size_ b + 63) mod 64 < 64) by by apply N.mod_lt. lia. }
  replace t with (n + (t - n))%nat by lia.
  rewrite seq_app, filter_app, length_app.
  rewrite (filter_none _ (seq (0 + n) _)); [destruct b; cbn; lia|].
  intros k Hk%elem_of_seq. replace {| words_ := words_ b; size_ := size_ b |} with b by by destruct b.
  rewrite (wf_stray _ Hwf); [naive_solver|]. unfold n in *. lia.
Qed.

(** C37: a bitset is a set of indices below its size: [set] and [reset] of an index
    below the size change that index and no other, [intersect] keeps the common
    indices, also of sets of different sizes, and [count] is their number; the
    bits past the size stay clear and no word is accessed out of range. *)
Theorem bitset_refines_set (b other : t) (i : N) :
  bitset_wf b → bitset_wf other → i < size_ b →
  (∃ b', set i b = Ok b' ∧ bitset_wf b' ∧ size_ b' = size_ b ∧
     ∀ j, test b' j = if decide (j = i) then Ok true else test b j) ∧
  (∃ b', reset i b = Ok b' ∧ bitset_wf b' ∧ size_ b' = size_ b ∧
     ∀ j, test b' j = if decide (j = i) then Ok false else test b j) ∧
  (bitset_wf (intersect b other) ∧ ∀ j, test (intersect b other) j = Ok (bit b j && bit other j)) ∧
  count b = length (filter (λ k, bit b (N.of_nat k)) (seq 0 (N.to_nat (size b)))).
Proof.
  intros Hb Ho Hi. destruct (bitset_set_reset_spec b i Hb Hi) as [Hs Hr].
  split_and!; [done|done|apply bitset_intersect_spec; done|apply bitset_intersect_spec; done|by apply bitset_count_spec].
Qed.

(** ** Examples *)

Lemma resize_wf n : bitset_wf (resize n).
Proof. apply bitset_resize_wf. Defined.

Lemma bitset_set_reset_spec_witness :
  (∃ b', set 69 (resize 70) = Ok b' ∧ bitset_wf b' ∧ size_ b' = 70 ∧
     ∀ j, test b' j = if decide (j = 69) then Ok true else test (resize 70) j) ∧
  (∃ b', reset 69 (resize 70) = Ok b' ∧ bitset_wf b' ∧ size_ b' = 70 ∧
     ∀ j, test b' j = if decide (j = 69) then Ok false else test (resize 70) j).
Proof. apply (bitset_set_reset_spec (resize 70) 69); [apply resize_wf|reflexivity]. Defined.

Lemma bitset_intersect_spec_witness :
  bitset_wf (intersect (resize 70) (resize 3)) ∧
  ∀ j, test (intersect (resize 70) (resize 3)) j = Ok (bit (resize 70) j && bit (resize 3) j).
Proof. apply (bitset_intersect_spec (resize 70) (resize 3)); apply resize_wf. Defined.

Lemma bitset_count_spec_witness :
  count (resize 70) = length (filter (λ k, bit (resize 70) (N.of_nat k)) (seq 0 70)).
Proof. apply (bitset_count_spec (resize 70)). apply resize_wf. Defined.

Lemma bitset_refines_set_witness :
  (∃ b', set 69 (resize 70) = Ok b' ∧ bitset_wf b' ∧ size_ b' = 70 ∧
     ∀ j, test b' j = if decide (j = 69) then Ok true else test (resize 70) j) ∧
  (∃ b', reset 69 (resize 70) = Ok b' ∧ bitset_wf b' ∧ size_ b' = 70 ∧
     ∀ j, test b' j = if decide (j = 69) then Ok false else test (resize 70) j) ∧
  (bitset_wf (intersect (resize 70) (resize 3)) ∧
     ∀ j, test (intersect (resize 70) (resize 3)) j = Ok (bit (resize 70) j && bit (resize 3) j)) ∧
  count (resize 70) = length (filter (λ k, bit (resize 70) (N.of_nat k)) (seq 0 70)).
Proof. apply (bitset_refines_set (resize 70) (resize 3) 69); [apply resize_wf|apply resize_wf|reflexivity]. Defined.

Example count_two :
  (b ← set 0 (resize 70); b ← set 69 b; Ok (count b)) = Ok 2%nat.
Proof. vm_compute. reflexivity. Qed.
End Bitset.
