(* ===== verification/VectorStore.v ===== *)
(** * The vector store ([vector_store.hpp], [vector_store.cpp])

    The storage layer: one arena of floats, dense internal ids in insertion
    order, tombstones, and the logical operations [Op] applied by [apply].
    The methods run in the monad [M] over the store: an exception leaves the
    fields as they are when it is thrown. *)
From S2P Require Import Prelude Binary Distance Metadata.
Local Open Scope nat_scope.

Inductive OpType := Insert | Update | Delete.

#[export] Instance OpType_eq_dec : EqDecision OpType.
Proof. solve_decision. Defined.

Record Op := {
  op_type : OpType;
  op_ext_id : string;
  op_vec : list word32;
  op_meta : option Metadata;
}.

Module VectorStore.

Record t := {
  dim_ : Dim;
  arena_ : list word32;
  live_ : list N;
  ext_ids_ : list string;
  meta_ : list Metadata;
  ext_to_int_ : gmap string InternalId;
  live_count_ : nat;
}.

Definition set_slot (arena : list word32) (live : list N) (meta : list Metadata) (count : nat)
    (s : t) : t :=
  {| dim_ := dim_ s; arena_ := arena; live_ := live; ext_ids_ := ext_ids_ s; meta_ := meta;
     ext_to_int_ := ext_to_int_ s; live_count_ := count |}.

(** The constructor; [reserve] only affects capacities. *)
Definition make (dim : Dim) : result t :=
  if (dim =? 0)%N then Throw (invalid_argument "VectorStore: dim must be > 0")
  else Ok {| dim_ := dim; arena_ := []; live_ := []; ext_ids_ := []; meta_ := [];
             ext_to_int_ := ∅; live_count_ := 0 |}.

Definition slot_count (s : t) : nat := length (ext_ids_ s).
Definition size (s : t) : nat := live_count_ s.

Definition validate_dim (vec : list word32) : M t () :=
  s ← read_state;
  if (to_u32 (length vec) =? dim_ s)%N then mret tt
  else throw (invalid_argument "VectorStore: vector dimensionality mismatch").

(** Index of the first component of slot [i] in the arena. *)
Definition offset (s : t) (i : InternalId) : nat := N.to_nat i * N.to_nat (dim_ s).

(** [std::copy] of [vec] over the arena from [off] on. *)
Definition copy_at (arena : list word32) (off : nat) (vec : list word32) : result (list word32) :=
  if decide (off + length vec ≤ length arena) then Ok (list_inserts off vec arena)
  else Throw undefined_behaviour.

Definition do_insert (ext : string) (vec : list word32) (meta : Metadata) : M t InternalId :=
  _ ← validate_dim vec;
  s ← read_state;
  match ext_to_int_ s !! ext with
  | Some i =>
      arena ← lift (copy_at (arena_ s) (offset s i) vec);
      metas ← lift (set_at (meta_ s) (N.to_nat i) meta);
      l ← lift (at_ (live_ s) (N.to_nat i));
      if (l =? 0)%N then
        live ← lift (set_at (live_ s) (N.to_nat i) 1%N);
        _ ← write_state (set_slot arena live metas (live_count_ s + 1) s);
        mret i
      else
        _ ← write_state (set_slot arena (live_ s) metas (live_count_ s) s);
        mret i
  | None =>
      let i := to_u32 (length (ext_ids_ s)) in
      _ ← write_state
        {| dim_ := dim_ s; arena_ := arena_ s ++ vec; live_ := live_ s ++ [1%N];
           ext_ids_ := ext_ids_ s ++ [ext]; meta_ := meta_ s ++ [meta];
           ext_to_int_ := <[ext := i]> (ext_to_int_ s); live_count_ := live_count_ s + 1 |};
      mret i
  end.

(** [it == end() || live_[it->second] == 0]. *)
Definition find_live (s : t) (ext : string) : result (option InternalId) :=
  match ext_to_int_ s !! ext with
  | None => Ok None
  | Some i => l ← at_ (live_ s) (N.to_nat i); Ok (if (l =? 0)%N then None else Some i)
  end.

Definition do_update (ext : string) (vec : list word32) (meta : option Metadata)
    : M t (option InternalId) :=
  s ← read_state;
  it ← lift (find_live s ext);
  match it with
  | None => mret None
  | Some i =>
      _ ← validate_dim vec;
      arena ← lift (copy_at (arena_ s) (offset s i) vec);
      metas ← lift (match meta with
                    | Some m => set_at (meta_ s) (N.to_nat i) m
                    | None => Ok (meta_ s)
                    end);
      _ ← write_state (set_slot arena (live_ s) metas (live_count_ s) s);
      mret (Some i)
  end.

Definition do_erase (ext : string) : M t (option InternalId) :=
  s ← read_state;
  it ← lift (find_live s ext);
  match it with
  | None => mret None
  | Some i =>
      live ← lift (set_at (live_ s) (N.to_nat i) 0%N);
      _ ← write_state (set_slot (arena_ s) live (meta_ s) (live_count_ s - 1) s);
      mret (Some i)
  end.

Definition apply (op : Op) : M t (option InternalId) :=
  match op_type op with
  | Insert =>
      i ← do_insert (op_ext_id op) (op_vec op) (default ∅ (op_meta op));
      mret (Some i)
  | Update => do_update (op_ext_id op) (op_vec op) (op_meta op)
  | Delete => do_erase (op_ext_id op)
  end.

(** [optional::value()]. *)
Definition value {S A} (o : option A) : M S A :=
  match o with Some a => mret a | None => throw bad_optional_access end.

Definition insert (ext : string) (vec : list word32) (meta : Metadata) : M t InternalId :=
  r ← apply {| op_type := Insert; op_ext_id := ext; op_vec := vec; op_meta := Some meta |};
  value r.

Definition update (ext : string) (vec : list word32) (meta : option Metadata) : M t bool :=
  r ← apply {| op_type := Update; op_ext_id := ext; op_vec := vec; op_meta := meta |};
  mret (bool_decide (is_Some r)).

Definition erase (ext : string) : M t bool :=
  r ← apply {| op_type := Delete; op_ext_id := ext; op_vec := []; op_meta := None |};
  mret (bool_decide (is_Some r)).

(** The span of slot [i]; undefined outside the arena. *)
Definition get (s : t) (i : InternalId) : result (list word32) :=
  if decide (offset s i + N.to_nat (dim_ s) ≤ length (arena_ s)) then
    Ok (take (N.to_nat (dim_ s)) (drop (offset s i) (arena_ s)))
  else Throw undefined_behaviour.

Definition resolve (s : t) (ext : string) : result (option InternalId) :=
  match ext_to_int_ s !! ext with
  | None => Ok None
  | Some i => l ← at_ (live_ s) (N.to_nat i); Ok (if (l =? 0)%N then None else Some i)
  end.

Definition metadata (s : t) (i : InternalId) : option Metadata :=
  if (N.of_nat (length (meta_ s)) <=? i)%N then None else meta_ s !! N.to_nat i.

Definition is_live (s : t) (i : InternalId) : bool :=
  match live_ s !! N.to_nat i with Some l => negb (l =? 0)%N | None => false end.

Definition external_id (s : t) (i : InternalId) : result string :=
  at_ (ext_ids_ s) (N.to_nat i).

(** ** Invariant and abstraction *)

(** The [i]-th row of the arena. *)
Definition row (d : nat) (arena : list word32) (i : nat) : list word32 :=
  take d (drop (i * d) arena).

(** Number of slots that are not tombstones. *)
Definition count_live (live : list N) : nat := length (filter (λ l, l ≠ 0%N) live).

Record wf (s : t) : Prop := {
  wf_dim : (0 < dim_ s)%N;
  wf_dim_u32 : (dim_ s < 2 ^ 32)%N;
  wf_arena : length (arena_ s) = slot_count s * N.to_nat (dim_ s);
  wf_live : length (live_ s) = slot_count s;
  wf_meta : length (meta_ s) = slot_count s;
  wf_slots : (N.of_nat (slot_count s) ≤ 2 ^ 32)%N;
  wf_ids e i : ext_to_int_ s !! e = Some i ↔ ext_ids_ s !! N.to_nat i = Some e;
  wf_count : live_count_ s = count_live (live_ s);
}.

(** What a client can observe: the live entries by external id. *)
Definition entry (s : t) (i : InternalId) : option (list word32 * Metadata) :=
  if is_live s i then
    m ← meta_ s !! N.to_nat i; Some (row (N.to_nat (dim_ s)) (arena_ s) (N.to_nat i), m)
  else None.

Definition abs (s : t) : gmap string (list word32 * Metadata) := omap (entry s) (ext_to_int_ s).

Lemma abs_lookup s e : abs s !! e = ext_to_int_ s !! e ≫= entry s.
Proof. apply lookup_omap. Qed.

Lemma length_row d arena i : (i + 1) * d ≤ length arena → length (row d arena i) = d.
Proof. intros H. unfold row. rewrite length_take, length_drop. lia. Qed.

Lemma row_ext d a b i :
  (∀ k, k < d → a !! (i * d + k) = b !! (i * d + k)) → row d a i = row d b i.
Proof.
  intros H. apply list_eq. intros k. unfold row.
  destruct (decide (k < d)).
  - rewrite !lookup_take_lt, !lookup_drop by done. by apply H.
  - by rewrite !lookup_take_ge by lia.
Qed.

Lemma row_inserts d arena i v j n :
  length arena = n * d → length v = d → i < n → j < n →
  row d (list_inserts (i * d) v arena) j = if decide (j = i) then v else row d arena j.
Proof.
  intros Ha Hv Hi Hj. case_decide as E.
  - subst j. apply list_eq. intros k. unfold row. destruct (decide (k < d)).
    + rewrite lookup_take_lt, lookup_drop, list_lookup_inserts by nia. f_equal. lia.
    + rewrite lookup_take_ge by lia. symmetry. apply lookup_ge_None. lia.
  - apply row_ext. intros k Hk. destruct (decide (j < i)).
    + apply list_lookup_inserts_lt. nia.
    + apply list_lookup_inserts_ge. nia.
Qed.

Lemma inserts_row d arena i n :
  length arena = n * d → i < n → list_inserts (i * d) (row d arena i) arena = arena.
Proof.
  intros Ha Hi. assert (length (row d arena i) = d) as Hr by (apply length_row; nia).
  apply list_eq. intros k. destruct (decide (i * d ≤ k < i * d + d)).
  - rewrite list_lookup_inserts by nia. unfold row.
    rewrite lookup_take_lt, lookup_drop by lia. f_equal. lia.
  - destruct (decide (k < i * d)); [apply list_lookup_inserts_lt; lia|].
    apply list_lookup_inserts_ge. lia.
Qed.

Lemma row_app d arena v j n :
  length arena = n * d → length v = d →
  row d (arena ++ v) j = if decide (j = n) then v else row d arena j.
Proof.
  intros Ha Hv. case_decide as E.
  - subst j. unfold row. rewrite <- Ha, drop_app_length, take_ge; [done|lia].
  - destruct (decide (j < n)).
    + apply row_ext. intros k Hk. apply lookup_app_l. nia.
    + unfold row. rewrite !drop_ge; [done|nia|rewrite length_app; nia].
Qed.

Lemma count_live_insert live i l l0 :
  live !! i = Some l0 →
  count_live (<[i := l]> live) + (if decide (l0 = 0%N) then 0 else 1) =
  count_live live + (if decide (l = 0%N) then 0 else 1).
Proof.
  unfold count_live. revert i. induction live as [|x live IH]; intros [|i] Hi; [done..| |].
  - injection Hi as ->. change (<[0 := l]> (l0 :: live)) with (l :: live).
    rewrite !filter_cons. repeat case_decide; cbn; naive_solver lia.
  - specialize (IH i Hi). change (<[S i := l]> (x :: live)) with (x :: <[i := l]> live).
    rewrite !filter_cons. destruct (decide (x ≠ 0%N)); cbn; lia.
Qed.

Lemma is_live_lookup s i : is_live s i ↔ ∃ l, live_ s !! N.to_nat i = Some l ∧ l ≠ 0%N.
Proof.
  unfold is_live. destruct (live_ s !! _) as [l|]; [|naive_solver].
  destruct (N.eqb_spec l 0); naive_solver.
Qed.

Lemma wf_slot s e i :
  wf s → ext_to_int_ s !! e = Some i → N.to_nat i < slot_count s.
Proof. intros Hwf H%(wf_ids s Hwf). by apply lookup_lt_Some in H. Qed.

Lemma wf_ids_inj s e e' i :
  wf s → ext_to_int_ s !! e = Some i → ext_to_int_ s !! e' = Some i → e = e'.
Proof. intros Hwf H1%(wf_ids s Hwf) H2%(wf_ids s Hwf). congruence. Qed.

(** Writing a vector, a liveness flag and metadata into slot [i], whose external
    id is [e], changes the entry of [e] and no other. *)
Lemma set_slot_spec s e i v m l :
  wf s → ext_to_int_ s !! e = Some i → length v = N.to_nat (dim_ s) →
  let live := <[N.to_nat i := l]> (live_ s) in
  let s' := set_slot (list_inserts (offset s i) v (arena_ s)) live
              (<[N.to_nat i := m]> (meta_ s)) (count_live live) s in
  wf s' ∧ abs s' = if decide (l = 0%N) then delete e (abs s) else <[e := (v, m)]> (abs s).
Proof.
  intros Hwf He Hv live s'. pose proof (wf_slot s e i Hwf He) as Hi.
  assert (wf s') as Hwf'.
  { destruct Hwf. split; try done; unfold s', live, slot_count in *; cbn;
      by rewrite ?length_inserts, ?length_insert. }
  split; [done|]. apply map_eq. intros e'. rewrite abs_lookup.
  change (ext_to_int_ s') with (ext_to_int_ s).
  destruct (decide (e' = e)) as [-> |Hne].
  - rewrite He. cbn. unfold entry, is_live, s', live; cbn.
    rewrite !list_lookup_insert_eq by (by rewrite ?(wf_live s), ?(wf_meta s)). cbn.
    unfold offset. rewrite (row_inserts _ _ _ _ _ _ (wf_arena s Hwf)) by done.
    rewrite decide_True by done.
    destruct (N.eqb_spec l 0) as [-> |]; cbn.
    + by rewrite decide_True, lookup_delete_eq.
    + by rewrite decide_False, lookup_insert_eq.
  - assert ((if decide (l = 0%N) then delete e (abs s) else <[e := (v, m)]> (abs s)) !! e' = abs s !! e') as ->.
    { case_decide; [by rewrite lookup_delete_ne|by rewrite lookup_insert_ne]. }
    rewrite abs_lookup. destruct (ext_to_int_ s !! e') as [j|] eqn:Hj; [|done]. cbn.
    assert (N.to_nat j ≠ N.to_nat i) as Hji.
    { intros E%N2Nat.inj. subst j. by apply Hne, (wf_ids_inj s _ _ i). }
    pose proof (wf_slot s e' j Hwf Hj) as Hjs.
    unfold entry, is_live, s', live; cbn. rewrite !list_lookup_insert_ne by done.
    destruct (live_ s !! N.to_nat j) as [lj|]; [|done]. destruct (negb (lj =? 0)%N); [|done].
    destruct (meta_ s !! N.to_nat j) as [mj|]; [|done]. cbn. unfold offset.
    by rewrite (row_inserts _ _ _ _ _ _ (wf_arena s Hwf)), decide_False by done.
Qed.

(** Appending a slot for a new external id adds its entry and no other. *)
Lemma append_slot_spec s e v m :
  wf s → ext_to_int_ s !! e = None → length v = N.to_nat (dim_ s) →
  (N.of_nat (slot_count s) < 2 ^ 32)%N →
  let s' := {| dim_ := dim_ s; arena_ := arena_ s ++ v; live_ := live_ s ++ [1%N];
     ext_ids_ := ext_ids_ s ++ [e]; meta_ := meta_ s ++ [m];
     ext_to_int_ := <[e := N.of_nat (slot_count s)]> (ext_to_int_ s);
     live_count_ := live_count_ s + 1 |} in
  wf s' ∧ abs s' = <[e := (v, m)]> (abs s).
Proof.
  intros Hwf He Hv Hslots s'.
  assert (∀ e' j, ext_to_int_ s !! e' = Some j → N.to_nat j < slot_count s ∧ e' ≠ e) as Hold.
  { intros e' j Hj. split; [by eapply wf_slot|]. congruence. }
  assert (slot_count s' = S (slot_count s)) as Hsc.
  { unfold slot_count, s'; cbn. rewrite length_app. cbn. lia. }
  assert (wf s') as Hwf'.
  { split; rewrite ?Hsc; unfold s'; cbn; rewrite ?length_app.
    - apply Hwf.
    - apply Hwf.
    - rewrite (wf_arena s Hwf). lia.
    - rewrite (wf_live s Hwf). cbn. lia.
    - rewrite (wf_meta s Hwf). cbn. lia.
    - lia.
    - intros e' i. rewrite lookup_insert, lookup_snoc_Some. fold (slot_count s). case_decide as E.
      + subst e'. split; [intros [= <-]; right; split; [lia|done]|].
        intros [[_ H]|[H _]]; [|f_equal; lia].
        rewrite <- (Nat2N.id (N.to_nat i)), N2Nat.id in H. apply (wf_ids s Hwf) in H. congruence.
      + rewrite (wf_ids s Hwf). split; [|naive_solver].
        intros H. left. split; [|done]. by apply lookup_lt_Some in H.
    - unfold count_live. rewrite filter_app, length_app, (wf_count s Hwf). done. }
  split; [done|]. apply map_eq. intros e'. rewrite abs_lookup. unfold s' at 2; cbn.
  destruct (decide (e' = e)) as [-> |Hne].
  - rewrite !lookup_insert_eq. cbn. unfold entry, is_live, s'; cbn. rewrite Nat2N.id.
    rewrite (list_lookup_middle (live_ s)) by (symmetry; apply Hwf). cbn.
    rewrite (list_lookup_middle (meta_ s)) by (symmetry; apply Hwf). cbn.
    by rewrite (row_app _ _ _ _ (slot_count s)), decide_True by (done || apply Hwf).
  - rewrite !lookup_insert_ne by done. rewrite abs_lookup.
    destruct (ext_to_int_ s !! e') as [j|] eqn:Hj; [|done]. cbn.
    destruct (Hold e' j Hj) as [Hjs _]. unfold entry, is_live, s'; cbn.
    rewrite !lookup_app_l by (by rewrite ?(wf_live s), ?(wf_meta s)).
    destruct (live_ s !! N.to_nat j) as [lj|]; [|done]. destruct (negb (lj =? 0)%N); [|done].
    destruct (meta_ s !! N.to_nat j) as [mj|]; [|done]. cbn.
    rewrite (row_app _ _ _ _ (slot_count s)), decide_False by (lia || done || apply Hwf). done.
Qed.
End VectorStore.
