(* ===== verification/StoreSpec.v ===== *)
(** * The store refines a key-value map

    The abstract database maps an external id to its vector and metadata.
    [spec_apply] says what an operation does to it; [apply_refines] that
    [VectorStore::apply] does exactly that, errors included, and keeps the
    store's invariant. [store_refines_log] lifts it to logs from a fresh store;
    the read operations are characterised by the same abstraction. *)
From S2P Require Import Prelude Binary Distance Metadata VectorStore.
Local Open Scope nat_scope.
Import VectorStore.

Abbreviation db := (gmap string (list word32 * Metadata)).

Definition dim_error : exn := invalid_argument "VectorStore: vector dimensionality mismatch".

(** What an operation means. *)
Definition spec_apply (dim : Dim) (op : Op) (d : db) : result bool * db :=
  let fits := bool_decide (length (op_vec op) = N.to_nat dim) in
  match op_type op with
  | Insert =>
      if fits then (Ok true, <[op_ext_id op := (op_vec op, default ∅ (op_meta op))]> d)
      else (Throw dim_error, d)
  | Update =>
      match d !! op_ext_id op with
      | None => (Ok false, d)
      | Some (_, m) =>
          if fits then (Ok true, <[op_ext_id op := (op_vec op, default m (op_meta op))]> d)
          else (Throw dim_error, d)
      end
  | Delete =>
      match d !! op_ext_id op with
      | None => (Ok false, d)
      | Some _ => (Ok true, delete (op_ext_id op) d)
      end
  end.

(** Vectors and stores within the range of [std::uint32_t]. *)
Definition vec_sized (v : list word32) : Prop := (N.of_nat (length v) < 2 ^ 32)%N.
Definition has_room (s : t) : Prop := (N.of_nat (slot_count s) < 2 ^ 32)%N.

(** What every operation preserves: the dimension and the assigned ids. *)
Record grows (s s' : t) : Prop := {
  grows_dim : dim_ s' = dim_ s;
  grows_slots : slot_count s ≤ slot_count s';
  grows_one : slot_count s' ≤ slot_count s + 1;
  grows_ids e i : ext_to_int_ s !! e = Some i → ext_to_int_ s' !! e = Some i;
}.

Lemma grows_refl s : grows s s.
Proof. split; auto with lia. Qed.

Lemma validate_dim_spec v s :
  wf s → vec_sized v →
  validate_dim v s =
  (if decide (length v = N.to_nat (dim_ s)) then Ok tt else Throw dim_error, s).
Proof.
  intros Hwf Hv. unfold validate_dim. unfold_monad. rewrite to_u32_small by done.
  destruct (N.eqb_spec (N.of_nat (length v)) (dim_ s)); case_decide; try done; lia.
Qed.

Lemma copy_at_slot s e i v :
  wf s → ext_to_int_ s !! e = Some i → length v = N.to_nat (dim_ s) →
  copy_at (arena_ s) (offset s i) v = Ok (list_inserts (offset s i) v (arena_ s)).
Proof.
  intros Hwf He Hv. pose proof (wf_slot s e i Hwf He). unfold copy_at, offset.
  rewrite decide_True; [done|]. rewrite (wf_arena s Hwf). nia.
Qed.

Lemma live_slot s e i :
  wf s → ext_to_int_ s !! e = Some i →
  ∃ l m, live_ s !! N.to_nat i = Some l ∧ at_ (live_ s) (N.to_nat i) = Ok l ∧
         meta_ s !! N.to_nat i = Some m ∧
         is_live s i = negb (l =? 0)%N ∧
         abs s !! e = if (l =? 0)%N then None
                      else Some (row (N.to_nat (dim_ s)) (arena_ s) (N.to_nat i), m).
Proof.
  intros Hwf He. pose proof (wf_slot s e i Hwf He) as Hi.
  destruct (lookup_lt_is_Some_2 (live_ s) (N.to_nat i)) as [l Hl]; [by rewrite (wf_live s)|].
  destruct (lookup_lt_is_Some_2 (meta_ s) (N.to_nat i)) as [m Hm]; [by rewrite (wf_meta s)|].
  exists l, m. rewrite abs_lookup, He. cbn. unfold entry, is_live, at_. rewrite Hl, Hm. cbn.
  by destruct (l =? 0)%N.
Qed.

Lemma find_live_spec s e :
  wf s → ∃ o, find_live s e = Ok o ∧ resolve s e = Ok o ∧
    (∀ i, o = Some i ↔ ext_to_int_ s !! e = Some i ∧ is_live s i) ∧
    (o = None ↔ abs s !! e = None).
Proof.
  intros Hwf. unfold find_live, resolve.
  destruct (ext_to_int_ s !! e) as [i|] eqn:He.
  - destruct (live_slot s e i Hwf He) as (l & m & _ & -> & _ & Hl & ->). cbn.
    eexists. split_and!; [done..| |by destruct (l =? 0)%N].
    intros j. split.
    + destruct (l =? 0)%N; [done|]. intros [= <-]. by rewrite Hl.
    + intros [[= <-] Hj]. rewrite Hl in Hj. by destruct (l =? 0)%N.
  - exists None. split_and!; [done..| |by rewrite abs_lookup, He].
    intros i. split; [done|]. by intros [? _].
Qed.

(** ** The three mutations *)

(** After an insertion of [e] in slot [i]. *)
Record inserted (s s' : t) (e : string) (i : InternalId) (v : list word32) (m : Metadata) : Prop := {
  ins_wf : wf s';
  ins_abs : abs s' = <[e := (v, m)]> (abs s);
  ins_grows : grows s s';
  ins_id : ext_to_int_ s' !! e = Some i;
  ins_live j : is_live s' j = bool_decide (j = i) || is_live s j;
  ins_new : ext_to_int_ s !! e = None →
    i = N.of_nat (slot_count s) ∧ slot_count s' = slot_count s + 1;
  ins_old i' : ext_to_int_ s !! e = Some i' → i = i' ∧ slot_count s' = slot_count s;
  ins_ids x : is_Some (ext_to_int_ s' !! x) → x = e ∨ is_Some (ext_to_int_ s !! x);
  ins_get j : N.to_nat j < slot_count s' → get s' j = if decide (j = i) then Ok v else get s j;
}.

(** After an update of the live entry [e] in slot [i]. *)
Record updated (s s' : t) (e : string) (i : InternalId) (v : list word32) (m : option Metadata) : Prop := {
  upd_wf : wf s';
  upd_abs : ∃ v0 m0, abs s !! e = Some (v0, m0) ∧ abs s' = <[e := (v, default m0 m)]> (abs s);
  upd_grows : grows s s';
  upd_slots : slot_count s' = slot_count s;
  upd_live j : is_live s' j = is_live s j;
  upd_id : ext_to_int_ s !! e = Some i;
  upd_ids : ext_to_int_ s' = ext_to_int_ s;
  upd_get j : N.to_nat j < slot_count s → get s' j = if decide (j = i) then Ok v else get s j;
}.

(** After the removal of the live entry [e] in slot [i]. *)
Record erased (s s' : t) (e : string) (i : InternalId) : Prop := {
  era_wf : wf s';
  era_abs : abs s' = delete e (abs s);
  era_grows : grows s s';
  era_slots : slot_count s' = slot_count s;
  era_live j : is_live s' j = is_live s j && negb (bool_decide (j = i));
  era_id : ext_to_int_ s !! e = Some i;
  era_ids : ext_to_int_ s' = ext_to_int_ s;
  era_get j : get s' j = get s j;
}.

Lemma get_row s j :
  wf s → N.to_nat j < slot_count s → get s j = Ok (row (N.to_nat (dim_ s)) (arena_ s) (N.to_nat j)).
Proof.
  intros Hwf Hj. unfold get, offset. rewrite decide_True; [done|]. rewrite (wf_arena s Hwf). nia.
Qed.

Lemma set_slot_grows s arena live metas c : grows s (set_slot arena live metas c s).
Proof. split; unfold slot_count; cbn; auto with lia. Qed.

Lemma is_live_set_slot s e i arena metas l c j :
  wf s → ext_to_int_ s !! e = Some i →
  is_live (set_slot arena (<[N.to_nat i := l]> (live_ s)) metas c s) j =
  if decide (j = i) then negb (l =? 0)%N else is_live s j.
Proof.
  intros Hwf He. pose proof (wf_slot s e i Hwf He) as Hi. unfold is_live; cbn. case_decide as E.
  - subst. by rewrite list_lookup_insert_eq by (by rewrite wf_live).
  - by rewrite list_lookup_insert_ne by lia.
Qed.

(** The rows after a write to slot [i]. *)
Lemma get_set_slot s e i v live metas c j :
  wf s → ext_to_int_ s !! e = Some i → length v = N.to_nat (dim_ s) → N.to_nat j < slot_count s →
  get (set_slot (list_inserts (offset s i) v (arena_ s)) live metas c s) j =
  if decide (j = i) then Ok v else get s j.
Proof.
  intros Hwf He Hv Hj. pose proof (wf_slot s e i Hwf He) as Hi.
  rewrite (get_row s j) by done. unfold get, offset; cbn.
  pose proof (wf_arena s Hwf) as Ha.
  rewrite length_inserts, decide_True by (rewrite Ha; nia). f_equal.
  fold (row (N.to_nat (dim_ s)) (list_inserts (N.to_nat i * N.to_nat (dim_ s)) v (arena_ s)) (N.to_nat j)).
  rewrite (row_inserts _ _ _ _ _ _ Ha) by done. repeat case_decide; try done; lia.
Qed.

(** The rows after an append. *)
Lemma get_append s s' v j :
  wf s → length v = N.to_nat (dim_ s) → dim_ s' = dim_ s → arena_ s' = arena_ s ++ v →
  N.to_nat j < slot_count s + 1 →
  get s' j = if decide (j = N.of_nat (slot_count s)) then Ok v else get s j.
Proof.
  intros Hwf Hv Hd Ha' Hj. pose proof (wf_arena s Hwf) as Ha.
  unfold get at 1, offset. rewrite Ha', Hd, length_app, decide_True by nia.
  fold (row (N.to_nat (dim_ s)) (arena_ s ++ v) (N.to_nat j)).
  rewrite (row_app _ _ _ _ _ Ha Hv). repeat case_decide; try done; [lia..|].
  rewrite get_row by (done || lia). done.
Qed.

(** Writing slot [i] of [e] as live is an insertion of [e]. *)
Lemma overwrite_inserted s e i v m l :
  wf s → ext_to_int_ s !! e = Some i → length v = N.to_nat (dim_ s) → l ≠ 0%N →
  let live := <[N.to_nat i := l]> (live_ s) in
  inserted s (set_slot (list_inserts (offset s i) v (arena_ s)) live
                (<[N.to_nat i := m]> (meta_ s)) (count_live live) s) e i v m.
Proof.
  intros Hwf He Hd Hl live.
  destruct (set_slot_spec s e i v m l Hwf He Hd) as [Hwf' Habs].
  rewrite decide_False in Habs by done.
  split; [done|done|apply set_slot_grows|done| |congruence| |by right|].
  - intros j. unfold live. rewrite (is_live_set_slot s e i) by done.
    case_decide; case_bool_decide; try done. by destruct (N.eqb_spec l 0).
  - intros i' He'. split; [congruence|done].
  - intros j Hj. by apply (get_set_slot s e).
Qed.

Lemma do_insert_old s e i v m :
  wf s → vec_sized v → ext_to_int_ s !! e = Some i → length v = N.to_nat (dim_ s) →
  ∃ s', do_insert e v m s = (Ok i, s') ∧ inserted s s' e i v m.
Proof.
  intros Hwf Hv He Hd. pose proof (wf_slot s e i Hwf He) as Hi.
  destruct (live_slot s e i Hwf He) as (l & m0 & Hl & Hat & Hm & _ & _).
  unfold do_insert, mbind, M_bind, mret, M_ret.
  rewrite validate_dim_spec, decide_True by done. unfold read_state. rewrite He.
  unfold lift. rewrite (copy_at_slot s e i), set_at_lt, Hat by (done || by rewrite wf_meta).
  destruct (N.eqb_spec l 0) as [-> |Hl0].
  - rewrite set_at_lt by by rewrite wf_live. eexists. split; [done|].
    pose proof (count_live_insert _ _ 1%N _ Hl) as Hc.
    rewrite decide_True, decide_False in Hc by done.
    rewrite (wf_count s Hwf). replace (_ + 1) with (count_live (<[N.to_nat i:=1%N]> (live_ s))) by lia.
    by apply overwrite_inserted.
  - eexists. split; [done|].
    pose proof (overwrite_inserted s e i v m l Hwf He Hd Hl0) as H. cbv zeta in H.
    by rewrite list_insert_id, <- (wf_count s Hwf) in H by done.
Qed.

Lemma do_insert_new s e v m :
  wf s → vec_sized v → has_room s → ext_to_int_ s !! e = None → length v = N.to_nat (dim_ s) →
  ∃ s', do_insert e v m s = (Ok (N.of_nat (slot_count s)), s') ∧
        inserted s s' e (N.of_nat (slot_count s)) v m.
Proof.
  intros Hwf Hv Hroom He Hd. unfold do_insert, mbind, M_bind, mret, M_ret.
  rewrite validate_dim_spec, decide_True by done. unfold read_state. rewrite He.
  rewrite to_u32_small by done. fold (slot_count s).
  destruct (append_slot_spec s e v m Hwf He Hd Hroom) as [Hwf' Habs].
  eexists. split; [done|]. split; try done; cbn.
  - split; unfold slot_count; cbn; rewrite ?length_app; cbn; try lia.
    intros e' i Hi. rewrite lookup_insert_ne; [done|]. by intros ->; rewrite He in Hi.
  - by rewrite lookup_insert_eq.
  - intros j. unfold is_live; cbn. destruct (decide (N.to_nat j < slot_count s)).
    + rewrite lookup_app_l by (by rewrite wf_live). rewrite bool_decide_false; [done|]. unfold slot_count in *. lia.
    + rewrite (lookup_ge_None_2 (live_ s)) by (rewrite wf_live by done; lia).
      rewrite lookup_app_r by (rewrite wf_live by done; lia). rewrite (wf_live s Hwf).
      case_bool_decide as E; [by rewrite E, Nat2N.id, Nat.sub_diag|].
      rewrite lookup_ge_None_2; [done|]. unfold slot_count in *. cbn. lia.
  - intros _. split; [done|]. unfold slot_count; cbn. by rewrite length_app.
  - congruence.
  - intros x. rewrite lookup_insert. case_decide; [by left|by right].
  - intros j Hj. apply get_append; try done. unfold slot_count in *; cbn in *.
    rewrite length_app in Hj. cbn in Hj. lia.
Qed.

Lemma do_insert_spec s e v m :
  wf s → vec_sized v → has_room s →
  if decide (length v = N.to_nat (dim_ s)) then
    ∃ i s', do_insert e v m s = (Ok i, s') ∧ inserted s s' e i v m
  else do_insert e v m s = (Throw dim_error, s).
Proof.
  intros Hwf Hv Hroom. case_decide as Hd.
  - destruct (ext_to_int_ s !! e) as [i|] eqn:He.
    + destruct (do_insert_old s e i v m) as (s' & ? & ?); eauto.
    + destruct (do_insert_new s e v m) as (s' & ? & ?); eauto.
  - unfold do_insert, mbind, M_bind. by rewrite validate_dim_spec, decide_False.
Qed.

Lemma do_update_spec s e v m :
  wf s → vec_sized v →
  match abs s !! e with
  | None => do_update e v m s = (Ok None, s)
  | Some _ =>
      if decide (length v = N.to_nat (dim_ s)) then
        ∃ i s', do_update e v m s = (Ok (Some i), s') ∧ resolve s e = Ok (Some i) ∧
                updated s s' e i v m
      else do_update e v m s = (Throw dim_error, s)
  end.
Proof.
  intros Hwf Hv. destruct (find_live_spec s e Hwf) as (o & Hf & Hr & Ho & Hn).
  unfold do_update, mbind, M_bind, mret, M_ret, read_state, lift. rewrite Hf.
  destruct o as [i|]; [|by rewrite (proj1 Hn eq_refl)].
  destruct (proj1 (Ho i) eq_refl) as [He Hlive].
  destruct (live_slot s e i Hwf He) as (l & m0 & Hl & _ & Hm & Hli & Habs).
  rewrite Hli in Hlive. destruct (N.eqb_spec l 0) as [|Hl0]; [done|]. rewrite Habs.
  rewrite validate_dim_spec by done. case_decide as Hd; [|done].
  rewrite (copy_at_slot s e i) by done.
  assert (match m with Some m => set_at (meta_ s) (N.to_nat i) m | None => Ok (meta_ s) end =
    Ok (<[N.to_nat i := default m0 m]> (meta_ s))) as ->.
  { destruct m; cbn; [|by rewrite list_insert_id].
    apply set_at_lt. rewrite wf_meta by done. by eapply wf_slot. }
  eexists i, _. split_and!; [done..|].
  destruct (overwrite_inserted s e i v (default m0 m) l Hwf He Hd Hl0) as [H1 H2 H3 _ H5 _ H7 _ H8].
  rewrite list_insert_id, <- (wf_count s Hwf) in * by done.
  split; [done|eauto|done|by apply (H7 i)| |done|done|].
  - intros j. rewrite H5. case_bool_decide; [|done]. subst j. rewrite Hli. by destruct (N.eqb_spec l 0).
  - intros j Hj. by apply H8.
Qed.

Lemma do_erase_spec s e :
  wf s →
  match abs s !! e with
  | None => do_erase e s = (Ok None, s)
  | Some _ => ∃ i s', do_erase e s = (Ok (Some i), s') ∧ resolve s e = Ok (Some i) ∧ erased s s' e i
  end.
Proof.
  intros Hwf. destruct (find_live_spec s e Hwf) as (o & Hf & Hr & Ho & Hn).
  unfold do_erase, mbind, M_bind, mret, M_ret, read_state, lift. rewrite Hf.
  destruct o as [i|]; [|by rewrite (proj1 Hn eq_refl)].
  destruct (proj1 (Ho i) eq_refl) as [He Hlive].
  destruct (live_slot s e i Hwf He) as (l & m & Hl & _ & Hm & Hli & Habs).
  rewrite Hli in Hlive. destruct (N.eqb_spec l 0) as [|Hl0]; [done|]. rewrite Habs.
  pose proof (wf_slot s e i Hwf He) as Hi.
  rewrite set_at_lt by by rewrite wf_live. eexists i, _. split_and!; [done..|].
  assert (length (row (N.to_nat (dim_ s)) (arena_ s) (N.to_nat i)) = N.to_nat (dim_ s)) as Hrow.
  { apply length_row. rewrite (wf_arena s Hwf). nia. }
  pose proof (set_slot_spec s e i _ m 0 Hwf He Hrow) as H. cbv zeta in H. unfold offset in H.
  rewrite (inserts_row _ _ _ _ (wf_arena s Hwf) Hi) in H.
  rewrite (list_insert_id (meta_ s)), decide_True in H by done. destruct H as [H1 H2].
  pose proof (count_live_insert _ _ 0%N _ Hl) as Hc. rewrite decide_False, decide_True in Hc by done.
  rewrite (wf_count s Hwf). replace (_ - 1) with (count_live (<[N.to_nat i:=0%N]> (live_ s))) by lia.
  split; [done|done|apply set_slot_grows|done| |done|done|done].
  intros j. rewrite (is_live_set_slot s e i) by done.
  case_decide; case_bool_decide; try done; by rewrite ?andb_false_r, ?andb_true_r.
Qed.

(** ** Refinement *)

(** [apply] implements [spec_apply]: the same answer (whether an entry was
    affected, or the same exception) and the same database afterwards. *)
Lemma apply_refines (s : t) (op : Op) :
  wf s → vec_sized (op_vec op) → has_room s →
  let '(r, s') := apply op s in
  wf s' ∧ grows s s' ∧
  spec_apply (dim_ s) op (abs s) = ((λ o, bool_decide (is_Some o)) <$> r, abs s').
Proof.
  intros Hwf Hv Hroom. destruct op as [ty e v m]. unfold apply, spec_apply; cbn in *.
  destruct ty.
  - unfold mbind, M_bind. pose proof (do_insert_spec s e v (default ∅ m) Hwf Hv Hroom) as H.
    case_decide as Hd.
    + destruct H as (i & s' & -> & H). cbn. rewrite bool_decide_true by done.
      split_and!; [apply H..|]. by rewrite (ins_abs _ _ _ _ _ _ H).
    + rewrite H. rewrite bool_decide_false by done. split_and!; [done|apply grows_refl|done].
  - pose proof (do_update_spec s e v m Hwf Hv) as H.
    destruct (abs s !! e) as [[v0 m0]|] eqn:Hx.
    + case_decide as Hd.
      * destruct H as (i & s' & -> & _ & H). cbn. rewrite bool_decide_true by done.
        destruct (upd_abs _ _ _ _ _ _ H) as (v1 & m1 & Hx' & ->).
        simplify_eq. split_and!; [apply H..|done].
      * rewrite H, bool_decide_false by done. split_and!; [done|apply grows_refl|done].
    + rewrite H. split_and!; [done|apply grows_refl|done].
  - pose proof (do_erase_spec s e Hwf) as H. destruct (abs s !! e) as [x|] eqn:Hx.
    + destruct H as (i & s' & -> & _ & H). cbn. split_and!; [apply H..|].
      by rewrite (era_abs _ _ _ _ H).
    + rewrite H. split_and!; [done|apply grows_refl|done].
Qed.

(** The empty store refines the empty database. *)
Lemma make_spec dim s :
  (dim < 2 ^ 32)%N → make dim = Ok s → wf s ∧ abs s = ∅ ∧ dim_ s = dim ∧ slot_count s = 0.
Proof.
  unfold make. destruct (N.eqb_spec dim 0) as [|Hd]; [done|]. intros Hd' [= <-].
  split_and!; try done.
  split; try done; cbn; lia.
Qed.

(** ** Reads *)

(** What the read interface returns for a slot that holds [e]. *)
Lemma read_slot (s : t) (e : string) (i : InternalId) :
  wf s → ext_to_int_ s !! e = Some i →
  ∃ v m, get s i = Ok v ∧ length v = N.to_nat (dim_ s) ∧
    metadata s i = Some m ∧ external_id s i = Ok e ∧
    resolve s e = Ok (if is_live s i then Some i else None) ∧
    abs s !! e = if is_live s i then Some (v, m) else None.
Proof.
  intros Hwf He. pose proof (wf_slot s e i Hwf He) as Hi.
  destruct (live_slot s e i Hwf He) as (l & m & Hl & Hat & Hm & Hli & Habs).
  exists (row (N.to_nat (dim_ s)) (arena_ s) (N.to_nat i)), m.
  pose proof (wf_arena s Hwf) as Ha. split_and!.
  - unfold get, offset. rewrite decide_True; [done|]. rewrite Ha. nia.
  - apply length_row. rewrite Ha. nia.
  - unfold metadata. destruct (N.leb_spec (N.of_nat (length (meta_ s))) i) as [H|H]; [|done].
    rewrite (wf_meta s Hwf) in H. lia.
  - unfold external_id. apply at_Ok. by apply (wf_ids s Hwf).
  - unfold resolve. rewrite He, Hat, Hli. cbn. by destruct (l =? 0)%N.
  - rewrite Habs, Hli. by destruct (l =? 0)%N.
Qed.

(** [resolve] finds exactly the live entries. *)
Lemma resolve_abs s e : wf s → ∃ o, resolve s e = Ok o ∧ (o = None ↔ abs s !! e = None).
Proof. intros Hwf. destruct (find_live_spec s e Hwf) as (o & _ & ? & _ & ?). eauto. Qed.

Lemma slot_ext s i :
  wf s → N.to_nat i < slot_count s → ∃ e, ext_ids_ s !! N.to_nat i = Some e ∧ ext_to_int_ s !! e = Some i.
Proof.
  intros Hwf [e He]%lookup_lt_is_Some. exists e. split; [done|]. by apply (wf_ids s Hwf).
Qed.

Lemma get_Ok s i :
  wf s → N.to_nat i < slot_count s → ∃ v, get s i = Ok v ∧ length v = N.to_nat (dim_ s).
Proof.
  intros Hwf Hi. destruct (slot_ext s i Hwf Hi) as (e & _ & He).
  destruct (read_slot s e i Hwf He) as (v & m & ? & ? & _). eauto.
Qed.

Lemma is_live_slot s i : wf s → is_live s i → N.to_nat i < slot_count s.
Proof.
  intros Hwf (l & Hl & _)%is_live_lookup. rewrite <- (wf_live s Hwf). by eapply lookup_lt_Some.
Qed.

(** ** The live entries in slot order *)

Definition live_entry (s : t) (i : nat) : option (string * (list word32 * Metadata)) :=
  e ← ext_ids_ s !! i; x ← entry s (N.of_nat i); Some (e, x).

Definition live_entries (s : t) : list (string * (list word32 * Metadata)) :=
  omap (live_entry s) (seq 0 (slot_count s)).

Lemma live_entries_abs s e x : wf s → (e, x) ∈ live_entries s ↔ abs s !! e = Some x.
Proof.
  intros Hwf. unfold live_entries. rewrite list_elem_of_omap, abs_lookup. split.
  - intros (i & Hi%elem_of_seq & Hx). unfold live_entry in Hx.
    destruct (ext_ids_ s !! i) as [e'|] eqn:He; [|done]. cbn in Hx.
    destruct (entry s (N.of_nat i)) as [x'|] eqn:Hx'; [|done]. cbn in Hx. simplify_eq.
    assert (ext_to_int_ s !! e = Some (N.of_nat i)) as -> by (apply (wf_ids s Hwf); by rewrite Nat2N.id).
    done.
  - intros (i & Hi & Hx)%bind_Some. exists (N.to_nat i). split.
    + apply elem_of_seq. pose proof (wf_slot s e i Hwf Hi). lia.
    + unfold live_entry. apply (wf_ids s Hwf) in Hi. rewrite Hi, N2Nat.id. cbn. by rewrite Hx.
Qed.

Lemma live_entries_NoDup s : wf s → NoDup (live_entries s).*1.
Proof.
  intros Hwf. unfold live_entries.
  assert (∀ l, NoDup l → NoDup (omap (live_entry s) l).*1) as H; [|apply H, NoDup_seq].
  induction l as [|i l IH]; intros Hl; [constructor|]. apply NoDup_cons in Hl as [Hi Hl].
  cbn. destruct (live_entry s i) as [[e x]|] eqn:Hx; cbn; [|by apply IH].
  apply NoDup_cons. split; [|by apply IH]. intros ([e' x'] & -> & Hin)%list_elem_of_fmap.
  apply list_elem_of_omap in Hin as (j & Hj & Hx'). unfold live_entry in *.
  destruct (ext_ids_ s !! i) as [ei|] eqn:Hei; [|done].
  destruct (ext_ids_ s !! j) as [ej|] eqn:Hej; [|done]. cbn in *.
  destruct (entry s (N.of_nat i)); [|done]. destruct (entry s (N.of_nat j)); [|done]. simplify_eq/=.
  rewrite <- (Nat2N.id i) in Hei. rewrite <- (Nat2N.id j) in Hej.
  apply (wf_ids s Hwf) in Hei, Hej. rewrite Hei in Hej. simplify_eq. naive_solver.
Qed.

Lemma live_entries_map s : wf s → list_to_map (live_entries s) = abs s.
Proof.
  intros Hwf. apply map_eq. intros e. apply option_eq. intros x.
  rewrite <- elem_of_list_to_map by by apply live_entries_NoDup. by apply live_entries_abs.
Qed.

Lemma length_live_entries s : wf s → length (live_entries s) = count_live (live_ s).
Proof.
  intros Hwf. unfold live_entries, count_live.
  rewrite <- (wf_live s Hwf).
  assert (∀ live pre, live_ s = pre ++ live →
    length (omap (live_entry s) (seq (length pre) (length live))) =
    length (filter (λ l, l ≠ 0%N) live)) as H; [|by apply (H (live_ s) [])].
  induction live as [|l live IH]; intros pre Hpre; [done|]. cbn [length seq omap list_omap].
  rewrite filter_cons. specialize (IH (pre ++ [l])). rewrite <- app_assoc, length_app in IH.
  cbn [length] in IH. rewrite Nat.add_1_r in IH. specialize (IH Hpre).
  assert (live_ s !! length pre = Some l) as Hl by (by rewrite Hpre, list_lookup_middle).
  assert (length pre < slot_count s) as Hlt by (rewrite <- (wf_live s Hwf); by eapply lookup_lt_Some).
  destruct (lookup_lt_is_Some_2 (ext_ids_ s) _ Hlt) as [e He].
  destruct (lookup_lt_is_Some_2 (meta_ s) (length pre)) as [m Hm]; [by rewrite (wf_meta s)|].
  unfold live_entry at 1. rewrite He. cbn. unfold entry, is_live. rewrite Nat2N.id, Hl, Hm. cbn.
  destruct (N.eqb_spec l 0); case_decide; try done; cbn; by rewrite IH.
Qed.

(** [size()] is the number of entries a client can observe. *)
Lemma size_abs (s : t) : wf s → size s = base.size (abs s).
Proof.
  intros Hwf. unfold size. rewrite (wf_count s Hwf), <- length_live_entries, <- live_entries_map by done.
  by rewrite map_size_list_to_map by by apply live_entries_NoDup.
Qed.

(** The read interface shows the abstract database. An entry is resolved to
    a live slot whose vector, metadata and external id are the entry's; an
    absent or erased id is not resolved; [size] counts the entries; no read of
    a slot that [resolve] gives is out of range. *)
Lemma store_reads_abs (s : t) (e : string) :
  wf s →
  size s = base.size (abs s) ∧
  match abs s !! e with
  | Some (v, m) =>
      ∃ i, resolve s e = Ok (Some i) ∧ is_live s i ∧ get s i = Ok v ∧
           metadata s i = Some m ∧ external_id s i = Ok e
  | None => resolve s e = Ok None
  end.
Proof.
  intros Hwf. split; [by apply size_abs|].
  destruct (ext_to_int_ s !! e) as [i|] eqn:He.
  - destruct (read_slot s e i Hwf He) as (v & m & ? & ? & ? & ? & Hr & ->). rewrite Hr.
    destruct (is_live s i) eqn:Hl; [|done]. exists i. by rewrite Hl.
  - rewrite abs_lookup, He. unfold resolve. by rewrite He.
Qed.

(** ** Capacity *)

(** Every external id that the store has seen is in [U]. *)
Definition ids_in (U : gset string) (s : t) : Prop :=
  ∀ x, is_Some (ext_to_int_ s !! x) → x ∈ U.

Lemma ids_in_slots U s : wf s → ids_in U s → slot_count s ≤ base.size U.
Proof.
  intros Hwf HU.
  assert (NoDup (ext_ids_ s)) as Hnd.
  { apply NoDup_alt. intros i j x Hi Hj. rewrite <- (Nat2N.id i) in Hi. rewrite <- (Nat2N.id j) in Hj.
    apply (wf_ids s Hwf) in Hi, Hj. rewrite Hi in Hj. simplify_eq. lia. }
  unfold slot_count. rewrite <- (size_list_to_set (C:=gset string) _ Hnd).
  apply subseteq_size. intros x Hx%elem_of_list_to_set. apply HU.
  apply list_elem_of_lookup in Hx as [i Hi]. exists (N.of_nat i). apply (wf_ids s Hwf). by rewrite Nat2N.id.
Qed.

Lemma ids_in_room U s : (N.of_nat (base.size U) < 2 ^ 32)%N → wf s → ids_in U s → has_room s.
Proof. intros HU Hwf Hs%ids_in_slots; [|done]. unfold has_room. lia. Qed.

Lemma ids_in_inserted U s s' e i v m : inserted s s' e i v m → e ∈ U → ids_in U s → ids_in U s'.
Proof. intros Hi He Hs x Hx. destruct (ins_ids _ _ _ _ _ _ Hi x Hx) as [-> |]; auto. Qed.

Lemma ids_in_updated U s s' e i v m : updated s s' e i v m → ids_in U s → ids_in U s'.
Proof. intros Hu Hs x. rewrite (upd_ids _ _ _ _ _ _ Hu). apply Hs. Qed.

Lemma ids_in_erased U s s' e i : erased s s' e i → ids_in U s → ids_in U s'.
Proof. intros He Hs x. rewrite (era_ids _ _ _ _ He). apply Hs. Qed.

(** ** Logs of operations *)

(** A client's log: the answers (an exception does not stop the client) and the
    final state. *)
Fixpoint run_log {S O A} (f : O → S → result A * S) (ops : list O) (s : S) : list (result A) * S :=
  match ops with
  | [] => ([], s)
  | op :: ops =>
      let '(r, s1) := f op s in
      let '(rs, s2) := run_log f ops s1 in (r :: rs, s2)
  end.

(** Whether [apply] affected an entry. *)
Definition apply_bool (op : Op) (s : t) : result bool * t :=
  let '(r, s') := apply op s in ((λ o, bool_decide (is_Some o)) <$> r, s').

Definition sized_ops (ops : list Op) : Prop := Forall (λ op, vec_sized (op_vec op)) ops.

Lemma run_log_refines s ops :
  wf s → sized_ops ops → (N.of_nat (slot_count s + length ops) < 2 ^ 32)%N →
  let '(rs, s') := run_log apply_bool ops s in
  wf s' ∧ slot_count s' ≤ slot_count s + length ops ∧ dim_ s' = dim_ s ∧
  run_log (spec_apply (dim_ s)) ops (abs s) = (rs, abs s').
Proof.
  intros Hwf Hops. revert s Hwf. induction Hops as [|op ops Hop Hops IH]; intros s Hwf Hroom.
  { cbn. split_and!; try done; lia. }
  cbn [length] in Hroom. pose proof (apply_refines s op Hwf Hop) as H.
  specialize (H ltac:(unfold has_room; lia)). cbn [run_log length]. unfold apply_bool at 1.
  destruct (apply op s) as [r s1] eqn:E. destruct H as (Hwf1 & Hg & ->).
  specialize (IH s1 Hwf1). pose proof (grows_one _ _ Hg). pose proof (grows_dim _ _ Hg) as Hd.
  specialize (IH ltac:(lia)). rewrite Hd in IH.
  destruct (run_log apply_bool ops s1) as [rs s2]. destruct IH as (? & ? & ? & ->).
  split_and!; try done; lia.
Qed.

(** C9: the store is a key-value map. Any log of operations on a fresh store
    gives the answers and exceptions of the abstract database, one by one
    (whether an entry was affected; a dimension mismatch, which changes
    nothing), and the final store holds exactly the final database, within its
    invariant. Its read interface shows this database: an entry is resolved to a
    live slot whose vector, metadata and external id are the entry's; an absent
    or erased id is not resolved; [size] counts the entries; no read of a slot
    that [resolve] gives is out of range. *)
Theorem store_refines_log (dim : Dim) (s : t) (ops : list Op) :
  (dim < 2 ^ 32)%N → make dim = Ok s → sized_ops ops → (N.of_nat (length ops) < 2 ^ 32)%N →
  let '(rs, s') := run_log apply_bool ops s in
  let '(rs', d) := run_log (spec_apply dim) ops ∅ in
  wf s' ∧ rs = rs' ∧ abs s' = d ∧ size s' = base.size d ∧
  ∀ x, match d !! x with
       | Some (v, m) =>
           ∃ i, resolve s' x = Ok (Some i) ∧ is_live s' i ∧ get s' i = Ok v ∧
                metadata s' i = Some m ∧ external_id s' i = Ok x
       | None => resolve s' x = Ok None
       end.
Proof.
  intros Hdim Hs Hops Hlen. destruct (make_spec dim s Hdim Hs) as (Hwf & Habs & Hd & Hsc).
  pose proof (run_log_refines s ops Hwf Hops) as H. rewrite Hsc in H. specialize (H Hlen).
  destruct (run_log apply_bool ops s) as [rs s']. rewrite Hd, Habs in H.
  destruct H as (Hwf' & _ & _ & ->). split_and!; [done..|by apply size_abs|].
  intros x. by apply store_reads_abs.
Qed.

(** ** Examples *)

Definition demo_ops : list Op :=
  [{| op_type := Insert; op_ext_id := "a"; op_vec := point 0 3; op_meta := None |};
   {| op_type := Insert; op_ext_id := "b"; op_vec := point 4 0; op_meta := Some (<["k" := MBool true]> ∅) |};
   {| op_type := Insert; op_ext_id := "short"; op_vec := [float_of f_one]; op_meta := None |};
   {| op_type := Delete; op_ext_id := "a"; op_vec := []; op_meta := None |};
   {| op_type := Update; op_ext_id := "a"; op_vec := point 1 1; op_meta := None |};
   {| op_type := Update; op_ext_id := "b"; op_vec := point 1 1; op_meta := None |};
   {| op_type := Insert; op_ext_id := "a"; op_vec := point 2 2; op_meta := None |}].

(** The store that [make] gives for vectors of length 2. *)
Definition store2 : t :=
  {| dim_ := 2; arena_ := []; live_ := []; ext_ids_ := []; meta_ := []; ext_to_int_ := ∅; live_count_ := 0 |}.

Example demo_answers :
  (run_log apply_bool demo_ops store2).1 =
  [Ok true; Ok true; Throw dim_error; Ok true; Ok false; Ok true; Ok true].
Proof. vm_compute. reflexivity. Qed.

Lemma demo_ops_sized : sized_ops demo_ops.
Proof. unfold sized_ops, vec_sized. vm_decide. Defined.

Lemma store_refines_log_witness :
  let '(rs, s') := run_log apply_bool demo_ops store2 in
  let '(rs', d) := run_log (spec_apply 2) demo_ops ∅ in
  wf s' ∧ rs = rs' ∧ abs s' = d ∧ size s' = base.size d ∧
  ∀ x, match d !! x with
       | Some (v, m) =>
           ∃ i, resolve s' x = Ok (Some i) ∧ is_live s' i ∧ get s' i = Ok v ∧
                metadata s' i = Some m ∧ external_id s' i = Ok x
       | None => resolve s' x = Ok None
       end.
Proof.
  apply (store_refines_log 2 store2 demo_ops); [reflexivity|reflexivity|apply demo_ops_sized|reflexivity].
Defined.
