(* ===== verification/Replay.v ===== *)
(** * Replaying an operation log

    On the abstract database a log has, for each external id, an effect that is
    constant, an in-place update or nothing. Effects compose, and applying one
    twice is applying it once: a log may be replayed over the state it led to. *)
From S2P Require Import Prelude Binary Distance Metadata VectorStore StoreSpec.

(** Applying a log, operation after operation. *)
Definition spec_run (dim : Dim) (ops : list Op) (d : db) : db :=
  foldl (λ d op, (spec_apply dim op d).2) d ops.

(** The effect of a log on one key. *)
Inductive effect :=
| Keep
| Always (x : option (list word32 * Metadata))
| Modify (v : list word32) (m : option Metadata).

Definition run_effect (f : effect) (x : option (list word32 * Metadata)) :=
  match f with
  | Keep => x
  | Always y => y
  | Modify v m => (λ '(_, m0), (v, default m0 m)) <$> x
  end.

(** [f] then [g]. *)
Definition seq_effect (f g : effect) : effect :=
  match g with
  | Keep => f
  | Always y => Always y
  | Modify v m =>
      match f with
      | Keep => g
      | Always y => Always (run_effect g y)
      | Modify _ m0 => Modify v (match m with Some _ => m | None => m0 end)
      end
  end.

Definition op_effect (dim : Dim) (op : Op) (e : string) : effect :=
  if decide (op_ext_id op = e) then
    match op_type op with
    | Insert =>
        if decide (length (op_vec op) = N.to_nat dim)
        then Always (Some (op_vec op, default ∅ (op_meta op))) else Keep
    | Update =>
        if decide (length (op_vec op) = N.to_nat dim)
        then Modify (op_vec op) (op_meta op) else Keep
    | Delete => Always None
    end
  else Keep.

Definition log_effect (dim : Dim) (ops : list Op) (e : string) : effect :=
  foldl (λ f op, seq_effect f (op_effect dim op e)) Keep ops.

Lemma run_seq_effect f g x : run_effect (seq_effect f g) x = run_effect g (run_effect f x).
Proof. destruct f as [| |v1 m1], g as [| |v2 [m2|]], x as [[]|]; done. Qed.

Lemma run_effect_idemp f x : run_effect f (run_effect f x) = run_effect f x.
Proof. destruct f as [| |v [m|]], x as [[]|]; done. Qed.

Lemma spec_apply_effect dim op d e :
  (spec_apply dim op d).2 !! e = run_effect (op_effect dim op e) (d !! e).
Proof.
  destruct op as [ty e' v m]. unfold spec_apply, op_effect; cbn.
  destruct ty; [|destruct (d !! e') as [[v0 m0]|] eqn:He..];
    repeat (case_decide || case_bool_decide); subst; cbn; rewrite ?He; try done;
    by rewrite ?lookup_insert_eq, ?lookup_delete_eq, ?lookup_insert_ne, ?lookup_delete_ne.
Qed.

Lemma spec_run_app dim ops1 ops2 d :
  spec_run dim (ops1 ++ ops2) d = spec_run dim ops2 (spec_run dim ops1 d).
Proof. apply foldl_app. Qed.

Lemma spec_run_effect dim ops f d0 d e :
  d !! e = run_effect f d0 →
  spec_run dim ops d !! e =
  run_effect (foldl (λ f op, seq_effect f (op_effect dim op e)) f ops) d0.
Proof.
  revert f d. induction ops as [|op ops IH]; intros f d Hd; [done|]. cbn. apply IH.
  by rewrite spec_apply_effect, Hd, run_seq_effect.
Qed.

(** Replaying a whole log over the state it produced changes nothing. *)
Lemma spec_run_idemp (dim : Dim) (ops : list Op) (d : db) :
  spec_run dim ops (spec_run dim ops d) = spec_run dim ops d.
Proof.
  apply map_eq. intros e.
  rewrite !(spec_run_effect dim ops Keep _ _ e eq_refl). apply run_effect_idemp.
Qed.
