(* ===== verification/StdQueue.v ===== *)
(** * [std::priority_queue] and [std::sort]

    The two parts of the standard library whose result is not determined by
    its specification (elements that compare equal come out in any order).
    The components use them through the classes below, so that their theorems
    hold for every conforming implementation; the instances at the end, kept
    as ordered lists, are used to evaluate the model. *)
From stdpp Require Export sorting.
From S2P Require Import Prelude.

(** The comparison is a strict weak order on the [valid] elements. *)
Class StrictWeakOrder {A} (lt : A → A → bool) (valid : A → Prop) : Prop := {
  swo_irrefl x : ¬ lt x x;
  swo_trans x y z : lt x y → lt y z → lt x z;
  swo_cotrans x y z : valid y → lt x z → lt x y ∨ lt y z;
}.

(** ** Interfaces *)

(** [std::priority_queue<A, std::vector<A>, Compare>]: [top] is an element that
    no other one exceeds. [pq_elems] is the underlying container. *)
Class PQueue {A} (lt : A → A → bool) := {
  pq : Type;
  pq_empty : pq;
  pq_push : A → pq → pq;
  pq_top : pq → result A;
  pq_pop : pq → pq;
  pq_elems : pq → list A;
}.
Arguments pq {A} lt {_}.

Definition pq_size {A} {lt : A → A → bool} `{!PQueue lt} (q : pq lt) : nat := length (pq_elems q).

(** The contract, for a comparison that is a strict weak order. *)
Class PQueueLaws {A} (lt : A → A → bool) (valid : A → Prop) `{!PQueue lt} := {
  pq_ok : pq lt → Prop;
  pq_empty_ok : pq_ok pq_empty;
  pq_empty_elems : pq_elems (pq_empty : pq lt) = [];
  pq_valid q : pq_ok q → Forall valid (pq_elems q);
  pq_push_ok x q : valid x → pq_ok q → pq_ok (pq_push x q);
  pq_push_elems x q : valid x → pq_ok q → pq_elems (pq_push x q) ≡ₚ x :: pq_elems q;
  pq_top_nil q : pq_elems q = [] → pq_top q = Throw undefined_behaviour;
  pq_top_max q : pq_ok q → pq_elems q ≠ [] →
    ∃ x, pq_top q = Ok x ∧ pq_elems q ≡ₚ x :: pq_elems (pq_pop q) ∧
         pq_ok (pq_pop q) ∧ ∀ y, y ∈ pq_elems q → ¬ lt x y;
}.

(** The ascending order that [std::sort] establishes. *)
Definition sorted_by {A} (lt : A → A → bool) (l : list A) : Prop :=
  StronglySorted (λ x y, ¬ lt y x) l.

(** [std::sort(first, last, comp)]. *)
Class StdSort := std_sort : ∀ {A}, (A → A → bool) → list A → list A.

Class StdSortLaws `{!StdSort} : Prop := {
  std_sort_perm {A} (lt : A → A → bool) valid `{!StrictWeakOrder lt valid} l :
    Forall valid l → std_sort lt l ≡ₚ l;
  std_sort_sorted {A} (lt : A → A → bool) valid `{!StrictWeakOrder lt valid} l :
    Forall valid l → sorted_by lt (std_sort lt l);
}.

(** ** Keeping the [k] smallest *)

Section Smallest.
Context {A} (lt : A → A → bool) (valid : A → Prop) `{!StrictWeakOrder lt valid}.

(** [kept] are [k] smallest elements of [all] (all of them if there are fewer). *)
Record smallest (k : nat) (all kept : list A) : Prop := {
  smallest_length : length kept = Nat.min k (length all);
  smallest_rest : ∃ rest, kept ++ rest ≡ₚ all ∧ ∀ x y, x ∈ kept → y ∈ rest → ¬ lt y x;
}.

Lemma swo_asym x y : lt x y → ¬ lt y x.
Proof. intros H1 H2. by apply (swo_irrefl x), (swo_trans x y x). Qed.

Lemma smallest_nil k : smallest k [] [].
Proof. split; [cbn; lia|]. exists []. split; [done|]. by intros x y _ ?%elem_of_nil. Qed.

Lemma smallest_perm k all kept kept' :
  kept ≡ₚ kept' → smallest k all kept → smallest k all kept'.
Proof.
  intros Hp [Hl (rest & Hr & Hlt)]. split; [by rewrite <- Hp|].
  exists rest. split; [by rewrite <- Hp|]. intros x y Hx. apply Hlt. by rewrite Hp.
Qed.

Lemma smallest_perm_all k all all' kept :
  all ≡ₚ all' → smallest k all kept → smallest k all' kept.
Proof.
  intros Hp [Hl (rest & Hr & Hlt)]. split; [by rewrite <- Hp|].
  exists rest. split; [by rewrite <- Hp|done].
Qed.

(** Fewer than [k] kept: the new element is kept. *)
Lemma smallest_push k all kept x :
  smallest k all kept → length kept < k → smallest k (x :: all) (x :: kept).
Proof.
  intros [Hl (rest & Hr & Hlt)] Hk.
  assert (rest = []) as -> by (apply Permutation_length in Hr; rewrite length_app in Hr;
    destruct rest; [done|cbn in *; lia]).
  rewrite app_nil_r in Hr. split; [cbn; lia|].
  exists []. rewrite app_nil_r. split; [by rewrite Hr|]. by intros y z _ ?%elem_of_nil.
Qed.

(** [k] kept and the new element is below their maximum: it replaces it. *)
Lemma smallest_replace k all kept x w kept' :
  smallest k all kept → length kept = k → kept ≡ₚ w :: kept' →
  (∀ y, y ∈ kept → ¬ lt w y) → lt x w → smallest k (x :: all) (x :: kept').
Proof.
  intros [Hl (rest & Hr & Hlt)] Hk Hp Hmax Hxw.
  pose proof (Permutation_length Hp) as Hlen. cbn in Hlen. split; [cbn; lia|].
  exists (w :: rest). split.
  - cbn. constructor. rewrite <- Hr, Hp. symmetry. apply Permutation_middle.
  - intros y z Hy Hz. apply elem_of_cons in Hy as [-> |Hy], Hz as [-> |Hz].
    + by apply swo_asym.
    + intros Hzx. apply (Hlt w z); [rewrite Hp; set_solver|done|]. by apply (swo_trans _ x).
    + apply Hmax. rewrite Hp. set_solver.
    + apply Hlt; [|done]. rewrite Hp. set_solver.
Qed.

(** [k] kept and the new element is not below their maximum: it is left out. *)
Lemma smallest_skip k all kept x w :
  smallest k all kept → length kept = k → valid w →
  (∀ y, y ∈ kept → ¬ lt w y) → ¬ lt x w → smallest k (x :: all) kept.
Proof.
  intros [Hl (rest & Hr & Hlt)] Hk Hw Hmax Hxw. split; [cbn; lia|].
  exists (x :: rest). split; [by rewrite <- Hr, Permutation_middle|].
  intros y z Hy Hz. apply elem_of_cons in Hz as [-> |Hz]; [|by apply Hlt].
  intros Hxy. destruct (swo_cotrans x w y Hw Hxy); [done|]. by apply (Hmax y).
Qed.

(** The first [k] of a sorted list are [k] smallest. *)
Lemma smallest_take k l : sorted_by lt l → smallest k l (take k l).
Proof.
  intros Hs. split; [apply length_take|]. exists (drop k l). split; [by rewrite take_drop|].
  intros x y Hx Hy. rewrite <- (take_drop k l) in Hs.
  apply StronglySorted_app in Hs as (? & ? & ?). eauto.
Qed.
End Smallest.

(** A list whose elements never increase is sorted once reversed. *)
Lemma sorted_by_snoc {A} (lt : A → A → bool) l x :
  sorted_by lt l → (∀ y, y ∈ l → ¬ lt x y) → sorted_by lt (l ++ [x]).
Proof.
  intros Hl Hx. apply StronglySorted_app. split_and!; [|done|by repeat constructor].
  intros y z Hy Hz%list_elem_of_singleton. subst. by apply Hx.
Qed.

Lemma sorted_by_cons {A} (lt : A → A → bool) l x :
  (∀ y, y ∈ l → ¬ lt y x) → sorted_by lt l → sorted_by lt (x :: l).
Proof. intros Hx Hl. constructor; [done|]. by apply Forall_forall. Qed.

(** ** Draining a queue *)

Section Drain.
Context {A} (lt : A → A → bool) (valid : A → Prop).
Context `{!StrictWeakOrder lt valid} `{!PQueue lt} `{!PQueueLaws lt valid}.

(** [while (!q.empty()) { out.push_back(q.top()); q.pop(); }] on a queue of
    [n] elements. *)
Fixpoint drain_push (n : nat) (q : pq lt) (out : list A) : result (list A) :=
  match n with
  | O => Ok out
  | S n => x ← pq_top q; drain_push n (pq_pop q) (out ++ [x])
  end.

(** [for (i = n; i-- > 0;) { out[i] = q.top(); q.pop(); }] *)
Fixpoint drain_fill (n : nat) (q : pq lt) (out : list A) : result (list A) :=
  match n with
  | O => Ok out
  | S i => x ← pq_top q; out' ← set_at out i x; drain_fill i (pq_pop q) out'
  end.

Lemma pq_step q n :
  pq_ok q → pq_size q = S n →
  ∃ x, pq_top q = Ok x ∧ pq_ok (pq_pop q) ∧ pq_size (pq_pop q) = n ∧
       pq_elems q ≡ₚ x :: pq_elems (pq_pop q) ∧ ∀ y, y ∈ pq_elems q → ¬ lt x y.
Proof.
  unfold pq_size. intros Hq Hn. destruct (pq_top_max q Hq) as (x & Hx & Hp & Hok & Hmax).
  { by intros E; rewrite E in Hn. }
  exists x. split_and!; try done. apply Permutation_length in Hp. cbn in Hp. lia.
Qed.

Lemma drain_push_perm n q out :
  pq_ok q → pq_size q = n →
  ∃ l, drain_push n q out = Ok (out ++ l) ∧ l ≡ₚ pq_elems q.
Proof.
  revert q out. induction n as [|n IH]; intros q out Hq Hn.
  - exists []. rewrite app_nil_r. split; [done|]. unfold pq_size in Hn. by destruct (pq_elems q).
  - destruct (pq_step q n Hq Hn) as (x & Hx & Hok & Hs & Hp & _). cbn. rewrite Hx. cbn.
    destruct (IH (pq_pop q) (out ++ [x]) Hok Hs) as (l & -> & Hl).
    exists (x :: l). rewrite <- app_assoc. split; [done|]. by rewrite Hp, Hl.
Qed.

(** Filling from the back leaves the elements in ascending order. *)
Lemma drain_fill_sorted n q out suffix :
  pq_ok q → pq_size q = n → length out = n →
  sorted_by lt suffix → (∀ x y, x ∈ pq_elems q → y ∈ suffix → ¬ lt y x) →
  ∃ l, drain_fill n q (out ++ suffix) = Ok l ∧ l ≡ₚ pq_elems q ++ suffix ∧ sorted_by lt l.
Proof.
  revert q out suffix. induction n as [|n IH]; intros q out suffix Hq Hn Ho Hs Hle.
  - destruct out; [|done]. exists suffix. unfold pq_size in Hn. by destruct (pq_elems q).
  - destruct (pq_step q n Hq Hn) as (x & Hx & Hok & Hsz & Hp & Hmax). cbn. rewrite Hx. cbn.
    destruct (exists_last (l := out)) as (out' & y & ->); [by intros ->|].
    rewrite length_app in Ho. cbn in Ho. assert (length out' = n) as Ho' by lia.
    rewrite <- app_assoc. rewrite set_at_lt by (rewrite length_app; cbn; lia). cbn.
    rewrite insert_app_r_alt by lia. rewrite Ho', Nat.sub_diag. cbn.
    destruct (IH (pq_pop q) out' (x :: suffix) Hok Hsz Ho') as (l & Hl & Hlp & Hls).
    + apply sorted_by_cons; [|done]. intros z Hz. apply Hle; [|done]. rewrite Hp. by left.
    + intros z w Hz Hw. apply elem_of_cons in Hw as [-> |Hw].
      * apply Hmax. rewrite Hp. by right.
      * apply Hle; [|done]. rewrite Hp. by right.
    + exists l. split_and!; [done| |done]. rewrite Hlp, Hp. cbn. by rewrite Permutation_middle.
Qed.
End Drain.

(** ** A conforming implementation *)

Section Instances.
Context {A : Type}.

(** Insert after the elements that [before] places first. *)
Fixpoint insert_by (before : A → A → bool) (x : A) (l : list A) : list A :=
  match l with
  | [] => [x]
  | y :: l => if before y x then y :: insert_by before x l else x :: y :: l
  end.

Lemma insert_by_perm before x l : insert_by before x l ≡ₚ x :: l.
Proof.
  induction l as [|y l IH]; [done|]. cbn. destruct (before y x); [|done].
  rewrite IH. constructor.
Qed.

Lemma insert_by_sorted before valid x l `{!StrictWeakOrder before valid} :
  valid x → Forall valid l →
  sorted_by before l → sorted_by before (insert_by before x l).
Proof.
  intros Hx Hv. induction 1 as [|y l Hl IH Hy]; cbn; [by repeat constructor|].
  apply Forall_cons in Hv as [Hvy Hv]. destruct (before y x) eqn:E.
  - apply sorted_by_cons; [|by apply IH]. intros z Hz. rewrite insert_by_perm in Hz.
    apply elem_of_cons in Hz as [-> |Hz]; [|rewrite Forall_forall in Hy; by apply Hy].
    intros Hzy. apply (swo_irrefl y), (swo_trans y x y); [by rewrite E|done].
  - apply sorted_by_cons; [|by constructor]. intros z Hz Hzx.
    apply elem_of_cons in Hz as [-> |Hz]; [by rewrite E in Hzx|].
    destruct (swo_cotrans z y x Hvy Hzx) as [H|H]; [|by rewrite E in H].
    rewrite Forall_forall in Hy. by apply (Hy z).
Qed.
End Instances.

#[export] Instance swo_flip {A} (lt : A → A → bool) valid :
  StrictWeakOrder lt valid → StrictWeakOrder (λ x y, lt y x) valid.
Proof.
  intros H. split.
  - apply swo_irrefl.
  - intros x y z Hxy Hyz. by apply (swo_trans z y x).
  - intros x y z Hy Hzx. destruct (swo_cotrans z y x Hy Hzx); auto.
Qed.

Definition list_pqueue {A} (lt : A → A → bool) : PQueue lt := {|
  pq := list A;
  pq_empty := [];
  pq_push x q := insert_by (λ a b, lt b a) x q;
  pq_top q := match q with [] => Throw undefined_behaviour | x :: _ => Ok x end;
  pq_pop q := tail q;
  pq_elems q := q;
|}.

Program Definition list_pqueue_laws {A} (lt : A → A → bool) valid
    `{!StrictWeakOrder lt valid} : @PQueueLaws A lt valid (list_pqueue lt) := {|
  pq_ok := λ q : list A, Forall valid q ∧ sorted_by (λ a b, lt b a) q;
|}.
Next Obligation. by repeat constructor. Qed.
Next Obligation. done. Qed.
Next Obligation. by intros A lt valid ? q []. Qed.
Next Obligation.
  intros A lt valid ? x q Hx [Hv Hs]. split.
  - cbn. rewrite insert_by_perm. by constructor.
  - apply (insert_by_sorted (λ a b, lt b a) valid); [by apply swo_flip|done..].
Qed.
Next Obligation. intros. apply insert_by_perm. Qed.
Next Obligation. by intros A lt valid ? [|]. Qed.
Next Obligation.
  intros A lt valid ? [|x q] [Hv Hs] Hne; [done|]. exists x. cbn.
  apply Forall_cons in Hv as [Hx Hv]. apply StronglySorted_inv in Hs as [Hs Hq].
  split_and!; try done. intros y Hy. apply elem_of_cons in Hy as [-> |Hy]; [apply swo_irrefl|].
  rewrite Forall_forall in Hq. by apply Hq.
Qed.

Definition insertion_sort : StdSort := λ A lt l, foldr (insert_by lt) [] l.

Lemma insertion_sort_laws : @StdSortLaws insertion_sort.
Proof.
  assert (∀ A (lt : A → A → bool) l, @std_sort insertion_sort A lt l ≡ₚ l) as Hp.
  { intros A lt l. unfold std_sort, insertion_sort. induction l as [|x l IH]; [done|].
    cbn. by rewrite insert_by_perm, IH. }
  split; intros A lt valid HS l Hv; [apply Hp|].
  induction Hv as [|x l Hx Hv IH]; [constructor|].
  apply (insert_by_sorted lt valid); [done|done| |done].
  change (Forall valid (@std_sort insertion_sort A lt l)). by rewrite Hp.
Qed.
