(* ===== verification/Index.v ===== *)
(** * The index interface ([index.hpp])

    [IndexOps] is the abstract class [Index] (an index reads the vectors back
    from the store, so the store is an argument of its methods). [IndexLaws]
    is what the engine relies on when it changes the store, [IndexSearchLaws]
    what a client relies on when it searches. *)
From S2P Require Import Prelude Binary Distance Metadata Bitset VectorStore StoreSpec StdQueue.
Local Open Scope nat_scope.
Import VectorStore.

Record SearchParams := { ef : nat; allowed : option Bitset.t }.

Definition default_params : SearchParams := {| ef := 64; allowed := None |}.

Class IndexOps (Ix : Type) := {
  ix_make : Ix;
  ix_add : t → InternalId → list word32 → Ix → result Ix;
  ix_remove : InternalId → Ix → result Ix;
  ix_search : t → list word32 → nat → SearchParams → Ix → result (list SearchResult);
  ix_name : string;
}.

(** ** Vocabulary of the contracts *)

(** The order of the results: by distance, smaller first. *)
Definition closer (a b : SearchResult) : bool := flt (score a) (score b).

Definition scored (r : SearchResult) : Prop := not_nan (score r).

#[export] Instance closer_swo : StrictWeakOrder closer scored.
Proof.
  split.
  - intros x. apply flt_irrefl.
  - intros x y z. apply flt_trans.
  - intros x y z Hy Hxz. by apply flt_cotrans.
Qed.

(** The slots that a search may return. *)
Definition in_allowed (p : SearchParams) (i : InternalId) : bool :=
  match allowed p with None => true | Some b => Bitset.bit b i end.

Definition eligible (s : t) (p : SearchParams) (i : InternalId) : bool :=
  is_live s i && in_allowed p i.

Definition params_wf (p : SearchParams) : Prop :=
  match allowed p with None => True | Some b => Bitset.bitset_wf b end.

(** The allowed-set of a search is read without an access out of range. *)
Lemma test_allowed p i :
  params_wf p →
  match allowed p with None => Ok true | Some b => Bitset.test b i end = Ok (in_allowed p i).
Proof.
  unfold params_wf, in_allowed. destruct (allowed p); [|done]. apply Bitset.bitset_test_bit.
Qed.

(** Every stored vector satisfies [P]. *)
Definition vecs_ok (P : list word32 → Prop) (s : t) : Prop :=
  ∀ i v, N.to_nat i < slot_count s → get s i = Ok v → P v.

Lemma vecs_ok_inserted P s s' e i v m :
  P v → vecs_ok P s → inserted s s' e i v m → vecs_ok P s'.
Proof.
  intros Hv Hs Hi j w Hj. rewrite (ins_get _ _ _ _ _ _ Hi) by done.
  case_decide as E; [by intros [= <-]|]. apply Hs.
  destruct (ext_to_int_ s !! e) as [i'|] eqn:He.
  - destruct (ins_old _ _ _ _ _ _ Hi i' He) as [_ <-]. done.
  - destruct (ins_new _ _ _ _ _ _ Hi He) as [-> Hs']. lia.
Qed.

Lemma vecs_ok_updated P s s' e i v m :
  P v → vecs_ok P s → updated s s' e i v m → vecs_ok P s'.
Proof.
  intros Hv Hs Hu j w Hj. rewrite (upd_slots _ _ _ _ _ _ Hu) in Hj.
  rewrite (upd_get _ _ _ _ _ _ Hu) by done. case_decide; [by intros [= <-]|]. by apply Hs.
Qed.

Lemma vecs_ok_erased P s s' e i : vecs_ok P s → erased s s' e i → vecs_ok P s'.
Proof.
  intros Hs He j w Hj. rewrite (era_slots _ _ _ _ He) in Hj.
  rewrite (era_get _ _ _ _ He). by apply Hs.
Qed.

Lemma vecs_ok_empty P s : slot_count s = 0 → vecs_ok P s.
Proof. intros E i v. lia. Qed.

(** The hit that slot [i] gives for a query. *)
Definition hit_of `{!DistanceMetric} (s : t) (q : list word32) (r : SearchResult) : Prop :=
  ∃ v, get s (id r) = Ok v ∧ distance q v (dim_ s) = Ok (score r).

(** What every search returns: at most [k] different eligible slots, with their
    true distances, the closest first. *)
Record search_ok `{!DistanceMetric} (s : t) (q : list word32) (k : nat) (p : SearchParams)
    (out : list SearchResult) : Prop := {
  so_length : length out ≤ k;
  so_sorted : sorted_by closer out;
  so_nodup : NoDup (id <$> out);
  so_eligible r : r ∈ out → eligible s p (id r);
  so_hits r : r ∈ out → hit_of s q r;
}.

(** [out] are [k] closest eligible slots: no eligible slot that was left out is
    closer than one that was returned, and [k] are returned when there are so
    many. *)
Record search_exact `{!DistanceMetric} (s : t) (q : list word32) (k : nat) (p : SearchParams)
    (out : list SearchResult) : Prop := {
  se_ok : search_ok s q k p out;
  se_length : length out = Nat.min k (length (filter (eligible s p) (N.of_nat <$> seq 0 (slot_count s))));
  se_closest i r r' : r ∈ out → eligible s p i → i ∉ id <$> out → id r' = i → hit_of s q r' →
    ¬ closer r' r;
}.

(** A slot gives one hit. *)
Lemma hit_of_inj `{!DistanceMetric} s q r r' :
  hit_of s q r → hit_of s q r' → id r = id r' → r = r'.
Proof.
  intros (v & Hv & Hd) (v' & Hv' & Hd') E. rewrite E in Hv. destruct r, r'; cbn in *; congruence.
Qed.

(** The [k] smallest hits in ascending order are an exact answer. *)
Lemma smallest_search_exact `{!DistanceMetric} s q k p all out :
  sorted_by closer out → smallest closer k all out →
  id <$> all ≡ₚ filter (eligible s p) (N.of_nat <$> seq 0 (slot_count s)) →
  Forall (hit_of s q) all → (∀ i, is_live s i → N.to_nat i < slot_count s) →
  search_exact s q k p out.
Proof.
  intros Hsort [Hlen (rest & Hrest & Hle)] Hids Hhits Hlive. rewrite Forall_forall in Hhits.
  assert (∀ r, r ∈ out → r ∈ all) as Hsub by (intros r Hr; rewrite <- Hrest; set_solver).
  assert (NoDup (id <$> out ++ rest)) as Hnd.
  { rewrite Hrest, Hids. apply NoDup_filter, NoDup_fmap; [intros ???; lia|apply NoDup_seq]. }
  rewrite fmap_app in Hnd. apply NoDup_app in Hnd as (Hnd & _ & _).
  split.
  - split; [lia|done|done| |by intros r Hr; apply Hhits, Hsub].
    intros r Hr. assert (id r ∈ id <$> all) as Hi by (apply list_elem_of_fmap; eauto).
    rewrite Hids in Hi. by apply list_elem_of_filter in Hi as [? _].
  - by rewrite Hlen, <- (length_fmap id all), Hids.
  - intros i r r' Hr He Hi Hr' Hhit.
    assert (i ∈ id <$> all) as (r0 & Hr0 & Hin)%list_elem_of_fmap.
    { rewrite Hids, list_elem_of_filter. split; [done|]. apply list_elem_of_fmap.
      exists (N.to_nat i). rewrite N2Nat.id. split; [done|]. apply elem_of_seq.
      unfold eligible in He. specialize (Hlive i). destruct (is_live s i); [|done].
      specialize (Hlive ltac:(done)). lia. }
    assert (r' = r0) as -> by (apply (hit_of_inj s q); [done|by apply Hhits|congruence]).
    apply Hle; [done|]. rewrite <- Hrest in Hin. apply elem_of_app in Hin as [Hin|]; [|done].
    destruct Hi. rewrite Hr0. apply list_elem_of_fmap. eauto.
Qed.

(** Vectors between which a metric is never a NaN. *)
Class MetricTame (Met : DistanceMetric) (valid : list word32 → Prop) : Prop :=
  metric_tame a b d : length a = N.to_nat d → length b = N.to_nat d → valid a → valid b →
    ∃ s, distance a b d = Ok s ∧ not_nan s.

#[export] Instance L2_tame : MetricTame L2 finite_vec.
Proof.
  intros a b d Hla Hlb Ha Hb. destruct (L2_distance_sign a b d) as (s & Hs & Hsign); try done.
  exists s. split; [done|]. by apply has_sign_not_nan in Hsign.
Qed.

(** ** The contracts *)

(** The index follows the store. [buildable] are the vectors for which the
    graph of an index can be built. *)
Class IndexLaws (Ix : Type) `{!IndexOps Ix} (buildable : list word32 → Prop) := {
  ix_inv : t → Ix → Prop;
  ix_make_inv s : wf s → slot_count s = 0 → ix_inv s ix_make;
  ix_add_inv s s' e i v m ix :
    wf s → inserted s s' e i v m → is_live s i = false → vecs_ok buildable s' →
    ix_inv s ix → ∃ ix', ix_add s' i v ix = Ok ix' ∧ ix_inv s' ix';
  ix_overwrite_inv s s' e i v m ix :
    wf s → inserted s s' e i v m → is_live s i → ix_inv s ix → ix_inv s' ix;
  ix_update_inv s s' e i v m ix :
    wf s → updated s s' e i v m → ix_inv s ix → ix_inv s' ix;
  ix_remove_inv s s' e i ix :
    wf s → erased s s' e i → ix_inv s ix →
    ∃ ix', ix_remove i ix = Ok ix' ∧ ix_inv s' ix';
}.

Class IndexSearchLaws (Ix : Type) `{!DistanceMetric} `{!IndexOps Ix} (buildable : list word32 → Prop)
    `{!IndexLaws Ix buildable} (valid : list word32 → Prop) : Prop :=
  ix_search_ok s q k p ix :
    wf s → ix_inv s ix → vecs_ok valid s → valid q → length q = N.to_nat (dim_ s) → params_wf p →
    ∃ out, ix_search s q k p ix = Ok out ∧ search_ok s q k p out.
