(* ===== verification/DistanceBounds.v ===== *)
(** * Distances of bounded vectors

    On vectors whose elements are at most [2^24] in magnitude no accumulator of
    the metrics overflows: every metric is tame, and the cosine distance is a
    number between zero and two. *)
From S2P Require Import Prelude Binary Rounding Distance StdQueue VectorStore StoreSpec Index.
Local Open Scope Z_scope.

Record small_vec (v : list word32) : Prop := {
  small_length : Z.of_nat (length v) < 2 ^ 24;
  small_elements : Forall (λ x, fle (f_load x) 1 24) v;
}.

(** A single-precision product and sum. *)
Lemma product_bound x y : fle x 1 24 → fle y 1 24 → fle (fmul x y) 1 48.
Proof. intros Hx Hy. apply (SFmul_upper 24 128) with (b1 := 1) (k1 := 24) (b2 := 1) (k2 := 24); by vm_compute || done. Qed.

Lemma sum_bound n s x : 0 <= n → n + 1 < 2 ^ 24 → fle s n 48 → fle x 1 48 → fle (fadd s x) (n + 1) 48.
Proof. intros Hn Hb Hs Hx. apply SFadd_upper; try done; change (emin 24 128) with (-149); lia. Qed.

(** A loop that adds up a product per element. *)
Lemma sum_products (step : Score → word32 → word32 → Score) a b s n :
  (∀ s x y n, 0 <= n → n + 1 < 2 ^ 24 → fle (f_load x) 1 24 → fle (f_load y) 1 24 → fle s n 48 →
     fle (step s x y) (n + 1) 48) →
  0 <= n → n + Z.of_nat (length a) < 2 ^ 24 →
  Forall (λ x, fle (f_load x) 1 24) a → Forall (λ x, fle (f_load x) 1 24) b →
  fle s n 48 → fle (foldl (λ s p, step s p.1 p.2) s (zip a b)) (2 ^ 24 - 1) 48.
Proof.
  intros Hstep. revert b s n. induction a as [|x a IH]; intros b s n Hn Hl Ha Hb Hs.
  { apply (fle_mono _ n); [lia|]. by destruct b. }
  destruct b as [|y b]; [apply (fle_mono _ n); [lia|done]|]. cbn [zip zip_with foldl fst snd].
  apply Forall_cons in Ha as [Hx Ha]. apply Forall_cons in Hb as [Hy Hb]. cbn [length] in Hl.
  apply (IH _ _ (n + 1)); [lia|lia|done|done|]. apply Hstep; [done|lia|done..].
Qed.

Lemma Dot_step_bound s x y n :
  0 <= n → n + 1 < 2 ^ 24 → fle (f_load x) 1 24 → fle (f_load y) 1 24 → fle s n 48 → fle (Dot_step s x y) (n + 1) 48.
Proof. intros. apply sum_bound; [done..|]. by apply product_bound. Qed.

(** ** The accumulators of the cosine *)

Definition acc_bounded (n : Z) (acc : cosine_acc) : Prop :=
  fle (acc_dot acc) n 48 ∧ fle (acc_na acc) n 48 ∧ fle (acc_nb acc) n 48 ∧
  has_sign false (acc_na acc) ∧ has_sign false (acc_nb acc).

Lemma Cosine_step_bound acc x y n :
  0 <= n → n + 1 < 2 ^ 24 → fle (f_load x) 1 24 → fle (f_load y) 1 24 → acc_bounded n acc →
  acc_bounded (n + 1) (Cosine_step acc x y).
Proof.
  intros Hn Hb Hx Hy (H1 & H2 & H3 & H4 & H5). unfold acc_bounded, Cosine_step; cbn [acc_dot acc_na acc_nb].
  assert (∀ z, fle z 1 24 → not_nan z) as Hnn by (by intros []).
  split_and!; try (apply sum_bound; [done..|]; by apply product_bound);
    (apply fadd_sign; [done|]; apply fmul_square; auto).
Qed.

Lemma Cosine_acc_bounded a b acc n :
  0 <= n → n + Z.of_nat (length a) < 2 ^ 24 →
  Forall (λ x, fle (f_load x) 1 24) a → Forall (λ x, fle (f_load x) 1 24) b → acc_bounded n acc →
  ∃ n', 0 <= n' < 2 ^ 24 ∧ acc_bounded n' (foldl (λ s p, Cosine_step s p.1 p.2) acc (zip a b)).
Proof.
  revert b acc n. induction a as [|x a IH]; intros b acc n Hn Hl Ha Hb Hacc.
  { exists n. split; [lia|]. by destruct b. }
  destruct b as [|y b]; [exists n; split; [lia|done]|]. cbn [zip zip_with foldl fst snd].
  apply Forall_cons in Ha as [Hx Ha]. apply Forall_cons in Hb as [Hy Hb]. cbn [length] in Hl.
  apply (IH _ _ (n + 1)); [lia|lia|done|done|]. apply Cosine_step_bound; [done|lia|done..].
Qed.

(** ** The similarity is clamped *)

Lemma sqrt_finite x n : 0 <= n < 2 ^ 24 → has_sign false x → fle x n 48 → finite (fsqrt x).
Proof.
  intros Hn Hs Hx. eapply (fle_finite _ 1 36). apply SFsqrt_upper; [done|done|by vm_compute|done|].
  eapply fle_weaken; [|exact Hx]. unfold le2. change (2 ^ Z.max 0 (48 - 2 * 36)) with 1.
  change (2 ^ Z.max 0 (2 * 36 - 48)) with (2 ^ 24). lia.
Qed.

Lemma fmul_finite x y : finite x → finite y → not_nan (fmul x y).
Proof.
  intros Hx Hy. destruct x as [[]|[]| |sx mx ex], y as [[]|[]| |sy my ey]; try done.
  eapply has_sign_not_nan. by apply binary_round_aux_sign.
Qed.

(** A canonical number that compares between -1 and 1 is at most 1 in magnitude. *)
Lemma clamped_bound x :
  valid_binary 24 128 x → not_nan x → ¬ flt f_one x → ¬ flt x (SFopp f_one) → fle x 1 0.
Proof.
  intros Hv Hn H1 H2. rewrite flt_key in H1, H2. destruct x as [s|s| |s m e]; try done.
  { exfalso. destruct s; [apply H2|apply H1]; (split_and!; [done|done|]); left; cbn; lia. }
  apply valid_finite in Hv as [Hc _]. destruct (digits_bounds (Zpos m)) as [[_ Hm] Hd]; [lia|].
  rewrite fexp_eq in Hc. assert (2 ^ Zdigits2 (Zpos m) <= 2 ^ 24) by (apply Z.pow_le_mono_r; lia).
  cbn [fle]. destruct (Z.le_gt_cases (- 22) e) as [He|He].
  { exfalso. destruct s; [apply H2|apply H1]; (split_and!; [done|done|]); right; cbn; lia. }
  apply le2_below; [lia|]. rewrite Z.mul_1_l. destruct (decide (e = -23)) as [->|].
  - change (2 ^ (0 - -23)) with 8388608. destruct (Z.le_gt_cases (Zpos m) 8388608) as [|Hgt]; [done|].
    exfalso. destruct s; [apply H2|apply H1]; (split_and!; [done|done|]); right; cbn; lia.
  - assert (2 ^ 24 <= 2 ^ (0 - e)) by (apply Z.pow_le_mono_r; lia). lia.
Qed.

Lemma one_minus x : fle x 1 0 → has_sign false (fsub f_one x) ∧ fle (fsub f_one x) 2 0.
Proof.
  intros Hx. destruct x as [[]| | |s m e]; try done. cbn [fle] in Hx.
  unfold fsub, f_one, SFsub. destruct (align_min false 8388608 (-23) e) as (a & -> & Ha).
  rewrite (Z.min_comm (-23) e). destruct (align_min s m e (-23)) as (c & -> & Hc). rewrite Z.min_comm in Ha.
  cbn [cond_Zopp]. set (ez := Z.min e (-23)) in *. pose proof (pow2_pos (e - ez)). pose proof (pow2_pos (-23 - ez)).
  assert (a = 2 ^ (0 - ez)) as Ea.
  { rewrite Ha. change (Zpos 8388608) with (2 ^ 23). rewrite <- pow2_add by lia. f_equal. lia. }
  assert (c <= a) as Hca.
  { rewrite Hc, Ea. apply (le2_scale ez) in Hx; [|lia..]. lia. }
  assert (0 <= c) by nia. assert (0 <= cond_Zopp s c + a /\ cond_Zopp s c <= a) as Hs by (destruct s; cbn [cond_Zopp]; lia).
  split; [apply binary_normalize_sign; lia|].
  apply binary_normalize_upper; [done|done|by vm_compute|change (128 - 24) with 104; lia|].
  apply le2_below; [lia|]. rewrite <- Ea. destruct s; cbn [cond_Zopp]; lia.
Qed.

Lemma fle_one : fle f_one 1 0.
Proof. by vm_compute. Qed.

Lemma fle_minus_one : fle (SFopp f_one) 1 0.
Proof. by vm_compute. Qed.

Lemma Cosine_finish_bound acc n :
  0 <= n < 2 ^ 24 → acc_bounded n acc → has_sign false (Cosine_finish acc) ∧ fle (Cosine_finish acc) 2 0.
Proof.
  intros Hn (H1 & H2 & H3 & H4 & H5). unfold Cosine_finish. cbv zeta.
  set (denom := fmul _ _). assert (not_nan denom) as Hd by (apply fmul_finite; by eapply sqrt_finite).
  destruct (feq denom f_zero) eqn:Hz; [by vm_compute|].
  set (sim := fdiv _ _). assert (not_nan sim) as Hs by (apply SFdiv_not_nan; [by eapply fle_finite|done|done]).
  assert (valid_binary 24 128 sim) as Hv by by apply SFdiv_valid.
  clearbody sim. apply one_minus. unfold fgt. destruct (flt f_one sim) eqn:E1; [exact fle_one|].
  destruct (flt sim (SFopp f_one)) eqn:E2; [exact fle_minus_one|].
  apply clamped_bound; [done|done|rewrite E1|rewrite E2]; by intros [].
Qed.

(** The cosine distance stays in its range. On vectors of fewer than [2^24]
    elements, each at most [2^24] in magnitude, no accumulator overflows and the
    distance is a number from zero to two: never a NaN, whatever the vectors
    (also for the zero vector), and never negative. *)
Lemma cosine_range (a b : list word32) (d : Dim) :
  length a = N.to_nat d → length b = N.to_nat d → small_vec a → small_vec b →
  ∃ s, Cosine_distance a b d = Ok s ∧ has_sign false s ∧ fle s 2 0.
Proof.
  intros Hla Hlb [Hl Ha] [_ Hb]. eexists. split; [by apply Cosine_distance_fold|].
  destruct (Cosine_acc_bounded a b cosine_acc0 0) as (n & Hn & Hacc); [done|done|done|done| |by eapply Cosine_finish_bound].
  by repeat split.
Qed.

(** Every metric is tame on these vectors. *)
Lemma small_finite v : small_vec v → finite_vec v.
Proof. intros [_ H]. eapply Forall_impl; [exact H|]. intros x. apply fle_finite. Qed.

#[export] Instance small_tame k : MetricTame (metric_of k) small_vec.
Proof.
  intros a b d Hla Hlb Ha Hb. destruct k; cbn [metric_of].
  - apply L2_tame; [done|done|by apply small_finite..].
  - destruct Ha as [Hl Ha], Hb as [_ Hb]. cbn.
    eexists. split; [by apply Cosine_distance_fold|].
    destruct (Cosine_acc_bounded a b cosine_acc0 0) as (n & Hn & Hacc); [done|done|done|done|by repeat split|].
    destruct (Cosine_finish_bound _ _ Hn Hacc) as [Hs _]. by eapply has_sign_not_nan.
  - destruct Ha as [Hl Ha], Hb as [_ Hb]. cbn. eexists. split; [by apply Dot_distance_fold|].
    pose proof (sum_products Dot_step a b f_zero 0 Dot_step_bound ltac:(done) Hl Ha Hb I) as Hf.
    by destruct (foldl _ _ _).
Qed.

(** C28: the metrics. Every metric is defined on all vectors of the dimension,
    whatever floats they hold, symmetric bit for bit, and the same through the
    overload on spans. On finite vectors [L2] is never a NaN and never negative (it
    may overflow to infinity), and a vector is at distance zero of itself. On
    vectors of fewer than [2^24] elements, each at most [2^24] in magnitude, no
    metric is a NaN, and the cosine distance is a number from zero to two, also
    for the zero vector: no accumulator overflows. *)
Theorem metric_laws (k : MetricKind) (a b : list word32) (d : Dim) :
  length a = N.to_nat d → length b = N.to_nat d → (d < 2 ^ 32)%N →
  (∃ s, @distance (metric_of k) a b d = Ok s ∧ @distance (metric_of k) b a d = Ok s ∧
     span_distance (Met := metric_of k) a b = Ok s) ∧
  (finite_vec a → finite_vec b →
   ∃ s, L2_distance a b d = Ok s ∧ not_nan s ∧ ¬ flt s f_zero ∧
     L2_distance a a d = Ok f_zero ∧ L2_distance b b d = Ok f_zero) ∧
  (small_vec a → small_vec b →
   (∃ s, @distance (metric_of k) a b d = Ok s ∧ not_nan s) ∧
   ∃ s, Cosine_distance a b d = Ok s ∧ has_sign false s ∧ fle s 2 0).
Proof.
  intros Ha Hb Hd. split_and!.
  - destruct (metric_total_symmetric k a b d Ha Hb) as (s & Hs & Hs'). exists s. split_and!; [done|done|].
    unfold span_distance. rewrite to_u32_small by lia. by rewrite Ha, N2Nat.id.
  - by apply L2_premetric.
  - intros Hsa Hsb. split; [by apply (small_tame k)|by apply cosine_range].
Qed.

Lemma metric_laws_witness :
  (∃ s, Cosine_distance (point 3 4) (point (-4) 2) 2 = Ok s ∧ Cosine_distance (point (-4) 2) (point 3 4) 2 = Ok s ∧
     span_distance (Met := Cosine) (point 3 4) (point (-4) 2) = Ok s) ∧
  (∃ s, L2_distance (point 3 4) (point (-4) 2) 2 = Ok s ∧ not_nan s ∧ ¬ flt s f_zero ∧
     L2_distance (point 3 4) (point 3 4) 2 = Ok f_zero ∧ L2_distance (point (-4) 2) (point (-4) 2) 2 = Ok f_zero) ∧
  (∃ s, Cosine_distance (point 3 4) (point (-4) 2) 2 = Ok s ∧ not_nan s) ∧
  ∃ s, Cosine_distance (point 3 4) (point (-4) 2) 2 = Ok s ∧ has_sign false s ∧ fle s 2 0.
Proof.
  destruct (metric_laws MetricCosine (point 3 4) (point (-4) 2) 2) as (H1 & H2 & H3); [reflexivity|reflexivity|reflexivity|].
  split; [exact H1|]. split; [apply H2; vm_decide|].
  apply H3; (split; [reflexivity|apply Forall_cons_2; [|apply Forall_cons_2; [|constructor]]; vm_compute; discriminate]).
Defined.
