(* ===== verification/FlatIndex.v ===== *)
(** * The exact index ([flat_index.hpp], [flat_index.cpp])

    A list of internal ids, scanned by every query into a bounded max-heap.
    The index is exact: it returns [k] closest eligible slots of the store, for
    every conforming [std::priority_queue]. *)
From S2P Require Import Prelude Binary Distance Metadata Bitset VectorStore StoreSpec StdQueue Index.
Local Open Scope nat_scope.
Import VectorStore.

Module FlatIndex.
Section FlatIndex.
Context {Met : DistanceMetric}.

Record t := { ids_ : list InternalId }.

Definition make : t := {| ids_ := [] |}.

Definition add (i : InternalId) (ix : t) : t := {| ids_ := ids_ ix ++ [i] |}.

(** The erase-remove idiom. *)
Definition remove (i : InternalId) (ix : t) : t := {| ids_ := filter (λ j, j ≠ i) (ids_ ix) |}.

(** The comparator [worse] of the heap: its top has the largest distance. *)
Definition worse (a b : SearchResult) : bool := flt (score a) (score b).

Context `{!PQueue worse}.

(** The tail of the loop body, for a slot that passed the filters. *)
Definition keep_best (k : nat) (r : SearchResult) (heap : pq worse) : result (pq worse) :=
  if pq_size heap <? k then Ok (pq_push r heap)
  else
    top ← pq_top heap;
    if flt (score r) (score top) then Ok (pq_push r (pq_pop heap)) else Ok heap.

(** One iteration of the scan. *)
Definition scan_step (s : VectorStore.t) (query : list word32) (k : nat) (params : SearchParams)
    (i : InternalId) (heap : pq worse) : result (pq worse) :=
  if negb (is_live s i) then Ok heap
  else
    ok ← match allowed params with None => Ok true | Some b => Bitset.test b i end;
    if negb ok then Ok heap
    else
      v ← get s i;
      dist ← distance query v (dim_ s);
      keep_best k {| id := i; score := dist |} heap.

Fixpoint scan (s : VectorStore.t) (query : list word32) (k : nat) (params : SearchParams)
    (ids : list InternalId) (heap : pq worse) : result (pq worse) :=
  match ids with
  | [] => Ok heap
  | i :: ids => heap' ← scan_step s query k params i heap; scan s query k params ids heap'
  end.

(** A [SearchResult] as [resize] leaves it. *)
Definition no_result : SearchResult := {| id := kInvalidId; score := f_zero |}.

Definition search (s : VectorStore.t) (query : list word32) (k : nat) (params : SearchParams)
    (ix : t) : result (list SearchResult) :=
  if k =? 0 then Ok []
  else
    heap ← scan s query k params (ids_ ix) pq_empty;
    let n := pq_size heap in
    drain_fill worse n heap (replicate n no_result).

#[export] Instance flat_ops : IndexOps t := {|
  ix_make := make;
  ix_add _ i _ ix := Ok (add i ix);
  ix_remove i ix := Ok (remove i ix);
  ix_search := search;
  ix_name := metric_name;
|}.

(** ** The index follows the store *)

(** The ids of the index are the live slots, once each. *)
Record flat_inv (s : VectorStore.t) (ix : t) : Prop := {
  flat_nodup : NoDup (ids_ ix);
  flat_live i : i ∈ ids_ ix ↔ is_live s i;
}.

#[export, refine] Instance flat_laws buildable : IndexLaws t buildable := {| ix_inv := flat_inv |}.
Proof.
  - intros s Hwf Hs. split; [constructor|]. intros i. split; [by intros ?%elem_of_nil|].
    intros Hi%(is_live_slot s i Hwf). lia.
  - intros s s' e i v m ix Hwf Hi Hl _ [Hnd Hix]. eexists. split; [done|]. split; cbn.
    + apply NoDup_app. split_and!; [done| |apply NoDup_singleton].
      intros j Hj%Hix ->%list_elem_of_singleton. by rewrite Hl in Hj.
    + intros j. rewrite elem_of_app, list_elem_of_singleton, Hix, (ins_live _ _ _ _ _ _ Hi).
      case_bool_decide; naive_solver.
  - intros s s' e i v m ix Hwf Hi Hl [Hnd Hix]. split; [done|]. intros j.
    rewrite Hix, (ins_live _ _ _ _ _ _ Hi). case_bool_decide; naive_solver.
  - intros s s' e i v m ix Hwf Hu [Hnd Hix]. split; [done|]. intros j.
    by rewrite Hix, (upd_live _ _ _ _ _ _ Hu).
  - intros s s' e i ix Hwf He [Hnd Hix]. eexists. split; [done|]. split; cbn.
    + by apply NoDup_filter.
    + intros j. rewrite list_elem_of_filter, Hix, (era_live _ _ _ _ He).
      case_bool_decide; rewrite ?andb_true_r, ?andb_false_r; naive_solver.
Defined.

(** The ids of the index are a permutation of the live slots. *)
Lemma flat_inv_perm s ix :
  wf s → flat_inv s ix →
  ids_ ix ≡ₚ filter (is_live s) (N.of_nat <$> seq 0 (slot_count s)).
Proof.
  intros Hwf [Hnd Hix]. apply NoDup_Permutation; [done| |].
  - apply NoDup_filter, NoDup_fmap; [intros ???; lia|apply NoDup_seq].
  - intros i. rewrite Hix, list_elem_of_filter, list_elem_of_fmap. split; [|by intros [? _]].
    intros Hl. split; [done|]. exists (N.to_nat i). rewrite N2Nat.id. split; [done|].
    apply elem_of_seq. pose proof (is_live_slot s i Hwf Hl). lia.
Qed.

(** ** The scan keeps the closest slots *)

#[export] Instance worse_swo : StrictWeakOrder worse scored := closer_swo.
Context `{!PQueueLaws worse scored}.

Lemma keep_best_smallest k r heap seen :
  0 < k → scored r → pq_ok heap → smallest worse k seen (pq_elems heap) →
  ∃ heap', keep_best k r heap = Ok heap' ∧ pq_ok heap' ∧
           smallest worse k (r :: seen) (pq_elems heap').
Proof.
  intros Hk Hr Hok Hs. unfold keep_best, pq_size. destruct (Nat.ltb_spec (length (pq_elems heap)) k).
  - eexists. split_and!; [done|by apply pq_push_ok|].
    eapply smallest_perm; [symmetry; by apply pq_push_elems|]. by apply smallest_push.
  - assert (length (pq_elems heap) = k) as Hlen by (pose proof (smallest_length _ _ _ _ Hs); lia).
    destruct (pq_top_max heap Hok) as (w & Hw & Hp & Hok' & Hmax); [by intros E; rewrite E in Hlen; cbn in *; lia|].
    assert (scored w) as Hsw.
    { pose proof (pq_valid heap Hok) as Hv. rewrite Hp in Hv. by inversion Hv. }
    rewrite Hw. cbn. destruct (flt (score r) (score w)) eqn:E.
    + eexists. split_and!; [done|by apply pq_push_ok|].
      eapply smallest_perm; [symmetry; by apply pq_push_elems|].
      apply (smallest_replace worse scored k seen (pq_elems heap) r w); try done. unfold worse. by rewrite E.
    + exists heap. split_and!; [done|done|].
      apply (smallest_skip worse scored k seen (pq_elems heap) r w); try done.
      unfold worse. by rewrite E; intros [].
Qed.

Section Scan.
Context (valid : list word32 → Prop) `{!MetricTame Met valid}.
Context (s : VectorStore.t) (q : list word32) (k : nat) (p : SearchParams).
Context (Hwf : wf s) (Hvecs : vecs_ok valid s) (Hq : valid q) (Hlen : length q = N.to_nat (dim_ s)).
Context (Hp : params_wf p) (Hk : 0 < k).

Lemma slot_hit i :
  is_live s i →
  ∃ v d, get s i = Ok v ∧ distance q v (dim_ s) = Ok d ∧ hit_of s q {| id := i; score := d |} ∧
         scored {| id := i; score := d |}.
Proof.
  intros Hl. pose proof (is_live_slot s i Hwf Hl) as Hi.
  destruct (get_Ok s i Hwf Hi) as (v & Hv & Hlv).
  destruct (metric_tame q v (dim_ s)) as (d & Hd & Hn); [done|done|done|by eapply Hvecs|].
  exists v, d. split_and!; [done|done| |done]. by exists v.
Qed.

Lemma scan_smallest ids heap seen :
  pq_ok heap → smallest worse k seen (pq_elems heap) →
  ∃ heap' new, scan s q k p ids heap = Ok heap' ∧ pq_ok heap' ∧
    smallest worse k (new ++ seen) (pq_elems heap') ∧
    id <$> new ≡ₚ filter (eligible s p) ids ∧ Forall (hit_of s q) new.
Proof.
  revert heap seen. induction ids as [|i ids IH]; intros heap seen Hok Hs.
  { exists heap, []. cbn. auto. }
  cbn [scan]. unfold scan_step. destruct (is_live s i) eqn:Hl; cbn [negb].
  2:{ rewrite filter_cons_False by (unfold eligible; rewrite Hl; by intros []). by apply IH. }
  rewrite test_allowed by done. cbn [mbind result_bind]. destruct (in_allowed p i) eqn:Ha; cbn [negb].
  2:{ rewrite filter_cons_False by (unfold eligible; rewrite Ha, andb_false_r; by intros []). by apply IH. }
  rewrite filter_cons_True by (unfold eligible; by rewrite Hl, Ha).
  destruct (slot_hit i) as (v & d & -> & Hd & Hhit & Hsc); [by rewrite Hl|]. cbn. rewrite Hd. cbn.
  destruct (keep_best_smallest k {| id := i; score := d |} heap seen Hk Hsc Hok Hs)
    as (heap1 & -> & Hok1 & Hs1). cbn.
  destruct (IH heap1 _ Hok1 Hs1) as (heap2 & new & -> & Hok2 & Hs2 & Hids & Hhits).
  exists heap2, (new ++ [{| id := i; score := d |}]). split_and!; [done|done| | |].
  - by rewrite <- app_assoc.
  - rewrite fmap_app. cbn. rewrite Hids. symmetry. apply Permutation_cons_append.
  - apply Forall_app. auto.
Qed.

(** The hits of all eligible slots, and the [k] closest of them in order. *)
Lemma search_smallest ix :
  flat_inv s ix →
  ∃ all out, search s q k p ix = Ok out ∧ sorted_by worse out ∧ smallest worse k all out ∧
    id <$> all ≡ₚ filter (eligible s p) (N.of_nat <$> seq 0 (slot_count s)) ∧
    Forall (hit_of s q) all.
Proof.
  intros Hix. unfold search. destruct (Nat.eqb_spec k 0); [lia|].
  destruct (scan_smallest (ids_ ix) pq_empty []) as (heap & all & -> & Hok & Hs & Hids & Hhits).
  { apply pq_empty_ok. } { rewrite pq_empty_elems. apply smallest_nil. }
  cbn. rewrite app_nil_r in Hs.
  destruct (drain_fill_sorted worse scored (pq_size heap) heap
    (replicate (pq_size heap) no_result) []) as (out & Hout & Hperm & Hsort); try done.
  { by rewrite length_replicate. } { constructor. } { by intros ?? _ ?%elem_of_nil. }
  rewrite app_nil_r in Hout, Hperm. exists all, out. split_and!; [done|done| | |done].
  - by eapply smallest_perm.
  - rewrite Hids, (flat_inv_perm s ix Hwf Hix), list_filter_filter.
    erewrite list_filter_iff; [done|]. intros i. unfold eligible. destruct (is_live s i); naive_solver.
Qed.

Lemma search_exact_flat ix :
  flat_inv s ix → ∃ out, search s q k p ix = Ok out ∧ search_exact s q k p out.
Proof.
  intros Hix. destruct (search_smallest ix Hix) as (all & out & Hout & Hsort & Hs & Hids & Hhits).
  exists out. split; [done|]. eapply smallest_search_exact; try done.
  intros i Hi. by apply is_live_slot.
Qed.
End Scan.

Lemma search_ok_nil s q p : search_ok s q 0 p [].
Proof. split; [done|constructor|constructor|by intros r ?%elem_of_nil..]. Qed.

#[export] Instance flat_search_laws buildable valid `{!MetricTame Met valid} :
  IndexSearchLaws t buildable valid.
Proof.
  intros s q k p ix Hwf Hix Hvecs Hq Hlen Hp. destruct (Nat.eqb_spec k 0) as [-> |Hk].
  - exists []. split; [done|apply search_ok_nil].
  - destruct (search_exact_flat valid s q k p Hwf Hvecs Hq Hlen Hp ltac:(lia) ix Hix) as (out & ? & [? _ _]).
    by exists out.
Qed.

(** C10: the exact index is exact. On a store whose vectors make no NaN distance,
    a query of the store's dimension returns the [k] closest live slots that
    the allowed-set admits (all of them when there are fewer), each once, with
    its true distance, the closest first; no access is out of range. This
    holds for every conforming [std::priority_queue] and every metric. *)
Theorem flat_search_exact (valid : list word32 → Prop) (s : VectorStore.t) (ix : t)
    (q : list word32) (k : nat) (p : SearchParams) :
  MetricTame Met valid → wf s → flat_inv s ix → vecs_ok valid s → valid q →
  length q = N.to_nat (dim_ s) → params_wf p →
  ∃ out, search s q k p ix = Ok out ∧ search_exact s q k p out.
Proof.
  intros Ht Hwf Hix Hvecs Hq Hlen Hp. destruct (Nat.eqb_spec k 0) as [-> |Hk].
  - exists []. split; [done|]. split; [apply search_ok_nil|done|by intros ??? ?%elem_of_nil].
  - by apply (search_exact_flat valid); try done; lia.
Qed.
End FlatIndex.
End FlatIndex.

#[export] Existing Instances FlatIndex.flat_ops FlatIndex.flat_laws FlatIndex.flat_search_laws FlatIndex.worse_swo.
