(* ===== verification/Hnsw.v ===== *)
(** * The HNSW index ([hnsw_index.hpp], [hnsw_index.cpp])

    The class [HnswIndex] over any metric: the layered graph of the slots, the
    greedy descent, the best-first search of a layer, the neighbour heuristic,
    insertion and search. Loops that end because the graph is finite take fuel;
    [HnswSearch] shows that it is enough.

    The random numbers of the level assignment come from a parameter. *)
From S2P Require Import Prelude StdQueue Binary Distance Metadata Bitset VectorStore Index.
Local Open Scope nat_scope.

Module Hnsw.

(** [HnswParams]. *)
Record Params := { M : Z; efConstruction : Z; efSearch : nat; seed : N }.

Definition default_hnsw : Params := {| M := 16; efConstruction := 200; efSearch := 64; seed := 42 |}.

Record Node := { level : Z; links : list (list InternalId) }.

Definition no_node : Node := {| level := 0; links := [] |}.

Definition set_links (ls : list (list InternalId)) (n : Node) : Node := {| level := level n; links := ls |}.

Record Cand := { dist : Score; cid : InternalId }.

(** [FarOnTop] and [NearOnTop], the comparators of the two heaps; [FarOnTop] is
    also the order of the sorts. *)
Definition far_on_top (a b : Cand) : bool := flt (dist a) (dist b).
Definition near_on_top (a b : Cand) : bool := fgt (dist a) (dist b).

(** [static_cast<std::size_t>(int)]. *)
Definition to_size (z : Z) : nat := Z.to_nat (z `mod` 2 ^ 64).

(** [2 * m] on [int]. *)
Definition twice (m : Z) : result Z :=
  if decide (- 2 ^ 31 <= 2 * m < 2 ^ 31)%Z then Ok (2 * m)%Z else Throw undefined_behaviour.

(** ** [Visited] *)

Record Visited := { stamp : list N; cur : N }.

Definition no_visited : Visited := {| stamp := []; cur := 0 |}.

Definition ensure (n : nat) (v : Visited) : Visited :=
  {| stamp := stamp v ++ replicate (n - length (stamp v)) 0%N; cur := cur v |}.

Definition bump (v : Visited) : Visited :=
  let c := ((cur v + 1) mod 2 ^ 32)%N in
  if decide (c = 0%N) then {| stamp := replicate (length (stamp v)) 0%N; cur := 1 |}
  else {| stamp := stamp v; cur := c |}.

Definition test_set (i : InternalId) (v : Visited) : result (bool * Visited) :=
  s ← at_ (stamp v) (N.to_nat i);
  if decide (s = cur v) then Ok (true, v)
  else
    st ← set_at (stamp v) (N.to_nat i) (cur v);
    Ok (false, {| stamp := st; cur := cur v |}).

(** ** Random levels *)

(** [std::mt19937], [std::uniform_real_distribution<double>(0, 1)] and
    [std::log]. *)
Class RandomSource := {
  rng : Type;
  mt19937 : N → rng;
  uniform_01 : rng → spec_float * rng;
  dlog : spec_float → spec_float;
}.

Section Hnsw.
Context {Met : DistanceMetric} {Rand : RandomSource}.
Context {PQn : PQueue near_on_top} {PQf : PQueue far_on_top} {Sort : StdSort}.
Variable params_ : Params.

(** The fields; [store_] is an argument of the methods. *)
Record t := {
  rng_ : rng;
  nodes_ : list Node;
  built_ : list N;
  entry_point_ : InternalId;
  max_level_ : Z;
}.

Definition make : t :=
  {| rng_ := mt19937 (seed params_); nodes_ := []; built_ := []; entry_point_ := kInvalidId; max_level_ := -1 |}.

Definition mL_ : spec_float := ddiv d_one (dlog (double_of_int (Z.max 2 (M params_)))).

Definition random_level (g : rng) : result Z * rng :=
  let '(u, g') := uniform_01 g in
  let r := dsub d_one u in
  (double_to_int (dmul (SFopp (dlog r)) mL_), g').

Definition max_links (layer : nat) : result nat :=
  if layer =? 0 then m ← twice (M params_); Ok (to_size m) else Ok (to_size (M params_)).

Definition dist_to (s : VectorStore.t) (q : list word32) (i : InternalId) : result Score :=
  v ← VectorStore.get s i; distance q v (VectorStore.dim_ s).

(** ** [greedy_upper] *)

(** The range-for over the links of the current node. *)
Fixpoint greedy_scan (s : VectorStore.t) (q : list word32) (es : list InternalId) (best : Cand) (changed : bool)
    : result (Cand * bool) :=
  match es with
  | [] => Ok (best, changed)
  | e :: es =>
      d ← dist_to s q e;
      if flt d (dist best) then greedy_scan s q es {| dist := d; cid := e |} true
      else greedy_scan s q es best changed
  end.

Fixpoint greedy_loop (fuel : nat) (s : VectorStore.t) (ns : list Node) (q : list word32) (l : nat) (best : Cand)
    : result Cand :=
  match fuel with
  | O => Throw out_of_fuel
  | S fuel =>
      n ← at_ ns (N.to_nat (cid best));
      match links n !! l with
      | None => Ok best
      | Some es =>
          r ← greedy_scan s q es best false;
          if r.2 : bool then greedy_loop fuel s ns q l r.1 else Ok r.1
      end
  end.

Definition greedy_upper (s : VectorStore.t) (ns : list Node) (q : list word32) (best : Cand) (layer : nat)
    : result Cand :=
  greedy_loop (length ns + 1) s ns q layer best.

(** ** [search_layer] *)

Record Frontier := { cand : pq near_on_top; res : pq far_on_top; vis : Visited }.

Definition admit_id (s : VectorStore.t) (allowed : option Bitset.t) (i : InternalId) : result bool :=
  if VectorStore.is_live s i then
    match allowed with None => Ok true | Some b => Bitset.test b i end
  else Ok false.

(** [res.empty() ? std::numeric_limits<Score>::max() : res.top().dist] *)
Definition res_bound (r : pq far_on_top) : result Score :=
  if pq_size r =? 0 then Ok f_max else top ← pq_top r; Ok (dist top).

Definition push_entry (s : VectorStore.t) (allowed : option Bitset.t) (e : Cand) (st : Frontier)
    : result Frontier :=
  tv ← test_set (cid e) (vis st);
  ok ← admit_id s allowed (cid e);
  Ok {| cand := pq_push e (cand st); res := if ok : bool then pq_push e (res st) else res st; vis := tv.2 |}.

Fixpoint push_entries (s : VectorStore.t) (allowed : option Bitset.t) (es : list Cand) (st : Frontier)
    : result Frontier :=
  match es with
  | [] => Ok st
  | e :: es => st' ← push_entry s allowed e st; push_entries s allowed es st'
  end.

(** [res.push(c); if (res.size() > ef) res.pop();] *)
Definition keep (ef : nat) (c : Cand) (r : pq far_on_top) : pq far_on_top :=
  let r := pq_push c r in if ef <? pq_size r then pq_pop r else r.

(** One round of the range-for over the links of the expanded node. *)
Definition visit_link (s : VectorStore.t) (q : list word32) (ef : nat) (allowed : option Bitset.t)
    (e : InternalId) (st : Frontier) : result Frontier :=
  tv ← test_set e (vis st);
  if tv.1 : bool then Ok {| cand := cand st; res := res st; vis := tv.2 |}
  else
    d ← dist_to s q e;
    wbound ← res_bound (res st);
    if (pq_size (res st) <? ef) || flt d wbound then
      let c := {| dist := d; cid := e |} in
      ok ← admit_id s allowed e;
      Ok {| cand := pq_push c (cand st);
            res := if ok : bool then keep ef c (res st) else res st; vis := tv.2 |}
    else Ok {| cand := cand st; res := res st; vis := tv.2 |}.

Fixpoint visit_links (s : VectorStore.t) (q : list word32) (ef : nat) (allowed : option Bitset.t)
    (es : list InternalId) (st : Frontier) : result Frontier :=
  match es with
  | [] => Ok st
  | e :: es => st' ← visit_link s q ef allowed e st; visit_links s q ef allowed es st'
  end.

(** [while (!cand.empty())] *)
Fixpoint expand (fuel : nat) (s : VectorStore.t) (ns : list Node) (q : list word32) (ef l : nat)
    (allowed : option Bitset.t) (st : Frontier) : result Frontier :=
  match fuel with
  | O => Throw out_of_fuel
  | S fuel =>
      if pq_size (cand st) =? 0 then Ok st
      else
        c ← pq_top (cand st);
        let st := {| cand := pq_pop (cand st); res := res st; vis := vis st |} in
        bound ← res_bound (res st);
        if (ef <=? pq_size (res st)) && fgt (dist c) bound then Ok st
        else
          n ← at_ ns (N.to_nat (cid c));
          match links n !! l with
          | None => expand fuel s ns q ef l allowed st
          | Some es =>
              st' ← visit_links s q ef allowed es st;
              expand fuel s ns q ef l allowed st'
          end
  end.

(** Every entry and every node is expanded at most once. *)
Definition search_layer (s : VectorStore.t) (ns : list Node) (q : list word32) (entries : list Cand)
    (ef layer : nat) (allowed : option Bitset.t) (v : Visited) : result (list Cand * Visited) :=
  st ← push_entries s allowed entries {| cand := pq_empty; res := pq_empty; vis := bump v |};
  st' ← expand (length entries + length ns + 1) s ns q ef layer allowed st;
  out ← drain_push far_on_top (pq_size (res st')) (res st') [];
  Ok (out, vis st').

(** ** [select_neighbors] *)

(** The inner loop: [keep] at its end. *)
Fixpoint spread_out (s : VectorStore.t) (cv : list word32) (c : Cand) (result_ : list Cand) : result bool :=
  match result_ with
  | [] => Ok true
  | r :: rs =>
      rv ← VectorStore.get s (cid r);
      d ← distance cv rv (VectorStore.dim_ s);
      if flt d (dist c) then Ok false else spread_out s cv c rs
  end.

Fixpoint select_loop (s : VectorStore.t) (m : nat) (cands result_ : list Cand) : result (list Cand) :=
  match cands with
  | [] => Ok result_
  | c :: cs =>
      if m <=? length result_ then Ok result_
      else
        cv ← VectorStore.get s (cid c);
        ok ← spread_out s cv c result_;
        select_loop s m cs (if ok : bool then result_ ++ [c] else result_)
  end.

Definition select_neighbors (s : VectorStore.t) (cands : list Cand) (m : nat) : result (list Cand) :=
  select_loop s m (std_sort far_on_top cands) [].

(** ** Changing the graph *)

(** [nodes_[i].links[l] = f(nodes_[i].links[l])] *)
Definition update_links (i : InternalId) (l : nat) (f : list InternalId → list InternalId) (ns : list Node)
    : result (list Node) :=
  n ← at_ ns (N.to_nat i);
  es ← at_ (links n) l;
  Ok (<[N.to_nat i := set_links (<[l := f es]> (links n)) n]> ns).

Definition connect (a b : InternalId) (l : nat) (ns : list Node) : result (list Node) :=
  ns ← update_links a l (λ es, es ++ [b]) ns;
  update_links b l (λ es, es ++ [a]) ns.

(** The candidates [cc] of [prune]. *)
Fixpoint rank_links (s : VectorStore.t) (v : list word32) (es : list InternalId) : result (list Cand) :=
  match es with
  | [] => Ok []
  | x :: es =>
      d ← dist_to s v x;
      cs ← rank_links s v es;
      Ok ({| dist := d; cid := x |} :: cs)
  end.

Definition prune (s : VectorStore.t) (i : InternalId) (l cap : nat) (ns : list Node) : result (list Node) :=
  n ← at_ ns (N.to_nat i);
  lst ← at_ (links n) l;
  if length lst <=? cap then Ok ns
  else
    v ← VectorStore.get s i;
    cc ← rank_links s v lst;
    kept ← select_neighbors s cc cap;
    update_links i l (λ _, cid <$> kept) ns.

Fixpoint for_cands (body : InternalId → list Node → result (list Node)) (cs : list Cand) (ns : list Node)
    : result (list Node) :=
  match cs with
  | [] => Ok ns
  | c :: cs => ns' ← body (cid c) ns; for_cands body cs ns'
  end.

(** ** [add] *)

(** The descent through the layers [lo + n], ..., [lo + 1]. *)
Fixpoint zoom_in (s : VectorStore.t) (ns : list Node) (q : list word32) (lo n : nat) (ep : Cand) : result Cand :=
  match n with
  | O => Ok ep
  | S n' => ep' ← greedy_upper s ns q ep (lo + n); zoom_in s ns q lo n' ep'
  end.

(** The body of the loop that links the new node in layer [lc]. *)
Definition link_layer (s : VectorStore.t) (i : InternalId) (q : list word32) (lc : nat)
    (st : list Node * list Cand * Visited) : result (list Node * list Cand * Visited) :=
  let '(ns, entries, v) := st in
  wv ← search_layer s ns q entries (to_size (efConstruction params_)) lc None v;
  neighbors ← select_neighbors s wv.1 (to_size (M params_));
  ns ← for_cands (λ nb ns, connect i nb lc ns) neighbors ns;
  cap ← max_links lc;
  ns ← for_cands (λ nb ns, prune s nb lc cap ns) neighbors ns;
  Ok (ns, match wv.1 with [] => entries | w => w end, wv.2).

(** The layers [n - 1], ..., [0]. *)
Fixpoint link_layers (s : VectorStore.t) (i : InternalId) (q : list word32) (n : nat)
    (st : list Node * list Cand * Visited) : result (list Node * list Cand * Visited) :=
  match n with
  | O => Ok st
  | S lc => st' ← link_layer s i q lc st; link_layers s i q lc st'
  end.

(** [resize] of [nodes_] and [built_]. *)
Definition reserve_slot (i : InternalId) (ix : t) : t :=
  let needed := N.to_nat i + 1 in
  {| rng_ := rng_ ix;
     nodes_ := nodes_ ix ++ replicate (needed - length (nodes_ ix)) no_node;
     built_ := built_ ix ++ replicate (needed - length (nodes_ ix)) 0%N;
     entry_point_ := entry_point_ ix; max_level_ := max_level_ ix |}.

(** The new node, before it has links. *)
Definition place (i : InternalId) (lvl : Z) (g : rng) (ix : t) : result t :=
  ns ← set_at (nodes_ ix) (N.to_nat i) {| level := lvl; links := replicate (to_size lvl + 1) [] |};
  bs ← set_at (built_ ix) (N.to_nat i) 1%N;
  Ok {| rng_ := g; nodes_ := ns; built_ := bs; entry_point_ := entry_point_ ix; max_level_ := max_level_ ix |}.

(** The rest of [add], once there is an entry point. *)
Definition link_node (s : VectorStore.t) (i : InternalId) (q : list word32) (lvl : Z) (ix : t) : result t :=
  d ← dist_to s q (entry_point_ ix);
  ep ← zoom_in s (nodes_ ix) q (Z.to_nat lvl) (Z.to_nat (max_level_ ix - lvl))
         {| dist := d; cid := entry_point_ ix |};
  st ← link_layers s i q (Z.to_nat (Z.min lvl (max_level_ ix) + 1))
         (nodes_ ix, [ep], ensure (length (nodes_ ix)) no_visited);
  let higher := bool_decide (max_level_ ix < lvl)%Z in
  Ok {| rng_ := rng_ ix; nodes_ := st.1.1; built_ := built_ ix;
        entry_point_ := if higher then i else entry_point_ ix;
        max_level_ := if higher then lvl else max_level_ ix |}.

Definition add (s : VectorStore.t) (i : InternalId) (ix : t) : result t :=
  let ix := reserve_slot i ix in
  b ← at_ (built_ ix) (N.to_nat i);
  if decide (b ≠ 0%N) then Ok ix
  else
    q ← VectorStore.get s i;
    let '(lvl, g) := random_level (rng_ ix) in
    lvl ← lvl;
    ix ← place i lvl g ix;
    if decide (entry_point_ ix = kInvalidId) then
      Ok {| rng_ := rng_ ix; nodes_ := nodes_ ix; built_ := built_ ix; entry_point_ := i; max_level_ := lvl |}
    else link_node s i q lvl ix.

(** ** [search] *)

Definition search (s : VectorStore.t) (query : list word32) (k : nat) (params : SearchParams) (ix : t)
    : result (list SearchResult) :=
  if (k =? 0) || bool_decide (entry_point_ ix = kInvalidId) then Ok []
  else
    d ← dist_to s query (entry_point_ ix);
    ep ← zoom_in s (nodes_ ix) query 0 (Z.to_nat (max_level_ ix)) {| dist := d; cid := entry_point_ ix |};
    wv ← search_layer s (nodes_ ix) query [ep] (Nat.max (ef params) k) 0 (allowed params)
           (ensure (length (nodes_ ix)) no_visited);
    let w := std_sort far_on_top wv.1 in
    Ok ((λ c, {| id := cid c; score := dist c |}) <$> take k w).

(** ** Introspection *)

Definition node_count (ix : t) : nat := length (nodes_ ix).
Definition max_level (ix : t) : Z := max_level_ ix.
Definition entry_point (ix : t) : InternalId := entry_point_ ix.

Definition neighbor_count (ix : t) (id : InternalId) (layer : Z) : result nat :=
  n ← at_ (nodes_ ix) (N.to_nat id);
  es ← at_ (links n) (to_size layer);
  Ok (length es).

Definition node_level (ix : t) (id : InternalId) : result Z :=
  n ← at_ (nodes_ ix) (N.to_nat id);
  Ok (level n).

#[export] Instance hnsw_ops : IndexOps t := {|
  ix_make := make;
  ix_add s i _ ix := add s i ix;
  ix_remove _ ix := Ok ix;
  ix_search := search;
  ix_name := metric_name;
|}.
End Hnsw.
End Hnsw.
