(* ===== verification/HnswSearch.v ===== *)
(** * Searching the HNSW graph

    The greedy descent and the search of one layer: they end within their fuel,
    stay inside the graph, and return admitted nodes with their distances; a
    search as broad as the graph finds everything that its entries reach. *)
From S2P Require Import Prelude StdQueue Binary Distance Metadata Bitset VectorStore StoreSpec Index Hnsw.
Local Open Scope nat_scope.
Import VectorStore Hnsw.

(** ** Lists of ids *)

(** A filter that keeps strictly less is strictly shorter. *)
Lemma filter_shorter {A} (P Q : A → Prop) `{!∀ x, Decision (P x), !∀ x, Decision (Q x)} (l : list A) x :
  (∀ y, P y → Q y) → x ∈ l → Q x → ¬ P x → length (filter P l) < length (filter Q l).
Proof.
  intros HPQ Hx HQ HP. rewrite (filter_ext_elem P (λ y, P y ∧ Q y)) by naive_solver.
  rewrite <- list_filter_filter. apply (length_filter_lt P _ x); [|done].
  by apply list_elem_of_filter.
Qed.

(** Different ids below [n] are at most [n]. *)
Lemma ids_le n (l : list InternalId) :
  NoDup l → (∀ i, i ∈ l → N.to_nat i < n) → length l ≤ n.
Proof.
  intros Hnd Hl. trans (length (N.of_nat <$> seq 0 n)); [|by rewrite length_fmap, length_seq].
  apply submseteq_length, NoDup_submseteq; [done|]. intros i Hi. apply list_elem_of_fmap.
  exists (N.to_nat i). rewrite N2Nat.id. split; [done|]. apply elem_of_seq. specialize (Hl i Hi). lia.
Qed.

(** [n] different ids below [n] are all of them. *)
Lemma ids_all n (l : list InternalId) i :
  NoDup l → (∀ i, i ∈ l → N.to_nat i < n) → n ≤ length l → N.to_nat i < n → i ∈ l.
Proof.
  intros Hnd Hl Hn Hi. destruct (decide (i ∈ l)) as [|Hni]; [done|].
  assert (length (i :: l) ≤ n); [|cbn in *; lia].
  apply ids_le; [by constructor|]. intros j [->|Hj]%elem_of_cons; auto.
Qed.

Lemma elem_of_if {A} (b : bool) (x y : A) : y ∈ (if b then [x] else []) ↔ y = x ∧ b.
Proof. destruct b; [rewrite list_elem_of_singleton|rewrite elem_of_nil]; naive_solver. Qed.

(** ** The visited set *)

Definition seen (v : Visited) (i : InternalId) : Prop := stamp v !! N.to_nat i = Some (cur v).

#[export] Instance seen_dec v i : Decision (seen v i).
Proof. unfold seen. apply _. Defined.

(** [n] stamps, none of them from a later search. *)
Record vis_ok (n : nat) (v : Visited) : Prop := {
  vis_length : length (stamp v) = n;
  vis_stamps : Forall (λ x, (x ≤ cur v)%N) (stamp v);
  vis_cur : (cur v < 2 ^ 32)%N;
}.

Definition unseen (v : Visited) : nat := length (filter (λ x, x ≠ cur v) (stamp v)).

Lemma ensure_ok n : vis_ok n (ensure n no_visited).
Proof.
  split; cbn; [by rewrite length_replicate, Nat.sub_0_r| |done]. by apply Forall_replicate.
Qed.

(** Every search starts with nothing visited, also when the epoch wraps. *)
Lemma bump_ok n v : vis_ok n v → vis_ok n (bump v) ∧ ∀ i, ¬ seen (bump v) i.
Proof.
  intros [Hn Hs Hc]. unfold bump, seen. case_decide as E.
  - split; [split; cbn|].
    + by rewrite length_replicate.
    + by apply Forall_replicate.
    + done.
    + intros i. cbn. by intros [[=] _]%lookup_replicate.
  - assert (cur v + 1 < 2 ^ 32)%N as Hlt.
    { destruct (decide (cur v + 1 = 2 ^ 32)%N) as [E'|]; [|lia]. by rewrite E' in E. }
    rewrite N.mod_small in * by done. split; [split; cbn; [done| |lia]|].
    + eapply Forall_impl; [done|]. cbn. lia.
    + intros i Hi. cbn in Hi. rewrite Forall_lookup in Hs. apply Hs in Hi. lia.
Qed.

Lemma test_set_seen n v i :
  vis_ok n v → seen v i → test_set i v = Ok (true, v).
Proof. intros _ Hi. unfold test_set, at_. rewrite Hi. cbn. by rewrite decide_True. Qed.

Lemma test_set_new n v i :
  vis_ok n v → N.to_nat i < n → ¬ seen v i →
  ∃ v', test_set i v = Ok (false, v') ∧ vis_ok n v' ∧ unseen v = S (unseen v') ∧
    ∀ j, seen v' j ↔ j = i ∨ seen v j.
Proof.
  intros [Hn Hs Hc] Hi Hni. unfold test_set, seen in *.
  destruct (at_lt (stamp v) (N.to_nat i)) as (x & -> & Hx); [lia|]. cbn.
  rewrite decide_False by congruence. rewrite set_at_lt by lia. cbn.
  eexists. split; [done|]. split_and!; [split; cbn| |].
  - by rewrite length_insert.
  - by apply Forall_insert.
  - done.
  - unfold unseen; cbn. rewrite insert_take_drop by lia.
    rewrite <- (take_drop_middle _ _ _ Hx) at 1. rewrite !filter_app, !length_app, !filter_cons.
    rewrite decide_True, decide_False by naive_solver. cbn. lia.
  - intros j. cbn. destruct (decide (j = i)) as [->|Hj].
    + rewrite list_lookup_insert_eq by lia. naive_solver.
    + rewrite list_lookup_insert_ne by lia. naive_solver.
Qed.

Lemma unseen_le n v : vis_ok n v → unseen v ≤ n.
Proof. intros [<- _ _]. apply length_filter. Qed.

(** ** The graph *)

(** Node [i] exists in layer [l]. *)
Definition in_layer (ns : list Node) (l : nat) (i : InternalId) : Prop :=
  ∃ n, ns !! N.to_nat i = Some n ∧ l < length (links n).

(** [j] is a neighbour of [i] in layer [l]. *)
Definition linked (ns : list Node) (l : nat) (i j : InternalId) : Prop :=
  ∃ n es, ns !! N.to_nat i = Some n ∧ links n !! l = Some es ∧ j ∈ es.

(** A part of a layer that its links do not leave. *)
Record layer_part (ns : list Node) (l : nat) (part : InternalId → Prop) : Prop := {
  part_in i : part i → in_layer ns l i;
  part_closed i j : part i → linked ns l i j → part j;
}.

Lemma in_layer_lt ns l i : in_layer ns l i → N.to_nat i < length ns.
Proof. intros (n & Hn & _). by eapply lookup_lt_Some. Qed.

Lemma in_layer_le ns l l' i : l' ≤ l → in_layer ns l i → in_layer ns l' i.
Proof. intros Hl (n & Hn & ?). exists n. split; [done|lia]. Qed.

(** Every node has a distance to the query. *)
Definition dists_ok `{!DistanceMetric} (s : VectorStore.t) (q : list word32) (n : nat) : Prop :=
  ∀ i, N.to_nat i < n → ∃ d, dist_to s q i = Ok d ∧ not_nan d.

Lemma dists_ok_tame `{!DistanceMetric} (valid : list word32 → Prop) `{!MetricTame _ valid} s q n :
  wf s → vecs_ok valid s → valid q → length q = N.to_nat (dim_ s) → n ≤ slot_count s → dists_ok s q n.
Proof.
  intros Hwf Hv Hq Hlen Hn i Hi. destruct (get_Ok s i Hwf) as (v & Hg & Hl); [lia|].
  unfold dist_to. rewrite Hg. cbn. apply metric_tame; try done. apply (Hv i); [lia|done].
Qed.

(** Candidates with a number as distance. *)
Definition numbered (c : Cand) : Prop := not_nan (dist c).

#[export] Instance far_swo : StrictWeakOrder far_on_top numbered.
Proof.
  split.
  - intros x. apply flt_irrefl.
  - intros x y z. apply flt_trans.
  - intros x y z Hy Hxz. by apply flt_cotrans.
Qed.

#[export] Instance near_swo : StrictWeakOrder near_on_top numbered := swo_flip far_on_top numbered far_swo.

Section Layer.
Context {Met : DistanceMetric} (s : VectorStore.t) (ns : list Node) (q : list word32) (l : nat).
Context (part : InternalId → Prop).
Context (Hdist : dists_ok s q (length ns)) (Hpart : layer_part ns l part).

(** A node of the part with its distance to the query. *)
Record cand_ok (c : Cand) : Prop := {
  cand_in : part (cid c);
  cand_dist : dist_to s q (cid c) = Ok (dist c);
  cand_numbered : numbered c;
}.

Lemma cand_lt c : cand_ok c → N.to_nat (cid c) < length ns.
Proof. intros [H _ _]. by eapply in_layer_lt, part_in. Qed.

Lemma cand_make i : part i → ∃ d, dist_to s q i = Ok d ∧ cand_ok {| dist := d; cid := i |}.
Proof. intros Hi. destruct (Hdist i) as (d & Hd & Hn); [by eapply in_layer_lt, part_in|]. exists d. done. Qed.

Lemma cand_inj c c' : cand_ok c → cand_ok c' → cid c = cid c' → c = c'.
Proof. intros [_ Hc _] [_ Hc' _] E. rewrite E in Hc. destruct c, c'; cbn in *; congruence. Qed.

(** ** The greedy descent *)

Lemma greedy_scan_spec es best changed :
  (∀ e, e ∈ es → part e) →
  ∃ best' changed', greedy_scan s q es best changed = Ok (best', changed') ∧
    (best' = best ∧ changed' = changed ∨
     flt (dist best') (dist best) ∧ changed' = true ∧ cand_ok best') ∧
    ∀ e d, e ∈ es → dist_to s q e = Ok d → ¬ flt d (dist best').
Proof.
  revert best changed. induction es as [|e es IH]; intros best changed Hes; cbn.
  { exists best, changed. split; [done|]. split; [by left|]. by intros e d ?%elem_of_nil. }
  destruct (cand_make e) as (d & Hd & Hc); [apply Hes; set_solver|]. rewrite Hd. cbn.
  destruct (flt d (dist best)) eqn:E.
  - destruct (IH {| dist := d; cid := e |} true) as (b & ch & -> & Hb & Hmin); [set_solver|].
    exists b, ch. split; [done|]. split.
    + right. destruct Hb as [[-> ->]|(Hlt & -> & Hb)]; cbn in *; (split_and!; [|done|done]).
      * by rewrite E.
      * apply (flt_trans _ d); [done|by rewrite E].
    + intros e' d' [->|He']%elem_of_cons Hd'; [|by eauto]. rewrite Hd in Hd'. injection Hd' as <-.
      destruct Hb as [[-> _]|(Hlt & _)]; [apply flt_irrefl|by apply flt_asym].
  - destruct (IH best changed) as (b & ch & -> & Hb & Hmin); [set_solver|].
    exists b, ch. split; [done|]. split; [done|].
    intros e' d' [->|He']%elem_of_cons Hd' Hlt; [|by eapply Hmin]. rewrite Hd in Hd'. injection Hd' as <-.
    assert (flt d (dist best)) as Hbest; [|by rewrite E in Hbest].
    destruct Hb as [[-> _]|(Hb & _)]; [done|by apply (flt_trans _ (dist b))].
Qed.

(** The nodes closer than [b]: what is left for the descent. *)
Definition closer_than (b : Score) (i : nat) : Prop :=
  match dist_to s q (N.of_nat i) with Ok d => flt d b | Throw _ => False end.

#[local] Instance closer_than_dec b i : Decision (closer_than b i).
Proof. unfold closer_than. destruct (dist_to s q (N.of_nat i)); apply _. Defined.

Definition below (b : Score) : nat := length (filter (closer_than b) (seq 0 (length ns))).

Lemma below_lt c b : cand_ok c → flt (dist c) b → below (dist c) < below b.
Proof.
  intros Hc Hlt. apply (filter_shorter _ _ _ (N.to_nat (cid c))).
  - intros i. unfold closer_than. destruct (dist_to s q (N.of_nat i)); [|done].
    intros H. by apply (flt_trans _ (dist c)).
  - apply elem_of_seq. pose proof (cand_lt c Hc). lia.
  - unfold closer_than. by rewrite N2Nat.id, (cand_dist c Hc).
  - unfold closer_than. rewrite N2Nat.id, (cand_dist c Hc). apply flt_irrefl.
Qed.

(** No neighbour of [b] in the layer is closer to the query. *)
Definition local_min (b : Cand) : Prop :=
  ∀ e d, linked ns l (cid b) e → dist_to s q e = Ok d → ¬ flt d (dist b).

Lemma greedy_loop_spec fuel best :
  cand_ok best → below (dist best) < fuel →
  ∃ b, greedy_loop fuel s ns q l best = Ok b ∧ cand_ok b ∧ local_min b ∧
    (b = best ∨ flt (dist b) (dist best)).
Proof.
  revert best. induction fuel as [|fuel IH]; intros best Hb Hf; [lia|]. cbn [greedy_loop].
  destruct (part_in _ _ _ Hpart _ (cand_in best Hb)) as (n & Hn & Hl).
  unfold at_. rewrite Hn. cbn. apply lookup_lt_is_Some in Hl as [es Hes]. rewrite Hes.
  destruct (greedy_scan_spec es best false) as (b & ch & -> & Hcase & Hmin).
  { intros e He. apply (part_closed _ _ _ Hpart (cid best)); [apply Hb|]. by exists n, es. }
  cbn. destruct Hcase as [[-> ->]|(Hlt & -> & Hb')].
  - exists best. split_and!; [done|done| |by left].
    intros e d (n' & es' & Hn' & Hes' & He). apply Hmin. congruence.
  - destruct (IH b Hb') as (b' & -> & Hok & Hloc & Hle).
    { pose proof (below_lt b _ Hb' Hlt). lia. }
    exists b'. split_and!; try done. right.
    destruct Hle as [->|Hle]; [done|]. by apply (flt_trans _ (dist b)).
Qed.

Lemma greedy_upper_spec best :
  cand_ok best →
  ∃ b, greedy_upper s ns q best l = Ok b ∧ cand_ok b ∧ local_min b ∧
    (b = best ∨ flt (dist b) (dist best)).
Proof.
  intros Hb. apply greedy_loop_spec; [done|]. unfold below.
  pose proof (length_filter (closer_than (dist best)) (seq 0 (length ns))) as H.
  rewrite length_seq in H. lia.
Qed.

(** From a node of the layer the greedy descent terminates, stays in the
    layer, and ends at a local minimum: a node with its true distance, not
    farther than the start, none of whose neighbours is closer to the query. *)
Theorem greedy_upper_local_min (best : Cand) :
  cand_ok best →
  ∃ b, greedy_upper s ns q best l = Ok b ∧ cand_ok b ∧ local_min b ∧ (b = best ∨ flt (dist b) (dist best)).
Proof. apply greedy_upper_spec. Qed.

(** ** The search of a layer *)

Context {PQn : PQueue near_on_top} {PQf : PQueue far_on_top}.
Context {PLn : PQueueLaws near_on_top numbered} {PLf : PQueueLaws far_on_top numbered}.
Context (p : SearchParams) (Hp : params_wf p) (ef_ : nat).

Lemma admit_id_spec i : admit_id s (allowed p) i = Ok (eligible s p i).
Proof. unfold admit_id, eligible. rewrite test_allowed by done. by destruct (is_live s i). Qed.

Definition cands (st : Frontier) : list InternalId := cid <$> pq_elems (cand st).
Definition found (st : Frontier) : list InternalId := cid <$> pq_elems (res st).

(** The invariant of the search: both heaps hold visited nodes of the layer, the
    results are admitted and at most [cap]. *)
Record frontier_ok (cap : nat) (st : Frontier) : Prop := {
  fr_cand : pq_ok (cand st);
  fr_res : pq_ok (res st);
  fr_vis : vis_ok (length ns) (vis st);
  fr_cands c : c ∈ pq_elems (cand st) → cand_ok c ∧ seen (vis st) (cid c);
  fr_found c : c ∈ pq_elems (res st) → cand_ok c ∧ seen (vis st) (cid c) ∧ eligible s p (cid c);
  fr_nodup : NoDup (found st);
  fr_length : length (found st) ≤ cap;
}.

Lemma found_size st : pq_size (res st) = length (found st).
Proof. unfold found. by rewrite length_fmap. Qed.

Lemma found_lt cap st i : frontier_ok cap st → i ∈ found st → N.to_nat i < length ns.
Proof.
  intros Hst (c & -> & Hc)%list_elem_of_fmap. apply cand_lt. by apply (fr_found cap st Hst).
Qed.

(** What is left to do: frontier entries to expand and nodes to visit. *)
Definition todo (st : Frontier) : nat := pq_size (cand st) + unseen (vis st).

(** [keep] adds the candidate and drops at most the farthest. *)
Lemma keep_spec ef c (r : pq far_on_top) :
  numbered c → pq_ok r →
  pq_ok (keep ef c r) ∧
  if decide (pq_size r < ef) then pq_elems (keep ef c r) ≡ₚ c :: pq_elems r
  else ∃ w, c :: pq_elems r ≡ₚ w :: pq_elems (keep ef c r).
Proof.
  intros Hc Hr. unfold keep. set (r' := pq_push c r).
  assert (pq_ok r') as Hr' by (by apply pq_push_ok).
  assert (pq_elems r' ≡ₚ c :: pq_elems r) as Hp' by (by apply pq_push_elems).
  pose proof (Permutation_length Hp') as Hl. cbn in Hl. unfold pq_size in *.
  destruct (Nat.ltb_spec ef (length (pq_elems r'))); case_decide; try lia; [|done].
  destruct (pq_top_max r' Hr') as (w & _ & Hw & Hok & _); [by intros E; rewrite E in Hl|].
  split; [done|]. exists w. by rewrite <- Hw, Hp'.
Qed.

(** The results after a new node [c] is offered to them. *)
Lemma offer_found cap st c :
  frontier_ok cap st → cand_ok c → ef_ ≤ cap → ¬ seen (vis st) (cid c) →
  let r := if eligible s p (cid c) then keep ef_ c (res st) else res st in
  pq_ok r ∧ NoDup (cid <$> pq_elems r) ∧ pq_size r ≤ cap ∧
  (∀ x, x ∈ pq_elems r → x = c ∧ eligible s p (cid c) ∨ x ∈ pq_elems (res st)) ∧
  (length (found st) < ef_ → pq_elems r ≡ₚ (if eligible s p (cid c) then [c] else []) ++ pq_elems (res st)).
Proof.
  intros Hst Hc Hcap Hns. pose proof (fr_length cap st Hst) as Hlen. rewrite <- found_size in *.
  destruct (eligible s p (cid c)) eqn:El; cbn; [|split_and!; auto; apply Hst].
  destruct (keep_spec ef_ c (res st)) as [Hok Hk]; [apply Hc|apply Hst|].
  assert (NoDup (cid <$> c :: pq_elems (res st))) as Hnd.
  { cbn. constructor; [|apply Hst]. intros (x & E & Hx)%list_elem_of_fmap.
    apply Hns. rewrite E. by apply (fr_found cap st Hst). }
  case_decide as Hs; [|destruct Hk as [w Hk]; rewrite Hk in Hnd; apply NoDup_cons in Hnd as [_ Hnd]].
  - split_and!; [done|by rewrite Hk| |intros x; rewrite Hk; set_solver|done].
    unfold pq_size in *. rewrite Hk. cbn. lia.
  - split_and!; [done|done| | |done].
    + apply Permutation_length in Hk. unfold pq_size in *. cbn in Hk. lia.
    + intros x Hx. assert (x ∈ c :: pq_elems (res st)) as Hx' by (rewrite Hk; set_solver). set_solver.
Qed.

(** What one visit does to the frontier. *)
Record visited (cap : nat) (e : InternalId) (st st' : Frontier) : Prop := {
  vd_ok : frontier_ok cap st';
  vd_seen j : seen (vis st') j ↔ j = e ∨ seen (vis st) j;
  vd_todo : todo st' ≤ todo st;
  vd_cands i : i ∈ cands st → i ∈ cands st';
  vd_found i : length (found st) < ef_ ∨ seen (vis st) e → i ∈ found st → i ∈ found st';
  vd_new : length (found st) < ef_ → ¬ seen (vis st) e → e ∈ cands st' ∧ (eligible s p e → e ∈ found st');
}.

Lemma visit_push cap st c v' :
  frontier_ok cap st → cand_ok c → ef_ ≤ cap → ¬ seen (vis st) (cid c) →
  vis_ok (length ns) v' → unseen (vis st) = S (unseen v') →
  (∀ j, seen v' j ↔ j = cid c ∨ seen (vis st) j) →
  visited cap (cid c) st {| cand := pq_push c (cand st);
    res := if eligible s p (cid c) then keep ef_ c (res st) else res st; vis := v' |}.
Proof.
  intros Hst Hc Hcap Hns Hv' Hun Hseen.
  destruct (offer_found cap st c Hst Hc Hcap Hns) as (Hok & Hnd & Hlen & Hin & Hfull).
  destruct Hst as [Hfc Hfr Hfv Hcs Hfs Hfn Hfl].
  assert (pq_elems (pq_push c (cand st)) ≡ₚ c :: pq_elems (cand st)) as Hpush
    by (apply pq_push_elems; [apply Hc|done]).
  split; cbn; [split; cbn|done| | | |].
  - apply pq_push_ok; [apply Hc|done].
  - done.
  - done.
  - intros x. rewrite Hpush. intros [->|Hx]%elem_of_cons; rewrite Hseen; [by auto|].
    destruct (Hcs x Hx). auto.
  - intros x [[-> ?]|Hx]%Hin; rewrite Hseen; [by auto|]. destruct (Hfs x Hx) as (? & ? & ?). auto.
  - done.
  - by rewrite <- found_size.
  - unfold todo, pq_size; cbn. rewrite Hpush. cbn. lia.
  - intros i. unfold cands; cbn. rewrite Hpush. set_solver.
  - intros i [Hl|?]; [|done]. unfold found; cbn. rewrite Hfull by done. rewrite fmap_app. set_solver.
  - intros Hl _. unfold cands, found; cbn. rewrite Hpush, Hfull by done. split; [set_solver|].
    intros El. destruct (eligible s p (cid c)); [cbn; set_solver|done].
Qed.

(** Marking a visited node only. *)
Lemma visit_mark cap st e v' :
  frontier_ok cap st → vis_ok (length ns) v' → unseen v' ≤ unseen (vis st) →
  (∀ j, seen v' j ↔ j = e ∨ seen (vis st) j) → (length (found st) < ef_ → seen (vis st) e) →
  visited cap e st {| cand := cand st; res := res st; vis := v' |}.
Proof.
  intros [Hfc Hfr Hfv Hcs Hfs Hfn Hfl] Hv' Hun Hseen Hold.
  split; cbn; [split; cbn; try done|done|unfold todo; cbn; lia|done|done|by intros Hl []; apply Hold].
  - intros x Hx. destruct (Hcs x Hx). rewrite Hseen. auto.
  - intros x Hx. destruct (Hfs x Hx) as (? & ? & ?). rewrite Hseen. auto.
Qed.

Lemma res_bound_spec cap st :
  frontier_ok cap st →
  ∃ b, res_bound (res st) = Ok b ∧
    (found st ≠ [] → ∀ c, c ∈ pq_elems (res st) → ¬ flt b (dist c)).
Proof.
  intros Hst. unfold res_bound. rewrite found_size. destruct (Nat.eqb_spec (length (found st)) 0) as [E|E].
  - exists f_max. split; [done|]. by destruct (found st).
  - destruct (pq_top_max (res st)) as (w & -> & _ & _ & Hmax); [apply Hst| |].
    { intros E'. unfold found in E. by rewrite E' in E. }
    exists (dist w). split; [done|]. intros _. apply Hmax.
Qed.

Lemma visit_link_spec cap st e :
  frontier_ok cap st → part e → ef_ ≤ cap →
  ∃ st', visit_link s q ef_ (allowed p) e st = Ok st' ∧ visited cap e st st'.
Proof.
  intros Hst He Hcap. pose proof (fr_vis cap st Hst) as Hv. unfold visit_link.
  destruct (decide (seen (vis st) e)) as [Hs|Hs].
  - rewrite (test_set_seen _ _ _ Hv Hs). cbn. eexists. split; [done|].
    apply visit_mark; [done|done|done| |done]. naive_solver.
  - destruct (test_set_new _ _ e Hv) as (v' & -> & Hv' & Hun & Hseen); [by eapply in_layer_lt, part_in|done|].
    cbn [mbind result_bind fst snd]. destruct (cand_make e He) as (d & -> & Hc). cbn [mbind result_bind].
    destruct (res_bound_spec cap st Hst) as (b & -> & _). rewrite admit_id_spec. cbn [mbind result_bind].
    destruct ((pq_size (res st) <? ef_) || flt d b) eqn:El; (eexists; split; [done|]).
    + by apply (visit_push cap st {| dist := d; cid := e |}).
    + apply visit_mark; [done|done|lia|done|].
      apply orb_false_iff in El as [El _]. apply Nat.ltb_ge in El. rewrite found_size in El. lia.
Qed.

(** *** A search as broad as the graph *)

(** While nothing is dropped from the results: every visited node that is
    admitted is a result; the links of every visited node outside the frontier
    (and outside [X]) are visited; everything visited is reached from [starts]. *)
Record exhaustive (starts : list InternalId) (X : InternalId → Prop) (st : Frontier) : Prop := {
  ex_found i : seen (vis st) i → eligible s p i → i ∈ found st;
  ex_links i j : seen (vis st) i → ¬ X i → i ∉ cands st → linked ns l i j → seen (vis st) j;
  ex_reached i : seen (vis st) i → ∃ i0, i0 ∈ starts ∧ rtc (linked ns l) i0 i;
  ex_starts i : i ∈ starts → seen (vis st) i;
}.

(** A node that was not visited leaves room among the results. *)
Lemma found_room cap st e :
  frontier_ok cap st → length ns ≤ ef_ → part e → ¬ seen (vis st) e → length (found st) < ef_.
Proof.
  intros Hst Hef He%(part_in _ _ _ Hpart)%in_layer_lt Hns. assert (length (e :: found st) ≤ length ns); [|cbn in *; lia].
  apply ids_le.
  - constructor; [|apply Hst]. intros (x & -> & Hx)%list_elem_of_fmap. by apply Hns, (fr_found cap st Hst).
  - intros i [->|Hi]%elem_of_cons; [done|by eapply found_lt].
Qed.

Lemma visit_exhaustive cap st st' e starts X :
  frontier_ok cap st → length ns ≤ ef_ → part e → visited cap e st st' →
  (∃ i, seen (vis st) i ∧ linked ns l i e) → exhaustive starts X st → exhaustive starts X st'.
Proof.
  intros Hst Hef He Hvd (i0 & Hi0 & Hie) [Hf Hl Hr Hs].
  assert (∀ i, i ∈ found st → i ∈ found st') as Hfound.
  { intros i. apply (vd_found _ _ _ _ Hvd). destruct (decide (seen (vis st) e)); [by right|].
    left. by eapply found_room. }
  assert (¬ seen (vis st) e → e ∈ cands st' ∧ (eligible s p e → e ∈ found st')) as Hnew.
  { intros Hns. apply (vd_new _ _ _ _ Hvd); [|done]. by eapply found_room. }
  split; intros i.
  - intros [->|Hi]%(vd_seen _ _ _ _ Hvd); [|by auto].
    destruct (decide (seen (vis st) e)) as [|Hns]; [by auto|]. by apply Hnew.
  - intros j [->|Hi]%(vd_seen _ _ _ _ Hvd) HX Hc Hij; apply (vd_seen _ _ _ _ Hvd); right.
    + destruct (decide (seen (vis st) e)) as [|Hns]; [|by destruct Hc; apply Hnew].
      apply (Hl e); [done|done| |done]. intros H. by apply Hc, (vd_cands _ _ _ _ Hvd).
    + apply (Hl i); [done|done| |done]. intros H. by apply Hc, (vd_cands _ _ _ _ Hvd).
  - intros [->|Hi]%(vd_seen _ _ _ _ Hvd); [|by auto].
    destruct (Hr i0 Hi0) as (i1 & ? & ?). exists i1. split; [done|]. by eapply rtc_r.
  - intros Hi. apply (vd_seen _ _ _ _ Hvd). auto.
Qed.

(** Visiting all links of a node. *)
Record visited_all (cap : nat) (es : list InternalId) (st st' : Frontier) : Prop := {
  va_ok : frontier_ok cap st';
  va_seen j : seen (vis st') j ↔ j ∈ es ∨ seen (vis st) j;
  va_todo : todo st' ≤ todo st;
  va_exhaustive starts X : length ns ≤ ef_ → (∀ e, e ∈ es → ∃ i, seen (vis st) i ∧ linked ns l i e) →
    exhaustive starts X st → exhaustive starts X st';
}.

Lemma visit_links_spec cap st es :
  frontier_ok cap st → (∀ e, e ∈ es → part e) → ef_ ≤ cap →
  ∃ st', visit_links s q ef_ (allowed p) es st = Ok st' ∧ visited_all cap es st st'.
Proof.
  revert st. induction es as [|e es IH]; intros st Hst Hes Hcap; cbn [visit_links].
  - exists st. split; [done|]. split; [done| |done|done]. set_solver.
  - destruct (visit_link_spec cap st e Hst) as (st1 & -> & Hvd); [set_solver|done|]. cbn.
    pose proof (vd_seen _ _ _ _ Hvd) as Hs. pose proof (vd_todo _ _ _ _ Hvd) as Ht.
    destruct (IH st1) as (st2 & -> & [Hok2 Hs2 Ht2 He2]); [by eapply vd_ok|set_solver|done|].
    exists st2. split; [done|]. split; [done| |lia|].
    + intros j. rewrite Hs2, Hs. set_solver.
    + intros starts X Hef Hlink Hex. apply He2; [done| |].
      * intros e' He'. destruct (Hlink e') as (i & Hi & ?); [set_solver|]. exists i. rewrite Hs. auto.
      * apply (visit_exhaustive cap st st1 e); try done; [apply Hes; left|apply Hlink; left].
Qed.

(** The state after the closest frontier node is taken. *)
Definition popped (st : Frontier) : Frontier := {| cand := pq_pop (cand st); res := res st; vis := vis st |}.

Lemma pop_spec cap st :
  frontier_ok cap st → pq_size (cand st) ≠ 0 →
  ∃ c, pq_top (cand st) = Ok c ∧ cand_ok c ∧ seen (vis st) (cid c) ∧ frontier_ok cap (popped st) ∧
    cands st ≡ₚ cid c :: cands (popped st) ∧ S (todo (popped st)) = todo st.
Proof.
  intros [Hfc Hfr Hfv Hcs Hfs Hfn Hfl] Hn.
  destruct (pq_top_max (cand st) Hfc) as (c & -> & Hperm & Hok & _).
  { intros E. unfold pq_size in Hn. by rewrite E in Hn. }
  exists c. split; [done|].
  assert (∀ x, x ∈ pq_elems (cand st) ↔ x = c ∨ x ∈ pq_elems (pq_pop (cand st))) as Hin
    by (intros x; by rewrite Hperm, elem_of_cons).
  destruct (Hcs c) as [? ?]; [apply Hin; auto|]. split_and!; [done|done| | |].
  - split; try done. intros x Hx. apply Hcs, Hin. auto.
  - unfold cands, popped; cbn. by rewrite Hperm.
  - unfold todo, popped, pq_size; cbn. rewrite Hperm. cbn. lia.
Qed.

(** A search as broad as the graph does not stop at a full heap. *)
Lemma no_early_stop cap st c b :
  frontier_ok cap st → length ns ≤ ef_ → cand_ok c →
  (found st ≠ [] → ∀ x, x ∈ pq_elems (res st) → ¬ flt b (dist x)) →
  (ef_ <=? pq_size (res st)) && fgt (dist c) b = false.
Proof.
  intros Hst Hef Hc Hb. apply andb_false_iff. rewrite found_size.
  destruct (Nat.leb_spec ef_ (length (found st))) as [Hle|]; [right|by left].
  assert (cid c ∈ found st) as Hin.
  { apply (ids_all (length ns)); [apply Hst|by intros i; eapply found_lt|lia|by apply cand_lt]. }
  pose proof Hin as (x & E & Hx)%list_elem_of_fmap.
  assert (c = x) as -> by (apply cand_inj; [done|by apply (fr_found cap st Hst)|done]).
  destruct (fgt (dist x) b) eqn:Hgt; [|done]. exfalso.
  apply (Hb ltac:(intros E'; rewrite E' in Hin; by apply elem_of_nil in Hin) x Hx).
  unfold fgt in Hgt. by rewrite Hgt.
Qed.

(** The expansion ends before its fuel does. *)
Lemma expand_spec cap fuel st :
  frontier_ok cap st → ef_ ≤ cap → todo st < fuel →
  ∃ st', expand fuel s ns q ef_ l (allowed p) st = Ok st' ∧ frontier_ok cap st' ∧
    ∀ starts, length ns ≤ ef_ → exhaustive starts (λ _, False) st →
      exhaustive starts (λ _, False) st' ∧ cands st' = [].
Proof.
  revert st. induction fuel as [|fuel IH]; intros st Hst Hcap Hf; [lia|]. cbn [expand].
  destruct (Nat.eqb_spec (pq_size (cand st)) 0) as [H0|Hn].
  { exists st. split_and!; try done. intros starts _ Hex. split; [done|].
    unfold cands. unfold pq_size in H0. by destruct (pq_elems (cand st)). }
  destruct (pop_spec cap st Hst Hn) as (c & -> & Hc & Hcs & Hpop & Hperm & Ht). cbn [mbind result_bind].
  fold (popped st). destruct (res_bound_spec cap _ Hpop) as (b & -> & Hb). cbn [mbind result_bind].
  destruct (_ && _) eqn:Estop.
  { exists (popped st). split_and!; try done. intros starts Hef _.
    by rewrite (no_early_stop cap (popped st) c b) in Estop. }
  destruct (part_in _ _ _ Hpart _ (cand_in c Hc)) as (n & Hn' & Hl).
  unfold at_. rewrite Hn'. cbn [mbind result_bind]. apply lookup_lt_is_Some in Hl as [es Hes]. rewrite Hes.
  assert (∀ e, e ∈ es → linked ns l (cid c) e) as Hlink by (intros e He; by exists n, es).
  destruct (visit_links_spec cap (popped st) es Hpop) as (st1 & -> & [Hok Hs1 Ht1 Hex1]); [|done|].
  { intros e He. eapply (part_closed _ _ _ Hpart); [apply Hc|by apply Hlink]. }
  cbn [mbind result_bind]. destruct (IH st1) as (st2 & -> & Hok2 & Hex2); [done|done|lia|].
  exists st2. split_and!; [done|done|]. intros starts Hef [Ef El Er Es]. apply Hex2; [done|].
  destruct (Hex1 starts (eq (cid c)) Hef) as [Ef1 El1 Er1 Es1].
  { intros e He. exists (cid c). auto. }
  { split; [done| |done|done]. intros i j Hi Hne Hni. apply El; [done|auto|]. rewrite Hperm. set_solver. }
  split; [done| |done|done]. intros i j Hi _ Hni Hij. destruct (decide (cid c = i)) as [<-|Hne].
  - apply Hs1. left. destruct Hij as (n' & es' & H1 & H2 & H3). congruence.
  - by apply (El1 i).
Qed.

(** The entries. *)
Lemma push_entries_spec cap es st :
  frontier_ok cap st → length es + length (found st) ≤ cap →
  (∀ e, e ∈ es → cand_ok e ∧ ¬ seen (vis st) (cid e)) → NoDup (cid <$> es) →
  ∃ st', push_entries s (allowed p) es st = Ok st' ∧ frontier_ok cap st' ∧
    todo st' ≤ todo st ∧
    (∀ j, seen (vis st') j ↔ j ∈ cid <$> es ∨ seen (vis st) j) ∧
    (∀ j, j ∈ cands st' ↔ j ∈ cid <$> es ∨ j ∈ cands st) ∧
    ∀ j, j ∈ found st' ↔ j ∈ cid <$> es ∧ eligible s p j ∨ j ∈ found st.
Proof.
  revert st. induction es as [|e es IH]; intros st Hst Hl Hes Hnd; cbn [push_entries].
  { exists st. split_and!; try done; set_solver. }
  destruct (Hes e) as [He Hns]; [set_solver|]. cbn in Hnd. apply NoDup_cons in Hnd as [Hne Hnd].
  pose proof Hst as [Hfc Hfr Hfv Hcs Hfs Hfn Hfl].
  destruct (test_set_new _ _ (cid e) Hfv) as (v' & Htv & Hv' & Hun & Hseen); [by apply cand_lt|done|].
  unfold push_entry. rewrite Htv. cbn [mbind result_bind]. rewrite admit_id_spec. cbn [mbind result_bind].
  set (st1 := {| cand := _; res := _; vis := _ |}).
  assert (pq_elems (cand st1) ≡ₚ e :: pq_elems (cand st)) as Hc1 by (apply pq_push_elems; [apply He|done]).
  assert (pq_elems (res st1) ≡ₚ (if eligible s p (cid e) then [e] else []) ++ pq_elems (res st)) as Hr1.
  { subst st1; cbn. destruct (eligible s p (cid e)); [|done]. apply pq_push_elems; [apply He|done]. }
  assert (cid e ∉ found st) as Hef.
  { intros (x & E & Hx)%list_elem_of_fmap. apply Hns. rewrite E. by apply (fr_found cap st Hst). }
  assert (found st1 ≡ₚ (if eligible s p (cid e) then [cid e] else []) ++ found st) as Hf1.
  { unfold found. rewrite Hr1, fmap_app. by destruct (eligible s p (cid e)). }
  destruct (IH st1) as (st2 & -> & Hok & Ht & Hs & Hcj & Hfj); [| | |done|].
  - split.
    + apply pq_push_ok; [apply He|done].
    + subst st1; cbn. destruct (eligible s p (cid e)); [apply pq_push_ok; [apply He|done]|done].
    + done.
    + intros x. rewrite Hc1. intros [->|Hx]%elem_of_cons; cbn; rewrite Hseen; [by auto|].
      destruct (Hcs x Hx). auto.
    + intros x. rewrite Hr1, elem_of_app. cbn. rewrite Hseen. intros [Hx|Hx].
      * destruct (eligible s p (cid e)) eqn:El; [|by apply elem_of_nil in Hx].
        apply list_elem_of_singleton in Hx as ->. rewrite El. auto.
      * destruct (Hfs x Hx) as (? & ? & ?). auto.
    + rewrite Hf1. destruct (eligible s p (cid e)); [by constructor|done].
    + rewrite Hf1, length_app. destruct (eligible s p (cid e)); cbn in *; lia.
  - rewrite Hf1, length_app. destruct (eligible s p (cid e)); cbn in *; lia.
  - intros x Hx. destruct (Hes x) as [? Hnsx]; [set_solver|]. split; [done|]. change (vis st1) with v'. rewrite Hseen.
    intros [E|]; [|done]. apply Hne. rewrite <- E. apply list_elem_of_fmap. eauto.
  - exists st2. split_and!; [done|done| | | |].
    + unfold todo in *. subst st1. cbn in Ht. unfold pq_size in *. cbn in Hc1. rewrite Hc1 in Ht. cbn in Ht. lia.
    + intros j. rewrite Hs. change (vis st1) with v'. rewrite Hseen. set_solver.
    + intros j. rewrite Hcj. unfold cands at 1. rewrite Hc1. set_solver.
    + intros j. rewrite Hfj, Hf1, elem_of_app, elem_of_if, fmap_cons, elem_of_cons. naive_solver.
Qed.

(** What the search of a layer returns. *)
Record layer_result (cap : nat) (out : list Cand) : Prop := {
  lr_ok c : c ∈ out → cand_ok c ∧ eligible s p (cid c);
  lr_nodup : NoDup (cid <$> out);
  lr_length : length out ≤ cap;
}.

(** When the frontier is empty, the results are all that is reached. *)
Lemma starts_result cap st entries i :
  frontier_ok cap st → exhaustive (cid <$> entries) (λ _, False) st ∧ cands st = [] →
  i ∈ found st ↔ eligible s p i ∧ ∃ e, e ∈ entries ∧ rtc (linked ns l) (cid e) i.
Proof.
  intros Hst [[Hf Hl Hr Hs] Hc]. split.
  - intros (x & -> & Hx)%list_elem_of_fmap. destruct (fr_found cap st Hst x Hx) as (_ & Hseen & El).
    split; [done|]. destruct (Hr _ Hseen) as (i0 & (e & -> & He)%list_elem_of_fmap & Hrtc). eauto.
  - intros (El & e & He & Hrtc). apply Hf; [|done].
    assert (seen (vis st) (cid e)) as Hse by (apply Hs, list_elem_of_fmap; eauto).
    clear He El. induction Hrtc as [|x y z Hxy _ IH]; [done|]. apply IH.
    apply (Hl x); [done|auto| |done]. rewrite Hc. apply not_elem_of_nil.
Qed.

Lemma search_layer_spec entries v :
  vis_ok (length ns) v → (∀ e, e ∈ entries → cand_ok e) → NoDup (cid <$> entries) →
  ∃ out v', search_layer s ns q entries ef_ l (allowed p) v = Ok (out, v') ∧
    vis_ok (length ns) v' ∧ layer_result (Nat.max ef_ (length entries)) out ∧
    (length ns ≤ ef_ → ∀ i, i ∈ cid <$> out ↔
      eligible s p i ∧ ∃ e, e ∈ entries ∧ rtc (linked ns l) (cid e) i).
Proof.
  intros Hv Hes Hnd. destruct (bump_ok _ _ Hv) as [Hbv Hbs]. unfold search_layer.
  set (st0 := {| cand := pq_empty; res := pq_empty; vis := bump v |}). set (cap := Nat.max ef_ (length entries)).
  assert (cands st0 = []) as Hc0 by (unfold cands; cbn; by rewrite pq_empty_elems).
  assert (found st0 = []) as Hf0 by (unfold found; cbn; by rewrite pq_empty_elems).
  assert (frontier_ok cap st0) as Hst0.
  { split; [apply pq_empty_ok|apply pq_empty_ok|done| | |by rewrite Hf0; constructor|rewrite Hf0; cbn; lia];
      intros c; cbn; rewrite pq_empty_elems; by intros ?%elem_of_nil. }
  destruct (push_entries_spec cap entries st0 Hst0) as (st1 & -> & Hst1 & Ht1 & Hs1 & Hc1 & Hf1);
    [rewrite Hf0; cbn; lia| |done|].
  { intros e He. split; [by auto|apply Hbs]. }
  cbn [mbind result_bind].
  destruct (expand_spec cap (length entries + length ns + 1) st1 Hst1) as (st2 & -> & Hst2 & Hex); [lia| |].
  { assert (todo st0 ≤ length ns); [|lia]. unfold todo, pq_size; cbn. rewrite pq_empty_elems. cbn.
    by apply unseen_le. }
  cbn [mbind result_bind].
  destruct (drain_push_perm far_on_top numbered (pq_size (res st2)) (res st2) []) as (out & -> & Hout);
    [apply Hst2|done|]. cbn [mbind result_bind app].
  assert (cid <$> out ≡ₚ found st2) as Hids by (unfold found; by rewrite Hout).
  exists out, (vis st2). split_and!; [done|apply Hst2|split|].
  - intros c. rewrite Hout. intros Hc. by destruct (fr_found cap st2 Hst2 c Hc) as (? & ? & ?).
  - rewrite Hids. apply Hst2.
  - rewrite <- (length_fmap cid), Hids. apply Hst2.
  - intros Hef i. rewrite Hids. apply (starts_result cap st2); [done|].
    apply (Hex (cid <$> entries)); [done|]. split.
    + intros j Hj El. apply Hf1. left. apply Hs1 in Hj as [|Hj]; [done|by apply Hbs in Hj].
    + intros j j' Hj _ Hnc. apply Hs1 in Hj as [Hj|Hj]; [|by apply Hbs in Hj]. destruct Hnc. apply Hc1. by left.
    + intros j [Hj|Hj]%Hs1; [|by apply Hbs in Hj]. by exists j.
    + intros j Hj. apply Hs1. by left.
Qed.
End Layer.
