(* ===== verification/HnswGraph.v ===== *)
(** * The invariant of the HNSW graph

    What the neighbour heuristic selects, and that linking a new node keeps
    every list of links free of repetitions and self-links, inside its layer
    and below its cap. *)
From S2P Require Import Prelude StdQueue Binary Distance Metadata Bitset VectorStore StoreSpec Index Hnsw HnswSearch.
Local Open Scope nat_scope.
Import VectorStore Hnsw.

(** The nodes [0], ..., [n - 1] have vectors, with numbers as distances. *)
Definition vectors_ok `{!DistanceMetric} (s : VectorStore.t) (n : nat) : Prop :=
  ∀ i, N.to_nat i < n → ∃ v, get s i = Ok v ∧ dists_ok s v n.

Lemma vectors_ok_tame `{!DistanceMetric} (valid : list word32 → Prop) `{!MetricTame _ valid} s :
  wf s → vecs_ok valid s → vectors_ok s (slot_count s).
Proof.
  intros Hwf Hv i Hi. destruct (get_Ok s i Hwf Hi) as (v & Hg & Hl). exists v. split; [done|].
  by apply (dists_ok_tame valid); [..|apply (Hv i)| |].
Qed.

(** ** The neighbour heuristic *)

Section Select.
Context {Met : DistanceMetric} {Sort : StdSort} {SL : StdSortLaws}.
Context (s : VectorStore.t) (n : nat) (Hvec : vectors_ok s n).

(** The selected [r] is closer to [c] than the node that links is. *)
Definition crowds (r c : Cand) : Prop :=
  ∃ v d, get s (cid c) = Ok v ∧ dist_to s v (cid r) = Ok d ∧ flt d (dist c).

(** No selected candidate crowds a later one. *)
Definition spread : list Cand → Prop := StronglySorted (λ r c, ¬ crowds r c).

Definition known (c : Cand) : Prop := N.to_nat (cid c) < n ∧ numbered c.

Lemma spread_out_spec c v rs :
  get s (cid c) = Ok v → dists_ok s v n → Forall known rs →
  ∃ b, spread_out s v c rs = Ok b ∧ if b : bool then Forall (λ r, ¬ crowds r c) rs else Exists (λ r, crowds r c) rs.
Proof.
  intros Hv Hd. induction 1 as [|r rs [Hr _] Hrs (b & Hb & IH)]; cbn [spread_out]; [by exists true|].
  destruct (Hd (cid r) Hr) as (d & Hrd & _). unfold dist_to in Hrd.
  apply result_bind_Ok in Hrd as (rv & Hrv & Hrd). rewrite Hrv. cbn. rewrite Hrd. cbn.
  assert (dist_to s v (cid r) = Ok d) as Hdt by (unfold dist_to; by rewrite Hrv).
  destruct (flt d (dist c)) eqn:E.
  - exists false. split; [done|]. left. exists v, d. by rewrite E.
  - exists b. split; [done|]. destruct b; [|by right]. constructor; [|done].
    intros (v' & d' & H1 & H2 & H3). rewrite Hv in H1. injection H1 as <-.
    rewrite Hdt in H2. injection H2 as <-. by rewrite E in H3.
Qed.

(** What the loop of the heuristic adds to [acc]. *)
Record selected (m : nat) (acc cs out : list Cand) : Prop := {
  sel_prefix : ∃ new, out = acc ++ new ∧ new `sublist_of` cs;
  sel_length : length out ≤ Nat.max m (length acc);
  sel_spread : spread acc → spread out;
  sel_maximal c : length out < m → c ∈ cs → c ∉ out → ∃ r, r ∈ out ∧ crowds r c;
}.

Lemma select_loop_spec m cs acc :
  Forall known cs → Forall known acc →
  ∃ out, select_loop s m cs acc = Ok out ∧ selected m acc cs out.
Proof.
  intros Hcs. revert acc. induction Hcs as [|c cs Hc Hcs IH]; intros acc Hacc; cbn [select_loop].
  { exists acc. split; [done|]. split; [exists []; by rewrite app_nil_r|lia|done|by intros ? _ ?%elem_of_nil]. }
  destruct (Nat.leb_spec m (length acc)) as [Hm|Hm].
  { exists acc. split; [done|]. split; [|lia|done|lia].
    exists []. rewrite app_nil_r. split; [done|apply sublist_nil_l]. }
  destruct (Hvec (cid c)) as (v & Hv & Hd); [apply Hc|]. rewrite Hv. cbn [mbind result_bind].
  destruct (spread_out_spec c v acc Hv Hd Hacc) as (b & -> & Hb). cbn [mbind result_bind].
  destruct (IH (if b then acc ++ [c] else acc)) as (out & -> & [(new & E & Hsub) Hl Hs Hmax]).
  { destruct b; [|done]. apply Forall_app_2; [done|by apply Forall_singleton]. }
  exists out. split; [done|]. split.
  - destruct b; [exists (c :: new)|exists new]; rewrite E; [rewrite <- app_assoc|]; (split; [done|]);
      [by apply sublist_skip|by apply sublist_cons].
  - destruct b; [rewrite length_app in Hl; cbn in Hl|]; lia.
  - intros Hacc'. apply Hs. destruct b; [|done]. apply StronglySorted_app. split_and!; [|done|by repeat constructor].
    intros x y Hx Hy%list_elem_of_singleton. subst. rewrite Forall_forall in Hb. by apply Hb.
  - intros x Hlen [->|Hx]%elem_of_cons Hni; [|by apply Hmax]. destruct b.
    + destruct Hni. rewrite E. set_solver.
    + apply Exists_exists in Hb as (r & Hr & Hcr). exists r. split; [|done]. rewrite E. set_solver.
Qed.

Lemma select_neighbors_ok m cs :
  Forall known cs →
  ∃ sorted out, select_neighbors s cs m = Ok out ∧ sorted ≡ₚ cs ∧ sorted_by far_on_top sorted ∧
    out `sublist_of` sorted ∧ length out ≤ m ∧ spread out ∧
    ∀ c, length out < m → c ∈ cs → c ∉ out → ∃ r, r ∈ out ∧ crowds r c.
Proof.
  intros Hcs. assert (Forall numbered cs) as Hnum by (eapply Forall_impl; [done|]; by intros ? []).
  pose proof (std_sort_perm far_on_top numbered cs Hnum) as Hp.
  destruct (select_loop_spec m (std_sort far_on_top cs) []) as (out & Hout & [(new & -> & Hsub) Hl Hs Hmax]).
  { by rewrite Hp. } { constructor. }
  exists (std_sort far_on_top cs), new. split_and!; [done|done| |done| | |].
  - by apply (std_sort_sorted far_on_top numbered).
  - cbn in Hl. lia.
  - apply Hs. constructor.
  - intros c Hlen Hc. apply Hmax; [done|]. by rewrite Hp.
Qed.

Lemma sublist_sorted {A} (lt : A → A → bool) l l' : l `sublist_of` l' → sorted_by lt l' → sorted_by lt l.
Proof.
  unfold sorted_by. induction 1 as [|x l l' Hsub IH|x l l' Hsub IH]; intros Hs; [done| |].
  - apply StronglySorted_inv in Hs as [Hs Hx]. constructor; [by apply IH|].
    rewrite Forall_forall in *. intros y Hy. apply Hx. by eapply elem_of_sublist.
  - apply StronglySorted_inv in Hs as [Hs _]. by apply IH.
Qed.

(** The nearest candidate is selected first. *)
Lemma select_loop_first m c cs :
  0 < m → Forall known (c :: cs) → ∃ out, select_loop s m (c :: cs) [] = Ok (c :: out).
Proof.
  intros Hm [Hc Hcs]%Forall_cons. cbn [select_loop length]. destruct (Nat.leb_spec m 0); [lia|].
  destruct (Hvec (cid c)) as (v & -> & _); [apply Hc|]. cbn.
  destruct (select_loop_spec m cs [c] Hcs) as (out & -> & [(new & -> & _) _ _ _]); [by apply Forall_singleton|].
  by exists new.
Qed.

(** The part of it that the graph needs. *)
Lemma select_neighbors_ids m cs :
  Forall known cs → NoDup (cid <$> cs) →
  ∃ out, select_neighbors s cs m = Ok out ∧ length out ≤ m ∧ NoDup (cid <$> out) ∧ ∀ c, c ∈ out → c ∈ cs.
Proof.
  intros Hcs Hnd. destruct (select_neighbors_ok m cs Hcs) as (sorted & out & Hout & Hp & _ & Hsub & Hl & _).
  exists out. split_and!; [done|done| |].
  - eapply sublist_NoDup; [|apply (fmap_sublist cid out sorted Hsub)]. by rewrite Hp.
  - intros c Hc. rewrite <- Hp. by eapply elem_of_sublist.
Qed.

(** C32: the neighbour heuristic terminates and selects, in ascending order of the
    distance, at most [m] of the candidates, the nearest one first; no selected
    candidate is closer to a later selected one than the query is, and when
    fewer than [m] are selected every other candidate is closer to a selected
    one than to the query. *)
Theorem select_neighbors_spec (m : nat) (cs : list Cand) :
  Forall known cs →
  ∃ out, select_neighbors s cs m = Ok out ∧ length out ≤ m ∧ (∃ rest, out ++ rest ≡ₚ cs) ∧
    sorted_by far_on_top out ∧ spread out ∧
    (∀ c, length out < m → c ∈ cs → c ∉ out → ∃ r, r ∈ out ∧ crowds r c) ∧
    (0 < m → cs ≠ [] → ∃ c out', out = c :: out' ∧ ∀ x, x ∈ cs → ¬ far_on_top x c).
Proof.
  intros Hcs. destruct (select_neighbors_ok m cs Hcs) as (sorted & out & Hout & Hp & Hsort & Hsub & Hl & Hs & Hmax).
  exists out. split_and!; [done|done| | |done|done|].
  - pose proof (sublist_submseteq _ _ Hsub) as [rest Hrest]%submseteq_Permutation.
    exists rest. by rewrite <- Hrest.
  - by eapply sublist_sorted.
  - intros Hm Hne. assert (Forall numbered cs) as Hnum by (eapply Forall_impl; [done|]; by intros ? []).
    pose proof (std_sort_perm far_on_top numbered cs Hnum) as Hp'.
    pose proof (std_sort_sorted far_on_top numbered cs Hnum) as Hs'. unfold select_neighbors in Hout.
    destruct (std_sort far_on_top cs) as [|c cs'] eqn:E; [by apply Permutation_nil_l in Hp'|].
    destruct (select_loop_first m c cs' Hm) as (out' & Hf); [by rewrite Hp'|].
    rewrite Hout in Hf. injection Hf as ->. exists c, out'. split; [done|]. intros x Hx. rewrite <- Hp' in Hx.
    apply StronglySorted_inv in Hs' as [_ Hs']. rewrite Forall_forall in Hs'.
    apply elem_of_cons in Hx as [->|Hx]; [apply flt_irrefl|by apply Hs'].
Qed.
End Select.

(** ** The graph as its lists of links *)

Definition links_at (ns : list Node) (i : InternalId) (l : nat) : option (list InternalId) :=
  n ← ns !! N.to_nat i; links n !! l.

(** The levels and the numbers of layers, which linking does not change. *)
Definition shape (ns : list Node) : list (Z * nat) := (λ n, (level n, length (links n))) <$> ns.
Arguments shape : simpl never.

Lemma links_at_layer ns i l : is_Some (links_at ns i l) ↔ in_layer ns l i.
Proof.
  unfold links_at, in_layer. destruct (ns !! N.to_nat i) as [n|]; cbn.
  - rewrite lookup_lt_is_Some. naive_solver.
  - split; [by intros []|naive_solver].
Qed.

Lemma linked_at ns l i j : linked ns l i j ↔ ∃ es, links_at ns i l = Some es ∧ j ∈ es.
Proof.
  unfold linked, links_at. split.
  - intros (n & es & Hn & Hes & Hj). exists es. by rewrite Hn.
  - intros (es & Hes & Hj). destruct (ns !! N.to_nat i) as [n|] eqn:Hn; [|done]. by exists n, es.
Qed.

Lemma shape_length ns ns' : shape ns = shape ns' → length ns = length ns'.
Proof. intros E%(f_equal length). unfold shape in E. by rewrite !length_fmap in E. Qed.

Lemma shape_in_layer ns ns' l i : shape ns = shape ns' → in_layer ns l i → in_layer ns' l i.
Proof.
  intros E (n & Hn & Hl). apply (f_equal (.!! N.to_nat i)) in E. unfold shape in E.
  rewrite !list_lookup_fmap, Hn in E. cbn in E.
  destruct (ns' !! N.to_nat i) as [n'|] eqn:Hn'; [|done]. cbn in E.
  exists n'. split; [done|]. by injection E as _ <-.
Qed.

(** [nodes_[i].links[l]] is replaced, nothing else changes. *)
Lemma update_links_spec ns i l f es :
  links_at ns i l = Some es →
  ∃ ns', update_links i l f ns = Ok ns' ∧ shape ns' = shape ns ∧
    ∀ j l', links_at ns' j l' = if decide (j = i ∧ l' = l) then Some (f es) else links_at ns j l'.
Proof.
  unfold links_at, update_links, at_. intros Hes.
  destruct (ns !! N.to_nat i) as [n|] eqn:Hn; cbn in *; [|done]. rewrite Hes. cbn.
  eexists. split; [done|]. pose proof (lookup_lt_Some _ _ _ Hn) as Hi. split.
  - unfold shape. rewrite list_fmap_insert. cbn. rewrite length_insert. apply list_insert_id.
    by rewrite list_lookup_fmap, Hn.
  - intros j l'. destruct (decide (j = i)) as [->|Hj].
    + rewrite list_lookup_insert_eq by done. cbn. rewrite Hn. cbn.
      destruct (decide (l' = l)) as [->|Hl'].
      * rewrite decide_True by done. apply list_lookup_insert_eq. by eapply lookup_lt_Some.
      * rewrite decide_False by naive_solver. by rewrite list_lookup_insert_ne.
    + rewrite decide_False by naive_solver. by rewrite list_lookup_insert_ne by lia.
Qed.

(** A list of links of node [i] in layer [l]. *)
Record list_ok (ns : list Node) (i : InternalId) (l : nat) (es : list InternalId) : Prop := {
  lo_nodup : NoDup es;
  lo_irrefl : i ∉ es;
  lo_layer j : j ∈ es → in_layer ns l j;
}.

Definition lists_ok (ns : list Node) : Prop := ∀ i l es, links_at ns i l = Some es → list_ok ns i l es.

Lemma list_ok_shape ns ns' i l es : shape ns = shape ns' → list_ok ns i l es → list_ok ns' i l es.
Proof. intros E [? ? H]. split; [done|done|]. intros j Hj. by apply (shape_in_layer ns), H. Qed.

Lemma lists_ok_linked ns l i j : lists_ok ns → linked ns l i j → in_layer ns l j.
Proof. intros Hok (es & Hes & Hj)%linked_at. by apply (lo_layer _ _ _ _ (Hok i l es Hes)). Qed.

Lemma update_links_ok ns i l f es :
  lists_ok ns → links_at ns i l = Some es → list_ok ns i l (f es) →
  ∃ ns', update_links i l f ns = Ok ns' ∧ shape ns' = shape ns ∧ lists_ok ns' ∧
    ∀ j l', links_at ns' j l' = if decide (j = i ∧ l' = l) then Some (f es) else links_at ns j l'.
Proof.
  intros Hok Hes Hf. destruct (update_links_spec ns i l f es Hes) as (ns' & Hu & Hsh & Hat).
  exists ns'. split_and!; [done|done| |done]. intros j l' es' Hes'. apply (list_ok_shape ns); [done|].
  rewrite Hat in Hes'. case_decide as E; [|by apply Hok].
  destruct E as [-> ->]. by injection Hes' as <-.
Qed.

Lemma list_ok_snoc ns i l es j :
  list_ok ns i l es → in_layer ns l j → j ∉ es → i ≠ j → list_ok ns i l (es ++ [j]).
Proof.
  intros [Hnd Hirr Hin] Hj Hnj Hij. split.
  - apply NoDup_app. split_and!; [done| |apply NoDup_singleton]. by intros x Hx ->%list_elem_of_singleton.
  - set_solver.
  - intros x [Hx| ->%list_elem_of_singleton]%elem_of_app; auto.
Qed.

(** ** Connecting a new node *)

(** The lists of layer [l] of the nodes in [js] may differ, nothing else. *)
Definition changed_at (l : nat) (js : list InternalId) (ns ns' : list Node) : Prop :=
  shape ns' = shape ns ∧ ∀ j l', l' ≠ l ∨ j ∉ js → links_at ns' j l' = links_at ns j l'.

Lemma changed_at_trans l js js' ns ns' ns'' :
  changed_at l js ns ns' → changed_at l js' ns' ns'' → js ⊆ js' → changed_at l js' ns ns''.
Proof.
  intros [Hs H] [Hs' H'] Hsub. split; [congruence|]. intros j l' Hj. rewrite H' by done.
  apply H. destruct Hj; [by left|right]. intros Hj. set_solver.
Qed.

Lemma connect_spec ns i j l es :
  lists_ok ns → links_at ns i l = Some es → j ∉ es → in_layer ns l j → i ≠ j → ¬ linked ns l j i →
  ∃ ns', connect i j l ns = Ok ns' ∧ lists_ok ns' ∧ changed_at l [i; j] ns ns' ∧
    links_at ns' i l = Some (es ++ [j]) ∧
    ∀ x, x ≠ j → linked ns' l x i → linked ns l x i.
Proof.
  intros Hok Hes Hj Hjl Hij Hni. unfold connect.
  destruct (update_links_ok ns i l (λ es, es ++ [j]) es Hok Hes) as (ns1 & -> & Hs1 & Hok1 & Hat1).
  { apply list_ok_snoc; [by apply Hok|done..]. }
  cbn [mbind result_bind]. pose proof Hjl as [ej Hej]%links_at_layer.
  assert (links_at ns1 j l = Some ej) as Hej1 by (by rewrite Hat1, decide_False by naive_solver).
  destruct (update_links_ok ns1 j l (λ es, es ++ [i]) ej Hok1 Hej1) as (ns2 & -> & Hs2 & Hok2 & Hat2).
  { apply list_ok_snoc; [by apply Hok1| |intros Hi; apply Hni, linked_at; eauto|done].
    apply (shape_in_layer ns); [done|]. apply links_at_layer. eauto. }
  exists ns2. split_and!; [done|done|split; [congruence|]| |].
  - intros x l' Hx. rewrite Hat2, Hat1. rewrite !decide_False by set_solver. done.
  - rewrite Hat2, decide_False by naive_solver. by rewrite Hat1, decide_True.
  - intros x Hx (ex & Hex & Hix)%linked_at. rewrite Hat2, decide_False, Hat1 in Hex by naive_solver.
    case_decide as E; [|apply linked_at; eauto]. destruct E as [-> _]. injection Hex as <-.
    apply linked_at. exists es. set_solver.
Qed.

Lemma connect_all ns i l nbs es :
  lists_ok ns → links_at ns i l = Some es → NoDup (es ++ (cid <$> nbs)) →
  (∀ c, c ∈ nbs → in_layer ns l (cid c) ∧ i ≠ cid c ∧ ¬ linked ns l (cid c) i) →
  ∃ ns', for_cands (λ nb ns, connect i nb l ns) nbs ns = Ok ns' ∧ lists_ok ns' ∧
    changed_at l (i :: (cid <$> nbs)) ns ns' ∧ links_at ns' i l = Some (es ++ (cid <$> nbs)).
Proof.
  revert ns es. induction nbs as [|c nbs IH]; intros ns es Hok Hes Hnd Hnb; cbn [for_cands].
  { exists ns. rewrite app_nil_r. split_and!; [done|done|by split|done]. }
  destruct (Hnb c) as (Hcl & Hic & Hci); [set_solver|]. cbn in Hnd.
  assert (cid c ∉ es) as Hce. { apply NoDup_app in Hnd as (_ & Hd & _). intros H. by apply (Hd _ H); left. }
  destruct (connect_spec ns i (cid c) l es Hok Hes Hce Hcl Hic Hci) as (ns1 & -> & Hok1 & Hch1 & Hes1 & Hl1).
  cbn [mbind result_bind].
  destruct (IH ns1 (es ++ [cid c]) Hok1 Hes1) as (ns2 & -> & Hok2 & Hch2 & Hes2).
  - by rewrite <- app_assoc.
  - intros x Hx. destruct (Hnb x) as (Hxl & Hix & Hxi); [set_solver|].
    split_and!; [by apply (shape_in_layer ns); [symmetry; apply Hch1|]|done|].
    intros Hxi'. apply Hxi, Hl1; [|done]. intros E. apply NoDup_app in Hnd as (_ & _ & [Hni _]%NoDup_cons).
    apply Hni. rewrite <- E. apply list_elem_of_fmap. eauto.
  - exists ns2. rewrite <- app_assoc in Hes2. split_and!; [done|done| |done]. cbn.
    destruct Hch1 as [Hs1 Hc1], Hch2 as [Hs2 Hc2]. split; [congruence|].
    intros j l' Hj. rewrite Hc2, Hc1; [done| |]; set_solver.
Qed.

(** ** Pruning *)

Section Prune.
Context {Met : DistanceMetric} {Sort : StdSort} {SL : StdSortLaws}.
Context (s : VectorStore.t).

Lemma rank_links_spec n v es :
  dists_ok s v n → (∀ x, x ∈ es → N.to_nat x < n) →
  ∃ cs, rank_links s v es = Ok cs ∧ cid <$> cs = es ∧ Forall (known n) cs ∧
    Forall (λ c, dist_to s v (cid c) = Ok (dist c)) cs.
Proof.
  intros Hd. induction es as [|x es IH]; intros Hes; cbn [rank_links]; [by exists []|].
  destruct (Hd x) as (d & Hx & Hn); [set_solver|]. rewrite Hx. cbn [mbind result_bind].
  destruct IH as (cs & -> & Hc & Hk & Hf); [set_solver|]. cbn.
  exists ({| dist := d; cid := x |} :: cs). split_and!; [done|by rewrite <- Hc|constructor; [|done]|by constructor].
  split; [apply Hes; set_solver|done].
Qed.

(** A pruned list is part of the old one and within the cap. *)
Lemma prune_spec ns i l cap es :
  vectors_ok s (length ns) → lists_ok ns → links_at ns i l = Some es →
  ∃ ns' es', prune s i l cap ns = Ok ns' ∧ lists_ok ns' ∧ changed_at l [i] ns ns' ∧
    links_at ns' i l = Some es' ∧ length es' ≤ cap ∧ es' ⊆ es.
Proof.
  intros Hvec Hok Hes. pose proof (Hok i l es Hes) as [Hnd Hirr Hin]. unfold prune.
  pose proof Hes as Hes'. unfold links_at in Hes'. unfold at_ at 1 2.
  destruct (ns !! N.to_nat i) as [n|] eqn:Hn; [|done]. cbn [mbind option_bind result_bind] in *. rewrite Hes'.
  cbn [mbind result_bind]. destruct (Nat.leb_spec (length es) cap) as [Hcap|Hcap].
  { exists ns, es. split_and!; [done|done|by split|done|done|done]. }
  destruct (Hvec i) as (v & -> & Hd); [by eapply lookup_lt_Some|]. cbn [mbind result_bind].
  destruct (rank_links_spec (length ns) v es Hd) as (cs & -> & Hcs & Hk & _).
  { intros x Hx. by eapply in_layer_lt, Hin. }
  cbn [mbind result_bind].
  destruct (select_neighbors_ids s (length ns) Hvec cap cs Hk) as (kept & -> & Hl & Hnd' & Hsub); [by rewrite Hcs|].
  cbn [mbind result_bind].
  assert ((cid <$> kept) ⊆ es) as Hsub'.
  { intros x (c & -> & Hc)%list_elem_of_fmap. rewrite <- Hcs. apply list_elem_of_fmap. eauto. }
  destruct (update_links_ok ns i l (λ _, cid <$> kept) es Hok Hes) as (ns' & -> & Hs & Hok' & Hat).
  { split; [done|set_solver|]. intros j Hj. by apply Hin, Hsub'. }
  exists ns', (cid <$> kept). split_and!; [done|done|split; [done|]| |by rewrite length_fmap|done].
  - intros j l' Hj. rewrite Hat, decide_False; [done|]. set_solver.
  - by rewrite Hat, decide_True.
Qed.

Lemma prune_all ns l cap nbs :
  vectors_ok s (length ns) → lists_ok ns → (∀ c, c ∈ nbs → in_layer ns l (cid c)) →
  ∃ ns', for_cands (λ nb ns, prune s nb l cap ns) nbs ns = Ok ns' ∧ lists_ok ns' ∧
    changed_at l (cid <$> nbs) ns ns' ∧
    ∀ c es, c ∈ nbs → links_at ns' (cid c) l = Some es → length es ≤ cap.
Proof.
  revert ns. induction nbs as [|c nbs IH]; intros ns Hvec Hok Hnb; cbn [for_cands].
  { exists ns. split_and!; [done|done|by split|by intros ?? ?%elem_of_nil]. }
  pose proof (Hnb c (list_elem_of_here c nbs)) as [es Hes]%links_at_layer.
  destruct (prune_spec ns (cid c) l cap es Hvec Hok Hes) as (ns1 & es1 & -> & Hok1 & Hch1 & Hes1 & Hl1 & _).
  cbn [mbind result_bind]. destruct (IH ns1) as (ns2 & -> & Hok2 & Hch2 & Hl2); [|done| |].
  - by rewrite (shape_length ns1 ns) by apply Hch1.
  - intros x Hx. apply (shape_in_layer ns); [symmetry; apply Hch1|apply Hnb; set_solver].
  - exists ns2. split_and!; [done|done| |].
    + destruct Hch1 as [Hs1 Hc1], Hch2 as [Hs2 Hc2]. split; [congruence|].
      intros j l' Hj. rewrite Hc2, Hc1; [done| |]; set_solver.
    + intros x ex [->|Hx]%elem_of_cons Hex; [|by eapply Hl2].
      destruct (decide (cid c ∈ cid <$> nbs)) as [(y & E & Hy)%list_elem_of_fmap|Hni].
      { rewrite E in Hex. by eapply Hl2. }
      destruct Hch2 as [_ Hc2]. rewrite Hc2, Hes1 in Hex by auto. by injection Hex as <-.
Qed.
End Prune.
