(* ===== verification/HnswIndex.v ===== *)
(** * The HNSW index keeps its contract

    The invariant of the index, insertion and search: [HnswIndex] is an
    instance of [IndexLaws] and [IndexSearchLaws], so the theorems of the engine
    hold for it; a search as broad as the graph is exact on what it reaches. *)
From S2P Require Import Prelude StdQueue Binary Distance Metadata Bitset VectorStore StoreSpec Index.
From S2P Require Import Hnsw HnswSearch HnswGraph.
Local Open Scope nat_scope.
Import VectorStore Hnsw.

Lemma double_to_int_range x z : double_to_int x = Ok z → (- 2 ^ 31 ≤ z < 2 ^ 31)%Z.
Proof.
  unfold double_to_int. destruct x; try done.
  - intros [= <-]. lia.
  - case_decide; [|done]. intros [= <-]. lia.
Qed.

Lemma to_size_int z : (0 ≤ z < 2 ^ 31)%Z → to_size z = Z.to_nat z.
Proof. intros H. unfold to_size. rewrite Z.mod_small; lia. Qed.

Lemma to_size_le x y : (0 ≤ x ≤ y)%Z → (y < 2 ^ 31)%Z → to_size x ≤ to_size y.
Proof. intros H Hy. rewrite !to_size_int; lia. Qed.

Module HnswIndex.
Section HnswIndex.
Context {Met : DistanceMetric} {Rand : RandomSource}.
Context {PQn : PQueue near_on_top} {PQf : PQueue far_on_top} {Sort : StdSort}.
Context {PLn : PQueueLaws near_on_top numbered} {PLf : PQueueLaws far_on_top numbered} {SL : StdSortLaws}.
Context (params_ : Params).

(** The draws of the random source give levels: with [u] in [0, 1) the logarithm
    of [1 - u] is not positive and well above the range of [int]. *)
Class LevelDraws : Prop :=
  level_draw g : ∃ l g', random_level params_ g = (Ok l, g') ∧ (0 ≤ l)%Z.

(** [2 * M] is an [int]. *)
Definition params_int : Prop := (0 ≤ M params_ < 2 ^ 30)%Z.

Context (HM : params_int) {HL : LevelDraws}.

(** The largest number of links in a layer. *)
Definition cap (l : nat) : nat := to_size (if l =? 0 then 2 * M params_ else M params_).

Lemma max_links_cap l : max_links params_ l = Ok (cap l).
Proof.
  unfold max_links, cap, twice. unfold params_int in HM. destruct (l =? 0); [|done]. by rewrite decide_True by lia.
Qed.

Lemma cap_M l : to_size (M params_) ≤ cap l.
Proof. unfold cap. unfold params_int in HM. destruct (l =? 0); [|done]. apply to_size_le; lia. Qed.

Definition caps_ok (ns : list Node) : Prop :=
  ∀ i l es, links_at ns i l = Some es → length es ≤ cap l.

(** ** Linking a node *)

Section Link.
Context (s : VectorStore.t) (i : InternalId) (q : list word32) (sh : list (Z * nat)).
Context (Hvec : vectors_ok s (length sh)) (Hq : dists_ok s q (length sh)).

(** The nodes of a layer other than [i]. *)
Definition others (ns : list Node) (l : nat) (j : InternalId) : Prop := in_layer ns l j ∧ j ≠ i.

(** With the layers below [k] left to do: [i] has no links there yet, in either
    direction, and the entries are nodes of the next layer. *)
Record link_inv (k : nat) (st : list Node * list Cand * Visited) : Prop := {
  li_shape : shape st.1.1 = sh;
  li_lists : lists_ok st.1.1;
  li_caps : caps_ok st.1.1;
  li_fresh l : l < k → links_at st.1.1 i l = Some [] ∧ ∀ j, ¬ linked st.1.1 l j i;
  li_entries e : e ∈ st.1.2 → cand_ok s q (others st.1.1 (k - 1)) e;
  li_nodup : NoDup (cid <$> st.1.2);
  li_vis : vis_ok (length sh) st.2;
}.

Lemma others_part ns l : lists_ok ns → (∀ j, ¬ linked ns l j i) → layer_part ns l (others ns l).
Proof.
  intros Hok Hni. split; [by intros j []|]. intros j j' [Hj _] Hjj. split; [by eapply lists_ok_linked|].
  intros ->. by apply (Hni j).
Qed.

Lemma length_shape ns : length (shape ns) = length ns.
Proof. apply length_fmap. Qed.

Lemma cand_ok_impl (P Q : InternalId → Prop) c : (∀ j, P j → Q j) → cand_ok s q P c → cand_ok s q Q c.
Proof. intros H [? ? ?]. split; auto. Qed.

Lemma link_layer_spec lc ns entries v :
  link_inv (S lc) (ns, entries, v) →
  ∃ st', link_layer params_ s i q lc (ns, entries, v) = Ok st' ∧ link_inv lc st'.
Proof.
  intros [Hsh Hok Hcaps Hfresh Hes Hnd Hv]. cbn in *. rewrite Nat.sub_0_r in Hes.
  assert (length ns = length sh) as Hlen by (by rewrite <- Hsh, length_shape).
  rewrite <- Hlen in Hvec, Hq, Hv. destruct (Hfresh lc ltac:(lia)) as [Hi0 Hni].
  destruct (search_layer_spec s ns q lc _ Hq (others_part ns lc Hok Hni) default_params I
    (to_size (efConstruction params_)) entries v Hv Hes Hnd) as (w & v' & Hw & Hv' & [Hwok Hwnd _] & _).
  change (allowed default_params) with (@None Bitset.t) in Hw.
  unfold link_layer. rewrite Hw. cbn [mbind result_bind fst snd].
  destruct (select_neighbors_ids s (length ns) Hvec (to_size (M params_)) w) as (nbs & -> & Hnl & Hnnd & Hsub); [|done|].
  { apply Forall_forall. intros c Hc. destruct (Hwok c Hc) as [[[Hin _] _ Hnum] _].
    split; [by eapply in_layer_lt|done]. }
  cbn [mbind result_bind].
  assert (∀ c, c ∈ nbs → in_layer ns lc (cid c) ∧ i ≠ cid c) as Hnb.
  { intros c Hc. destruct (Hwok c (Hsub c Hc)) as [[[? ?] _ _] _]. auto. }
  destruct (connect_all ns i lc nbs [] Hok Hi0 Hnnd) as (ns1 & -> & Hok1 & [Hs1 Hc1] & Hi1).
  { intros c Hc. destruct (Hnb c Hc). auto. }
  cbn [mbind result_bind]. rewrite max_links_cap. cbn [mbind result_bind].
  destruct (prune_all s ns1 lc (cap lc) nbs) as (ns2 & -> & Hok2 & [Hs2 Hc2] & Hp2); [|done| |].
  { by rewrite (shape_length ns1 ns). }
  { intros c Hc. apply (shape_in_layer ns); [done|]. by apply Hnb. }
  cbn [mbind result_bind app] in *. eexists. split; [done|].
  assert (shape ns2 = shape ns) as Hs by congruence.
  assert (∀ j l, l ≠ lc → links_at ns2 j l = links_at ns j l) as Hlow by (intros j l Hl; by rewrite Hc2, Hc1 by auto).
  assert (∀ e, cand_ok s q (others ns lc) e → cand_ok s q (others ns2 (lc - 1)) e) as Hdown.
  { intros e. apply cand_ok_impl. intros j [Hj ?]. split; [|done].
    apply (in_layer_le ns2 lc); [lia|]. by apply (shape_in_layer ns). }
  split; cbn; [congruence|done| | | | |by rewrite <- Hlen].
  - intros j l es Hj. destruct (decide (l = lc)) as [->|Hl]; [|rewrite Hlow in Hj by done; by eapply Hcaps].
    destruct (decide (j ∈ cid <$> nbs)) as [(c & -> & Hc)%list_elem_of_fmap|Hjn]; [by eapply Hp2|].
    rewrite Hc2 in Hj by auto. destruct (decide (j = i)) as [->|Hji].
    + rewrite Hi1 in Hj. injection Hj as <-. rewrite length_fmap. pose proof (cap_M lc). lia.
    + rewrite Hc1 in Hj by set_solver. by eapply Hcaps.
  - intros l Hl. destruct (Hfresh l) as [Hil Hnl']; [lia|]. rewrite Hlow by lia. split; [done|].
    intros j (es & Hj & Hin)%linked_at. rewrite Hlow in Hj by lia. apply (Hnl' j), linked_at. eauto.
  - intros e He. apply Hdown. destruct w as [|c w]; [by apply Hes|]. by apply Hwok.
  - by destruct w.
Qed.

Lemma link_layers_spec k st :
  link_inv k st → ∃ st', link_layers params_ s i q k st = Ok st' ∧ link_inv 0 st'.
Proof.
  revert st. induction k as [|lc IH]; intros [[ns entries] v] Hst; cbn [link_layers]; [eauto|].
  destruct (link_layer_spec lc ns entries v Hst) as (st' & -> & Hst'). cbn [mbind result_bind]. by apply IH.
Qed.
(** When every other node is a tombstone, the search finds no neighbours. *)
Lemma link_layer_dead lc ns entries v st' :
  (∀ j, j ≠ i → ¬ is_live s j) → link_inv (S lc) (ns, entries, v) →
  link_layer params_ s i q lc (ns, entries, v) = Ok st' → st'.1.1 = ns.
Proof.
  intros Hdead [Hsh Hok Hcaps Hfresh Hes Hnd Hv] Hst'. cbn in *. rewrite Nat.sub_0_r in Hes.
  assert (length ns = length sh) as Hlen by (by rewrite <- Hsh, length_shape).
  rewrite <- Hlen in Hq, Hv. destruct (Hfresh lc ltac:(lia)) as [Hi0 Hni].
  destruct (search_layer_spec s ns q lc _ Hq (others_part ns lc Hok Hni) default_params I
    (to_size (efConstruction params_)) entries v Hv Hes Hnd) as (w & v' & Hw & _ & [Hwok _ _] & _).
  change (allowed default_params) with (@None Bitset.t) in Hw.
  unfold link_layer in Hst'. rewrite Hw in Hst'. cbn [mbind result_bind fst snd] in Hst'.
  destruct w as [|c w].
  2:{ destruct (Hwok c ltac:(left)) as [[[_ Hne] _ _] El]. unfold eligible in El.
      apply andb_prop_elim in El as [El _]. by destruct (Hdead (cid c) Hne). }
  assert (std_sort far_on_top ([] : list Cand) = []) as Hnil.
  { apply Permutation_nil_r. by apply (std_sort_perm far_on_top numbered). }
  unfold select_neighbors in Hst'. rewrite Hnil in Hst'. cbn in Hst'. rewrite max_links_cap in Hst'.
  cbn in Hst'. by injection Hst' as <-.
Qed.

Lemma link_layers_dead k st :
  (∀ j, j ≠ i → ¬ is_live s j) → link_inv k st →
  ∃ st', link_layers params_ s i q k st = Ok st' ∧ st'.1.1 = st.1.1.
Proof.
  intros Hdead. revert st. induction k as [|lc IH]; intros [[ns entries] v] Hst; cbn [link_layers]; [eauto|].
  destruct (link_layer_spec lc ns entries v Hst) as (st1 & Hl & Hst1).
  pose proof (link_layer_dead lc ns entries v st1 Hdead Hst Hl) as E. rewrite Hl. cbn [mbind result_bind].
  destruct (IH st1 Hst1) as (st2 & -> & E2). exists st2. split; [done|]. cbn. congruence.
Qed.
End Link.

(** ** The descent *)

(** [part l] are nodes of layer [l], fewer in higher layers. *)
Lemma zoom_in_spec s ns q (part : nat → InternalId → Prop) lo n ep :
  dists_ok s q (length ns) → (∀ l, lo < l ≤ lo + n → layer_part ns l (part l)) →
  (∀ l i, part (S l) i → part l i) → cand_ok s q (part (lo + n)) ep →
  ∃ ep', zoom_in s ns q lo n ep = Ok ep' ∧ cand_ok s q (part lo) ep'.
Proof.
  intros Hd Hpart Hdown. revert ep. induction n as [|n IH]; intros ep Hep; cbn [zoom_in].
  { rewrite Nat.add_0_r in Hep. eauto. }
  destruct (greedy_upper_spec s ns q (lo + S n) (part (lo + S n)) Hd (Hpart (lo + S n) ltac:(lia)) ep Hep)
    as (b & -> & Hb & _ & _).
  cbn [mbind result_bind]. apply IH.
  - intros l Hl. apply Hpart. lia.
  - apply (cand_ok_impl s q (part (S (lo + n)))); [apply Hdown|]. by rewrite <- Nat.add_succ_r.
Qed.

(** ** The invariant of the index *)

(** A node of level [l] has the layers [0], ..., [l]. *)
Definition levels_ok (top : Z) (sh : list (Z * nat)) : Prop :=
  Forall (λ x, (0 ≤ x.1 ≤ top)%Z ∧ x.2 = Z.to_nat x.1 + 1) sh.

(** Every slot is a node, the entry point is a node of the highest level, and
    the lists of links are well formed and within their caps. *)
Record hnsw_inv (s : VectorStore.t) (ix : t) : Prop := {
  hi_slots : length (nodes_ ix) = slot_count s;
  hi_built_length : length (built_ ix) = slot_count s;
  hi_built : Forall (λ b, b ≠ 0%N) (built_ ix);
  hi_levels : levels_ok (max_level_ ix) (shape (nodes_ ix));
  hi_lists : lists_ok (nodes_ ix);
  hi_caps : caps_ok (nodes_ ix);
  hi_entry : slot_count s ≠ 0 → shape (nodes_ ix) !! N.to_nat (entry_point_ ix) = Some (max_level_ ix, Z.to_nat (max_level_ ix) + 1);
  hi_empty : slot_count s = 0 → entry_point_ ix = kInvalidId;
}.

(** What the introspection methods show of a well-formed graph. *)
Record shows_graph (s : VectorStore.t) (ix : t) : Prop := {
  sg_count : node_count ix = slot_count s;
  sg_level i : N.to_nat i < slot_count s → ∃ l, node_level ix i = Ok l ∧ (0 ≤ l ≤ max_level ix)%Z;
  sg_entry : slot_count s ≠ 0 → node_level ix (entry_point ix) = Ok (max_level ix);
  sg_neighbors i l layer : node_level ix i = Ok l → (0 ≤ layer ≤ l)%Z → (layer < 2 ^ 31)%Z →
    ∃ n, neighbor_count ix i layer = Ok n ∧ n ≤ cap (Z.to_nat layer);
}.

Lemma node_level_shape ix i l n : shape (nodes_ ix) !! N.to_nat i = Some (l, n) → node_level ix i = Ok l.
Proof.
  unfold shape, node_level, at_. rewrite list_lookup_fmap. destruct (nodes_ ix !! N.to_nat i); [|done].
  by intros [= <- <-].
Qed.

Lemma inv_shows_graph s ix : hnsw_inv s ix → shows_graph s ix.
Proof.
  intros Hix. pose proof (hi_levels s ix Hix) as Hlv. unfold levels_ok in Hlv. rewrite Forall_lookup in Hlv. split.
  - apply Hix.
  - intros i Hi. rewrite <- (hi_slots s ix Hix) in Hi.
    destruct (lookup_lt_is_Some_2 (shape (nodes_ ix)) (N.to_nat i)) as [[l n] Hsh].
    { unfold shape. by rewrite length_fmap. }
    exists l. split; [by eapply node_level_shape|]. by apply Hlv in Hsh as [? _].
  - intros Hs. eapply node_level_shape. by apply (hi_entry s ix Hix).
  - intros i l layer Hl Hlay Hint. unfold node_level, neighbor_count, at_ in *.
    destruct (nodes_ ix !! N.to_nat i) as [nd|] eqn:Hnd; [|done]. cbn in Hl |- *. injection Hl as <-.
    assert (shape (nodes_ ix) !! N.to_nat i = Some (level nd, length (links nd))) as Hsh.
    { unfold shape. by rewrite list_lookup_fmap, Hnd. }
    apply Hlv in Hsh as [_ Hlen]. cbn in Hlen.
    assert (to_size layer = Z.to_nat layer) as -> by (unfold to_size; rewrite Z.mod_small; lia).
    destruct (lookup_lt_is_Some_2 (links nd) (Z.to_nat layer)) as [es Hes]; [lia|]. rewrite Hes.
    exists (length es). split; [done|]. apply (hi_caps s ix Hix i). unfold links_at. by rewrite Hnd.
Qed.

Lemma hnsw_inv_slots s s' ix : slot_count s' = slot_count s → hnsw_inv s ix → hnsw_inv s' ix.
Proof. intros E []. split; rewrite ?E; done. Qed.

Lemma make_inv s : slot_count s = 0 → hnsw_inv s (make params_).
Proof. intros E. split; cbn; try done; constructor. Qed.

(** A new node without links. *)
Lemma append_node ns n :
  lists_ok ns → caps_ok ns → Forall (λ es, es = []) (links n) →
  let i := N.of_nat (length ns) in
  lists_ok (ns ++ [n]) ∧ caps_ok (ns ++ [n]) ∧
  (∀ l, l < length (links n) → links_at (ns ++ [n]) i l = Some []) ∧ ∀ l j, ¬ linked (ns ++ [n]) l j i.
Proof.
  intros Hok Hcaps Hn i.
  assert (∀ j l es, links_at (ns ++ [n]) j l = Some es → links_at ns j l = Some es ∨ j = i ∧ es = []) as Hat.
  { intros j l es. unfold links_at. destruct ((ns ++ [n]) !! N.to_nat j) as [n'|] eqn:Hj; [|done]. cbn.
    apply lookup_snoc_Some in Hj as [[Hlt Hj]|[Hj ->]].
    - rewrite Hj. cbn. auto.
    - intros Hes. right. split; [lia|]. rewrite Forall_forall in Hn. apply Hn. by eapply list_elem_of_lookup_2. }
  assert (∀ l j, in_layer ns l j → in_layer (ns ++ [n]) l j) as Hin.
  { intros l j (n' & Hj & Hl). exists n'. by rewrite lookup_app_l_Some with (x := n'). }
  split_and!.
  - intros j l es [Hes|[-> ->]]%Hat.
    + destruct (Hok j l es Hes). split; auto.
    + split; [constructor|by intros ?%elem_of_nil|by intros ? ?%elem_of_nil].
  - intros j l es [Hes|[-> ->]]%Hat; [by eapply Hcaps|cbn; lia].
  - intros l [es Hes]%lookup_lt_is_Some. unfold links_at, i. rewrite Nat2N.id, list_lookup_middle by done.
    cbn. rewrite Hes. f_equal. rewrite Forall_forall in Hn. apply Hn. by eapply list_elem_of_lookup_2.
  - intros l j (es & [Hes|[-> ->]]%Hat & Hi)%linked_at; [|by apply elem_of_nil in Hi].
    apply (lo_layer _ _ _ _ (Hok j l es Hes)), in_layer_lt in Hi. unfold i in Hi. lia.
Qed.

(** The state of [add] once the new node of level [lvl] is placed. *)
Definition placed (ix : t) (lvl : Z) (g : rng) : t :=
  {| rng_ := g; nodes_ := nodes_ ix ++ [{| level := lvl; links := replicate (Z.to_nat lvl + 1) [] |}];
     built_ := built_ ix ++ [1%N]; entry_point_ := entry_point_ ix; max_level_ := max_level_ ix |}.

Lemma reserve_place s ix lvl g :
  hnsw_inv s ix → (0 ≤ lvl < 2 ^ 31)%Z →
  let i := N.of_nat (slot_count s) in
  at_ (built_ (reserve_slot i ix)) (N.to_nat i) = Ok 0%N ∧
  rng_ (reserve_slot i ix) = rng_ ix ∧
  place i lvl g (reserve_slot i ix) = Ok (placed ix lvl g).
Proof.
  intros [Hn Hb _ _ _ _ _ _] Hl i. unfold reserve_slot, place, placed, i. rewrite Nat2N.id, Hn.
  replace (slot_count s + 1 - slot_count s) with 1 by lia. cbn. split_and!; [|done|].
  - apply at_Ok. by apply list_lookup_middle.
  - rewrite set_at_lt by (rewrite length_app; cbn; lia). cbn [mbind result_bind].
    rewrite set_at_lt by (rewrite length_app; cbn; lia). cbn [mbind result_bind].
    rewrite insert_app_r_alt, Hn, Nat.sub_diag by lia.
    rewrite insert_app_r_alt, Hb, Nat.sub_diag by lia. cbn. by rewrite to_size_int.
Qed.

(** The entry point with its distance is a candidate of the top layer. *)
Lemma entry_cand s s' ix ns q :
  hnsw_inv s ix → slot_count s ≠ 0 → (∃ ns', shape ns = shape (nodes_ ix) ++ ns') → dists_ok s' q (length ns) →
  ∃ d, dist_to s' q (entry_point_ ix) = Ok d ∧ (0 ≤ max_level_ ix)%Z ∧ N.to_nat (entry_point_ ix) < slot_count s ∧
    cand_ok s' q (in_layer ns (Z.to_nat (max_level_ ix))) {| dist := d; cid := entry_point_ ix |}.
Proof.
  intros Hix Hs (sh & Hsh) Hd. pose proof (hi_entry s ix Hix Hs) as He.
  pose proof (lookup_lt_Some _ _ _ He) as Hlt. rewrite length_shape, (hi_slots s ix Hix) in Hlt.
  assert (in_layer ns (Z.to_nat (max_level_ ix)) (entry_point_ ix)) as Hin.
  { assert (shape ns !! N.to_nat (entry_point_ ix) = Some (max_level_ ix, Z.to_nat (max_level_ ix) + 1)) as Hns
      by (rewrite Hsh; by apply lookup_app_l_Some).
    unfold shape in Hns. apply list_lookup_fmap_Some in Hns as (n & [= Hl Hk] & Hn). exists n. split; [done|lia]. }
  destruct (Hd (entry_point_ ix)) as (d & Hdd & Hn); [by eapply in_layer_lt|].
  exists d. split_and!; [done| |done|by split].
  pose proof (hi_levels s ix Hix) as Hlv. unfold levels_ok in Hlv. rewrite Forall_lookup in Hlv.
  destruct (Hlv _ _ He) as [? _]. cbn in *. lia.
Qed.

(** The descent of [add] ends in the layer where the linking starts. *)
Lemma add_descent s q i ns top lvl ep :
  dists_ok s q (length ns) → lists_ok ns → (∀ l j, ¬ linked ns l j i) → (0 ≤ lvl)%Z → (0 ≤ top)%Z →
  cand_ok s q (in_layer ns (Z.to_nat top)) ep → cid ep ≠ i →
  ∃ ep', zoom_in s ns q (Z.to_nat lvl) (Z.to_nat (top - lvl)) ep = Ok ep' ∧
    cand_ok s q (others i ns (Z.to_nat (Z.min lvl top + 1) - 1)) ep'.
Proof.
  intros Hq Hok Hni Hl Htop [Hin Hd Hnum] Hne.
  assert (∀ l, l = Z.to_nat top → cand_ok s q (others i ns l) ep) as Hep by (intros l ->; by split).
  destruct (decide (top < lvl)%Z).
  - replace (Z.to_nat (top - lvl)) with 0 by lia. exists ep. split; [done|]. apply Hep. lia.
  - replace (Z.to_nat (Z.min lvl top + 1) - 1) with (Z.to_nat lvl) by lia.
    apply zoom_in_spec; [done| | |apply Hep; lia].
    + intros l _. by apply others_part.
    + intros l j [Hj ?]. split; [|done]. by apply (in_layer_le ns (S l)); [lia|].
Qed.

(** The index once the new node is linked. *)
Definition finished (ix : t) (lvl : Z) (g : rng) (i : InternalId) (ns : list Node) : t :=
  let higher := bool_decide (max_level_ ix < lvl)%Z in
  {| rng_ := g; nodes_ := ns; built_ := built_ ix ++ [1%N];
     entry_point_ := if higher then i else entry_point_ ix;
     max_level_ := if higher then lvl else max_level_ ix |}.

Lemma shape_placed ix lvl g :
  shape (nodes_ (placed ix lvl g)) = shape (nodes_ ix) ++ [(lvl, Z.to_nat lvl + 1)].
Proof. unfold shape, placed; cbn. rewrite fmap_app. cbn. by rewrite length_replicate. Qed.

(** The linking starts in a state that satisfies its invariant. *)
Lemma link_node_start s s' ix q lvl g :
  let i := N.of_nat (slot_count s) in
  let ns := nodes_ (placed ix lvl g) in
  hnsw_inv s ix → slot_count s ≠ 0 → slot_count s' = slot_count s + 1 → (0 ≤ lvl < 2 ^ 31)%Z →
  dists_ok s' q (slot_count s') →
  ∃ k st, link_node params_ s' i q lvl (placed ix lvl g) =
      (st' ← link_layers params_ s' i q k st; Ok (finished ix lvl g i st'.1.1)) ∧
    st.1.1 = ns ∧ link_inv s' i q (shape ns) k st ∧ length (shape ns) = slot_count s' ∧
    (∀ l j, ¬ linked ns l j i) ∧ (0 ≤ max_level_ ix)%Z.
Proof.
  intros i ns Hix Hs Hs' Hlvl Hq. pose proof (hi_slots s ix Hix) as Hlen.
  destruct (append_node (nodes_ ix) {| level := lvl; links := replicate (Z.to_nat lvl + 1) [] |})
    as (Hok & Hcaps & Hfresh & Hni); [apply Hix|apply Hix|by apply Forall_replicate|].
  cbn [links] in Hfresh. rewrite length_replicate in Hfresh. rewrite Hlen in *.
  fold i in Hfresh, Hni. fold ns in Hok, Hcaps, Hfresh, Hni.
  assert (length ns = slot_count s') as Hns by (unfold ns; cbn; rewrite length_app, Hlen; cbn; lia).
  rewrite <- Hns in Hq.
  destruct (entry_cand s s' ix ns q Hix Hs) as (d & Hd & Htop & Hlt & Hep); [eexists; apply shape_placed|done|].
  destruct (add_descent s' q i ns (max_level_ ix) lvl _ Hq Hok Hni ltac:(lia) Htop Hep) as (ep & Hz & Hep'); [cbn; lia|].
  unfold link_node. cbn [entry_point_ max_level_ placed]. rewrite Hd. cbn [mbind result_bind]. fold ns.
  rewrite Hz. cbn [mbind result_bind].
  exists (Z.to_nat (Z.min lvl (max_level_ ix) + 1)), (ns, [ep], ensure (length ns) no_visited).
  rewrite length_shape. split_and!; [done|done| |done|done|done].
  split; cbn; [done|done|done| | |apply NoDup_singleton|].
  - intros l Hl. split; [apply Hfresh; lia|apply Hni].
  - by intros e ->%list_elem_of_singleton.
  - rewrite length_shape. apply ensure_ok.
Qed.

Lemma link_node_spec s s' ix q lvl g :
  hnsw_inv s ix → slot_count s ≠ 0 → slot_count s' = slot_count s + 1 → (0 ≤ lvl < 2 ^ 31)%Z →
  vectors_ok s' (slot_count s') → dists_ok s' q (slot_count s') →
  ∃ ix', link_node params_ s' (N.of_nat (slot_count s)) q lvl (placed ix lvl g) = Ok ix' ∧ hnsw_inv s' ix'.
Proof.
  intros Hix Hs Hs' Hlvl Hvec Hq.
  destruct (link_node_start s s' ix q lvl g Hix Hs Hs' Hlvl Hq) as (k & st0 & -> & _ & Hst & Hlen & _ & Htop).
  rewrite <- Hlen in Hvec, Hq.
  destruct (link_layers_spec s' _ q _ Hvec Hq k st0 Hst) as (st & -> & [Hsh Hok Hcaps _ _ _ _]).
  cbn [mbind result_bind]. eexists. split; [done|].
  rewrite shape_placed in Hsh. rewrite shape_placed, length_app, length_shape in Hlen. cbn in Hlen.
  pose proof (hi_slots s ix Hix) as Hn. pose proof (hi_levels s ix Hix) as Hlv. pose proof (hi_entry s ix Hix Hs) as Hen.
  split; cbn; [| | |rewrite Hsh|done|done|intros _; rewrite Hsh|lia].
  - rewrite <- length_shape, Hsh, length_app, length_shape. cbn. lia.
  - rewrite length_app, (hi_built_length s ix Hix). cbn. lia.
  - apply Forall_app_2; [apply Hix|by apply Forall_singleton].
  - apply Forall_app_2.
    + eapply Forall_impl; [exact Hlv|]. cbn. intros x Hx. case_bool_decide; lia.
    + apply Forall_singleton. cbn. case_bool_decide; lia.
  - case_bool_decide; [|by apply lookup_app_l_Some]. rewrite Nat2N.id.
    apply list_lookup_middle. by rewrite length_shape.
Qed.

(** The first node. *)
Lemma first_node s s' ix lvl g :
  hnsw_inv s ix → slot_count s = 0 → slot_count s' = 0 + 1 → (0 ≤ lvl < 2 ^ 31)%Z →
  hnsw_inv s' {| rng_ := g; nodes_ := nodes_ (placed ix lvl g); built_ := built_ (placed ix lvl g);
                 entry_point_ := 0; max_level_ := lvl |}.
Proof.
  intros Hix Hs Hs' Hlvl. unfold placed; cbn.
  destruct (append_node (nodes_ ix) {| level := lvl; links := replicate (Z.to_nat lvl + 1) [] |})
    as (Hok & Hcaps & _); [apply Hix|apply Hix|by apply Forall_replicate|].
  pose proof (hi_slots s ix Hix) as Hn. pose proof (hi_built_length s ix Hix) as Hb. rewrite Hs in Hn, Hb.
  destruct (nodes_ ix); [|done]. destruct (built_ ix); [|done]. cbn in *.
  split; cbn; rewrite ?Hs'; [done|done|by apply Forall_singleton| |done|done| |done].
  - apply Forall_singleton. cbn. rewrite length_replicate. lia.
  - intros _. unfold shape. cbn. by rewrite length_replicate.
Qed.

(** [add] of the slot that the store just appended: the level is drawn and the
    node placed. *)
Lemma add_placed s s' ix :
  hnsw_inv s ix → slot_count s' = slot_count s + 1 → (N.of_nat (slot_count s') ≤ 2 ^ 32)%N →
  vectors_ok s' (slot_count s') →
  let i := N.of_nat (slot_count s) in
  ∃ lvl g q, (0 ≤ lvl < 2 ^ 31)%Z ∧ dists_ok s' q (slot_count s') ∧
    add params_ s' i ix =
      if decide (slot_count s = 0) then
        Ok {| rng_ := g; nodes_ := nodes_ (placed ix lvl g); built_ := built_ (placed ix lvl g);
              entry_point_ := i; max_level_ := lvl |}
      else link_node params_ s' i q lvl (placed ix lvl g).
Proof.
  intros Hix Hs' Hroom Hvec i. destruct (level_draw (rng_ ix)) as (lvl & g & Hdraw & Hl0).
  assert (0 ≤ lvl < 2 ^ 31)%Z as Hlvl.
  { split; [done|]. unfold random_level in Hdraw. destruct (uniform_01 (rng_ ix)) as [u g'].
    injection Hdraw as Hdraw _. apply double_to_int_range in Hdraw. lia. }
  destruct (reserve_place s ix lvl g Hix Hlvl) as (Hb & Hr & Hp). fold i in Hb, Hr, Hp.
  destruct (Hvec i) as (q & Hget & Hq); [lia|]. exists lvl, g, q. split_and!; [lia|lia|done|].
  unfold add. cbn zeta. rewrite Hb. cbn [mbind result_bind]. rewrite decide_False by auto.
  rewrite Hget. cbn [mbind result_bind]. rewrite Hr, Hdraw. cbn [mbind result_bind].
  rewrite Hp. cbn [mbind result_bind]. cbn [entry_point_ placed].
  destruct (decide (slot_count s = 0)) as [Hs|Hs].
  - by rewrite decide_True by (by apply Hix).
  - rewrite decide_False; [done|]. intros He. pose proof (hi_entry s ix Hix Hs) as Hen%lookup_lt_Some.
    rewrite length_shape, (hi_slots s ix Hix), He in Hen. unfold kInvalidId in Hen. lia.
Qed.

Lemma add_new s s' ix :
  hnsw_inv s ix → slot_count s' = slot_count s + 1 → (N.of_nat (slot_count s') ≤ 2 ^ 32)%N →
  vectors_ok s' (slot_count s') →
  ∃ ix', add params_ s' (N.of_nat (slot_count s)) ix = Ok ix' ∧ hnsw_inv s' ix'.
Proof.
  intros Hix Hs' Hroom Hvec.
  destruct (add_placed s s' ix Hix Hs' Hroom Hvec) as (lvl & g & q & Hlvl & Hq & ->).
  case_decide as Hs; [|by apply link_node_spec]. eexists. split; [done|]. rewrite Hs in *. by apply (first_node s).
Qed.

(** [add] of a slot that is a node already. *)
Lemma add_built s i ix :
  hnsw_inv s ix → N.to_nat i < slot_count s → add params_ s i ix = Ok ix.
Proof.
  intros Hix Hi. pose proof (hi_slots s ix Hix) as Hn. unfold add.
  assert (reserve_slot i ix = ix) as ->.
  { unfold reserve_slot. replace (N.to_nat i + 1 - length (nodes_ ix)) with 0 by lia. cbn.
    rewrite !app_nil_r. by destruct ix. }
  destruct (at_lt (built_ ix) (N.to_nat i)) as (b & Hb & Hbl); [by rewrite (hi_built_length s ix Hix)|].
  cbn zeta. rewrite Hb. cbn [mbind result_bind]. rewrite decide_True; [done|].
  pose proof (hi_built s ix Hix) as Hall. rewrite Forall_lookup in Hall. by eapply Hall.
Qed.

(** What the engine does to the store keeps the invariant. *)
Lemma add_inv buildable {HT : MetricTame Met buildable} s s' e i v m ix :
  wf s → inserted s s' e i v m → vecs_ok buildable s' → hnsw_inv s ix →
  ∃ ix', add params_ s' i ix = Ok ix' ∧ hnsw_inv s' ix'.
Proof.
  intros Hwf Hins Hv Hix. destruct (ext_to_int_ s !! e) as [i'|] eqn:He.
  - destruct (ins_old _ _ _ _ _ _ Hins i' He) as [-> Hs']. exists ix. split.
    + apply (add_built s'); [by apply (hnsw_inv_slots s)|]. rewrite Hs'. by apply (wf_slot s e).
    + by apply (hnsw_inv_slots s).
  - destruct (ins_new _ _ _ _ _ _ Hins He) as [-> Hs'].
    apply add_new; [done|done|apply (wf_slots s'), Hins|].
    apply (vectors_ok_tame buildable); [apply Hins|done].
Qed.

#[export, refine] Instance hnsw_laws buildable {HT : MetricTame Met buildable} :
  @IndexLaws t (hnsw_ops params_) buildable := {| ix_inv := hnsw_inv |}.
Proof.
  - intros s _ Hs. by apply make_inv.
  - intros s s' e i v m ix Hwf Hins _ Hv Hix. by eapply add_inv.
  - intros s s' e i v m ix Hwf Hins Hlive. apply hnsw_inv_slots.
    destruct (ext_to_int_ s !! e) as [i'|] eqn:He.
    + by destruct (ins_old _ _ _ _ _ _ Hins i' He).
    + destruct (ins_new _ _ _ _ _ _ Hins He) as [-> _].
      apply is_live_slot in Hlive; [lia|done].
  - intros s s' e i v m ix _ Hu. apply hnsw_inv_slots, Hu.
  - intros s s' e i ix _ He Hix. exists ix. split; [done|]. apply (hnsw_inv_slots s); [apply He|done].
Defined.

(** ** Search *)

Definition to_hit (c : Cand) : SearchResult := {| id := cid c; score := dist c |}.

Lemma to_hit_sorted cs : sorted_by far_on_top cs → sorted_by closer (to_hit <$> cs).
Proof.
  unfold sorted_by. induction 1 as [|c cs Hs IH Hc]; cbn; constructor; [done|].
  apply Forall_fmap. done.
Qed.

Lemma ids_of_hits (cs : list Cand) : id <$> (to_hit <$> cs) = cid <$> cs.
Proof. by rewrite <- list_fmap_compose. Qed.

Section Search.
Context (valid : list word32 → Prop) {HT : MetricTame Met valid}.
Context (s : VectorStore.t) (q : list word32) (k : nat) (p : SearchParams) (ix : t).
Context (Hwf : wf s) (Hv : vecs_ok valid s) (Hq : valid q) (Hlen : length q = N.to_nat (dim_ s)) (Hp : params_wf p).
Context (Hix : hnsw_inv s ix).

Definition breadth : nat := Nat.max (ef p) k.

(** The candidates of the base layer, which the search sorts and cuts; [part] is
    any part of the graph that holds the entry point and that links do not leave. *)
Lemma search_core (part : nat → InternalId → Prop) :
  k ≠ 0 → entry_point_ ix ≠ kInvalidId →
  (∀ l, layer_part (nodes_ ix) l (part l)) → (∀ l i, part (S l) i → part l i) →
  (∀ l, in_layer (nodes_ ix) l (entry_point_ ix) → part l (entry_point_ ix)) →
  ∃ start w, search s q k p ix = Ok (take k (to_hit <$> std_sort far_on_top w)) ∧ N.to_nat start < slot_count s ∧
    layer_result s q (part 0) p (Nat.max breadth 1) w ∧
    (slot_count s ≤ breadth → ∀ i, i ∈ cid <$> w ↔ eligible s p i ∧ rtc (linked (nodes_ ix) 0) start i).
Proof.
  intros Hk He Hpart Hdown Hentry. assert (slot_count s ≠ 0) as Hs by (intros E; by apply He, Hix).
  pose proof (hi_slots s ix Hix) as Hn.
  assert (dists_ok s q (length (nodes_ ix))) as Hd by (apply (dists_ok_tame valid); [done..|lia]).
  destruct (entry_cand s s ix (nodes_ ix) q Hix Hs) as (d & Hdd & Htop & _ & [Hein Hed Henum]);
    [exists []; by rewrite app_nil_r|done|].
  destruct (zoom_in_spec s (nodes_ ix) q part 0 (Z.to_nat (max_level_ ix))
    {| dist := d; cid := entry_point_ ix |} Hd (λ l _, Hpart l) Hdown) as (ep & Hz & Hep').
  { split; [by apply Hentry|done|done]. }
  destruct (search_layer_spec s (nodes_ ix) q 0 _ Hd (Hpart 0) p Hp breadth [ep]
    (ensure (length (nodes_ ix)) no_visited) (ensure_ok _)) as (w & v' & Hw & _ & Hres & Hall).
  { by intros e ->%list_elem_of_singleton. } { apply NoDup_singleton. }
  exists (cid ep), w. split_and!.
  - unfold search. destruct (Nat.eqb_spec k 0); [done|]. rewrite bool_decide_false by done. cbn [orb].
    rewrite Hdd. cbn [mbind result_bind]. rewrite Hz. cbn [mbind result_bind]. fold breadth. rewrite Hw.
    cbn [mbind result_bind fst]. by rewrite fmap_take.
  - rewrite <- Hn. eapply in_layer_lt, part_in; [apply (Hpart 0)|]. by eapply cand_in.
  - done.
  - rewrite <- Hn. intros Hef i. rewrite Hall by done. split.
    + intros (? & e & ->%list_elem_of_singleton & ?). done.
    + intros (? & ?). split; [done|]. exists ep. split; [by left|done].
Qed.

Lemma graph_parts l : layer_part (nodes_ ix) l (in_layer (nodes_ ix) l).
Proof. split; [done|]. intros i j _. apply lists_ok_linked, Hix. Qed.

(** What follows for the hits. *)
Lemma hits_facts c w :
  layer_result s q (in_layer (nodes_ ix) 0) p c w →
  sorted_by closer (to_hit <$> std_sort far_on_top w) ∧ std_sort far_on_top w ≡ₚ w ∧
  Forall (hit_of s q) (to_hit <$> w).
Proof.
  intros [Hok _ _].
  assert (Forall numbered w) as Hnum by (apply Forall_forall; intros x Hx; by destruct (Hok x Hx) as [[] _]).
  split_and!.
  - apply to_hit_sorted. by apply (std_sort_sorted far_on_top numbered).
  - by apply (std_sort_perm far_on_top numbered).
  - apply Forall_fmap, Forall_forall. intros x Hx. destruct (Hok x Hx) as [[_ Hd _] _].
    unfold dist_to in Hd. by apply result_bind_Ok in Hd.
Qed.

Lemma search_sound : ∃ out, search s q k p ix = Ok out ∧ search_ok s q k p out.
Proof.
  destruct (decide (k = 0 ∨ entry_point_ ix = kInvalidId)) as [Hno|Hyes].
  { exists []. split.
    - unfold search. destruct (Nat.eqb_spec k 0), (decide (entry_point_ ix = kInvalidId)); try done;
        try (by rewrite bool_decide_true). destruct Hno; done.
    - split; [cbn; lia|constructor|constructor|by intros r ?%elem_of_nil..]. }
  destruct (search_core (in_layer (nodes_ ix))) as (start & w & -> & _ & Hres & _);
    [tauto|tauto|apply graph_parts|intros l i; apply in_layer_le; lia|done|].
  destruct (hits_facts _ w Hres) as (Hsort & Hperm & Hhits). destruct Hres as [Hok Hnd _].
  eexists. split; [done|].
  assert (∀ r, r ∈ take k (to_hit <$> std_sort far_on_top w) → r ∈ to_hit <$> w) as Hin.
  { intros r Hr. rewrite <- Hperm. eapply elem_of_sublist; [exact Hr|apply sublist_take]. }
  split.
  - rewrite length_take. lia.
  - rewrite <- (take_drop k) in Hsort. by apply StronglySorted_app in Hsort as (_ & ? & _).
  - rewrite <- fmap_take, ids_of_hits, fmap_take. eapply sublist_NoDup; [|apply sublist_take]. by rewrite Hperm.
  - intros r (c & -> & Hc)%Hin%list_elem_of_fmap. by apply Hok.
  - intros r Hr%Hin. rewrite Forall_forall in Hhits. by apply Hhits.
Qed.

(** Nothing is found when only the slot [i] is live and no link leads to it. *)
Lemma search_empty i :
  (∀ j, j ≠ i → ¬ is_live s j) → (∀ l j, ¬ linked (nodes_ ix) l j i) → entry_point_ ix ≠ i →
  search s q k p ix = Ok [].
Proof.
  intros Hdead Hni Hentry. destruct (decide (k = 0)) as [->|Hk]; [done|].
  destruct (decide (entry_point_ ix = kInvalidId)) as [He|He].
  { unfold search. by rewrite bool_decide_true, orb_true_r. }
  destruct (search_core (others i (nodes_ ix))) as (start & w & -> & _ & [Hok _ _] & _);
    [done|done| | |by split|].
  { intros l. apply others_part; [apply Hix|apply Hni]. }
  { intros l j [Hj ?]. split; [|done]. by apply (in_layer_le _ (S l)); [lia|]. }
  destruct w as [|c w].
  - assert (std_sort far_on_top ([] : list Cand) = []) as ->.
    { apply Permutation_nil_r. by apply (std_sort_perm far_on_top numbered). }
    cbn. by rewrite firstn_nil.
  - destruct (Hok c ltac:(left)) as [[[_ Hne] _ _] El]. unfold eligible in El.
    apply andb_prop_elim in El as [El _]. by destruct (Hdead (cid c) Hne).
Qed.
End Search.

#[export] Instance hnsw_search_laws buildable {HB : MetricTame Met buildable} valid {HT : MetricTame Met valid} :
  @IndexSearchLaws t Met (hnsw_ops params_) buildable (hnsw_laws buildable) valid.
Proof. intros s q k p ix Hwf Hix Hv Hq Hlen Hp. by apply (search_sound valid). Qed.

(** C11: insertion into the HNSW graph ends, reads and writes only existing nodes,
    and keeps the graph well formed: every slot is a node with the layers up to
    its level, the entry point has the highest level, and every list of links
    has no repetition and no self-link, stays inside its layer and has at most
    [M] links ([2 * M] in the base layer). The introspection methods show this. *)
Theorem hnsw_add_keeps_graph (buildable : list word32 → Prop) (s s' : VectorStore.t) (e : string) (i : InternalId)
    (v : list word32) (m : Metadata) (ix : t) :
  MetricTame Met buildable → wf s → inserted s s' e i v m → vecs_ok buildable s' → hnsw_inv s ix →
  ∃ ix', add params_ s' i ix = Ok ix' ∧ hnsw_inv s' ix' ∧ shows_graph s' ix'.
Proof.
  intros Ht Hwf Hins Hv Hix. destruct (add_inv buildable s s' e i v m ix) as (ix' & Ha & Hi); [done..|].
  exists ix'. split_and!; [done|done|by apply inv_shows_graph].
Qed.

(** C12: a search of the HNSW graph ends, stays inside the graph, and returns at
    most [k] different live slots that the allowed-set admits, with their true
    distances, the closest first. *)
Theorem hnsw_search_sound (valid : list word32 → Prop) (s : VectorStore.t) (ix : t) (q : list word32) (k : nat)
    (p : SearchParams) :
  MetricTame Met valid → wf s → hnsw_inv s ix → vecs_ok valid s → valid q → length q = N.to_nat (dim_ s) →
  params_wf p → ∃ out, search s q k p ix = Ok out ∧ search_ok s q k p out.
Proof. intros Ht Hwf Hix Hv Hq Hlen Hp. by apply (search_sound valid). Qed.

(** C13: a search at least as broad as the graph ([max(ef, k)] not below the
    number of slots) is exact on what it reaches: there is a node from which the
    base layer is searched, and the answer are the [k] closest admitted slots
    among those that it reaches, closest first. When it reaches all of them,
    the answer is that of the exact index. *)
Theorem hnsw_broad_search_exact (valid : list word32 → Prop) (s : VectorStore.t) (ix : t) (q : list word32)
    (k : nat) (p : SearchParams) :
  MetricTame Met valid → wf s → hnsw_inv s ix → vecs_ok valid s → valid q → length q = N.to_nat (dim_ s) →
  params_wf p → 0 < slot_count s → (N.of_nat (slot_count s) < 2 ^ 32)%N → 0 < k → slot_count s ≤ Nat.max (ef p) k →
  ∃ start all out, search s q k p ix = Ok out ∧ N.to_nat start < slot_count s ∧
    sorted_by closer out ∧ smallest closer k all out ∧ NoDup (id <$> all) ∧ Forall (hit_of s q) all ∧
    (∀ i, i ∈ id <$> all ↔ eligible s p i ∧ rtc (linked (nodes_ ix) 0) start i) ∧
    ((∀ i, eligible s p i → rtc (linked (nodes_ ix) 0) start i) → search_exact s q k p out).
Proof.
  intros Ht Hwf Hix Hv Hq Hlen Hp Hs Hroom Hk Hb.
  destruct (search_core valid s q k p ix Hwf Hv Hq Hlen Hp Hix (in_layer (nodes_ ix)))
    as (start & w & -> & Hstart & Hres & Hall);
    [lia| |by eapply graph_parts|intros l i; apply in_layer_le; lia|done|].
  { intros E. pose proof (hi_entry s ix Hix ltac:(lia)) as Hen%lookup_lt_Some.
    rewrite length_shape, (hi_slots s ix Hix), E in Hen. unfold kInvalidId in Hen. lia. }
  specialize (Hall Hb). destruct (hits_facts s q p ix _ w Hres) as (Hsort & Hperm & Hhits).
  destruct Hres as [Hok Hnd _].
  assert (sorted_by closer (take k (to_hit <$> std_sort far_on_top w))) as Hsort'.
  { pose proof Hsort as H. rewrite <- (take_drop k) in H. by apply StronglySorted_app in H as (_ & ? & _). }
  assert (smallest closer k (to_hit <$> w) (take k (to_hit <$> std_sort far_on_top w))) as Hsmall.
  { eapply smallest_perm_all; [|by apply smallest_take]. by rewrite Hperm. }
  exists start, (to_hit <$> w), (take k (to_hit <$> std_sort far_on_top w)).
  rewrite ids_of_hits. split_and!; try done. intros Hreach.
  eapply smallest_search_exact; try done; [|intros i; by apply is_live_slot].
  rewrite ids_of_hits. apply NoDup_Permutation; [done| |].
  - apply NoDup_filter, NoDup_fmap; [intros ???; lia|apply NoDup_seq].
  - intros i. rewrite Hall, list_elem_of_filter, list_elem_of_fmap. split; [|by intros [? _]; auto].
    intros [El _]. split; [done|]. exists (N.to_nat i). rewrite N2Nat.id. split; [done|]. apply elem_of_seq.
    assert (is_live s i) as Hl by (unfold eligible in El; by apply andb_prop_elim in El as [? _]).
    pose proof (is_live_slot s i Hwf Hl). lia.
Qed.

(** C40: a defect of the insertion: it takes neighbours only from live nodes, so a
    new entry that is inserted when all others are tombstones gets no link. The
    index accepts it, but unless it happens to become the entry point no search
    returns it, or anything else, whatever its breadth. *)
Theorem hnsw_insert_among_tombstones (valid : list word32 → Prop) (s s' : VectorStore.t) (e : string) (i : InternalId)
    (v : list word32) (m : Metadata) (ix : t) :
  MetricTame Met valid → wf s → inserted s s' e i v m → vecs_ok valid s' → hnsw_inv s ix →
  ext_to_int_ s !! e = None → slot_count s ≠ 0 → (∀ j, is_live s j = false) →
  ∃ ix', add params_ s' i ix = Ok ix' ∧ is_live s' i ∧ (∀ l j, ¬ linked (nodes_ ix') l j i) ∧
    (entry_point_ ix' ≠ i → ∀ q k p, valid q → length q = N.to_nat (dim_ s') → params_wf p →
       search s' q k p ix' = Ok []).
Proof.
  intros Ht Hwf Hins Hv Hix Hnew Hs Hdead. destruct (ins_new _ _ _ _ _ _ Hins Hnew) as [Hi Hs'].
  assert (∀ j, j ≠ i → ¬ is_live s' j) as Hdead'.
  { intros j Hj. rewrite (ins_live _ _ _ _ _ _ Hins), Hdead, bool_decide_false by done. by intros []. }
  assert (vectors_ok s' (slot_count s')) as Hvec by (apply (vectors_ok_tame valid); [apply Hins|done]).
  assert (N.of_nat (slot_count s') ≤ 2 ^ 32)%N as Hroom by apply (wf_slots s'), Hins.
  destruct (add_new s s' ix Hix Hs' Hroom Hvec) as (ix' & Hadd & Hix'). rewrite <- Hi in Hadd.
  exists ix'. split; [done|]. split; [rewrite (ins_live _ _ _ _ _ _ Hins); by rewrite bool_decide_true|].
  destruct (add_placed s s' ix Hix Hs' Hroom Hvec) as (lvl & g & q0 & Hlvl & Hq0 & E).
  rewrite decide_False in E by done.
  destruct (link_node_start s s' ix q0 lvl g Hix Hs Hs' Hlvl Hq0) as (k0 & st0 & Hln & Hns & Hst & Hlen & Hni & Htop).
  rewrite <- Hi in *. rewrite <- Hlen in Hvec, Hq0.
  destruct (link_layers_dead s' i q0 _ Hvec Hq0 k0 st0 Hdead' Hst) as (st1 & Hl1 & E1).
  rewrite E, Hln, Hl1 in Hadd. cbn [mbind result_bind] in Hadd. injection Hadd as <-.
  assert (∀ l j, ¬ linked (nodes_ (finished ix lvl g i st1.1.1)) l j i) as Hni' by (cbn; by rewrite E1, Hns).
  split; [done|]. intros Hentry q k p Hq Hqlen Hp. set (ix' := finished ix lvl g i st1.1.1) in *.
  apply (search_empty valid) with (i := i); try done. apply Hins.
Qed.
End HnswIndex.
End HnswIndex.

#[export] Existing Instances HnswIndex.hnsw_laws HnswIndex.hnsw_search_laws.
