(* ===== verification/Crc32.v ===== *)
(** * The checksum of the log records ([crc32.hpp])

    The table-driven CRC-32. It equals the bit-serial CRC of the reflected
    polynomial, and separates any two messages that differ only within four
    consecutive bytes. *)
From Stdlib Require Import Strings.Byte Strings.String.
From S2P Require Import Prelude.
Local Open Scope N_scope.

Module Crc32.

(** One round of the inner loop of [make_crc32_table]. *)
Definition crc_round (c : N) : N :=
  if negb (N.land c 1 =? 0) then N.lxor 3988292384 (N.shiftr c 1) else N.shiftr c 1.

Fixpoint crc_rounds (k : nat) (c : N) : N :=
  match k with O => c | S k => crc_rounds k (crc_round c) end.

Definition make_crc32_table : list N := (λ i, crc_rounds 8 (N.of_nat i)) <$> seq 0 256.

Definition kCrc32Table : list N := Eval vm_compute in make_crc32_table.

(** The loop body; [static_cast<std::uint8_t>] keeps the low byte. *)
Definition crc_step (c : N) (b : byte) : result N :=
  let idx := N.land (N.lxor c (to_N b)) 255 in
  x ← at_ kCrc32Table (N.to_nat idx);
  Ok (N.lxor x (N.shiftr c 8)).

Fixpoint crc_loop (c : N) (data : list byte) : result N :=
  match data with
  | [] => Ok c
  | b :: data => c' ← crc_step c b; crc_loop c' data
  end.

Definition crc32 (data : list byte) : result N :=
  c ← crc_loop 4294967295 data; Ok (N.lxor c 4294967295).

Example crc32_check : crc32 (list_byte_of_string "123456789") = Ok 3421780262.
Proof. vm_compute. reflexivity. Qed.

(** ** The bit-serial reference *)

Definition crc_feed (c : N) (b : byte) : N := crc_rounds 8 (N.lxor c (to_N b)).

Definition crc_reference (data : list byte) : N :=
  N.lxor (foldl crc_feed 4294967295 data) 4294967295.

Lemma crc_round_alt c :
  crc_round c = N.lxor (if N.odd c then 3988292384 else 0) (N.shiftr c 1).
Proof.
  unfold crc_round. change 1 with (N.ones 1) at 1. rewrite N.land_ones.
  change (2 ^ 1) with 2. rewrite <- N.bit0_mod, N.bit0_odd. by destruct (N.odd c).
Qed.

Lemma crc_round_lxor a b : crc_round (N.lxor a b) = N.lxor (crc_round a) (crc_round b).
Proof.
  rewrite !crc_round_alt, N.shiftr_lxor, <- !N.bit0_odd, N.lxor_spec.
  apply N.bits_inj. intros i. rewrite !N.lxor_spec.
  destruct (N.testbit a 0), (N.testbit b 0); cbn [xorb]; rewrite ?N.bits_0;
    repeat destruct (N.testbit _ i); done.
Qed.

Lemma crc_rounds_lxor k a b : crc_rounds k (N.lxor a b) = N.lxor (crc_rounds k a) (crc_rounds k b).
Proof. revert a b. induction k as [|k IH]; intros a b; [done|]. cbn. by rewrite crc_round_lxor, IH. Qed.

Lemma crc_rounds_add k1 k2 c : crc_rounds (k1 + k2) c = crc_rounds k2 (crc_rounds k1 c).
Proof. revert c. induction k1 as [|k1 IH]; intros c; [done|]. apply IH. Qed.

(** Clear low bits are shifted out. *)
Lemma crc_rounds_shiftl k c : crc_rounds k (N.shiftl c (N.of_nat k)) = c.
Proof.
  revert c. induction k as [|k IH]; intros c; [apply N.shiftl_0_r|].
  rewrite Nat2N.inj_succ. cbn. rewrite crc_round_alt.
  rewrite <- N.bit0_odd, N.shiftl_spec_low by lia. rewrite N.lxor_0_l.
  rewrite N.shiftr_shiftl_l by lia. replace (N.succ (N.of_nat k) - 1) with (N.of_nat k) by lia.
  apply IH.
Qed.

Lemma split_low c : c = N.lxor (N.land c 255) (N.shiftl (N.shiftr c 8) 8).
Proof.
  apply N.bits_inj. intros i. rewrite N.lxor_spec. change 255 with (N.ones 8).
  rewrite N.land_spec. destruct (N.lt_ge_cases i 8).
  - rewrite N.ones_spec_low, N.shiftl_spec_low by done. by destruct (N.testbit c i).
  - rewrite N.ones_spec_high, N.shiftl_spec_high', N.shiftr_spec' by done.
    replace (i - 8 + 8) with i by lia. by destruct (N.testbit c i).
Qed.

Lemma table_lookup i : i < 256 → at_ kCrc32Table (N.to_nat i) = Ok (crc_rounds 8 i).
Proof.
  intros Hi. apply at_Ok. change kCrc32Table with make_crc32_table. unfold make_crc32_table.
  rewrite list_lookup_fmap, lookup_seq_lt by lia. cbn [fmap option_fmap option_map].
  by rewrite Nat.add_0_l, N2Nat.id.
Qed.

Lemma to_N_lt b : to_N b < 256.
Proof. pose proof (Byte.to_N_bounded b). lia. Qed.

Lemma land_255_lt c : N.land c 255 < 256.
Proof. change 255 with (N.ones 8). rewrite N.land_ones. by apply N.mod_lt. Qed.

Lemma crc_step_feed c b : crc_step c b = Ok (crc_feed c b).
Proof.
  unfold crc_step, crc_feed. rewrite table_lookup by apply land_255_lt. cbn [mbind result_bind].
  f_equal. rewrite (split_low (N.lxor c (to_N b))) at 2.
  rewrite crc_rounds_lxor, (crc_rounds_shiftl 8). f_equal.
  rewrite N.shiftr_lxor. rewrite <- (N.lxor_0_r (N.shiftr c 8)) at 1. f_equal.
  symmetry. rewrite N.shiftr_div_pow2. apply N.div_small, to_N_lt.
Qed.

Lemma crc_loop_feed c data : crc_loop c data = Ok (foldl crc_feed c data).
Proof.
  revert c. induction data as [|b data IH]; intros c; [done|]. cbn [crc_loop].
  rewrite crc_step_feed. apply IH.
Qed.

Lemma crc32_feed data : crc32 data = Ok (crc_reference data).
Proof. unfold crc32. by rewrite crc_loop_feed. Qed.

(** ** Width *)

Lemma lxor_lt a b n : a < 2 ^ n → b < 2 ^ n → N.lxor a b < 2 ^ n.
Proof.
  intros Ha Hb. destruct (N.eq_dec (N.lxor a b) 0) as [-> |Hne]; [lia|].
  apply N.log2_lt_pow2; [lia|]. pose proof (N.log2_lxor a b).
  destruct (N.eq_dec a 0) as [-> |], (N.eq_dec b 0) as [-> |]; rewrite ?N.lxor_0_l, ?N.lxor_0_r in *;
    try done; try (apply N.log2_lt_pow2; lia).
  apply N.log2_lt_pow2 in Ha, Hb; lia.
Qed.

Lemma crc_round_lt c : c < 2 ^ 32 → crc_round c < 2 ^ 32.
Proof.
  intros Hc. rewrite crc_round_alt. apply lxor_lt; [by destruct (N.odd c)|].
  rewrite N.shiftr_div_pow2. pose proof (N.Div0.div_le_upper_bound c (2 ^ 1) c). lia.
Qed.

Lemma crc_rounds_lt k c : c < 2 ^ 32 → crc_rounds k c < 2 ^ 32.
Proof. revert c. induction k; intros c Hc; [done|]. by apply IHk, crc_round_lt. Qed.

Lemma crc_feed_lt c b : c < 2 ^ 32 → crc_feed c b < 2 ^ 32.
Proof.
  intros Hc. apply crc_rounds_lt, lxor_lt; [done|]. pose proof (to_N_lt b). lia.
Qed.

Lemma crc_feeds_lt data c : c < 2 ^ 32 → foldl crc_feed c data < 2 ^ 32.
Proof. revert c. induction data; intros c Hc; [done|]. by apply IHdata, crc_feed_lt. Qed.

Lemma crc_reference_lt data : crc_reference data < 2 ^ 32.
Proof. apply lxor_lt; [by apply crc_feeds_lt|done]. Qed.

(** ** Error detection *)

(** The top bit of the result tells whether the polynomial was added. *)
Lemma crc_round_inj a b : a < 2 ^ 32 → b < 2 ^ 32 → crc_round a = crc_round b → a = b.
Proof.
  assert (∀ c, c < 2 ^ 32 → N.testbit (crc_round c) 31 = N.odd c) as Htop.
  { intros c Hc. rewrite crc_round_alt, N.lxor_spec.
    assert (N.testbit (N.shiftr c 1) 31 = false) as ->; [|by destruct (N.odd c)].
    rewrite N.shiftr_spec', <- (N.mod_small c (2 ^ 32)) by done. by apply N.mod_pow2_bits_high. }
  intros Ha Hb E. assert (N.odd a = N.odd b) as Ho by (rewrite <- !Htop by done; by rewrite E).
  rewrite !crc_round_alt, Ho in E.
  assert (N.shiftr a 1 = N.shiftr b 1) as Hs.
  { apply (f_equal (N.lxor (if N.odd b then 3988292384 else 0))) in E.
    by rewrite <- !N.lxor_assoc, N.lxor_nilpotent, !N.lxor_0_l in E. }
  rewrite !N.shiftr_div_pow2 in Hs. change (2 ^ 1) with 2 in Hs.
  rewrite (N.div_mod' a 2), (N.div_mod' b 2), Hs, <- !N.bit0_mod, !N.bit0_odd. by rewrite Ho.
Qed.

Lemma crc_rounds_inj k a b :
  a < 2 ^ 32 → b < 2 ^ 32 → crc_rounds k a = crc_rounds k b → a = b.
Proof.
  revert a b. induction k as [|k IH]; intros a b Ha Hb E; [done|].
  apply crc_round_inj; [done..|]. by apply IH; [apply crc_round_lt..|].
Qed.

Lemma crc_feeds_inj data a b :
  a < 2 ^ 32 → b < 2 ^ 32 → foldl crc_feed a data = foldl crc_feed b data → a = b.
Proof.
  revert a b. induction data as [|x data IH]; intros a b Ha Hb E; [done|].
  apply IH in E; [|by apply crc_feed_lt..]. apply crc_rounds_inj in E; cycle 1.
  1,2: apply lxor_lt; [done|]; pose proof (to_N_lt x); lia.
  apply (f_equal (λ c, N.lxor c (to_N x))) in E.
  by rewrite !N.lxor_assoc, !N.lxor_nilpotent, !N.lxor_0_r in E.
Qed.

(** The bytes of a window as one little-endian number. *)
Fixpoint window (w : list byte) : N :=
  match w with [] => 0 | b :: w => N.lxor (to_N b) (N.shiftl (window w) 8) end.

(** Feeding a window is feeding its number, bit by bit. *)
Lemma crc_feed_window c w :
  foldl crc_feed c w = crc_rounds (8 * length w) (N.lxor c (window w)).
Proof.
  revert c. induction w as [|b w IH]; intros c; [cbn; by rewrite N.lxor_0_r|].
  cbn [foldl length window]. rewrite IH. replace (8 * S (length w))%nat with (8 + 8 * length w)%nat by lia.
  rewrite crc_rounds_add. f_equal. unfold crc_feed.
  rewrite <- N.lxor_assoc, (crc_rounds_lxor 8 (N.lxor c (to_N b))). f_equal.
  symmetry. apply (crc_rounds_shiftl 8).
Qed.

Lemma window_lt w : window w < 2 ^ (8 * N.of_nat (length w)).
Proof.
  induction w as [|b w IH]; [done|]. cbn [window length].
  apply lxor_lt.
  - pose proof (to_N_lt b). assert (2 ^ 8 <= 2 ^ (8 * N.of_nat (S (length w)))); [|lia].
    apply N.pow_le_mono_r; lia.
  - rewrite N.shiftl_mul_pow2. replace (8 * N.of_nat (S (length w))) with (8 * N.of_nat (length w) + 8) by lia.
    rewrite N.pow_add_r. apply N.mul_lt_mono_pos_r; [lia|done].
Qed.

Lemma window_inj w w' : length w = length w' → window w = window w' → w = w'.
Proof.
  revert w'. induction w as [|b w IH]; intros [|b' w'] Hl E; [done..|]. cbn [window] in E.
  assert (∀ b w, N.land (N.lxor (to_N b) (N.shiftl (window w) 8)) 255 = to_N b) as Hlow.
  { intros x v. change 255 with (N.ones 8). apply N.bits_inj. intros i.
    rewrite N.land_spec, N.lxor_spec. destruct (N.lt_ge_cases i 8).
    - rewrite N.ones_spec_low, N.shiftl_spec_low by done. by destruct (N.testbit _ i).
    - rewrite N.ones_spec_high, andb_false_r by done. symmetry.
      rewrite <- (N.mod_small (to_N x) (2 ^ 8)) by apply to_N_lt. by apply N.mod_pow2_bits_high. }
  assert (to_N b = to_N b') as Hb by (rewrite <- (Hlow b w), <- (Hlow b' w'); by rewrite E).
  assert (window w = window w') as Hw.
  { rewrite Hb in E. apply (f_equal (N.lxor (to_N b'))) in E.
    rewrite <- !N.lxor_assoc, N.lxor_nilpotent, !N.lxor_0_l in E.
    apply (f_equal (λ x, N.shiftr x 8)) in E. by rewrite !N.shiftr_shiftl_l, !N.shiftl_0_r in E by done. }
  f_equal; [|apply IH; [by injection Hl|done]].
  apply (f_equal Byte.of_N) in Hb. rewrite !Byte.of_to_N in Hb. by injection Hb.
Qed.

Lemma crc_detects_burst pre w w' post :
  length w = length w' → (length w ≤ 4)%nat →
  crc_reference (pre ++ w ++ post) = crc_reference (pre ++ w' ++ post) → w = w'.
Proof.
  intros Hl H4 E. unfold crc_reference in E. rewrite !foldl_app in E.
  apply (f_equal (λ c, N.lxor c 4294967295)) in E.
  rewrite !N.lxor_assoc, !N.lxor_nilpotent, !N.lxor_0_r in E.
  assert (foldl crc_feed 4294967295 pre < 2 ^ 32) as Hc by by apply crc_feeds_lt.
  revert E Hc. generalize (foldl crc_feed 4294967295 pre). intros c E Hc.
  apply crc_feeds_inj in E; [|by apply crc_feeds_lt..]. rewrite !crc_feed_window, <- Hl in E.
  assert (∀ v, (length v ≤ 4)%nat → N.lxor c (window v) < 2 ^ 32) as Hw.
  { intros v Hv. apply lxor_lt; [done|].
    eapply N.lt_le_trans; [apply window_lt|]. apply N.pow_le_mono_r; lia. }
  apply crc_rounds_inj in E; [|apply Hw; lia..]. apply (f_equal (N.lxor c)) in E.
  rewrite <- !N.lxor_assoc, !N.lxor_nilpotent, !N.lxor_0_l in E. by apply window_inj.
Qed.

(** C31: the checksum is the CRC. The table-driven loop never leaves its table and
    computes the bit-serial CRC, an unsigned 32-bit number, of every message; two
    messages that differ within four consecutive bytes (a flipped byte, a burst
    of 32 bits) have different checksums. *)
Theorem crc32_correct (pre w w' post : list byte) :
  (∀ data, crc32 data = Ok (crc_reference data) ∧ crc_reference data < 2 ^ 32) ∧
  (length w = length w' → (length w ≤ 4)%nat → w ≠ w' →
   crc32 (pre ++ w ++ post) ≠ crc32 (pre ++ w' ++ post)).
Proof.
  split; [intros data; split; [apply crc32_feed|apply crc_reference_lt]|].
  intros Hl H4 Hne. rewrite !crc32_feed. intros [= E]. by eapply Hne, crc_detects_burst.
Qed.

Lemma crc32_correct_witness :
  crc32 ([x01] ++ [x02; x03] ++ [x04]) ≠ crc32 ([x01] ++ [xff; x00] ++ [x04])%byte.
Proof.
  destruct (crc32_correct [x01] [x02; x03] [xff; x00] [x04])%byte as [_ H].
  apply H; [reflexivity|cbn; lia|discriminate].
Defined.
End Crc32.
