(* ===== verification/Bytes.v ===== *)
(** * Memory images of values

    What [memcpy] of an object reads and writes: little-endian bytes, and the
    characters of a string. *)
From Stdlib Require Import Strings.Byte.
From coqutil Require Import Word.Interface Word.Properties Word.Naive Word.LittleEndianList.
From coqutil Require Byte.
From S2P Require Import Prelude Binary.
From Stdlib Require Strings.String.
Local Open Scope Z_scope.

Definition bytes_of_string (s : string) : list byte := String.list_byte_of_string s.
Definition string_of_bytes (bs : list byte) : string := String.string_of_list_byte bs.

(** An unsigned integer of [n] bytes, and back. *)
Definition uint_bytes (n : nat) (v : N) : list byte := le_split n (Z.of_N v).
Definition uint_of (bs : list byte) : N := Z.to_N (le_combine bs).

(** The 4 and 8 bytes of a [float] and of an [int64_t] or [double]. *)
Definition word32_bytes (w : word32) : list byte := le_split 4 (word.unsigned w).
Definition word32_of (bs : list byte) : word32 := word.of_Z (le_combine bs).
Definition word64_bytes (w : word64) : list byte := le_split 8 (word.unsigned w).
Definition word64_of (bs : list byte) : word64 := word.of_Z (le_combine bs).

(** The elements of an array of floats. *)
Fixpoint floats_of (bs : list byte) : list word32 :=
  match bs with
  | b0 :: b1 :: b2 :: b3 :: bs => word32_of [b0; b1; b2; b3] :: floats_of bs
  | _ => []
  end.

Definition floats_bytes (v : list word32) : list byte := concat (word32_bytes <$> v).

Lemma string_of_bytes_of s : string_of_bytes (bytes_of_string s) = s.
Proof. apply String.string_of_list_byte_of_string. Qed.

Lemma length_uint_bytes n v : length (uint_bytes n v) = n.
Proof. apply length_le_split. Qed.

Lemma length_word32_bytes w : length (word32_bytes w) = 4%nat.
Proof. apply length_le_split. Qed.

Lemma length_word64_bytes w : length (word64_bytes w) = 8%nat.
Proof. apply length_le_split. Qed.

Lemma uint_of_bytes n v : (v < 2 ^ N.of_nat (n * 8))%N → uint_of (uint_bytes n v) = v.
Proof.
  intros Hv. unfold uint_of, uint_bytes. rewrite le_combine_split.
  rewrite Z.mod_small; [lia|]. split; [lia|].
  replace (2 ^ (Z.of_nat n * 8)) with (Z.of_N (2 ^ N.of_nat (n * 8))); [lia|].
  rewrite N2Z.inj_pow. f_equal. lia.
Qed.

Lemma bytes_uint_of n bs : length bs = n → uint_bytes n (uint_of bs) = bs.
Proof.
  intros <-. unfold uint_of, uint_bytes. pose proof (le_combine_bound bs).
  rewrite Z2N.id by lia. apply split_le_combine.
Qed.

Lemma uint_of_lt bs : (uint_of bs < 2 ^ (8 * N.of_nat (length bs)))%N.
Proof.
  unfold uint_of. pose proof (le_combine_bound bs).
  replace (2 ^ (8 * N.of_nat (length bs)))%N with (Z.to_N (2 ^ (8 * Z.of_nat (length bs)))); [lia|].
  rewrite Z2N.inj_pow by lia. f_equal. lia.
Qed.

Lemma word32_of_bytes w : word32_of (word32_bytes w) = w.
Proof.
  unfold word32_of, word32_bytes. rewrite le_combine_split.
  change (2 ^ (Z.of_nat 4 * 8)) with (2 ^ 32).
  rewrite Z.mod_small by apply (word.unsigned_range w). apply word.of_Z_unsigned.
Qed.

Lemma word64_of_bytes w : word64_of (word64_bytes w) = w.
Proof.
  unfold word64_of, word64_bytes. rewrite le_combine_split.
  change (2 ^ (Z.of_nat 8 * 8)) with (2 ^ 64).
  rewrite Z.mod_small by apply (word.unsigned_range w). apply word.of_Z_unsigned.
Qed.

Lemma length_floats_bytes v : length (floats_bytes v) = (4 * length v)%nat.
Proof.
  induction v as [|w v IH]; [done|]. unfold floats_bytes in *. cbn [fmap list_fmap concat].
  rewrite length_app, IH, length_word32_bytes. cbn. lia.
Qed.

Lemma floats_of_bytes v : floats_of (floats_bytes v) = v.
Proof.
  induction v as [|w v IH]; [done|]. unfold floats_bytes in *. cbn [fmap list_fmap concat].
  pose proof (length_word32_bytes w) as Hl. rewrite <- (word32_of_bytes w) at 2.
  destruct (word32_bytes w) as [|b0 [|b1 [|b2 [|b3 [|]]]]]; try discriminate Hl.
  cbn [app floats_of]. by rewrite IH.
Qed.

Lemma length_floats_of bs n : length bs = (4 * n)%nat → length (floats_of bs) = n.
Proof.
  revert bs. induction n as [|n IH]; intros bs Hl.
  - by destruct bs.
  - destruct bs as [|b0 [|b1 [|b2 [|b3 bs]]]]; try (cbn in Hl; lia).
    cbn [floats_of length]. f_equal. apply IH. cbn in Hl. lia.
Qed.
