(* ===== verification/OpCodec.v ===== *)
(** * The operation codec ([op_codec.hpp], [op_codec.cpp])

    [encode_op] writes an operation as bytes, [decode_op] reads it back. The
    order in which an [unordered_map] is iterated is a parameter. Decoding
    inverts encoding, reports every truncation and unknown type, and never
    reads out of the record. *)
From Stdlib Require Import Strings.Byte.
From coqutil Require Import Word.Interface Word.LittleEndianList.
From coqutil Require Byte.
From S2P Require Import Prelude Binary Distance Metadata VectorStore Bytes.
Local Open Scope nat_scope.

(** An iteration order of the metadata map. *)
Class MapOrder := {
  iterate : Metadata → list (string * MetaValue);
  iterate_perm m : iterate m ≡ₚ map_to_list m;
}.

Definition list_order : MapOrder := {| iterate := map_to_list; iterate_perm _ := reflexivity _ |}.

(** The values of [OpType] (an [enum class] on [std::uint8_t]). *)
Definition op_type_byte (t : OpType) : N :=
  match t with Insert => 1 | Update => 2 | Delete => 3 end%N.

Definition op_type_of_byte (b : N) : option OpType :=
  match b with
  | 1 => Some Insert | 2 => Some Update | 3 => Some Delete
  | _ => None
  end%N.

Module Writer.
(** [buf_] *)
Definition t := list byte.
Definition raw (bs : list byte) (w : t) : t := w ++ bs.
Definition u8 (v : N) (w : t) : t := raw (uint_bytes 1 v) w.
Definition u32 (v : N) (w : t) : t := raw (uint_bytes 4 v) w.
Definition i64 (v : word64) (w : t) : t := raw (word64_bytes v) w.
Definition f64 (v : word64) (w : t) : t := raw (word64_bytes v) w.
Definition str (s : string) (w : t) : t :=
  raw (bytes_of_string s) (u32 (to_u32 (length (bytes_of_string s))) w).
End Writer.

Module Reader.
Record t := { s_ : list byte; off_ : nat }.

Definition truncated : exn := runtime_error "decode_op: truncated record".

(** The sizes are compared before any unary number is built. *)
Definition raw (n : N) : M t (list byte) :=
  r ← read_state;
  if (N.of_nat (length (s_ r)) <? N.of_nat (off_ r) + n)%N then throw truncated
  else
    _ ← write_state {| s_ := s_ r; off_ := off_ r + N.to_nat n |};
    mret (take (N.to_nat n) (drop (off_ r) (s_ r))).

Definition u8 : M t N := bs ← raw 1; mret (uint_of bs).
Definition u32 : M t N := bs ← raw 4; mret (uint_of bs).
Definition i64 : M t word64 := bs ← raw 8; mret (word64_of bs).
Definition f64 : M t word64 := bs ← raw 8; mret (word64_of bs).
Definition str : M t string :=
  n ← u32;
  if (0 <? n)%N then bs ← raw n; mret (string_of_bytes bs) else mret EmptyString.
End Reader.

Section Codec.
Context `{!MapOrder}.

Definition encode_entry (w : Writer.t) (e : string * MetaValue) : Writer.t :=
  let w := Writer.str e.1 w in
  match e.2 with
  | MInt v => Writer.i64 v (Writer.u8 0 w)
  | MDouble v => Writer.f64 v (Writer.u8 1 w)
  | MString v => Writer.str v (Writer.u8 2 w)
  | MBool v => Writer.u8 (if v then 1 else 0) (Writer.u8 3 w)
  end.

Definition encode_metadata (w : Writer.t) (meta : Metadata) : Writer.t :=
  foldl encode_entry (Writer.u32 (to_u32 (size meta)) w) (iterate meta).

Definition encode_op (op : Op) : list byte :=
  let w := Writer.str (op_ext_id op) (Writer.u8 (op_type_byte (op_type op)) []) in
  match op_type op with
  | Delete => w
  | _ =>
      let w := Writer.u32 (to_u32 (length (op_vec op))) w in
      let w := Writer.raw (floats_bytes (op_vec op)) w in
      match op_meta op with
      | Some meta => encode_metadata (Writer.u8 1 w) meta
      | None => Writer.u8 0 w
      end
  end.
End Codec.

(** One value, after its type byte. *)
Definition decode_value : M Reader.t MetaValue :=
  ty ← Reader.u8;
  match ty with
  | 0 => v ← Reader.i64; mret (MInt v)
  | 1 => v ← Reader.f64; mret (MDouble v)
  | 2 => v ← Reader.str; mret (MString v)
  | 3 => v ← Reader.u8; mret (MBool (negb (v =? 0)))
  | _ => throw (runtime_error "decode_op: unknown metadata value type")
  end%N.

Fixpoint decode_entries (count : nat) (meta : Metadata) : M Reader.t Metadata :=
  match count with
  | O => mret meta
  | S count =>
      key ← Reader.str;
      v ← decode_value;
      decode_entries count (<[key := v]> meta)
  end.

Definition decode_metadata : M Reader.t Metadata :=
  count ← Reader.u32; decode_entries (N.to_nat count) ∅.

Definition decode_fields (ty : OpType) : M Reader.t Op :=
  ext ← Reader.str;
  match ty with
  | Delete => mret {| op_type := ty; op_ext_id := ext; op_vec := []; op_meta := None |}
  | _ =>
      dim ← Reader.u32;
      vec ← (if (0 <? dim)%N then bs ← Reader.raw (dim * 4); mret (floats_of bs) else mret []);
      flag ← Reader.u8;
      meta ← (if (flag =? 0)%N then mret None else m ← decode_metadata; mret (Some m));
      mret {| op_type := ty; op_ext_id := ext; op_vec := vec; op_meta := meta |}
  end.

Definition unknown_op : exn := runtime_error "decode_op: unknown op type".

Definition decode_reader : M Reader.t Op :=
  ty ← Reader.u8;
  match op_type_of_byte ty with
  | None => throw unknown_op
  | Some ty => decode_fields ty
  end.

Definition decode_op (bytes : list byte) : result Op :=
  (decode_reader {| Reader.s_ := bytes; Reader.off_ := 0 |}).1.

(** ** Parsers and the bytes they accept *)

(** The reader [m], at [bs] followed by anything, yields [a] and ends behind
    [bs]; at a proper prefix of [bs] that ends the record it throws. *)
Record parses {A} (m : M Reader.t A) (bs : list byte) (a : A) : Prop := {
  parses_ok pre post :
    m {| Reader.s_ := pre ++ bs ++ post; Reader.off_ := length pre |} =
    (Ok a, {| Reader.s_ := pre ++ bs ++ post; Reader.off_ := length pre + length bs |});
  parses_short pre n :
    n < length bs →
    (m {| Reader.s_ := pre ++ take n bs; Reader.off_ := length pre |}).1 = Throw Reader.truncated;
}.

Lemma parses_ret {A} (a : A) : parses (mret a) [] a.
Proof.
  split; [|by intros pre n Hn; apply Nat.nlt_0_r in Hn].
  intros pre post. unfold mret, M_ret. do 2 f_equal. cbn. lia.
Qed.

Lemma parses_bind {A B} (m : M Reader.t A) (k : A → M Reader.t B) bs1 bs2 a b :
  parses m bs1 a → parses (k a) bs2 b → parses (m ≫= k) (bs1 ++ bs2) b.
Proof.
  intros [H1 S1] [H2 S2]. split.
  - intros pre post. unfold mbind, M_bind. rewrite <- app_assoc, H1.
    specialize (H2 (pre ++ bs1) post). rewrite <- app_assoc, length_app in H2. rewrite H2.
    by rewrite length_app, Nat.add_assoc.
  - intros pre n Hn. unfold mbind, M_bind. rewrite take_app.
    destruct (decide (n < length bs1)).
    + replace (n - length bs1) with 0 by lia. rewrite take_0, app_nil_r.
      specialize (S1 pre n ltac:(lia)). by destruct (m _) as [[?|?] ?]; cbn in *; simplify_eq.
    + rewrite take_ge by lia. rewrite H1. rewrite length_app in Hn.
      specialize (S2 (pre ++ bs1) (n - length bs1) ltac:(lia)).
      by rewrite <- app_assoc, length_app in S2.
Qed.

Lemma parses_fmap {A B} (m : M Reader.t A) (f : A → B) bs a b :
  parses m bs a → f a = b → parses (x ← m; mret (f x)) bs b.
Proof.
  intros H <-. rewrite <- (app_nil_r bs). eapply parses_bind; [done|]. apply parses_ret.
Qed.

Lemma parses_raw bs n : n = N.of_nat (length bs) → parses (Reader.raw n) bs bs.
Proof.
  intros ->. split; unfold Reader.raw, mbind, M_bind, read_state, write_state, throw; cbn -[N.add].
  - intros pre post. rewrite !length_app.
    destruct (N.ltb_spec (N.of_nat (length pre + (length bs + length post)))
      (N.of_nat (length pre) + N.of_nat (length bs))); [lia|].
    by rewrite drop_app_length, Nat2N.id, take_app_length.
  - intros pre k Hk. rewrite length_app, length_take.
    by destruct (N.ltb_spec (N.of_nat (length pre + k `min` length bs))
      (N.of_nat (length pre) + N.of_nat (length bs))); [|lia].
Qed.

(** An unsigned number of [n] bytes. *)
Lemma parses_uint n v :
  (v < 2 ^ N.of_nat (n * 8))%N →
  parses (bs ← Reader.raw (N.of_nat n); mret (uint_of bs)) (uint_bytes n v) v.
Proof.
  intros Hv. eapply parses_fmap; [|by apply uint_of_bytes]. apply parses_raw.
  by rewrite length_uint_bytes.
Qed.

Lemma parses_u8 v : (v < 256)%N → parses Reader.u8 (uint_bytes 1 v) v.
Proof. apply (parses_uint 1). Qed.

Lemma parses_u32 v : (v < 2 ^ 32)%N → parses Reader.u32 (uint_bytes 4 v) v.
Proof. apply (parses_uint 4). Qed.

Lemma parses_64 w : parses Reader.i64 (word64_bytes w) w.
Proof.
  eapply parses_fmap; [|apply word64_of_bytes]. apply parses_raw. by rewrite length_word64_bytes.
Qed.

(** ** Round trip *)

Definition str_sized (s : string) : Prop := (N.of_nat (length (bytes_of_string s)) < 2 ^ 32)%N.

Definition value_sized (v : MetaValue) : Prop :=
  match v with MString s => str_sized s | _ => True end.

Definition meta_sized (m : Metadata) : Prop :=
  (N.of_nat (size m) < 2 ^ 32)%N ∧ map_Forall (λ k v, str_sized k ∧ value_sized v) m.

(** Every length of the operation fits its 32-bit field. *)
Record op_sized (op : Op) : Prop := {
  sized_ext : str_sized (op_ext_id op);
  sized_vec : (N.of_nat (length (op_vec op)) < 2 ^ 32)%N;
  sized_meta m : op_meta op = Some m → meta_sized m;
}.

#[export] Instance str_sized_dec s : Decision (str_sized s).
Proof. unfold str_sized. apply _. Defined.
#[export] Instance value_sized_dec v : Decision (value_sized v).
Proof. destruct v; cbn; apply _. Defined.
#[export] Instance meta_sized_dec m : Decision (meta_sized m).
Proof. unfold meta_sized. apply _. Defined.

(** What the record carries: a deletion has no vector and no metadata. *)
Definition wire_op (op : Op) : Op :=
  match op_type op with
  | Delete => {| op_type := Delete; op_ext_id := op_ext_id op; op_vec := []; op_meta := None |}
  | _ => op
  end.

Definition str_bytes (s : string) : list byte :=
  uint_bytes 4 (to_u32 (length (bytes_of_string s))) ++ bytes_of_string s.

Lemma parses_str s : str_sized s → parses Reader.str (str_bytes s) s.
Proof.
  intros Hs. unfold Reader.str, str_bytes. rewrite to_u32_small by done.
  eapply parses_bind; [by apply parses_u32|].
  destruct (N.ltb_spec 0 (N.of_nat (length (bytes_of_string s)))) as [Hn|Hn].
  - eapply parses_fmap; [by apply parses_raw|apply string_of_bytes_of].
  - assert (bytes_of_string s = []) as E by (apply nil_length_inv; lia).
    rewrite E. rewrite <- (string_of_bytes_of s), E. apply parses_ret.
Qed.

(** The bytes of a metadata value with its type byte, and of an entry. *)
Definition value_bytes (v : MetaValue) : list byte :=
  match v with
  | MInt w => uint_bytes 1 0 ++ word64_bytes w
  | MDouble w => uint_bytes 1 1 ++ word64_bytes w
  | MString s => uint_bytes 1 2 ++ str_bytes s
  | MBool b => uint_bytes 1 3 ++ uint_bytes 1 (if b then 1 else 0)
  end.

Definition entry_bytes (e : string * MetaValue) : list byte := str_bytes e.1 ++ value_bytes e.2.

Lemma parses_value v : value_sized v → parses decode_value (value_bytes v) v.
Proof.
  intros Hv. unfold decode_value, value_bytes.
  destruct v as [w|w|s|b]; (eapply parses_bind; [by apply parses_u8|]).
  - by eapply parses_fmap; [apply parses_64|].
  - by eapply parses_fmap; [apply parses_64|].
  - by eapply parses_fmap; [apply parses_str|].
  - eapply parses_fmap; [apply parses_u8|]; by destruct b.
Qed.

Definition insert_entry (m : Metadata) (e : string * MetaValue) : Metadata := <[e.1 := e.2]> m.

Lemma parses_entries l m :
  Forall (λ e, str_sized e.1 ∧ value_sized e.2) l →
  parses (decode_entries (length l) m) (concat (entry_bytes <$> l)) (foldl insert_entry m l).
Proof.
  intros Hl. revert m. induction Hl as [|[k v] l [Hk Hv] Hl IH]; intros m; [apply parses_ret|].
  cbn [fmap list_fmap concat length decode_entries foldl]. unfold entry_bytes at 1. rewrite <- app_assoc.
  eapply parses_bind; [by apply parses_str|]. eapply parses_bind; [by apply parses_value|].
  apply IH.
Qed.

Lemma foldl_insert_entry m l : l ≡ₚ map_to_list m → foldl insert_entry ∅ l = m.
Proof.
  intros Hl. assert (NoDup l.*1) as Hnd by (rewrite Hl; apply NoDup_fst_map_to_list).
  etrans; [by apply foldl_insert_map|]. rewrite <- (list_to_map_to_list m).
  by apply list_to_map_proper.
Qed.

Section RoundTrip.
Context `{!MapOrder}.

Definition meta_bytes (m : Metadata) : list byte :=
  uint_bytes 4 (to_u32 (size m)) ++ concat (entry_bytes <$> iterate m).

Lemma encode_entries_app l w :
  foldl encode_entry w l = w ++ concat (entry_bytes <$> l).
Proof.
  revert w. induction l as [|[k v] l IH]; intros w; cbn; [by rewrite app_nil_r|].
  rewrite IH, app_assoc. f_equal. unfold encode_entry, entry_bytes, value_bytes, str_bytes.
  destruct v; unfold Writer.str, Writer.i64, Writer.f64, Writer.u8, Writer.u32, Writer.raw; cbn [fst snd];
    by rewrite <- !app_assoc.
Qed.

Lemma parses_metadata m : meta_sized m → parses decode_metadata (meta_bytes m) m.
Proof.
  intros [Hs Hm]. unfold decode_metadata, meta_bytes.
  eapply parses_bind; [apply parses_u32; by apply N.mod_lt|].
  rewrite to_u32_small, Nat2N.id by done.
  assert (size m = length (iterate m)) as ->.
  { by rewrite iterate_perm, length_map_to_list. }
  rewrite <- (foldl_insert_entry m (iterate m)) at 3 by apply iterate_perm.
  apply parses_entries. rewrite iterate_perm. rewrite Forall_forall. intros [k v] Hkv.
  apply elem_of_map_to_list in Hkv. by apply (Hm k v).
Qed.

Definition vec_bytes (v : list word32) : list byte :=
  uint_bytes 4 (to_u32 (length v)) ++ floats_bytes v.

Definition opt_meta_bytes (m : option Metadata) : list byte :=
  match m with Some m => uint_bytes 1 1 ++ meta_bytes m | None => uint_bytes 1 0 end.

Definition op_bytes (op : Op) : list byte :=
  uint_bytes 1 (op_type_byte (op_type op)) ++ str_bytes (op_ext_id op) ++
  match op_type op with Delete => [] | _ => vec_bytes (op_vec op) ++ opt_meta_bytes (op_meta op) end.

Lemma encode_op_bytes op : encode_op op = op_bytes op.
Proof.
  unfold encode_op, op_bytes, opt_meta_bytes, vec_bytes, str_bytes, meta_bytes, encode_metadata.
  destruct (op_type op), (op_meta op); rewrite ?encode_entries_app;
    unfold Writer.str, Writer.u8, Writer.u32, Writer.raw; cbn [app];
    by rewrite <- ?app_assoc, ?app_nil_r.
Qed.

Lemma parses_floats v :
  parses (if (0 <? N.of_nat (length v))%N
          then bs ← Reader.raw (N.of_nat (length v) * 4); mret (floats_of bs) else mret [])
    (floats_bytes v) v.
Proof.
  destruct (N.ltb_spec 0 (N.of_nat (length v))).
  - eapply parses_fmap; [|apply floats_of_bytes]. apply parses_raw.
    rewrite length_floats_bytes. lia.
  - destruct v; [|cbn in *; lia]. apply parses_ret.
Qed.

Definition opt_meta_tail (m : option Metadata) : list byte :=
  match m with Some m => meta_bytes m | None => [] end.

Definition meta_flag (m : option Metadata) : N := match m with Some _ => 1 | None => 0 end%N.

Lemma parses_opt_meta m :
  (∀ m', m = Some m' → meta_sized m') →
  parses (if (meta_flag m =? 0)%N then mret None else m ← decode_metadata; mret (Some m))
    (opt_meta_tail m) m.
Proof.
  intros Hm. destruct m as [m|]; [|apply parses_ret].
  eapply parses_fmap; [|done]. by apply parses_metadata, Hm.
Qed.

(** The tail of a record with a vector. *)
Lemma parses_vec_meta ty ext v m :
  (N.of_nat (length v) < 2 ^ 32)%N → (∀ m', m = Some m' → meta_sized m') →
  parses (dim ← Reader.u32;
          vec ← (if (0 <? dim)%N then bs ← Reader.raw (dim * 4); mret (floats_of bs) else mret []);
          flag ← Reader.u8;
          meta ← (if (flag =? 0)%N then mret None else m ← decode_metadata; mret (Some m));
          mret {| op_type := ty; op_ext_id := ext; op_vec := vec; op_meta := meta |})
    (vec_bytes v ++ opt_meta_bytes m) {| op_type := ty; op_ext_id := ext; op_vec := v; op_meta := m |}.
Proof.
  intros Hv Hm. unfold vec_bytes. rewrite to_u32_small, <- app_assoc by done.
  eapply parses_bind; [by apply parses_u32|]. eapply parses_bind; [apply parses_floats|].
  assert (opt_meta_bytes m = uint_bytes 1 (meta_flag m) ++ opt_meta_tail m) as ->.
  { destruct m; [done|]. by rewrite app_nil_r. }
  eapply parses_bind; [apply parses_u8; by destruct m|].
  eapply parses_fmap; [by apply parses_opt_meta|done].
Qed.

Lemma parses_op op : op_sized op → parses decode_reader (op_bytes op) (wire_op op).
Proof.
  intros [He Hv Hm]. destruct op as [ty e v m]; cbn in *. unfold decode_reader, op_bytes; cbn.
  eapply parses_bind; [apply parses_u8; by destruct ty|].
  assert (op_type_of_byte (op_type_byte ty) = Some ty) as -> by by destruct ty.
  unfold decode_fields. eapply parses_bind; [by apply parses_str|].
  destruct ty; [by apply parses_vec_meta..|apply parses_ret].
Qed.

Lemma decode_encode op post :
  op_sized op → decode_op (encode_op op ++ post) = Ok (wire_op op).
Proof.
  intros Hop. destruct (parses_op op Hop) as [Hp _]. unfold decode_op.
  specialize (Hp [] post). rewrite encode_op_bytes. cbn in Hp. by rewrite Hp.
Qed.

(** C17: decoding inverts encoding, for every iteration order of the metadata
    map: all fields, all four value types, an absent metadata map and an empty
    one come back, a deletion without the fields it does not carry; what
    follows the record is not read. *)
Theorem op_codec_roundtrip (op : Op) (post : list byte) :
  op_sized op → decode_op (encode_op op ++ post) = Ok (wire_op op).
Proof. apply decode_encode. Qed.

(** Every record cut short, at whatever byte, is reported as truncated. *)
Theorem op_codec_truncated (op : Op) (n : nat) :
  op_sized op → n < length (encode_op op) →
  decode_op (take n (encode_op op)) = Throw (runtime_error "decode_op: truncated record").
Proof.
  intros Hop. rewrite encode_op_bytes. intros Hn. destruct (parses_op op Hop) as [_ Hp].
  apply (Hp [] n Hn).
Qed.
End RoundTrip.

(** ** Decoding arbitrary bytes *)

(** A reader that yields a value satisfying [P] or throws a [runtime_error]. *)
Definition guarded {A} (P : A → Prop) (m : M Reader.t A) : Prop :=
  ∀ r, match m r with
       | (Ok a, _) => P a
       | (Throw (runtime_error _), _) => True
       | _ => False
       end.

Lemma guarded_bind {A B} (P : A → Prop) (Q : B → Prop) (m : M Reader.t A) k :
  guarded P m → (∀ a, P a → guarded Q (k a)) → guarded Q (m ≫= k).
Proof.
  intros Hm Hk r. specialize (Hm r). unfold mbind, M_bind.
  destruct (m r) as [[a|[]] r']; try done. by apply Hk.
Qed.

Lemma guarded_ret {A} (P : A → Prop) (a : A) : P a → guarded P (mret a).
Proof. by intros Ha r. Qed.

Lemma guarded_raw n : guarded (λ bs, length bs = N.to_nat n) (Reader.raw n).
Proof.
  intros [s off]. unfold Reader.raw, mbind, M_bind, read_state, write_state, throw; cbn -[N.add].
  destruct (N.ltb_spec (N.of_nat (length s)) (N.of_nat off + n)); [done|]. cbn.
  rewrite length_take, length_drop. lia.
Qed.

Lemma guarded_uint n :
  guarded (λ v, v < 2 ^ (8 * n))%N (bs ← Reader.raw n; mret (uint_of bs)).
Proof.
  eapply guarded_bind; [apply guarded_raw|]. intros bs Hl. apply guarded_ret.
  pose proof (uint_of_lt bs). by rewrite Hl, N2Nat.id in *.
Qed.

Lemma guarded_64 : guarded (λ _, True) Reader.i64.
Proof. eapply guarded_bind; [apply guarded_raw|]. by intros; apply guarded_ret. Qed.

Lemma guarded_str : guarded str_sized Reader.str.
Proof.
  eapply guarded_bind; [apply (guarded_uint 4)|]. intros n Hn. destruct (N.ltb_spec 0 n).
  - eapply guarded_bind; [apply guarded_raw|]. intros bs Hl. apply guarded_ret.
    unfold str_sized, bytes_of_string, string_of_bytes.
    rewrite String.list_byte_of_string_of_list_byte, Hl, N2Nat.id. exact Hn.
  - by apply guarded_ret.
Qed.

Lemma guarded_value : guarded value_sized decode_value.
Proof.
  eapply guarded_bind; [apply (guarded_uint 1)|]. intros ty _.
  destruct ty as [|[[|[]|]|[]|]]; try (by intros r);
    (eapply guarded_bind; [apply guarded_64 || apply guarded_str || apply (guarded_uint 1)|]);
    intros; by apply guarded_ret.
Qed.

Definition entries_sized (m : Metadata) : Prop := map_Forall (λ k v, str_sized k ∧ value_sized v) m.

Lemma guarded_entries n m c :
  entries_sized m → size m ≤ c →
  guarded (λ m', entries_sized m' ∧ size m' ≤ c + n) (decode_entries n m).
Proof.
  revert m c. induction n as [|n IH]; intros m c Hm Hc; cbn [decode_entries].
  - apply guarded_ret. split; [done|lia].
  - eapply guarded_bind; [apply guarded_str|]. intros k Hk.
    eapply guarded_bind; [apply guarded_value|]. intros v Hv r.
    specialize (IH (<[k:=v]> m) (S c)). pose proof (IH) as H. clear IH.
    assert (entries_sized (<[k:=v]> m)) as H1 by (by apply map_Forall_insert_2).
    assert (size (<[k:=v]> m) ≤ S c) as H2.
    { rewrite map_size_insert. destruct (m !! k); cbn; lia. }
    specialize (H H1 H2 r). destruct (decode_entries _ _ r) as [[m'|[]] r']; try done.
    destruct H. split; [done|lia].
Qed.

Lemma guarded_metadata : guarded meta_sized decode_metadata.
Proof.
  eapply guarded_bind; [apply (guarded_uint 4)|]. intros n Hn r.
  pose proof (guarded_entries (N.to_nat n) ∅ 0) as H.
  specialize (H (map_Forall_empty _) ltac:(done) r).
  destruct (decode_entries _ _ r) as [[m'|[]] r']; try done. destruct H as [H1 H2].
  split; [|done]. change (n < 2 ^ 32)%N in Hn. lia.
Qed.

Lemma guarded_op : guarded op_sized decode_reader.
Proof.
  eapply guarded_bind; [apply (guarded_uint 1)|]. intros b _.
  destruct (op_type_of_byte b) as [ty|]; [|by intros r].
  eapply guarded_bind; [apply guarded_str|]. intros e He.
  assert (op_sized {| op_type := ty; op_ext_id := e; op_vec := []; op_meta := None |}) as H0 by by split.
  destruct ty; [| |by apply guarded_ret].
  all: eapply guarded_bind; [apply (guarded_uint 4)|]; intros n Hn; change (n < 2 ^ 32)%N in Hn.
  all: eapply (guarded_bind (λ v, (N.of_nat (length v) < 2 ^ 32)%N)).
  1,3: destruct (N.ltb_spec 0 n); [|by apply guarded_ret];
    eapply guarded_bind; [apply guarded_raw|]; intros bs Hl; cbn beta in Hl; apply guarded_ret;
    rewrite (length_floats_of bs (N.to_nat n)) by lia; by rewrite N2Nat.id.
  all: intros v Hv; eapply guarded_bind; [apply (guarded_uint 1)|]; intros f _.
  all: eapply (guarded_bind (λ m, ∀ m', m = Some m' → meta_sized m')).
  1,3: destruct (f =? 0)%N; [by apply guarded_ret|];
    eapply guarded_bind; [apply guarded_metadata|]; intros m Hm; apply guarded_ret; by intros m' [= <-].
  all: intros m Hm; apply guarded_ret; by split.
Qed.

Lemma uint_of_byte b : uint_of [b] = to_N b.
Proof. unfold uint_of. rewrite le_combine_1. apply N2Z.id. Qed.

(** Any bytes, corrupt or forged, decode to an operation whose lengths fit
    their fields or raise a [runtime_error]; nothing is read out of range, and
    the loops over the counts in the record terminate. A first byte that is no
    operation type is always rejected. *)
Theorem decode_op_total (bytes : list byte) :
  ((∃ op, decode_op bytes = Ok op ∧ op_sized op) ∨
   (∃ what, decode_op bytes = Throw (runtime_error what))) ∧
  match bytes with
  | [] => decode_op bytes = Throw Reader.truncated
  | b :: _ => (1 ≤ to_N b ≤ 3)%N ∨ decode_op bytes = Throw (runtime_error "decode_op: unknown op type")
  end.
Proof.
  split.
  - unfold decode_op. pose proof (guarded_op {| Reader.s_ := bytes; Reader.off_ := 0 |}) as H.
    destruct (decode_reader _) as [[op|[]] r]; try done; [left|right]; eauto.
  - destruct bytes as [|b bytes]; [done|].
    destruct (decide (1 ≤ to_N b ≤ 3)%N) as [|Hb]; [by left|right].
    assert (parses Reader.u8 [b] (to_N b)) as [Hu _].
    { eapply parses_fmap; [by apply parses_raw|apply uint_of_byte]. }
    unfold decode_op, decode_reader, mbind, M_bind. 
    specialize (Hu [] bytes). cbn [app length] in Hu. rewrite Hu.
    unfold op_type_of_byte.
    destruct (to_N b) as [|[[]|[]|]]; try done; cbn in Hb; lia.
Qed.

(** C23: any bytes, corrupt or forged, decode to an operation whose lengths fit
    their fields or raise a [runtime_error]; nothing is read out of range, and
    the loops over the counts in the record terminate. A first byte that is no
    operation type is always rejected, and an encoded operation cut short, at
    whatever byte, is always reported as truncated. *)
Theorem decode_op_robust `{!MapOrder} (bytes : list byte) (op : Op) (n : nat) :
  ((∃ op', decode_op bytes = Ok op' ∧ op_sized op') ∨
   (∃ what, decode_op bytes = Throw (runtime_error what))) ∧
  match bytes with
  | [] => decode_op bytes = Throw Reader.truncated
  | b :: _ => (1 ≤ to_N b ≤ 3)%N ∨ decode_op bytes = Throw (runtime_error "decode_op: unknown op type")
  end ∧
  (op_sized op → n < length (encode_op op) →
   decode_op (take n (encode_op op)) = Throw (runtime_error "decode_op: truncated record")).
Proof.
  destruct (decode_op_total bytes) as [H1 H2]. split_and!; [exact H1|exact H2|apply op_codec_truncated].
Qed.

(** ** Examples *)

Definition demo_meta : Metadata :=
  <["n" := MInt (word.of_Z (-5))]> (<["x" := MDouble (word.of_Z 4609434218613702656)]>
  (<["s" := MString "text"]> (<["b" := MBool true]> ∅))).

Definition demo_op : Op :=
  {| op_type := Insert; op_ext_id := "doc-1"; op_vec := point 3 4; op_meta := Some demo_meta |}.

Lemma demo_op_sized : op_sized demo_op.
Proof. split; [vm_decide|vm_decide|intros m [= <-]; vm_decide]. Defined.

Lemma op_codec_roundtrip_witness :
  decode_op (@encode_op list_order demo_op ++ [x00; xff]) = Ok demo_op.
Proof. apply (@op_codec_roundtrip list_order demo_op [x00; xff]), demo_op_sized. Defined.

Lemma op_codec_truncated_witness :
  decode_op (take 20 (@encode_op list_order demo_op)) =
  Throw (runtime_error "decode_op: truncated record").
Proof.
  apply (@op_codec_truncated list_order demo_op 20); [apply demo_op_sized|].
  vm_compute. lia.
Defined.

Lemma decode_op_robust_witness :
  decode_op (take 20 (@encode_op list_order demo_op)) =
  Throw (runtime_error "decode_op: truncated record").
Proof.
  apply (@decode_op_robust list_order [] demo_op 20); [apply demo_op_sized|].
  vm_compute. lia.
Defined.
