(* ===== verification/LogStore.v ===== *)
(** * The write-ahead log ([log_store.hpp], [log_store.cpp])

    [FileLogStore]: framed, checksummed records appended to a file by [write],
    [fsync] and [read] calls that may be interrupted, be short or fail. The
    outcomes of the calls are part of the state, so that the theorems quantify
    over them. *)
From Stdlib Require Import Strings.Byte.
From S2P Require Import Prelude Crc32 Bytes.
Local Open Scope nat_scope.

Inductive SyncPolicy := Always | GroupCommit | Off.

#[export] Instance SyncPolicy_eq_dec : EqDecision SyncPolicy.
Proof. solve_decision. Defined.

Module LogStore.

(** What a call of [write] does: it writes at most [n] bytes, is interrupted by
    a signal ([EINTR]), or fails. *)
Inductive write_outcome := Wrote (n : nat) | WriteInterrupted | WriteFailed.

(** A [read] that is not at the end of the file returns at least one byte, here
    at most [n + 1]. *)
Inductive read_outcome := ReadUpTo (n : nat) | ReadInterrupted | ReadFailed.

(** [file] is what the process sees. After a power loss the file holds a prefix
    of it with at least the [synced] bytes or, while a truncation has not
    reached the disk, such a prefix of an earlier content in [stale].
    [writes], [syncs], [reads] and [opens] are the outcomes of the next system
    calls ([opens] those of [truncate]); a call beyond them succeeds in full.
    [fd_] tells whether the descriptor is open ([fd_ >= 0]), [read_open] whether
    [replay] can open the file. *)
Record t := {
  file : list byte;
  synced : nat;
  stale : list (list byte * nat);
  writes : list write_outcome;
  syncs : list bool;
  reads : list read_outcome;
  opens : list bool;
  read_open : bool;
  fd_ : bool;
  policy_ : SyncPolicy;
}.

Definition with_file (f : list byte) (ws : list write_outcome) (s : t) : t :=
  {| file := f; synced := synced s; stale := stale s; writes := ws; syncs := syncs s;
     reads := reads s; opens := opens s; read_open := read_open s; fd_ := fd_ s; policy_ := policy_ s |}.

Definition write_failed : exn := system_error "FileLogStore: write failed".
Definition fsync_failed : exn := system_error "FileLogStore: fsync failed".
Definition read_failed : exn := system_error "FileLogStore: read failed".
Definition reopen_failed : exn := system_error "FileLogStore: cannot reopen for replay".
Definition truncate_failed : exn := system_error "FileLogStore: cannot truncate".
Definition open_failed : exn := system_error "FileLogStore: cannot open".

(** The loop of [write_all]: the outcomes left, the rest of the data and the file. *)
Fixpoint write_loop (ws : list write_outcome) (data f : list byte)
    : result () * (list byte * list write_outcome) :=
  match data with
  | [] => (Ok tt, (f, ws))
  | _ =>
      match ws with
      | [] => (Ok tt, (f ++ data, []))
      | Wrote n :: ws => write_loop ws (drop n data) (f ++ take n data)
      | WriteInterrupted :: ws => write_loop ws data f
      | WriteFailed :: ws => (Throw write_failed, (f, ws))
      end
  end.

(** [write] on a closed descriptor fails. *)
Definition write_all (data : list byte) : M t () := λ s,
  if negb (fd_ s) && negb (length data =? 0) then (Throw write_failed, s) else
  let '(r, (f, ws)) := write_loop (writes s) data (file s) in (r, with_file f ws s).

Definition sync : M t () := λ s,
  if decide (policy_ s = Off) then (Ok tt, s)
  else if negb (fd_ s) then (Throw fsync_failed, s)
  else
    let ok := default true (head (syncs s)) in
    (if ok then Ok tt else Throw fsync_failed,
     {| file := file s; synced := if ok then length (file s) else synced s;
        stale := if ok then [] else stale s; writes := writes s; syncs := tail (syncs s);
        reads := reads s; opens := opens s; read_open := read_open s; fd_ := fd_ s; policy_ := policy_ s |}).

Definition header (crc len : N) : list byte := uint_bytes 4 crc ++ uint_bytes 4 len.

Definition append (record : list byte) : M t () :=
  let len := to_u32 (length record) in
  crc ← lift (Crc32.crc32 record);
  _ ← write_all (header crc len);
  _ ← write_all record;
  s ← read_state;
  if decide (policy_ s = Always) then sync else mret tt.

(** [read_exact]: [Some] bytes, or [None] at the end of the file; with the rest
    of the file and the outcomes left. *)
Fixpoint read_exact (rs : list read_outcome) (n : N) (rest acc : list byte)
    : result (option (list byte)) * (list byte * list read_outcome) :=
  if (n =? 0)%N then (Ok (Some acc), (rest, rs))
  else
    match rs with
    | [] =>
        if (N.of_nat (length rest) <? n)%N then (Ok None, ([], []))
        else (Ok (Some (acc ++ take (N.to_nat n) rest)), (drop (N.to_nat n) rest, []))
    | ReadUpTo m :: rs =>
        let c := N.min (N.of_nat (S m)) (N.min n (N.of_nat (length rest))) in
        if (c =? 0)%N then (Ok None, (rest, rs))
        else read_exact rs (n - c) (drop (N.to_nat c) rest) (acc ++ take (N.to_nat c) rest)
    | ReadInterrupted :: rs => read_exact rs n rest acc
    | ReadFailed :: rs => (Throw read_failed, (rest, rs))
    end.

Section Replay.
Context {S : Type} (on_record : list byte → M S ()).

(** The [for (;;)] loop, at most [fuel] times. *)
Fixpoint replay_loop (fuel : nat) (rs : list read_outcome) (rest : list byte) : M S () :=
  match fuel with
  | O => throw out_of_fuel
  | Datatypes.S fuel =>
      match read_exact rs 8 rest [] with
      | (Throw e, _) => throw e
      | (Ok None, _) => mret tt
      | (Ok (Some h), (rest, rs)) =>
          let crc := uint_of (take 4 h) in
          let len := uint_of (drop 4 h) in
          match (if (0 <? len)%N then read_exact rs len rest [] else (Ok (Some []), (rest, rs))) with
          | (Throw e, _) => throw e
          | (Ok None, _) => mret tt
          | (Ok (Some payload), (rest, rs)) =>
              c ← lift (Crc32.crc32 payload);
              if (c =? crc)%N then _ ← on_record payload; replay_loop fuel rs rest
              else mret tt
          end
      end
  end.

(** [replay] of the file of a log; every round reads at least a header. *)
Definition replay (s : t) : M S () :=
  if read_open s then replay_loop (length (file s) + 1) (reads s) (file s) else throw reopen_failed.
End Replay.

(** [close], then [open] with [O_TRUNC]: without a new descriptor the file stays. *)
Definition truncate : M t () := λ s,
  if default true (head (opens s)) then
    (Ok tt, {| file := []; synced := 0; stale := (file s, synced s) :: stale s; writes := writes s;
               syncs := syncs s; reads := reads s; opens := tail (opens s); read_open := read_open s;
               fd_ := true; policy_ := policy_ s |})
  else
    (Throw truncate_failed,
     {| file := file s; synced := synced s; stale := stale s; writes := writes s; syncs := syncs s;
        reads := reads s; opens := tail (opens s); read_open := read_open s; fd_ := false; policy_ := policy_ s |}).

(** The contents that a power loss may leave. *)
Definition crash_image (s : t) (img : list byte) : Prop :=
  ∃ f n, (f, n) ∈ (file s, synced s) :: stale s ∧ ∃ k, n ≤ k ≤ length f ∧ img = take k f.

(** [open] of a file with this content. *)
Definition reopen (img : list byte) (ws : list write_outcome) (ss : list bool) (rs : list read_outcome)
    (policy : SyncPolicy) : t :=
  {| file := img; synced := length img; stale := []; writes := ws; syncs := ss; reads := rs;
     opens := []; read_open := true; fd_ := true; policy_ := policy |}.

(** The constructor; [ok] is the outcome of [open]. *)
Definition make (ok : bool) (s : t) : result t := if ok then Ok s else Throw open_failed.

(** The destructor: [if (fd_ >= 0) ::close(fd_)]. *)
Definition destroy (s : t) : t :=
  {| file := file s; synced := synced s; stale := stale s; writes := writes s; syncs := syncs s; reads := reads s;
     opens := opens s; read_open := read_open s; fd_ := false; policy_ := policy_ s |}.

(** Closing makes nothing durable and loses nothing. *)
Lemma destroy_image s img : crash_image (destroy s) img ↔ crash_image s img.
Proof. done. Qed.

(** ** Frames *)

Definition frame (record : list byte) : list byte :=
  header (Crc32.crc_reference record) (N.of_nat (length record)) ++ record.

Definition frames (records : list (list byte)) : list byte := concat (frame <$> records).

Definition rec_sized (record : list byte) : Prop := (N.of_nat (length record) < 2 ^ 32)%N.

(** Where the replay stops: at the end, inside a header or a payload, or at a
    checksum that does not match. *)
Inductive stops : list byte → Prop :=
| stops_header tail : length tail < 8 → stops tail
| stops_payload crc len tail :
    (crc < 2 ^ 32)%N → (len < 2 ^ 32)%N → (N.of_nat (length tail) < len)%N →
    stops (header crc len ++ tail)
| stops_crc crc record tail :
    (crc < 2 ^ 32)%N → rec_sized record → Crc32.crc_reference record ≠ crc →
    stops (header crc (N.of_nat (length record)) ++ record ++ tail).

Lemma length_header crc len : length (header crc len) = 8.
Proof. unfold header. by rewrite length_app, !length_uint_bytes. Qed.

Lemma header_crc crc len : (crc < 2 ^ 32)%N → uint_of (take 4 (header crc len)) = crc.
Proof.
  intros H. unfold header. rewrite take_app_length' by by rewrite length_uint_bytes.
  by apply uint_of_bytes.
Qed.

Lemma header_len crc len : (len < 2 ^ 32)%N → uint_of (drop 4 (header crc len)) = len.
Proof.
  intros H. unfold header. rewrite drop_app_length' by by rewrite length_uint_bytes.
  by apply uint_of_bytes.
Qed.

Lemma length_frame record : length (frame record) = 8 + length record.
Proof. unfold frame. by rewrite length_app, length_header. Qed.

Lemma frames_app r1 r2 : frames (r1 ++ r2) = frames r1 ++ frames r2.
Proof. unfold frames. by rewrite fmap_app, concat_app. Qed.

Lemma frames_snoc rs r : frames (rs ++ [r]) = frames rs ++ frame r.
Proof. rewrite frames_app. unfold frames at 2; cbn. by rewrite app_nil_r. Qed.

(** ** System calls that are short or interrupted *)

Definition reads_ok (rs : list read_outcome) : Prop := ReadFailed ∉ rs.
Definition writes_ok (ws : list write_outcome) : Prop := WriteFailed ∉ ws.
Definition readable (s : t) : Prop := reads_ok (reads s) ∧ read_open s = true.

Lemma readable_reopen img ws ss rs p : reads_ok rs → readable (reopen img ws ss rs p).
Proof. by split. Qed.

Lemma read_exact_spec rs n rest acc :
  reads_ok rs →
  ∃ rest' rs', reads_ok rs' ∧
    if decide (n ≤ N.of_nat (length rest))%N then
      read_exact rs n rest acc =
      (Ok (Some (acc ++ take (N.to_nat n) rest)), (drop (N.to_nat n) rest, rs'))
    else read_exact rs n rest acc = (Ok None, (rest', rs')).
Proof.
  unfold reads_ok. revert n rest acc. induction rs as [|o rs IH]; intros n rest acc Hrs.
  - exists [], []. split; [done|]. cbn. destruct (N.eqb_spec n 0) as [-> |Hn].
    + rewrite decide_True by lia. by rewrite app_nil_r.
    + case_decide; destruct (N.ltb_spec (N.of_nat (length rest)) n); try done; lia.
  - apply not_elem_of_cons in Hrs as [Ho Hrs]. cbn [read_exact].
    destruct (N.eqb_spec n 0) as [-> |Hn].
    { exists rest, (o :: rs). split; [set_solver|]. rewrite decide_True by lia.
      cbn. by rewrite app_nil_r. }
    destruct o as [m| |]; [|by apply IH|done]. set (c := N.min _ _).
    destruct (N.eqb_spec c 0) as [Hc|Hc].
    { exists rest, rs. split; [done|]. rewrite decide_False by lia. done. }
    destruct (IH (n - c)%N (drop (N.to_nat c) rest) (acc ++ take (N.to_nat c) rest) Hrs)
      as (rest' & rs' & Hrs' & H).
    exists rest', rs'. split; [done|]. rewrite length_drop in H.
    destruct (decide (n ≤ N.of_nat (length rest))%N).
    + rewrite decide_True in H by lia. rewrite H, <- app_assoc, take_take_drop, drop_drop.
      by replace (N.to_nat c + N.to_nat (n - c)) with (N.to_nat n) by lia.
    + rewrite decide_False in H by lia. done.
Qed.

(** [write_all] appends a prefix of its data, all of it unless it throws. *)
Lemma write_loop_spec ws data f :
  ∃ n ws',
    (write_loop ws data f = (Ok tt, (f ++ data, ws')) ∧ (writes_ok ws → writes_ok ws') ∨
     write_loop ws data f = (Throw write_failed, (f ++ take n data, ws')) ∧ ¬ writes_ok ws).
Proof.
  unfold writes_ok. revert data f. induction ws as [|o ws IH]; intros data f.
  - exists 0, []. left. destruct data; cbn; by rewrite ?app_nil_r.
  - destruct data as [|b data].
    { exists 0, (o :: ws). left. cbn. by rewrite app_nil_r. }
    cbn [write_loop]. destruct o as [m| |].
    + destruct (IH (drop m (b :: data)) (f ++ take m (b :: data))) as (n & ws' & H).
      exists (m + n), ws'. destruct H as [[-> H]|[-> H]]; [left|right].
      * rewrite <- app_assoc, take_drop. split; [done|set_solver].
      * split; [|set_solver]. by rewrite <- app_assoc, take_take_drop.
    + destruct (IH (b :: data) f) as (n & ws' & H). exists n, ws'. set_solver.
    + exists 0, ws. right. rewrite app_nil_r. split; [done|set_solver].
Qed.

(** ** Replay *)

Section ReplaySpec.
Context {S : Type} (on_record : list byte → M S ()).

Lemma replay_stop fuel rs tail s :
  reads_ok rs → stops tail → replay_loop on_record (Datatypes.S fuel) rs tail s = (Ok tt, s).
Proof.
  intros Hrs Htail. cbn [replay_loop].
  destruct (read_exact_spec rs 8 tail [] Hrs) as (rest1 & rs1 & Hrs1 & H1).
  destruct Htail as [tail Hl|crc len tail Hcrc Hlen Hl|crc record tail Hcrc Hr Hne].
  - rewrite decide_False in H1 by lia. by rewrite H1.
  - rewrite decide_True in H1 by (rewrite length_app, length_header; lia). rewrite H1.
    cbn [app]. rewrite take_app_length', drop_app_length' by by rewrite length_header.
    rewrite header_len, header_crc by done.
    destruct (N.ltb_spec 0 len); [|lia].
    destruct (read_exact_spec rs1 len tail [] Hrs1) as (rest2 & rs2 & _ & H2).
    rewrite decide_False in H2 by lia. by rewrite H2.
  - rewrite decide_True in H1 by (rewrite length_app, length_header; lia). rewrite H1.
    cbn [app]. rewrite take_app_length', drop_app_length' by by rewrite length_header.
    rewrite header_len, header_crc by done.
    destruct (N.ltb_spec 0 (N.of_nat (length record))) as [Hp|Hp].
    + destruct (read_exact_spec rs1 (N.of_nat (length record)) (record ++ tail) [] Hrs1)
        as (rest2 & rs2 & _ & H2).
      rewrite decide_True in H2 by (rewrite length_app; lia). rewrite H2.
      cbn [app]. rewrite Nat2N.id, take_app_length. unfold mbind, M_bind, lift.
      rewrite Crc32.crc32_feed. by destruct (N.eqb_spec (Crc32.crc_reference record) crc).
    + assert (record = []) as -> by (apply nil_length_inv; lia).
      unfold mbind, M_bind, lift. rewrite Crc32.crc32_feed.
      by destruct (N.eqb_spec (Crc32.crc_reference []) crc).
Qed.

Lemma replay_frame fuel rs record rest s :
  reads_ok rs → rec_sized record →
  ∃ rs', reads_ok rs' ∧
    replay_loop on_record (Datatypes.S fuel) rs (frame record ++ rest) s =
    (_ ← on_record record; replay_loop on_record fuel rs' rest) s.
Proof.
  intros Hrs Hr. unfold frame. rewrite <- app_assoc. cbn [replay_loop].
  destruct (read_exact_spec rs 8 (header (Crc32.crc_reference record) (N.of_nat (length record)) ++ record ++ rest) [] Hrs)
    as (rest1 & rs1 & Hrs1 & H1).
  rewrite decide_True in H1 by (rewrite length_app, length_header; lia). rewrite H1.
  cbn [app]. rewrite take_app_length', drop_app_length' by by rewrite length_header.
  rewrite header_len, header_crc by (done || apply Crc32.crc_reference_lt).
  destruct (N.ltb_spec 0 (N.of_nat (length record))) as [Hp|Hp].
  - destruct (read_exact_spec rs1 (N.of_nat (length record)) (record ++ rest) [] Hrs1)
      as (rest2 & rs2 & Hrs2 & H2).
    rewrite decide_True in H2 by (rewrite length_app; lia). rewrite H2. exists rs2. split; [done|].
    cbn [app]. rewrite Nat2N.id, take_app_length, drop_app_length. unfold mbind at 1, M_bind, lift.
    rewrite Crc32.crc32_feed. by rewrite N.eqb_refl.
  - assert (record = []) as -> by (apply nil_length_inv; lia). exists rs1. split; [done|].
    unfold mbind at 1, M_bind, lift. rewrite Crc32.crc32_feed. by rewrite N.eqb_refl.
Qed.

Lemma replay_frames fuel rs records tail s :
  reads_ok rs → Forall rec_sized records → stops tail → length records < fuel →
  replay_loop on_record fuel rs (frames records ++ tail) s = for_each on_record records s.
Proof.
  intros Hrs Hrec Htail. revert fuel rs s Hrs.
  induction Hrec as [|record records Hr Hrec IH]; intros [|fuel] rs s Hrs Hf; try (cbn in Hf; lia).
  - by apply replay_stop.
  - change (frames (record :: records)) with (frame record ++ frames records). rewrite <- app_assoc.
    destruct (replay_frame fuel rs record (frames records ++ tail) s Hrs Hr) as (rs' & Hrs' & ->).
    cbn. unfold mbind, M_bind. destruct (on_record record s) as [[[]|e] s']; [|done].
    apply IH; [done|]. cbn in Hf. lia.
Qed.

Lemma length_frames records : length records ≤ length (frames records).
Proof.
  induction records as [|r records IH]; [done|]. unfold frames in *. cbn [fmap list_fmap concat length].
  rewrite length_app, length_frame. lia.
Qed.

(** The replay of a file of intact records, whatever follows them. *)
Lemma replay_spec records tail st s :
  readable st → Forall rec_sized records → stops tail → file st = frames records ++ tail →
  replay on_record st s = for_each on_record records s.
Proof.
  intros [Hrs Hop] Hrec Htail Hf. unfold replay. rewrite Hop. rewrite Hf at 2. apply replay_frames; try done.
  rewrite Hf, length_app. pose proof (length_frames records). lia.
Qed.
End ReplaySpec.

(** Every content is a sequence of intact records and a tail where the replay
    stops. *)
Lemma file_frames f :
  ∃ records tail, f = frames records ++ tail ∧ Forall rec_sized records ∧ stops tail.
Proof.
  remember (length f) as n eqn:Hn. revert f Hn.
  induction (lt_wf n) as [n _ IH]; intros f ->.
  destruct (decide (length f < 8)) as [Hs|Hl].
  { exists [], f. split_and!; [done|constructor|by constructor]. }
  set (h := take 8 f). assert (length h = 8) as Hh by (unfold h; rewrite length_take; lia).
  assert (h = header (uint_of (take 4 h)) (uint_of (drop 4 h))) as Hhd.
  { unfold header. rewrite <- (take_drop 4 h) at 1. f_equal; symmetry.
    - apply bytes_uint_of. rewrite length_take. lia.
    - apply bytes_uint_of. rewrite length_drop. lia. }
  assert (∀ bs, length bs = 4 → (uint_of bs < 2 ^ 32)%N) as Hu.
  { intros bs Hb. pose proof (uint_of_lt bs) as H. by rewrite Hb in H. }
  pose proof (Hu (take 4 h) ltac:(rewrite length_take; lia)) as Hcrc.
  pose proof (Hu (drop 4 h) ltac:(rewrite length_drop; lia)) as Hlen.
  set (crc := uint_of (take 4 h)) in *. set (len := uint_of (drop 4 h)) in *.
  assert (f = header crc len ++ drop 8 f) as Hf by (rewrite <- Hhd; symmetry; apply take_drop).
  destruct (N.lt_ge_cases (N.of_nat (length (drop 8 f))) len) as [Hp|Hp].
  { exists [], f. split_and!; [done|constructor|]. rewrite Hf. by constructor. }
  set (record := take (N.to_nat len) (drop 8 f)).
  assert (length record = N.to_nat len) as Hr by (unfold record; rewrite length_take; lia).
  assert (rec_sized record) as Hrs by (unfold rec_sized; rewrite Hr; lia).
  assert (len = N.of_nat (length record)) as Hle by lia.
  assert (f = header crc (N.of_nat (length record)) ++ record ++ drop (N.to_nat len) (drop 8 f)) as Hf2.
  { unfold record at 2. by rewrite take_drop, <- Hle. }
  destruct (N.eq_dec (Crc32.crc_reference record) crc) as [E|E].
  - destruct (IH (length (drop (N.to_nat len) (drop 8 f))) ltac:(rewrite !length_drop; lia) _ eq_refl)
      as (records & tail & Htl & Hrecs & Hst).
    exists (record :: records), tail. split_and!; [|by constructor|done].
    change (frames (record :: records)) with (frame record ++ frames records).
    unfold frame. by rewrite <- !app_assoc, E, <- Htl.
  - exists [], f. split_and!; [done|constructor|]. rewrite Hf2. by constructor.
Qed.

(** ** Append *)

Definition syncs_ok (ss : list bool) : Prop := false ∉ ss.

Record healthy (s : t) : Prop := {
  healthy_writes : writes_ok (writes s);
  healthy_syncs : syncs_ok (syncs s);
  healthy_reads : readable s;
  healthy_fd : fd_ s = true;
  healthy_opens : syncs_ok (opens s);
}.

Lemma write_all_ok data s :
  healthy s →
  ∃ ws, write_all data s = (Ok tt, with_file (file s ++ data) ws s) ∧
        healthy (with_file (file s ++ data) ws s).
Proof.
  intros [Hw Hs Hr Hfd Ho]. destruct (write_loop_spec (writes s) data (file s)) as (n & ws & [[H Hok]|[_ H]]);
    [|done].
  exists ws. unfold write_all. rewrite Hfd. cbn [negb andb]. rewrite H. split; [done|]. split; cbn; auto.
Qed.

Lemma sync_ok s :
  healthy s →
  ∃ s', sync s = (Ok tt, s') ∧ healthy s' ∧ file s' = file s ∧ policy_ s' = policy_ s ∧
    if decide (policy_ s = Off) then s' = s else synced s' = length (file s) ∧ stale s' = [].
Proof.
  intros [Hw Hs Hr Hfd Ho]. unfold sync. case_decide; [by exists s|]. rewrite Hfd. cbn [negb].
  assert (default true (head (syncs s)) = true) as ->.
  { unfold syncs_ok in Hs. destruct (syncs s) as [|[] ss]; set_solver. }
  eexists. split_and!; [done| |done..]. split; cbn; try done.
  unfold syncs_ok in *. destruct (syncs s); set_solver.
Qed.

Lemma append_ok record s :
  healthy s → rec_sized record →
  ∃ s', append record s = (Ok tt, s') ∧ healthy s' ∧ file s' = file s ++ frame record ∧
    policy_ s' = policy_ s ∧
    if decide (policy_ s = Always) then synced s' = length (file s') ∧ stale s' = []
    else synced s' = synced s ∧ stale s' = stale s.
Proof.
  intros Hs Hr. unfold append. rewrite to_u32_small by done.
  unfold mbind, M_bind, lift, read_state, mret, M_ret. rewrite Crc32.crc32_feed.
  destruct (write_all_ok (header (Crc32.crc_reference record) (N.of_nat (length record))) s Hs)
    as (ws1 & -> & H1).
  destruct (write_all_ok record _ H1) as (ws2 & -> & H2).
  cbn [with_file policy_]. case_decide as Hp.
  - destruct (sync_ok _ H2) as (s' & -> & H3 & Hf & Hp' & H4). cbn in Hp', H4, Hf.
    exists s'. rewrite decide_False in H4 by congruence. rewrite Hf.
    unfold frame. rewrite app_assoc. by split_and!; try apply H4.
  - eexists. split_and!; [done|done| |done..]. cbn. unfold frame. by rewrite app_assoc.
Qed.

Lemma appends_ok records s :
  healthy s → Forall rec_sized records →
  ∃ s', for_each append records s = (Ok tt, s') ∧ healthy s' ∧
    file s' = file s ++ frames records ∧ policy_ s' = policy_ s ∧
    (policy_ s = Always → records ≠ [] → synced s' = length (file s') ∧ stale s' = []) ∧
    (policy_ s ≠ Always → synced s' = synced s ∧ stale s' = stale s).
Proof.
  intros Hs Hrec. revert s Hs. induction Hrec as [|record records Hr Hrec IH]; intros s Hs.
  { exists s. cbn. rewrite app_nil_r. by split_and!. }
  destruct (append_ok record s Hs Hr) as (s1 & H1 & Hs1 & Hf1 & Hp1 & Hd1).
  destruct (IH s1 Hs1) as (s2 & H2 & Hs2 & Hf2 & Hp2 & Hd2 & Hg2).
  exists s2. cbn. unfold mbind, M_bind. rewrite H1. split_and!; try done.
  - rewrite Hf2, Hf1, <- app_assoc. done.
  - congruence.
  - intros Hp _. rewrite decide_True in Hd1 by done. destruct records as [|r records].
    + cbn in H2. injection H2 as <-. done.
    + apply Hd2; congruence.
  - intros Hp. rewrite decide_False in Hd1 by done. destruct Hd1 as [<- <-]. apply Hg2. congruence.
Qed.

(** Whatever the calls do, a prefix of the data is written. *)
Lemma write_all_cases data s :
  ∃ n ws, write_all data s = (Ok tt, with_file (file s ++ data) ws s) ∨
    write_all data s = (Throw write_failed, with_file (file s ++ take n data) ws s).
Proof.
  unfold write_all. destruct (negb (fd_ s) && negb (length data =? 0)).
  { exists 0, (writes s). right. rewrite app_nil_r. by destruct s. }
  destruct (write_loop_spec (writes s) data (file s)) as (n & ws & [[-> _]|[-> _]]); exists n, ws; auto.
Qed.

(** A failed call of [write] leaves a torn record. *)
Lemma append_failed record s e s' :
  rec_sized record → append record s = (Throw e, s') →
  e = fsync_failed ∧ file s' = file s ++ frame record ∨
  e = write_failed ∧ ∃ n, file s' = file s ++ take n (frame record).
Proof.
  intros Hr. unfold append. rewrite to_u32_small by done.
  unfold mbind, M_bind, lift, read_state, mret, M_ret. rewrite Crc32.crc32_feed.
  set (h := header _ _). destruct (write_all_cases h s) as (n & ws & [-> | ->]).
  2:{ intros [= <- <-]. right. split; [done|]. exists (min n 8). cbn. unfold frame. fold h.
      rewrite take_app_le by (unfold h; rewrite length_header; lia).
      f_equal. destruct (decide (n ≤ 8)); [by rewrite Nat.min_l|].
      rewrite Nat.min_r, !take_ge by (unfold h; rewrite ?length_header; lia). done. }
  destruct (write_all_cases record (with_file (file s ++ h) ws s)) as (m & ws' & [-> | ->]).
  - cbn [with_file policy_]. case_decide; [|done]. unfold sync; cbn [with_file policy_].
    case_decide; [done|]. assert (∀ s2, fsync_failed = e ∧ s2 = s' → file s2 = (file s ++ h) ++ record →
      e = fsync_failed ∧ file s' = file s ++ frame record ∨ e = write_failed ∧
      ∃ n, file s' = file s ++ take n (frame record)) as Hfin.
    { intros s2 [<- <-] E. left. split; [done|]. rewrite E. unfold frame. by rewrite app_assoc. }
    destruct (negb _); [intros [= E1 E2]; by eapply Hfin|].
    destruct (default true _); [done|]. intros [= E1 E2]. by eapply Hfin.
  - intros [= <- <-]. right. split; [done|]. exists (8 + m). cbn. unfold frame. fold h.
    rewrite <- app_assoc. by f_equal.
Qed.

(** [truncate], when [open] succeeds. *)
Definition truncated (s : t) : t :=
  {| file := []; synced := 0; stale := (file s, synced s) :: stale s; writes := writes s;
     syncs := syncs s; reads := reads s; opens := tail (opens s); read_open := read_open s;
     fd_ := true; policy_ := policy_ s |}.

(** A log with other outcomes of [open] to come. *)
Definition with_opens (os : list bool) (fd : bool) (s : t) : t :=
  {| file := file s; synced := synced s; stale := stale s; writes := writes s; syncs := syncs s;
     reads := reads s; opens := os; read_open := read_open s; fd_ := fd; policy_ := policy_ s |}.

Lemma with_opens_healthy os s : healthy s → syncs_ok os → healthy (with_opens os true s).
Proof. intros [? ? ? ? ?] ?. by split. Qed.

(** A log without a descriptor takes no record. *)
Lemma append_closed record s : rec_sized record → fd_ s = false → append record s = (Throw write_failed, s).
Proof.
  intros Hr Hfd. unfold append, mbind, M_bind, lift. rewrite Crc32.crc32_feed. unfold write_all.
  by rewrite length_header, Hfd.
Qed.

Lemma truncate_ok s : healthy s → truncate s = (Ok tt, truncated s) ∧ healthy (truncated s).
Proof.
  intros [Hw Hs Hr Hfd Ho]. unfold truncate. assert (default true (head (opens s)) = true) as ->.
  { unfold syncs_ok in Ho. destruct (opens s) as [|[] os]; set_solver. }
  split; [done|]. split; cbn; try done. unfold syncs_ok in *. destruct (opens s); set_solver.
Qed.

(** ** Torn files *)

Lemma stops_nil : stops [].
Proof. constructor. cbn. lia. Qed.

Lemma torn_frame_stops record n :
  rec_sized record → n < length (frame record) → stops (take n (frame record)).
Proof.
  intros Hr. rewrite length_frame. intros Hn. destruct (decide (n < 8)).
  { constructor. rewrite length_take. lia. }
  unfold frame. rewrite take_app, take_ge by (rewrite length_header; lia). constructor; [|done|].
  - apply Crc32.crc_reference_lt.
  - rewrite length_take, length_header. lia.
Qed.

(** A prefix of a file of intact records is the frames of the first ones and a
    torn tail; it holds every record that ends within the prefix. *)
Lemma frames_prefix records n :
  Forall rec_sized records →
  ∃ j tail, take n (frames records) = frames (take j records) ++ tail ∧ stops tail ∧
    j ≤ length records ∧
    ∀ m, m ≤ length records → length (frames (take m records)) ≤ n → m ≤ j.
Proof.
  intros Hrec. revert n. induction Hrec as [|r records Hr Hrec IH]; intros n.
  { exists 0, []. split_and!; [by destruct n|apply stops_nil|cbn; lia|cbn; lia]. }
  change (frames (r :: records)) with (frame r ++ frames records).
  destruct (decide (n < length (frame r))) as [Hn|Hn].
  - exists 0, (take n (frame r)). rewrite take_app_le by lia.
    split_and!; [done|by apply torn_frame_stops|cbn; lia|].
    intros [|m] Hm Hl; [done|]. exfalso. cbn [take] in Hl.
    change (frames (r :: take m records)) with (frame r ++ frames (take m records)) in Hl.
    rewrite length_app in Hl. lia.
  - destruct (IH (n - length (frame r))) as (j & tail & E & Hst & Hj & Hmax).
    exists (S j), tail. rewrite take_app, (take_ge (frame r)) by lia. rewrite E. split_and!.
    + cbn [take]. change (frames (r :: take j records)) with (frame r ++ frames (take j records)).
      by rewrite app_assoc.
    + done.
    + cbn. lia.
    + intros [|m] Hm Hl; [lia|]. cbn [take] in Hl.
      change (frames (r :: take m records)) with (frame r ++ frames (take m records)) in Hl.
      rewrite length_app in Hl. cbn in Hm. specialize (Hmax m ltac:(lia) ltac:(lia)). lia.
Qed.

(** What a power loss leaves of a log of intact records whose first [m] are on
    the disk. *)
Lemma crash_frames s records m img :
  Forall rec_sized records → file s = frames records → stale s = [] → m ≤ length records →
  length (frames (take m records)) ≤ synced s → crash_image s img →
  ∃ j tail, m ≤ j ≤ length records ∧ img = frames (take j records) ++ tail ∧ stops tail.
Proof.
  intros Hrec Hf Hst Hm Hl (f & n & Hin & k & Hk & ->). rewrite Hst in Hin.
  apply list_elem_of_singleton in Hin. injection Hin as -> ->. rewrite Hf.
  destruct (frames_prefix records k Hrec) as (j & tail & E & Hstop & Hj & Hmax).
  exists j, tail. split_and!; [|done..]. apply Hmax; [done|lia].
Qed.

(** ** Properties *)

(** C19: whatever the file holds, and however the reads are split or interrupted,
    the replay terminates and calls back once for each record of the longest
    prefix of intact records, in order (a callback that throws ends it), and
    for nothing after that prefix. *)
Theorem log_replay_total (st : t) :
  readable st →
  ∃ records tail, file st = frames records ++ tail ∧ stops tail ∧ Forall rec_sized records ∧
    ∀ S (on_record : list byte → M S ()) (s : S),
      replay on_record st s = for_each on_record records s.
Proof.
  intros Hrs. destruct (file_frames (file st)) as (records & tail & Hf & Hrec & Hstop).
  exists records, tail. split_and!; [done..|]. intros S on_record s. by eapply replay_spec.
Qed.

(** The records that were appended are replayed, after the old ones and in
    append order, however the writes and reads were split or interrupted. *)
Lemma log_append_replay (s : t) (old records : list (list byte)) :
  healthy s → Forall rec_sized (old ++ records) → file s = frames old →
  ∃ s', for_each append records s = (Ok tt, s') ∧
    ∀ S (on_record : list byte → M S ()) (st : S),
      replay on_record s' st = for_each on_record (old ++ records) st.
Proof.
  intros Hs Hrec Hf. pose proof Hrec as [_ Hnew]%Forall_app.
  destruct (appends_ok records s Hs Hnew) as (s' & H & Hs' & Hf' & _). exists s'. split; [done|].
  intros S on_record st. apply (replay_spec on_record _ []); [apply Hs'|done|apply stops_nil|].
  by rewrite Hf', Hf, app_nil_r, frames_app.
Qed.

(** How many records a power loss spares: those that the log held before, or
    all of them once they are synced. *)
Lemma durable_records s old records st :
  healthy s → Forall rec_sized records → file s = frames old → stale s = [] →
  synced s = length (file s) →
  for_each append records s = (Ok tt, st) ∨ (_ ← for_each append records; sync) s = (Ok tt, st) →
  ∃ m, length old ≤ m ≤ length (old ++ records) ∧ file st = frames (old ++ records) ∧
    stale st = [] ∧ length (frames (take m (old ++ records))) ≤ synced st ∧
    (policy_ s = Always ∨
     policy_ s = GroupCommit ∧ (_ ← for_each append records; sync) s = (Ok tt, st) →
     m = length (old ++ records)).
Proof.
  intros Hs Hnew Hf Hst Hsy Hrun.
  destruct (appends_ok records s Hs Hnew) as (s1 & H1 & Hs1 & Hf1 & Hp1 & Ha & Hg).
  destruct (sync_ok s1 Hs1) as (s2 & H2 & _ & Hf2 & _ & Hy).
  assert ((_ ← for_each append records; sync) s = (Ok tt, s2)) as H12
    by (unfold mbind, M_bind; by rewrite H1).
  rewrite H12 in Hrun |- *. rewrite H1 in Hrun. rewrite Hf, <- frames_app in Hf1.
  assert (file st = frames (old ++ records)) as Hfs by (destruct Hrun; simplify_eq; congruence).
  assert (length old ≤ length (old ++ records)) as Hle by (rewrite length_app; lia).
  assert (synced st = length (file st) ∧ stale st = [] ∨
    synced st = length (frames old) ∧ stale st = [] ∧ policy_ s ≠ Always ∧
    (policy_ s = GroupCommit → st ≠ s2)) as [[E1 E2]|(E1 & E2 & Hp & Hne)].
  { assert (st = s2 ∧ policy_ s ≠ Off ∨ st = s1) as [[-> Hp]| ->].
    { rewrite Hp1 in Hy. destruct Hrun as [|]; simplify_eq; [by right|].
      case_decide; [right|left]; done. }
    - left. rewrite Hp1, decide_False in Hy by done. by rewrite Hf2.
    - destruct (decide (policy_ s = Always)) as [Hp|Hp].
      + left. destruct records as [|r records]; [|by apply Ha]. cbn in H1. by injection H1 as <-.
      + destruct (Hg Hp) as [E1 E2]. rewrite Hst in E2.
        destruct (decide (synced s1 = length (file s1))) as [|Hn]; [by left|right].
        split_and!; [by rewrite E1, Hsy, Hf|done|done|]. intros Hgc <-.
        rewrite Hp1, decide_False in Hy by congruence. by destruct Hy. }
  - exists (length (old ++ records)). rewrite take_ge, E1, Hfs by done. by split_and!.
  - exists (length old). rewrite take_app_length, E1. split_and!; try done.
    intros [|[Hgc E]]; [done|]. injection E as <-. naive_solver.
Qed.

(** C18: durability. After a power loss at any moment, a log whose old records
    were on the disk replays them and a prefix of the appended ones, never a
    part of a record; under [SyncPolicy::Always], or once [sync] was called
    under [GroupCommit], it replays all of them. Without a power loss the log
    replays the old and the appended records in append order, however the writes
    and reads were split or interrupted. *)
Theorem log_crash_prefix (s : t) (old records : list (list byte)) :
  healthy s → Forall rec_sized (old ++ records) → file s = frames old → stale s = [] →
  synced s = length (file s) →
  ∃ s1 s2, for_each append records s = (Ok tt, s1) ∧ sync s1 = (Ok tt, s2) ∧
    (∀ S (on_record : list byte → M S ()) (c : S),
       replay on_record s1 c = for_each on_record (old ++ records) c) ∧
    ∀ st img ws ss rs p, (st = s1 ∨ st = s2) → crash_image st img → reads_ok rs →
      ∃ j, length old ≤ j ≤ length (old ++ records) ∧
        (policy_ s = Always ∨ policy_ s = GroupCommit ∧ st = s2 → j = length (old ++ records)) ∧
        ∀ S (on_record : list byte → M S ()) (c : S),
          replay on_record (reopen img ws ss rs p) c = for_each on_record (take j (old ++ records)) c.
Proof.
  intros Hs Hrec Hf Hst Hsy. pose proof Hrec as [_ Hnew]%Forall_app.
  destruct (appends_ok records s Hs Hnew) as (s1 & H1 & Hs1 & _).
  destruct (sync_ok s1 Hs1) as (s2 & H2 & _).
  destruct (log_append_replay s old records Hs Hrec Hf) as (s1' & H1' & Hreplay). rewrite H1 in H1'. injection H1' as <-.
  exists s1, s2. split_and!; [done..|]. intros st img ws ss rs p Hwhich Hcrash Hrs.
  assert ((_ ← for_each append records; sync) s = (Ok tt, s2)) as H12
    by (unfold mbind, M_bind; by rewrite H1).
  destruct (durable_records s old records st) as (m & Hm & Hfs & Hss & Hms & Hall); try done.
  { destruct Hwhich as [-> | ->]; auto. }
  assert (policy_ s = Always ∨ policy_ s = GroupCommit ∧ st = s2 → m = length (old ++ records)) as Hall'
    by (intros [?|[? ->]]; apply Hall; auto).
  destruct (crash_frames st (old ++ records) m img) as (j & tail & Hj & -> & Hstop); try done; [lia|].
  exists j. split_and!; [lia|lia|intros Hw; specialize (Hall' Hw); lia|].
  intros S on_record c. eapply replay_spec; [by apply readable_reopen| |done|done]. by apply Forall_take.
Qed.

(** Whether the bytes start with a record whose checksum matches. *)
Definition intact_front (bs : list byte) : bool :=
  let payload := drop 8 bs in
  let len := uint_of (drop 4 (take 8 bs)) in
  (8 <=? length bs) && (len <=? N.of_nat (length payload))%N &&
  (Crc32.crc_reference (take (N.to_nat len) payload) =? uint_of (take 4 bs))%N.

Lemma intact_front_header crc len rest :
  (crc < 2 ^ 32)%N → (len < 2 ^ 32)%N →
  intact_front (header crc len ++ rest) =
    ((len <=? N.of_nat (length rest)) && (Crc32.crc_reference (take (N.to_nat len) rest) =? crc))%N.
Proof.
  intros Hcrc Hlen. unfold intact_front. rewrite take_app_length', drop_app_length' by by rewrite length_header.
  rewrite header_len by done. rewrite take_app_le by (rewrite length_header; lia).
  rewrite header_crc by done. rewrite length_app, length_header. done.
Qed.

Lemma intact_front_frame record rest : rec_sized record → intact_front (frame record ++ rest) = true.
Proof.
  intros Hr. unfold frame. rewrite <- app_assoc, intact_front_header by (done || apply Crc32.crc_reference_lt).
  rewrite length_app, Nat2N.id, take_app_length, N.eqb_refl, andb_true_r. apply N.leb_le. lia.
Qed.

Lemma intact_front_stops bs : stops bs → intact_front bs = false.
Proof.
  destruct 1 as [bs Hl|crc len rest Hcrc Hlen Hl|crc record rest Hcrc Hr Hne].
  - unfold intact_front. by destruct (Nat.leb_spec 8 (length bs)); [lia|].
  - rewrite intact_front_header by done. by destruct (N.leb_spec len (N.of_nat (length rest))); [lia|].
  - rewrite intact_front_header, Nat2N.id, take_app_length by done.
    apply andb_false_intro2. by apply N.eqb_neq.
Qed.

(** The records at the front of any bytes; there are some if the first is intact. *)
Lemma intact_front_frames bs :
  ∃ records tail, bs = frames records ++ tail ∧ stops tail ∧ Forall rec_sized records ∧
    (intact_front bs = false ↔ records = []).
Proof.
  destruct (file_frames bs) as (records & tail & -> & Hrec & Hstop). exists records, tail. split_and!; [done..|].
  destruct Hrec as [|r records Hr Hrec]; [by split; [|intros; apply intact_front_stops]|].
  change (frames (r :: records)) with (frame r ++ frames records).
  by rewrite <- app_assoc, intact_front_frame.
Qed.

(** Appending behind any bytes succeeds and can be synced; the replay goes on
    behind the intact records of the old file only if those bytes, together with
    the new frames, start with an intact record. *)
Lemma append_behind (s : t) (old : list (list byte)) (bs : list byte) (later : list (list byte)) :
  healthy s → Forall rec_sized old → Forall rec_sized later → file s = frames old ++ bs →
  ∃ s1 s2, for_each append later s = (Ok tt, s1) ∧ sync s1 = (Ok tt, s2) ∧
    file s1 = frames old ++ bs ++ frames later ∧ file s2 = file s1 ∧ readable s1 ∧ readable s2 ∧
    (policy_ s = Always → later ≠ [] → synced s1 = length (file s1)) ∧
    (policy_ s ≠ Off → synced s2 = length (file s2) ∧ stale s2 = []) ∧
    ∃ extra tail, bs ++ frames later = frames extra ++ tail ∧ stops tail ∧
      (intact_front (bs ++ frames later) = false ↔ extra = []) ∧
      ∀ st S (on_record : list byte → M S ()) (c : S), st = s1 ∨ st = s2 →
        replay on_record st c = for_each on_record (old ++ extra) c.
Proof.
  intros Hs Hold Hlater Hf. destruct (appends_ok later s Hs Hlater) as (s1 & H1 & Hs1 & Hf1 & Hp1 & Ha & _).
  destruct (sync_ok s1 Hs1) as (s2 & H2 & Hs2 & Hf2 & _ & Hy). rewrite Hf, <- app_assoc in Hf1.
  exists s1, s2. split_and!; [done..|apply Hs1|apply Hs2|intros; by apply Ha| |].
  - intros Hp. rewrite Hp1, decide_False in Hy by done. by rewrite Hf2.
  - destruct (intact_front_frames (bs ++ frames later)) as (extra & tail & E & Hstop & Hx & Hi).
    exists extra, tail. split_and!; [done..|]. intros st S on_record c Hst.
    apply (replay_spec on_record _ tail);
      [destruct Hst as [-> | ->]; [apply Hs1|apply Hs2]|by apply Forall_app|done|].
    rewrite frames_app, <- app_assoc, <- E. destruct Hst as [-> | ->]; [done|by rewrite Hf2].
Qed.

(** Where a failed [append] leaves the file. *)
Lemma append_torn record s s' e :
  rec_sized record → append record s = (Throw e, s') →
  ∃ n, n ≤ length (frame record) ∧ file s' = file s ++ take n (frame record) ∧
    (e = write_failed ∨ e = fsync_failed ∧ n = length (frame record)).
Proof.
  intros Hr [[-> Hf]|(-> & n & Hf)]%append_failed; [| |done].
  - exists (length (frame record)). rewrite firstn_all. auto.
  - destruct (decide (n ≤ length (frame record))); [by exists n; auto|].
    exists (length (frame record)). rewrite Hf, firstn_all, take_ge by lia. auto.
Qed.

(** C34: an [append] that throws leaves a log torn at some byte of the record's
    header or payload, before its first or behind its last. Replayed as it is, it
    gives the old records and the new one whole or, unless all of it is in the
    file, not at all. Let later records be appended, by calls that succeed: they
    do, they are synced under [SyncPolicy::Always] after each, and a [sync]
    behind them succeeds and, under every policy but [Off], makes them durable.
    If the record is in the file whole or not at all, the replay returns the
    later records; but if it is torn, at any byte of header or payload, the
    replay returns none of them, nothing but the old records, unless the torn
    bytes and the bytes behind them start with what passes for a record with a
    matching checksum; and then it returns the records that those misread bytes
    make up. *)
Theorem log_append_failure (s s' : t) (old : list (list byte)) (record : list byte) (e : exn) :
  Forall rec_sized old → rec_sized record → file s = frames old →
  append record s = (Throw e, s') → readable s' →
  ∃ n, n ≤ length (frame record) ∧ file s' = frames old ++ take n (frame record) ∧
    (e = write_failed ∨ e = fsync_failed ∧ n = length (frame record)) ∧
    let kept := if n =? length (frame record) then [record] else [] in
    (∀ S (on_record : list byte → M S ()) (c : S),
       replay on_record s' c = for_each on_record (old ++ kept) c) ∧
    ∀ later, healthy s' → Forall rec_sized later →
      ∃ s1 s2, for_each append later s' = (Ok tt, s1) ∧ sync s1 = (Ok tt, s2) ∧
        (policy_ s' = Always → later ≠ [] → synced s1 = length (file s1)) ∧
        (policy_ s' ≠ Off → synced s2 = length (file s2) ∧ stale s2 = []) ∧
        ∃ extra,
          (∀ st S (on_record : list byte → M S ()) (c : S), st = s1 ∨ st = s2 →
             replay on_record st c = for_each on_record (old ++ kept ++ extra) c) ∧
          if decide (0 < n < length (frame record)) then
            (intact_front (take n (frame record) ++ frames later) = false ↔ extra = []) ∧
            ∃ tail, take n (frame record) ++ frames later = frames extra ++ tail ∧ stops tail
          else extra = later.
Proof.
  intros Hold Hr Hf H Hrd. destruct (append_torn record s s' e Hr H) as (n & Hn & Hf' & He). rewrite Hf in Hf'.
  exists n. split_and!; [done..|]. cbv zeta. split.
  - intros S on_record c. destruct (Nat.eqb_spec n (length (frame record))) as [->|Hne].
    + apply (replay_spec on_record _ []); [done|by apply Forall_app; split; [|constructor]|apply stops_nil|].
      by rewrite Hf', firstn_all, frames_snoc, app_nil_r.
    + rewrite app_nil_r. eapply replay_spec; [done|done|apply (torn_frame_stops record n Hr); lia|done].
  - intros later Hh Hlater. destruct (decide (0 < n < length (frame record))) as [Hin|Hout].
    + destruct (append_behind s' old _ later Hh Hold Hlater Hf')
        as (s1 & s2 & H1 & H2 & _ & _ & _ & _ & Ha & Hg & extra & tail & Htl & Hstop & Hi & Hre).
      exists s1, s2. split_and!; [done..|]. exists extra. rewrite (proj2 (Nat.eqb_neq n _)) by lia.
      split_and!; [done|done|by exists tail].
    + destruct (append_behind s' (old ++ if n =? length (frame record) then [record] else []) [] later)
        as (s1 & s2 & H1 & H2 & Hf1 & Hf2 & Hr1 & Hr2 & Ha & Hg & _); [done| |done| |].
      { apply Forall_app. split; [done|]. case_match; by repeat constructor. }
      { rewrite app_nil_r, Hf', frames_app. f_equal. destruct (Nat.eqb_spec n (length (frame record))) as [->|].
        - rewrite firstn_all. unfold frames. cbn. by rewrite app_nil_r.
        - assert (n = 0) as -> by lia. done. }
      exists s1, s2. split_and!; [done..|]. exists later. split; [|done]. intros st S on_record c Hst.
      apply (replay_spec on_record _ []); [by destruct Hst as [-> | ->]| |apply stops_nil|].
      * rewrite app_assoc. apply Forall_app. split; [|done]. apply Forall_app. split; [done|].
        case_match; by repeat constructor.
      * rewrite app_assoc, frames_app, app_nil_r. by destruct Hst as [-> | ->]; rewrite ?Hf2.
Qed.

(** C30: a record whose payload was changed within four consecutive bytes is
    detected, and the replay stops in front of it: neither the damaged record
    nor any record behind it is replayed, also when the later ones were
    appended after the damage. *)
Theorem log_corruption_stops (s : t) (before later : list (list byte)) (pre w w' post : list byte) (rest : list byte) :
  healthy s → Forall rec_sized before → Forall rec_sized later → rec_sized (pre ++ w ++ post) →
  length w = length w' → length w ≤ 4 → w ≠ w' →
  file s = frames before ++
    header (Crc32.crc_reference (pre ++ w ++ post)) (N.of_nat (length (pre ++ w ++ post))) ++
    (pre ++ w' ++ post) ++ rest →
  ∃ s', for_each append later s = (Ok tt, s') ∧
    ∀ S (on_record : list byte → M S ()) (c : S),
      replay on_record s' c = for_each on_record before c.
Proof.
  intros Hs Hbefore Hlater Hr Hl H4 Hne Hf.
  destruct (appends_ok later s Hs Hlater) as (s' & H & Hs' & Hf' & _). exists s'. split; [done|].
  intros S on_record c. rewrite Hf, <- !app_assoc in Hf'. eapply replay_spec; [apply Hs'|done| |done].
  assert (length (pre ++ w ++ post) = length (pre ++ w' ++ post)) as E by (rewrite !length_app; lia).
  replace (pre ++ w' ++ post ++ rest ++ frames later) with ((pre ++ w' ++ post) ++ rest ++ frames later)
    by by rewrite <- !app_assoc.
  rewrite E. apply stops_crc; [apply Crc32.crc_reference_lt|by unfold rec_sized in *; rewrite <- E|].
  intros C. by eapply Hne, Crc32.crc_detects_burst.
Qed.

(** ** Examples *)

#[export] Instance write_outcome_eq_dec : EqDecision write_outcome.
Proof. solve_decision. Defined.
#[export] Instance read_outcome_eq_dec : EqDecision read_outcome.
Proof. solve_decision. Defined.
#[export] Instance rec_sized_dec r : Decision (rec_sized r).
Proof. unfold rec_sized. apply _. Defined.
#[export] Instance byte_eq_dec : EqDecision byte := Byte.byte_eq_dec.

(** A callback that collects the records. *)
Definition collect (record : list byte) : M (list (list byte)) () := λ rs, (Ok tt, rs ++ [record]).

Definition demo_records : list (list byte) :=
  [bytes_of_string "first"; []; bytes_of_string "third record"].

Definition demo_log (policy : SyncPolicy) : t :=
  reopen [] [Wrote 3; WriteInterrupted; Wrote 0; Wrote 7] [true]
    [ReadUpTo 1; ReadInterrupted; ReadUpTo 4] policy.

(** Close [healthy] of a concrete log. *)
Ltac healthy_log :=
  split; [unfold writes_ok; vm_decide|unfold syncs_ok; vm_decide|split; [unfold reads_ok; vm_decide|reflexivity]
         |reflexivity|unfold syncs_ok; vm_decide].

Lemma demo_log_healthy policy : healthy (demo_log policy).
Proof. healthy_log. Defined.

Lemma log_replay_total_witness :
  ∃ records tail, file (reopen [x01; x02; x03] [] [] [] Off) = frames records ++ tail ∧ stops tail ∧
    Forall rec_sized records ∧
    ∀ S (on_record : list byte → M S ()) (s : S),
      replay on_record (reopen [x01; x02; x03] [] [] [] Off) s = for_each on_record records s.
Proof. apply (log_replay_total (reopen [x01; x02; x03]%byte [] [] [] Off)). split; [unfold reads_ok; vm_decide|reflexivity]. Defined.

Lemma log_crash_prefix_witness :
  ∃ s1 s2, for_each append demo_records (demo_log GroupCommit) = (Ok tt, s1) ∧ sync s1 = (Ok tt, s2) ∧
    (∀ S (on_record : list byte → M S ()) (c : S),
       replay on_record s1 c = for_each on_record demo_records c) ∧
    ∀ st img ws ss rs p, (st = s1 ∨ st = s2) → crash_image st img → reads_ok rs →
      ∃ j, 0 ≤ j ≤ 3 ∧ (GroupCommit = Always ∨ GroupCommit = GroupCommit ∧ st = s2 → j = 3) ∧
        ∀ S (on_record : list byte → M S ()) (c : S),
          replay on_record (reopen img ws ss rs p) c = for_each on_record (take j demo_records) c.
Proof.
  apply (log_crash_prefix (demo_log GroupCommit) [] demo_records);
    [apply demo_log_healthy|vm_decide|reflexivity..].
Defined.

(** The write of the header fails after three bytes. *)
Definition failing_log : t := reopen [] [Wrote 3; WriteFailed] [] [] GroupCommit.

Definition failed_log : t := (append (bytes_of_string "first") failing_log).2.

Lemma failed_log_healthy : healthy failed_log.
Proof. healthy_log. Defined.

(** Three records appended behind the torn header are synced, and the replay
    returns nothing. *)
Lemma log_append_failure_witness :
  append (bytes_of_string "first") failing_log = (Throw write_failed, failed_log) ∧
  (∀ S (on_record : list byte → M S ()) (c : S), replay on_record failed_log c = for_each on_record [] c) ∧
  ∃ s1 s2, for_each append demo_records failed_log = (Ok tt, s1) ∧ sync s1 = (Ok tt, s2) ∧
    synced s2 = length (file s2) ∧
    ∀ S (on_record : list byte → M S ()) (c : S), replay on_record s2 c = for_each on_record [] c.
Proof.
  split; [vm_compute; reflexivity|].
  destruct (log_append_failure failing_log failed_log [] (bytes_of_string "first") write_failed)
    as (n & Hn & Hf & _ & H1 & H2);
    [constructor|vm_decide|reflexivity|vm_compute; reflexivity|apply failed_log_healthy|].
  assert (n = 3) as ->.
  { apply (f_equal length) in Hf. cbn [app frames fmap list_fmap concat] in Hf. rewrite length_take in Hf.
    change (length (file failed_log)) with 3 in Hf. lia. }
  split; [exact H1|]. destruct (H2 demo_records failed_log_healthy ltac:(vm_decide))
    as (s1 & s2 & Ha & Hs & _ & Hg & extra & Hre & Hx).
  exists s1, s2. split; [exact Ha|]. split; [exact Hs|]. split; [apply Hg; discriminate|].
  rewrite decide_True in Hx by (vm_compute; lia). destruct Hx as [Hx _].
  rewrite (proj1 Hx) in Hre by (vm_compute; reflexivity). intros S on_record c. apply Hre. by right.
Defined.

Definition damaged_log : t :=
  reopen (frames [bytes_of_string "one"] ++
      header (Crc32.crc_reference (bytes_of_string "two")) 3 ++ bytes_of_string "tWo" ++ []) [] [] [] Always.

Lemma log_corruption_stops_witness :
  ∃ s', for_each append demo_records damaged_log = (Ok tt, s') ∧
    ∀ S (on_record : list byte → M S ()) (c : S),
      replay on_record s' c = for_each on_record [bytes_of_string "one"] c.
Proof.
  apply (log_corruption_stops damaged_log [bytes_of_string "one"] demo_records
    (bytes_of_string "t") (bytes_of_string "w") (bytes_of_string "W") (bytes_of_string "o") []);
    [healthy_log|vm_decide|vm_decide|vm_decide
    |reflexivity|cbn; lia|discriminate|reflexivity].
Defined.

(** A torn record hides what follows. *)
Example torn_append_lost :
  ∃ s0 s1 s2, append (bytes_of_string "first") (reopen [] [Wrote 8; Wrote 5; Wrote 8; Wrote 2; WriteFailed] [] [] Always) = (Ok tt, s0) ∧
    append (bytes_of_string "second") s0 = (Throw write_failed, s1) ∧
    append (bytes_of_string "third") s1 = (Ok tt, s2) ∧ synced s2 = length (file s2) ∧
    replay collect s2 [] = (Ok tt, [bytes_of_string "first"]).
Proof. vm_compute. do 3 eexists. split_and!; reflexivity. Qed.
End LogStore.

#[export] Existing Instances LogStore.write_outcome_eq_dec LogStore.read_outcome_eq_dec LogStore.rec_sized_dec LogStore.byte_eq_dec.
