(* ===== verification/BlobStore.v ===== *)
(** * The snapshot store ([blob_store.hpp], [blob_store.cpp])

    [FileBlobStore]: one file per key, published by writing a temporary file and
    renaming it. The outcomes of the file operations are part of the state. *)
From Stdlib Require Import Strings.Byte.
From S2P Require Import Prelude Bytes.
Local Open Scope nat_scope.

Module BlobStore.

(** How a [put] ends: in full; at the creation of the directory of the key; at
    the opening of the temporary file; in a write
    that the stream reports after [n] bytes; in a flush by the destructor of
    the stream, which nobody reports, after [n] bytes; in the renaming. *)
Inductive put_outcome :=
| PutOk
| DirFailed
| OpenFailed
| WriteFailed (n : nat)
| CloseFailed (n : nat)
| RenameFailed.

(** How the file system answers [exists] and [get]: in full; no status; a file
    that exists does not open; its size is unknown; a read fails. *)
Inductive get_outcome :=
| GetOk
| StatFailed
| NotOpened
| TellFailed
| ReadFailed.

(** The files below [dir_], by the path relative to it. *)
Record t := { files : gmap string (list byte); puts : list put_outcome; gets : get_outcome }.

Definition tmp_of (key : string) : string := (key ++ ".tmp")%string.

Definition with_files (fs : gmap string (list byte)) (s : t) : t :=
  {| files := fs; puts := tail (puts s); gets := gets s |}.

(** [rename] of the temporary file over the key's file. *)
Definition publish (key : string) (data : list byte) (fs : gmap string (list byte)) :=
  <[key := data]> (delete (tmp_of key) fs).

Definition dir_failed : exn := system_error "create_directories".

Definition put (key : string) (data : list byte) : M t () := λ s,
  let tmp := tmp_of key in
  match default PutOk (head (puts s)) with
  | DirFailed => (Throw dir_failed, with_files (files s) s)
  | OpenFailed => (Throw (runtime_error ("FileBlobStore: cannot open " ++ tmp)), with_files (files s) s)
  | WriteFailed n =>
      (Throw (runtime_error ("FileBlobStore: write failed for " ++ tmp)),
       with_files (<[tmp := take n data]> (files s)) s)
  | CloseFailed n => (Ok tt, with_files (publish key (take n data) (files s)) s)
  | RenameFailed => (Throw (system_error "rename"), with_files (<[tmp := data]> (files s)) s)
  | PutOk => (Ok tt, with_files (publish key data (files s)) s)
  end.

Definition get (s : t) (key : string) : result (list byte) :=
  let no_key := Throw (runtime_error ("FileBlobStore: no such key: " ++ key)) in
  match files s !! key with
  | None => no_key
  | Some data =>
      match gets s with
      | NotOpened => no_key
      | TellFailed => Throw (runtime_error ("FileBlobStore: tellg failed for " ++ key))
      | ReadFailed =>
          if length data =? 0 then Ok data else Throw (runtime_error ("FileBlobStore: read failed for " ++ key))
      | _ => Ok data
      end
  end.

Definition exists_ (s : t) (key : string) : result bool :=
  match gets s with
  | StatFailed => Throw (system_error "status")
  | _ => Ok (bool_decide (is_Some (files s !! key)))
  end.

(** The constructor; [ok] is the outcome of [create_directories]. *)
Definition make (ok : bool) (s : t) : result t := if ok then Ok s else Throw dir_failed.

(** The files that a process killed inside [put] may leave: the temporary file
    not yet created, partly written, or renamed. *)
Inductive put_interrupted (key : string) (data : list byte) (fs : gmap string (list byte))
    : gmap string (list byte) → Prop :=
| put_before : put_interrupted key data fs fs
| put_writing n : put_interrupted key data fs (<[tmp_of key := take n data]> fs)
| put_renamed : put_interrupted key data fs (publish key data fs).

Lemma tmp_ne key : tmp_of key ≠ key.
Proof.
  unfold tmp_of. intros E. apply (f_equal String.length) in E. revert E.
  induction key as [|c key IH]; cbn; [done|]. intros [= E]. by apply IH.
Qed.

Lemma publish_lookup key data fs : publish key data fs !! key = Some data.
Proof. apply lookup_insert_eq. Qed.

Lemma publish_other key data fs key' :
  key' ≠ key → key' ≠ tmp_of key → publish key data fs !! key' = fs !! key'.
Proof. intros H1 H2. unfold publish. by rewrite lookup_insert_ne, lookup_delete_ne. Qed.

Lemma interrupted_lookup key data fs fs' :
  put_interrupted key data fs fs' → fs' !! key = fs !! key ∨ fs' !! key = Some data.
Proof.
  intros []; [by left| |right; apply publish_lookup].
  left. apply lookup_insert_ne, tmp_ne.
Qed.

(** No file operation fails. *)
Definition healthy (s : t) : Prop := Forall (λ o, o = PutOk) (puts s) ∧ gets s = GetOk.

Lemma put_ok key data s :
  healthy s → put key data s = (Ok tt, with_files (publish key data (files s)) s) ∧
              healthy (with_files (publish key data (files s)) s).
Proof.
  unfold healthy, put. intros [H Hg]. split.
  - by destruct H as [|? ? -> H].
  - split; [cbn; by destruct H|done].
Qed.

(** What [get] answers depends on the file of the key alone. *)
Lemma get_ext s s' key : gets s' = gets s → files s' !! key = files s !! key → get s' key = get s key.
Proof. intros Hg Hf. unfold get. by rewrite Hg, Hf. Qed.

Lemma get_found s key data : gets s = GetOk → files s !! key = Some data → get s key = Ok data.
Proof. intros Hg Hf. unfold get. by rewrite Hf, Hg. Qed.

(** C35: publication is atomic. Whether [put] succeeds, throws, or the process is
    killed anywhere inside it, the key holds the old blob or the whole new one
    (the new one when [put] returns), other keys keep theirs. The one exception
    is a flush that fails while the stream is closed: [put] does not look at
    it, returns, and has published the part that was written. A blob is read
    whole or not at all, whatever fails. *)
Theorem blob_put_atomic (s : t) (key : string) (data : list byte) :
  (let '(r, s') := put key data s in
   match head (puts s), r with
   | Some (CloseFailed n), _ => r = Ok tt ∧ files s' !! key = Some (take n data)
   | _, Ok _ => files s' !! key = Some data ∧ (gets s = GetOk → get s' key = Ok data)
   | _, Throw _ => get s' key = get s key
   end ∧ ∀ key', key' ≠ key → key' ≠ tmp_of key → get s' key' = get s key') ∧
  (∀ fs p, put_interrupted key data (files s) fs →
    let s' := {| files := fs; puts := p; gets := gets s |} in
    get s' key = get s key ∨ (files s' !! key = Some data ∧ (gets s = GetOk → get s' key = Ok data))) ∧
  ∀ key' x, get s key' = Ok x → files s !! key' = Some x.
Proof.
  split_and!.
  - assert (∀ x, <[tmp_of key := x]> (files s) !! key = files s !! key) as Htmp
      by (intros; apply lookup_insert_ne, tmp_ne).
    unfold put. destruct (puts s) as [|[| | |n|n|] ps]; cbn -[publish tmp_of get].
    all: split; [|intros key' H1 H2].
    all: try (apply get_ext; [done|]; cbn -[publish tmp_of]; by rewrite ?publish_other, ?lookup_insert_ne, ?Htmp by done).
    all: split; [done || apply publish_lookup|try intros Hg; try (apply get_found; [done|]); apply publish_lookup].
  - intros fs p [H|H]%interrupted_lookup; [left; by apply get_ext|right].
    split; [done|]. intros Hg. by apply get_found.
  - intros key' x. unfold get. repeat case_match; congruence.
Qed.

(** A write that the stream reports leaves the old blob; a flush that fails
    unreported leaves a part of the new one. *)
Definition demo_blobs (o : put_outcome) : t := {| files := {["snapshot" := [x01]]}; puts := [o]; gets := GetOk |}.

Example put_failures :
  get (put "snapshot" [x02; x03] (demo_blobs (WriteFailed 1))).2 "snapshot" = Ok [x01] ∧
  (put "snapshot" [x02; x03] (demo_blobs (CloseFailed 1))).1 = Ok tt ∧
  get (put "snapshot" [x02; x03] (demo_blobs (CloseFailed 1))).2 "snapshot" = Ok [x02].
Proof. vm_compute. by split_and!. Qed.
End BlobStore.
