(* ===== verification/Engine.v ===== *)
(** * The engine ([engine.hpp], [engine.cpp])

    The facade: store, index, write-ahead log and snapshot store. The engine is
    written against the index interface [IndexOps]; its methods run in the
    monad [M] over the fields, which survive an exception. *)
From Stdlib Require Import Strings.Byte.
From S2P Require Import Prelude StdQueue Binary Distance Metadata Bitset VectorStore StoreSpec Index.
From S2P Require Import Bytes OpCodec LogStore BlobStore.
Local Open Scope nat_scope.

Module Engine.
Section Engine.
Context {Ix : Type} `{!IndexOps Ix} `{!MapOrder}.

(** [wal_] and [blobs_] are set together, on a durable engine. *)
Record t := {
  cfg_dim : Dim;
  store_ : VectorStore.t;
  index_ : Ix;
  wal_ : option LogStore.t;
  blobs_ : option BlobStore.t;
}.

Definition set_store (s : VectorStore.t) (e : t) : t :=
  {| cfg_dim := cfg_dim e; store_ := s; index_ := index_ e; wal_ := wal_ e; blobs_ := blobs_ e |}.
Definition set_index (ix : Ix) (e : t) : t :=
  {| cfg_dim := cfg_dim e; store_ := store_ e; index_ := ix; wal_ := wal_ e; blobs_ := blobs_ e |}.
Definition set_wal (w : option LogStore.t) (e : t) : t :=
  {| cfg_dim := cfg_dim e; store_ := store_ e; index_ := index_ e; wal_ := w; blobs_ := blobs_ e |}.
Definition set_blobs (b : option BlobStore.t) (e : t) : t :=
  {| cfg_dim := cfg_dim e; store_ := store_ e; index_ := index_ e; wal_ := wal_ e; blobs_ := b |}.

Definition kSnapshotKey : string := "snapshot".

(** [store_.m(...)] *)
Definition on_store {A} (m : M VectorStore.t A) : M t A := zoom store_ set_store m.

(** [if (ptr) ptr->m(...)] *)
Definition on_ptr {S} (m : M S ()) : M (option S) () := λ o,
  match o with Some s => let '(r, s') := m s in (r, Some s') | None => (Ok tt, None) end.

Definition on_wal (m : M LogStore.t ()) : M t () := zoom wal_ set_wal (on_ptr m).
Definition on_blobs (m : M BlobStore.t ()) : M t () := zoom blobs_ set_blobs (on_ptr m).

(** [index_->add(id, store_.get(id))] *)
Definition index_add (id : InternalId) : M t () :=
  e ← read_state;
  v ← lift (VectorStore.get (store_ e) id);
  ix ← lift (ix_add (store_ e) id v (index_ e));
  write_state (set_index ix e).

Definition index_remove (id : InternalId) : M t () :=
  e ← read_state;
  ix ← lift (ix_remove id (index_ e));
  write_state (set_index ix e).

Definition apply_op (op : Op) (log_it : bool) : M t InternalId :=
  _ ← (if log_it then on_wal (LogStore.append (encode_op op)) else mret tt);
  match op_type op with
  | Insert =>
      e ← read_state;
      found ← lift (VectorStore.resolve (store_ e) (op_ext_id op));
      let is_new := bool_decide (found = None) in
      r ← on_store (VectorStore.apply op);
      id ← VectorStore.value r;
      _ ← (if is_new then index_add id else mret tt);
      mret id
  | Update =>
      _ ← on_store (VectorStore.apply op);
      mret kInvalidId
  | Delete =>
      r ← on_store (VectorStore.apply op);
      _ ← (match r with Some id => index_remove id | None => mret tt end);
      mret kInvalidId
  end.

Definition insert (ext_id : string) (vec : list word32) (meta : Metadata) : M t InternalId :=
  apply_op {| op_type := Insert; op_ext_id := ext_id; op_vec := vec; op_meta := Some meta |} true.

(** [if (!store_.resolve(ext_id).has_value()) return false; apply_op(op, true); return true;] *)
Definition apply_live (op : Op) : M t bool :=
  e ← read_state;
  found ← lift (VectorStore.resolve (store_ e) (op_ext_id op));
  match found with
  | None => mret false
  | Some _ => _ ← apply_op op true; mret true
  end.

Definition update (ext_id : string) (vec : list word32) (meta : option Metadata) : M t bool :=
  apply_live {| op_type := Update; op_ext_id := ext_id; op_vec := vec; op_meta := meta |}.

Definition erase (ext_id : string) : M t bool :=
  apply_live {| op_type := Delete; op_ext_id := ext_id; op_vec := []; op_meta := None |}.

(** ** Search *)

(** One round of the loop that builds the allowed-set. *)
Definition allow_slot (s : VectorStore.t) (filter : Filter) (i : nat) (allowed : Bitset.t) : result Bitset.t :=
  let id := N.of_nat i in
  if negb (VectorStore.is_live s id) then Ok allowed
  else
    match VectorStore.metadata s id with
    | Some m => if Filter.matches filter m then Bitset.set id allowed else Ok allowed
    | None => Ok allowed
    end.

Definition build_allowed (s : VectorStore.t) (filter : Filter) : result Bitset.t :=
  for_range 0 (VectorStore.slot_count s) (allow_slot s filter)
    (Bitset.resize (N.of_nat (VectorStore.slot_count s))).

Definition search (e : t) (query : list word32) (k : nat) (filter : option Filter) (ef_arg : nat)
    : result (list SearchResult) :=
  if negb (N.of_nat (length query) =? VectorStore.dim_ (store_ e))%N then
    Throw (invalid_argument "Engine::search: query dimensionality mismatch")
  else if k =? 0 then Ok []
  else
    let ef_ := if 0 <? ef_arg then ef_arg else ef default_params in
    match filter with
    | None => ix_search (store_ e) query k {| ef := ef_; allowed := None |} (index_ e)
    | Some f =>
        b ← build_allowed (store_ e) f;
        ix_search (store_ e) query k {| ef := ef_; allowed := Some b |} (index_ e)
    end.

(** ** Durability *)

Definition flush : M t () := on_wal LogStore.sync.

(** The [Insert] that stands for a live slot in a snapshot. *)
Definition slot_op (s : VectorStore.t) (id : InternalId) : result Op :=
  ext ← VectorStore.external_id s id;
  v ← VectorStore.get s id;
  Ok {| op_type := Insert; op_ext_id := ext; op_vec := v; op_meta := VectorStore.metadata s id |}.

(** [u32 len][op bytes] *)
Definition blob_record (rec : list byte) : list byte := uint_bytes 4 (to_u32 (length rec)) ++ rec.

Definition snapshot_slot (s : VectorStore.t) (i : nat) (out : list byte) : result (list byte) :=
  if negb (VectorStore.is_live s (N.of_nat i)) then Ok out
  else op ← slot_op s (N.of_nat i); Ok (out ++ blob_record (encode_op op)).

Definition snapshot_blob (s : VectorStore.t) : result (list byte) :=
  for_range 0 (VectorStore.slot_count s) (snapshot_slot s) [].

Definition snapshot : M t () :=
  e ← read_state;
  match blobs_ e with
  | None => mret tt
  | Some _ =>
      out ← lift (snapshot_blob (store_ e));
      _ ← on_blobs (BlobStore.put kSnapshotKey out);
      on_wal LogStore.truncate
  end.

(** A [LiveEntry] of [compact]. *)
Record LiveEntry := { le_ext_id : string; le_vec : list word32; le_meta : Metadata }.

Definition collect_slot (s : VectorStore.t) (i : nat) (live : list LiveEntry) : result (list LiveEntry) :=
  let id := N.of_nat i in
  if negb (VectorStore.is_live s id) then Ok live
  else
    v ← VectorStore.get s id;
    ext ← VectorStore.external_id s id;
    Ok (live ++ [{| le_ext_id := ext; le_vec := v; le_meta := default ∅ (VectorStore.metadata s id) |}]).

Definition reinsert (l : LiveEntry) : M t () :=
  id ← on_store (VectorStore.insert (le_ext_id l) (le_vec l) (le_meta l));
  index_add id.

Definition compact : M t () :=
  e ← read_state;
  live ← lift (for_range 0 (VectorStore.slot_count (store_ e)) (collect_slot (store_ e)) []);
  s ← lift (VectorStore.make (cfg_dim e));
  _ ← write_state (set_index ix_make (set_store s e));
  _ ← for_each reinsert live;
  e' ← read_state;
  match blobs_ e' with Some _ => snapshot | None => mret tt end.

(** The [while] loop of [replay_blob] over the rest of the data; each round
    reads at least the length. *)
Fixpoint replay_blob (fuel : nat) (data : list byte) : M t () :=
  match fuel with
  | O => throw out_of_fuel
  | S fuel =>
      if length data <? 4 then mret tt
      else
        let len := uint_of (take 4 data) in
        let data := drop 4 data in
        if (N.of_nat (length data) <? len)%N then mret tt
        else
          op ← lift (decode_op (take (N.to_nat len) data));
          _ ← apply_op op false;
          replay_blob fuel (drop (N.to_nat len) data)
  end.

Definition replay_record (rec : list byte) : M t () :=
  op ← lift (decode_op rec);
  _ ← apply_op op false;
  mret tt.

Definition recover : M t () :=
  e ← read_state;
  _ ← (match blobs_ e with
       | Some b =>
           found ← lift (BlobStore.exists_ b kSnapshotKey);
           if (found : bool) then
             snap ← lift (BlobStore.get b kSnapshotKey);
             replay_blob (length snap + 1) snap
           else mret tt
       | None => mret tt
       end);
  e ← read_state;
  match wal_ e with
  | Some w => LogStore.replay replay_record w
  | None => mret tt
  end.

(** The constructor once its directory is open, with the log and the snapshots
    found there. *)
Definition open_engine (dim : Dim) (persistence : option (LogStore.t * BlobStore.t)) : result t :=
  s ← VectorStore.make dim;
  let e := {| cfg_dim := dim; store_ := s; index_ := ix_make;
              wal_ := fst <$> persistence; blobs_ := snd <$> persistence |} in
  match persistence with
  | None => Ok e
  | Some _ => let '(r, e') := recover e in _ ← r; Ok e'
  end.

(** Whether changes are logged. *)
Definition durable (e : t) : bool := bool_decide (is_Some (wal_ e)).

(** [PersistenceConfig]: what the directory holds, and the outcomes of creating
    it, creating the one for snapshots and opening the log. *)
Record Persistence := {
  dir_created : bool;
  blobs_created : bool;
  log_opened : bool;
  log_found : LogStore.t;
  blobs_found : BlobStore.t;
}.

Definition open_dir (p : Persistence) : result (LogStore.t * BlobStore.t) :=
  if negb (dir_created p) then Throw BlobStore.dir_failed
  else
    b ← BlobStore.make (blobs_created p) (blobs_found p);
    w ← LogStore.make (log_opened p) (log_found p);
    Ok (w, b).

(** The constructor. *)
Definition construct (dim : Dim) (persistence : option Persistence) : result t :=
  _ ← VectorStore.make dim;
  match persistence with
  | None => open_engine dim None
  | Some p => wb ← open_dir p; open_engine dim (Some wb)
  end.
End Engine.
Arguments t Ix : clear implicits.
End Engine.
