(* ===== verification/EngineSpec.v ===== *)
(** * The engine is a searchable key-value map

    Invariant of the engine, and its mutations against the abstract database of
    [StoreSpec], for every index that satisfies [IndexLaws]. *)
From Stdlib Require Import Strings.Byte.
From S2P Require Import Prelude StdQueue Binary Distance Metadata Bitset VectorStore StoreSpec Index.
From S2P Require Import Bytes OpCodec LogStore BlobStore Engine.
Local Open Scope nat_scope.
Import Engine.

Section Spec.
Context {Ix : Type} {IO : IndexOps Ix} {buildable : list word32 → Prop} {IL : IndexLaws Ix buildable}.
Context {MO : MapOrder}.
Implicit Types (e : Engine.t Ix) (s : VectorStore.t).

Record engine_inv e : Prop := {
  inv_store : VectorStore.wf (store_ e);
  inv_dim : VectorStore.dim_ (store_ e) = cfg_dim e;
  inv_vecs : vecs_ok buildable (store_ e);
  inv_index : ix_inv (store_ e) (index_ e);
}.

(** What a client of the engine observes. *)
Definition contents e : db := VectorStore.abs (store_ e).

(** The vectors that may be indexed: of the right length, buildable. *)
Record op_ok (dim : Dim) (op : Op) : Prop := {
  ok_sized : vec_sized (op_vec op);
  ok_build : op_type op ≠ Delete → length (op_vec op) = N.to_nat dim → buildable (op_vec op);
}.

(** No external id is seen but the operation's. *)
Definition ids_grow (op : Op) e e' : Prop :=
  ∀ U, op_ext_id op ∈ U → ids_in U (store_ e) → ids_in U (store_ e').

(** Log and snapshots are the same. *)
Record same_disk e e' : Prop := {
  disk_dim : cfg_dim e' = cfg_dim e;
  disk_wal : wal_ e' = wal_ e;
  disk_blobs : blobs_ e' = blobs_ e;
}.

(** An internal result of an operation against its abstract answer. *)
Definition answers (op : Op) e' (a : result bool) (r : result InternalId) : Prop :=
  match a with
  | Throw x => r = Throw x
  | Ok _ =>
      ∃ i, r = Ok i ∧
        match op_type op with
        | Insert => VectorStore.resolve (store_ e') (op_ext_id op) = Ok (Some i)
        | _ => i = kInvalidId
        end
  end.

Definition applied (op : Op) e (r : result InternalId) e' : Prop :=
  engine_inv e' ∧ same_disk e e' ∧ ids_grow op e e' ∧
  contents e' = (spec_apply (cfg_dim e) op (contents e)).2 ∧
  answers op e' (spec_apply (cfg_dim e) op (contents e)).1 r.

Lemma same_disk_refl e : same_disk e e.
Proof. by split. Qed.

(** ** The store's methods inside the engine *)

Lemma on_store_eq {A} (m : M VectorStore.t A) e r s :
  m (store_ e) = (r, s) → on_store m e = (r, set_store s e).
Proof. intros H. unfold on_store, zoom. by rewrite H. Qed.

Lemma set_store_id e : set_store (store_ e) e = e.
Proof. by destruct e. Qed.

(** A slot that is inserted for an id that was not live was not live. *)
Lemma inserted_was_dead s s' x i v m :
  VectorStore.wf s → inserted s s' x i v m → VectorStore.resolve s x = Ok None → VectorStore.is_live s i = false.
Proof.
  intros Hwf Hi Hr. destruct (find_live_spec s x Hwf) as (o & _ & Ho & Hs & _).
  rewrite Hr in Ho. injection Ho as <-.
  destruct (VectorStore.ext_to_int_ s !! x) as [i'|] eqn:Hx.
  - destruct (ins_old _ _ _ _ _ _ Hi i' Hx) as [-> _].
    destruct (VectorStore.is_live s i') eqn:E; [|done]. assert (None = Some i') as [=] by (apply Hs; by rewrite E).
  - destruct (ins_new _ _ _ _ _ _ Hi Hx) as [-> _].
    destruct (VectorStore.is_live s _) eqn:E; [|done].
    assert (Hlt : N.to_nat (N.of_nat (VectorStore.slot_count s)) < VectorStore.slot_count s)
      by (apply (is_live_slot s _ Hwf); by rewrite E). lia.
Qed.

Lemma inserted_was_live s s' x i i' v m :
  VectorStore.wf s → inserted s s' x i v m → VectorStore.resolve s x = Ok (Some i') → VectorStore.is_live s i.
Proof.
  intros Hwf Hi Hr. destruct (find_live_spec s x Hwf) as (o & _ & Ho & Hs & _).
  rewrite Hr in Ho. injection Ho as <-. destruct (Hs i') as [Hs' _].
  destruct (Hs' eq_refl) as [Hx Hl]. by destruct (ins_old _ _ _ _ _ _ Hi i' Hx) as [-> _].
Qed.

Lemma inserted_resolve s s' x i v m : inserted s s' x i v m → VectorStore.resolve s' x = Ok (Some i).
Proof.
  intros Hi. pose proof (ins_wf _ _ _ _ _ _ Hi) as Hwf. pose proof (ins_id _ _ _ _ _ _ Hi) as Hx.
  destruct (read_slot s' x i Hwf Hx) as (? & ? & _ & _ & _ & _ & -> & _).
  rewrite (ins_live _ _ _ _ _ _ Hi). by rewrite bool_decide_true.
Qed.

(** [index_->add(id, store_.get(id))] after an insertion. *)
Lemma index_add_ok e s i x v m :
  engine_inv e → inserted (store_ e) s x i v m → VectorStore.is_live (store_ e) i = false →
  vecs_ok buildable s →
  ∃ ix, index_add i (set_store s e) = (Ok tt, set_index ix (set_store s e)) ∧ ix_inv s ix.
Proof.
  intros [Hwf _ _ Hix] Hi Hl Hv. unfold index_add, mbind, M_bind, read_state, lift, write_state.
  pose proof (VectorStore.wf_slot s x i (ins_wf _ _ _ _ _ _ Hi) (ins_id _ _ _ _ _ _ Hi)) as Hsl.
  cbn [store_ set_store]. rewrite (ins_get _ _ _ _ _ _ Hi) by done. rewrite decide_True by done.
  destruct (ix_add_inv _ _ _ _ _ _ _ Hwf Hi Hl Hv Hix) as (ix & Hadd & Hinv).
  cbn [index_ set_store]. rewrite Hadd. by exists ix.
Qed.

Lemma index_remove_ok e i ix :
  ix_remove i (index_ e) = Ok ix → index_remove i e = (Ok tt, set_index ix e).
Proof.
  intros H. unfold index_remove, mbind, M_bind, read_state, lift, write_state. by rewrite H.
Qed.

(** ** The three operations, not logged *)

Lemma apply_insert e x v m0 :
  let op := {| op_type := Insert; op_ext_id := x; op_vec := v; op_meta := m0 |} in
  engine_inv e → op_ok (cfg_dim e) op → has_room (store_ e) →
  ∃ r e', apply_op op false e = (r, e') ∧ applied op e r e'.
Proof.
  intros op Hinv [Hsz Hb] Hroom. pose proof Hinv as [Hwf Hdim Hv Hix].
  destruct (resolve_abs (store_ e) x Hwf) as (o & Hres & Ho).
  pose proof (do_insert_spec (store_ e) x v (default ∅ m0) Hwf Hsz Hroom) as H.
  unfold applied, spec_apply, answers. unfold apply_op, mbind at 1, M_bind at 1, mret at 1, M_ret at 1.
  cbn [op_type op_ext_id op_vec op_meta op].
  unfold mbind at 1, M_bind at 1, read_state at 1. unfold mbind at 1, M_bind at 1, lift at 1.
  rewrite Hres. rewrite <- Hdim. case_decide as Hd.
  - destruct H as (i & s & Hins & Hi). rewrite (bool_decide_true (length v = _)) by done.
    assert (VectorStore.apply op (store_ e) = (Ok (Some i), s)) as Happ.
    { unfold VectorStore.apply, mbind, M_bind; cbn. by rewrite Hins. }
    assert (buildable v) as Hbv by (apply Hb; [done|by rewrite <- Hdim]).
    pose proof (vecs_ok_inserted _ _ _ _ _ _ _ Hbv Hv Hi) as Hv'.
    assert (∀ ix, ids_grow op e (set_index ix (set_store s e))) as Hg
      by (intros ix U HU; by eapply ids_in_inserted).
    pose proof (grows_dim _ _ (ins_grows _ _ _ _ _ _ Hi)) as Hgd.
    unfold mbind at 1, M_bind at 1. rewrite (on_store_eq _ _ _ _ Happ).
    destruct o as [i'|]; [rewrite bool_decide_false by done|rewrite bool_decide_true by done].
    + eexists _, _. split; [done|]. split_and!; [|by split|by apply (Hg (index_ e))|apply (ins_abs _ _ _ _ _ _ Hi)|].
      * split; [apply Hi|by cbn; rewrite Hgd|done|].
        eapply ix_overwrite_inv; [done|done| |done]. by eapply inserted_was_live.
      * exists i. split; [done|]. by eapply inserted_resolve.
    + destruct (index_add_ok e s i x v _ Hinv Hi) as (ix & Hadd & Hix'); [by eapply inserted_was_dead|done|].
      unfold mbind at 1, M_bind at 1, VectorStore.value, mret at 1, M_ret at 1.
      unfold mbind at 1, M_bind at 1. rewrite Hadd.
      eexists _, _. split; [done|]. split_and!; [|by split|by apply Hg|apply (ins_abs _ _ _ _ _ _ Hi)|].
      * split; [apply Hi|by cbn; rewrite Hgd|done|done].
      * exists i. split; [done|]. by eapply inserted_resolve.
  - rewrite (bool_decide_false (length v = _)) by done. unfold mbind at 1, M_bind at 1.
    assert (VectorStore.apply op (store_ e) = (Throw dim_error, store_ e)) as Happ.
    { unfold VectorStore.apply, mbind, M_bind; cbn. by rewrite H. }
    rewrite (on_store_eq _ _ _ _ Happ), set_store_id. eexists _, _. split; [done|].
    split_and!; [done|apply same_disk_refl|by intros U|done|done].
Qed.

Lemma apply_update e x v m0 :
  let op := {| op_type := Update; op_ext_id := x; op_vec := v; op_meta := m0 |} in
  engine_inv e → op_ok (cfg_dim e) op →
  ∃ r e', apply_op op false e = (r, e') ∧ applied op e r e'.
Proof.
  intros op Hinv [Hsz Hb]. pose proof Hinv as [Hwf Hdim Hv Hix].
  pose proof (do_update_spec (store_ e) x v m0 Hwf Hsz) as H.
  unfold applied, spec_apply, answers. unfold apply_op, mbind at 1, M_bind at 1, mret at 1, M_ret at 1.
  cbn [op_type op_ext_id op_vec op_meta op]. fold (contents e) in H. rewrite <- Hdim.
  change (VectorStore.do_update x v m0 (store_ e)) with (VectorStore.apply op (store_ e)) in H.
  unfold mbind at 1, M_bind at 1.
  destruct (contents e !! x) as [[v0 m1]|] eqn:Hx.
  - case_decide as Hd.
    + destruct H as (i & s & Happ & _ & Hu). rewrite bool_decide_true by done.
      destruct (upd_abs _ _ _ _ _ _ Hu) as (v2 & m2 & Hx' & Habs). unfold contents in Hx. simplify_eq.
      rewrite (on_store_eq _ _ _ _ Happ). eexists _, _. split; [done|].
      assert (buildable v) as Hbv by (apply Hb; [done|by rewrite <- Hdim]).
      split_and!; [|by split|intros U _; by eapply ids_in_updated|done|by eexists].
      split; [apply Hu|cbn; by rewrite (grows_dim _ _ (upd_grows _ _ _ _ _ _ Hu))| |].
      * by eapply vecs_ok_updated.
      * by eapply ix_update_inv.
    + rewrite bool_decide_false by done. rewrite (on_store_eq _ _ _ _ H), set_store_id.
      eexists _, _. split; [done|]. split_and!; [done|apply same_disk_refl|by intros U|done|done].
  - rewrite (on_store_eq _ _ _ _ H), set_store_id.
    eexists _, _. split; [done|]. split_and!; [done|apply same_disk_refl|by intros U|done|by eexists].
Qed.

Lemma apply_erase e x v m0 :
  let op := {| op_type := Delete; op_ext_id := x; op_vec := v; op_meta := m0 |} in
  engine_inv e → ∃ r e', apply_op op false e = (r, e') ∧ applied op e r e'.
Proof.
  intros op Hinv. pose proof Hinv as [Hwf Hdim Hv Hix].
  pose proof (do_erase_spec (store_ e) x Hwf) as H.
  unfold applied, spec_apply, answers. unfold apply_op, mbind at 1, M_bind at 1, mret at 1, M_ret at 1.
  cbn [op_type op_ext_id op_vec op_meta op]. fold (contents e) in H.
  change (VectorStore.do_erase x (store_ e)) with (VectorStore.apply op (store_ e)) in H.
  unfold mbind at 1, M_bind at 1.
  destruct (contents e !! x) as [y|] eqn:Hx.
  - destruct H as (i & s & Happ & _ & He). rewrite (on_store_eq _ _ _ _ Happ).
    destruct (ix_remove_inv _ _ _ _ _ Hwf He Hix) as (ix & Hrm & Hix').
    unfold mbind, M_bind. rewrite (index_remove_ok _ _ ix) by done. eexists _, _. split; [done|].
    split_and!; [|by split|intros U _; by eapply ids_in_erased|apply (era_abs _ _ _ _ He)|by eexists].
    split; [apply He|cbn; by rewrite (grows_dim _ _ (era_grows _ _ _ _ He))|by eapply vecs_ok_erased|done].
  - rewrite (on_store_eq _ _ _ _ H), set_store_id.
    eexists _, _. split; [done|]. split_and!; [done|apply same_disk_refl|by intros U|done|by eexists].
Qed.

(** [apply_op] without logging does what the abstract database does. *)
Lemma apply_op_spec e op :
  engine_inv e → op_ok (cfg_dim e) op → has_room (store_ e) →
  ∃ r e', apply_op op false e = (r, e') ∧ applied op e r e'.
Proof.
  intros Hinv Hok Hroom. destruct op as [[] x v m].
  - by apply apply_insert. - by apply apply_update. - by apply apply_erase.
Qed.

(** ** Logged operations *)

(** The log can take the record of [op]. *)
Definition can_log e (op : Op) : Prop :=
  ∀ w, wal_ e = Some w → LogStore.healthy w ∧ LogStore.rec_sized (encode_op op).

(** The log after the record of [op]: on the disk under [SyncPolicy::Always]. *)
Record wal_appended (op : Op) (w w' : LogStore.t) : Prop := {
  app_healthy : LogStore.healthy w';
  app_file : LogStore.file w' = LogStore.file w ++ LogStore.frame (encode_op op);
  app_policy : LogStore.policy_ w' = LogStore.policy_ w;
  app_sync : LogStore.policy_ w = Always →
    LogStore.synced w' = length (LogStore.file w') ∧ LogStore.stale w' = [];
  app_lazy : LogStore.policy_ w ≠ Always →
    LogStore.synced w' = LogStore.synced w ∧ LogStore.stale w' = LogStore.stale w;
}.

Definition logged (op : Op) e e' : Prop :=
  match wal_ e, wal_ e' with
  | Some w, Some w' => wal_appended op w w'
  | None, None => True
  | _, _ => False
  end.

Lemma log_op_ok e op :
  can_log e op →
  ∃ o, on_wal (LogStore.append (encode_op op)) e = (Ok tt, set_wal o e) ∧ logged op e (set_wal o e).
Proof.
  intros Hlog. unfold on_wal, zoom, on_ptr, logged. destruct (wal_ e) as [w|] eqn:Hw; [|by exists None].
  destruct (Hlog w Hw) as [Hh Hr].
  destruct (LogStore.append_ok (encode_op op) w Hh Hr) as (w' & -> & Hh' & Hf & Hp & Hs).
  exists (Some w'). split; [done|]. cbn. split; try done; intros Hal.
  - by rewrite decide_True in Hs. - by rewrite decide_False in Hs.
Qed.

Lemma set_wal_inv o e : engine_inv e → engine_inv (set_wal o e).
Proof. intros [? ? ? ?]. by split. Qed.

Lemma apply_op_logged op e e1 :
  on_wal (LogStore.append (encode_op op)) e = (Ok tt, e1) → apply_op op true e = apply_op op false e1.
Proof.
  intros H. unfold apply_op. unfold mbind at 1 8, M_bind at 1 8. rewrite H. done.
Qed.

(** What a logged operation does. *)
Definition applied_logged (op : Op) e (r : result InternalId) e' : Prop :=
  engine_inv e' ∧ cfg_dim e' = cfg_dim e ∧ blobs_ e' = blobs_ e ∧ logged op e e' ∧
  ids_grow op e e' ∧
  contents e' = (spec_apply (cfg_dim e) op (contents e)).2 ∧
  answers op e' (spec_apply (cfg_dim e) op (contents e)).1 r.

Lemma apply_op_logged_spec e op :
  engine_inv e → op_ok (cfg_dim e) op → has_room (store_ e) → can_log e op →
  ∃ r e', apply_op op true e = (r, e') ∧ applied_logged op e r e'.
Proof.
  intros Hinv Hok Hroom Hlog. destruct (log_op_ok e op Hlog) as (o & Ho & Hl).
  rewrite (apply_op_logged op e _ Ho).
  destruct (apply_op_spec (set_wal o e) op) as (r & e' & -> & Hinv' & [Hd Hw Hb] & Hs & Hc & Ha);
    [by apply set_wal_inv|done|done|].
  exists r, e'. split; [done|]. split_and!; try done.
  unfold logged in *. by rewrite Hw.
Qed.

(** ** The interface of the client *)

(** The calls of a client, as operations. *)
Definition client (op : Op) : M (Engine.t Ix) bool :=
  match op_type op with
  | Insert => _ ← insert (op_ext_id op) (op_vec op) (default ∅ (op_meta op)); mret true
  | Update => update (op_ext_id op) (op_vec op) (op_meta op)
  | Delete => erase (op_ext_id op)
  end.

(** The operation that the engine logs for a call. *)
Definition call_op (op : Op) : Op :=
  match op_type op with
  | Insert => {| op_type := Insert; op_ext_id := op_ext_id op; op_vec := op_vec op;
                 op_meta := Some (default ∅ (op_meta op)) |}
  | Update => op
  | Delete => {| op_type := Delete; op_ext_id := op_ext_id op; op_vec := []; op_meta := None |}
  end.

Lemma spec_call_op dim op d : spec_apply dim (call_op op) d = spec_apply dim op d.
Proof. by destruct op as [[] x v [m|]]. Qed.

(** Calls on an absent id write no record. *)
Definition is_logged (op : Op) (d : db) : Prop := op_type op = Insert ∨ is_Some (d !! op_ext_id op).

#[export] Instance is_logged_dec op d : Decision (is_logged op d).
Proof. unfold is_logged. apply _. Defined.

(** The engine after a call. *)
Record called (op : Op) e e' : Prop := {
  call_inv : engine_inv e';
  call_dim : cfg_dim e' = cfg_dim e;
  call_blobs : blobs_ e' = blobs_ e;
  call_ids : ids_grow op e e';
  call_wal : if decide (is_logged op (contents e)) then logged (call_op op) e e' else wal_ e' = wal_ e;
}.

Lemma call_op_ok dim op : op_ok dim op → (0 < dim)%N → op_ok dim (call_op op).
Proof.
  intros [Hs Hb] Hd. destruct op as [[] x v m]; split; cbn in *; done.
Qed.

Lemma apply_live_spec e op :
  op_type op ≠ Insert → engine_inv e → op_ok (cfg_dim e) op → has_room (store_ e) → can_log e op →
  ∃ r e', apply_live op e = (r, e') ∧ (r, contents e') = spec_apply (cfg_dim e) op (contents e) ∧
    engine_inv e' ∧ cfg_dim e' = cfg_dim e ∧ blobs_ e' = blobs_ e ∧
    ids_grow op e e' ∧
    match contents e !! op_ext_id op with Some _ => logged op e e' | None => wal_ e' = wal_ e end.
Proof.
  intros Hty Hinv Hok Hroom Hlog. pose proof (inv_store e Hinv) as Hwf.
  destruct (resolve_abs (store_ e) (op_ext_id op) Hwf) as (o & Hres & Ho).
  unfold apply_live. unfold mbind at 1, M_bind at 1, read_state. unfold mbind at 1, M_bind at 1, lift.
  rewrite Hres. fold (contents e) in Ho. destruct o as [i|].
  - destruct (contents e !! op_ext_id op) as [y|] eqn:Hy; [|discriminate (proj2 Ho eq_refl)].
    destruct (apply_op_logged_spec e op Hinv Hok Hroom Hlog) as (r & e' & Hap & Hinv' & Hd & Hb & Hl & Hs & Hc & Ha).
    unfold mbind, M_bind. rewrite Hap. unfold answers in Ha.
    destruct (spec_apply (cfg_dim e) op (contents e)) as [[b|x] d] eqn:Hsp; cbn in Hc, Ha.
    + destruct Ha as (j & -> & _). eexists _, _. split; [done|]. split_and!; try done.
      rewrite Hc. f_equal. f_equal. unfold spec_apply in Hsp. rewrite Hy in Hsp.
      destruct (op_type op); [done| |]; destruct y; repeat case_match; by simplify_eq.
    + rewrite Ha. eexists _, _. split; [done|]. split_and!; try done. by rewrite Hc.
  - destruct Ho as [Ho _]. rewrite (Ho eq_refl). eexists _, _. split; [done|].
    split_and!; try done; [|by intros U]. unfold spec_apply. rewrite (Ho eq_refl). by destruct (op_type op).
Qed.

Lemma client_spec e op :
  engine_inv e → op_ok (cfg_dim e) op → has_room (store_ e) → can_log e (call_op op) →
  ∃ r e', client op e = (r, e') ∧ (r, contents e') = spec_apply (cfg_dim e) op (contents e) ∧
    called op e e'.
Proof.
  intros Hinv Hok Hroom Hlog. pose proof (VectorStore.wf_dim _ (inv_store e Hinv)) as Hpos.
  rewrite (inv_dim e Hinv) in Hpos. pose proof (call_op_ok _ _ Hok Hpos) as Hok'.
  rewrite <- spec_call_op. destruct op as [[] x v m].
  - destruct (apply_op_logged_spec e _ Hinv Hok' Hroom Hlog)
      as (r & e' & Hap & Hinv' & Hd & Hb & Hl & Hs & Hc & Ha).
    change (insert x v (default ∅ m) e = (r, e')) in Hap.
    unfold client, mbind, M_bind; cbn [op_type op_ext_id op_vec op_meta]. rewrite Hap. unfold answers in Ha.
    assert (called {| op_type := Insert; op_ext_id := x; op_vec := v; op_meta := m |} e e') as Hcall.
    { by split. }
    destruct (spec_apply (cfg_dim e) _ (contents e)) as [[b|y] d] eqn:Hsp; cbn in Hc, Ha.
    + destruct Ha as (j & -> & _). eexists _, _. split; [done|]. split; [|done].
      rewrite Hc. f_equal. f_equal. unfold spec_apply, call_op in Hsp; cbn in Hsp. case_match; by simplify_eq.
    + rewrite Ha. eexists _, _. split; [done|]. split; [by rewrite Hc|done].
  - destruct (apply_live_spec e {| op_type := Update; op_ext_id := x; op_vec := v; op_meta := m |})
      as (r & e' & Hap & Hsp & Hinv' & Hd & Hb & Hs & Hl); try done.
    exists r, e'. split; [done|]. split; [done|]. split; try done.
    cbn in Hl. destruct (contents e !! x) as [y|] eqn:Hy.
    + by rewrite decide_True by (right; cbn; eauto).
    + rewrite decide_False; [done|]. intros [[=]|[y Hy']]. cbn in Hy'. congruence.
  - destruct (apply_live_spec e {| op_type := Delete; op_ext_id := x; op_vec := []; op_meta := None |})
      as (r & e' & Hap & Hsp & Hinv' & Hd & Hb & Hs & Hl); try done.
    exists r, e'. split; [done|]. split; [done|]. split; try done.
    cbn in Hl. destruct (contents e !! x) as [y|] eqn:Hy.
    + by rewrite decide_True by (right; cbn; eauto).
    + rewrite decide_False; [done|]. intros [[=]|[y Hy']]. cbn in Hy'. congruence.
Qed.

(** ** Logs of calls *)

Lemma open_memory dim e :
  (dim < 2 ^ 32)%N → open_engine dim None = Ok e →
  engine_inv e ∧ contents e = ∅ ∧ cfg_dim e = dim ∧ wal_ e = None ∧ blobs_ e = None ∧
  VectorStore.slot_count (store_ e) = 0.
Proof.
  intros Hdim. unfold open_engine. destruct (VectorStore.make dim) as [s|] eqn:Hmk; [|done].
  intros [= <-]. destruct (make_spec dim s Hdim Hmk) as (Hwf & Habs & Hd & Hsc).
  split_and!; try done. split; [done|done|by apply vecs_ok_empty|by apply ix_make_inv].
Qed.

Lemma run_client U ops e :
  (N.of_nat (size U) < 2 ^ 32)%N → engine_inv e → wal_ e = None → ids_in U (store_ e) →
  Forall (op_ok (cfg_dim e)) ops → Forall (λ op, op_ext_id op ∈ U) ops →
  let '(rs, e') := run_log client ops e in
  engine_inv e' ∧ ids_in U (store_ e') ∧ cfg_dim e' = cfg_dim e ∧ wal_ e' = None ∧ blobs_ e' = blobs_ e ∧
  run_log (spec_apply (cfg_dim e)) ops (contents e) = (rs, contents e').
Proof.
  intros HU. revert e. induction ops as [|op ops IH]; intros e Hinv Hw Hids Hops Hin; [by cbn|].
  apply Forall_cons in Hops as [Hop Hops]. apply Forall_cons in Hin as [Hi Hin].
  destruct (client_spec e op Hinv Hop) as (r & e1 & Hcl & Hsp & [Hinv1 Hd1 Hb1 Hids1 Hw1]).
  { apply (ids_in_room U); [done|apply Hinv|done]. } { intros w. by rewrite Hw. }
  assert (wal_ e1 = None) as Hw1'.
  { case_decide; [|congruence]. unfold logged in Hw1. rewrite Hw in Hw1. by destruct (wal_ e1). }
  specialize (IH e1 Hinv1 Hw1' (Hids1 U Hi Hids)). rewrite Hd1 in IH. specialize (IH Hops Hin).
  cbn [run_log]. rewrite Hcl, <- Hsp.
  destruct (run_log client ops e1) as [rs e2]. destruct IH as (? & ? & ? & ? & ? & ->).
  split_and!; try done. congruence.
Qed.

Lemma fresh_run (dim : Dim) (e : Engine.t Ix) (ops : list Op) :
  (dim < 2 ^ 32)%N → open_engine dim None = Ok e → Forall (op_ok dim) ops →
  (N.of_nat (length ops) < 2 ^ 32)%N →
  let '(rs, e') := run_log client ops e in
  engine_inv e' ∧ cfg_dim e' = dim ∧ wal_ e' = None ∧ run_log (spec_apply dim) ops ∅ = (rs, contents e').
Proof.
  intros Hdim Ho Hops Hlen. destruct (open_memory dim e Hdim Ho) as (Hinv & Hc & Hd & Hw & _ & Hsc).
  set (U := list_to_set (op_ext_id <$> ops) : gset string).
  assert (size U ≤ length ops) as HU.
  { unfold U. etrans; [apply size_list_to_set_le|]. by rewrite length_fmap. }
  pose proof (run_client U ops e ltac:(lia) Hinv Hw) as H. rewrite Hd, Hc in H.
  assert (ids_in U (store_ e)) as Hids.
  { intros x [i Hi]. apply (VectorStore.wf_slot _ x i (inv_store e Hinv)) in Hi. lia. }
  specialize (H Hids Hops). destruct (run_log client ops e) as [rs e'].
  destruct H as (? & _ & ? & ? & _ & ->); [|done].
  apply Forall_forall. intros op Hop. apply elem_of_list_to_set, list_elem_of_fmap. eauto.
Qed.

(** C2: the engine is a key-value map. Any sequence of client calls (insert,
    update, erase, with vectors of any length) on a fresh in-memory engine gives
    the answers and exceptions of the abstract database, call by call, ends with
    exactly its contents, and keeps store and index consistent; for every index
    that keeps its contract. *)
Theorem engine_refines_log (dim : Dim) (e : Engine.t Ix) (ops : list Op) :
  (dim < 2 ^ 32)%N → open_engine dim None = Ok e → Forall (op_ok dim) ops →
  (N.of_nat (length ops) < 2 ^ 32)%N →
  let '(rs, e') := run_log client ops e in
  engine_inv e' ∧ run_log (spec_apply dim) ops ∅ = (rs, contents e').
Proof.
  intros Hdim Ho Hops Hlen. pose proof (fresh_run dim e ops Hdim Ho Hops Hlen) as H.
  destruct (run_log client ops e). by destruct H as (? & _ & _ & ?).
Qed.
End Spec.
Arguments op_ok buildable dim op : clear implicits.
