(* ===== verification/EngineSearch.v ===== *)
(** * Filtered search

    The allowed-set that [Engine::search] builds, and what a search returns in
    terms of the entries of the database: for every index that satisfies
    [IndexSearchLaws], and exactly for [FlatIndex]. *)
From Stdlib Require Import Strings.Byte.
From S2P Require Import Prelude StdQueue Binary Distance Metadata Bitset VectorStore StoreSpec Index FlatIndex.
From S2P Require Import Bytes OpCodec LogStore BlobStore Engine EngineSpec.
Local Open Scope nat_scope.
Import Engine.

(** ** Slots and entries *)

Lemma slot_entry s i :
  VectorStore.wf s → N.to_nat i < VectorStore.slot_count s →
  ∃ x v m, VectorStore.external_id s i = Ok x ∧ VectorStore.get s i = Ok v ∧
    VectorStore.metadata s i = Some m ∧ VectorStore.ext_to_int_ s !! x = Some i ∧
    VectorStore.abs s !! x = (if VectorStore.is_live s i then Some (v, m) else None) ∧
    live_entry s (N.to_nat i) = if VectorStore.is_live s i then Some (x, (v, m)) else None.
Proof.
  intros Hwf Hi. destruct (slot_ext s i Hwf Hi) as (x & Hx & Hxi).
  destruct (read_slot s x i Hwf Hxi) as (v & m & Hv & _ & Hm & He & _ & Habs).
  exists x, v, m. split_and!; try done. unfold live_entry. rewrite Hx. cbn [mbind option_bind].
  rewrite VectorStore.abs_lookup, Hxi in Habs. cbn in Habs. rewrite N2Nat.id, Habs.
  by destruct (VectorStore.is_live s i).
Qed.

Definition filter_matches (f : option Filter) (m : Metadata) : bool :=
  match f with Some f => Filter.matches f m | None => true end.

(** ** The allowed-set *)

Definition slot_allowed (s : VectorStore.t) (f : Filter) (i : InternalId) : bool :=
  VectorStore.is_live s i &&
  match VectorStore.metadata s i with Some m => Filter.matches f m | None => false end.

Lemma build_allowed_spec s f :
  VectorStore.wf s →
  ∃ b, build_allowed s f = Ok b ∧ Bitset.bitset_wf b ∧ ∀ i, Bitset.bit b i = slot_allowed s f i.
Proof.
  intros Hwf. unfold build_allowed. set (n := VectorStore.slot_count s).
  destruct (for_range_inv (λ k b, Bitset.bitset_wf b ∧ Bitset.size_ b = N.of_nat n ∧
    ∀ i, Bitset.bit b i = bool_decide (N.to_nat i < k) && slot_allowed s f i)
    0 n (allow_slot s f) (Bitset.resize (N.of_nat n))) as (b & Hb & Hbw & _ & Hbit).
  - intros k b Hk (Hbw & Hsz & Hbit). unfold allow_slot.
    assert (∀ b', (∀ i, Bitset.bit b' i = (if decide (i = N.of_nat k) then slot_allowed s f i else Bitset.bit b i)) →
      ∀ i, Bitset.bit b' i = bool_decide (N.to_nat i < S k) && slot_allowed s f i) as Hstep.
    { intros b' Hb' i. rewrite Hb', Hbit. case_decide as E.
      - subst. by rewrite bool_decide_true by lia.
      - f_equal. apply bool_decide_ext. lia. }
    assert (slot_allowed s f (N.of_nat k) = false → ∃ b', Ok b = Ok b' ∧
      Bitset.bitset_wf b' ∧ Bitset.size_ b' = N.of_nat n ∧
      ∀ i, Bitset.bit b' i = bool_decide (N.to_nat i < S k) && slot_allowed s f i) as Hskip.
    { intros Hno. exists b. split_and!; try done. apply Hstep. intros i. case_decide as E; [|done].
      subst. by rewrite Hbit, Hno, andb_false_r. }
    unfold slot_allowed in Hskip at 1.
    destruct (VectorStore.is_live s (N.of_nat k)) eqn:Hl; cbn [negb]; [|by apply Hskip].
    destruct (VectorStore.metadata s (N.of_nat k)) as [m|] eqn:Hm; [|by apply Hskip].
    destruct (Filter.matches f m) eqn:Hf; [|by apply Hskip].
    destruct (Bitset.set_spec b (N.of_nat k) Hbw) as (b' & Hb' & Hbw' & Hsz' & Ht); [lia|].
    exists b'. split_and!; [done|done|congruence|]. apply Hstep. intros i.
    specialize (Ht i). rewrite Bitset.bitset_test_bit in Ht by done. injection Ht as ->.
    case_decide as E; [|done]. subst. unfold slot_allowed. by rewrite Hl, Hm, Hf.
  - destruct (Bitset.bitset_resize_wf (N.of_nat n)) as [Hrw Hrb]. split_and!; try done.
  - exists b. split_and!; try done. intros i. rewrite Hbit. cbn.
    case_bool_decide as E; [done|]. unfold slot_allowed.
    destruct (VectorStore.is_live s i) eqn:Hl; [|done].
    assert (N.to_nat i < n); [apply is_live_slot; [done|by rewrite Hl]|lia].
Qed.

Section Search.
Context {Met : DistanceMetric} {Ix : Type} {IO : IndexOps Ix} {buildable : list word32 → Prop}.
Context {IL : IndexLaws Ix buildable}.
Implicit Types (e : Engine.t Ix).

(** The parameters the engine passes to the index. *)
Lemma search_params e q k f ef_arg :
  engine_inv e → length q = N.to_nat (cfg_dim e) → 0 < k →
  ∃ p, search e q k f ef_arg = ix_search (store_ e) q k p (index_ e) ∧ params_wf p ∧
    ef p = (if 0 <? ef_arg then ef_arg else 64) ∧
    ∀ i, eligible (store_ e) p i =
      match f with None => VectorStore.is_live (store_ e) i | Some f => slot_allowed (store_ e) f i end.
Proof.
  intros [Hwf Hdim _ _] Hq Hk. unfold search. rewrite Hdim.
  destruct (N.eqb_spec (N.of_nat (length q)) (cfg_dim e)) as [_|]; [|lia]. cbn [negb].
  destruct (Nat.eqb_spec k 0); [lia|]. destruct f as [f|].
  - destruct (build_allowed_spec (store_ e) f Hwf) as (b & -> & Hb & Hbit).
    eexists. split; [done|]. split_and!; [done|done|]. intros i. unfold eligible, in_allowed; cbn.
    rewrite Hbit. unfold slot_allowed. by destruct (VectorStore.is_live _ _).
  - eexists. split; [done|]. split_and!; [done|done|]. intros i. unfold eligible; cbn. apply andb_true_r.
Qed.

(** An answer in terms of the entries: at most [k] different entries that match
    the filter, with their distances, the closest first. *)
Record answers_query e (q : list word32) (k : nat) (f : option Filter) (out : list SearchResult) : Prop := {
  aq_length : length out ≤ k;
  aq_sorted : sorted_by closer out;
  aq_nodup : NoDup (id <$> out);
  aq_entry r : r ∈ out → ∃ x v m,
    VectorStore.external_id (store_ e) (id r) = Ok x ∧ contents e !! x = Some (v, m) ∧
    VectorStore.resolve (store_ e) x = Ok (Some (id r)) ∧ VectorStore.metadata (store_ e) (id r) = Some m ∧
    filter_matches f m ∧ distance q v (cfg_dim e) = Ok (score r);
}.

(** A slot that passed the filter is an entry that matches it. *)
Lemma eligible_entry e f i :
  engine_inv e →
  match f with None => VectorStore.is_live (store_ e) i | Some f => slot_allowed (store_ e) f i end →
  ∃ x v m, VectorStore.external_id (store_ e) i = Ok x ∧ VectorStore.get (store_ e) i = Ok v ∧
    contents e !! x = Some (v, m) ∧ VectorStore.resolve (store_ e) x = Ok (Some i) ∧
    VectorStore.metadata (store_ e) i = Some m ∧ filter_matches f m.
Proof.
  intros [Hwf _ _ _] Hel. assert (VectorStore.is_live (store_ e) i) as Hl.
  { destruct f as [f|]; [|done]. unfold slot_allowed in Hel. by apply andb_prop_elim in Hel as [? _]. }
  destruct (slot_entry (store_ e) i Hwf) as (x & v & m & Hx & Hv & Hm & Hxi & Habs & _); [by apply is_live_slot|].
  destruct (read_slot (store_ e) x i Hwf Hxi) as (? & ? & _ & _ & _ & _ & Hr & _).
  destruct (VectorStore.is_live (store_ e) i) eqn:El; [|done].
  exists x, v, m. split_and!; try done. destruct f as [f|]; [|done].
  unfold slot_allowed in Hel. by rewrite El, Hm in Hel.
Qed.

Lemma search_ok_answers e q k f p out :
  engine_inv e →
  (∀ i, eligible (store_ e) p i =
      match f with None => VectorStore.is_live (store_ e) i | Some f => slot_allowed (store_ e) f i end) →
  search_ok (store_ e) q k p out → answers_query e q k f out.
Proof.
  intros Hinv Hel [Hl Hs Hn He Hh]. split; try done. intros r Hr.
  pose proof (He r Hr) as Hr'. rewrite Hel in Hr'.
  destruct (eligible_entry e f (id r) Hinv Hr') as (x & v & m & Hx & Hv & Hc & Hres & Hmeta & Hm).
  exists x, v, m. split_and!; try done. destruct (Hh r Hr) as (v' & Hv' & Hd).
  rewrite Hv in Hv'. injection Hv' as <-. by rewrite <- (inv_dim e Hinv).
Qed.

Lemma search_zero e q f ef_arg :
  engine_inv e → length q = N.to_nat (cfg_dim e) → search e q 0 f ef_arg = Ok [].
Proof.
  intros Hinv Hlen. unfold search. rewrite (inv_dim e Hinv).
  by destruct (N.eqb_spec (N.of_nat (length q)) (cfg_dim e)); [|lia].
Qed.

Lemma search_wrong_length e q k f ef_arg :
  engine_inv e → length q ≠ N.to_nat (cfg_dim e) →
  search e q k f ef_arg = Throw (invalid_argument "Engine::search: query dimensionality mismatch").
Proof.
  intros Hinv Hlen. unfold search. rewrite (inv_dim e Hinv).
  by destruct (N.eqb_spec (N.of_nat (length q)) (cfg_dim e)); [lia|].
Qed.

(** A query of the right length. *)
Lemma search_answers (valid : list word32 → Prop) e q k f ef_arg :
  IndexSearchLaws Ix buildable valid → engine_inv e → vecs_ok valid (store_ e) → valid q →
  length q = N.to_nat (cfg_dim e) →
  ∃ out, search e q k f ef_arg = Ok out ∧ answers_query e q k f out.
Proof.
  intros Hlaws Hinv Hv Hq Hlen. destruct (Nat.eqb_spec k 0) as [-> |Hk].
  - exists []. unfold search. rewrite (inv_dim e Hinv).
    destruct (N.eqb_spec (N.of_nat (length q)) (cfg_dim e)); [|lia]. split; [done|].
    split; [done|constructor|constructor|]. by intros r ?%elem_of_nil.
  - destruct (search_params e q k f ef_arg Hinv Hlen ltac:(lia)) as (p & -> & Hp & _ & Hel).
    destruct (Hlaws (store_ e) q k p (index_ e)) as (out & Hout & Hok);
      [apply Hinv|apply Hinv|done|done|by rewrite (inv_dim e Hinv)|done|].
    exists out. split; [done|]. by eapply search_ok_answers.
Qed.

(** C15: for every index that keeps its contract, a search of the engine with a
    query of the right length returns at most [k] entries of the database, all
    different, all matching the filter, each with its distance to the query and
    the closest first; a query of another length raises the documented
    exception, and nothing is read out of range. *)
Theorem engine_search_sound (valid : list word32 → Prop) (e : Engine.t Ix) (q : list word32) (k : nat)
    (f : option Filter) (ef_arg : nat) :
  IndexSearchLaws Ix buildable valid → engine_inv e → vecs_ok valid (store_ e) → valid q →
  if decide (length q = N.to_nat (cfg_dim e)) then
    ∃ out, search e q k f ef_arg = Ok out ∧ answers_query e q k f out
  else search e q k f ef_arg = Throw (invalid_argument "Engine::search: query dimensionality mismatch").
Proof.
  intros Hlaws Hinv Hv Hq. case_decide as Hlen; [by apply (search_answers valid)|by apply search_wrong_length].
Qed.
End Search.

(** ** The exact index *)

(** The entries of the database that match a filter. *)
Definition matching (f : option Filter) (d : db) : list (string * (list word32 * Metadata)) :=
  filter (λ y, filter_matches f y.2.2) (map_to_list d).

Lemma matching_all (d : db) : length (matching None d) = base.size d.
Proof. unfold matching. by rewrite filter_full, length_map_to_list. Qed.

Lemma omap_filter_length {A B C} (g : A → option B) (h : A → C) (P : B → Prop) (Q : C → Prop)
    `{!∀ x, Decision (P x), !∀ x, Decision (Q x)} (l : list A) :
  (∀ a, a ∈ l → match g a with Some b => P b ↔ Q (h a) | None => ¬ Q (h a) end) →
  length (filter P (omap g l)) = length (filter Q (h <$> l)).
Proof.
  induction l as [|a l IH]; intros Hl; [done|]. cbn [omap list_omap fmap list_fmap].
  pose proof (Hl a ltac:(set_solver)) as Ha. specialize (IH ltac:(intros; apply Hl; set_solver)).
  rewrite (filter_cons _ (h a)). destruct (g a) as [b|].
  - rewrite filter_cons. repeat case_decide; try tauto; cbn; lia.
  - by rewrite decide_False.
Qed.

Lemma matching_slots s (f : option Filter) (E : InternalId → bool) :
  VectorStore.wf s →
  (∀ i, E i = match f with None => VectorStore.is_live s i | Some f => slot_allowed s f i end) →
  length (matching f (VectorStore.abs s)) =
  length (filter E (N.of_nat <$> seq 0 (VectorStore.slot_count s))).
Proof.
  intros Hwf HE. unfold matching.
  assert (map_to_list (VectorStore.abs s) ≡ₚ live_entries s) as ->.
  { rewrite <- live_entries_map by done. apply map_to_list_to_map. by apply live_entries_NoDup. }
  unfold live_entries. apply omap_filter_length. intros i Hi%elem_of_seq.
  destruct (slot_entry s (N.of_nat i) Hwf) as (x & v & m & _ & _ & Hm & _ & _ & Hle); [lia|].
  rewrite Nat2N.id in Hle. rewrite Hle, HE. unfold slot_allowed. rewrite Hm.
  destruct (VectorStore.is_live s (N.of_nat i)), f as [f|]; cbn; naive_solver.
Qed.

Section Exact.
Context {Met : DistanceMetric} {PQ : PQueue (A:=SearchResult) FlatIndex.worse}.
Context {PL : PQueueLaws FlatIndex.worse scored}.
Context {buildable : list word32 → Prop}.

(** An exact answer: nothing that matches is left out unless [k] entries are at
    least as close. *)
Record answers_exactly (e : Engine.t FlatIndex.t) (q : list word32) (k : nat) (f : option Filter) (out : list SearchResult) : Prop := {
  ax_answers : answers_query e q k f out;
  ax_length : length out = Nat.min k (length (matching f (contents e)));
  ax_closest x v m d r : contents e !! x = Some (v, m) → filter_matches f m → r ∈ out →
    distance q v (cfg_dim e) = Ok d →
    (∀ r', r' ∈ out → VectorStore.external_id (store_ e) (id r') ≠ Ok x) → ¬ flt d (score r);
}.

Lemma flat_answers (valid : list word32 → Prop) (e : Engine.t FlatIndex.t) (q : list word32) (k : nat)
    (f : option Filter) (ef_arg : nat) :
  MetricTame Met valid → engine_inv (buildable := buildable) e → vecs_ok valid (store_ e) → valid q →
  length q = N.to_nat (cfg_dim e) →
  ∃ out, search e q k f ef_arg = Ok out ∧ answers_exactly e q k f out.
Proof.
  intros Ht Hinv Hv Hq Hlen. destruct (decide (k = 0)) as [->|Hk0].
  { exists []. split; [by apply (search_zero (buildable := buildable))|]. split; [|done|by intros ????? _ _ ?%elem_of_nil].
    split; [done|constructor|constructor|by intros ? ?%elem_of_nil]. }
  assert (0 < k) as Hk by lia. pose proof Hinv as [Hwf Hdim _ Hix].
  destruct (search_params e q k f ef_arg Hinv Hlen Hk) as (p & -> & Hp & _ & Hel).
  destruct (FlatIndex.search_exact_flat valid (store_ e) q k p Hwf Hv Hq) with (ix := index_ e)
    as (out & Hout & [Hok Hl Hclose]); [by rewrite Hdim|done|done|done|].
  exists out. split; [done|]. split; [by eapply search_ok_answers| |].
  { rewrite Hl. f_equal. symmetry. by apply matching_slots. }
  intros x v m d r Hx Hm Hr Hd Hout'. unfold contents in Hx. rewrite VectorStore.abs_lookup in Hx.
  destruct (VectorStore.ext_to_int_ (store_ e) !! x) as [i|] eqn:Hi; [|done]. cbn in Hx.
  destruct (read_slot (store_ e) x i Hwf Hi) as (v' & m' & Hgv & _ & Hgm & Hext & _ & Habs).
  rewrite VectorStore.abs_lookup, Hi in Habs. cbn in Habs. rewrite Hx in Habs.
  destruct (VectorStore.is_live (store_ e) i) eqn:El; [|done]. injection Habs as <- <-.
  apply (Hclose i r {| id := i; score := d |}); [done| | |done|].
  - rewrite Hel. destruct f as [f|]; [|by rewrite El]. unfold slot_allowed. by rewrite El, Hgm.
  - intros (r' & -> & Hr')%list_elem_of_fmap. by apply (Hout' r').
  - exists v. split; [done|]. cbn. by rewrite Hdim.
Qed.

(** C5: an engine with the exact index answers a filtered query exactly: besides
    what every search guarantees, it returns as many results as there are
    matching entries, up to [k], and no matching entry that is left out is
    closer than a returned one. *)
Theorem engine_flat_exact (valid : list word32 → Prop) (e : Engine.t FlatIndex.t) (q : list word32) (k : nat)
    (f : option Filter) (ef_arg : nat) :
  MetricTame Met valid → engine_inv (buildable := buildable) e → vecs_ok valid (store_ e) → valid q →
  length q = N.to_nat (cfg_dim e) →
  ∃ out, search e q k f ef_arg = Ok out ∧ answers_query e q k f out ∧
    length out = Nat.min k (length (matching f (contents e))) ∧
    ∀ x v m d r, contents e !! x = Some (v, m) → filter_matches f m → r ∈ out →
      distance q v (cfg_dim e) = Ok d →
      (∀ r', r' ∈ out → VectorStore.external_id (store_ e) (id r') ≠ Ok x) → ¬ flt d (score r).
Proof.
  intros Ht Hinv Hv Hq Hlen. destruct (flat_answers valid e q k f ef_arg) as (out & Hs & [Ha Hl Hc]); try done.
  exists out. by split_and!.
Qed.
End Exact.
