(* ===== verification/EngineConfig.v ===== *)
(** * Configurations of the engine ([engine.hpp], [engine.cpp], the index factories)

    The constructor chooses the index at run time: two kinds, three metrics. Every
    choice keeps the contract between index and engine, so the theorems about an
    abstract index hold of every configured engine. *)
From S2P Require Import Prelude StdQueue Binary Distance Metadata Bitset VectorStore StoreSpec Index DistanceBounds FlatIndex.
From S2P Require Import Hnsw HnswIndex Bytes OpCodec Engine EngineSpec EngineSearch.
Local Open Scope nat_scope.

Module EngineConfig.

Inductive IndexKind := Flat | Hnsw.
#[export] Instance IndexKind_dec : EqDecision IndexKind.
Proof. solve_decision. Defined.

Record EngineConfig := {
  dim : Dim;
  metric : MetricKind;
  index : IndexKind;
  hnsw : Hnsw.Params;
  persistence : option Engine.Persistence;
}.

(** The default member initialisers. *)
Definition default_config (d : Dim) : EngineConfig :=
  {| dim := d; metric := MetricCosine; index := Flat; hnsw := Hnsw.default_hnsw; persistence := None |}.

(** A [std::unique_ptr<Index>]: an implementation of the interface. *)
Record AnyIndex := { carrier : Type; operations : IndexOps carrier }.
#[export] Existing Instance operations.

Section Config.
Context {Rand : Hnsw.RandomSource} {PQ : PQueue (A:=SearchResult) FlatIndex.worse}.
Context {PQn : PQueue Hnsw.near_on_top} {PQf : PQueue Hnsw.far_on_top} {Sort : StdSort} {MO : MapOrder}.

Definition make_flat_index (m : MetricKind) : AnyIndex :=
  match m with
  | MetricL2 => {| carrier := FlatIndex.t; operations := FlatIndex.flat_ops (Met := L2) |}
  | MetricCosine => {| carrier := FlatIndex.t; operations := FlatIndex.flat_ops (Met := Cosine) |}
  | MetricDot => {| carrier := FlatIndex.t; operations := FlatIndex.flat_ops (Met := Dot) |}
  end.

Definition make_hnsw_index (m : MetricKind) (params : Hnsw.Params) : AnyIndex :=
  match m with
  | MetricL2 => {| carrier := Hnsw.t; operations := Hnsw.hnsw_ops (Met := L2) params |}
  | MetricCosine => {| carrier := Hnsw.t; operations := Hnsw.hnsw_ops (Met := Cosine) params |}
  | MetricDot => {| carrier := Hnsw.t; operations := Hnsw.hnsw_ops (Met := Dot) params |}
  end.

Definition make_index (cfg : EngineConfig) : AnyIndex :=
  match index cfg with
  | Flat => make_flat_index (metric cfg)
  | Hnsw => make_hnsw_index (metric cfg) (hnsw cfg)
  end.

(** [Engine::Engine(EngineConfig)] *)
Definition make (cfg : EngineConfig) : result (Engine.t (carrier (make_index cfg))) :=
  Engine.construct (dim cfg) (persistence cfg).

(** ** Every choice keeps the contract *)

Context {PL : PQueueLaws FlatIndex.worse scored}.
Context {PLn : PQueueLaws Hnsw.near_on_top HnswSearch.numbered} {PLf : PQueueLaws Hnsw.far_on_top HnswSearch.numbered}.
Context {SL : StdSortLaws}.

(** The parameters of a graph: [2 * M] is an [int], and the levels drawn are. *)
Definition graph_ok (cfg : EngineConfig) : Prop :=
  index cfg = Hnsw → HnswIndex.params_int (hnsw cfg) ∧ HnswIndex.LevelDraws (hnsw cfg).

(** What a client sees of a fresh in-memory engine after some calls: the answers
    of the database, no log, and sound searches under the metric. *)
Definition behaves {Ix : Type} {IO : IndexOps Ix} (Met : DistanceMetric) (d : Dim) (ops : list Op) (e : Engine.t Ix) : Prop :=
  let '(rs, e') := run_log client ops e in
  run_log (spec_apply d) ops ∅ = (rs, contents e') ∧ Engine.durable e' = false ∧
  ∀ q k f ef, small_vec q →
    if decide (length q = N.to_nat d)
    then ∃ out, Engine.search e' q k f ef = Ok out ∧ answers_query (Met := Met) e' q k f out
    else Engine.search e' q k f ef = Throw (invalid_argument "Engine::search: query dimensionality mismatch").

(** As many results as there are matches, up to [k], and none that is left out
    closer. *)
Definition exhaustive {Ix : Type} {IO : IndexOps Ix} (Met : DistanceMetric) (d : Dim) (ops : list Op) (e : Engine.t Ix) : Prop :=
  let e' := (run_log client ops e).2 in
  ∀ q k f ef out, small_vec q → Engine.search e' q k f ef = Ok out →
    length out = Nat.min k (length (matching f (contents e'))) ∧
    ∀ x v m s r, contents e' !! x = Some (v, m) → filter_matches f m → r ∈ out → distance q v d = Ok s →
      (∀ r', r' ∈ out → VectorStore.external_id (Engine.store_ e') (id r') ≠ Ok x) → ¬ flt s (score r).

Lemma construct_memory {Ix : Type} {IO : IndexOps Ix} d (e : Engine.t Ix) :
  Engine.construct d None = Ok e → Engine.open_engine d None = Ok e.
Proof. unfold Engine.construct. by destruct (VectorStore.make d). Qed.

Lemma contract_behaves {Ix : Type} {IO : IndexOps Ix} (Met : DistanceMetric) {IL : IndexLaws Ix small_vec}
    (ISL : @IndexSearchLaws Ix Met IO small_vec IL small_vec) d (e : Engine.t Ix) ops :
  (d < 2 ^ 32)%N → Engine.construct d None = Ok e → Forall (op_ok small_vec d) ops → (N.of_nat (length ops) < 2 ^ 32)%N →
  behaves Met d ops e.
Proof.
  intros Hd He%construct_memory Hops Hlen. unfold behaves. pose proof (fresh_run d e ops Hd He Hops Hlen) as H.
  destruct (run_log client ops e) as [rs e']. destruct H as (Hinv & Hdim & Hw & Hrun).
  split_and!; [done|unfold Engine.durable; by rewrite Hw|]. intros q k f ef Hq. case_decide as Hl.
  - apply (search_answers small_vec e' q k f ef ISL Hinv); [apply Hinv|done|by rewrite Hdim].
  - apply search_wrong_length; [done|by rewrite Hdim].
Qed.

Lemma flat_exhaustive (Met : DistanceMetric) (HT : MetricTame Met small_vec) d (e : Engine.t FlatIndex.t) ops :
  (d < 2 ^ 32)%N → Engine.construct d None = Ok e → Forall (op_ok small_vec d) ops → (N.of_nat (length ops) < 2 ^ 32)%N →
  exhaustive Met d ops e.
Proof.
  intros Hd He%construct_memory Hops Hlen. unfold exhaustive. pose proof (fresh_run d e ops Hd He Hops Hlen) as H.
  destruct (run_log client ops e) as [rs e']. destruct H as (Hinv & Hdim & Hw & Hrun). cbn [snd].
  intros q k f ef out Hq Hs. destruct (decide (length q = N.to_nat d)) as [Hl|Hl].
  - destruct (flat_answers small_vec e' q k f ef HT Hinv) as (out' & Hs' & [Ha Hn Hc]); [apply Hinv|done|by rewrite Hdim|].
    rewrite Hs in Hs'. injection Hs' as <-. split; [done|]. intros x v m s r. rewrite <- Hdim. apply Hc.
  - rewrite (search_wrong_length (buildable := small_vec)) in Hs; [done|done|by rewrite Hdim].
Qed.

Lemma flat_behaves (Met : DistanceMetric) (HT : MetricTame Met small_vec) d (e : Engine.t FlatIndex.t) ops :
  (d < 2 ^ 32)%N → Engine.construct d None = Ok e → Forall (op_ok small_vec d) ops → (N.of_nat (length ops) < 2 ^ 32)%N →
  behaves Met d ops e.
Proof. apply (contract_behaves Met), FlatIndex.flat_search_laws, HT. Qed.

Lemma hnsw_behaves (Met : DistanceMetric) (HT : MetricTame Met small_vec) params
    (HM : HnswIndex.params_int params) (HL : HnswIndex.LevelDraws params) :
  let IO := Hnsw.hnsw_ops params in ∀ d (e : Engine.t Hnsw.t) ops,
  (d < 2 ^ 32)%N → Engine.construct d None = Ok e → Forall (op_ok small_vec d) ops → (N.of_nat (length ops) < 2 ^ 32)%N →
  behaves Met d ops e.
Proof.
  intros IO d e ops. apply (@contract_behaves _ IO Met (HnswIndex.hnsw_laws params HM small_vec)).
  by apply HnswIndex.hnsw_search_laws.
Qed.

(** C16: every configuration. For each kind of index, metric and graph parameters
    (with [2 * M] an [int]), any sequence of client calls on the engine that the
    constructor makes answers as the database, writes no log, and every search
    under the metric is sound; with the exact index it leaves nothing closer out. *)
Theorem engine_every_config (cfg : EngineConfig) (e : Engine.t (carrier (make_index cfg))) (ops : list Op) :
  (dim cfg < 2 ^ 32)%N → persistence cfg = None → graph_ok cfg → make cfg = Ok e →
  Forall (op_ok small_vec (dim cfg)) ops → (N.of_nat (length ops) < 2 ^ 32)%N →
  behaves (metric_of (metric cfg)) (dim cfg) ops e ∧
  (index cfg = Flat → exhaustive (metric_of (metric cfg)) (dim cfg) ops e).
Proof.
  destruct cfg as [d m ix hp pe]. unfold make, graph_ok. cbn [dim metric index hnsw persistence]. intros Hd -> Hg He Hops Hn.
  pose proof (small_tame m) as HT. destruct ix; cbn [make_index index metric hnsw] in *.
  - destruct m; cbn in HT, e, He |- *;
      (split; [by apply (flat_behaves _ HT)|intros _; by apply (flat_exhaustive _ HT)]).
  - split; [|done]. destruct (Hg eq_refl) as [HM HL].
    destruct m; cbn in HT, e, He |- *; by apply (hnsw_behaves _ HT hp HM HL).
Qed.
End Config.
End EngineConfig.
