(* ===== verification/EngineBatch.v ===== *)
(** * Batch search with threads ([Engine::search_batch] of [engine.cpp])

    The queries are split into ranges, one thread each, that write disjoint
    elements of the result. A run is a sequence of steps of the calling thread,
    which starts the threads and joins them, and of rounds of the threads'
    loops, in any interleaving. Every run ends, no reachable state is stuck, and
    every end is what the serial searches give. *)
From S2P Require Import Prelude StdQueue Binary Distance Metadata Bitset VectorStore Index Engine.
Local Open Scope nat_scope.
Import Engine.

Module EngineBatch.
Section Batch.
Context {Ix : Type} {IO : IndexOps Ix}.

(** The body of the loop of [run_range]: [results[i] = index_->search(...)]. *)
Definition query_round (f : list word32 → result (list SearchResult)) (queries : list (list word32)) (i : nat)
    (results : list (list SearchResult)) : result (list (list SearchResult)) :=
  q ← at_ queries i;
  r ← f q;
  set_at results i r.

Definition run_range (f : list word32 → result (list SearchResult)) (queries : list (list word32)) (lo hi : nat)
    (results : list (list SearchResult)) : result (list (list SearchResult)) :=
  for_range lo (hi - lo) (query_round f queries) results.

(** The ranges of the threads [t], ..., [t + n - 1]. *)
Fixpoint spawn (qn chunk t n : nat) : list (nat * nat) :=
  match n with
  | O => []
  | S n =>
      let lo := t * chunk in
      if qn <=? lo then [] else (lo, Nat.min (lo + chunk) qn) :: spawn qn chunk (S t) n
  end.

(** The calling thread: in the loop that starts the threads, with the ranges
    still to start, or in the loop that joins them, before [workers[j]]. *)
Inductive Caller :=
| Spawning (ranges : list (nat * nat))
| Joining (j : nat).

(** The call while it runs: the search of one query that [run_range] has
    captured, the calling thread, the rest of every started thread's range, and
    the results; or its end, which is a return or, when a thread throws, the end
    of the process. *)
Inductive Conf :=
| Running (f : list word32 → result (list SearchResult)) (c : Caller) (workers : list (nat * nat))
    (results : list (list SearchResult))
| Ended (out : result (list (list SearchResult))).

(** The steps of the calling thread and of the started threads. [w.join()] waits
    for the thread: it is a step only when the thread has nothing left. *)
Inductive batch_step (queries : list (list word32)) : Conf → Conf → Prop :=
| step_spawn f w ranges ws rs :
    batch_step queries (Running f (Spawning (w :: ranges)) ws rs) (Running f (Spawning ranges) (ws ++ [w]) rs)
| step_spawned f ws rs :
    batch_step queries (Running f (Spawning []) ws rs) (Running f (Joining 0) ws rs)
| step_round f c ws rs t lo hi rs' :
    ws !! t = Some (lo, hi) → lo < hi → query_round f queries lo rs = Ok rs' →
    batch_step queries (Running f c ws rs) (Running f c (<[t := (S lo, hi)]> ws) rs')
| step_terminate f c ws rs t lo hi ex :
    ws !! t = Some (lo, hi) → lo < hi → query_round f queries lo rs = Throw ex →
    batch_step queries (Running f c ws rs) (Ended (Throw ex))
| step_join f j ws rs lo hi :
    ws !! j = Some (lo, hi) → hi ≤ lo →
    batch_step queries (Running f (Joining j) ws rs) (Running f (Joining (S j)) ws rs)
| step_return f j ws rs :
    length ws ≤ j → batch_step queries (Running f (Joining j) ws rs) (Ended (Ok rs)).

(** [SearchParams] of the batch, and the search of one query. *)
Definition batch_query (e : Engine.t Ix) (k ef_arg : nat) (allowed_ : option Bitset.t) (q : list word32)
    : result (list SearchResult) :=
  ix_search (store_ e) q k
    {| ef := if 0 <? ef_arg then ef_arg else ef default_params; allowed := allowed_ |} (index_ e).

(** [hw] is [std::thread::hardware_concurrency()]. *)
Definition thread_count (num_threads hw qn : nat) : nat :=
  Nat.min (if num_threads =? 0 then Nat.max 1 hw else num_threads) qn.

(** The call up to the start of the first thread. *)
Definition batch_start (e : Engine.t Ix) (queries : list (list word32)) (k : nat) (filter : option Filter)
    (ef_arg num_threads hw : nat) : Conf :=
  let qn := length queries in
  let results := replicate qn [] in
  if qn =? 0 then Ended (Ok results)
  else if negb (forallb (λ q, N.of_nat (length q) =? VectorStore.dim_ (store_ e))%N queries) then
    Ended (Throw (invalid_argument "Engine::search_batch: query dimensionality mismatch"))
  else if k =? 0 then Ended (Ok results)
  else
    match match filter with None => Ok None | Some f => b ← build_allowed (store_ e) f; Ok (Some b) end with
    | Throw ex => Ended (Throw ex)
    | Ok allowed_ =>
        let f := batch_query e k ef_arg allowed_ in
        let tcount := thread_count num_threads hw qn in
        if tcount <=? 1 then Ended (run_range f queries 0 qn results)
        else
          let chunk := (qn + tcount - 1) / tcount in
          Running f (Spawning (spawn qn chunk 0 tcount)) [] results
    end.

(** [out] is an outcome of the call: some run of it ends with [out]. *)
Definition search_batch (e : Engine.t Ix) (queries : list (list word32)) (k : nat) (filter : option Filter)
    (ef_arg num_threads hw : nat) (out : result (list (list SearchResult))) : Prop :=
  rtc (batch_step queries) (batch_start e queries k filter ef_arg num_threads hw) (Ended out).

(** ** The ranges cover the queries without overlap *)

Lemma spawn_bounds qn chunk t n lo hi :
  (lo, hi) ∈ spawn qn chunk t n → t * chunk ≤ lo ∧ lo < qn ∧ hi ≤ qn ∧ hi ≤ lo + chunk.
Proof.
  revert t. induction n as [|n IH]; intros t; cbn [spawn]; [by intros ?%elem_of_nil|].
  destruct (Nat.leb_spec qn (t * chunk)); [by intros ?%elem_of_nil|].
  intros [[= -> ->]|Hin]%elem_of_cons; [lia|]. apply IH in Hin. lia.
Qed.

Lemma spawn_cover qn chunk t n i :
  0 < chunk → t * chunk ≤ i < qn → i < (t + n) * chunk →
  ∃ lo hi, (lo, hi) ∈ spawn qn chunk t n ∧ lo ≤ i < hi.
Proof.
  intros Hc. revert t. induction n as [|n IH]; intros t Hi Hn; [lia|]. cbn [spawn].
  destruct (Nat.leb_spec qn (t * chunk)); [lia|].
  destruct (decide (i < t * chunk + chunk)).
  - eexists _, _. split; [by left|lia].
  - destruct (IH (S t)) as (lo & hi & Hin & ?); [lia|lia|]. exists lo, hi. split; [by right|done].
Qed.

(** Two threads never write the same element. *)
Lemma spawn_disjoint qn chunk t n :
  StronglySorted (λ w w', w.2 ≤ w'.1) (spawn qn chunk t n).
Proof.
  revert t. induction n as [|n IH]; intros t; cbn [spawn]; [constructor|].
  destruct (Nat.leb_spec qn (t * chunk)); constructor; [apply IH|]. apply Forall_forall.
  intros [lo hi] Hin. apply spawn_bounds in Hin. cbn. lia.
Qed.

Lemma chunk_cover qn tcount : 0 < tcount → 0 < qn →
  0 < (qn + tcount - 1) / tcount ∧ qn ≤ tcount * ((qn + tcount - 1) / tcount).
Proof.
  intros Ht Hq. pose proof (Nat.div_mod (qn + tcount - 1) tcount ltac:(lia)) as Hd.
  pose proof (Nat.mod_upper_bound (qn + tcount - 1) tcount ltac:(lia)). nia.
Qed.

(** ** Every run ends *)

(** The rounds, starts and joins that a thread has left. *)
Definition work_left (ws : list (nat * nat)) : nat := sum_list_with (λ w, w.2 - w.1) ws.

Definition steps_left (c : Conf) : nat :=
  match c with
  | Running _ (Spawning ranges) ws _ => work_left (ws ++ ranges) + length (ws ++ ranges) + length ranges + 2
  | Running _ (Joining j) ws _ => work_left ws + (length ws - j) + 1
  | Ended _ => 0
  end.

Lemma work_left_app ws ws' : work_left (ws ++ ws') = work_left ws + work_left ws'.
Proof. apply sum_list_with_app. Qed.

Lemma work_left_round ws t lo hi :
  ws !! t = Some (lo, hi) → lo < hi → S (work_left (<[t := (S lo, hi)]> ws)) = work_left ws.
Proof.
  intros Ht Hlo. unfold work_left. rewrite insert_take_drop by (by eapply lookup_lt_Some).
  rewrite <- (take_drop_middle _ _ _ Ht) at 3. rewrite !sum_list_with_app. cbn. lia.
Qed.

Lemma batch_step_decreases queries c c' : batch_step queries c c' → steps_left c' < steps_left c.
Proof.
  destruct 1 as [f w ranges ws rs|f ws rs|f c ws rs t lo hi rs' Ht Hlo _|f c ws rs t lo hi ex Ht Hlo _|f j ws rs lo hi Hj _|];
    cbn [steps_left].
  - rewrite <- app_assoc. cbn. lia.
  - rewrite app_nil_r. cbn. lia.
  - pose proof (work_left_round ws t lo hi Ht Hlo). destruct c as [ranges|j]; cbn [steps_left];
      [rewrite !work_left_app, !length_app|]; rewrite ?length_insert; lia.
  - destruct c; cbn [steps_left]; lia.
  - apply lookup_lt_Some in Hj. lia.
  - lia.
Qed.

(** There is no infinite run. *)
Lemma batch_step_wf queries : well_founded (flip (batch_step queries)).
Proof. apply (well_founded_lt_compat _ steps_left). intros c' c. apply batch_step_decreases. Qed.

(** Until the end there is a next step; the join waits only for a thread that
    can go on. *)
Lemma batch_progress queries c : (∃ out, c = Ended out) ∨ ∃ c', batch_step queries c c'.
Proof.
  destruct c as [f c ws rs|out]; [right|by left; exists out].
  destruct c as [[|w ranges]|j]; [eexists; apply step_spawned|eexists; apply step_spawn|].
  destruct (ws !! j) as [[lo hi]|] eqn:Hj; [|eexists; by apply step_return, lookup_ge_None_1].
  destruct (decide (hi ≤ lo)); [eexists; by eapply step_join|].
  destruct (query_round f queries lo rs) as [rs'|ex] eqn:Hr;
    eexists; [eapply step_round|eapply step_terminate]; eauto; lia.
Qed.

(** So every call has an outcome. *)
Lemma batch_ends queries c : ∃ out, rtc (batch_step queries) c (Ended out).
Proof.
  induction c as [c IH] using (well_founded_ind (batch_step_wf queries)).
  destruct (batch_progress queries c) as [[out ->]|[c' Hc]]; [by exists out|].
  destruct (IH c' Hc) as [out Hout]. exists out. by eapply rtc_l.
Qed.

(** ** Every run ends with the serial results *)

Section Run.
Context (f : list word32 → result (list SearchResult)) (queries : list (list word32)).
Context (outs : list (list SearchResult)) (Houts : Forall2 (λ q r, f q = Ok r) queries outs).

Lemma round_spec i rs :
  length rs = length queries → i < length queries →
  ∃ r, outs !! i = Some r ∧ query_round f queries i rs = Ok (<[i := r]> rs).
Proof.
  intros Hl Hi. destruct (lookup_lt_is_Some_2 queries i Hi) as [q Hq].
  destruct (Forall2_lookup_l _ _ _ _ _ Houts Hq) as (r & Hr & Hf).
  exists r. split; [done|]. unfold query_round, at_. rewrite Hq. cbn. rewrite Hf. cbn.
  apply set_at_lt. lia.
Qed.

(** Every element is final or left to a thread. *)
Record run_inv (ws : list (nat * nat)) (rs : list (list SearchResult)) : Prop := {
  ri_length : length rs = length queries;
  ri_bounds t lo hi : ws !! t = Some (lo, hi) → hi ≤ length queries;
  ri_final i : i < length queries →
    rs !! i = outs !! i ∨ ∃ t lo hi, ws !! t = Some (lo, hi) ∧ lo ≤ i < hi;
}.

Lemma run_inv_round ws rs t lo hi r :
  run_inv ws rs → ws !! t = Some (lo, hi) → lo < hi → outs !! lo = Some r →
  run_inv (<[t := (S lo, hi)]> ws) (<[lo := r]> rs).
Proof.
  intros [Hl Hb Hf] Ht Hlo Hr. pose proof (lookup_lt_Some _ _ _ Ht) as Hlt. pose proof (Hb t lo hi Ht) as Hhi.
  split.
  - by rewrite length_insert.
  - intros t' lo' hi'. destruct (decide (t' = t)) as [->|]; [|rewrite list_lookup_insert_ne by done; apply Hb].
    rewrite list_lookup_insert_eq by done. by intros [= _ <-].
  - intros i Hi. destruct (decide (i = lo)) as [->|Hne].
    { left. rewrite Hr. apply list_lookup_insert_eq. lia. }
    rewrite list_lookup_insert_ne by done. destruct (Hf i Hi) as [?|(t' & lo' & hi' & Ht' & Hi')]; [by left|].
    right. destruct (decide (t' = t)) as [->|Hnt].
    + rewrite Ht in Ht'. injection Ht' as <- <-. exists t, (S lo), hi.
      split; [by apply list_lookup_insert_eq|lia].
    + exists t', lo', hi'. by rewrite list_lookup_insert_ne.
Qed.

Lemma run_inv_final ws rs : run_inv ws rs → Forall (λ w, w.2 ≤ w.1) ws → rs = outs.
Proof.
  intros Hinv Hdone. pose proof (Forall2_length _ _ _ Houts) as Hlen. pose proof (ri_length _ _ Hinv) as Hl.
  apply list_eq. intros i. destruct (decide (i < length queries)) as [Hi|].
  - destruct (ri_final _ _ Hinv i Hi) as [|(t & lo & hi & Ht & ?)]; [done|].
    rewrite Forall_lookup in Hdone. apply Hdone in Ht. cbn in Ht. lia.
  - rewrite !lookup_ge_None_2 by lia. done.
Qed.

(** The threads that run, and those still to start, have what is not final; the
    joined ones have nothing left. *)
Definition conf_inv (c : Conf) : Prop :=
  match c with
  | Running f' (Spawning ranges) ws rs => f' = f ∧ run_inv (ws ++ ranges) rs
  | Running f' (Joining j) ws rs =>
      f' = f ∧ run_inv ws rs ∧ ∀ t lo hi, t < j → ws !! t = Some (lo, hi) → hi ≤ lo
  | Ended out => out = Ok outs
  end.

Lemma run_inv_work ws rs t lo hi :
  run_inv ws rs → ws !! t = Some (lo, hi) → lo < hi →
  ∃ rs', query_round f queries lo rs = Ok rs' ∧ run_inv (<[t := (S lo, hi)]> ws) rs'.
Proof.
  intros Hinv Ht Hlo. pose proof (ri_bounds _ _ Hinv t lo hi Ht).
  destruct (round_spec lo rs) as (r & Hor & Hr); [apply Hinv|lia|].
  exists (<[lo := r]> rs). split; [done|by apply run_inv_round].
Qed.

Lemma conf_inv_step c c' : conf_inv c → batch_step queries c c' → conf_inv c'.
Proof.
  intros Hinv Hs. destruct Hs as [f' w ranges ws rs|f' ws rs|f' c ws rs t lo hi rs' Ht Hlo Hr|
    f' c ws rs t lo hi ex Ht Hlo Hr|f' j ws rs lo hi Hj Hlo|f' j ws rs Hj].
  - destruct Hinv as [-> Hinv]. split; [done|]. by rewrite <- app_assoc.
  - destruct Hinv as [-> Hinv]. rewrite app_nil_r in Hinv. split_and!; [done..|]. intros; lia.
  - destruct c as [ranges|j].
    + destruct Hinv as [-> Hinv]. pose proof (lookup_lt_Some _ _ _ Ht) as Hlt.
      destruct (run_inv_work _ _ t lo hi Hinv) as (rs1 & Hr1 & Hinv'); [by rewrite lookup_app_l|done|].
      rewrite Hr in Hr1. injection Hr1 as <-. split; [done|]. by rewrite insert_app_l in Hinv'.
    + destruct Hinv as (-> & Hinv & Hj).
      destruct (run_inv_work _ _ t lo hi Hinv Ht Hlo) as (rs1 & Hr1 & Hinv').
      rewrite Hr in Hr1. injection Hr1 as <-. split_and!; [done..|].
      intros t' lo' hi' Htj. destruct (decide (t' = t)) as [->|]; [|rewrite list_lookup_insert_ne by done; by apply Hj].
      specialize (Hj _ _ _ Htj Ht). lia.
  - exfalso. assert (∃ ws', f' = f ∧ run_inv ws' rs ∧ ws' !! t = Some (lo, hi)) as (ws' & -> & Hi & Ht').
    { destruct c as [ranges|j]; [destruct Hinv as [-> Hi]; exists (ws ++ ranges)|destruct Hinv as (-> & Hi & _); by exists ws].
      split_and!; [done..|]. apply lookup_app_l_Some, Ht. }
    destruct (run_inv_work _ _ t lo hi Hi Ht' Hlo) as (rs1 & Hr1 & _). by rewrite Hr in Hr1.
  - destruct Hinv as (-> & Hinv & Hd). split_and!; [done..|]. intros t lo' hi' Ht.
    destruct (decide (t = j)) as [->|]; [|apply Hd; lia]. rewrite Hj. by intros [= <- <-].
  - destruct Hinv as (-> & Hinv & Hd). cbn. f_equal. apply (run_inv_final ws rs Hinv).
    apply Forall_lookup. intros t [lo hi] Ht. apply (Hd t lo hi); [|done]. apply lookup_lt_Some in Ht. lia.
Qed.

(** From such a state the only end is the serial results, and it is reached. *)
Lemma conf_inv_ends c out : conf_inv c → rtc (batch_step queries) c (Ended out) ↔ out = Ok outs.
Proof.
  intros Hinv. assert (∀ out, rtc (batch_step queries) c (Ended out) → out = Ok outs) as Hall.
  { clear out. intros out Hr. remember (Ended out) as c' eqn:Hc'. induction Hr as [c|c c1 c2 Hs _ IH]; [by subst c|].
    apply IH; [by eapply conf_inv_step|done]. }
  split; [apply Hall|]. intros ->. destruct (batch_ends queries c) as [out Hr]. by rewrite <- (Hall _ Hr).
Qed.

Lemma run_inv_start ws :
  (∀ lo hi, (lo, hi) ∈ ws → hi ≤ length queries) →
  (∀ i, i < length queries → ∃ lo hi, (lo, hi) ∈ ws ∧ lo ≤ i < hi) →
  run_inv ws (replicate (length queries) []).
Proof.
  intros Hb Hc. split.
  - apply length_replicate.
  - intros t lo hi Ht. eapply Hb. by eapply list_elem_of_lookup_2.
  - intros i Hi. right. destruct (Hc i Hi) as (lo & hi & [t Ht]%list_elem_of_lookup & ?). eauto.
Qed.

Lemma run_range_spec : run_range f queries 0 (length queries) (replicate (length queries) []) = Ok outs.
Proof.
  destruct (for_range_inv (λ i rs, run_inv [(i, length queries)] rs) 0 (length queries)
    (query_round f queries) (replicate (length queries) [])) as (rs & Hrs & Hinv).
  - intros i rs Hi Hinv. destruct (round_spec i rs) as (r & Hor & Hr); [apply Hinv|lia|].
    eexists. split; [done|]. apply (run_inv_round [(i, length queries)] rs 0 i); [done|done|lia|done].
  - apply run_inv_start.
    + by intros lo hi [= -> ->]%list_elem_of_singleton.
    + intros i Hi. exists 0, (length queries). split; [by left|lia].
  - unfold run_range. rewrite Nat.sub_0_r, Hrs. f_equal.
    eapply (run_inv_final [(0 + length queries, length queries)]); [done|]. by apply Forall_singleton.
Qed.

Lemma threads_inv tcount :
  0 < tcount → 0 < length queries →
  conf_inv (Running f (Spawning (spawn (length queries) ((length queries + tcount - 1) / tcount) 0 tcount)) []
    (replicate (length queries) [])).
Proof.
  intros Ht Hq. destruct (chunk_cover (length queries) tcount Ht Hq) as [Hc1 Hc2].
  split; [done|]. apply run_inv_start.
  - intros lo hi Hin%spawn_bounds. lia.
  - intros i Hi. apply spawn_cover; [done|lia|]. cbn [Nat.add]. lia.
Qed.
End Run.

Lemma search_dim e q k f ef_arg r :
  search e q k f ef_arg = Ok r → (N.of_nat (length q) =? VectorStore.dim_ (store_ e))%N = true.
Proof. unfold search. by destruct (N.eqb_spec (N.of_nat (length q)) (VectorStore.dim_ (store_ e))). Qed.

(** The batch's search of a query is the engine's. *)
Lemma batch_query_search e q k f ef_arg r :
  k ≠ 0 → search e q k f ef_arg = Ok r →
  ∃ allowed_, match f with None => Ok None | Some f => b ← build_allowed (store_ e) f; Ok (Some b) end = Ok allowed_ ∧
    batch_query e k ef_arg allowed_ q = Ok r.
Proof.
  intros Hk Hs. pose proof (search_dim e q k f ef_arg r Hs) as Hd. unfold search in Hs. rewrite Hd in Hs. cbn in Hs.
  destruct (Nat.eqb_spec k 0); [done|]. destruct f as [f|]; [|by exists None].
  apply result_bind_Ok in Hs as (b & -> & Hs). by exists (Some b).
Qed.

Lemma forallb_true_dims (e : Engine.t Ix) (queries : list (list word32)) :
  Forall (λ q, (N.of_nat (length q) =? VectorStore.dim_ (store_ e))%N = true) queries →
  forallb (λ q, N.of_nat (length q) =? VectorStore.dim_ (store_ e))%N queries = true.
Proof. induction 1 as [|q qs Hq _ IH]; [done|]. cbn. by rewrite Hq. Qed.

(** With [k = 0] every answer is empty. *)
Lemma zero_results e f ef_arg queries outs :
  Forall2 (λ q r, search e q 0 f ef_arg = Ok r) queries outs → replicate (length queries) [] = outs.
Proof.
  induction 1 as [|q r qs rs Hr _ IH]; [done|]. cbn. rewrite IH. f_equal.
  pose proof (search_dim _ _ _ _ _ _ Hr) as Hd. unfold search in Hr. rewrite Hd in Hr. cbn in Hr. congruence.
Qed.

(** When the serial search answers every query, so does the search that the
    threads use, and the call starts in a state that leads to those answers. *)
Lemma batch_start_inv e queries k f ef_arg num_threads hw outs :
  Forall2 (λ q r, search e q k f ef_arg = Ok r) queries outs →
  ∃ g, Forall2 (λ q r, g q = Ok r) queries outs ∧
    conf_inv g queries outs (batch_start e queries k f ef_arg num_threads hw).
Proof.
  intros Houts. unfold batch_start. cbn zeta. pose proof (Forall2_length _ _ _ Houts) as Hlen.
  destruct (Nat.eqb_spec (length queries) 0) as [E|Hq].
  { exists (λ q, search e q k f ef_arg). split; [done|]. destruct queries; [|done]. by destruct outs. }
  rewrite (forallb_true_dims e queries).
  2:{ apply Forall_forall. intros q [i Hi]%list_elem_of_lookup.
      destruct (Forall2_lookup_l _ _ _ _ _ Houts Hi) as (r & _ & Hr). by eapply search_dim. }
  cbn [negb]. destruct (Nat.eqb_spec k 0) as [->|Hk].
  { exists (λ q, search e q 0 f ef_arg). split; [done|]. by rewrite (zero_results e f ef_arg queries outs Houts). }
  destruct queries as [|q0 queries']; [done|]. destruct outs as [|r0 outs']; [done|].
  pose proof (Forall2_cons_1 _ _ _ _ _ Houts) as [H0 _].
  destruct (batch_query_search e q0 k f ef_arg r0 Hk H0) as (allowed_ & Hal & _). rewrite Hal.
  assert (Forall2 (λ q r, batch_query e k ef_arg allowed_ q = Ok r) (q0 :: queries') (r0 :: outs')) as Houts'.
  { eapply Forall2_impl; [exact Houts|]. intros q r Hr.
    destruct (batch_query_search e q k f ef_arg r Hk Hr) as (a' & Hal' & Hb). congruence. }
  exists (batch_query e k ef_arg allowed_). split; [done|].
  destruct (Nat.leb_spec (thread_count num_threads hw (length (q0 :: queries'))) 1).
  + cbn [conf_inv]. by rewrite (run_range_spec _ _ _ Houts').
  + apply threads_inv; [lia|cbn; lia].
Qed.

Lemma search_batch_outcome e queries k f ef_arg num_threads hw outs out :
  Forall2 (λ q r, search e q k f ef_arg = Ok r) queries outs →
  search_batch e queries k f ef_arg num_threads hw out ↔ out = Ok outs.
Proof.
  intros Houts. destruct (batch_start_inv e queries k f ef_arg num_threads hw outs Houts) as (g & Hg & Hinv).
  by apply (conf_inv_ends g queries outs Hg).
Qed.

(** A call that has ended takes no step. *)
Lemma ended_outcome queries c out : c = Ended out → ∀ out', rtc (batch_step queries) c (Ended out') ↔ out' = out.
Proof.
  intros -> out'. split; [|intros ->; constructor].
  inversion 1 as [|? c' ? Hs]; simplify_eq; [done|inversion Hs].
Qed.

Lemma wrong_length_start e queries k f ef_arg num_threads hw :
  Exists (λ q, N.of_nat (length q) ≠ VectorStore.dim_ (store_ e)) queries →
  batch_start e queries k f ef_arg num_threads hw =
    Ended (Throw (invalid_argument "Engine::search_batch: query dimensionality mismatch")).
Proof.
  intros Hex. unfold batch_start. cbn zeta.
  destruct (Nat.eqb_spec (length queries) 0) as [E|_]; [destruct queries; [by apply Exists_nil in Hex|done]|].
  assert (forallb (λ q, N.of_nat (length q) =? VectorStore.dim_ (store_ e))%N queries = false) as ->; [|done].
  apply not_true_iff_false. rewrite forallb_forall. intros Hall.
  apply Exists_exists in Hex as (q & Hq & Hne). apply Hne, N.eqb_eq, Hall. by apply list_elem_of_In.
Qed.

(** C14: a batch search always ends, and never blocks. The relation of its steps,
    those of the calling thread and of the threads it starts in any interleaving,
    has no infinite run; in every state that a run reaches, the call has ended or
    a step is possible, so the joins wait only for threads that can go on. When
    the serial search answers every query, then every end that a run can reach,
    whatever the number of threads and the interleaving, is the return of the
    list of those answers, and one is reached. A query of the wrong length raises
    the documented exception in the calling thread before any thread is started.
    The threads write disjoint ranges. *)
Theorem search_batch_serial (e : Engine.t Ix) (queries : list (list word32)) (k : nat) (f : option Filter)
    (ef_arg num_threads hw : nat) :
  let start := batch_start e queries k f ef_arg num_threads hw in
  well_founded (flip (batch_step queries)) ∧
  (∀ c, rtc (batch_step queries) start c → (∃ out, c = Ended out) ∨ ∃ c', batch_step queries c c') ∧
  (∃ out, search_batch e queries k f ef_arg num_threads hw out) ∧
  (∀ outs, Forall2 (λ q r, search e q k f ef_arg = Ok r) queries outs →
    ∀ out, search_batch e queries k f ef_arg num_threads hw out ↔ out = Ok outs) ∧
  (Exists (λ q, N.of_nat (length q) ≠ VectorStore.dim_ (store_ e)) queries →
    start = Ended (Throw (invalid_argument "Engine::search_batch: query dimensionality mismatch")) ∧
    ∀ out, search_batch e queries k f ef_arg num_threads hw out ↔
      out = Throw (invalid_argument "Engine::search_batch: query dimensionality mismatch")) ∧
  ∀ chunk tcount, StronglySorted (λ w w', w.2 ≤ w'.1) (spawn (length queries) chunk 0 tcount).
Proof.
  cbv zeta. split_and!.
  - apply batch_step_wf.
  - intros c _. apply batch_progress.
  - apply batch_ends.
  - intros outs Houts out. by apply search_batch_outcome.
  - intros Hex%(λ H, wrong_length_start e queries k f ef_arg num_threads hw H). split; [done|].
    by apply ended_outcome.
  - intros. apply spawn_disjoint.
Qed.
End Batch.
End EngineBatch.
