(* ===== verification/Recall.v ===== *)
(** * Recall and percentiles ([bench/recall_harness.cpp])

    The two measures of the benchmark: the share of the exact answers that an
    approximate index finds, and a percentile of latencies, in double precision
    as the code computes them. *)
From S2P Require Import Prelude StdQueue Binary Rounding Distance.
Local Open Scope Z_scope.

(** ** Integers and [double] *)

(** [static_cast<std::size_t>(double)]: truncation, undefined outside of the
    64-bit range. *)
Definition double_to_size (x : spec_float) : result nat :=
  let in_size (z : Z) := if decide (0 <= z < 2 ^ 64) then Ok (Z.to_nat z) else Throw undefined_behaviour in
  match x with
  | S754_zero _ => Ok 0%nat
  | S754_finite s m e => in_size ((if s then -1 else 1) * Z.shiftl (Zpos m) e)
  | _ => Throw undefined_behaviour
  end.

(** [static_cast<double>(std::size_t)]. *)
Definition double_of_nat (n : nat) : spec_float := double_of_int (Z.of_nat n).

Definition d_valid (x : spec_float) : Prop := valid_binary 53 1024 x.

Lemma double_of_nat_pos n :
  (0 < n)%nat → Z.of_nat n < 2 ^ 53 →
  ∃ m e, double_of_nat n = S754_finite false m e ∧ d_valid (S754_finite false m e) ∧
    le2 (Zpos m) e (Z.of_nat n) 0 ∧ le2 (Z.of_nat n) 0 (Zpos m) e.
Proof.
  intros H0 Hn. unfold double_of_nat, double_of_int. destruct (Z.of_nat n) as [|p|] eqn:E; [lia| |lia].
  assert (d_valid (binary_normalize 53 1024 (Zpos p) 0 false)) as Hv by by apply binary_normalize_valid.
  destruct (binary_round_int false p Hn) as (m & Hr & Hm). cbn [binary_normalize] in *. rewrite Hr in *.
  eexists m, _. split; [done|]. split; [done|]. pose proof (digits2_pos_bounds p) as [Hb _].
  assert (Zpos (digits2_pos p) <= 53) as Hd.
  { assert (2 ^ (Zpos (digits2_pos p) - 1) < 2 ^ 53) as Hlt%Z.pow_lt_mono_r_iff by lia; lia. }
  rewrite Hm, le2_shift_l, le2_shift_r by lia.
  replace (Zpos (digits2_pos p) - 53 + (53 - Zpos (digits2_pos p))) with 0 by lia. split; apply le2_refl.
Qed.

Lemma double_of_nat_fle n : Z.of_nat n < 2 ^ 53 → fle (double_of_nat n) (Z.of_nat n) 0.
Proof.
  intros Hn. destruct (decide (n = 0%nat)) as [->|]; [done|].
  by destruct (double_of_nat_pos n) as (m & e & -> & _ & H & _); [lia|done|].
Qed.

Lemma double_of_nat_sign n : has_sign false (double_of_nat n).
Proof. apply binary_normalize_sign. lia. Qed.

(** A quotient of naturals that is at most one. *)
Lemma ddiv_nat a b :
  (a <= b)%nat → (0 < b)%nat → Z.of_nat b < 2 ^ 53 →
  let x := ddiv (double_of_nat a) (double_of_nat b) in
  has_sign false x ∧ fle x 1 0 ∧ d_valid x ∧ (a = b → fge x 1 0).
Proof.
  intros Ha Hb Hlt x. unfold x.
  destruct (double_of_nat_pos b Hb Hlt) as (mb & eb & -> & _ & Hb1 & Hb2).
  destruct (decide (a = 0%nat)) as [->|Ha0]; [split_and!; try done; lia|].
  destruct (double_of_nat_pos a) as (ma & ea & -> & _ & Ha1 & Ha2); [lia|lia|].
  assert (le2 (Z.of_nat a) 0 (Z.of_nat b) 0) as Hab by (apply (le2_mono _ (Z.of_nat b)); [lia|apply le2_refl]).
  assert (le2 (Zpos ma) ea (Zpos mb) eb) as Hle by (eapply le2_trans; [exact Ha1|]; by eapply le2_trans).
  split_and!.
  - unfold ddiv; cbn [SFdiv].
    destruct (div_core 53 1024 (Zpos ma) ea (Zpos mb) eb) as (q & e' & l & -> & Hq & _); [lia..|].
    by apply binary_round_aux_sign.
  - by apply SFdiv_le_one.
  - by apply SFdiv_valid.
  - intros ->. apply SFdiv_ge_one; try done. by eapply le2_trans.
Qed.

Lemma d_one_parts : d_one = S754_finite false 4503599627370496 (-52).
Proof. done. Qed.

(** At most one, and one. *)
Lemma fle_one_not_above x : d_valid x → has_sign false x → fle x 1 0 → ¬ flt d_one x.
Proof.
  intros Hv Hs Hx. rewrite d_one_parts.
  destruct x as [[]|s| |s m e]; [done|by intros []|done|done|]. cbn in Hs. subst s. cbn [fle] in Hx.
  apply (le2_not_flt 53 1024); [done|by vm_compute|].
  eapply le2_trans; [exact Hx|done].
Qed.

Lemma one_unique x : d_valid x → fle x 1 0 → fge x 1 0 → x = d_one.
Proof.
  intros Hv H1 H2. rewrite d_one_parts. destruct x as [s|[]| |[] m e]; try done. cbn [fle fge] in *.
  apply (canonical_eq 53 1024); [done|by vm_compute| |].
  - eapply le2_trans; [exact H1|done].
  - eapply le2_trans; [|exact H2]. done.
Qed.

(** ** [recall_at_k] *)

Local Open Scope nat_scope.

(** The inner loop counts the results that the truth of the query contains. *)
Definition hit_step (truth : gset InternalId) (hit : nat) (r : SearchResult) : nat :=
  if decide (id r ∈ truth) then S hit else hit.

Definition count_hits (truth : gset InternalId) (got : list SearchResult) : nat :=
  foldl (hit_step truth) 0 got.

Definition recall_round (truth : list (gset InternalId)) (got : list (list SearchResult)) (k : nat)
    (q : nat) (sum : spec_float) : result spec_float :=
  g ← at_ got q;
  t ← at_ truth q;
  Ok (dadd sum (ddiv (double_of_nat (count_hits t g)) (double_of_nat k))).

Definition recall_at_k (truth : list (gset InternalId)) (got : list (list SearchResult)) (k : nat)
    : result spec_float :=
  sum ← for_range 0 (length truth) (recall_round truth got k) (S754_zero false);
  Ok (if length truth =? 0 then S754_zero false else ddiv sum (double_of_nat (length truth))).

(** The hits are a set: the common ids of answer and truth. *)
Lemma count_hits_app t g h : foldl (hit_step t) h g = h + count_hits t g.
Proof.
  unfold count_hits. revert h. induction g as [|r g IH]; intros h; [cbn; lia|].
  cbn [foldl]. rewrite IH, (IH (hit_step t 0 r)). unfold hit_step. case_decide; lia.
Qed.

Lemma count_hits_cons t r g : count_hits t (r :: g) = (if decide (id r ∈ t) then 1 else 0) + count_hits t g.
Proof. unfold count_hits at 1. cbn [foldl]. rewrite count_hits_app. unfold hit_step. by case_decide. Qed.

Lemma count_hits_le t g : count_hits t g ≤ length g.
Proof. induction g as [|r g IH]; [done|]. rewrite count_hits_cons. cbn. case_decide; lia. Qed.

Lemma count_hits_filter t g : count_hits t g = length (filter (.∈ t) (id <$> g)).
Proof.
  induction g as [|r g IH]; [done|]. rewrite count_hits_cons, IH. cbn [fmap list_fmap]. rewrite filter_cons.
  by case_decide.
Qed.

Lemma count_hits_size t g :
  NoDup (id <$> g) → count_hits t g = size (t ∩ list_to_set (id <$> g)).
Proof.
  intros Hnd. rewrite count_hits_filter.
  rewrite <- (size_list_to_set (C := gset InternalId)) by by apply NoDup_filter.
  f_equal. apply set_eq. intros x. rewrite elem_of_intersection, !elem_of_list_to_set, list_elem_of_filter. done.
Qed.

(** The running sum after [j] queries of at most one each. *)
Record recall_sum (all : Prop) (j : nat) (sum : spec_float) : Prop := {
  rs_sign : has_sign false sum;
  rs_valid : d_valid sum;
  rs_upper : j = 0 ∧ sum = S754_zero false ∨ 0 < j ∧ fle sum (Z.of_nat j) 0;
  rs_lower : all → 0 < j → fge sum (Z.of_nat j) 0;
}.

Lemma recall_sum_step (all : Prop) j sum x :
  (Z.of_nat (S j) < 2 ^ 53)%Z → recall_sum all j sum →
  has_sign false x → fle x 1 0 → d_valid x → (all → fge x 1 0) → recall_sum all (S j) (dadd sum x).
Proof.
  intros Hj [Hs Hv Hu Hl] Hxs Hx Hxv Hx1.
  assert (d_valid (dadd sum x)) by by apply SFadd_valid. assert (has_sign false (dadd sum x)) by by apply SFadd_sign.
  destruct Hu as [[-> ->]|[Hj0 Hu]].
  - assert (dadd (S754_zero false) x = x) as Hz. { destruct x as [[]| | |]; try done. }
    rewrite Hz in *. split; try done; [right; split; [lia|done]|auto].
  - split; try done.
    + right. split; [lia|]. replace (Z.of_nat (S j)) with (Z.of_nat j + 1)%Z by lia.
      apply SFadd_upper; try done; try lia; change (emin 53 1024) with (-1074)%Z; lia.
    + intros Hall _. replace (Z.of_nat (S j)) with (Z.of_nat j + 1)%Z by lia.
      apply SFadd_ge; [lia..|by vm_compute|by eapply fle_finite|by eapply fle_finite|auto|auto].
Qed.

(** The mean of at most one over [n] queries. *)
Lemma recall_mean (all : Prop) n sum :
  0 < n → (Z.of_nat n < 2 ^ 53)%Z → recall_sum all n sum →
  let x := ddiv sum (double_of_nat n) in
  has_sign false x ∧ ¬ flt d_one x ∧ (all → x = d_one).
Proof.
  intros Hn Hb [Hs Hv Hu Hl] x. destruct Hu as [[-> _]|[_ Hu]]; [lia|].
  destruct (double_of_nat_pos n Hn Hb) as (m & e & E & _ & H1 & H2). unfold x. rewrite E. clear x.
  destruct sum as [[]| | |[] ms es]; try done.
  { split_and!; [done|by intros []|]. intros Hall. by destruct (Hl Hall Hn). }
  cbn [fle fge] in *.
  set (x := ddiv _ _). assert (d_valid x) as Hxv by by apply SFdiv_valid.
  assert (fle x 1 0) as Hx1 by (apply SFdiv_le_one; [done|done|]; eapply le2_trans; [exact Hu|done]).
  assert (has_sign false x) as Hxs.
  { unfold x, ddiv; cbn [SFdiv]. destruct (div_core 53 1024 (Zpos ms) es (Zpos m) e) as (q & e' & l & -> & Hq & _); [lia..|].
    by apply binary_round_aux_sign. }
  split_and!; [done|by apply fle_one_not_above|]. intros Hall. apply one_unique; [done|done|].
  apply SFdiv_ge_one; [done|done|]. eapply le2_trans; [exact H1|]. by apply (Hl Hall).
Qed.

Lemma recall_sum_ok (all : Prop) truth got k n :
  0 < k → (Z.of_nat k < 2 ^ 53)%Z → (Z.of_nat (length truth) < 2 ^ 53)%Z → length truth ≤ length got →
  Forall (λ g, length g ≤ k) got → n ≤ length truth →
  (all → ∀ q t g, truth !! q = Some t → got !! q = Some g → count_hits t g = k) →
  ∃ sum, for_range 0 n (recall_round truth got k) (S754_zero false) = Ok sum ∧ recall_sum all n sum.
Proof.
  intros Hk Hkb Ht Hl Hg Hn Hall. apply (for_range_inv (recall_sum all)).
  - intros i sum Hi Hsum. destruct (at_lt got i) as (g & Hga & Hgi); [lia|].
    destruct (at_lt truth i) as (t & Hta & Hti); [lia|]. unfold recall_round. rewrite Hga, Hta. cbn [mbind result_bind].
    eexists. split; [done|]. assert (count_hits t g ≤ k) as Hc.
    { rewrite count_hits_le. by apply (Forall_lookup_1 _ _ _ _ Hg Hgi). }
    destruct (ddiv_nat (count_hits t g) k Hc Hk Hkb) as (H1 & H2 & H3 & H4).
    apply recall_sum_step; [lia|done..|]. intros Ha. apply H4. by apply (Hall Ha i).
  - split; [done|by vm_compute|by left|lia].
Qed.

Lemma recall_at_k_ok truth got k :
  0 < k → (Z.of_nat k < 2 ^ 53)%Z → (Z.of_nat (length truth) < 2 ^ 53)%Z → length truth ≤ length got →
  Forall (λ g, length g ≤ k) got →
  ∃ x, recall_at_k truth got k = Ok x ∧ has_sign false x ∧ ¬ flt d_one x ∧ (truth = [] → x = S754_zero false) ∧
    (truth ≠ [] → (∀ q t g, truth !! q = Some t → got !! q = Some g → count_hits t g = k) → x = d_one).
Proof.
  intros Hk Hkb Ht Hl Hg.
  set (all := ∀ q t g, truth !! q = Some t → got !! q = Some g → count_hits t g = k).
  destruct (recall_sum_ok all truth got k (length truth)) as (sum & Hs & Hsum); [done..|].
  unfold recall_at_k. rewrite Hs. cbn [mbind result_bind]. eexists. split; [done|].
  destruct (Nat.eqb_spec (length truth) 0) as [E|E].
  - apply nil_length_inv in E. split_and!; [done|by intros []|done|done].
  - destruct (recall_mean all (length truth) sum) as (H1 & H2 & H3); [lia|done|done|].
    split_and!; [done|done|by intros ->|auto].
Qed.

(** Recall is a share. For answers of at most [k] results, [recall_at_k] reads
    nothing out of range and is a number from zero to one whatever the rounding
    of its sums; it is exactly one when every answer has [k] results of the
    truth, and zero without queries. What it counts per query is the number of
    common ids, as the ids of an answer differ. *)
Lemma recall_range (truth : list (gset InternalId)) (got : list (list SearchResult)) (k : nat) :
  0 < k → (Z.of_nat k < 2 ^ 53)%Z → (Z.of_nat (length truth) < 2 ^ 53)%Z → length truth ≤ length got →
  Forall (λ g, length g ≤ k) got →
  (∃ x, recall_at_k truth got k = Ok x ∧ has_sign false x ∧ ¬ flt d_one x ∧ (truth = [] → x = S754_zero false) ∧
    (truth ≠ [] → (∀ q t g, truth !! q = Some t → got !! q = Some g → count_hits t g = k) → x = d_one)) ∧
  ∀ t g, NoDup (id <$> g) → count_hits t g = size (t ∩ list_to_set (id <$> g)).
Proof. intros Hk Hkb Ht Hl Hg. split; [by apply recall_at_k_ok|apply count_hits_size]. Qed.

(** Without a bound on the answers ([k = 0]) the quotients are not numbers. *)
Example recall_zero_k : recall_at_k [∅; ∅] [[]; []] 0 = Ok S754_nan.
Proof. vm_compute. reflexivity. Qed.

(** ** [percentile] *)

Section Percentile.
Context {SS : StdSort}.

Definition percentile (xs : list spec_float) (p : spec_float) : result spec_float :=
  match xs with
  | [] => Ok (S754_zero false)
  | _ =>
      let xs := std_sort flt xs in
      idx ← double_to_size (dmul p (double_of_nat (length xs - 1)));
      at_ xs idx
  end.
End Percentile.

Definition d_half : spec_float := Eval vm_compute in ddiv d_one (double_of_int 2).

#[export] Instance flt_swo : StrictWeakOrder flt not_nan.
Proof. split; [apply flt_irrefl|apply flt_trans|by intros; apply flt_cotrans]. Qed.

(** A product with a number from zero to one stays in the range of an index. *)
Lemma index_in_range p n :
  has_sign false p → fle p 1 0 → (Z.of_nat n < 2 ^ 53)%Z →
  ∃ i, double_to_size (dmul p (double_of_nat n)) = Ok i ∧ i ≤ n.
Proof.
  intros Hs Hp Hn. destruct (decide (n = 0)) as [->|Hn0].
  { exists 0. split; [|done]. by destruct p as [[]|[]| |[]]. }
  assert (fle (dmul p (double_of_nat n)) (1 * Z.of_nat n) (0 + 0)) as Hle.
  { apply SFmul_upper; [lia|lia|lia|lia|lia|by vm_compute|done|by apply double_of_nat_fle]. }
  assert (has_sign false (dmul p (double_of_nat n))) as Hsign.
  { pose proof (double_of_nat_sign n) as Hns. destruct p as [?|?| |? mp ep], (double_of_nat n) as [?|?| |? mn en];
      cbn in Hs, Hns; simplify_eq; try done. by apply binary_round_aux_sign. }
  destruct (dmul p (double_of_nat n)) as [s| | |s m e]; try done; [by exists 0; split; [|lia]|].
  cbn in Hsign. subst s. cbn [fle] in Hle. rewrite Z.mul_1_l, Z.add_0_r in Hle.
  assert (0 <= Z.shiftl (Zpos m) e <= Z.of_nat n)%Z as Hr.
  { split; [by apply Z.shiftl_nonneg|]. unfold le2 in Hle. destruct (Z.le_ge_cases 0 e).
    - rewrite Z.shiftl_mul_pow2 by done. rewrite (Z.max_r 0 (e - 0)), (Z.max_l 0 (0 - e)), Z.sub_0_r in Hle by lia. lia.
    - rewrite Z.shiftl_div_pow2 by done. rewrite (Z.max_l 0 (e - 0)), (Z.max_r 0 (0 - e)) in Hle by lia.
      replace (0 - e)%Z with (- e)%Z in Hle by lia. pose proof (pow2_pos (- e) ltac:(lia)).
      apply Z.div_le_upper_bound; lia. }
  unfold double_to_size. rewrite Z.mul_1_l, decide_True by lia. eexists. split; [done|lia].
Qed.

(** Half of a natural, and all of it, are exact. *)
Lemma scale_nat n j :
  0 < n → (Z.of_nat n < 2 ^ 53)%Z → (j = 0 ∨ j = 1)%Z →
  double_to_size (dmul (S754_finite false 4503599627370496 (- 52 - j)) (double_of_nat n)) =
  Ok (Z.to_nat (Z.of_nat n / 2 ^ j)).
Proof.
  intros Hn0 Hn Hj. unfold double_of_nat, double_of_int. destruct (Z.of_nat n) as [|p|] eqn:E; [lia| |lia].
  cbn [binary_normalize]. destruct (binary_round_int false p Hn) as (m & -> & Hm).
  pose proof (digits2_pos_bounds p) as Hp. set (d := Zpos (digits2_pos p)) in *.
  assert (1 <= d <= 53)%Z as Hd.
  { assert (2 ^ (d - 1) < 2 ^ 53)%Z as Hlt%Z.pow_lt_mono_r_iff by lia; unfold d in *; lia. }
  pose proof (pow2_pos (53 - d) ltac:(lia)).
  assert (Zdigits2 (Zpos m) = 53)%Z as Hdm.
  { rewrite Hm. rewrite digits_shift by lia. cbn [Zdigits2]. fold d. lia. }
  assert (Zpos (4503599627370496 * m) = Zpos m * 2 ^ 52)%Z as Hprod by lia.
  assert (Zdigits2 (Zpos (4503599627370496 * m)) = 105)%Z as Hd2 by (rewrite Hprod, digits_shift, Hdm by lia; lia).
  unfold dmul; cbn [SFmul xorb].
  assert (excess 53 1024 (Zpos (4503599627370496 * m)) (- 52 - j + (d - 53)) = 52)%Z as Hex.
  { unfold excess. rewrite Hd2, fexp_eq. change (emin 53 1024) with (-1074)%Z. lia. }
  rewrite (binary_round_aux_trunc 53 1024 false m); rewrite ?Hex; [|lia|done|done|change (emin 53 1024) with (-1074)%Z; lia].
  unfold double_to_size. rewrite Z.mul_1_l.
  assert (Z.shiftl (Zpos m) (- 52 - j + (d - 53) + 52) = Zpos p / 2 ^ j)%Z as ->.
  { rewrite Z.shiftl_div_pow2 by lia. replace (- (- 52 - j + (d - 53) + 52))%Z with (j + (53 - d))%Z by lia.
    rewrite Hm, pow2_add by lia. pose proof (pow2_pos j ltac:(lia)). by rewrite Z.div_mul_cancel_r by lia. }
  rewrite decide_True; [done|]. destruct Hj as [-> | ->].
  - rewrite Z.pow_0_r, Z.div_1_r. lia.
  - change (2 ^ 1)%Z with 2%Z. pose proof (Z.div_le_upper_bound (Zpos p) 2 (Zpos p)). pose proof (Z.div_pos (Zpos p) 2). lia.
Qed.

(** The element at a position of a sorted list, by counting. *)
Lemma sorted_rank {A} (lt : A → A → bool) l i x :
  (∀ y, ¬ lt y y) → sorted_by lt l → l !! i = Some x →
  length (filter (λ y, lt y x) l) ≤ i < length (filter (λ y, ¬ lt x y) l).
Proof.
  intros Hirr Hs Hi. pose proof (lookup_lt_Some _ _ _ Hi) as Hlt.
  pose proof (take_drop_middle l i x Hi) as E. assert (length (take i l) = i) as Ha by (apply length_take_le; lia).
  set (a := take i l) in *. set (b := drop (S i) l) in *. clearbody a b. subst l. clear Hi Hlt.
  apply StronglySorted_app in Hs as (Hab & _ & Hb). apply StronglySorted_inv in Hb as [_ Hb].
  rewrite Forall_forall in Hb. rewrite !filter_app, !length_app.
  assert (filter (λ y, lt y x) (x :: b) = []) as ->.
  { apply filter_none. intros y [->|Hy]%elem_of_cons; [apply Hirr|by apply Hb]. }
  assert (filter (λ y, ¬ lt x y) a = a) as ->.
  { apply filter_full. intros y Hy. apply Hab; [done|by left]. }
  rewrite (filter_cons_True (λ y, ¬ lt x y)) by apply Hirr.
  pose proof (length_filter (λ y, lt y x) a). cbn. lia.
Qed.

(** [x] is the [p]-th part of the list: the [i]-th smallest element, where [i] is
    [p] times the last index, rounded as the code does. For [p] one half this is
    the median, for [p] one the maximum. *)
Record order_statistic (xs : list spec_float) (p x : spec_float) (i : nat) : Prop := {
  os_elem : x ∈ xs;
  os_index : double_to_size (dmul p (double_of_nat (length xs - 1))) = Ok i;
  os_range : i ≤ length xs - 1;
  os_below : length (filter (λ y, flt y x) xs) ≤ i;
  os_above : i < length (filter (λ y, ¬ flt x y) xs);
  os_half : p = d_half → i = (length xs - 1) / 2;
  os_one : p = d_one → i = length xs - 1;
}.

Section PercentileSpec.
Context {SS : StdSort} {SL : StdSortLaws}.

Lemma percentile_ok xs p :
  xs ≠ [] → Forall not_nan xs → (Z.of_nat (length xs) < 2 ^ 53)%Z → has_sign false p → fle p 1 0 →
  ∃ i x, double_to_size (dmul p (double_of_nat (length xs - 1))) = Ok i ∧ i ≤ length xs - 1 ∧
    std_sort flt xs !! i = Some x ∧ percentile xs p = Ok x.
Proof.
  intros Hne Hnn Hl Hs Hp. destruct (index_in_range p (length xs - 1)) as (i & Hi & Hle); [done|done|lia|].
  pose proof (std_sort_perm flt not_nan xs Hnn) as Hperm. pose proof (Permutation_length Hperm) as Hlen.
  destruct (lookup_lt_is_Some_2 (std_sort flt xs) i) as [x Hx]; [destruct xs; [done|cbn in *; lia]|].
  exists i, x. split_and!; [done..|]. destruct xs as [|x0 xs']; [done|]. unfold percentile.
  rewrite Hlen, Hi. cbn [mbind result_bind]. by apply at_Ok.
Qed.

(** For [p] from zero to one the index stays in range, and [percentile] is an
    order statistic. *)
Lemma percentile_rank (xs : list spec_float) (p : spec_float) :
  xs ≠ [] → Forall not_nan xs → (Z.of_nat (length xs) < 2 ^ 53)%Z → has_sign false p → fle p 1 0 →
  ∃ i x, percentile xs p = Ok x ∧ order_statistic xs p x i.
Proof.
  intros Hne Hnn Hl Hs Hp. destruct (percentile_ok xs p) as (i & x & Hi & Hle & Hx & Hpc); [done..|].
  pose proof (std_sort_perm flt not_nan xs Hnn) as Hperm. pose proof (std_sort_sorted flt not_nan xs Hnn) as Hsort.
  exists i, x. split; [done|].
  pose proof (sorted_rank flt _ i x flt_irrefl Hsort Hx) as [H1 H2]. rewrite Hperm in H1, H2.
  split; [rewrite <- Hperm; by eapply list_elem_of_lookup_2|done..| |].
  - intros ->. destruct (decide (length xs - 1 = 0)) as [E|E]; [rewrite E in *; by destruct i; [|lia]|].
    pose proof (scale_nat (length xs - 1) 1 ltac:(lia) ltac:(lia) ltac:(lia)) as H. change (2 ^ 1)%Z with 2%Z in H.
    change (S754_finite false 4503599627370496 (- 52 - 1)) with d_half in H. rewrite Hi in H. injection H as ->.
    rewrite <- (Nat2Z.id ((length xs - 1) / 2)), Nat2Z.inj_div. done.
  - intros ->. destruct (decide (length xs - 1 = 0)) as [E|E]; [lia|].
    pose proof (scale_nat (length xs - 1) 0 ltac:(lia) ltac:(lia) ltac:(lia)) as H.
    change (S754_finite false 4503599627370496 (- 52 - 0)) with d_one in H. rewrite Hi in H. injection H as ->.
    by rewrite Z.pow_0_r, Z.div_1_r, Nat2Z.id.
Qed.
End PercentileSpec.
