(* ===== verification/Recovery.v ===== *)
(** * Recovery

    What [Engine::recover] rebuilds from a snapshot and a log: the abstract
    database that the recorded operations lead to. *)
From Stdlib Require Import Strings.Byte.
From S2P Require Import Prelude StdQueue Binary Distance Metadata Bitset VectorStore StoreSpec Replay Index.
From S2P Require Import Bytes OpCodec LogStore BlobStore Engine EngineSpec.
Local Open Scope nat_scope.
Import Engine.

Section Recovery.
Context {Ix : Type} {IO : IndexOps Ix} {buildable : list word32 → Prop} {IL : IndexLaws Ix buildable}.
Context {MO : MapOrder}.
(** The external ids in use. *)
Context (U : gset string) (HU : (N.of_nat (size U) < 2 ^ 32)%N).
Implicit Types (e : Engine.t Ix) (dim : Dim).

(** An operation as the engine records it, that can be replayed: its lengths fit their
    fields, its record fits a frame, its vector has the store's length. *)
Record good_op dim (op : Op) : Prop := {
  good_form : call_op op = op;
  good_id : op_ext_id op ∈ U;
  good_sized : op_sized op;
  good_record : LogStore.rec_sized (encode_op op);
  good_vec : op_type op ≠ Delete → length (op_vec op) = N.to_nat dim ∧ buildable (op_vec op);
}.

Lemma spec_wire_op dim op d : spec_apply dim (wire_op op) d = spec_apply dim op d.
Proof. by destruct op as [[] x v m]. Qed.

Lemma wire_op_ok dim op : (0 < dim)%N → good_op dim op → op_ok buildable dim (wire_op op).
Proof.
  intros Hd [_ _ Hs _ Hv]. destruct op as [[] x v m]; split; cbn in *; try done; try apply Hs; naive_solver.
Qed.

(** A recorded operation does not throw. *)
Lemma good_spec_ok dim op d : good_op dim op → ∃ b, (spec_apply dim op d).1 = Ok b.
Proof.
  intros [_ _ _ _ Hv]. unfold spec_apply. destruct (op_type op).
  - rewrite bool_decide_true by by apply Hv. eauto.
  - rewrite bool_decide_true by by apply Hv. destruct (d !! op_ext_id op) as [[]|]; eauto.
  - destruct (d !! op_ext_id op); eauto.
Qed.

(** ** Replaying records *)

Record replayed e e' (ops : list Op) : Prop := {
  rep_inv : engine_inv e';
  rep_disk : same_disk e e';
  rep_ids : ids_in U (store_ e');
  rep_contents : contents e' = spec_run (cfg_dim e) ops (contents e);
}.

Lemma replay_record_ok e op :
  engine_inv e → ids_in U (store_ e) → good_op (cfg_dim e) op →
  ∃ e', replay_record (encode_op op) e = (Ok tt, e') ∧ replayed e e' [op].
Proof.
  intros Hinv Hids Hop. pose proof (ids_in_room U _ HU (inv_store e Hinv) Hids) as Hroom. unfold replay_record, mbind, M_bind, lift.
  rewrite <- (app_nil_r (encode_op op)), decode_encode by apply Hop.
  assert ((0 < cfg_dim e)%N) as Hpos
    by (rewrite <- (inv_dim e Hinv); apply (VectorStore.wf_dim _ (inv_store e Hinv))).
  destruct (apply_op_spec e (wire_op op) Hinv (wire_op_ok _ _ Hpos Hop) Hroom)
    as (r & e' & -> & Hinv' & Hdisk & Hs & Hc & Ha).
  rewrite spec_wire_op in Hc, Ha. destruct (good_spec_ok _ _ (contents e) Hop) as [b Hb].
  rewrite Hb in Ha. destruct Ha as (i & -> & _). exists e'. split; [done|].
  split; try done. apply Hs; [|done]. destruct op as [[] x v m]; apply Hop.
Qed.

Lemma replay_records_ok e ops :
  engine_inv e → ids_in U (store_ e) → Forall (good_op (cfg_dim e)) ops →
  ∃ e', for_each replay_record (encode_op <$> ops) e = (Ok tt, e') ∧ replayed e e' ops.
Proof.
  revert e. induction ops as [|op ops IH]; intros e Hinv Hids Hops.
  { exists e. split; [done|]. by split. }
  apply Forall_cons in Hops as [Hop Hops].
  destruct (replay_record_ok e op Hinv Hids Hop) as (e1 & H1 & [Hinv1 [Hd1 Hw1 Hb1] Hs1 Hc1]).
  destruct (IH e1 Hinv1 Hs1) as (e2 & H2 & [Hinv2 [Hd2 Hw2 Hb2] Hs2 Hc2]); [by rewrite Hd1|].
  exists e2. cbn [fmap list_fmap for_each]. unfold mbind, M_bind. rewrite H1. split; [done|].
  split; [done|split; congruence|done|]. rewrite Hc2, Hc1, Hd1. done.
Qed.

(** ** Snapshots *)

Definition blob_of (ops : list Op) : list byte := concat ((λ op, blob_record (encode_op op)) <$> ops).

Lemma length_blob_record rec : length (blob_record rec) = 4 + length rec.
Proof. unfold blob_record. by rewrite length_app, length_uint_bytes. Qed.

Lemma length_blob_of ops : length ops ≤ length (blob_of ops).
Proof.
  induction ops as [|op ops IH]; [done|]. unfold blob_of in *. cbn [fmap list_fmap concat length].
  rewrite length_app, length_blob_record. lia.
Qed.

Lemma replay_blob_records fuel ops e :
  Forall (λ op, LogStore.rec_sized (encode_op op)) ops → length ops < fuel →
  replay_blob fuel (blob_of ops) e = for_each replay_record (encode_op <$> ops) e.
Proof.
  intros Hops. revert fuel e. induction Hops as [|op ops Hop Hops IH]; intros [|fuel] e Hf;
    try (cbn in Hf; lia); [done|].
  change (blob_of (op :: ops)) with (blob_record (encode_op op) ++ blob_of ops).
  cbn [replay_blob fmap list_fmap for_each]. unfold blob_record. rewrite to_u32_small, <- app_assoc by done.
  destruct (Nat.ltb_spec (length (uint_bytes 4 (N.of_nat (length (encode_op op))) ++ encode_op op ++ blob_of ops)) 4)
    as [Hl|_]; [rewrite length_app, length_uint_bytes in Hl; lia|].
  rewrite take_app_length', drop_app_length', uint_of_bytes by (done || by rewrite length_uint_bytes).
  destruct (N.ltb_spec (N.of_nat (length (encode_op op ++ blob_of ops))) (N.of_nat (length (encode_op op))))
    as [Hl|_]; [rewrite length_app in Hl; lia|].
  rewrite Nat2N.id, take_app_length, drop_app_length. unfold replay_record at 2, mbind, M_bind, lift.
  destruct (decode_op (encode_op op)) as [op'|]; [|done].
  destruct (apply_op op' false e) as [[i|x] e1]; [|done]. apply IH. cbn in Hf. lia.
Qed.

(** ** The disk *)

(** The snapshot store can be read; it holds a snapshot of these operations, or
    none. *)
Definition blob_holds (b : BlobStore.t) (snap : list Op) : Prop :=
  BlobStore.gets b = BlobStore.GetOk ∧
  match BlobStore.files b !! kSnapshotKey with
  | Some data => data = blob_of snap
  | None => snap = []
  end.

(** What [recover] does with the snapshot store. *)
Definition load_snapshot (b : BlobStore.t) : M (Engine.t Ix) () :=
  found ← lift (BlobStore.exists_ b kSnapshotKey);
  if (found : bool) then
    data ← lift (BlobStore.get b kSnapshotKey); replay_blob (length data + 1) data
  else mret tt.

(** A log file records these operations; its tail is torn or empty. *)
Definition log_holds (f : list byte) (ops : list Op) : Prop :=
  ∃ tail, f = LogStore.frames (encode_op <$> ops) ++ tail ∧ LogStore.stops tail.

Lemma good_records dim ops :
  Forall (good_op dim) ops → Forall LogStore.rec_sized (encode_op <$> ops).
Proof. intros H. apply Forall_fmap. eapply Forall_impl; [done|]. by intros op []. Qed.

Lemma replay_snapshot_ok e b snap :
  engine_inv e → ids_in U (store_ e) → Forall (good_op (cfg_dim e)) snap → blob_holds b snap →
  ∃ e', load_snapshot b e = (Ok tt, e') ∧ replayed e e' snap.
Proof.
  intros Hinv Hids Hsnap [Hg Hb]. unfold load_snapshot, BlobStore.exists_, BlobStore.get, mbind at 1, M_bind at 1, lift at 1.
  rewrite Hg. destruct (BlobStore.files b !! kSnapshotKey) as [data|].
  - subst data. rewrite bool_decide_true by done. unfold mbind, M_bind, lift.
    rewrite replay_blob_records; [by apply replay_records_ok| |pose proof (length_blob_of snap); lia].
    eapply Forall_impl; [done|]. by intros op [].
  - subst snap. rewrite bool_decide_false by by intros []. exists e. split; [done|].
    by split.
Qed.

Lemma recover_eq e e1 w b :
  blobs_ e = Some b → wal_ e1 = Some w →
  load_snapshot b e = (Ok tt, e1) →
  recover e = LogStore.replay replay_record w e1.
Proof.
  intros Hb Hw H. unfold recover. unfold mbind at 1, M_bind at 1, read_state at 1. rewrite Hb.
  unfold mbind at 1, M_bind at 1. fold (load_snapshot b). rewrite H. unfold mbind, M_bind, read_state. by rewrite Hw.
Qed.

(** The engine that a directory is opened to. *)
Record opened dim (w : LogStore.t) (b : BlobStore.t) (ops : list Op) e : Prop := {
  op_inv : engine_inv e;
  op_dim : cfg_dim e = dim;
  op_wal : wal_ e = Some w;
  op_blobs : blobs_ e = Some b;
  op_ids : ids_in U (store_ e);
  op_contents : contents e = spec_run dim ops ∅;
}.

(** The constructor replays the records of the log over the snapshot. *)
Lemma open_eq dim w b snap records tail :
  (0 < dim < 2 ^ 32)%N → Forall (good_op dim) snap → blob_holds b snap →
  LogStore.file w = LogStore.frames records ++ tail → Forall LogStore.rec_sized records →
  LogStore.stops tail → LogStore.readable w →
  ∃ e, opened dim w b snap e ∧
    open_engine dim (Some (w, b)) = let '(r, e') := for_each replay_record records e in _ ← r; Ok e'.
Proof.
  intros Hdim Hsnap Hb Hf Hrec Htail Hrs. unfold open_engine.
  destruct (VectorStore.make dim) as [s|] eqn:Hmk.
  2:{ unfold VectorStore.make in Hmk. destruct (N.eqb_spec dim 0); [lia|done]. }
  destruct (make_spec dim s ltac:(lia) Hmk) as (Hwf & Habs & Hd & Hsc). cbn [mbind result_bind].
  set (e0 := {| cfg_dim := dim; store_ := s; index_ := ix_make; wal_ := Some w; blobs_ := Some b |}).
  assert (engine_inv e0) as Hinv0.
  { split; [done|done|by apply vecs_ok_empty|by apply ix_make_inv]. }
  assert (ids_in U (store_ e0)) as Hids0.
  { intros x [i Hi]. apply (VectorStore.wf_slot s x i Hwf) in Hi. lia. }
  destruct (replay_snapshot_ok e0 b snap) as (e1 & H1 & [Hinv1 [Hd1 Hw1 Hb1] Hs1 Hc1]); try done.
  exists e1. split.
  - split; try done. rewrite Hc1. unfold contents; cbn. by rewrite Habs.
  - change (fst <$> Some (w, b)) with (Some w). change (snd <$> Some (w, b)) with (Some b). fold e0.
    rewrite (recover_eq e0 e1 w b); [|done|by rewrite Hw1|done].
    by rewrite (LogStore.replay_spec replay_record records tail).
Qed.

Lemma recover_ok dim w b snap ops :
  (0 < dim < 2 ^ 32)%N → Forall (good_op dim) snap → Forall (good_op dim) ops →
  blob_holds b snap → log_holds (LogStore.file w) ops → LogStore.readable w →
  ∃ e, open_engine dim (Some (w, b)) = Ok e ∧ opened dim w b (snap ++ ops) e.
Proof.
  intros Hdim Hsnap Hops Hb (tail & Hf & Htail) Hrs.
  destruct (open_eq dim w b snap (encode_op <$> ops) tail) as (e1 & [Hinv1 Hd1 Hw1 Hb1 Hs1 Hc1] & ->);
    try done; [by eapply good_records|].
  destruct (replay_records_ok e1 ops) as (e2 & -> & [Hinv2 [Hd2 Hw2 Hb2] Hs2 Hc2]); [done|done|by rewrite Hd1|].
  exists e2. split; [done|]. split; try done; try congruence.
  by rewrite Hc2, Hc1, spec_run_app, Hd1.
Qed.
End Recovery.
Arguments good_op buildable {MO} U dim op.
Arguments opened {Ix IO buildable IL} U dim w b ops e : rename.
