(* ===== verification/Durability.v ===== *)
(** * Durability

    The invariant that ties the disk of a durable engine to its contents, that
    every call, snapshot and compaction preserves it, and that recovery after a
    crash at any moment restores the contents. *)
From Stdlib Require Import Strings.Byte.
From S2P Require Import Prelude StdQueue Binary Distance Metadata Bitset VectorStore StoreSpec Replay Index.
From S2P Require Import Bytes OpCodec LogStore BlobStore Engine EngineSpec EngineSearch Recovery.
Local Open Scope nat_scope.
Import Engine.

Section Durability.
Context {Ix : Type} {IO : IndexOps Ix} {buildable : list word32 → Prop} {IL : IndexLaws Ix buildable}.
Context {MO : MapOrder} (U : gset string) (HU : (N.of_nat (size U) < 2 ^ 32)%N).
Implicit Types (e : Engine.t Ix) (dim : Dim).

#[local] Abbreviation good_op := (good_op buildable U).

(** ** Entries that can be recorded *)

(** The insertion of an entry. *)
Definition entry_op (y : string * (list word32 * Metadata)) : Op :=
  {| op_type := Insert; op_ext_id := y.1; op_vec := y.2.1; op_meta := Some y.2.2 |}.

Definition db_good dim (d : db) : Prop := map_Forall (λ x y, good_op dim (entry_op (x, y))) d.

(** The length of a record does not depend on the type or the components. *)
Lemma length_encode (ty ty' : OpType) x v v' m :
  length v = length v' → ty ≠ Delete → ty' ≠ Delete →
  length (encode_op {| op_type := ty; op_ext_id := x; op_vec := v; op_meta := m |}) =
  length (encode_op {| op_type := ty'; op_ext_id := x; op_vec := v'; op_meta := m |}).
Proof.
  intros Hv Ht Ht'. rewrite !encode_op_bytes. unfold op_bytes, vec_bytes; cbn [op_type op_ext_id op_vec op_meta].
  destruct ty, ty'; try done; rewrite !length_app, !length_floats_bytes, !length_uint_bytes; by rewrite Hv.
Qed.

(** The entry that a vector and metadata of known good operations make. *)
Lemma good_entry dim ty x v v' m m' :
  ty ≠ Delete → length v = length v' →
  good_op dim {| op_type := ty; op_ext_id := x; op_vec := v; op_meta := m' |} →
  good_op dim {| op_type := Insert; op_ext_id := x; op_vec := v'; op_meta := Some m |} →
  good_op dim (entry_op (x, (v, m))).
Proof.
  intros Hty Hl [_ Hi [He Hs _] _ Hv] [_ _ [_ _ Hm] Hr _]. split.
  - done.
  - done.
  - by split.
  - unfold LogStore.rec_sized, entry_op, fst, snd. by rewrite (length_encode Insert Insert x v v').
  - intros _. by apply Hv.
Qed.

Lemma good_insert dim ty x v m :
  ty ≠ Delete →
  good_op dim {| op_type := ty; op_ext_id := x; op_vec := v; op_meta := Some m |} →
  good_op dim {| op_type := Insert; op_ext_id := x; op_vec := v; op_meta := Some m |}.
Proof.
  intros Hty [_ Hi [He Hs Hm] Hr Hv]. split; [done|done|by split| |by intros _; apply Hv].
  unfold LogStore.rec_sized. by rewrite (length_encode Insert ty x v v).
Qed.

(** A good operation leaves good entries. *)
Lemma spec_good dim op d :
  good_op dim (call_op op) → db_good dim d → db_good dim (spec_apply dim op d).2.
Proof.
  intros Hop Hd. destruct op as [[] x v m]; unfold spec_apply; cbn [op_type op_ext_id op_vec op_meta];
    unfold call_op in Hop; cbn [op_type op_ext_id op_vec op_meta] in Hop.
  - destruct (good_vec _ _ _ Hop) as [Hl _]; [done|]. cbn in Hl. rewrite bool_decide_true by done.
    by apply map_Forall_insert_2.
  - destruct (good_vec _ _ _ Hop) as [Hl _]; [done|]. cbn in Hl.
    destruct (d !! x) as [[v0 m0]|] eqn:Hx; [|done]. rewrite bool_decide_true by done.
    apply map_Forall_insert_2; [|done]. destruct m as [m|]; [by apply (good_insert dim Update x v m)|].
    pose proof (Hd x _ Hx) as H0. apply (good_entry dim Update x v v0 m0 None); [done| |done|exact H0].
    destruct (good_vec _ _ _ H0) as [Hl0 _]; [done|]. cbn in Hl0. congruence.
  - destruct (d !! x); [|done]. by apply map_Forall_delete.
Qed.

(** ** Snapshots *)

Definition live_ops (s : VectorStore.t) : list Op := entry_op <$> live_entries s.

Lemma snapshot_blob_ok s : VectorStore.wf s → snapshot_blob s = Ok (blob_of (live_ops s)).
Proof.
  intros Hwf. unfold snapshot_blob. set (n := VectorStore.slot_count s).
  destruct (for_range_inv (λ k out, out = blob_of (entry_op <$> omap (live_entry s) (seq 0 k)))
    0 n (snapshot_slot s) []) as (out & -> & ->); [|done|done].
  intros k out Hk ->. unfold snapshot_slot, slot_op.
  destruct (slot_entry s (N.of_nat k) Hwf) as (x & v & m & -> & -> & -> & _ & _ & Hle); [unfold n in Hk; lia|].
  rewrite Nat2N.id in Hle. rewrite seq_S, omap_app, fmap_app. cbn [Nat.add omap list_omap].
  rewrite Hle. destruct (VectorStore.is_live s (N.of_nat k)); cbn [negb].
  - cbn [mbind result_bind]. eexists. split; [done|]. unfold blob_of.
    by rewrite fmap_app, concat_app; cbn; rewrite app_nil_r.
  - eexists. split; [done|]. by rewrite app_nil_r.
Qed.

Lemma spec_run_entries dim l d :
  Forall (λ y : string * (list word32 * Metadata), length y.2.1 = N.to_nat dim) l →
  spec_run dim (entry_op <$> l) d = foldl (λ d y, <[y.1 := y.2]> d) d l.
Proof.
  intros Hl. revert d. induction Hl as [|[x [v m]] l Hv Hl IH]; intros d; [done|].
  unfold spec_run in *. cbn [fmap list_fmap foldl]. rewrite <- IH. f_equal.
  unfold spec_apply; cbn. cbn in Hv. by rewrite bool_decide_true.
Qed.

Lemma live_entries_good dim s :
  VectorStore.wf s → db_good dim (VectorStore.abs s) → Forall (good_op dim) (live_ops s).
Proof.
  intros Hwf Hg. apply Forall_fmap, Forall_forall. intros [x y] Hin. apply (Hg x y). by apply live_entries_abs.
Qed.

(** Replaying a snapshot rebuilds the contents. *)
Lemma spec_run_live dim s :
  VectorStore.wf s → db_good dim (VectorStore.abs s) → spec_run dim (live_ops s) ∅ = VectorStore.abs s.
Proof.
  intros Hwf Hg. unfold live_ops. rewrite spec_run_entries.
  - etrans; [apply foldl_insert_map; by apply live_entries_NoDup|by apply live_entries_map].
  - apply Forall_forall. intros [x y] Hin. apply live_entries_abs in Hin; [|done].
    by destruct (Hg x y Hin) as [_ _ _ _ Hv]; apply Hv.
Qed.

(** ** The invariant *)

(** A log image of which recovery makes the contents of [e]. *)
Definition recovers (snap : list Op) e (img : list byte) : Prop :=
  ∃ ops, img = LogStore.frames (encode_op <$> ops) ∧ Forall (good_op (cfg_dim e)) ops ∧
    spec_run (cfg_dim e) (snap ++ ops) ∅ = contents e.

(** A durable engine with [SyncPolicy::Always] and its disk. *)
Record durable_with e (w : LogStore.t) (b : BlobStore.t) (snap : list Op) : Prop := {
  dur_inv : engine_inv e;
  dur_dim : (cfg_dim e < 2 ^ 32)%N;
  dur_good : db_good (cfg_dim e) (contents e);
  dur_ids : ids_in U (store_ e);
  dur_wal : wal_ e = Some w;
  dur_blobs : blobs_ e = Some b;
  dur_healthy : LogStore.healthy w;
  dur_puts : BlobStore.healthy b;
  dur_policy : LogStore.policy_ w = Always;
  dur_snap : Forall (good_op (cfg_dim e)) snap;
  dur_blob : blob_holds b snap;
  dur_file : recovers snap e (LogStore.file w);
  dur_crash img : LogStore.crash_image w img → recovers snap e img;
}.

Definition durable e : Prop := ∃ w b snap, durable_with e w b snap.

(** Close a goal that is a field of the invariant [D]. *)
Ltac field D :=
  first [exact (dur_inv _ _ _ _ D) | exact (dur_dim _ _ _ _ D) | exact (dur_good _ _ _ _ D)
        | exact (dur_ids _ _ _ _ D) | exact (dur_wal _ _ _ _ D) | exact (dur_blobs _ _ _ _ D)
        | exact (dur_healthy _ _ _ _ D) | exact (dur_puts _ _ _ _ D) | exact (dur_policy _ _ _ _ D)
        | exact (dur_snap _ _ _ _ D) | exact (dur_blob _ _ _ _ D) | exact (dur_file _ _ _ _ D)].

(** ** Calls *)

Lemma appended_crash op w w' img :
  wal_appended op w w' → LogStore.policy_ w = Always → LogStore.crash_image w' img → img = LogStore.file w'.
Proof.
  intros [_ _ _ Hs _] Hp (f & n & Hin & k & Hk & ->). destruct (Hs Hp) as [Hsy Hst]. rewrite Hst in Hin.
  apply list_elem_of_singleton in Hin. injection Hin as -> ->. rewrite take_ge; [done|lia].
Qed.

Lemma unlogged_spec dim op d : ¬ is_logged op d → (spec_apply dim op d).2 = d.
Proof.
  intros Hl. unfold spec_apply, is_logged in *. destruct (op_type op); [naive_solver| |];
    destruct (d !! op_ext_id op) eqn:E; naive_solver.
Qed.

Lemma call_op_id op : op_ext_id (call_op op) = op_ext_id op.
Proof. by destruct op as [[] x v m]. Qed.

Lemma good_call_ok dim op : good_op dim (call_op op) → (0 < dim)%N → vec_sized (op_vec op) → op_ok buildable dim op.
Proof.
  intros [_ _ _ _ Hv] Hd Hs. split; [done|]. destruct op as [[] x v m]; cbn in *; naive_solver.
Qed.

Lemma recovers_step snap e e' op img :
  recovers snap e img → cfg_dim e' = cfg_dim e → good_op (cfg_dim e) op →
  contents e' = (spec_apply (cfg_dim e) op (contents e)).2 →
  recovers snap e' (img ++ LogStore.frame (encode_op op)).
Proof.
  intros (ops & -> & Hg & Hr) Hd Hop Hc. exists (ops ++ [op]). rewrite Hd. split_and!.
  - rewrite fmap_app. change (encode_op <$> [op]) with [encode_op op]. by rewrite LogStore.frames_snoc.
  - apply Forall_app. auto.
  - by rewrite app_assoc, spec_run_app, Hr, Hc.
Qed.

Lemma durable_call e op :
  durable e → good_op (cfg_dim e) (call_op op) → vec_sized (op_vec op) →
  ∃ r e', client op e = (r, e') ∧ (r, contents e') = spec_apply (cfg_dim e) op (contents e) ∧
    cfg_dim e' = cfg_dim e ∧ durable e'.
Proof.
  intros (w & b & snap & D) Hop Hsz. pose proof (dur_inv _ _ _ _ D) as Hinv.
  assert ((0 < cfg_dim e)%N) as Hpos
    by (rewrite <- (inv_dim e Hinv); apply (VectorStore.wf_dim _ (inv_store e Hinv))).
  destruct (client_spec e op Hinv (good_call_ok _ _ Hop Hpos Hsz)) as (r & e' & Hcl & Hsp & Hcall).
  { eapply ids_in_room; [exact HU|apply Hinv|apply D]. }
  { intros w' Hw'. rewrite (dur_wal _ _ _ _ D) in Hw'. injection Hw' as <-. split; [apply D|apply Hop]. }
  exists r, e'. split_and!; [done|done|apply Hcall|].
  assert (contents e' = (spec_apply (cfg_dim e) op (contents e)).2) as Hc by by rewrite <- Hsp.
  destruct Hcall as [Hinv' Hd' Hb' Hids Hw'].
  assert (db_good (cfg_dim e') (contents e')) as Hgood.
  { rewrite Hd', Hc. apply spec_good; [done|apply D]. }
  assert (ids_in U (store_ e')) as Hids'.
  { apply Hids; [rewrite <- call_op_id; apply Hop|apply D]. }
  case_decide as Hl.
  - unfold logged in Hw'. rewrite (dur_wal _ _ _ _ D) in Hw'.
    destruct (wal_ e') as [w'|] eqn:Ew; [|done].
    assert (recovers snap e' (LogStore.file w')) as Hfile.
    { rewrite (app_file _ _ _ Hw'). eapply recovers_step; [apply D|done|done|].
      by rewrite Hc, spec_call_op. }
    exists w', b, snap. split; try done; rewrite ?Hd', ?Hb'; try field D.
    + apply Hw'. + rewrite (app_policy _ _ _ Hw'). apply D.
    + intros img Himg. rewrite (appended_crash _ _ _ _ Hw' (dur_policy _ _ _ _ D) Himg). done.
  - rewrite (unlogged_spec _ _ _ Hl) in Hc. rewrite (dur_wal _ _ _ _ D) in Hw'.
    assert (∀ img, recovers snap e img → recovers snap e' img) as Hrec.
    { intros img (ops & -> & Hg & Hr). exists ops. by rewrite Hd', Hc. }
    exists w, b, snap. split; try done; rewrite ?Hd', ?Hb'; try field D.
    + apply Hrec, D. + intros img Himg. by apply Hrec, D.
Qed.

(** ** Flush and snapshot *)

Lemma durable_flush e : durable e → ∃ e', flush e = (Ok tt, e') ∧ contents e' = contents e ∧ durable e'.
Proof.
  intros (w & b & snap & D). unfold flush, on_wal, zoom, on_ptr. rewrite (dur_wal _ _ _ _ D).
  destruct (LogStore.sync_ok w (dur_healthy _ _ _ _ D)) as (w' & -> & Hh & Hf & Hp & Hs).
  rewrite (dur_policy _ _ _ _ D), decide_False in Hs by done. destruct Hs as [Hsy Hst].
  eexists. split; [done|]. split; [done|]. exists w', b, snap.
  split; try field D; try done; rewrite ?Hf, ?Hp; try field D.
  - apply set_wal_inv, D.
  - intros img (f & n & Hin & k & Hk & ->). rewrite Hst in Hin.
    apply list_elem_of_singleton in Hin. injection Hin as -> ->.
    rewrite take_ge by (rewrite Hsy, <- Hf in Hk; lia). rewrite Hf. apply D.
Qed.

(** The engine after a snapshot. *)
Definition snapshotted e (w : LogStore.t) (b : BlobStore.t) : Engine.t Ix :=
  set_wal (Some (LogStore.truncated w))
    (set_blobs (Some (BlobStore.with_files
       (BlobStore.publish kSnapshotKey (blob_of (live_ops (store_ e))) (BlobStore.files b)) b)) e).

Lemma snapshot_eq e w b snap : durable_with e w b snap → snapshot e = (Ok tt, snapshotted e w b).
Proof.
  intros D. unfold snapshot. unfold mbind at 1, M_bind at 1, read_state at 1.
  rewrite (dur_blobs _ _ _ _ D). unfold mbind at 1, M_bind at 1, lift at 1.
  rewrite snapshot_blob_ok by apply (inv_store e (dur_inv _ _ _ _ D)).
  unfold mbind at 1, M_bind at 1, on_blobs, zoom, on_ptr at 1. rewrite (dur_blobs _ _ _ _ D).
  destruct (BlobStore.put_ok kSnapshotKey (blob_of (live_ops (store_ e))) b (dur_puts _ _ _ _ D)) as [-> _].
  unfold on_wal, zoom, on_ptr. cbn [wal_ set_blobs]. rewrite (dur_wal _ _ _ _ D).
  by destruct (LogStore.truncate_ok w (dur_healthy _ _ _ _ D)) as [-> _].
Qed.

(** An old log over a new snapshot changes nothing. *)
Lemma recovers_new_snapshot e w b snap img :
  durable_with e w b snap → recovers snap e img → recovers (live_ops (store_ e)) e img.
Proof.
  intros D (ops & -> & Hg & Hr). exists ops. split_and!; [done|done|].
  rewrite spec_run_app, spec_run_live by apply D || apply (inv_store e (dur_inv _ _ _ _ D)).
  fold (contents e). rewrite <- Hr. rewrite spec_run_app at 1. by rewrite spec_run_app, spec_run_idemp.
Qed.

Lemma recovers_nil e w b snap : durable_with e w b snap → recovers (live_ops (store_ e)) e [].
Proof.
  intros D. exists []. split_and!; [done|constructor|]. rewrite app_nil_r.
  apply spec_run_live; [apply (inv_store e (dur_inv _ _ _ _ D))|apply D].
Qed.

Lemma durable_snapshot e :
  durable e → ∃ e', snapshot e = (Ok tt, e') ∧ store_ e' = store_ e ∧ durable e'.
Proof.
  intros (w & b & snap & D). rewrite (snapshot_eq e w b snap D). eexists. split; [done|]. split; [done|].
  pose proof (inv_store e (dur_inv _ _ _ _ D)) as Hwf.
  eexists _, _, (live_ops (store_ e)). split; try done; try field D.
  - by destruct (dur_inv _ _ _ _ D).
  - apply LogStore.truncate_ok, D.
  - apply (BlobStore.put_ok kSnapshotKey (blob_of (live_ops (store_ e))) b), D.
  - apply live_entries_good; [done|apply D].
  - split; [exact (proj1 (dur_blob _ _ _ _ D))|]. cbn [BlobStore.files BlobStore.with_files]. by rewrite BlobStore.publish_lookup.
  - exact (recovers_nil e w b snap D).
  - intros img Himg. assert (recovers (live_ops (store_ e)) e img) as H; [|exact H].
    destruct Himg as (f & n & Hin & k & Hk & ->). cbn in Hin. apply elem_of_cons in Hin as [[= -> ->]|Hin].
    + rewrite take_nil. by eapply recovers_nil.
    + apply (recovers_new_snapshot e w b snap); [done|]. apply (dur_crash _ _ _ _ D). exists f, n. eauto.
Qed.

(** ** Compaction *)

Definition le_of (y : string * (list word32 * Metadata)) : LiveEntry :=
  {| le_ext_id := y.1; le_vec := y.2.1; le_meta := y.2.2 |}.

Lemma collect_ok s :
  VectorStore.wf s →
  for_range 0 (VectorStore.slot_count s) (collect_slot s) [] = Ok (le_of <$> live_entries s).
Proof.
  intros Hwf. set (n := VectorStore.slot_count s).
  destruct (for_range_inv (λ k l, l = le_of <$> omap (live_entry s) (seq 0 k))
    0 n (collect_slot s) []) as (l & -> & ->); [|done|done].
  intros k l Hk ->. unfold collect_slot.
  destruct (slot_entry s (N.of_nat k) Hwf) as (x & v & m & -> & -> & -> & _ & _ & Hle); [unfold n in Hk; lia|].
  rewrite Nat2N.id in Hle. rewrite seq_S, omap_app, fmap_app. cbn [Nat.add omap list_omap].
  rewrite Hle. destruct (VectorStore.is_live s (N.of_nat k)); cbn [negb].
  - by eexists.
  - eexists. split; [done|]. by rewrite app_nil_r.
Qed.

(** An entry that can be inserted again. *)
Record insertable dim (y : string * (list word32 * Metadata)) : Prop := {
  ins_in : y.1 ∈ U;
  ins_len : length y.2.1 = N.to_nat dim;
  ins_build : buildable y.2.1;
}.

Lemma live_insertable e :
  engine_inv e → ids_in U (store_ e) → Forall (insertable (cfg_dim e)) (live_entries (store_ e)).
Proof.
  intros [Hwf Hd Hv _] Hids. apply Forall_forall. intros [x [v m]] Hin.
  apply live_entries_abs in Hin; [|done]. rewrite VectorStore.abs_lookup in Hin.
  destruct (VectorStore.ext_to_int_ (store_ e) !! x) as [i|] eqn:Hi; [|done].
  pose proof (VectorStore.wf_slot _ _ _ Hwf Hi) as Hsl.
  destruct (read_slot _ _ _ Hwf Hi) as (v' & m' & Hg & Hl & _ & _ & _ & Habs).
  rewrite VectorStore.abs_lookup, Hi in Habs. cbn in Hin, Habs. rewrite Hin in Habs.
  destruct (VectorStore.is_live (store_ e) i); [|done]. injection Habs as -> ->.
  split; cbn; [apply Hids; eauto|by rewrite <- Hd|by eapply Hv].
Qed.

Lemma reinsert_ok e y :
  engine_inv e → ids_in U (store_ e) → insertable (cfg_dim e) y →
  VectorStore.ext_to_int_ (store_ e) !! y.1 = None →
  ∃ e', reinsert (le_of y) e = (Ok tt, e') ∧ engine_inv e' ∧ same_disk e e' ∧ ids_in U (store_ e') ∧
    contents e' = <[y.1 := y.2]> (contents e) ∧
    VectorStore.slot_count (store_ e') = VectorStore.slot_count (store_ e) + 1 ∧
    ∀ x, is_Some (VectorStore.ext_to_int_ (store_ e') !! x) →
      x = y.1 ∨ is_Some (VectorStore.ext_to_int_ (store_ e) !! x).
Proof.
  destruct y as [x [v m]]. intros Hinv Hids [HxU Hl Hb] Hx. cbn in *.
  pose proof Hinv as [Hwf Hd Hv _]. rewrite <- Hd in Hl.
  assert (vec_sized v) as Hsz.
  { unfold vec_sized. rewrite Hl, N2Nat.id. apply Hwf. }
  destruct (do_insert_new (store_ e) x v m Hwf Hsz (ids_in_room U _ HU Hwf Hids) Hx Hl) as (s & Hins & Hi).
  assert (VectorStore.insert x v m (store_ e) = (Ok (N.of_nat (VectorStore.slot_count (store_ e))), s)) as Happ.
  { unfold VectorStore.insert, VectorStore.apply, mbind, M_bind; cbn. by rewrite Hins. }
  pose proof (vecs_ok_inserted _ _ _ _ _ _ _ Hb Hv Hi) as Hv'.
  destruct (index_add_ok e s _ x v m Hinv Hi) as (ix & Hadd & Hix).
  { eapply inserted_was_dead; [done|done|]. unfold VectorStore.resolve. by rewrite Hx. }
  { done. }
  exists (set_index ix (set_store s e)). split.
  { unfold reinsert, mbind, M_bind; cbn [le_of le_ext_id le_vec le_meta fst snd]. rewrite (on_store_eq _ _ _ _ Happ). done. }
  destruct Hi as [Hwf' Habs Hg _ _ Hnew _ Hids' _]. split_and!; try done.
  - split; [done|cbn; by rewrite (grows_dim _ _ Hg)|done|done].
  - intros z Hz. destruct (Hids' z Hz) as [-> |]; auto.
  - by destruct (Hnew Hx).
Qed.

Lemma reinsert_all e l :
  engine_inv e → ids_in U (store_ e) → NoDup l.*1 → Forall (insertable (cfg_dim e)) l →
  (∀ y, y ∈ l → VectorStore.ext_to_int_ (store_ e) !! y.1 = None) →
  ∃ e', for_each reinsert (le_of <$> l) e = (Ok tt, e') ∧ engine_inv e' ∧ same_disk e e' ∧ ids_in U (store_ e') ∧
    contents e' = foldl (λ d y, <[y.1 := y.2]> d) (contents e) l ∧
    VectorStore.slot_count (store_ e') = VectorStore.slot_count (store_ e) + length l.
Proof.
  revert e. induction l as [|y l IH]; intros e Hinv Hids Hnd Hins Hfresh.
  { exists e. cbn. rewrite Nat.add_0_r. by split_and!. }
  apply Forall_cons in Hins as [Hy Hins]. cbn in Hnd. apply NoDup_cons in Hnd as [Hyl Hnd].
  destruct (reinsert_ok e y Hinv Hids Hy) as (e1 & H1 & Hinv1 & [Hd1 Hw1 Hb1] & Hids1 & Hc1 & Hs1 & Hk1).
  { apply Hfresh. set_solver. }
  destruct (IH e1 Hinv1 Hids1 Hnd) as (e2 & H2 & Hinv2 & [Hd2 Hw2 Hb2] & Hids2 & Hc2 & Hs2).
  { by rewrite Hd1. }
  { intros z Hz. destruct (VectorStore.ext_to_int_ (store_ e1) !! z.1) eqn:Ez; [|done].
    destruct (Hk1 z.1) as [E|[i Hi]]; [eauto| |].
    - destruct Hyl. rewrite <- E. apply list_elem_of_fmap. eauto.
    - by rewrite Hfresh in Hi by set_solver. }
  exists e2. cbn [fmap list_fmap for_each]. unfold mbind, M_bind. rewrite H1.
  split_and!; try done; [split; congruence|by rewrite Hc2, Hc1|cbn [length]; lia].
Qed.

(** The engine before the snapshot at the end of [compact]. *)
Lemma compact_rebuild e :
  engine_inv e → ids_in U (store_ e) → (cfg_dim e < 2 ^ 32)%N →
  ∃ e', compact e = (match blobs_ e with Some _ => snapshot | None => mret tt end) e' ∧
    engine_inv e' ∧ same_disk e e' ∧ ids_in U (store_ e') ∧ contents e' = contents e ∧
    VectorStore.slot_count (store_ e') = size (contents e).
Proof.
  intros Hinv Hids Hdim. pose proof Hinv as [Hwf Hd _ _].
  pose proof (live_insertable e Hinv Hids) as Hl.
  pose proof (live_entries_NoDup _ Hwf) as Hnd.
  unfold compact. unfold mbind at 1, M_bind at 1, read_state at 1.
  unfold mbind at 1, M_bind at 1, lift at 1. rewrite collect_ok by done.
  unfold mbind at 1, M_bind at 1, lift at 1.
  destruct (VectorStore.make (cfg_dim e)) as [s|] eqn:Hmk.
  2:{ unfold VectorStore.make in Hmk. pose proof (VectorStore.wf_dim _ Hwf). rewrite Hd in *.
      destruct (N.eqb_spec (cfg_dim e) 0); [lia|done]. }
  destruct (make_spec _ s Hdim Hmk) as (Hwf' & Habs & Hd' & Hsc).
  unfold mbind at 1, M_bind at 1, write_state at 1.
  assert (∀ x, VectorStore.ext_to_int_ s !! x = None) as Hnone.
  { intros x. destruct (VectorStore.ext_to_int_ s !! x) as [i|] eqn:Hi; [|done].
    apply (VectorStore.wf_slot s x i Hwf') in Hi. lia. }
  destruct (reinsert_all (set_index ix_make (set_store s e)) (live_entries (store_ e)))
    as (e' & H & Hinv' & [Hd2 Hw2 Hb2] & Hids' & Hc & Hs); try done.
  { split; [done|done|by apply vecs_ok_empty|by apply ix_make_inv]. }
  { intros x [i Hi]. cbn in Hi. by rewrite Hnone in Hi. }
  exists e'. unfold mbind at 1, M_bind at 1. rewrite H. unfold mbind, M_bind, read_state. rewrite Hb2.
  split_and!; try done.
  - rewrite Hc. unfold contents at 1; cbn. rewrite Habs, foldl_insert_map by done.
    by apply live_entries_map.
  - rewrite Hs. cbn. rewrite Hsc. unfold contents. rewrite <- size_abs by done.
    unfold VectorStore.size. by rewrite length_live_entries, (VectorStore.wf_count _ Hwf).
Qed.

Lemma durable_compact e :
  durable e → ∃ e', compact e = (Ok tt, e') ∧ contents e' = contents e ∧
    VectorStore.slot_count (store_ e') = size (contents e) ∧ durable e'.
Proof.
  intros (w & b & snap & D).
  destruct (compact_rebuild e) as (e1 & -> & Hinv & [Hd Hw Hb] & Hids & Hc & Hs); try field D.
  assert (durable e1) as D1.
  { assert (∀ img, recovers snap e img → recovers snap e1 img) as Hrec.
    { intros img (ops & -> & Hg & Hr). exists ops. by rewrite Hd, Hc. }
    exists w, b, snap. split; try done; rewrite ?Hd, ?Hc, ?Hw, ?Hb; try field D.
    - apply Hrec, D.
    - intros img Himg. by apply Hrec, D. }
  rewrite (dur_blobs _ _ _ _ D). destruct (durable_snapshot e1 D1) as (e2 & -> & Hs2 & D2).
  exists e2. unfold contents. rewrite Hs2. by split_and!.
Qed.

(** C20: compaction of an in-memory engine succeeds, keeps the contents and the
    consistency of store and index, and reclaims every tombstone: afterwards
    there are as many slots as entries. *)
Theorem compact_correct (e : Engine.t Ix) :
  engine_inv e → ids_in U (store_ e) → (cfg_dim e < 2 ^ 32)%N → blobs_ e = None →
  ∃ e', compact e = (Ok tt, e') ∧ engine_inv e' ∧ contents e' = contents e ∧
    VectorStore.slot_count (store_ e') = VectorStore.size (store_ e') ∧
    VectorStore.size (store_ e') = size (contents e).
Proof.
  intros Hinv Hids Hdim Hb.
  destruct (compact_rebuild e Hinv Hids Hdim) as (e' & -> & Hinv' & _ & _ & Hc & Hs). rewrite Hb.
  exists e'. split_and!; [done|done|done| |].
  - rewrite Hs, size_abs by apply Hinv'. fold (contents e'). by rewrite Hc.
  - rewrite size_abs by apply Hinv'. fold (contents e'). by rewrite Hc.
Qed.
End Durability.
