(* ===== verification/Crash.v ===== *)
(** * Crashes and reopening

    The theorems on a durable engine: what its calls do to the disk, and what a
    process that opens the directory again finds after a crash inside or
    between them. *)
From Stdlib Require Import Strings.Byte.
From S2P Require Import Prelude StdQueue Binary Distance Metadata Bitset VectorStore StoreSpec Replay Index FlatIndex.
From S2P Require Import Bytes OpCodec LogStore BlobStore Engine EngineSpec EngineSearch Recovery Durability.
Local Open Scope nat_scope.
Import Engine.

Section Crash.
Context {Ix : Type} {IO : IndexOps Ix} {buildable : list word32 → Prop} {IL : IndexLaws Ix buildable}.
Context {MO : MapOrder} (U : gset string) (HU : (N.of_nat (size U) < 2 ^ 32)%N).
Implicit Types (e : Engine.t Ix) (dim : Dim).

#[local] Abbreviation good_op := (good_op buildable U).
#[local] Abbreviation durable := (Durability.durable (buildable := buildable) U).
#[local] Abbreviation recovers := (recovers (buildable := buildable)).
#[local] Abbreviation durable_with := (durable_with (buildable := buildable) U).

Lemma spec_run_good dim ops d :
  Forall (good_op dim) ops → db_good (buildable := buildable) U dim d →
  db_good (buildable := buildable) U dim (spec_run dim ops d).
Proof.
  intros Hops. revert d. induction Hops as [|op ops Hop Hops IH]; intros d Hd; [done|].
  apply IH. apply spec_good; [|done]. by rewrite (good_form _ _ _ Hop).
Qed.

(** An opened directory is a durable engine. *)
Lemma opened_durable dim w b snap ops e :
  (dim < 2 ^ 32)%N → opened (buildable := buildable) U dim w b (snap ++ ops) e →
  Forall (good_op dim) snap → Forall (good_op dim) ops → blob_holds b snap →
  LogStore.file w = LogStore.frames (encode_op <$> ops) →
  LogStore.healthy w → BlobStore.healthy b → LogStore.policy_ w = Always →
  LogStore.synced w = length (LogStore.file w) → LogStore.stale w = [] →
  durable e.
Proof.
  intros Hdim [Hinv Hd Hw Hb Hids Hc] Hsnap Hops Hbl Hf Hh Hp Hpol Hsy Hst. subst dim.
  assert (recovers U snap e (LogStore.file w)) as Hrec by by exists ops.
  exists w, b, snap. split; try done.
  - rewrite Hc. apply spec_run_good; [by apply Forall_app|apply map_Forall_empty].
  - intros img (f & n & Hin & k & Hk & ->). rewrite Hst in Hin.
    apply list_elem_of_singleton in Hin. injection Hin as -> ->. rewrite take_ge; [done|lia].
Qed.

Lemma log_holds_exact ops : log_holds (LogStore.frames (encode_op <$> ops)) ops.
Proof. exists []. rewrite app_nil_r. split; [done|apply LogStore.stops_nil]. Qed.

(** A new directory. *)
Lemma durable_fresh dim w b :
  (0 < dim < 2 ^ 32)%N → LogStore.file w = [] → LogStore.healthy w → LogStore.policy_ w = Always →
  LogStore.synced w = 0 → LogStore.stale w = [] →
  BlobStore.files b !! kSnapshotKey = None → BlobStore.healthy b →
  ∃ e, open_engine dim (Some (w, b)) = Ok e ∧ durable e ∧ contents e = ∅ ∧ cfg_dim e = dim.
Proof.
  intros Hdim Hf Hh Hpol Hsy Hst Hb Hp.
  assert (blob_holds b []) as Hbl by (split; [apply Hp|by rewrite Hb]).
  destruct (recover_ok U HU dim w b [] []) as (e & Ho & Hop); try done.
  { rewrite Hf. apply (log_holds_exact []). } { apply Hh. }
  exists e. split; [done|]. split; [|split; apply Hop].
  apply (opened_durable dim w b [] []); try done; [lia|by rewrite Hsy, Hf].
Qed.

Lemma durable_dim_pos e w b snap : durable_with e w b snap → (0 < cfg_dim e < 2 ^ 32)%N.
Proof.
  intros D. split; [|apply D]. rewrite <- (inv_dim e (dur_inv _ _ _ _ _ D)).
  apply (VectorStore.wf_dim _ (inv_store e (dur_inv _ _ _ _ _ D))).
Qed.

(** Reopening a log whose tail may be torn. *)
Lemma reopen_contents e w b snap snap' ops f w' b' :
  durable_with e w b snap → Forall (good_op (cfg_dim e)) snap' → Forall (good_op (cfg_dim e)) ops →
  blob_holds b' snap' → LogStore.file w' = f → log_holds f ops → LogStore.readable w' →
  ∃ e', open_engine (cfg_dim e) (Some (w', b')) = Ok e' ∧
    opened (buildable := buildable) U (cfg_dim e) w' b' (snap' ++ ops) e'.
Proof.
  intros D Hs Ho Hb Hf Hl Hr. subst f. apply recover_ok; try done. by eapply durable_dim_pos.
Qed.

(** ** Properties *)

(** C6: the calls of a durable engine. Insert, update and erase answer and act as
    on the abstract database; flush, snapshot and compact succeed and leave the
    contents alone; each keeps the invariant that the disk recovers to the
    contents. *)
Theorem durable_engine_calls (e : Engine.t Ix) :
  durable e →
  (∀ op, good_op (cfg_dim e) (call_op op) → vec_sized (op_vec op) →
    ∃ r e', client op e = (r, e') ∧ (r, contents e') = spec_apply (cfg_dim e) op (contents e) ∧ durable e') ∧
  (∃ e', flush e = (Ok tt, e') ∧ contents e' = contents e ∧ durable e') ∧
  (∃ e', snapshot e = (Ok tt, e') ∧ contents e' = contents e ∧ durable e') ∧
  (∃ e', compact e = (Ok tt, e') ∧ contents e' = contents e ∧
     VectorStore.slot_count (store_ e') = size (contents e) ∧ durable e').
Proof.
  intros D. split_and!.
  - intros op Hop Hsz. destruct (durable_call U HU e op D Hop Hsz) as (r & e' & ? & ? & _ & ?). eauto.
  - by apply durable_flush.
  - destruct (durable_snapshot U HU e D) as (e' & ? & Hs & ?). exists e'. unfold contents. rewrite Hs. eauto.
  - by apply durable_compact.
Qed.

(** C1: durability under [SyncPolicy::Always]. After a crash or power loss at any
    moment between calls, whatever the disk kept of the log, opening the
    directory succeeds and gives the same contents, again durable. *)
Theorem durable_crash_recovers (e : Engine.t Ix) (w : LogStore.t) (b : BlobStore.t) (img : list Byte.byte)
    (ws : list LogStore.write_outcome) (ss : list bool) (rs : list LogStore.read_outcome)
    (ps : list BlobStore.put_outcome) (g : BlobStore.get_outcome) :
  durable e → wal_ e = Some w → blobs_ e = Some b → LogStore.crash_image w img →
  let w' := LogStore.reopen img ws ss rs Always in
  let b' := {| BlobStore.files := BlobStore.files b; BlobStore.puts := ps; BlobStore.gets := g |} in
  LogStore.healthy w' → BlobStore.healthy b' →
  ∃ e', open_engine (cfg_dim e) (Some (w', b')) = Ok e' ∧ contents e' = contents e ∧ durable e'.
Proof.
  intros (w0 & b0 & snap & D) Hw Hb Himg w' b' Hh Hp.
  rewrite (dur_wal _ _ _ _ _ D) in Hw. rewrite (dur_blobs _ _ _ _ _ D) in Hb. simplify_eq.
  destruct (dur_crash _ _ _ _ _ D img Himg) as (ops & -> & Hg & Hr).
  assert (blob_holds b' snap) as Hbl by (split; [apply Hp|apply (dur_blob _ _ _ _ _ D)]).
  destruct (reopen_contents e w b snap snap ops (LogStore.file w') w' b' D) as (e' & Ho & Hop); try done; try apply D.
  { apply log_holds_exact. } { apply Hh. }
  exists e'. split; [done|]. split; [by rewrite (op_contents _ _ _ _ _ _ Hop)|].
  apply (opened_durable (cfg_dim e) w' b' snap ops); try done; apply D.
Qed.

(** C8: a call is atomic. If the process dies while [apply_op] writes the record
    of a call, at any byte, opening the directory gives the contents before the
    call or those after it. *)
Theorem crash_in_call_atomic (e : Engine.t Ix) (w : LogStore.t) (b : BlobStore.t) (op : Op) (k : nat)
    (ws : list LogStore.write_outcome) (ss : list bool) (rs : list LogStore.read_outcome) (p : SyncPolicy) :
  durable e → wal_ e = Some w → blobs_ e = Some b → good_op (cfg_dim e) (call_op op) → LogStore.reads_ok rs →
  let torn := LogStore.file w ++ take k (LogStore.frame (encode_op (call_op op))) in
  ∃ e', open_engine (cfg_dim e) (Some (LogStore.reopen torn ws ss rs p, b)) = Ok e' ∧
    (contents e' = contents e ∨ contents e' = (spec_apply (cfg_dim e) op (contents e)).2).
Proof.
  intros (w0 & b0 & snap & D) Hw Hb Hop Hrs torn.
  rewrite (dur_wal _ _ _ _ _ D) in Hw. rewrite (dur_blobs _ _ _ _ _ D) in Hb. simplify_eq.
  destruct (dur_file _ _ _ _ _ D) as (ops & Hf & Hg & Hr).
  assert (∃ kept, log_holds torn (ops ++ kept) ∧ (kept = [] ∨ kept = [call_op op])) as (kept & Hl & Hk).
  { unfold torn. rewrite Hf. destruct (decide (k < length (LogStore.frame (encode_op (call_op op))))).
    - exists []. rewrite app_nil_r. split; [|by left]. eexists. split; [done|].
      by apply LogStore.torn_frame_stops; [apply Hop|].
    - exists [call_op op]. split; [|by right]. rewrite take_ge by lia.
      rewrite <- LogStore.frames_snoc. change [encode_op (call_op op)] with (encode_op <$> [call_op op]).
      rewrite <- fmap_app. apply log_holds_exact. }
  destruct (reopen_contents e w b snap snap (ops ++ kept) torn (LogStore.reopen torn ws ss rs p) b D)
    as (e' & Ho & Hopd); try done; try apply D.
  { apply Forall_app. split; [done|]. destruct Hk as [-> | ->]; [constructor|by apply Forall_singleton]. }
  exists e'. split; [done|]. rewrite (op_contents _ _ _ _ _ _ Hopd), app_assoc, spec_run_app, Hr.
  destruct Hk as [-> | ->]; [by left|right]. cbn. by rewrite spec_call_op.
Qed.

(** C7: a snapshot is atomic. If the process dies anywhere inside [snapshot]
    before the log is truncated (the blob not written, partly written, or
    published while the log still holds the operations it covers), opening the
    directory gives the contents. *)
Theorem crash_in_snapshot_safe (e : Engine.t Ix) (w : LogStore.t) (b : BlobStore.t) (data img : list Byte.byte)
    (fs : gmap string (list Byte.byte)) (ws : list LogStore.write_outcome) (ss : list bool)
    (rs : list LogStore.read_outcome) (ps : list BlobStore.put_outcome) (p : SyncPolicy) :
  durable e → wal_ e = Some w → blobs_ e = Some b → snapshot_blob (store_ e) = Ok data →
  BlobStore.put_interrupted kSnapshotKey data (BlobStore.files b) fs →
  LogStore.crash_image w img → LogStore.reads_ok rs →
  ∃ e', open_engine (cfg_dim e)
      (Some (LogStore.reopen img ws ss rs p, {| BlobStore.files := fs; BlobStore.puts := ps; BlobStore.gets := BlobStore.GetOk |})) = Ok e' ∧
    contents e' = contents e.
Proof.
  intros (w0 & b0 & snap & D) Hw Hb Hdata Hput Himg Hrs.
  rewrite (dur_wal _ _ _ _ _ D) in Hw. rewrite (dur_blobs _ _ _ _ _ D) in Hb. simplify_eq.
  pose proof (inv_store e (dur_inv _ _ _ _ _ D)) as Hwf.
  rewrite (snapshot_blob_ok U) in Hdata by done. injection Hdata as <-.
  pose proof (dur_crash _ _ _ _ _ D img Himg) as Hrec.
  set (b' := {| BlobStore.files := fs; BlobStore.puts := ps; BlobStore.gets := BlobStore.GetOk |}).
  assert (∃ snap', Forall (good_op (cfg_dim e)) snap' ∧ blob_holds b' snap' ∧ recovers U snap' e img)
    as (snap' & Hsnap & Hbl & ops & -> & Hg & Hr).
  { unfold blob_holds; cbn. pose proof (dur_blob _ _ _ _ _ D) as [_ Hold]. destruct (BlobStore.interrupted_lookup _ _ _ _ Hput) as [-> | ->].
    - exists snap. split_and!; [apply D|done|exact Hold|done].
    - exists (live_ops (store_ e)). split_and!; [|done|done|by eapply recovers_new_snapshot].
      apply live_entries_good; [done|apply D]. }
  destruct (reopen_contents e w b snap snap' ops (LogStore.frames (encode_op <$> ops)) (LogStore.reopen (LogStore.frames (encode_op <$> ops)) ws ss rs p) b' D)
    as (e' & Ho & Hopd); try done; [apply log_holds_exact|].
  exists e'. split; [done|]. by rewrite (op_contents _ _ _ _ _ _ Hopd).
Qed.

(** Weaker policies lose a suffix and nothing else. With any policy, if the
    first [m] of the logged operations are on the disk, opening the directory
    after a power loss gives the contents that a prefix of at least [m]
    operations leads to. *)
Theorem crash_loses_suffix (dim : Dim) (w : LogStore.t) (b : BlobStore.t) (snap ops : list Op) (m : nat)
    (img : list Byte.byte) (ws : list LogStore.write_outcome) (ss : list bool)
    (rs : list LogStore.read_outcome) (p : SyncPolicy) :
  (0 < dim < 2 ^ 32)%N → Forall (good_op dim) snap → Forall (good_op dim) ops → blob_holds b snap →
  LogStore.file w = LogStore.frames (encode_op <$> ops) → LogStore.stale w = [] → m ≤ length ops →
  length (LogStore.frames (encode_op <$> take m ops)) ≤ LogStore.synced w →
  LogStore.crash_image w img → LogStore.reads_ok rs →
  ∃ j e, m ≤ j ≤ length ops ∧
    open_engine dim (Some (LogStore.reopen img ws ss rs p, b)) = Ok e ∧
    engine_inv e ∧ contents e = spec_run dim (snap ++ take j ops) ∅.
Proof.
  intros Hdim Hs Ho Hb Hf Hst Hm Hsy Himg Hrs.
  destruct (LogStore.crash_frames w (encode_op <$> ops) m img) as (j & tail & Hj & -> & Hstop); try done.
  { by eapply good_records. } { by rewrite length_fmap. } { by rewrite <- fmap_take. }
  rewrite length_fmap in Hj. rewrite <- fmap_take.
  destruct (recover_ok U HU dim (LogStore.reopen (LogStore.frames (encode_op <$> take j ops) ++ tail) ws ss rs p)
    b snap (take j ops)) as (e & Hop & [Hinv _ _ _ _ Hc]); try done.
  { by apply Forall_take. } { by exists tail. }
  by exists j, e.
Qed.

(** Replaying the record of an insertion of the wrong length. *)
Lemma replay_wrong_length e op :
  engine_inv e → op_sized op → op_type op = Insert → length (op_vec op) ≠ N.to_nat (cfg_dim e) →
  ids_in U (store_ e) → ∃ e', replay_record (encode_op op) e = (Throw dim_error, e').
Proof.
  intros Hinv Hs Hty Hl Hids. unfold replay_record, mbind, M_bind, lift.
  rewrite <- (app_nil_r (encode_op op)), decode_encode by done.
  assert (wire_op op = op) as -> by (unfold wire_op; by rewrite Hty).
  destruct (apply_op_spec e op Hinv) as (r & e' & -> & _ & _ & _ & _ & Ha).
  { split; [apply Hs|done]. } { apply (ids_in_room U); [exact HU|apply Hinv|done]. }
  unfold spec_apply in Ha. rewrite Hty, bool_decide_false in Ha by done. cbn in Ha. subst r. by exists e'.
Qed.

(** C39: a rejected insertion poisons a durable database. The engine logs an
    insertion before the store looks at the length of the vector: a call with
    a vector of the wrong length throws and changes nothing, but every later
    attempt to open the directory throws the same exception. *)
Theorem wrong_length_poisons_log (e : Engine.t Ix) (w : LogStore.t) (b : BlobStore.t) (op : Op) :
  durable e → wal_ e = Some w → blobs_ e = Some b → op_type op = Insert →
  op_sized (call_op op) → LogStore.rec_sized (encode_op (call_op op)) →
  length (op_vec op) ≠ N.to_nat (cfg_dim e) →
  ∃ e' w', client op e = (Throw dim_error, e') ∧ contents e' = contents e ∧ wal_ e' = Some w' ∧
    blobs_ e' = Some b ∧
    ∀ ws ss rs p, LogStore.reads_ok rs →
      open_engine (Ix := Ix) (cfg_dim e) (Some (LogStore.reopen (LogStore.file w') ws ss rs p, b)) = Throw dim_error.
Proof.
  intros (w0 & b0 & snap & D) Hw Hb Hty Hs Hr Hl.
  rewrite (dur_wal _ _ _ _ _ D) in Hw. rewrite (dur_blobs _ _ _ _ _ D) in Hb. simplify_eq.
  pose proof (dur_inv _ _ _ _ _ D) as Hinv.
  destruct (client_spec e op Hinv) as (r & e' & Hcl & Hsp & [Hinv' Hd' Hb' _ Hw']).
  { split; [|done]. destruct op as [[] x v m]; try done. apply Hs. }
  { eapply ids_in_room; [exact HU|apply Hinv|apply D]. }
  { intros w' Hw'. rewrite (dur_wal _ _ _ _ _ D) in Hw'. injection Hw' as <-. split; [apply D|done]. }
  rewrite decide_True in Hw' by by left. unfold logged in Hw'. rewrite (dur_wal _ _ _ _ _ D) in Hw'.
  destruct (wal_ e') as [w'|] eqn:Ew; [|done].
  unfold spec_apply in Hsp. rewrite Hty, bool_decide_false in Hsp by done. injection Hsp as -> Hc.
  exists e', w'. split_and!; [done|done|done|by rewrite Hb', (dur_blobs _ _ _ _ _ D)|].
  intros ws ss rs p Hrs. destruct (dur_file _ _ _ _ _ D) as (ops & Hf & Hg & Hrun).
  destruct (open_eq U HU (cfg_dim e) (LogStore.reopen (LogStore.file w') ws ss rs p) b snap
    ((encode_op <$> ops) ++ [encode_op (call_op op)]) []) as (e1 & [Hinv1 Hd1 _ _ Hids1 _] & ->); try done.
  { by eapply durable_dim_pos. } { apply D. } { apply D. }
  { cbn. by rewrite (app_file _ _ _ Hw'), Hf, app_nil_r, LogStore.frames_snoc. }
  { apply Forall_app. split; [by eapply good_records|by apply Forall_singleton]. }
  { apply LogStore.stops_nil. }
  destruct (replay_records_ok U HU e1 ops) as (e2 & Hrep & [Hinv2 [Hd2 _ _] Hids2 _]); [done|done|by rewrite Hd1|].
  rewrite for_each_app. unfold mbind at 1, M_bind at 1. rewrite Hrep. cbn [for_each].
  destruct (replay_wrong_length e2 (call_op op)) as [e3 He3]; try done.
  { by destruct op as [[] x v m]. }
  { rewrite Hd2, Hd1. by destruct op as [[] x v m]. }
  unfold mbind at 1, M_bind at 1. by rewrite He3.
Qed.
End Crash.
