(* ===== verification/Failures.v ===== *)
(** * Directories and logs that do not open

    The constructor throws before it reads anything when its directory, its
    snapshots or its log do not open. [FileLogStore::truncate] closes its
    descriptor before it opens the file again; when that fails inside a snapshot
    the log has none: the engine then rejects changes, loses nothing, and the
    next snapshot makes it whole. *)
From Stdlib Require Import Strings.Byte.
From S2P Require Import Prelude StdQueue Binary Distance Metadata Bitset VectorStore StoreSpec Replay Index.
From S2P Require Import Bytes OpCodec LogStore BlobStore Engine EngineSpec EngineSearch Recovery Durability Crash.
Local Open Scope nat_scope.
Import Engine.

Section Failures.
Context {Ix : Type} {IO : IndexOps Ix} {buildable : list word32 → Prop} {IL : IndexLaws Ix buildable}.
Context {MO : MapOrder} (U : gset string) (HU : (N.of_nat (size U) < 2 ^ 32)%N).
Implicit Types (e : Engine.t Ix) (w : LogStore.t) (b : BlobStore.t).

#[local] Abbreviation good_op := (good_op buildable U).
#[local] Abbreviation durable := (Durability.durable (buildable := buildable) U).
#[local] Abbreviation durable_with := (durable_with (buildable := buildable) U).

(** ** The constructor *)

(** When directory, snapshots and log open, the constructor is [open_engine]; when
    one does not, it throws and has read nothing. *)
Lemma construct_cases dim (p : Persistence) :
  (0 < dim)%N →
  if dir_created p && blobs_created p && log_opened p then
    construct (Ix := Ix) dim (Some p) = open_engine dim (Some (log_found p, blobs_found p))
  else ∃ what, construct (Ix := Ix) dim (Some p) = Throw (system_error what).
Proof.
  intros Hdim. unfold construct. assert (∃ s, VectorStore.make dim = Ok s) as [s ->].
  { unfold VectorStore.make. destruct (N.eqb_spec dim 0); [lia|by eexists]. }
  cbn [mbind result_bind]. unfold open_dir, BlobStore.make, LogStore.make.
  destruct (dir_created p), (blobs_created p), (log_opened p); cbn [negb andb mbind result_bind]; try done; by eexists.
Qed.

(** ** A call that cannot log *)

Lemma on_wal_throw (m : M LogStore.t ()) e w x :
  wal_ e = Some w → m w = (Throw x, w) → on_wal m e = (Throw x, e).
Proof.
  intros Hw Hm. unfold on_wal, zoom, on_ptr. rewrite Hw, Hm. destruct e; cbn in *. by rewrite Hw.
Qed.

Lemma apply_op_closed e w op :
  wal_ e = Some w → LogStore.fd_ w = false → LogStore.rec_sized (encode_op op) →
  apply_op op true e = (Throw LogStore.write_failed, e).
Proof.
  intros Hw Hfd Hr. unfold apply_op. unfold mbind at 1, M_bind at 1.
  by rewrite (on_wal_throw _ e w LogStore.write_failed Hw) by by apply LogStore.append_closed.
Qed.

Lemma client_closed e w op :
  engine_inv e → wal_ e = Some w → LogStore.fd_ w = false → LogStore.rec_sized (encode_op (call_op op)) →
  client op e = if decide (is_logged op (contents e)) then (Throw LogStore.write_failed, e) else (Ok false, e).
Proof.
  intros Hinv Hw Hfd Hr. pose proof (apply_op_closed e w (call_op op) Hw Hfd Hr) as Hap.
  destruct (resolve_abs (store_ e) (op_ext_id op) (inv_store e Hinv)) as (o & Hres & Ho). fold (contents e) in Ho.
  assert (op_type op ≠ Insert → apply_live (call_op op) e =
    if decide (is_logged op (contents e)) then (Throw LogStore.write_failed, e) else (Ok false, e)) as Hlive.
  { intros Hty. unfold apply_live. unfold mbind at 1, M_bind at 1, read_state. unfold mbind at 1, M_bind at 1, lift.
    rewrite call_op_id, Hres. destruct o as [i|].
    - unfold mbind, M_bind. rewrite Hap, decide_True; [done|]. right.
      destruct (contents e !! op_ext_id op); [done|discriminate (proj2 Ho eq_refl)].
    - rewrite decide_False; [done|]. unfold is_logged. rewrite (proj1 Ho eq_refl). by intros [?|[? ?]]. }
  destruct op as [[] x v m]; [|by apply Hlive..].
  rewrite decide_True by by left. change (apply_op (call_op _) true) with (insert x v (default ∅ m)) in Hap.
  unfold client, mbind, M_bind; cbn [op_type op_ext_id op_vec op_meta]. by rewrite Hap.
Qed.

(** ** The disk between the new snapshot and the old log *)

(** The engine whose snapshot is published while its log is as before. *)
Definition with_snapshot e b : BlobStore.t :=
  BlobStore.with_files (BlobStore.publish kSnapshotKey (blob_of (live_ops (store_ e))) (BlobStore.files b)) b.

Definition published e b w' : Engine.t Ix := set_wal (Some w') (set_blobs (Some (with_snapshot e b)) e).

Lemma published_durable e w b snap os :
  durable_with e w b snap → LogStore.syncs_ok os →
  durable_with (published e b (LogStore.with_opens os true w)) (LogStore.with_opens os true w)
    (with_snapshot e b) (live_ops (store_ e)).
Proof.
  intros D Hos. pose proof (inv_store e (dur_inv _ _ _ _ _ D)) as Hwf. split; try done.
  - apply set_wal_inv. by destruct (dur_inv _ _ _ _ _ D).
  - exact (dur_dim U e w b snap D).
  - exact (dur_good U e w b snap D).
  - exact (dur_ids U e w b snap D).
  - apply LogStore.with_opens_healthy; [apply D|done].
  - apply (BlobStore.put_ok kSnapshotKey (blob_of (live_ops (store_ e))) b), D.
  - exact (dur_policy U e w b snap D).
  - apply live_entries_good; [done|apply D].
  - split; [exact (proj1 (dur_blob _ _ _ _ _ D))|]. cbn [BlobStore.files BlobStore.with_files with_snapshot].
    by rewrite BlobStore.publish_lookup.
  - exact (recovers_new_snapshot U e w b snap _ D (dur_file U e w b snap D)).
  - intros img Himg. exact (recovers_new_snapshot U e w b snap img D (dur_crash U e w b snap D img Himg)).
Qed.

Lemma snapshot_not_truncated e w b snap os :
  durable_with e w b snap →
  snapshot (set_wal (Some (LogStore.with_opens (false :: os) true w)) e) =
  (Throw LogStore.truncate_failed, published e b (LogStore.with_opens os false w)).
Proof.
  intros D. unfold snapshot. unfold mbind at 1, M_bind at 1, read_state at 1. cbn [blobs_ set_wal].
  rewrite (dur_blobs _ _ _ _ _ D). unfold mbind at 1, M_bind at 1, lift at 1. cbn [store_ set_wal].
  rewrite (snapshot_blob_ok U HU) by apply (inv_store e (dur_inv _ _ _ _ _ D)).
  unfold mbind at 1, M_bind at 1, on_blobs, zoom, on_ptr at 1. cbn [blobs_ set_wal]. rewrite (dur_blobs _ _ _ _ _ D).
  by destruct (BlobStore.put_ok kSnapshotKey (blob_of (live_ops (store_ e))) b (dur_puts _ _ _ _ _ D)) as [-> _].
Qed.

(** [truncate] does not depend on the old descriptor. *)
Lemma snapshot_closed e w b os :
  VectorStore.wf (store_ e) → blobs_ e = Some b → BlobStore.healthy b →
  snapshot (set_wal (Some (LogStore.with_opens os false w)) e) =
  snapshot (set_wal (Some (LogStore.with_opens os true w)) e).
Proof.
  intros Hwf Hb Hh. unfold snapshot. unfold mbind, M_bind, read_state, lift. cbn [blobs_ store_ set_wal]. rewrite Hb.
  rewrite (snapshot_blob_ok U HU) by done. unfold on_blobs, on_wal, zoom, on_ptr. cbn [blobs_ set_wal]. rewrite Hb.
  by destruct (BlobStore.put_ok kSnapshotKey (blob_of (live_ops (store_ e))) b Hh) as [-> _].
Qed.

(** C22: a snapshot whose truncation fails loses nothing. The blob is published and
    the call throws; the contents and all searches are as before; every call
    that would change an entry throws and changes nothing, as the log has no
    descriptor; opening the directory after a crash at any later moment gives
    the contents; and a further snapshot that succeeds restores a durable
    engine. *)
Theorem snapshot_truncation_fails e w b (os : list bool) :
  durable e → wal_ e = Some w → blobs_ e = Some b → LogStore.syncs_ok os →
  let e1 := set_wal (Some (LogStore.with_opens (false :: os) true w)) e in
  ∃ e2 w2 b2, snapshot e1 = (Throw LogStore.truncate_failed, e2) ∧ wal_ e2 = Some w2 ∧ blobs_ e2 = Some b2 ∧
    contents e2 = contents e ∧ (∀ q k f ef, search e2 q k f ef = search e q k f ef) ∧
    (∀ op, LogStore.rec_sized (encode_op (call_op op)) →
       client op e2 = if decide (is_logged op (contents e)) then (Throw LogStore.write_failed, e2) else (Ok false, e2)) ∧
    (∀ img ws ss rs ps p, LogStore.crash_image w2 img → LogStore.reads_ok rs →
       ∃ e3, open_engine (cfg_dim e) (Some (LogStore.reopen img ws ss rs p,
           {| BlobStore.files := BlobStore.files b2; BlobStore.puts := ps; BlobStore.gets := BlobStore.GetOk |})) = Ok e3 ∧
         contents e3 = contents e) ∧
    ∃ e4, snapshot e2 = (Ok tt, e4) ∧ contents e4 = contents e ∧ durable e4.
Proof.
  intros (w0 & b0 & snap & D) Hw Hb Hos e1.
  rewrite (dur_wal _ _ _ _ _ D) in Hw. rewrite (dur_blobs _ _ _ _ _ D) in Hb. simplify_eq.
  pose proof (published_durable e w b snap os D Hos) as D2.
  eexists _, (LogStore.with_opens os false w), (with_snapshot e b). split; [by eapply snapshot_not_truncated|].
  split_and!; [done..| | |].
  - intros op Hr. exact (client_closed (published e b (LogStore.with_opens os false w)) (LogStore.with_opens os false w) op
      (set_wal_inv (Some (LogStore.with_opens os false w)) _ (dur_inv _ _ _ _ _ D2)) eq_refl eq_refl Hr).
  - intros img ws ss rs ps p Himg Hrs.
    destruct (dur_crash _ _ _ _ _ D2 img Himg) as (ops & -> & Hg & Hr).
    destruct (reopen_contents U HU _ _ _ _ (live_ops (store_ e)) ops (LogStore.frames (encode_op <$> ops))
      (LogStore.reopen (LogStore.frames (encode_op <$> ops)) ws ss rs p)
      {| BlobStore.files := BlobStore.files (with_snapshot e b); BlobStore.puts := ps; BlobStore.gets := BlobStore.GetOk |} D2)
      as (e3 & Ho & Hopd); [exact (dur_snap _ _ _ _ _ D2)|done| |done|apply log_holds_exact|by split|].
    { split; [done|]. apply (dur_blob _ _ _ _ _ D2). }
    exists e3. split; [exact Ho|]. by rewrite (op_contents _ _ _ _ _ _ Hopd).
  - change (published e b (LogStore.with_opens os false w)) with
      (set_wal (Some (LogStore.with_opens os false w)) (published e b (LogStore.with_opens os true w))).
    rewrite (snapshot_closed (published e b (LogStore.with_opens os true w)) w (with_snapshot e b) os).
    + destruct (durable_snapshot U HU (published e b (LogStore.with_opens os true w))) as (e4 & He4 & Hs & D4).
      { by eexists _, _, _. }
      exists e4. split; [exact He4|]. split; [|done]. unfold contents. by rewrite Hs.
    + apply (inv_store _ (dur_inv _ _ _ _ _ D2)).
    + done.
    + apply (dur_puts _ _ _ _ _ D2).
Qed.
End Failures.
