(* ===== verification/GroupCommit.v ===== *)
(** * Durability by [flush]

    Under every policy but [SyncPolicy::Off] a flush makes the calls before it
    durable: a power loss afterwards takes only a suffix of the calls behind it.
    The log of a run is the list of the operations that its calls record. *)
From Stdlib Require Import Strings.Byte.
From S2P Require Import Prelude StdQueue Binary Distance Metadata Bitset VectorStore StoreSpec Replay Index.
From S2P Require Import Bytes OpCodec LogStore BlobStore Engine EngineSpec EngineSearch Recovery Durability Crash.
Local Open Scope nat_scope.
Import Engine.

(** ** The log of a run *)

Definition logged_call (op : Op) (d : db) : list Op := if decide (is_logged op d) then [call_op op] else [].

Fixpoint logged_calls (dim : Dim) (d : db) (calls : list Op) : list Op :=
  match calls with
  | [] => []
  | op :: calls => logged_call op d ++ logged_calls dim (spec_apply dim op d).2 calls
  end.

Lemma run_log_snd {S O A} (f : O → S → result A * S) op ops s :
  (run_log f (op :: ops) s).2 = (run_log f ops (f op s).2).2.
Proof. cbn [run_log]. destruct (f op s) as [r s1]. cbn [snd]. by destruct (run_log f ops s1). Qed.

Lemma run_log_app_snd {S O A} (f : O → S → result A * S) ops ops' s :
  (run_log f (ops ++ ops') s).2 = (run_log f ops' (run_log f ops s).2).2.
Proof. revert s. induction ops as [|op ops IH]; intros s; [done|]. cbn [app]. by rewrite !run_log_snd, IH. Qed.

Lemma spec_run_call dim op d : spec_run dim (logged_call op d) d = (spec_apply dim op d).2.
Proof.
  unfold logged_call. case_decide as Hl; unfold spec_run; cbn [foldl]; [by rewrite spec_call_op|].
  symmetry. by apply unlogged_spec.
Qed.

(** Running the log is running the calls. *)
Lemma spec_run_logged dim d calls :
  spec_run dim (logged_calls dim d calls) d = (run_log (spec_apply dim) calls d).2.
Proof.
  revert d. induction calls as [|op calls IH]; intros d; [done|].
  rewrite run_log_snd, <- IH. cbn [logged_calls]. rewrite spec_run_app. f_equal.
  apply spec_run_call.
Qed.

Lemma logged_calls_app dim d calls calls' :
  logged_calls dim d (calls ++ calls') =
  logged_calls dim d calls ++ logged_calls dim (run_log (spec_apply dim) calls d).2 calls'.
Proof.
  revert d. induction calls as [|op calls IH]; intros d; [done|].
  cbn [app logged_calls]. by rewrite IH, run_log_snd, app_assoc.
Qed.

(** A prefix of the log is the log of a prefix of the calls. *)
Lemma logged_prefix dim d calls n :
  ∃ j, j ≤ length calls ∧ take n (logged_calls dim d calls) = logged_calls dim d (take j calls).
Proof.
  revert d n. induction calls as [|op calls IH]; intros d n.
  { exists 0. split; [done|]. by destruct n. }
  cbn [logged_calls]. destruct (decide (n < length (logged_call op d))) as [Hn|Hn].
  - exists 0. split; [lia|]. cbn. unfold logged_call in *. case_decide; cbn in Hn; [|lia].
    by replace n with 0 by lia.
  - destruct (IH (spec_apply dim op d).2 (n - length (logged_call op d))) as (j & Hj & E).
    exists (S j). split; [cbn; lia|]. cbn [take logged_calls]. rewrite take_app, take_ge by lia. by rewrite E.
Qed.

Section GroupCommit.
Context {Ix : Type} {IO : IndexOps Ix} {buildable : list word32 → Prop} {IL : IndexLaws Ix buildable}.
Context {MO : MapOrder} (U : gset string) (HU : (N.of_nat (size U) < 2 ^ 32)%N).
Implicit Types (e : Engine.t Ix) (dim : Dim) (w : LogStore.t) (b : BlobStore.t).

#[local] Abbreviation good_op := (good_op buildable U).
#[local] Abbreviation engine_inv := (engine_inv (buildable := buildable)).

(** A call whose operation can be recorded. *)
Definition callable dim (op : Op) : Prop := good_op dim (call_op op) ∧ vec_sized (op_vec op).

(** An engine with any policy, and the operations in its log. *)
Record logging e w b (snap ops : list Op) : Prop := {
  lg_inv : engine_inv e;
  lg_dim : (0 < cfg_dim e < 2 ^ 32)%N;
  lg_ids : ids_in U (store_ e);
  lg_wal : wal_ e = Some w;
  lg_blobs : blobs_ e = Some b;
  lg_healthy : LogStore.healthy w;
  lg_snap : Forall (good_op (cfg_dim e)) snap;
  lg_blob : blob_holds b snap;
  lg_ops : Forall (good_op (cfg_dim e)) ops;
  lg_file : LogStore.file w = LogStore.frames (encode_op <$> ops);
  lg_contents : contents e = spec_run (cfg_dim e) (snap ++ ops) ∅;
}.

(** What the disk surely holds. *)
Definition on_disk (ops : list Op) w : Prop :=
  LogStore.stale w = [] ∧ length (LogStore.frames (encode_op <$> ops)) ≤ LogStore.synced w.

Lemma appended_on_disk op w w' ops rest :
  LogStore.file w = LogStore.frames (encode_op <$> (ops ++ rest)) →
  wal_appended op w w' → on_disk ops w → on_disk ops w'.
Proof.
  intros Hf [_ Hf' _ Ha Hlz] [Hst Hsy]. destruct (decide (LogStore.policy_ w = Always)) as [Hp|Hp].
  - destruct (Ha Hp) as [E1 E2]. split; [done|]. rewrite E1, Hf', Hf, fmap_app, LogStore.frames_app, !length_app. lia.
  - destruct (Hlz Hp) as [E1 E2]. split; [congruence|lia].
Qed.

Lemma logging_call e w b snap ops op :
  logging e w b snap ops → callable (cfg_dim e) op →
  ∃ r e' w', client op e = (r, e') ∧ cfg_dim e' = cfg_dim e ∧
    contents e' = (spec_apply (cfg_dim e) op (contents e)).2 ∧
    logging e' w' b snap (ops ++ logged_call op (contents e)) ∧
    LogStore.policy_ w' = LogStore.policy_ w ∧
    ∀ ops' rest, ops = ops' ++ rest → on_disk ops' w → on_disk ops' w'.
Proof.
  intros [Hinv Hdim Hids Hw Hb Hh Hsn Hbl Hops Hf Hc] [Hop Hsz].
  destruct (client_spec e op Hinv (good_call_ok U _ _ Hop (proj1 Hdim) Hsz)) as (r & e' & Hcl & Hsp & Hcall).
  { eapply ids_in_room; [exact HU|apply Hinv|done]. }
  { intros w' Hw'. rewrite Hw in Hw'. injection Hw' as <-. split; [done|apply Hop]. }
  destruct Hcall as [Hinv' Hd' Hb' Hids' Hw'].
  assert (contents e' = (spec_apply (cfg_dim e) op (contents e)).2) as Hc' by by rewrite <- Hsp.
  assert (ids_in U (store_ e')) by (apply Hids'; [rewrite <- call_op_id; apply Hop|done]).
  assert (∃ w', wal_ e' = Some w' ∧ LogStore.healthy w' ∧ LogStore.policy_ w' = LogStore.policy_ w ∧
    LogStore.file w' = LogStore.frames (encode_op <$> (ops ++ logged_call op (contents e))) ∧
    ∀ ops' rest, ops = ops' ++ rest → on_disk ops' w → on_disk ops' w') as (w' & Ew & Hh' & Hp' & Hf' & Hdisk).
  { unfold logged_call. case_decide as Hl.
    - unfold logged in Hw'. rewrite Hw in Hw'. destruct (wal_ e') as [w'|]; [|done]. exists w'.
      split_and!; [done|apply Hw'|apply Hw'| |].
      + rewrite (app_file _ _ _ Hw'), Hf, fmap_app. change (encode_op <$> [call_op op]) with [encode_op (call_op op)].
        by rewrite LogStore.frames_snoc.
      + intros ops' rest ->. by eapply appended_on_disk.
    - exists w. rewrite app_nil_r. by split_and!; [congruence|..]. }
  exists r, e', w'. split_and!; try done. split; try done; rewrite ?Hd'; try done; [congruence| |].
  - apply Forall_app. split; [done|]. unfold logged_call. case_decide; [by apply Forall_singleton|constructor].
  - by rewrite Hc', app_assoc, spec_run_app, <- Hc, spec_run_call.
Qed.

Lemma logging_calls e w b snap ops calls :
  logging e w b snap ops → Forall (callable (cfg_dim e)) calls →
  ∃ e' w', (run_log client calls e).2 = e' ∧ cfg_dim e' = cfg_dim e ∧
    contents e' = (run_log (spec_apply (cfg_dim e)) calls (contents e)).2 ∧
    logging e' w' b snap (ops ++ logged_calls (cfg_dim e) (contents e) calls) ∧
    LogStore.policy_ w' = LogStore.policy_ w ∧ (on_disk ops w → on_disk ops w').
Proof.
  intros Hlg Hcalls. assert (∃ rest, ops = ops ++ rest) as [rest Hrest] by (exists []; by rewrite app_nil_r).
  assert (∀ ops0 rest, ops = ops0 ++ rest → ∃ e' w', (run_log client calls e).2 = e' ∧ cfg_dim e' = cfg_dim e ∧
    contents e' = (run_log (spec_apply (cfg_dim e)) calls (contents e)).2 ∧
    logging e' w' b snap (ops ++ logged_calls (cfg_dim e) (contents e) calls) ∧
    LogStore.policy_ w' = LogStore.policy_ w ∧ (on_disk ops0 w → on_disk ops0 w')) as H; [|by eapply H].
  clear rest Hrest. revert e w ops Hlg Hcalls. induction calls as [|op calls IH]; intros e w ops Hlg Hcalls ops0 rest Hops.
  { exists e, w. cbn. rewrite app_nil_r. by split_and!. }
  apply Forall_cons in Hcalls as [Hop Hcalls].
  destruct (logging_call e w b snap ops op Hlg Hop) as (r & e1 & w1 & Hcl & Hd1 & Hc1 & Hlg1 & Hp1 & Hdisk1).
  destruct (IH e1 w1 _ Hlg1) with (ops0 := ops0) (rest := rest ++ logged_call op (contents e))
    as (e' & w' & Hrun & Hd' & Hc' & Hlg' & Hp' & Hdisk'); [by rewrite Hd1|by rewrite Hops, app_assoc|].
  exists e', w'. rewrite !run_log_snd, Hcl. cbn [snd logged_calls]. rewrite Hd1, Hc1 in *.
  rewrite <- app_assoc in Hlg'. split_and!; try done; [congruence|]. intros Hon. by apply Hdisk', (Hdisk1 ops0 rest).
Qed.

Lemma logging_flush e w b snap ops :
  logging e w b snap ops → LogStore.policy_ w ≠ Off →
  ∃ e' w', flush e = (Ok tt, e') ∧ cfg_dim e' = cfg_dim e ∧ contents e' = contents e ∧
    logging e' w' b snap ops ∧ on_disk ops w'.
Proof.
  intros [Hinv Hdim Hids Hw Hb Hh Hsn Hbl Hops Hf Hc] Hp. unfold flush, on_wal, zoom, on_ptr. rewrite Hw.
  destruct (LogStore.sync_ok w Hh) as (w' & -> & Hh' & Hf' & _ & Hs). rewrite decide_False in Hs by done.
  destruct Hs as [Hsy Hst]. eexists _, w'. split; [done|]. split_and!; [done|done| |].
  - split; try done; [|by rewrite Hf']. by apply set_wal_inv.
  - split; [done|]. by rewrite Hsy, Hf.
Qed.

(** C21: a flush makes what came before it durable. On a directory with any
    snapshot and log, under [SyncPolicy::Always] or [GroupCommit]: open it, make
    calls, flush, make more calls, and lose power at any moment. Opening the
    directory then gives the contents after the calls before the flush and some
    prefix of the calls behind it. *)
Theorem flush_survives dim w b (snap old before after : list Op) (ws : list LogStore.write_outcome)
    (ss : list bool) (rs : list LogStore.read_outcome) (p : SyncPolicy) :
  (0 < dim < 2 ^ 32)%N → Forall (good_op dim) snap → Forall (good_op dim) old → blob_holds b snap →
  LogStore.file w = LogStore.frames (encode_op <$> old) → LogStore.healthy w → LogStore.policy_ w ≠ Off →
  Forall (callable dim) (before ++ after) → LogStore.reads_ok rs →
  ∃ e0 e1 e2 e3 w3, open_engine (Ix := Ix) dim (Some (w, b)) = Ok e0 ∧
    (run_log client before e0).2 = e1 ∧ flush e1 = (Ok tt, e2) ∧ (run_log client after e2).2 = e3 ∧
    wal_ e3 = Some w3 ∧ blobs_ e3 = Some b ∧
    ∀ img, LogStore.crash_image w3 img →
      ∃ j e, j ≤ length after ∧ open_engine dim (Some (LogStore.reopen img ws ss rs p, b)) = Ok e ∧ engine_inv e ∧
        contents e = (run_log (spec_apply dim) (before ++ take j after) (contents e0)).2.
Proof.
  intros Hdim Hsn Hold Hbl Hf Hh Hp [Hbef Haft]%Forall_app Hrs.
  destruct (recover_ok U HU dim w b snap old) as (e0 & Ho & [Hinv Hd Hw Hb Hids Hc]); try done.
  { rewrite Hf. apply log_holds_exact. } { apply Hh. }
  subst dim. assert (logging e0 w b snap old) as Hlg by by split.
  destruct (logging_calls e0 w b snap old before Hlg Hbef) as (e1 & w1 & H1 & Hd1 & Hc1 & Hlg1 & Hp1 & _).
  destruct (logging_flush e1 w1 b snap _ Hlg1) as (e2 & w2 & H2 & Hd2 & Hc2 & Hlg2 & Hon2); [by rewrite Hp1|].
  destruct (logging_calls e2 w2 b snap _ after Hlg2) as (e3 & w3 & H3 & Hd3 & Hc3 & Hlg3 & _ & Hon3);
    [by rewrite Hd2, Hd1|].
  destruct (Hon3 Hon2) as [Hst Hsy]. exists e0, e1, e2, e3, w3. split_and!; try done; try apply Hlg3.
  intros img Himg. rewrite Hd2, Hd1, Hc2, Hc1 in Hlg3. set (dim := cfg_dim e0) in *. set (d0 := contents e0) in *.
  set (d1 := (run_log (spec_apply dim) before d0).2) in *.
  set (lb := logged_calls dim d0 before) in *. set (la := logged_calls dim d1 after) in *.
  destruct (crash_loses_suffix U HU dim w3 b snap ((old ++ lb) ++ la) (length (old ++ lb)) img ws ss rs p)
    as (j0 & e & Hj & Hop & Hie & Hce); try done; try apply Hlg3.
  { rewrite <- Hd1, <- Hd2, <- Hd3. apply Hlg3. }
  { rewrite !length_app. lia. } { by rewrite take_app_length. }
  destruct (logged_prefix dim d1 after (j0 - length (old ++ lb))) as (j & Hj' & E).
  exists j, e. split_and!; [done..|]. rewrite Hce, take_app, take_ge by lia. fold la in E. rewrite E.
  unfold lb. rewrite <- app_assoc, <- logged_calls_app, app_assoc, spec_run_app, <- Hc. apply spec_run_logged.
Qed.
End GroupCommit.
