(* ===== verification/Demo.v ===== *)
(** * The theorems on a concrete engine

    A small database over the exact index, the L2 metric and the queue of
    [StdQueue]: the engine's theorems applied to it, and runs of the model. *)
From Stdlib Require Import Strings.Byte.
From S2P Require Import Prelude StdQueue Binary Distance Metadata Bitset VectorStore StoreSpec Replay Index FlatIndex.
From S2P Require Import Bytes OpCodec LogStore BlobStore Engine EngineSpec EngineSearch Recovery Durability Crash Failures GroupCommit.
Local Open Scope nat_scope.
Import Engine.

#[local] Instance demo_metric : DistanceMetric := L2.
#[local] Instance demo_pqueue : PQueue FlatIndex.worse := list_pqueue FlatIndex.worse.
#[local] Instance demo_pqueue_laws : PQueueLaws FlatIndex.worse scored := list_pqueue_laws FlatIndex.worse scored.
#[local] Instance demo_order : MapOrder := list_order.
#[local] Instance demo_index : IndexOps FlatIndex.t := FlatIndex.flat_ops.
#[local] Instance demo_index_laws : IndexLaws FlatIndex.t finite_vec := FlatIndex.flat_laws finite_vec.
#[local] Instance demo_tame : MetricTame demo_metric finite_vec := L2_tame.

Abbreviation engine := (Engine.t FlatIndex.t).

(** ** In memory *)

Definition memory0 : engine :=
  {| cfg_dim := 2; store_ := store2; index_ := ix_make; wal_ := None; blobs_ := None |}.

Lemma demo_ops_ok : Forall (op_ok finite_vec 2) demo_ops.
Proof. repeat constructor; intros; vm_decide. Defined.

Lemma engine_refines_log_witness :
  let '(rs, e') := run_log client demo_ops memory0 in
  engine_inv e' ∧ run_log (spec_apply 2) demo_ops ∅ = (rs, contents e').
Proof. apply (engine_refines_log 2 memory0 demo_ops); [reflexivity|reflexivity|apply demo_ops_ok|reflexivity]. Defined.

Definition memory : engine := (run_log client demo_ops memory0).2.

Definition demo_ids : gset string := {["a"; "b"; "short"]}.

Lemma memory_inv : engine_inv memory ∧ ids_in demo_ids (store_ memory) ∧ blobs_ memory = None.
Proof.
  destruct (open_memory 2 memory0 eq_refl eq_refl) as (Hinv & _ & _ & _ & _ & Hs).
  pose proof (run_client demo_ids demo_ops memory0 eq_refl Hinv eq_refl) as H.
  unfold memory. destruct (run_log client demo_ops memory0) as [rs e].
  destruct H as (H1 & H2 & _ & _ & H3 & _).
  - intros x [i Hi]. apply (VectorStore.wf_slot _ x i (inv_store _ Hinv)) in Hi. cbn in Hi. lia.
  - apply demo_ops_ok.
  - unfold demo_ids. repeat constructor; set_solver.
  - split; [exact H1|split; [exact H2|exact H3]].
Qed.

(** The nearest neighbours of the origin: "b" is at distance 2, "a" at 8. *)
Example demo_search :
  search memory (point 0 0) 5 None 0 =
  Ok [{| id := 1; score := f_of_int 2 |}; {| id := 0; score := f_of_int 8 |}].
Proof. vm_compute. reflexivity. Qed.

Example demo_filtered :
  search memory (point 0 0) 5 (Some (Filter.eq "k" (MBool true))) 0 =
  Ok [{| id := 1; score := f_of_int 2 |}].
Proof. vm_compute. reflexivity. Qed.

Lemma flat_search_exact_witness :
  ∃ out, FlatIndex.search (store_ memory) (point 0 0) 1 default_params (index_ memory) = Ok out ∧
    search_exact (store_ memory) (point 0 0) 1 default_params out.
Proof.
  apply (FlatIndex.flat_search_exact finite_vec (store_ memory) (index_ memory) (point 0 0) 1 default_params);
    [apply demo_tame|apply memory_inv|apply memory_inv|apply memory_inv|vm_decide|vm_compute; reflexivity|exact I].
Defined.

Lemma engine_search_sound_witness :
  if decide (length (point 0 0) = N.to_nat (cfg_dim memory)) then
    ∃ out, search memory (point 0 0) 5 None 0 = Ok out ∧ answers_query memory (point 0 0) 5 None out
  else search memory (point 0 0) 5 None 0 =
    Throw (invalid_argument "Engine::search: query dimensionality mismatch").
Proof.
  apply (engine_search_sound finite_vec memory (point 0 0) 5 None 0);
    [apply FlatIndex.flat_search_laws, demo_tame|apply memory_inv|apply memory_inv|vm_decide].
Defined.

Lemma engine_flat_exact_witness :
  ∃ out, search memory (point 0 0) 1 (Some (Filter.ne "k" (MBool false))) 0 = Ok out ∧
    answers_query memory (point 0 0) 1 (Some (Filter.ne "k" (MBool false))) out ∧
    length out = Nat.min 1 (length (matching (Some (Filter.ne "k" (MBool false))) (contents memory))) ∧
    ∀ x v m d r, contents memory !! x = Some (v, m) →
      filter_matches (Some (Filter.ne "k" (MBool false))) m → r ∈ out →
      distance (point 0 0) v (cfg_dim memory) = Ok d →
      (∀ r', r' ∈ out → VectorStore.external_id (store_ memory) (id r') ≠ Ok x) → ¬ flt d (score r).
Proof.
  apply (engine_flat_exact (buildable := finite_vec) finite_vec memory (point 0 0) 1 (Some (Filter.ne "k" (MBool false))) 0);
    [apply demo_tame|apply memory_inv|apply memory_inv|vm_decide|vm_compute; reflexivity].
Defined.

Lemma compact_correct_witness :
  ∃ e', compact memory = (Ok tt, e') ∧ engine_inv e' ∧ contents e' = contents memory ∧
    VectorStore.slot_count (store_ e') = VectorStore.size (store_ e') ∧
    VectorStore.size (store_ e') = size (contents memory).
Proof.
  apply (compact_correct demo_ids eq_refl memory);
    [apply memory_inv|apply memory_inv|vm_compute; reflexivity|apply memory_inv].
Defined.

(** ** Durable *)

Definition log0 : LogStore.t := LogStore.reopen [] [] [] [] Always.
Definition blobs0 : BlobStore.t := {| BlobStore.files := ∅; BlobStore.puts := []; BlobStore.gets := BlobStore.GetOk |}.

Definition disk0 : engine :=
  {| cfg_dim := 2; store_ := store2; index_ := ix_make; wal_ := Some log0; blobs_ := Some blobs0 |}.

Example open_disk0 : open_engine 2 (Some (log0, blobs0)) = Ok disk0.
Proof. vm_compute. reflexivity. Qed.

Lemma log0_healthy : LogStore.healthy log0.
Proof. LogStore.healthy_log. Defined.

Lemma disk0_durable : Durability.durable (buildable := finite_vec) demo_ids disk0.
Proof.
  destruct (durable_fresh (buildable := finite_vec) demo_ids eq_refl 2 log0 blobs0) as (e & Ho & D & _);
    [done|done|apply log0_healthy|done|done|done|done|by split|].
  rewrite open_disk0 in Ho. by injection Ho as <-.
Qed.

Definition call_b : Op :=
  {| op_type := Insert; op_ext_id := "b"; op_vec := point 4 0; op_meta := Some (<["k" := MBool true]> ∅) |}.
Definition call_a : Op :=
  {| op_type := Insert; op_ext_id := "a"; op_vec := point 0 3; op_meta := None |}.

Lemma call_good op :
  op = call_a ∨ op = call_b → good_op finite_vec demo_ids 2 (call_op op).
Proof.
  intros [-> | ->]; (split; [reflexivity|unfold demo_ids; set_solver| |vm_decide|]).
  1,3: split; [vm_decide|vm_decide|intros m [= <-]; vm_decide].
  all: intros _; split; [reflexivity|vm_decide].
Qed.

(** One insertion later. *)
Definition disk1 : engine := (client call_b disk0).2.
Definition log1 : LogStore.t := default log0 (wal_ disk1).

Lemma disk1_durable : Durability.durable (buildable := finite_vec) demo_ids disk1.
Proof.
  destruct (durable_call (buildable := finite_vec) demo_ids eq_refl disk0 call_b disk0_durable)
    as (r & e' & H & _ & _ & D); [apply call_good; auto|vm_decide|].
  unfold disk1. by rewrite H.
Qed.

Lemma log1_image : LogStore.crash_image log1 (LogStore.file log1).
Proof.
  exists (LogStore.file log1), (LogStore.synced log1). split; [left|].
  exists (length (LogStore.file log1)). split; [vm_compute; lia|by rewrite take_ge].
Qed.

Lemma durable_engine_calls_witness :
  (∀ op, good_op finite_vec demo_ids 2 (call_op op) → vec_sized (op_vec op) →
    ∃ r e', client op disk1 = (r, e') ∧ (r, contents e') = spec_apply 2 op (contents disk1) ∧
      Durability.durable demo_ids e') ∧
  (∃ e', flush disk1 = (Ok tt, e') ∧ contents e' = contents disk1 ∧ Durability.durable demo_ids e') ∧
  (∃ e', snapshot disk1 = (Ok tt, e') ∧ contents e' = contents disk1 ∧ Durability.durable demo_ids e') ∧
  (∃ e', compact disk1 = (Ok tt, e') ∧ contents e' = contents disk1 ∧
     VectorStore.slot_count (store_ e') = size (contents disk1) ∧ Durability.durable demo_ids e').
Proof. apply (durable_engine_calls (buildable := finite_vec) demo_ids eq_refl disk1), disk1_durable. Defined.

Lemma durable_crash_recovers_witness :
  let w' := LogStore.reopen (LogStore.file log1) [] [] [LogStore.ReadUpTo 2] Always in
  ∃ e', open_engine 2 (Some (w', blobs0)) = Ok e' ∧ contents e' = contents disk1 ∧ Durability.durable demo_ids e'.
Proof.
  apply (durable_crash_recovers (buildable := finite_vec) demo_ids eq_refl disk1 log1 blobs0
    (LogStore.file log1) [] [] [LogStore.ReadUpTo 2] [] BlobStore.GetOk);
    [apply disk1_durable|vm_compute; reflexivity|vm_compute; reflexivity|apply log1_image| |by split].
  LogStore.healthy_log.
Defined.

Lemma crash_in_call_atomic_witness :
  let torn := LogStore.file log1 ++ take 11 (LogStore.frame (encode_op (call_op call_a))) in
  ∃ e', open_engine 2 (Some (LogStore.reopen torn [] [] [] Off, blobs0)) = Ok e' ∧
    (contents e' = contents disk1 ∨ contents e' = (spec_apply 2 call_a (contents disk1)).2).
Proof.
  apply (crash_in_call_atomic (buildable := finite_vec) demo_ids eq_refl disk1 log1 blobs0 call_a 11 [] [] [] Off);
    [apply disk1_durable|vm_compute; reflexivity|vm_compute; reflexivity|apply call_good; auto
    |unfold LogStore.reads_ok; vm_decide].
Defined.

Definition blob1 : list byte := match snapshot_blob (store_ disk1) with Ok data => data | Throw _ => [] end.

Lemma crash_in_snapshot_safe_witness :
  ∃ e', open_engine 2
      (Some (LogStore.reopen (LogStore.file log1) [] [] [] Always,
             {| BlobStore.files := BlobStore.publish kSnapshotKey blob1 ∅; BlobStore.puts := [];
                BlobStore.gets := BlobStore.GetOk |})) = Ok e' ∧
    contents e' = contents disk1.
Proof.
  apply (crash_in_snapshot_safe (buildable := finite_vec) demo_ids eq_refl disk1 log1 blobs0 blob1
    (LogStore.file log1) (BlobStore.publish kSnapshotKey blob1 ∅) [] [] [] [] Always);
    [apply disk1_durable|vm_compute; reflexivity|vm_compute; reflexivity|vm_compute; reflexivity
    |apply BlobStore.put_renamed|apply log1_image|unfold LogStore.reads_ok; vm_decide].
Defined.

(** Two records, of which the first is on the disk. *)
Definition lazy_log : LogStore.t :=
  {| LogStore.file := LogStore.frames (encode_op <$> [call_op call_b; call_op call_a]);
     LogStore.synced := length (LogStore.frames (encode_op <$> [call_op call_b]));
     LogStore.stale := []; LogStore.writes := []; LogStore.syncs := []; LogStore.reads := [];
     LogStore.opens := []; LogStore.read_open := true; LogStore.fd_ := true;
     LogStore.policy_ := GroupCommit |}.

Lemma crash_loses_suffix_witness :
  ∃ j e, 1 ≤ j ≤ 2 ∧
    open_engine 2 (Some (LogStore.reopen
      (take (length (LogStore.file lazy_log) - 1) (LogStore.file lazy_log)) [] [] [] Off, blobs0)) = Ok e ∧
    engine_inv (buildable := finite_vec) e ∧
    contents e = spec_run 2 ([] ++ take j [call_op call_b; call_op call_a]) ∅.
Proof.
  apply (crash_loses_suffix (buildable := finite_vec) demo_ids eq_refl 2 lazy_log blobs0 []
    [call_op call_b; call_op call_a] 1 _ [] [] [] Off);
    [split; reflexivity|constructor| |by split|reflexivity|reflexivity|cbn; lia|reflexivity| |
     unfold LogStore.reads_ok; vm_decide].
  - constructor; [apply call_good; auto|constructor; [apply call_good; auto|constructor]].
  - exists (LogStore.file lazy_log), (LogStore.synced lazy_log). split; [left|].
    eexists. split; [|reflexivity]. vm_compute. lia.
Defined.

Definition call_short : Op :=
  {| op_type := Insert; op_ext_id := "short"; op_vec := [float_of f_one]; op_meta := None |}.

Lemma wrong_length_poisons_log_witness :
  ∃ e' w', client call_short disk1 = (Throw dim_error, e') ∧ contents e' = contents disk1 ∧ wal_ e' = Some w' ∧
    blobs_ e' = Some blobs0 ∧
    ∀ ws ss rs p, LogStore.reads_ok rs →
      open_engine (Ix := FlatIndex.t) 2 (Some (LogStore.reopen (LogStore.file w') ws ss rs p, blobs0)) = Throw dim_error.
Proof.
  apply (wrong_length_poisons_log (buildable := finite_vec) demo_ids eq_refl disk1 log1 blobs0 call_short);
    [apply disk1_durable|vm_compute; reflexivity|vm_compute; reflexivity|reflexivity| |vm_decide|discriminate].
  split; [vm_decide|vm_decide|intros m [= <-]; vm_decide].
Defined.

Lemma snapshot_truncation_fails_witness :
  let e1 := set_wal (Some (LogStore.with_opens [false] true log1)) disk1 in
  ∃ e2 w2 b2, snapshot e1 = (Throw LogStore.truncate_failed, e2) ∧ wal_ e2 = Some w2 ∧ blobs_ e2 = Some b2 ∧
    contents e2 = contents disk1 ∧ (∀ q k f ef, search e2 q k f ef = search disk1 q k f ef) ∧
    (∀ op, LogStore.rec_sized (encode_op (call_op op)) →
       client op e2 = if decide (is_logged op (contents disk1)) then (Throw LogStore.write_failed, e2) else (Ok false, e2)) ∧
    (∀ img ws ss rs ps p, LogStore.crash_image w2 img → LogStore.reads_ok rs →
       ∃ e3, open_engine 2 (Some (LogStore.reopen img ws ss rs p,
           {| BlobStore.files := BlobStore.files b2; BlobStore.puts := ps; BlobStore.gets := BlobStore.GetOk |})) = Ok e3 ∧
         contents e3 = contents disk1) ∧
    ∃ e4, snapshot e2 = (Ok tt, e4) ∧ contents e4 = contents disk1 ∧ Durability.durable (buildable := finite_vec) demo_ids e4.
Proof.
  apply (snapshot_truncation_fails (buildable := finite_vec) demo_ids eq_refl disk1 log1 blobs0 []);
    [apply disk1_durable|vm_compute; reflexivity|vm_compute; reflexivity|unfold LogStore.syncs_ok; vm_decide].
Defined.

(** A log under group commit. *)
Definition group_log : LogStore.t := LogStore.reopen [] [LogStore.Wrote 3] [true] [] GroupCommit.

Lemma call_callable op : op = call_a ∨ op = call_b → callable (buildable := finite_vec) demo_ids 2 op.
Proof. intros Hop. split; [by apply call_good|]. destruct Hop as [-> | ->]; vm_decide. Qed.

Lemma flush_survives_witness :
  ∃ e0 e1 e2 e3 w3, open_engine 2 (Some (group_log, blobs0)) = Ok e0 ∧
    (run_log client [call_a] e0).2 = e1 ∧ flush e1 = (Ok tt, e2) ∧ (run_log client [call_b] e2).2 = e3 ∧
    wal_ e3 = Some w3 ∧ blobs_ e3 = Some blobs0 ∧
    ∀ img, LogStore.crash_image w3 img →
      ∃ j e, j ≤ 1 ∧ open_engine 2 (Some (LogStore.reopen img [] [] [] Always, blobs0)) = Ok e ∧
        engine_inv (buildable := finite_vec) e ∧
        contents e = (run_log (spec_apply 2) ([call_a] ++ take j [call_b]) (contents e0)).2.
Proof.
  apply (flush_survives (buildable := finite_vec) demo_ids eq_refl 2 group_log blobs0 [] [] [call_a] [call_b] [] [] [] Always);
    [split; reflexivity|constructor|constructor|by split|reflexivity|LogStore.healthy_log|discriminate| |].
  - repeat (apply Forall_cons_2; [apply call_callable; auto|]). constructor.
  - unfold LogStore.reads_ok. vm_decide.
Defined.
