(* ===== verification/HnswDemo.v ===== *)
(** * The theorems on a concrete HNSW graph

    An engine over the HNSW index with the L2 metric, the queues and the sort of
    [StdQueue] and a small random source: the theorems of [HnswSearch],
    [HnswGraph], [HnswIndex] and [EngineBatch] applied to it, and runs of the
    model. *)
From S2P Require Import Prelude StdQueue Binary Distance Metadata Bitset VectorStore StoreSpec Index.
From S2P Require Import Hnsw HnswSearch HnswGraph HnswIndex Bytes OpCodec Engine EngineSpec EngineBatch.
From Stdlib Require Import Floats.SpecFloat.
Local Open Scope nat_scope.
Import VectorStore Hnsw HnswIndex Engine.

(** A source whose levels are 2, 0, 1, 2, 0, ...; its logarithm is to base 2,
    rounded down. *)
Definition demo_log (x : spec_float) : spec_float :=
  match x with
  | S754_finite false m e => double_of_int (e + Zpos (digits2_pos m) - 1)
  | _ => S754_nan
  end.

#[local] Instance demo_random : RandomSource := {|
  rng := N;
  mt19937 _ := 2%N;
  uniform_01 g := (dsub d_one (S754_finite false 4503599627370496 (- 52 - Z.of_N (g mod 3))), (g + 1)%N);
  dlog := demo_log;
|}.

#[local] Instance hnsw_metric : DistanceMetric := L2.
#[local] Instance hnsw_near : PQueue near_on_top := list_pqueue near_on_top.
#[local] Instance hnsw_far : PQueue far_on_top := list_pqueue far_on_top.
#[local] Instance hnsw_near_laws : PQueueLaws near_on_top numbered := list_pqueue_laws near_on_top numbered.
#[local] Instance hnsw_far_laws : PQueueLaws far_on_top numbered := list_pqueue_laws far_on_top numbered.
#[local] Instance hnsw_sort : StdSort := insertion_sort.
#[local] Instance hnsw_sort_laws : StdSortLaws := insertion_sort_laws.
#[local] Instance hnsw_tame : MetricTame hnsw_metric finite_vec := L2_tame.
#[local] Instance hnsw_order : MapOrder := list_order.

Definition demo_params : Params := {| M := 2; efConstruction := 4; efSearch := 64; seed := 42 |}.

Lemma demo_params_int : params_int demo_params.
Proof. unfold params_int. cbn. lia. Defined.

#[local] Instance demo_draws : LevelDraws demo_params.
Proof.
  intros g. unfold random_level, uniform_01, demo_random.
  assert (g mod 3 < 3)%N as Hg by (by apply N.mod_lt).
  destruct (g mod 3)%N as [|[[|p|]|[|p|]|]]; try lia; eexists _, _; (split; [vm_compute; reflexivity|lia]).
Qed.

#[local] Instance demo_hnsw : IndexOps Hnsw.t := hnsw_ops demo_params.
#[local] Instance demo_hnsw_laws : IndexLaws Hnsw.t finite_vec := hnsw_laws demo_params demo_params_int finite_vec.

(** ** An engine over the graph *)

Abbreviation hengine := (Engine.t Hnsw.t).

Definition graph0 : hengine :=
  {| cfg_dim := 2; store_ := store2; index_ := ix_make; wal_ := None; blobs_ := None |}.

Definition put (x : string) (v : list word32) : Op :=
  {| op_type := Insert; op_ext_id := x; op_vec := v; op_meta := Some ∅ |}.
Definition del (x : string) : Op :=
  {| op_type := Delete; op_ext_id := x; op_vec := []; op_meta := None |}.

Definition graph_ops : list Op :=
  [put "a" (point 0 0); put "b" (point 1 0); put "c" (point 5 5); put "d" (point 2 0); put "e" (point 9 0)].

Definition graph_ids : gset string := {["a"; "b"; "c"; "d"; "e"; "f"]}.

Lemma run_ok (ops : list Op) e :
  e = (run_log client ops graph0).2 → Forall (op_ok finite_vec 2) ops → Forall (λ op, op_ext_id op ∈ graph_ids) ops →
  engine_inv e ∧ blobs_ e = None.
Proof.
  intros -> Hops Hids. destruct (open_memory 2 graph0 eq_refl eq_refl) as (Hinv & _ & _ & _ & _ & Hs).
  pose proof (run_client graph_ids ops graph0 eq_refl Hinv eq_refl) as H.
  destruct (run_log client ops graph0) as [rs e]. destruct H as (H1 & _ & _ & _ & H3 & _); [|done|done|done].
  intros x [i Hi]. apply (VectorStore.wf_slot _ x i (inv_store _ Hinv)) in Hi. cbn in Hi. lia.
Qed.

Definition graph5 : hengine := (run_log client graph_ops graph0).2.

Lemma graph5_inv : engine_inv graph5 ∧ blobs_ graph5 = None.
Proof.
  apply (run_ok graph_ops); [reflexivity| |].
  - repeat constructor; intros; vm_decide.
  - unfold graph_ids. repeat constructor; set_solver.
Qed.

(** The levels, and the links by node and layer. *)
Example graph5_levels : (level <$> nodes_ (index_ graph5)) = [2; 0; 1; 2; 0]%Z.
Proof. vm_compute. reflexivity. Qed.

Example graph5_links : (links <$> nodes_ (index_ graph5)) =
  [[[1]; [2; 3]; [3]]; [[0; 2; 3]]; [[1; 3; 4]; [0; 3]]; [[1; 2]; [0; 2]; [0]]; [[2]]]%N.
Proof. vm_compute. reflexivity. Qed.

Abbreviation hs5 := (store_ graph5).
Abbreviation hx5 := (index_ graph5).

Lemma hx5_inv : hnsw_inv demo_params hs5 hx5.
Proof. exact (inv_index _ (proj1 graph5_inv)). Qed.

Lemma hs5_wf : wf hs5.
Proof. apply (inv_store _ (proj1 graph5_inv)). Qed.

Lemma hs5_vecs : vecs_ok finite_vec hs5.
Proof. apply (inv_vecs _ (proj1 graph5_inv)). Qed.

Lemma hs5_dists : dists_ok hs5 (point 9 9) (length (nodes_ hx5)).
Proof.
  apply (dists_ok_tame finite_vec); [apply hs5_wf|apply hs5_vecs|vm_decide|vm_compute; reflexivity|].
  rewrite (hi_slots _ _ _ hx5_inv). done.
Qed.

(** ** Witnesses *)

(** From "a" in layer 1 the descent to the point (9, 9) ends at "c". *)
Definition start_a : Cand := {| dist := f_of_int 162; cid := 0 |}.

Lemma greedy_upper_local_min_witness :
  cand_ok hs5 (point 9 9) (in_layer (nodes_ hx5) 1) start_a ∧
  ∃ b, greedy_upper hs5 (nodes_ hx5) (point 9 9) start_a 1 = Ok b ∧
    cand_ok hs5 (point 9 9) (in_layer (nodes_ hx5) 1) b ∧
    local_min hs5 (nodes_ hx5) (point 9 9) 1 b ∧ (b = start_a ∨ flt (dist b) (dist start_a)).
Proof.
  assert (cand_ok hs5 (point 9 9) (in_layer (nodes_ hx5) 1) start_a) as Ha.
  { split; [|vm_compute; reflexivity|discriminate].
    eexists. split; [vm_compute; reflexivity|]. cbn. lia. }
  split; [exact Ha|].
  apply (greedy_upper_local_min hs5 (nodes_ hx5) (point 9 9) 1 (in_layer (nodes_ hx5) 1));
    [apply hs5_dists|apply (graph_parts demo_params hs5), hx5_inv|exact Ha].
Defined.

Definition some_cands : list Cand :=
  [{| dist := f_of_int 25; cid := 4 |}; {| dist := f_of_int 1; cid := 1 |}; {| dist := f_of_int 4; cid := 3 |}].

Lemma select_neighbors_spec_witness :
  ∃ out, select_neighbors hs5 some_cands 2 = Ok out ∧ length out ≤ 2 ∧ (∃ rest, out ++ rest ≡ₚ some_cands) ∧
    sorted_by far_on_top out ∧ spread hs5 out ∧
    (∀ c, length out < 2 → c ∈ some_cands → c ∉ out → ∃ r, r ∈ out ∧ crowds hs5 r c) ∧
    (0 < 2 → some_cands ≠ [] → ∃ c out', out = c :: out' ∧ ∀ x, x ∈ some_cands → ¬ far_on_top x c).
Proof.
  apply (select_neighbors_spec hs5 (slot_count hs5)).
  - apply (vectors_ok_tame finite_vec); [apply hs5_wf|apply hs5_vecs].
  - repeat (apply Forall_cons_2; [split; [vm_compute; lia|discriminate]|]). apply Forall_nil_2.
Defined.

Lemma inserted_f :
  inserted hs5 (do_insert "f" (point 3 3) ∅ hs5).2 "f" 5 (point 3 3) ∅.
Proof.
  destruct (do_insert_new hs5 "f" (point 3 3) ∅ hs5_wf) as (s' & Hs' & Hins);
    [vm_decide|vm_decide|vm_compute; reflexivity|vm_compute; reflexivity|].
  rewrite Hs'. exact Hins.
Qed.

Lemma hnsw_add_keeps_graph_witness :
  ∃ ix', add demo_params (do_insert "f" (point 3 3) ∅ hs5).2 5 hx5 = Ok ix' ∧
    hnsw_inv demo_params (do_insert "f" (point 3 3) ∅ hs5).2 ix' ∧
    shows_graph demo_params (do_insert "f" (point 3 3) ∅ hs5).2 ix'.
Proof.
  apply (hnsw_add_keeps_graph demo_params demo_params_int finite_vec hs5 _ "f" 5 (point 3 3) ∅);
    [apply hnsw_tame|apply hs5_wf|apply inserted_f| |apply hx5_inv].
  eapply vecs_ok_inserted; [|apply hs5_vecs|apply inserted_f]. vm_decide.
Defined.

Lemma hnsw_search_sound_witness :
  ∃ out, Hnsw.search hs5 (point 9 9) 2 default_params hx5 = Ok out ∧
    search_ok hs5 (point 9 9) 2 default_params out.
Proof.
  apply (hnsw_search_sound demo_params finite_vec);
    [apply hnsw_tame|apply hs5_wf|apply hx5_inv|apply hs5_vecs|vm_decide|vm_compute; reflexivity|exact I].
Defined.

Lemma hnsw_broad_search_exact_witness :
  ∃ start all out, Hnsw.search hs5 (point 9 9) 2 default_params hx5 = Ok out ∧ N.to_nat start < slot_count hs5 ∧
    sorted_by closer out ∧ smallest closer 2 all out ∧ NoDup (id <$> all) ∧ Forall (hit_of hs5 (point 9 9)) all ∧
    (∀ i, i ∈ id <$> all ↔ eligible hs5 default_params i ∧ rtc (linked (nodes_ hx5) 0) start i) ∧
    ((∀ i, eligible hs5 default_params i → rtc (linked (nodes_ hx5) 0) start i) →
       search_exact hs5 (point 9 9) 2 default_params out).
Proof.
  apply (hnsw_broad_search_exact demo_params finite_vec);
    [apply hnsw_tame|apply hs5_wf|apply hx5_inv|apply hs5_vecs|vm_decide|vm_compute; reflexivity|exact I
    |vm_compute; lia|vm_decide|lia|vm_compute; lia].
Defined.

(** ** An entry that no search finds *)

Definition tomb : hengine := (run_log client [put "a" (point 0 0); del "a"] graph0).2.

Lemma tomb_inv : engine_inv tomb ∧ blobs_ tomb = None.
Proof.
  apply (run_ok [put "a" (point 0 0); del "a"]); [reflexivity| |].
  - repeat constructor; intros; try vm_decide; done.
  - unfold graph_ids. repeat constructor; set_solver.
Qed.

Lemma tomb_dead j : is_live (store_ tomb) j = false.
Proof.
  destruct (is_live (store_ tomb) j) eqn:E; [|done].
  assert (N.to_nat j < slot_count (store_ tomb)) as Hj by (apply is_live_slot; [apply tomb_inv|by rewrite E]).
  assert (slot_count (store_ tomb) = 1) as Hs by (vm_compute; reflexivity).
  assert (j = 0%N) as -> by lia. by vm_compute in E.
Qed.

Lemma inserted_b :
  inserted (store_ tomb) (do_insert "b" (point 1 0) ∅ (store_ tomb)).2 "b" 1 (point 1 0) ∅.
Proof.
  destruct (do_insert_new (store_ tomb) "b" (point 1 0) ∅ (inv_store _ (proj1 tomb_inv))) as (s' & Hs' & Hins);
    [vm_decide|vm_decide|vm_compute; reflexivity|vm_compute; reflexivity|].
  rewrite Hs'. exact Hins.
Qed.

Lemma hnsw_insert_among_tombstones_witness :
  let s' := (do_insert "b" (point 1 0) ∅ (store_ tomb)).2 in
  ∃ ix', add demo_params s' 1 (index_ tomb) = Ok ix' ∧ is_live s' 1 ∧ (∀ l j, ¬ linked (nodes_ ix') l j 1) ∧
    (entry_point_ ix' ≠ 1%N → ∀ q k p, finite_vec q → length q = N.to_nat (dim_ s') → params_wf p →
       Hnsw.search s' q k p ix' = Ok []).
Proof.
  apply (hnsw_insert_among_tombstones demo_params demo_params_int finite_vec (store_ tomb) _ "b" 1 (point 1 0) ∅);
    [apply hnsw_tame|apply tomb_inv|apply inserted_b| |exact (inv_index _ (proj1 tomb_inv))
    |vm_compute; reflexivity|vm_compute; discriminate|].
  - eapply vecs_ok_inserted; [|apply (inv_vecs _ (proj1 tomb_inv))|apply inserted_b]. vm_decide.
  - apply tomb_dead.
Defined.

(** The whole history through the engine: "b" and "c" are stored, and the search
    for all entries returns none. *)
Example lost_entries :
  let e := (run_log client [put "a" (point 0 0); del "a"; put "b" (point 1 0)] graph0).2 in
  dom (contents e) = {["b"]} ∧ search e (point 1 0) 10 None 100 = Ok [].
Proof. vm_compute. split; reflexivity. Qed.

(** ** Batches *)

Definition batch : list (list word32) := [point 9 9; point 0 0; point 1 0].
Definition batch_outs : list (list SearchResult) :=
  [[{| id := 2; score := f_of_int 32 |}]; [{| id := 0; score := f_of_int 0 |}]; [{| id := 1; score := f_of_int 0 |}]].

Lemma batch_serial : Forall2 (λ q r, search graph5 q 1 None 0 = Ok r) batch batch_outs.
Proof. repeat apply Forall2_cons_2; [vm_compute; reflexivity..|apply Forall2_nil_2]. Qed.

(** Two threads on three queries. *)
Lemma search_batch_serial_witness : EngineBatch.search_batch graph5 batch 1 None 0 2 8 (Ok batch_outs).
Proof.
  destruct (EngineBatch.search_batch_serial graph5 batch 1 None 0 2 8) as (_ & _ & _ & Hserial & _).
  exact (proj2 (Hserial batch_outs batch_serial (Ok batch_outs)) eq_refl).
Defined.
