(* ===== verification/Text.v ===== *)
(** * Tokens, chunks and prompts ([rag.hpp], [rag.cpp])

    The text functions of the retrieval layer: the tokenizer, the sliding-window
    chunker and the prompt builder. *)
From Stdlib Require Import Strings.Ascii.
From S2P Require Import Prelude Binary Distance.
Local Open Scope string_scope.
Local Open Scope list_scope.
Local Open Scope nat_scope.

Module Text.

(** [std::isspace] and [std::tolower] of the C locale. *)
Definition isspace (c : ascii) : bool :=
  let n := nat_of_ascii c in (n =? 32) || ((9 <=? n) && (n <=? 13)).

Definition tolower (c : ascii) : ascii :=
  let n := nat_of_ascii c in if (65 <=? n) && (n <=? 90) then ascii_of_nat (n + 32) else c.

(** [s.push_back(c)] *)
Definition push_back (s : string) (c : ascii) : string := s +:+ String c "".

Definition is_empty (s : string) : bool := match s with "" => true | _ => false end.

(** The loop of [tokenize] over the rest of the text. *)
Fixpoint tokenize_loop (text cur : string) (tokens : list string) : list string :=
  match text with
  | "" => if is_empty cur then tokens else tokens ++ [cur]
  | String ch text =>
      if isspace ch then
        if is_empty cur then tokenize_loop text cur tokens else tokenize_loop text "" (tokens ++ [cur])
      else tokenize_loop text (push_back cur (tolower ch)) tokens
  end.

Definition tokenize (text : string) : list string := tokenize_loop text "" [].

Definition approx_tokens (text : string) : nat := length (tokenize text).

(** ** Chunks *)

Record Chunk := { chunk_text_ : string; start_token : nat; end_token : nat }.
Record ChunkConfig := { window : nat; overlap : nat }.

Definition default_chunk : ChunkConfig := {| window := 64; overlap := 16 |}.

(** The inner loop: the tokens [start], ..., [end - 1] with spaces between. *)
Definition join_tokens (tokens : list string) (start end_ : nat) : result string :=
  for_range start (end_ - start)
    (λ i joined, t ← at_ tokens i; Ok ((if start <? i then push_back joined " " else joined) +:+ t)) "".

Definition eff_window (cfg : ChunkConfig) : nat := if window cfg =? 0 then 1 else window cfg.
Definition eff_overlap (cfg : ChunkConfig) : nat :=
  if eff_window cfg <=? overlap cfg then eff_window cfg - 1 else overlap cfg.

(** The loop over [start]; each round but the last advances by [step >= 1]. *)
Fixpoint chunk_loop (fuel : nat) (tokens : list string) (win step start : nat) (chunks : list Chunk)
    : result (list Chunk) :=
  match fuel with
  | O => Throw out_of_fuel
  | S fuel =>
      if start <? length tokens then
        let end_ := Nat.min (start + win) (length tokens) in
        joined ← join_tokens tokens start end_;
        let chunks := (chunks ++ [{| chunk_text_ := joined; start_token := start; end_token := end_ |}])%list in
        if end_ =? length tokens then Ok chunks
        else chunk_loop fuel tokens win step (start + step) chunks
      else Ok chunks
  end.

Definition chunk_text (text : string) (cfg : ChunkConfig) : result (list Chunk) :=
  let tokens := tokenize text in
  match tokens with
  | [] => Ok []
  | _ =>
      let win := eff_window cfg in
      let step := win - eff_overlap cfg in
      chunk_loop (length tokens + 1) tokens win step 0 []
  end.

(** ** Prompts *)

Record RetrievedChunk := { doc_id : string; rc_text : string; rc_score : Score }.

Definition kScaffoldTokens : nat := 24.

Definition newline : ascii := "010".

(** The loop over the chunks: [context] and [used]. *)
Fixpoint fill_context (available : nat) (chunks : list RetrievedChunk) (context : string) (used : nat) : string :=
  match chunks with
  | [] => context
  | c :: cs =>
      let cost := approx_tokens (rc_text c) in
      if available <? used + cost then context
      else fill_context available cs (push_back (context +:+ "- " +:+ rc_text c) newline) (used + cost)
  end.

Definition prompt_head : string :=
  push_back (push_back "You are a helpful assistant. Answer using only the context below." newline) newline
  +:+ push_back "Context:" newline.

(** [PromptBuilder::build]; [budget] is the field [budget_]. *)
Definition build (budget : nat) (query : string) (chunks : list RetrievedChunk) : string :=
  let reserved := approx_tokens query + kScaffoldTokens in
  let available := if reserved <? budget then budget - reserved else 0 in
  let context := fill_context available chunks "" 0 in
  prompt_head +:+ context +:+ (String newline "Question: ") +:+ query +:+ (String newline "Answer:").

(** ** The tokenizer *)

Lemma tokenize_loop_app text cur acc : tokenize_loop text cur acc = (acc ++ tokenize_loop text cur [])%list.
Proof.
  revert cur acc. induction text as [|ch text IH]; intros cur acc; cbn.
  - destruct (is_empty cur); [by rewrite app_nil_r|done].
  - destruct (isspace ch); [|apply IH]. destruct (is_empty cur); [apply IH|].
    rewrite IH, (IH "" [cur]). by rewrite <- app_assoc.
Qed.

Lemma append_nil s : "" +:+ s = s.
Proof. done. Qed.

Lemma append_cons c a s : String c a +:+ s = String c (a +:+ s).
Proof. done. Qed.

(** What [tokenize_loop] does with the characters of a text before a space. *)
Lemma tokenize_loop_split a ch b cur acc :
  isspace ch → tokenize_loop (a +:+ String ch b) cur acc = tokenize_loop b "" (tokenize_loop a cur acc).
Proof.
  intros Hch. revert cur acc. induction a as [|c a IH]; intros cur acc; rewrite ?append_nil, ?append_cons; cbn.
  - destruct (isspace ch); [|done]. by destruct cur.
  - destruct (isspace c); [|apply IH]. destruct (is_empty cur); apply IH.
Qed.

(** White space separates: the tokens of the parts are the tokens of the whole. *)
Lemma tokenize_split a ch b :
  isspace ch → tokenize (a +:+ String ch b) = tokenize a ++ tokenize b.
Proof. intros Hch. unfold tokenize. rewrite tokenize_loop_split by done. apply tokenize_loop_app. Qed.

(** *** Tokens *)

Fixpoint all_chars (P : ascii → Prop) (s : string) : Prop :=
  match s with "" => True | String c s => P c ∧ all_chars P s end.

(** A token: not empty, without white space, in lower case. *)
Record token (s : string) : Prop := {
  token_nonempty : s ≠ "";
  token_chars : all_chars (λ c, ¬ isspace c ∧ tolower c = c) s;
}.

Lemma append_assoc (a b c : string) : (a +:+ b) +:+ c = a +:+ (b +:+ c).
Proof. induction a as [|x a IH]; [done|]. by rewrite !append_cons, IH. Qed.

Lemma append_nil_r (a : string) : a +:+ "" = a.
Proof. induction a as [|x a IH]; [done|]. by rewrite append_cons, IH. Qed.

Lemma all_chars_app P a b : all_chars P (a +:+ b) ↔ all_chars P a ∧ all_chars P b.
Proof. induction a as [|c a IH]; [cbn; tauto|]. rewrite append_cons. cbn. rewrite IH. tauto. Qed.

Lemma tolower_idem c : tolower (tolower c) = tolower c ∧ (isspace c = false → isspace (tolower c) = false).
Proof. destruct c as [[] [] [] [] [] [] [] []]; by vm_compute. Qed.

Lemma tokenize_loop_tokens text cur acc :
  all_chars (λ c, ¬ isspace c ∧ tolower c = c) cur → Forall token acc → Forall token (tokenize_loop text cur acc).
Proof.
  revert cur acc. induction text as [|ch text IH]; intros cur acc Hc Ha; cbn.
  - destruct cur; [done|]. apply Forall_app_2; [done|]. by apply Forall_singleton.
  - destruct (isspace ch) eqn:E.
    + destruct cur; [by apply IH|]. apply IH; [done|]. apply Forall_app_2; [done|]. by apply Forall_singleton.
    + apply IH; [|done]. unfold push_back. rewrite all_chars_app. split; [done|].
      destruct (tolower_idem ch) as [H1 H2]. cbn. rewrite H2, H1 by done. by split; [split; [intros []|]|].
Qed.

Lemma tokenize_tokens text : Forall token (tokenize text).
Proof. apply tokenize_loop_tokens; [done|constructor]. Qed.

(** A token is its own only token. *)
Lemma tokenize_loop_token s cur acc :
  all_chars (λ c, ¬ isspace c ∧ tolower c = c) s →
  tokenize_loop s cur acc = if is_empty (cur +:+ s) then acc else acc ++ [cur +:+ s].
Proof.
  revert cur. induction s as [|c s IH]; intros cur Hs; cbn.
  - by rewrite append_nil_r.
  - destruct Hs as [[Hc Hl] Hs]. destruct (isspace c); [done|]. rewrite Hl, IH by done.
    unfold push_back. by rewrite append_assoc, append_cons, append_nil.
Qed.

Lemma tokenize_token s : token s → tokenize s = [s].
Proof.
  intros [Hn Hc]. unfold tokenize. rewrite tokenize_loop_token, append_nil by done. by destruct s.
Qed.

(** ** Joining *)

Lemma concat_cons t ts : ts ≠ [] → String.concat " " (t :: ts) = t +:+ String " " (String.concat " " ts).
Proof. by destruct ts. Qed.

Lemma concat_snoc ts t :
  String.concat " " (ts ++ [t]) =
  (match ts with [] => "" | _ => push_back (String.concat " " ts) " " end) +:+ t.
Proof.
  induction ts as [|t0 ts IH]; [done|]. rewrite <- app_comm_cons, concat_cons, IH by (by destruct ts).
  unfold push_back. destruct ts as [|t1 ts].
  - cbn [String.concat]. by rewrite append_nil, append_assoc, append_cons, append_nil.
  - rewrite (concat_cons t0 (t1 :: ts)) by done. by rewrite !append_assoc, !append_cons.
Qed.

(** Joined tokens are read back. *)
Lemma tokenize_concat ts : Forall token ts → tokenize (String.concat " " ts) = ts.
Proof.
  induction 1 as [|t ts Ht Hts IH]; [done|]. destruct ts as [|t' ts]; [by apply tokenize_token|].
  rewrite concat_cons, tokenize_split, tokenize_token, IH by done. done.
Qed.

(** The tokens [a], ..., [b - 1]. *)
Definition slice (ts : list string) (a b : nat) : list string := take (b - a) (drop a ts).
Arguments slice : simpl never.

Lemma join_tokens_spec ts a b :
  a ≤ b ≤ length ts → join_tokens ts a b = Ok (String.concat " " (slice ts a b)).
Proof.
  intros Hb. unfold join_tokens.
  destruct (for_range_inv (λ i s, a ≤ i ∧ s = String.concat " " (slice ts a i)) a (b - a)
    (λ i joined, t ← at_ ts i; Ok ((if a <? i then push_back joined " " else joined) +:+ t)) "") as (s & -> & _ & ->).
  - intros i s Hi [_ ->]. destruct (at_lt ts i) as (t & -> & Ht); [lia|]. cbn [mbind result_bind].
    eexists. split; [done|]. split; [lia|].
    assert (slice ts a (S i) = slice ts a i ++ [t]) as ->.
    { unfold slice. replace (S i - a) with (S (i - a)) by lia. apply take_S_r.
      rewrite lookup_drop. by replace (a + (i - a)) with i by lia. }
    rewrite concat_snoc. f_equal. destruct (Nat.ltb_spec a i).
    + destruct (slice ts a i) eqn:E; [|done]. apply (f_equal length) in E. unfold slice in E.
      rewrite length_take, length_drop in E. cbn in E. lia.
    + assert (i = a) as -> by lia. unfold slice. by rewrite Nat.sub_diag.
  - split; [lia|]. unfold slice. by rewrite Nat.sub_diag.
  - do 2 f_equal. by replace (a + (b - a)) with b by lia.
Qed.

(** ** The chunks are overlapping windows *)

(** The chunks [cs] of the tokens from [start] on. *)
Record windows (ts : list string) (win step start : nat) (cs : list Chunk) : Prop := {
  win_nonempty : cs ≠ [];
  win_chunk i c : cs !! i = Some c →
    start_token c = start + i * step ∧ end_token c = Nat.min (start_token c + win) (length ts) ∧
    start_token c < length ts ∧ chunk_text_ c = String.concat " " (slice ts (start_token c) (end_token c)) ∧
    (end_token c = length ts ↔ S i = length cs);
}.

Lemma chunk_loop_spec ts win step fuel start acc :
  0 < step ≤ win → start < length ts → length ts < start + fuel →
  ∃ cs, chunk_loop fuel ts win step start acc = Ok (acc ++ cs) ∧ windows ts win step start cs.
Proof.
  intros Hstep. revert start acc. induction fuel as [|fuel IH]; intros start acc Hs Hf; [lia|].
  cbn [chunk_loop]. destruct (Nat.ltb_spec start (length ts)); [|lia]. cbn zeta.
  set (e := Nat.min (start + win) (length ts)). rewrite join_tokens_spec by lia. cbn [mbind result_bind].
  set (c0 := {| chunk_text_ := _; start_token := start; end_token := e |}).
  destruct (Nat.eqb_spec e (length ts)) as [He|He].
  - exists [c0]. split; [done|]. split; [done|]. intros [|i] c [= <-].
    split_and!; try done; cbn; lia.
  - destruct (IH (start + step) (acc ++ [c0])) as (cs & -> & [Hne Hcs]); [lia|lia|].
    exists (c0 :: cs). rewrite <- app_assoc. split; [done|]. split; [done|]. intros [|i] c Hi.
    + injection Hi as <-. cbn. split_and!; [lia|done|done|done|].
      split; [done|]. intros [= E]. by destruct cs.
    + cbn in Hi. destruct (Hcs i c Hi) as (? & ? & ? & ? & Hl). split_and!; try done; [lia|].
      rewrite Hl. cbn. lia.
Qed.

Lemma step_pos cfg : 0 < eff_window cfg - eff_overlap cfg ≤ eff_window cfg ∧ eff_overlap cfg < eff_window cfg.
Proof.
  unfold eff_overlap, eff_window. destruct (Nat.eqb_spec (window cfg) 0);
    [destruct (Nat.leb_spec 1 (overlap cfg))|destruct (Nat.leb_spec (window cfg) (overlap cfg))]; lia.
Qed.

Lemma chunk_text_cases text cfg :
  tokenize text = [] ∧ chunk_text text cfg = Ok [] ∨
  tokenize text ≠ [] ∧ ∃ cs, chunk_text text cfg = Ok cs ∧
    windows (tokenize text) (eff_window cfg) (eff_window cfg - eff_overlap cfg) 0 cs.
Proof.
  unfold chunk_text. destruct (tokenize text) as [|t ts] eqn:E; [by left|right]. split; [done|].
  rewrite <- E. destruct (step_pos cfg) as [Hstep _].
  destruct (chunk_loop_spec (tokenize text) (eff_window cfg) (eff_window cfg - eff_overlap cfg)
    (length (tokenize text) + 1) 0 [] Hstep) as (cs & -> & Hw); [rewrite E; cbn; lia|lia|].
  by exists cs.
Qed.

(** C26: the chunker ends and cuts the tokens of the text into overlapping windows:
    chunk [i] starts at token [i * (window - overlap)], holds [window] tokens or
    the rest, and its text reads back as exactly these tokens; each chunk shares
    [overlap] tokens with the next, the last one ends with the text, every token
    is in a chunk, and a text not longer than the window gives a single chunk.
    (A window of 0 counts as 1, an overlap of at least the window as one less.) *)
Theorem chunk_text_windows (text : string) (cfg : ChunkConfig) :
  let ts := tokenize text in
  let win := eff_window cfg in
  let ov := eff_overlap cfg in
  ∃ cs, chunk_text text cfg = Ok cs ∧ (cs = [] ↔ ts = []) ∧
    (∀ i c, cs !! i = Some c →
       start_token c = i * (win - ov) ∧ end_token c = Nat.min (start_token c + win) (length ts) ∧
       start_token c < end_token c ∧
       tokenize (chunk_text_ c) = slice ts (start_token c) (end_token c)) ∧
    (∀ i c c', cs !! i = Some c → cs !! S i = Some c' → start_token c' + ov = end_token c) ∧
    (∀ c, last cs = Some c → end_token c = length ts) ∧
    (∀ j, j < length ts → ∃ c, c ∈ cs ∧ start_token c ≤ j < end_token c) ∧
    (0 < length ts ≤ win → length cs = 1).
Proof.
  intros ts win ov. destruct (step_pos cfg) as [Hstep Hov]. fold win ov in Hstep, Hov.
  destruct (chunk_text_cases text cfg) as [[E ->]|(Hne & cs & -> & [Hcs Hw])].
  { exists []. unfold ts. rewrite E. split_and!; try done; cbn; lia. }
  fold ts win ov in Hne, Hw. exists cs. pose proof (tokenize_tokens text) as Htok. fold ts in Htok.
  split_and!; [done|by split; intros ?| | | | |].
  - intros i c Hi. destruct (Hw i c Hi) as (Hs & He & Hlt & Ht & _). split_and!; [lia|done|lia|].
    rewrite Ht. apply tokenize_concat. unfold slice. apply Forall_take, Forall_drop, Htok.
  - intros i c c' Hi Hi'. destruct (Hw i c Hi) as (Hs & He & Hlt & _ & Hl). destruct (Hw _ _ Hi') as (Hs' & _).
    pose proof (lookup_lt_Some _ _ _ Hi'). assert (end_token c ≠ length ts) by (rewrite Hl; lia). nia.
  - intros c Hc. rewrite last_lookup in Hc. destruct (Hw _ _ Hc) as (_ & _ & _ & _ & Hl). apply Hl.
    pose proof (lookup_lt_Some _ _ _ Hc). lia.
  - intros j Hj. set (i := Nat.min (j / (win - ov)) (length cs - 1)).
    assert (length cs ≠ 0) as Hlc by (by destruct cs).
    destruct (lookup_lt_is_Some_2 cs i) as [c Hc]; [lia|]. exists c. split; [by eapply list_elem_of_lookup_2|].
    destruct (Hw i c Hc) as (Hs & He & _ & _ & Hl). cbn in Hs.
    pose proof (Nat.div_mod j (win - ov) ltac:(lia)). pose proof (Nat.mod_upper_bound j (win - ov) ltac:(lia)).
    destruct (decide (j / (win - ov) ≤ length cs - 1)).
    + assert (i = j / (win - ov)) as Ei by lia. rewrite Ei in Hs. nia.
    + assert (S i = length cs) as Ei by lia. apply Hl in Ei. split; [|lia]. rewrite Hs.
      assert (i ≤ j / (win - ov)) by lia. nia.
  - intros Hlen. destruct cs as [|c cs]; [done|]. destruct (Hw 0 c eq_refl) as (Hs & He & _ & _ & Hl).
    destruct Hl as [Hl _]. cbn in Hl, Hs. cbn. rewrite Hl; lia.
Qed.

(** ** The prompt and its budget *)

(** The chunks that [fill_context] takes. *)
Fixpoint included (available : nat) (chunks : list RetrievedChunk) (used : nat) : list RetrievedChunk :=
  match chunks with
  | [] => []
  | c :: cs =>
      let cost := approx_tokens (rc_text c) in
      if available <? used + cost then [] else c :: included available cs (used + cost)
  end.

Definition cost_of (cs : list RetrievedChunk) : nat := sum_list_with (λ c, approx_tokens (rc_text c)) cs.

(** The lines of the context. *)
Fixpoint bullets (cs : list RetrievedChunk) (rest : string) : string :=
  match cs with
  | [] => rest
  | c :: cs => "-" +:+ String " " (rc_text c +:+ String newline (bullets cs rest))
  end.

Lemma fill_context_bullets available cs ctx used rest :
  fill_context available cs ctx used +:+ rest = ctx +:+ bullets (included available cs used) rest.
Proof.
  revert ctx used. induction cs as [|c cs IH]; intros ctx used; cbn [fill_context included]; [done|].
  cbv zeta.
  destruct (available <? used + approx_tokens (rc_text c)); [done|]. rewrite IH. unfold push_back. cbn [bullets].
  by rewrite !append_assoc, !append_cons, !append_nil.
Qed.

Lemma tokenize_bullets cs rest :
  approx_tokens (bullets cs rest) = length cs + cost_of cs + approx_tokens rest.
Proof.
  unfold approx_tokens, cost_of. induction cs as [|c cs IH]; [done|]. cbn [bullets sum_list_with length].
  rewrite !tokenize_split, !length_app, IH by done. change (length (tokenize "-")) with 1. fold (approx_tokens (rc_text c)). lia.
Qed.

(** The included chunks are the longest affordable prefix. *)
Lemma included_spec available cs used :
  used ≤ available →
  ∃ rest, cs = included available cs used ++ rest ∧ used + cost_of (included available cs used) ≤ available ∧
    ∀ c rest', rest = c :: rest' → available < used + cost_of (included available cs used) + approx_tokens (rc_text c).
Proof.
  unfold cost_of. revert used. induction cs as [|c cs IH]; intros used Hu; cbn [included].
  { exists []. split_and!; [done|cbn; lia|done]. }
  cbv zeta. destruct (Nat.ltb_spec available (used + approx_tokens (rc_text c))).
  - exists (c :: cs). split_and!; [done|cbn; lia|]. intros ? ? [= -> ->]. cbn. lia.
  - destruct (IH (used + approx_tokens (rc_text c))) as (rest & Hr & Hle & Hmax); [lia|].
    exists rest. cbn. split_and!; [by rewrite <- Hr|lia|]. intros x rest' Hx. specialize (Hmax x rest' Hx). lia.
Qed.

(** The text of the head before its last newline. *)
Definition head_text : string :=
  Eval vm_compute in
    (push_back (push_back "You are a helpful assistant. Answer using only the context below." newline) newline
     +:+ "Context:").

Lemma prompt_head_eq : prompt_head = head_text +:+ String newline "".
Proof. by vm_compute. Qed.

(** The chunks that a prompt includes. *)
Definition in_prompt (budget : nat) (query : string) (chunks : list RetrievedChunk) : list RetrievedChunk :=
  included (budget - (approx_tokens query + kScaffoldTokens)) chunks 0.

Lemma build_tokens budget query chunks :
  let inc := in_prompt budget query chunks in
  approx_tokens (build budget query chunks) = 14 + approx_tokens query + length inc + cost_of inc.
Proof.
  cbn zeta. unfold build, in_prompt. cbn zeta.
  replace (if approx_tokens query + kScaffoldTokens <? budget then budget - (approx_tokens query + kScaffoldTokens) else 0)
    with (budget - (approx_tokens query + kScaffoldTokens))
    by (destruct (Nat.ltb_spec (approx_tokens query + kScaffoldTokens) budget); lia).
  rewrite prompt_head_eq, append_assoc, append_cons, append_nil, fill_context_bullets, append_nil.
  unfold approx_tokens at 1. rewrite tokenize_split, length_app by done. fold (approx_tokens (bullets
    (included (budget - (approx_tokens query + kScaffoldTokens)) chunks 0)
    (String newline "Question: " +:+ (query +:+ String newline "Answer:")))).
  rewrite tokenize_bullets.
  assert (approx_tokens (String newline "Question: " +:+ (query +:+ String newline "Answer:")) = 2 + approx_tokens query)
    as ->; [|change (length (tokenize head_text)) with 12; lia].
  change (String newline "Question: " +:+ (query +:+ String newline "Answer:"))
    with ("" +:+ String newline ("Question:" +:+ String " " (query +:+ String newline "Answer:"))).
  unfold approx_tokens. rewrite !tokenize_split, !length_app by done.
  change (length (tokenize "")) with 0. change (length (tokenize "Question:")) with 1.
  change (length (tokenize "Answer:")) with 1. lia.
Qed.

(** Within a budget that covers the reserve, ten chunks never overrun it. *)
Lemma build_within budget query chunks :
  approx_tokens query + kScaffoldTokens ≤ budget → length (in_prompt budget query chunks) ≤ 10 →
  approx_tokens (build budget query chunks) ≤ budget.
Proof.
  intros Hb Hl. rewrite build_tokens. cbn zeta. unfold in_prompt in *.
  destruct (included_spec (budget - (approx_tokens query + kScaffoldTokens)) chunks 0) as (rest & _ & Hle & _); [lia|].
  unfold kScaffoldTokens in *. lia.
Qed.

Lemma in_prompt_length budget query chunks : length (in_prompt budget query chunks) ≤ length chunks.
Proof.
  unfold in_prompt. destruct (included_spec (budget - (approx_tokens query + kScaffoldTokens)) chunks 0)
    as (rest & Hr & _); [lia|]. rewrite Hr at 2. rewrite length_app. lia.
Qed.

(** A line of the context. *)
Definition bullet (c : RetrievedChunk) : string := "- " +:+ rc_text c +:+ String newline "".

(** The prompt with these lines. *)
Definition prompt_text (lines : list string) (query : string) : string :=
  let nl := String newline "" in
  "You are a helpful assistant. Answer using only the context below." +:+ nl +:+ nl +:+
  "Context:" +:+ nl +:+ String.concat "" lines +:+
  nl +:+ "Question: " +:+ query +:+ nl +:+ "Answer:".

Lemma bullets_concat cs rest : bullets cs rest = String.concat "" (bullet <$> cs) +:+ rest.
Proof.
  induction cs as [|c cs IH]; [done|].
  assert (String.concat "" (bullet <$> c :: cs) = bullet c +:+ String.concat "" (bullet <$> cs)) as ->.
  { destruct cs as [|c' cs]; [by rewrite append_nil_r|done]. }
  cbn [bullets]. rewrite IH. unfold bullet. by rewrite !append_assoc, !append_cons, !append_nil.
Qed.

Lemma build_text budget query chunks :
  build budget query chunks = prompt_text (bullet <$> in_prompt budget query chunks) query.
Proof.
  unfold build, in_prompt, prompt_text. cbn zeta.
  replace (if approx_tokens query + kScaffoldTokens <? budget then budget - (approx_tokens query + kScaffoldTokens) else 0)
    with (budget - (approx_tokens query + kScaffoldTokens))
    by (destruct (Nat.ltb_spec (approx_tokens query + kScaffoldTokens) budget); lia).
  rewrite fill_context_bullets, append_nil, bullets_concat. unfold prompt_head, push_back.
  by rewrite !append_assoc, !append_cons, !append_nil.
Qed.

(** C29: a prompt is the template with one line, a bullet and the chunk's own
    text, for each chunk of a prefix of the retrieved chunks, in their order. The
    prefix is the longest whose tokens fit in what the budget leaves beside the
    query and 24 reserved tokens. The exact size of the prompt is 14 tokens of
    template, the query, and one more token than its own for each chunk; so it
    stays within a budget that covers the reserve as long as it includes at most
    ten chunks, and exceeds one that they fill when it includes more. *)
Theorem prompt_budget (budget : nat) (query : string) (chunks : list RetrievedChunk) :
  let available := budget - (approx_tokens query + kScaffoldTokens) in
  let prompt := build budget query chunks in
  ∃ inc rest, chunks = inc ++ rest ∧
    prompt = prompt_text (bullet <$> inc) query ∧
    cost_of inc ≤ available ∧
    (∀ c rest', rest = c :: rest' → available < cost_of inc + approx_tokens (rc_text c)) ∧
    approx_tokens prompt = 14 + approx_tokens query + length inc + cost_of inc ∧
    (approx_tokens query + kScaffoldTokens ≤ budget → length inc ≤ 10 → approx_tokens prompt ≤ budget) ∧
    (approx_tokens query + kScaffoldTokens + cost_of inc = budget → 10 < length inc → budget < approx_tokens prompt).
Proof.
  cbn zeta. destruct (included_spec (budget - (approx_tokens query + kScaffoldTokens)) chunks 0)
    as (rest & Hr & Hle & Hmax); [lia|].
  exists (in_prompt budget query chunks), rest.
  split_and!; [done|apply build_text|done|done|apply build_tokens|apply build_within|].
  rewrite build_tokens. cbn zeta. unfold in_prompt, kScaffoldTokens. lia.
Qed.

(** A defect of the budget: the bullets of the context are not counted. With
    more than ten chunks the prompt exceeds a budget that covers query,
    scaffolding and all chunks. *)
Theorem prompt_overruns_budget :
  ∃ (budget : nat) (query : string) (chunks : list RetrievedChunk),
    approx_tokens query + kScaffoldTokens + cost_of chunks = budget ∧
    budget < approx_tokens (build budget query chunks).
Proof.
  exists 36, "why", (replicate 11 {| doc_id := "d"; rc_text := "word"; rc_score := f_zero |}). by vm_compute; lia.
Qed.
End Text.
