(* ===== verification/Embedding.v ===== *)
(** * Embeddings ([rag.hpp], [rag.cpp])

    The interface [EmbeddingModel] and the model that the sources define,
    [MockEmbeddingModel]: signed feature hashing of the tokens. *)
From Stdlib Require Import Strings.Ascii.
From Stdlib Require Import Floats.SpecFloat.
From S2P Require Import Prelude Binary Distance Text.
Local Open Scope nat_scope.

Class EmbeddingModel := {
  em_dim : Dim;
  embed : string → result (list word32);
}.

(** What a client relies on: every text has a vector of the model's dimension,
    among the [valid] ones. *)
Class EmbeddingLaws (E : EmbeddingModel) (valid : list word32 → Prop) : Prop := {
  em_dim_pos : (0 < em_dim)%N;
  em_dim_u32 : (em_dim < 2 ^ 32)%N;
  embed_valid text : ∃ v, embed text = Ok v ∧ length v = N.to_nat em_dim ∧ valid v;
}.

Module Mock.
Section Mock.
Variable dim_ : Dim.

(** [fnv1a]: [std::uint64_t] wraps around. *)
Definition fnv_step (h : N) (c : ascii) : N := (N.lxor h (N_of_ascii c) * 1099511628211 mod 2 ^ 64)%N.

Fixpoint fnv_loop (s : string) (h : N) : N :=
  match s with EmptyString => h | String c s => fnv_loop s (fnv_step h c) end.

Definition fnv1a (s : string) : N := fnv_loop s 1469598103934665603.

Definition f_minus_one : Score := SFopp f_one.

(** [h % dim_] *)
Definition bucket (h : N) : result nat :=
  if decide (dim_ = 0%N) then Throw undefined_behaviour else Ok (N.to_nat (h mod dim_)).

(** The body of the loop over the tokens. *)
Definition add_token (v : list word32) (tok : string) : result (list word32) :=
  if String.length tok <? 3 then Ok v
  else
    let h := fnv1a tok in
    idx ← bucket h;
    let sign := if N.testbit (N.shiftr h 63) 0 then f_one else f_minus_one in
    x ← at_ v idx;
    set_at v idx (float_of (fadd (f_load x) sign)).

Fixpoint add_tokens (v : list word32) (toks : list string) : result (list word32) :=
  match toks with
  | [] => Ok v
  | tok :: toks => v' ← add_token v tok; add_tokens v' toks
  end.

(** [static_cast<double>(float)] and [static_cast<float>(double)]. *)
Definition double_of_float (x : spec_float) : spec_float :=
  match x with S754_finite s m e => binary_normalize 53 1024 (cond_Zopp s (Zpos m)) e s | _ => x end.
Definition float_of_double (x : spec_float) : spec_float :=
  match x with S754_finite s m e => binary_normalize 24 128 (cond_Zopp s (Zpos m)) e s | _ => x end.

Definition norm_step (acc : spec_float) (x : word32) : spec_float :=
  let d := double_of_float (f_load x) in dadd acc (dmul d d).

Definition normalize (v : list word32) : list word32 :=
  let norm_sq := foldl norm_step (S754_zero false) v in
  if flt (S754_zero false) norm_sq then
    let inv := float_of_double (ddiv d_one (dsqrt norm_sq)) in
    (λ x, float_of (fmul (f_load x) inv)) <$> v
  else v.

Definition mock_embed (text : string) : result (list word32) :=
  v ← add_tokens (replicate (N.to_nat dim_) (float_of f_zero)) (Text.tokenize text);
  Ok (normalize v).

#[export] Instance mock_model : EmbeddingModel := {| em_dim := dim_; embed := mock_embed |}.

(** ** The loop and its effect *)

Context (Hdim : (0 < dim_)%N).

(** A token that counts adds one, with the sign of its hash, to one element. *)
Lemma add_token_spec v tok :
  length v = N.to_nat dim_ →
  add_token v tok =
  Ok (if String.length tok <? 3 then v
      else let h := fnv1a tok in
        alter (λ x, float_of (fadd (f_load x) (if N.testbit (N.shiftr h 63) 0 then f_one else f_minus_one)))
          (N.to_nat (h mod dim_)) v).
Proof.
  intros Hl. unfold add_token. destruct (String.length tok <? 3); [done|].
  unfold bucket. rewrite decide_False by lia. cbn [mbind result_bind].
  assert (fnv1a tok mod dim_ < dim_)%N as Hm by (apply N.mod_lt; lia).
  destruct (at_lt v (N.to_nat (fnv1a tok mod dim_))) as (x & -> & Hx); [lia|]. cbn [mbind result_bind].
  rewrite set_at_lt by lia. f_equal. apply list_eq. intros j.
  destruct (decide (j = N.to_nat (fnv1a tok mod dim_))) as [->|Hj].
  - by rewrite list_lookup_insert_eq, list_lookup_alter_eq, Hx by lia.
  - by rewrite list_lookup_insert_ne, list_lookup_alter_ne.
Qed.

Lemma normalize_length v : length (normalize v) = length v.
Proof. unfold normalize. destruct (flt _ _); [apply length_fmap|done]. Qed.

(** Short tokens and everything that tokenizing drops have no influence. *)
Definition counted (toks : list string) : list string := filter (λ t, 3 ≤ String.length t) toks.

End Mock.
End Mock.
