(* ===== verification/EmbeddingBounds.v ===== *)
(** * The hashing model keeps the embedding contract

    Before normalizing, the elements are the signed counts of the tokens of each
    bucket, held exactly up to [2^24]; after it they are bounded, so that every
    metric is tame on the vectors of the model. *)
From Stdlib Require Import Strings.Ascii.
From S2P Require Import Prelude Binary Rounding Distance StdQueue VectorStore StoreSpec Index DistanceBounds.
From S2P Require Import Text Embedding.
Local Open Scope Z_scope.
Import Mock.

(** ** Counting with floats *)

Lemma f_of_int_small z :
  z ≠ 0 → Z.abs z < 2 ^ 24 →
  ∃ m, f_of_int z = S754_finite (z <? 0) m (Zdigits2 (Z.abs z) - 24) ∧ Zpos m = Z.abs z * 2 ^ (24 - Zdigits2 (Z.abs z)).
Proof.
  intros Hz Hb. unfold f_of_int. destruct z as [|p|p]; [done|..]; cbn [binary_normalize];
    [destruct (binary_round_scaled false (Zpos p) 0 p) as (m & H & Hm)
    |destruct (binary_round_scaled true (Zpos p) 0 p) as (m & H & Hm)]; try lia; by exists m.
Qed.

(** The largest count that a float holds exactly with all smaller ones. *)
Definition clamp (z : Z) : Z := Z.max (- 2 ^ 24) (Z.min (2 ^ 24) z).

Lemma count_sum_small n u :
  Z.abs n < 2 ^ 24 → u = 1 ∨ u = -1 → Z.abs (n + u) < 2 ^ 24 → fadd (f_of_int n) (f_of_int u) = f_of_int (n + u).
Proof.
  intros Hn Hu Hb. destruct (decide (n = 0)) as [->|Hn0]; [by destruct Hu as [-> | ->]; vm_compute|].
  destruct (f_of_int_small n Hn0 Hn) as (m & -> & Hm).
  assert (f_of_int u = S754_finite (u <? 0) 8388608 (-23)) as -> by (by destruct Hu as [-> | ->]; vm_compute).
  destruct (digits_bounds (Z.abs n)) as [[Hd _] Hd1]; [lia|].
  assert (Zdigits2 (Z.abs n) <= 24) as Hd24.
  { assert (2 ^ (Zdigits2 (Z.abs n) - 1) < 2 ^ 24) as Hlt by lia. apply Z.pow_lt_mono_r_iff in Hlt; lia. }
  set (d := Zdigits2 (Z.abs n)) in *. unfold fadd, SFadd.
  destruct (align_min (n <? 0) m (d - 24) (-23)) as (a & -> & Ha).
  rewrite (Z.min_comm (d - 24)). destruct (align_min (u <? 0) 8388608 (-23) (d - 24)) as (c & -> & Hc).
  rewrite Z.min_comm in Ha. replace (Z.min (-23) (d - 24)) with (-23) in * by lia.
  assert (cond_Zopp (n <? 0) a + cond_Zopp (u <? 0) c = (n + u) * 2 ^ 23) as ->.
  { rewrite Hm, <- Z.mul_assoc, <- pow2_add in Ha by lia. replace (24 - d + (d - 24 - -23)) with 23 in Ha by lia.
    change (Zpos 8388608 * 2 ^ (-23 - -23)) with (2 ^ 23) in Hc. set (T := 2 ^ 23) in *. rewrite Ha, Hc.
    destruct (Z.ltb_spec n 0), (Z.ltb_spec u 0); cbn [cond_Zopp]; lia. }
  unfold f_of_int. destruct (n + u) as [|p|p] eqn:E; [done|..]; cbn [binary_normalize].
  - change (Zpos p * 2 ^ 23) with (Zpos (p * 8388608)).  cbn [binary_normalize].
    destruct (binary_round_scaled false (Zpos p) 0 p) as (m1 & Hr1 & Hm1); [lia..|].
    destruct (binary_round_scaled false (Zpos p) 23 (p * 8388608)) as (m2 & Hr & Hm2); [lia..|].
    change (- (23)) with (-23) in Hr. change (- 0) with 0 in Hr1. rewrite Hr, Hr1. f_equal. congruence.
  - change (Zneg p * 2 ^ 23) with (Zneg (p * 8388608)). cbn [binary_normalize].
    destruct (binary_round_scaled true (Zpos p) 0 p) as (m1 & Hr1 & Hm1); [lia..|].
    destruct (binary_round_scaled true (Zpos p) 23 (p * 8388608)) as (m2 & Hr & Hm2); [lia..|].
    change (- (23)) with (-23) in Hr. change (- 0) with 0 in Hr1. rewrite Hr, Hr1. f_equal. congruence.
Qed.

(** Adding one to a count, or subtracting one; at the limit it stays. *)
Lemma count_sum n u :
  Z.abs n <= 2 ^ 24 → u = 1 ∨ u = -1 → fadd (f_of_int n) (f_of_int u) = f_of_int (clamp (n + u)).
Proof.
  intros Hn Hu. destruct (decide (Z.abs n < 2 ^ 24 ∧ Z.abs (n + u) < 2 ^ 24)) as [[H1 H2]|Hlim].
  - rewrite count_sum_small by done. f_equal. unfold clamp. lia.
  - assert (n = 2 ^ 24 ∨ n = - 2 ^ 24 ∨ n = 2 ^ 24 - 1 ∨ n = - (2 ^ 24 - 1)) as H by lia.
    destruct H as [-> |[-> |[-> | ->]]], Hu as [-> | ->]; try (by vm_compute);
      rewrite count_sum_small; by vm_compute.
Qed.

Lemma f_of_int_valid z : valid_binary 24 128 (f_of_int z).
Proof. by apply binary_normalize_valid. Qed.

Lemma f_of_int_bound z : Z.abs z <= 2 ^ 24 → fle (f_of_int z) 1 24.
Proof.
  intros Hz. apply binary_normalize_upper; [done|done|by vm_compute|done|].
  unfold le2. change (2 ^ Z.max 0 (24 - 0)) with (2 ^ 24). change (2 ^ Z.max 0 (0 - 24)) with 1. lia.
Qed.

Lemma load_count z : Z.abs z <= 2 ^ 24 → f_load (float_of (f_of_int z)) = f_of_int z.
Proof. intros Hz. apply float_val_of; [apply f_of_int_valid|by eapply fle_finite, f_of_int_bound]. Qed.

(** ** The elements are the counts of their buckets *)

Section Count.
Context (dim_ : Dim) (Hdim : (0 < dim_)%N).

(** The sign and the element of a token. *)
Definition token_sign (tok : string) : Z := if N.testbit (N.shiftr (fnv1a tok) 63) 0 then 1 else -1.
Definition token_bucket (tok : string) : nat := N.to_nat (fnv1a tok mod dim_).

Definition hold (z : Z) : word32 := float_of (f_of_int z).

(** A token on the counts. *)
Definition count_token (c : list Z) (tok : string) : list Z :=
  if (String.length tok <? 3)%nat then c else alter (λ n, clamp (n + token_sign tok)) (token_bucket tok) c.

Definition bounded_counts (c : list Z) : Prop := length c = N.to_nat dim_ ∧ Forall (λ n, Z.abs n <= 2 ^ 24) c.

Lemma Forall_alter_weak {A} (P : A → Prop) f i (l : list A) : (∀ x, P x → P (f x)) → Forall P l → Forall P (alter f i l).
Proof. intros Hf Hl. revert i. induction Hl as [|x l Hx Hl IH]; intros [|i]; cbn; try constructor; auto. Qed.

Lemma count_token_bounded c tok : bounded_counts c → bounded_counts (count_token c tok).
Proof.
  intros [Hl Hb]. unfold count_token. destruct (String.length tok <? 3)%nat; [by split|].
  split; [by rewrite length_alter|]. apply Forall_alter_weak; [|done]. intros n _. unfold clamp. lia.
Qed.

Lemma alter_fmap_Forall {A B} (P : A → Prop) (f : A → B) g h i (l : list A) :
  (∀ x, P x → g (f x) = f (h x)) → Forall P l → alter g i (f <$> l) = f <$> alter h i l.
Proof.
  intros Hg Hl. revert i. induction Hl as [|x l Hx Hl IH]; intros [|i]; cbn; try done.
  - by rewrite Hg.
  - f_equal. apply IH.
Qed.

Lemma add_token_count c tok :
  bounded_counts c → add_token dim_ (hold <$> c) tok = Ok (hold <$> count_token c tok).
Proof.
  intros [Hl Hb]. rewrite add_token_spec by (done || by rewrite length_fmap). f_equal. unfold count_token.
  destruct (String.length tok <? 3)%nat; [done|]. cbv zeta. eapply alter_fmap_Forall; [|exact Hb].
  intros n Hn. unfold hold. rewrite load_count by done. f_equal. unfold token_sign.
  destruct (N.testbit _ _); [change f_one with (f_of_int 1)|change f_minus_one with (f_of_int (-1))];
    apply count_sum; auto.
Qed.

Lemma add_tokens_count toks c :
  bounded_counts c → add_tokens dim_ (hold <$> c) toks = Ok (hold <$> foldl count_token c toks) ∧
    bounded_counts (foldl count_token c toks).
Proof.
  revert c. induction toks as [|tok toks IH]; intros c Hc; [done|]. cbn [add_tokens foldl].
  rewrite add_token_count by done. apply IH. by apply count_token_bounded.
Qed.

Definition counts_of (text : string) : list Z :=
  foldl count_token (replicate (N.to_nat dim_) 0) (Text.tokenize text).

Lemma zero_counts : bounded_counts (replicate (N.to_nat dim_) 0).
Proof. split; [by rewrite length_replicate|]. apply Forall_replicate. lia. Qed.

Lemma mock_embed_counts text :
  mock_embed dim_ text = Ok (normalize (hold <$> counts_of text)) ∧ bounded_counts (counts_of text).
Proof.
  destruct (add_tokens_count (Text.tokenize text) _ zero_counts) as [H Hb]. split; [|done].
  unfold mock_embed. change (float_of f_zero) with (hold 0). rewrite <- fmap_replicate, H. done.
Qed.

(** *** Below the limit the order of the tokens does not matter *)

Definition tally (toks : list string) (i : nat) : Z :=
  foldr (λ tok n, n + if decide (token_bucket tok = i) then token_sign tok else 0) 0 (counted toks).

Lemma tally_perm toks toks' i : counted toks ≡ₚ counted toks' → tally toks i = tally toks' i.
Proof.
  unfold tally. intros H. induction H; cbn [foldr]; lia.
Qed.

Lemma tally_le toks i : Z.abs (tally toks i) <= Z.of_nat (length (counted toks)).
Proof.
  unfold tally. induction (counted toks) as [|tok l IH]; [done|]. cbn [foldr length].
  assert (Z.abs (token_sign tok) = 1) by (unfold token_sign; by destruct (N.testbit _ _)).
  case_decide; lia.
Qed.

Lemma counted_snoc toks tok :
  counted (toks ++ [tok]) = counted toks ++ if (String.length tok <? 3)%nat then [] else [tok].
Proof.
  unfold counted. rewrite filter_app. f_equal. destruct (Nat.ltb_spec (String.length tok) 3).
  - by rewrite filter_cons_False by lia.
  - by rewrite filter_cons_True by lia.
Qed.

Lemma counts_tally toks :
  Z.of_nat (length (counted toks)) < 2 ^ 24 →
  foldl count_token (replicate (N.to_nat dim_) 0) toks = tally toks <$> seq 0 (N.to_nat dim_).
Proof.
  induction toks as [|tok toks IH] using rev_ind; intros Hlen.
  { cbn [foldl]. apply list_eq. intros i. rewrite list_lookup_fmap.
    destruct (decide (i < N.to_nat dim_)%nat) as [Hi|]; [by rewrite lookup_seq_lt, lookup_replicate_2|].
    rewrite !lookup_ge_None_2; [done|rewrite length_seq; lia|rewrite length_replicate; lia]. }
  rewrite counted_snoc, length_app in Hlen. rewrite foldl_snoc, IH by lia. unfold count_token.
  destruct (Nat.ltb_spec (String.length tok) 3) as [Hs|Hs].
  { apply list_fmap_ext. intros i x _. unfold tally. by rewrite counted_snoc, (proj2 (Nat.ltb_lt _ _) Hs), app_nil_r. }
  apply list_eq. intros i. destruct (decide (i < N.to_nat dim_)%nat) as [Hi|].
  2:{ rewrite !lookup_ge_None_2; [done|rewrite length_fmap, length_seq; lia|rewrite length_alter, length_fmap, length_seq; lia]. }
  rewrite (list_lookup_fmap _ (seq _ _)), lookup_seq_lt by done. cbn [fmap option_fmap option_map Nat.add].
  assert (tally (toks ++ [tok]) i = tally toks i + if decide (token_bucket tok = i) then token_sign tok else 0) as ->.
  { unfold tally at 1. rewrite counted_snoc, (proj2 (Nat.ltb_ge _ _) Hs), foldr_app. cbn [foldr]. unfold tally.
    generalize (if decide (token_bucket tok = i) then token_sign tok else 0). intros z. clear IH Hlen.
    induction (counted toks) as [|t l IHl]; cbn [foldr]; [lia|rewrite IHl; lia]. }
  destruct (decide (token_bucket tok = i)) as [->|Hne].
  - rewrite list_lookup_alter_eq, list_lookup_fmap, lookup_seq_lt by done. cbn. f_equal.
    pose proof (tally_le toks i). cbn [length] in Hlen.
    assert (Z.abs (token_sign tok) = 1) by (unfold token_sign; by destruct (N.testbit _ _)). unfold clamp. lia.
  - rewrite list_lookup_alter_ne, list_lookup_fmap, lookup_seq_lt by done. cbn. f_equal. lia.
Qed.
End Count.

(** ** Normalizing *)

(** Doubles: the double of a count, and its square. *)
Lemma binary_round_opp prec emax s p e : binary_round prec emax (negb s) p e = SFopp (binary_round prec emax s p e).
Proof.
  unfold binary_round. destruct (shl_align _ _ _) as [mz ez]. unfold binary_round_aux.
  destruct (shr_fexp _ _ _ ez _) as [? e']. destruct (shr_fexp _ _ _ e' _) as [r e'']. destruct (shr_m r); [done| |done].
  by destruct (_ <=? _).
Qed.

Lemma double_count n :
  Z.abs n <= 2 ^ 24 →
  n = 0 ∧ double_of_float (f_of_int n) = S754_zero false ∨
  n ≠ 0 ∧ ∃ s m e, double_of_float (f_of_int n) = S754_finite s m e ∧ le2 1 0 (Zpos m) e ∧ le2 (Zpos m) e 1 24.
Proof.
  intros Hn. destruct (decide (n = 0)) as [->|Hn0]; [by left|right; split; [done|]].
  pose proof (f_of_int_bound n Hn) as Hb.
  assert (∃ s m e, f_of_int n = S754_finite s m e ∧ le2 1 0 (Zpos m) e) as (s & m & e & E & Hge).
  { assert (Z.abs n < 2 ^ 24 ∨ n = 2 ^ 24 ∨ n = - 2 ^ 24) as [Hlt|[-> | ->]] by lia;
      [|eexists _, _, _; split; [vm_compute; reflexivity|by vm_compute]..].
    destruct (f_of_int_small n Hn0 Hlt) as (m & -> & Hm). destruct (digits_bounds (Z.abs n)) as [[Hd _] Hd1]; [lia|].
    assert (Zdigits2 (Z.abs n) <= 24) as Hd24.
    { assert (2 ^ (Zdigits2 (Z.abs n) - 1) < 2 ^ 24) as Hl by lia. apply Z.pow_lt_mono_r_iff in Hl; lia. }
    eexists _, m, _. split; [done|]. rewrite Hm. apply le2_shift_r; [lia|].
    replace (Zdigits2 (Z.abs n) - 24 + (24 - Zdigits2 (Z.abs n))) with 0 by lia.
    apply (le2_mono 1 (Z.abs n)); [lia|apply le2_refl]. }
  rewrite E in Hb. cbn [fle] in Hb. rewrite E.
  assert (e < 1 + 24) as He by (apply (le2_exp (Zpos m) e 1); try lia; done).
  assert (fge (binary_round 53 1024 false m e) 1 0) as H1 by (apply binary_round_lower; [done|done|by vm_compute|done]).
  assert (fle (binary_round 53 1024 false m e) 1 24) as H2
    by (apply binary_round_upper; [done|done|by vm_compute|change (1024 - 53) with 971; lia|done]).
  destruct (binary_round 53 1024 false m e) as [| | |s' m' e'] eqn:Er; try done. cbn [fle] in H2.
  destruct s'; [done|]. cbn [fge] in H1. exists s, m', e'. split; [|done].
  destruct s; [|done]. change (double_of_float (S754_finite true m e)) with (binary_normalize 53 1024 (Zneg m) e true).
  cbn [binary_normalize].
  pose proof (binary_round_opp 53 1024 false m e) as Ho. cbn [negb] in Ho. by rewrite Ho, Er.
Qed.

(** The accumulator after [n] elements: a sum of squares of counts. *)
Record norm_acc (n : Z) (acc : spec_float) : Prop := {
  na_sign : has_sign false acc;
  na_upper : fle acc n 48;
  na_lower : acc = S754_zero false ∨ fge acc 1 0;
}.

Lemma norm_step_acc n acc z :
  0 <= n → n + 1 < 2 ^ 53 → Z.abs z <= 2 ^ 24 → norm_acc n acc → norm_acc (n + 1) (norm_step acc (hold z)).
Proof.
  intros Hn Hb Hz [Hs Hu Hl]. unfold norm_step, hold. rewrite load_count by done. cbv zeta.
  destruct (double_count z Hz) as [[-> E]|(Hz0 & s & m & e & E & H1 & H2)]; rewrite E.
  - assert (dadd acc (dmul (S754_zero false) (S754_zero false)) = acc) as ->.
    { destruct acc as [[]|[]| |[] ? ?]; try done. }
    split; [done|by apply (fle_mono _ n); [lia|]|done].
  - set (sq := dmul _ _).
    assert (has_sign false sq) as Hsq.
    { unfold sq, dmul; cbn [SFmul]. rewrite xorb_nilpotent. by apply binary_round_aux_sign. }
    assert (fge sq 1 0) as Hge by by apply SFmul_square_lower.
    assert (fle sq 1 48) as Hle.
    { apply (SFmul_upper 53 1024) with (b1 := 1) (k1 := 24) (b2 := 1) (k2 := 24); by vm_compute || done. }
    assert (has_sign false (dadd acc sq)) as Hsum by by apply SFadd_sign.
    split; [done| |right].
    + apply SFadd_upper; try done; change (emin 53 1024) with (-1074); lia.
    + apply SFadd_lower; try done; try (by vm_compute). by right.
Qed.

Lemma norm_sq_acc c acc n :
  0 <= n → n + Z.of_nat (length c) < 2 ^ 53 → Forall (λ z, Z.abs z <= 2 ^ 24) c → norm_acc n acc →
  norm_acc (n + Z.of_nat (length c)) (foldl norm_step acc (hold <$> c)).
Proof.
  revert acc n. induction c as [|z c IH]; intros acc n Hn Hl Hc Hacc; cbn [fmap list_fmap foldl length] in *.
  { by rewrite Z.add_0_r. }
  apply Forall_cons in Hc as [Hz Hc]. replace (n + Z.of_nat (S (length c))) with (n + 1 + Z.of_nat (length c)) by lia.
  apply IH; [lia|lia|done|]. apply norm_step_acc; [done|lia|done|done].
Qed.

(** The inverse of the norm is at most one. *)
Lemma inverse_bound n x :
  0 <= n < 2 ^ 32 → norm_acc n x → flt (S754_zero false) x →
  let inv := float_of_double (ddiv d_one (dsqrt x)) in fle inv 1 0 ∧ valid_binary 24 128 inv.
Proof.
  intros Hn [Hs Hu Hl] Hpos inv. destruct Hl as [->|Hl]; [done|].
  assert (fle x 1 (2 * 40)) as Hx.
  { eapply fle_weaken; [|exact Hu]. unfold le2. change (2 ^ Z.max 0 (48 - 2 * 40)) with 1.
    change (2 ^ Z.max 0 (2 * 40 - 48)) with (2 ^ 32). lia. }
  assert (fle (dsqrt x) 1 40) as Hq by (apply SFsqrt_upper; [done|done|by vm_compute|done|done]).
  assert (fge (dsqrt x) 1 0) as Hq1 by by apply SFsqrt_lower.
  assert (fle (ddiv d_one (dsqrt x)) 1 0) as Hd.
  { apply (SFdiv_one_upper 53 1024); [done|done|by vm_compute|done|by vm_compute|by eapply fle_finite|done]. }
  unfold inv. destruct (ddiv d_one (dsqrt x)) as [s| | |s m e]; try done. cbn [fle float_of_double] in *.
  split; [|by apply binary_normalize_valid].
  assert (e < 1 + 0) as He by (apply (le2_exp (Zpos m) e 1); try lia; done).
  apply binary_normalize_upper; [done|done|by vm_compute|change (128 - 24) with 104; lia|].
  by destruct s.
Qed.

Lemma normalize_bound c :
  Z.of_nat (length c) < 2 ^ 32 → Forall (λ z, Z.abs z <= 2 ^ 24) c →
  Forall (λ x, fle (f_load x) 1 24) (normalize (hold <$> c)).
Proof.
  intros Hl Hc. unfold normalize. cbv zeta.
  assert (norm_acc (Z.of_nat (length c)) (foldl norm_step (S754_zero false) (hold <$> c))) as Hacc.
  { apply (norm_sq_acc c _ 0); [done|lia|done|]. by split; [| |left]. }
  destruct (flt _ _) eqn:Hpos.
  - destruct (inverse_bound (Z.of_nat (length c)) _ ltac:(lia) Hacc) as [Hi Hv]; [by rewrite Hpos|].
    apply Forall_fmap, Forall_fmap. eapply Forall_impl; [exact Hc|]. intros z Hz. cbn.
    unfold hold. rewrite load_count by done. set (y := fmul _ _).
    assert (fle y 1 24) as Hy.
    { apply (SFmul_upper 24 128) with (b1 := 1) (k1 := 24) (b2 := 1) (k2 := 0); try done; try (by vm_compute).
      by apply f_of_int_bound. }
    unfold f_load. rewrite float_val_of; [done| |by eapply fle_finite].
    apply SFmul_valid; [done|done|apply f_of_int_valid|done].
  - apply Forall_fmap. eapply Forall_impl; [exact Hc|]. intros z Hz. cbn. unfold hold.
    rewrite load_count by done. by apply f_of_int_bound.
Qed.

(** ** The contract *)

Section Laws.
Context (dim_ : Dim) (Hdim : (0 < dim_ < 2 ^ 24)%N).

Lemma mock_embed_small text :
  ∃ v, mock_embed dim_ text = Ok v ∧ length v = N.to_nat dim_ ∧ small_vec v.
Proof.
  destruct (mock_embed_counts dim_ ltac:(lia) text) as [E [Hl Hb]]. eexists. split; [exact E|].
  rewrite normalize_length, length_fmap. split; [done|]. split.
  - rewrite normalize_length, length_fmap. lia.
  - apply normalize_bound; [lia|done].
Qed.

#[export] Instance mock_laws : EmbeddingLaws (mock_model dim_) small_vec.
Proof. split; [apply Hdim|cbn; lia|apply mock_embed_small]. Qed.

(** C27: the hashing model is total and a bag of words. Every text has a vector of
    the model's dimension, computed without an access out of range; its elements
    are numbers on which no metric can overflow or be NaN; and texts whose
    lower-case tokens of at least three characters are the same, in whatever
    order and between whatever other tokens, have the same vector, bit for bit
    (up to [2^24] such tokens, where the float counters stop being exact). *)
Theorem mock_bag_of_words (text text' : string) :
  (∃ v, mock_embed dim_ text = Ok v ∧ length v = N.to_nat dim_ ∧ small_vec v) ∧
  (counted (Text.tokenize text) ≡ₚ counted (Text.tokenize text') →
   Z.of_nat (length (counted (Text.tokenize text))) < 2 ^ 24 →
   mock_embed dim_ text = mock_embed dim_ text').
Proof.
  split; [apply mock_embed_small|]. intros Hp Hl.
  destruct (mock_embed_counts dim_ ltac:(lia) text) as [-> _]. destruct (mock_embed_counts dim_ ltac:(lia) text') as [-> _].
  do 3 f_equal. unfold counts_of. pose proof (Permutation_length Hp). rewrite !counts_tally by lia.
  apply list_fmap_ext. intros i x _. apply tally_perm; [lia|done].
Qed.
End Laws.
