(* ===== verification/Rag.v ===== *)
(** * The retrieval engine ([rag.hpp], [rag.cpp])

    [RagEngine] over an embedding model and an index: ingesting, removing and
    retrieving documents, against a map from document ids to texts. *)
From stdpp Require Import pretty.
From Stdlib Require Import Strings.Ascii.
From S2P Require Import Prelude StdQueue Binary Distance Metadata Bitset VectorStore StoreSpec Index.
From S2P Require Import OpCodec LogStore BlobStore Engine EngineSpec EngineSearch Text Embedding.
Local Open Scope string_scope.
Local Open Scope list_scope.
Local Open Scope nat_scope.

Module Rag.

Record Document := { doc_name : string; doc_text : string }.

(** The metric and the kind of index of the configuration are the instances. *)
Record RagConfig := { chunk : Text.ChunkConfig; retrieve_k : nat; token_budget : nat }.

Definition default_config : RagConfig :=
  {| chunk := Text.default_chunk; retrieve_k := 5; token_budget := 512 |}.

(** [doc_id + "#" + std::to_string(i)] *)
Definition chunk_id (doc_id : string) (i : nat) : string := doc_id +:+ "#" +:+ pretty i.

Definition chunk_meta (doc_id text : string) : Metadata :=
  <["text" := MString text]> (<["doc" := MString doc_id]> ∅).

(** [std::get_if<std::string>] of the entry at [key], if there is one. *)
Definition string_at (m : Metadata) (key : string) : string :=
  match m !! key with Some (MString s) => s | _ => "" end.

Section Rag.
Context {EM : EmbeddingModel} {Ix : Type} {IO : IndexOps Ix} {MO : MapOrder}.

Record t := { cfg_ : RagConfig; engine_ : Engine.t Ix; doc_chunks_ : gmap string nat }.

Definition set_engine (e : Engine.t Ix) (r : t) : t :=
  {| cfg_ := cfg_ r; engine_ := e; doc_chunks_ := doc_chunks_ r |}.
Definition set_doc_chunks (d : gmap string nat) (r : t) : t :=
  {| cfg_ := cfg_ r; engine_ := engine_ r; doc_chunks_ := d |}.

Definition on_engine {A} (m : M (Engine.t Ix) A) : M t A := zoom engine_ set_engine m.

(** The constructor. *)
Definition make (cfg : RagConfig) : result t :=
  e ← Engine.open_engine em_dim None;
  Ok {| cfg_ := cfg; engine_ := e; doc_chunks_ := ∅ |}.

(** The loops that erase the chunks [0], ..., [n - 1]. *)
Definition erase_chunk (doc_id : string) (i : nat) : M t () :=
  _ ← on_engine (Engine.erase (chunk_id doc_id i)); mret tt.

Definition erase_chunks (doc_id : string) (n : nat) : M t () := for_each (erase_chunk doc_id) (seq 0 n).

(** The body of the loop over the chunks. *)
Definition add_chunk (doc_id : string) (chunks : list Text.Chunk) (i : nat) : M t () :=
  c ← lift (at_ chunks i);
  vec ← lift (embed (Text.chunk_text_ c));
  let meta := chunk_meta doc_id (Text.chunk_text_ c) in
  _ ← on_engine (Engine.insert (chunk_id doc_id i) vec meta); mret tt.

Definition ingest (doc : Document) : M t nat :=
  r ← read_state;
  _ ← (match doc_chunks_ r !! doc_name doc with
       | Some n => erase_chunks (doc_name doc) n
       | None => mret tt
       end);
  chunks ← lift (Text.chunk_text (doc_text doc) (chunk (cfg_ r)));
  _ ← for_each (add_chunk (doc_name doc) chunks) (seq 0 (length chunks));
  r ← read_state;
  _ ← write_state (set_doc_chunks
        (match chunks with
         | [] => delete (doc_name doc) (doc_chunks_ r)
         | _ => <[doc_name doc := length chunks]> (doc_chunks_ r)
         end) r);
  mret (length chunks).

Definition remove (doc_id : string) : M t bool :=
  r ← read_state;
  match doc_chunks_ r !! doc_id with
  | None => mret false
  | Some n =>
      _ ← erase_chunks doc_id n;
      r ← read_state;
      _ ← write_state (set_doc_chunks (delete doc_id (doc_chunks_ r)) r);
      mret true
  end.

Definition to_retrieved (s : VectorStore.t) (h : SearchResult) : Text.RetrievedChunk :=
  match VectorStore.metadata s (id h) with
  | Some m => {| Text.doc_id := string_at m "doc"; Text.rc_text := string_at m "text"; Text.rc_score := score h |}
  | None => {| Text.doc_id := ""; Text.rc_text := ""; Text.rc_score := score h |}
  end.

Definition retrieve (r : t) (query : string) (k : nat) : result (list Text.RetrievedChunk) :=
  qv ← embed query;
  hits ← Engine.search (engine_ r) qv k None 0;
  Ok (fmap (M:=list) (to_retrieved (Engine.store_ (engine_ r))) hits).

Definition build_prompt (r : t) (query : string) : result string :=
  chunks ← retrieve r query (retrieve_k (cfg_ r));
  Ok (Text.build (token_budget (cfg_ r)) query chunks).

Definition document_count (r : t) : nat := size (doc_chunks_ r).
End Rag.
Arguments t Ix : clear implicits.

(** ** Chunk ids *)

(** Neither digits nor the rest contain the separator. *)
Definition no_sep (s : string) : Prop := Text.all_chars (λ c, c ≠ "#"%char) s.

Lemma pretty_no_sep (i : nat) : no_sep (pretty i).
Proof.
  unfold pretty, pretty_nat, pretty, pretty_N. case_decide; [done|].
  assert (∀ x s, no_sep s → no_sep (pretty_N_go x s)) as Hgo; [|by apply Hgo].
  intros x. induction (N.lt_wf_0 x) as [x _ IH]; intros s Hs.
  destruct (decide (0 < x)%N) as [Hx|]; [|by assert (x = 0%N) as -> by lia].
  rewrite pretty_N_go_step by done. apply IH; [by apply N.div_lt|].
  split; [|done]. unfold pretty_N_char. by repeat case_match.
Qed.

Lemma sep_inj d d' s s' :
  no_sep s → no_sep s' → d +:+ "#" +:+ s = d' +:+ "#" +:+ s' → d = d' ∧ s = s'.
Proof.
  change ("#" +:+ s) with (String "#" s). change ("#" +:+ s') with (String "#" s').
  assert (∀ d s, ¬ no_sep (d +:+ String "#" s)) as Hsep.
  { by intros d0 s0 [_ [Hc _]]%Text.all_chars_app. }
  intros Hs Hs'. revert d'. induction d as [|c d IH]; intros [|c' d'];
    rewrite ?Text.append_nil, ?Text.append_cons; intros E; simplify_eq;
    [done|by destruct (Hsep d' s')|by destruct (Hsep d s)|].
  by destruct (IH d') as [-> ->].
Qed.

Lemma chunk_id_inj d d' i i' : chunk_id d i = chunk_id d' i' → d = d' ∧ i = i'.
Proof.
  intros [-> E]%sep_inj; [|apply pretty_no_sep..]. split; [done|]. by apply (inj pretty) in E.
Qed.
End Rag.
