(* ===== verification/RagSpec.v ===== *)
(** * The retrieval engine refines a library of documents

    [RagEngine] against a map from document ids to the texts ingested last, for
    every embedding model and every index that keep their contracts. *)
From S2P Require Import Prelude StdQueue Binary Distance Metadata Bitset VectorStore StoreSpec Index.
From S2P Require Import OpCodec LogStore BlobStore Engine EngineSpec EngineSearch Text Embedding Rag.
Local Open Scope nat_scope.
Import Rag.

(** ** The abstract library *)

Abbreviation library := (gmap string string).

(** The texts of the chunks of a text. *)
Definition chunks_of (cfg : RagConfig) (text : string) : list string :=
  match Text.chunk_text text (chunk cfg) with Ok cs => Text.chunk_text_ <$> cs | Throw _ => [] end.

Inductive RagOp : Type :=
| Ingest (doc : Document)
| Remove (doc_id : string).

(** The ids under which a call stores chunks. *)
Definition op_ids (cfg : RagConfig) (op : RagOp) : list string :=
  match op with
  | Ingest doc => chunk_id (doc_name doc) <$> seq 0 (length (chunks_of cfg (doc_text doc)))
  | Remove _ => []
  end.

(** The library with a text; without tokens, without the document. *)
Definition lib_put (cfg : RagConfig) (d text : string) (lib : library) : library :=
  match chunks_of cfg text with [] => delete d lib | _ => <[d := text]> lib end.

(** What a call means. *)
Definition spec_call (cfg : RagConfig) (op : RagOp) (lib : library) : result (nat + bool) * library :=
  match op with
  | Ingest doc =>
      (Ok (inl (length (chunks_of cfg (doc_text doc)))), lib_put cfg (doc_name doc) (doc_text doc) lib)
  | Remove x => (Ok (inr (bool_decide (is_Some (lib !! x)))), delete x lib)
  end.

(** Chunk [i] of the document [d] has the text [t]. *)
Definition chunk_at (cfg : RagConfig) (lib : library) (d : string) (i : nat) (t : string) : Prop :=
  ∃ text, lib !! d = Some text ∧ chunks_of cfg text !! i = Some t.

Lemma chunk_text_ok cfg text : ∃ cs, Text.chunk_text text (chunk cfg) = Ok cs ∧ chunks_of cfg text = Text.chunk_text_ <$> cs.
Proof.
  unfold chunks_of. by destruct (Text.chunk_text_cases text (chunk cfg)) as [[_ ->]|(_ & cs & -> & _)]; eauto.
Qed.

(** ** Runs of database operations *)

Definition put_op (y : string * (list word32 * Metadata)) : Op :=
  {| op_type := Insert; op_ext_id := y.1; op_vec := y.2.1; op_meta := Some y.2.2 |}.
Definition del_op (x : string) : Op :=
  {| op_type := Delete; op_ext_id := x; op_vec := []; op_meta := None |}.

Definition is_ok {A} (r : result A) : Prop := ∃ a, r = Ok a.

Lemma spec_dels dim l (c : db) :
  Forall is_ok (run_log (spec_apply dim) (del_op <$> l) c).1 ∧
  ∀ x, (run_log (spec_apply dim) (del_op <$> l) c).2 !! x = if decide (x ∈ l) then None else c !! x.
Proof.
  revert c. induction l as [|y l IH]; intros c.
  { split; [constructor|]. intros x. cbn. by rewrite decide_False by set_solver. }
  cbn [fmap list_fmap run_log].
  assert (∃ b, spec_apply dim (del_op y) c = (Ok b, delete y c)) as (b & ->).
  { unfold spec_apply; cbn. destruct (c !! y) eqn:E; [by eexists|]. rewrite delete_id by done. by eexists. }
  destruct (IH (delete y c)) as [Hok Hl]. destruct (run_log _ _ _) as [rs c']. cbn in *. split.
  { constructor; [by eexists|done]. }
  intros x. rewrite Hl. destruct (decide (x = y)) as [->|Hne].
  - rewrite (decide_True (P := y ∈ y :: l)) by set_solver. rewrite lookup_delete_eq. by case_decide.
  - rewrite lookup_delete_ne by done. by repeat case_decide; set_solver.
Qed.

Lemma spec_puts dim l (c : db) :
  Forall (λ y, length y.2.1 = N.to_nat dim) l → NoDup l.*1 →
  Forall is_ok (run_log (spec_apply dim) (put_op <$> l) c).1 ∧
  ∀ x y, (run_log (spec_apply dim) (put_op <$> l) c).2 !! x = Some y ↔
         (x, y) ∈ l ∨ x ∉ l.*1 ∧ c !! x = Some y.
Proof.
  revert c. induction l as [|[z w] l IH]; intros c Hl Hnd.
  { split; [constructor|]. intros x y. cbn. set_solver. }
  apply Forall_cons in Hl as [Hw Hl]. apply NoDup_cons in Hnd as [Hz Hnd]. cbn in Hw, Hz.
  cbn [fmap list_fmap run_log]. unfold spec_apply at 1 3. cbn [op_type op_vec op_ext_id op_meta put_op].
  cbn. rewrite (bool_decide_true _ Hw). destruct (IH (<[z := w]> c) Hl Hnd) as [Hok Hlk].
  destruct w as [v m]. cbn. destruct (run_log _ _ _) as [rs c']. cbn in *. split.
  { constructor; [by eexists|done]. }
  intros x y. rewrite Hlk. destruct (decide (x = z)) as [->|Hne].
  - rewrite lookup_insert_eq. split.
    + intros [Hin|[_ [= <-]]]; [|left; left]. destruct Hz. by apply (list_elem_of_fmap_2 fst) in Hin.
    + intros [[[= <-]|Hin]%elem_of_cons|[[]%not_elem_of_cons _]]; [by right|by left|done].
  - rewrite lookup_insert_ne by done. rewrite elem_of_cons, not_elem_of_cons. naive_solver.
Qed.

(** A counting loop over the positions of a list. *)
Lemma fmap_seq_default {A} (d : A) (l : list A) : (λ i, default d (l !! i)) <$> seq 0 (length l) = l.
Proof.
  apply list_eq. intros i. rewrite list_lookup_fmap. destruct (decide (i < length l)) as [Hi|].
  - rewrite lookup_seq_lt by done. cbn. by destruct (lookup_lt_is_Some_2 l i Hi) as [x ->].
  - rewrite !lookup_ge_None_2; [done|lia|rewrite length_seq; lia].
Qed.

Section Spec.
Context {EM : EmbeddingModel} {Ix : Type} {IO : IndexOps Ix} {valid : list word32 → Prop}.
Context {IL : IndexLaws Ix valid} {EL : EmbeddingLaws EM valid} {MO : MapOrder}.
Implicit Types (r : Rag.t Ix) (e : Engine.t Ix) (lib : library).

Definition vec_of (text : string) : list word32 := match embed text with Ok v => v | Throw _ => [] end.

Lemma embed_ok text : embed text = Ok (vec_of text) ∧ length (vec_of text) = N.to_nat em_dim ∧ valid (vec_of text).
Proof. unfold vec_of. by destruct (embed_valid text) as (v & -> & ? & ?). Qed.

(** What the engine stores for a chunk. *)
Definition chunk_entry (d t : string) : list word32 * Metadata := (vec_of t, chunk_meta d t).

(** The engine stores exactly the chunks of the library. *)
Record stores (U : gset string) (cfg : RagConfig) e lib : Prop := {
  st_engine : engine_inv e;
  st_dim : Engine.cfg_dim e = em_dim;
  st_wal : Engine.wal_ e = None;
  st_ids : ids_in U (Engine.store_ e);
  st_contents x y : contents e !! x = Some y ↔
    ∃ d i t, chunk_at cfg lib d i t ∧ x = chunk_id d i ∧ y = chunk_entry d t;
}.

Record rag_inv (U : gset string) r lib : Prop := {
  ri_stores : stores U (cfg_ r) (engine_ r) lib;
  ri_counts : doc_chunks_ r = (λ text, length (chunks_of (cfg_ r) text)) <$> lib;
  ri_nonempty d text : lib !! d = Some text → chunks_of (cfg_ r) text ≠ [];
}.

(** ** Loops of engine calls *)

(** The engine after calls, and its contents. *)
Record engine_after (U : gset string) e e' (c : db) : Prop := {
  ea_inv : engine_inv e';
  ea_dim : Engine.cfg_dim e' = Engine.cfg_dim e;
  ea_wal : Engine.wal_ e' = None;
  ea_ids : ids_in U (Engine.store_ e');
  ea_contents : contents e' = c;
}.

Lemma set_engine_set e e' r : set_engine e' (set_engine e r) = set_engine e' r.
Proof. done. Qed.

Lemma for_each_client {A} (body : A → M (Rag.t Ix) ()) (f : A → Op) l r rs e' :
  (∀ a r, a ∈ l → body a r = (_ ← on_engine (client (f a)); mret tt) r) →
  run_log client (f <$> l) (engine_ r) = (rs, e') → Forall is_ok rs →
  for_each body l r = (Ok tt, set_engine e' r).
Proof.
  revert r rs e'. induction l as [|a l IH]; intros r rs e' Hbody Hrun Hok.
  { cbn in Hrun. injection Hrun as <- <-. by destruct r. }
  cbn [fmap list_fmap run_log] in Hrun. destruct (client (f a) (engine_ r)) as [r1 e1] eqn:H1.
  destruct (run_log client (f <$> l) e1) as [rs2 e2] eqn:H2. injection Hrun as <- <-.
  apply Forall_cons in Hok as [[b ->] Hok]. cbn [for_each]. unfold mbind at 1, M_bind at 1.
  rewrite Hbody by set_solver. unfold on_engine, zoom, mbind at 1, M_bind at 1. rewrite H1. unfold mret at 1, M_ret at 1.
  rewrite (IH _ rs2 e2); [done| |done|done]. intros; apply Hbody; set_solver.
Qed.

Lemma engine_loop {A} (body : A → M (Rag.t Ix) ()) (f : A → Op) l r U :
  (N.of_nat (size U) < 2 ^ 32)%N →
  (∀ a r, a ∈ l → body a r = (_ ← on_engine (client (f a)); mret tt) r) →
  engine_inv (engine_ r) → Engine.wal_ (engine_ r) = None → ids_in U (Engine.store_ (engine_ r)) →
  (∀ a, a ∈ l → op_ok valid (Engine.cfg_dim (engine_ r)) (f a) ∧ op_ext_id (f a) ∈ U) →
  let run := run_log (spec_apply (Engine.cfg_dim (engine_ r))) (f <$> l) (contents (engine_ r)) in
  Forall is_ok run.1 →
  ∃ e', for_each body l r = (Ok tt, set_engine e' r) ∧ engine_after U (engine_ r) e' run.2.
Proof.
  intros HU Hbody Hinv Hw Hids Hops run Hok. unfold run in *.
  pose proof (run_client U (f <$> l) (engine_ r) HU Hinv Hw Hids) as H.
  destruct (run_log client (f <$> l) (engine_ r)) as [rs e'] eqn:Hrun.
  destruct H as (? & ? & ? & ? & _ & Hspec).
  { apply Forall_fmap, Forall_forall. intros a Ha. by apply Hops. }
  { apply Forall_fmap, Forall_forall. intros a Ha. by apply Hops. }
  rewrite Hspec in *. exists e'. split; [by eapply for_each_client|]. by split.
Qed.

(** ** The loops of [ingest] and [remove] *)

Lemma erase_chunks_ok U r lib d text :
  (N.of_nat (size U) < 2 ^ 32)%N → stores U (cfg_ r) (engine_ r) lib → lib !! d = Some text →
  ∃ e', erase_chunks d (length (chunks_of (cfg_ r) text)) r = (Ok tt, set_engine e' r) ∧
    stores U (cfg_ r) e' (delete d lib).
Proof.
  intros HU [Hinv Hdim Hw Hids Hc] Hd. set (n := length (chunks_of (cfg_ r) text)).
  assert ((λ i, del_op (chunk_id d i)) <$> seq 0 n = del_op <$> (chunk_id d <$> seq 0 n)) as Hfm
    by by rewrite <- list_fmap_compose.
  destruct (spec_dels (Engine.cfg_dim (engine_ r)) (chunk_id d <$> seq 0 n) (contents (engine_ r))) as [Hok Hlk].
  rewrite <- Hfm in Hok, Hlk.
  assert (∀ i, i < n → chunk_id d i ∈ U) as HinU.
  { intros i Hi. destruct (lookup_lt_is_Some_2 (chunks_of (cfg_ r) text) i Hi) as [t Ht].
    assert (contents (engine_ r) !! chunk_id d i = Some (chunk_entry d t)) as Hx.
    { apply Hc. exists d, i, t. split; [by exists text|done]. }
    apply Hids. unfold contents in Hx. rewrite VectorStore.abs_lookup in Hx.
    by destruct (VectorStore.ext_to_int_ (Engine.store_ (engine_ r)) !! chunk_id d i). }
  destruct (engine_loop (erase_chunk d) (λ i, del_op (chunk_id d i)) (seq 0 n) r U HU)
    as (e' & He & [Hinv' Hdim' Hw' Hids' Hc']); try done.
  { intros i Hi%elem_of_seq. split; [|apply HinU; lia]. split; [done|]. by cbn. }
  exists e'. split; [exact He|]. split; [done|congruence|done|done|]. intros x y. rewrite Hc', Hlk. split.
  - case_decide as Hx; [done|]. intros (d' & i & t & (tx & Htx & Ht) & -> & ->)%Hc.
    exists d', i, t. split_and!; [|done|done]. exists tx. split; [|done].
    rewrite lookup_delete_ne; [done|]. intros <-. apply Hx. apply list_elem_of_fmap.
    exists i. split; [done|]. apply elem_of_seq. apply lookup_lt_Some in Ht. unfold n.
    rewrite Hd in Htx. injection Htx as <-. lia.
  - intros (d' & i & t & (tx & [Hdd Htx]%lookup_delete_Some & Ht) & -> & ->).
    rewrite decide_False.
    + apply Hc. exists d', i, t. split; [by exists tx|done].
    + intros (j & [-> _]%chunk_id_inj & _)%list_elem_of_fmap. done.
Qed.

(** What the loop of [ingest] stores. *)
Definition entries (d : string) (ts : list string) : list (string * (list word32 * Metadata)) :=
  imap (λ i t, (chunk_id d i, chunk_entry d t)) ts.

Lemma entries_elem d ts x y :
  (x, y) ∈ entries d ts ↔ ∃ i t, ts !! i = Some t ∧ x = chunk_id d i ∧ y = chunk_entry d t.
Proof.
  unfold entries. rewrite list_elem_of_lookup. setoid_rewrite list_lookup_imap_Some. naive_solver.
Qed.

Lemma entries_ids d ts x : x ∈ (entries d ts).*1 → ∃ i, i < length ts ∧ x = chunk_id d i.
Proof.
  intros ([x' y] & -> & (i & t & Hi & -> & _)%entries_elem)%list_elem_of_fmap.
  exists i. split; [by eapply lookup_lt_Some|done].
Qed.

Lemma entries_NoDup d ts : NoDup (entries d ts).*1.
Proof.
  apply NoDup_alt. intros i j x. rewrite !list_lookup_fmap. unfold entries. rewrite !list_lookup_imap.
  destruct (ts !! i), (ts !! j); cbn; try done. intros [= <-] [= E]. by apply chunk_id_inj in E as [_ ->].
Qed.

Lemma entries_lookup d ts i t : ts !! i = Some t → entries d ts !! i = Some (chunk_id d i, chunk_entry d t).
Proof. intros Hi. unfold entries. by rewrite list_lookup_imap, Hi. Qed.

Lemma add_chunk_call d cs i c r :
  cs !! i = Some c →
  add_chunk d cs i r =
  (_ ← on_engine (client (put_op (chunk_id d i, chunk_entry d (Text.chunk_text_ c)))); mret tt) r.
Proof.
  intros Hi. unfold add_chunk, at_. rewrite Hi. unfold mbind, M_bind, lift. cbv beta zeta.
  destruct (embed_ok (Text.chunk_text_ c)) as (-> & _ & _). unfold on_engine, zoom, client, chunk_entry, put_op.
  cbn [op_type op_ext_id op_vec op_meta fst snd default]. unfold mbind, M_bind, mret, M_ret.
  by destruct (Engine.insert _ _ _ (engine_ r)) as [[|] e1].
Qed.

Lemma chunk_at_put cfg lib d text d' i t :
  lib !! d = None →
  chunk_at cfg (lib_put cfg d text lib) d' i t ↔
  d' = d ∧ chunks_of cfg text !! i = Some t ∨ d' ≠ d ∧ chunk_at cfg lib d' i t.
Proof.
  intros Hd. unfold chunk_at, lib_put. destruct (decide (d' = d)) as [->|Hne].
  - destruct (chunks_of cfg text) as [|t0 ts] eqn:E.
    + rewrite lookup_delete_eq, lookup_nil. split; [by intros (? & ? & _)|by intros [[_ ?]|[? _]]].
    + rewrite lookup_insert_eq. split; [|intros [[_ Ht]|[? _]]; [by eexists; rewrite E|done]].
      intros (tx & [= <-] & Ht). rewrite E in Ht. by left.
  - assert ((match chunks_of cfg text with [] => delete d lib | _ => <[d:=text]> lib end) !! d' = lib !! d') as ->.
    { destruct (chunks_of cfg text); [by rewrite lookup_delete_ne|by rewrite lookup_insert_ne]. }
    split; [by right|by intros [[? _]|[_ ?]]].
Qed.

Lemma add_chunks_ok U r lib d text cs :
  (N.of_nat (size U) < 2 ^ 32)%N → stores U (cfg_ r) (engine_ r) lib → lib !! d = None →
  chunks_of (cfg_ r) text = Text.chunk_text_ <$> cs → (∀ i, i < length cs → chunk_id d i ∈ U) →
  ∃ e', for_each (add_chunk d cs) (seq 0 (length cs)) r = (Ok tt, set_engine e' r) ∧
    stores U (cfg_ r) e' (lib_put (cfg_ r) d text lib).
Proof.
  intros HU [Hinv Hdim Hw Hids Hc] Hd Hcs HinU. set (l := entries d (Text.chunk_text_ <$> cs)).
  set (f i := put_op (default ("", ([], ∅)) (l !! i) : string * (list word32 * Metadata))).
  assert (length l = length cs) as Hlen by (unfold l, entries; by rewrite length_imap, length_fmap).
  assert (f <$> seq 0 (length cs) = put_op <$> l) as Hfm.
  { pose proof (fmap_seq_default ("", ([], ∅)) l) as E. rewrite Hlen in E. rewrite <- E.
    by rewrite <- list_fmap_compose. }
  assert (∀ i c, cs !! i = Some c → l !! i = Some (chunk_id d i, chunk_entry d (Text.chunk_text_ c))) as Hl.
  { intros i c Hi. apply entries_lookup. by rewrite list_lookup_fmap, Hi. }
  destruct (spec_puts (Engine.cfg_dim (engine_ r)) l (contents (engine_ r))) as [Hok Hlk].
  { apply Forall_forall. intros [x y] (i & t & _ & -> & ->)%entries_elem. rewrite Hdim. apply embed_ok. }
  { apply entries_NoDup. }
  rewrite <- Hfm in Hok, Hlk.
  destruct (engine_loop (add_chunk d cs) f (seq 0 (length cs)) r U HU)
    as (e' & He & [Hinv' Hdim' Hw' Hids' Hc']); try done.
  { intros i r' Hi%elem_of_seq. destruct (lookup_lt_is_Some_2 cs i) as [c Hci]; [lia|].
    unfold f. rewrite (Hl i c Hci). by apply add_chunk_call. }
  { intros i Hi%elem_of_seq. destruct (lookup_lt_is_Some_2 cs i) as [c Hci]; [lia|].
    unfold f. rewrite (Hl i c Hci). cbn. split; [|apply HinU; lia].
    destruct (embed_ok (Text.chunk_text_ c)) as (_ & Hv & Hvalid). pose proof em_dim_u32. split; cbn; [|done].
    unfold vec_sized. lia. }
  exists e'. split; [exact He|]. split; [done|congruence|done|done|]. intros x y.
  rewrite Hc', Hlk, Hc. unfold l. rewrite entries_elem, <- Hcs. setoid_rewrite chunk_at_put; [|done]. split.
  - intros [(i & t & Hi & -> & ->)|[_ (d' & i & t & Ht & -> & ->)]]; [by exists d, i, t; auto|].
    exists d', i, t. split_and!; try done. right. split; [|done]. intros ->. destruct Ht as (tx & Htx & _). congruence.
  - intros (d' & i & t & [[-> Hi]|[Hne Ht]] & -> & ->); [left; eauto|right].
    split; [|eauto 6]. intros (j & _ & [E _]%chunk_id_inj)%entries_ids. done.
Qed.

(** ** The calls *)

Lemma erase_old_ok U r lib d :
  (N.of_nat (size U) < 2 ^ 32)%N → rag_inv U r lib →
  ∃ e', (match doc_chunks_ r !! d with Some n => erase_chunks d n | None => mret tt end) r =
      (Ok tt, set_engine e' r) ∧ stores U (cfg_ r) e' (delete d lib).
Proof.
  intros HU [Hst Hn _]. rewrite Hn, lookup_fmap. destruct (lib !! d) as [text|] eqn:Hd; cbn.
  - by apply erase_chunks_ok.
  - exists (engine_ r). rewrite delete_id by done. by destruct r.
Qed.

Lemma lib_put_delete cfg d text lib : lib_put cfg d text (delete d lib) = lib_put cfg d text lib.
Proof.
  unfold lib_put. destruct (chunks_of cfg text); [by rewrite delete_delete_eq|by rewrite insert_delete_eq].
Qed.

Lemma ingest_ok U r lib doc :
  (N.of_nat (size U) < 2 ^ 32)%N → rag_inv U r lib → Forall (.∈ U) (op_ids (cfg_ r) (Ingest doc)) →
  ∃ r', ingest doc r = (Ok (length (chunks_of (cfg_ r) (doc_text doc))), r') ∧ cfg_ r' = cfg_ r ∧
    rag_inv U r' (lib_put (cfg_ r) (doc_name doc) (doc_text doc) lib).
Proof.
  intros HU Hinv HinU. set (d := doc_name doc) in *. set (text := doc_text doc) in *.
  destruct (erase_old_ok U r lib d HU Hinv) as (e1 & H1 & Hst1). destruct Hinv as [_ Hn Hne].
  destruct (chunk_text_ok (cfg_ r) text) as (cs & Hcs & Hof).
  destruct (add_chunks_ok U (set_engine e1 r) (delete d lib) d text cs) as (e2 & H2 & Hst2); try done.
  { by rewrite lookup_delete_eq. }
  { intros i Hi. rewrite Forall_forall in HinU. apply HinU. cbn. apply list_elem_of_fmap_2, elem_of_seq.
    fold text. rewrite Hof, length_fmap. lia. }
  unfold ingest. unfold mbind at 1, M_bind at 1, read_state at 1. unfold mbind at 1, M_bind at 1.
  fold d text. rewrite H1. unfold mbind at 1, M_bind at 1, lift at 1. rewrite Hcs.
  unfold mbind at 1, M_bind at 1. rewrite H2. eexists. split.
  { unfold mbind, M_bind, read_state, write_state, mret, M_ret. by rewrite Hof, length_fmap. }
  split; [done|]. cbn [set_engine cfg_] in Hst2. rewrite lib_put_delete in Hst2. split; [exact Hst2| |]; cbn.
  - unfold lib_put. rewrite Hn, Hof. destruct cs as [|c cs]; [by rewrite <- fmap_delete|].
    cbn [fmap list_fmap]. rewrite fmap_insert, Hof. by rewrite length_fmap.
  - intros d' text'. unfold lib_put. destruct (chunks_of (cfg_ r) text) eqn:E.
    + intros [_ H]%lookup_delete_Some. by eapply Hne.
    + intros [[<- <-]|[_ H]]%lookup_insert_Some; [by rewrite E|by eapply Hne].
Qed.

Lemma remove_ok U r lib d :
  (N.of_nat (size U) < 2 ^ 32)%N → rag_inv U r lib →
  ∃ r', remove d r = (Ok (bool_decide (is_Some (lib !! d))), r') ∧ cfg_ r' = cfg_ r ∧ rag_inv U r' (delete d lib).
Proof.
  intros HU Hinv. destruct (erase_old_ok U r lib d HU Hinv) as (e1 & H1 & Hst1).
  pose proof Hinv as [_ Hn Hne]. unfold remove. unfold mbind at 1, M_bind at 1, read_state at 1.
  pose proof (f_equal (.!! d) Hn) as Hd. cbn in Hd. rewrite lookup_fmap in Hd.
  rewrite Hd in *. destruct (lib !! d) as [text|] eqn:Hl; cbn [fmap option_fmap option_map] in *.
  - unfold mbind at 1, M_bind at 1. rewrite H1. eexists.
    split; [unfold mbind, M_bind, read_state, write_state, mret, M_ret; by rewrite bool_decide_true|].
    split; [done|]. split; [exact Hst1| |]; cbn.
    + by rewrite Hn, <- fmap_delete.
    + intros d' text' [_ ?]%lookup_delete_Some. by eapply Hne.
  - exists r. split; [by rewrite bool_decide_false by by intros []|]. split; [done|]. by rewrite delete_id.
Qed.

(** ** Runs of calls *)

Definition rag_call (op : RagOp) : M (Rag.t Ix) (nat + bool) :=
  match op with
  | Ingest doc => n ← ingest doc; mret (inl n)
  | Remove d => b ← remove d; mret (inr b)
  end.

Lemma rag_call_ok U r lib op :
  (N.of_nat (size U) < 2 ^ 32)%N → rag_inv U r lib → Forall (.∈ U) (op_ids (cfg_ r) op) →
  ∃ r', rag_call op r = ((spec_call (cfg_ r) op lib).1, r') ∧ cfg_ r' = cfg_ r ∧
    rag_inv U r' (spec_call (cfg_ r) op lib).2.
Proof.
  intros HU Hinv HinU. unfold rag_call, mbind, M_bind. destruct op as [doc|d].
  - destruct (ingest_ok U r lib doc HU Hinv HinU) as (r' & -> & ? & ?). by exists r'.
  - destruct (remove_ok U r lib d HU Hinv) as (r' & -> & ? & ?). by exists r'.
Qed.

Lemma rag_run_ok U ops r lib :
  (N.of_nat (size U) < 2 ^ 32)%N → rag_inv U r lib → Forall (λ op, Forall (.∈ U) (op_ids (cfg_ r) op)) ops →
  let '(rs, r') := run_log rag_call ops r in
  let '(rs', lib') := run_log (spec_call (cfg_ r)) ops lib in
  rs = rs' ∧ rag_inv U r' lib' ∧ cfg_ r' = cfg_ r.
Proof.
  intros HU. revert r lib. induction ops as [|op ops IH]; intros r lib Hinv Hops; [done|].
  apply Forall_cons in Hops as [Hop Hops]. destruct (rag_call_ok U r lib op HU Hinv Hop) as (r1 & H1 & Hc & Hinv1).
  cbn [run_log]. rewrite H1. destruct (spec_call (cfg_ r) op lib) as [a lib1]. cbn in Hinv1 |- *.
  rewrite <- Hc in Hops. specialize (IH r1 lib1 Hinv1 Hops). rewrite Hc in IH.
  destruct (run_log rag_call ops r1), (run_log (spec_call (cfg_ r)) ops lib1). cbn.
  destruct IH as (-> & ? & ->). done.
Qed.

Lemma rag_make_ok U cfg r :
  make cfg = Ok r → rag_inv U r ∅ ∧ cfg_ r = cfg ∧ Engine.blobs_ (engine_ r) = None.
Proof.
  unfold make. intros (e & He & [= <-])%result_bind_Ok.
  destruct (open_memory em_dim e em_dim_u32 He) as (Hinv & Hc & Hd & Hw & Hb & Hs).
  split; [|done]. split; cbn; [|by rewrite fmap_empty|done].
  split; try done.
  - intros x [i Hi]. apply (VectorStore.wf_slot _ x i (inv_store e Hinv)) in Hi. lia.
  - intros x y. rewrite Hc, lookup_empty. split; [done|]. by intros (d & i & t & (tx & ? & _) & _).
Qed.

(** The ids of all chunks that a run stores. *)
Definition run_ids (cfg : RagConfig) (ops : list RagOp) : list string := ops ≫= op_ids cfg.

Lemma run_ids_in cfg ops :
  Forall (λ op, Forall (.∈ (list_to_set (run_ids cfg ops) : gset string)) (op_ids cfg op)) ops.
Proof.
  apply Forall_forall. intros op Hop. apply Forall_forall. intros x Hx.
  apply elem_of_list_to_set, list_elem_of_bind. eauto.
Qed.

(** C24: the retrieval engine is a library of documents. Any sequence of ingest and
    remove calls on a fresh one gives the answers of a map from document ids to
    texts (the number of chunks; whether the document existed), counts its
    documents, and ends with exactly the chunks of the texts ingested last in
    the database: the chunks of removed and replaced texts are gone, whatever
    the ids, which may hold the separator; for every model and index that keep
    their contracts. *)
Theorem rag_refines (cfg : RagConfig) (r : Rag.t Ix) (ops : list RagOp) :
  make cfg = Ok r → (N.of_nat (length (run_ids cfg ops)) < 2 ^ 32)%N →
  let '(rs, r') := run_log rag_call ops r in
  let '(rs', lib) := run_log (spec_call cfg) ops ∅ in
  rs = rs' ∧ document_count r' = size lib ∧ engine_inv (engine_ r') ∧
  ∀ x v m, contents (engine_ r') !! x = Some (v, m) ↔
    ∃ d i t, chunk_at cfg lib d i t ∧ x = chunk_id d i ∧ embed t = Ok v ∧ m = chunk_meta d t.
Proof.
  intros Hmk Hlen. set (U := list_to_set (run_ids cfg ops) : gset string).
  destruct (rag_make_ok U cfg r Hmk) as (Hinv & Hcfg & _).
  pose proof (size_list_to_set_le (run_ids cfg ops)) as HU. fold U in HU.
  pose proof (rag_run_ok U ops r ∅ ltac:(lia) Hinv) as H. rewrite Hcfg in H. specialize (H (run_ids_in cfg ops)).
  destruct (run_log rag_call ops r) as [rs r'], (run_log (spec_call cfg) ops ∅) as [rs' lib].
  destruct H as (-> & [[He _ _ _ Hc] Hn _] & Hcfg'). split_and!; [done| |done|].
  - unfold document_count. by rewrite Hn, map_size_fmap.
  - intros x v m. rewrite Hc, Hcfg'. unfold chunk_entry.
    split; intros (d & i & t & Ht & -> & H); exists d, i, t; (split; [done|]); (split; [done|]).
    + injection H as -> ->. split; [apply embed_ok|done].
    + destruct H as [Hv ->]. destruct (embed_ok t) as [Hv' _]. congruence.
Qed.
End Spec.
