(* ===== verification/RagSearch.v ===== *)
(** * Retrieval and prompts

    What [RagEngine::retrieve] and [build_prompt] return in terms of the library
    of documents. *)
From S2P Require Import Prelude StdQueue Binary Distance Metadata Bitset VectorStore StoreSpec Index.
From S2P Require Import OpCodec LogStore BlobStore Engine EngineSpec EngineSearch Text Embedding Rag RagSpec.
Local Open Scope nat_scope.
Import Rag.

Lemma chunk_meta_doc d t : string_at (chunk_meta d t) "doc" = d.
Proof. unfold string_at, chunk_meta. by rewrite lookup_insert_ne, lookup_insert_eq. Qed.

Lemma chunk_meta_text d t : string_at (chunk_meta d t) "text" = t.
Proof. unfold string_at, chunk_meta. by rewrite lookup_insert_eq. Qed.

(** Different results have different places, when a place determines the result. *)
Lemma places_NoDup {A B C} (R : A → B → Prop) (f : B → C) (places : list A) (l : list B) :
  (∀ p x y, R p x → R p y → f x = f y) → Forall2 R places l → NoDup (f <$> l) → NoDup places.
Proof.
  intros HR. induction 1 as [|p x ps l Hpx Hps IH]; [constructor|].
  intros [Hx Hnd]%NoDup_cons. constructor; [|by apply IH]. intros Hp. apply Hx.
  apply list_elem_of_lookup in Hp as [i Hi]. destruct (Forall2_lookup_l _ _ _ _ _ Hps Hi) as (y & Hy & Hpy).
  rewrite (HR p x y Hpx Hpy). apply list_elem_of_fmap_2. by eapply list_elem_of_lookup_2.
Qed.

Lemma Forall2_choose {A B} (R : A → B → Prop) (l : list B) :
  (∀ y, y ∈ l → ∃ x, R x y) → ∃ xs, Forall2 R xs l.
Proof.
  induction l as [|y l IH]; intros H; [by exists []|].
  destruct (H y) as [x Hx]; [by left|]. destruct IH as [xs Hxs]; [intros; apply H; by right|].
  exists (x :: xs). by constructor.
Qed.

Section Retrieve.
Context {EM : EmbeddingModel} {Met : DistanceMetric} {Ix : Type} {IO : IndexOps Ix} {valid : list word32 → Prop}.
Context {IL : IndexLaws Ix valid} {EL : EmbeddingLaws EM valid} {MO : MapOrder}.
Implicit Types (r : Rag.t Ix) (lib : library).

(** The chunk at a place of the library, with its distance to the query. *)
Definition chunk_hit (cfg : RagConfig) lib (query : string) (p : string * nat) (c : Text.RetrievedChunk) : Prop :=
  Text.doc_id c = p.1 ∧ chunk_at cfg lib p.1 p.2 (Text.rc_text c) ∧
  ∃ qv v, embed query = Ok qv ∧ embed (Text.rc_text c) = Ok v ∧ distance qv v em_dim = Ok (Text.rc_score c).

(** At most [k] chunks of different places, the closest first. *)
Record retrieved (cfg : RagConfig) lib (query : string) (k : nat) (out : list Text.RetrievedChunk) : Prop := {
  rt_length : length out ≤ k;
  rt_sorted : sorted_by (λ a b, flt (Text.rc_score a) (Text.rc_score b)) out;
  rt_places : ∃ places, NoDup places ∧ Forall2 (chunk_hit cfg lib query) places out;
}.

(** A hit of the engine as a chunk of the library. *)
Lemma hit_chunk U r lib query k qv hits h :
  rag_inv U r lib → embed query = Ok qv → answers_query (engine_ r) qv k None hits → h ∈ hits →
  ∃ p, chunk_hit (cfg_ r) lib query p (to_retrieved (Engine.store_ (engine_ r)) h) ∧
    VectorStore.resolve (Engine.store_ (engine_ r)) (chunk_id p.1 p.2) = Ok (Some (id h)).
Proof.
  intros [[_ Hdim _ _ Hc] _ _] Hq [_ _ _ Hent] Hh.
  destruct (Hent h Hh) as (x & v & m & _ & Hx & Hres & Hm & _ & Hd).
  apply Hc in Hx as (d & i & t & Ht & -> & [= -> ->]). exists (d, i). split; [|done].
  unfold chunk_hit, to_retrieved. rewrite Hm. cbn. rewrite chunk_meta_doc, chunk_meta_text.
  split; [done|]. split; [done|]. exists qv, (vec_of t). split; [done|]. split; [apply embed_ok|congruence].
Qed.

(** The chunks that [retrieve] makes of the hits. *)
Lemma retrieve_hits U r lib query k hits :
  rag_inv U r lib → Engine.search (engine_ r) (vec_of query) k None 0 = Ok hits →
  answers_query (engine_ r) (vec_of query) k None hits →
  ∃ out places, retrieve r query k = Ok out ∧ retrieved (cfg_ r) lib query k out ∧ NoDup places ∧
    Forall2 (chunk_hit (cfg_ r) lib query) places out ∧
    out = to_retrieved (Engine.store_ (engine_ r)) <$> hits ∧
    Forall2 (λ p h, VectorStore.resolve (Engine.store_ (engine_ r)) (chunk_id p.1 p.2) = Ok (Some (id h))) places hits.
Proof.
  intros Hinv Hs Ha. destruct (embed_ok query) as (Hq & _ & _).
  unfold retrieve. rewrite Hq. cbn [mbind result_bind]. rewrite Hs. cbn [mbind result_bind].
  destruct (Forall2_choose _ hits (λ h, hit_chunk _ _ _ _ _ _ _ h Hinv Hq Ha)) as [places Hp].
  assert (NoDup places) as Hnd.
  { apply (places_NoDup _ id _ _) in Hp; [done| |apply Ha]. intros p h h' [_ H1] [_ H2]. congruence. }
  assert (Forall2 (chunk_hit (cfg_ r) lib query) places (to_retrieved (Engine.store_ (engine_ r)) <$> hits)) as Hch.
  { apply Forall2_fmap_r. eapply Forall2_impl; [exact Hp|]. by intros p h [? _]. }
  eexists _, places. split_and!; [done| |done|done|done|].
  - split; [rewrite length_fmap; apply Ha| |eauto].
    unfold sorted_by. pose proof (aq_sorted _ _ _ _ _ Ha) as Hsort. clear - Hsort.
    induction Hsort as [|h l _ IH Hh]; [constructor|]. constructor; [done|]. apply Forall_fmap.
    eapply Forall_impl; [exact Hh|]. intros h' Hlt. unfold closer in Hlt. cbn.
    unfold to_retrieved. by destruct (VectorStore.metadata _ (id h)), (VectorStore.metadata _ (id h')).
  - eapply Forall2_impl; [exact Hp|]. by intros p h [_ ?].
Qed.

Lemma retrieve_ok (ISL : IndexSearchLaws Ix valid valid) U r lib query k :
  rag_inv U r lib → ∃ out, retrieve r query k = Ok out ∧ retrieved (cfg_ r) lib query k out.
Proof.
  intros Hinv. pose proof Hinv as [[He Hdim _ _ _] _ _]. destruct (embed_ok query) as (_ & Hlen & Hv).
  destruct (search_answers valid (engine_ r) (vec_of query) k None 0 ISL He) as (hits & Hs & Ha);
    [apply He|done|congruence|].
  destruct (retrieve_hits U r lib query k hits Hinv Hs Ha) as (out & _ & ? & ? & _). eauto.
Qed.

(** C25: retrieval is grounded. After any run of calls, [retrieve] returns at most
    [k] chunks, of different places in the texts ingested last, with their texts
    and document ids and their distances to the query, the closest first: never
    a chunk of a removed or replaced text. [build_prompt] is the prompt of
    [retrieve_k] of them, and as long as that is at most ten it stays within
    every budget that covers the query and the reserve. *)
Theorem rag_retrieve (cfg : RagConfig) (r : Rag.t Ix) (ops : list RagOp) (query : string) (k : nat) :
  IndexSearchLaws Ix valid valid → make cfg = Ok r → (N.of_nat (length (run_ids cfg ops)) < 2 ^ 32)%N →
  let r' := (run_log rag_call ops r).2 in
  let lib := (run_log (spec_call cfg) ops ∅).2 in
  (∃ out, retrieve r' query k = Ok out ∧ retrieved cfg lib query k out) ∧
  ∃ chunks, retrieve r' query (retrieve_k cfg) = Ok chunks ∧
    build_prompt r' query = Ok (Text.build (token_budget cfg) query chunks) ∧
    (retrieve_k cfg ≤ 10 → Text.approx_tokens query + Text.kScaffoldTokens ≤ token_budget cfg →
     Text.approx_tokens (Text.build (token_budget cfg) query chunks) ≤ token_budget cfg).
Proof.
  intros ISL Hmk Hlen. cbn zeta. set (U := list_to_set (run_ids cfg ops) : gset string).
  destruct (rag_make_ok U cfg r Hmk) as (Hinv & Hcfg & _).
  pose proof (size_list_to_set_le (run_ids cfg ops)) as HU. fold U in HU.
  pose proof (rag_run_ok U ops r ∅ ltac:(lia) Hinv) as H. rewrite Hcfg in H. specialize (H (run_ids_in cfg ops)).
  destruct (run_log rag_call ops r) as [rs r'], (run_log (spec_call cfg) ops ∅) as [rs' lib].
  destruct H as (_ & Hinv' & Hcfg'). cbn [fst snd]. rewrite <- Hcfg'. split; [by eapply retrieve_ok|].
  destruct (retrieve_ok ISL U r' lib query (retrieve_k (cfg_ r')) Hinv') as (out & Hr & [Hl _ _]).
  exists out. split; [done|]. split.
  - unfold build_prompt. by rewrite Hr.
  - intros Hk Hb. apply Text.build_within; [done|].
    pose proof (Text.in_prompt_length (token_budget (cfg_ r')) query out). lia.
Qed.
End Retrieve.
