(* ===== verification/RagFlat.v ===== *)
(** * Exact retrieval

    The retrieval engine over the exact index, as [RagConfig] has it by default:
    [retrieve] returns the [k] nearest chunks of the library. *)
From S2P Require Import Prelude StdQueue Binary Distance Metadata Bitset VectorStore StoreSpec Index FlatIndex.
From S2P Require Import OpCodec LogStore BlobStore Engine EngineSpec EngineSearch Text Embedding Rag RagSpec RagSearch.
Local Open Scope nat_scope.
Import Rag.

(** ** The places of a library *)

Definition doc_places (cfg : RagConfig) (y : string * string) : list (string * nat) :=
  (λ i, (y.1, i)) <$> seq 0 (length (chunks_of cfg y.2)).

Definition all_places (cfg : RagConfig) (lib : library) : list (string * nat) :=
  map_to_list lib ≫= doc_places cfg.

Lemma elem_of_doc_places cfg d text p : p ∈ doc_places cfg (d, text) ↔ p.1 = d ∧ p.2 < length (chunks_of cfg text).
Proof.
  unfold doc_places. rewrite list_elem_of_fmap. split.
  - intros (i & -> & Hi%elem_of_seq). cbn in *. split; [done|lia].
  - destruct p as [d' i]. cbn. intros [-> Hi]. exists i. split; [done|]. apply elem_of_seq. lia.
Qed.

Lemma elem_of_all_places cfg lib p : p ∈ all_places cfg lib ↔ ∃ t, chunk_at cfg lib p.1 p.2 t.
Proof.
  unfold all_places, chunk_at. rewrite list_elem_of_bind. split.
  - intros ([d text] & [<- Hi]%elem_of_doc_places & Hin%elem_of_map_to_list).
    destruct (lookup_lt_is_Some_2 _ _ Hi) as [t Ht]. by exists t, text.
  - intros (t & text & Hin & Ht). exists (p.1, text). split; [|by apply elem_of_map_to_list].
    apply elem_of_doc_places. split; [done|]. by eapply lookup_lt_Some.
Qed.

Lemma NoDup_all_places cfg lib : NoDup (all_places cfg lib).
Proof.
  unfold all_places. pose proof (NoDup_fst_map_to_list lib) as Hnd.
  induction (map_to_list lib) as [|[d text] l IH]; [constructor|].
  cbn in Hnd. apply NoDup_cons in Hnd as [Hd Hnd]. cbn [mbind list_bind]. apply NoDup_app. split_and!.
  - unfold doc_places. apply NoDup_fmap; [by intros ? ? [= ->]|apply NoDup_seq].
  - intros p [Hp _]%elem_of_doc_places ([d' text'] & [E _]%elem_of_doc_places & Hin)%list_elem_of_bind.
    apply Hd. rewrite <- Hp, E. by apply (list_elem_of_fmap_2 fst) in Hin.
  - by apply IH.
Qed.

Lemma resolve_inj s x y i :
  VectorStore.wf s → VectorStore.resolve s x = Ok (Some i) → VectorStore.resolve s y = Ok (Some i) → x = y.
Proof.
  intros Hwf Hx Hy. assert (∀ z, VectorStore.resolve s z = Ok (Some i) → VectorStore.ext_ids_ s !! N.to_nat i = Some z) as H.
  { intros z. unfold VectorStore.resolve. destruct (VectorStore.ext_to_int_ s !! z) as [j|] eqn:E; [|done].
    destruct (at_ _ _); cbn; [|done]. case_match; [done|]. intros [= ->]. by apply (VectorStore.wf_ids s Hwf). }
  apply H in Hx, Hy. congruence.
Qed.

Section Flat.
Context {EM : EmbeddingModel} {Met : DistanceMetric} {PQ : PQueue (A:=SearchResult) FlatIndex.worse}.
Context {PL : PQueueLaws FlatIndex.worse scored} {valid : list word32 → Prop} {HT : MetricTame Met valid}.
Context {EL : EmbeddingLaws EM valid} {MO : MapOrder}.
Implicit Types (r : Rag.t FlatIndex.t) (lib : library).

(** Every chunk of the library is one entry of the database. *)
Lemma count_chunks U r lib :
  rag_inv (valid := valid) U r lib →
  length (matching None (contents (engine_ r))) = length (all_places (cfg_ r) lib).
Proof.
  intros [[_ _ _ _ Hc] _ _]. set (c := contents (engine_ r)) in *.
  assert ((map_to_list c).*1 ≡ₚ (λ p, chunk_id p.1 p.2) <$> all_places (cfg_ r) lib) as Hp.
  { apply NoDup_Permutation.
    - apply NoDup_fst_map_to_list.
    - apply NoDup_fmap_2_strong; [|apply NoDup_all_places].
      intros [d i] [d' i'] _ _ E. cbn in E. by apply chunk_id_inj in E as [-> ->].
    - intros x. rewrite !list_elem_of_fmap. split.
      + intros ([y z] & -> & Hin%elem_of_map_to_list). apply Hc in Hin as (d & i & t & Ht & -> & _).
        exists (d, i). split; [done|]. apply elem_of_all_places. by exists t.
      + intros ([d i] & -> & (t & Ht)%elem_of_all_places). exists (chunk_id d i, chunk_entry d t). split; [done|].
        apply elem_of_map_to_list, Hc. eauto 6. }
  apply Permutation_length in Hp. rewrite !length_fmap in Hp. rewrite <- Hp. unfold matching.
  f_equal. by apply filter_full.
Qed.

Lemma retrieve_exact U r lib query k :
  rag_inv (valid := valid) U r lib →
  ∃ out places, retrieve r query k = Ok out ∧ retrieved (cfg_ r) lib query k out ∧
    NoDup places ∧ Forall2 (chunk_hit (cfg_ r) lib query) places out ∧
    length out = Nat.min k (length (all_places (cfg_ r) lib)) ∧
    ∀ d i t qv v s c, chunk_at (cfg_ r) lib d i t → (d, i) ∉ places → embed query = Ok qv → embed t = Ok v →
      distance qv v em_dim = Ok s → c ∈ out → ¬ flt s (Text.rc_score c).
Proof.
  intros Hinv. pose proof Hinv as [[He Hdim _ _ Hc] _ _]. destruct (embed_ok query) as (Hq & Hlen & Hv).
  destruct (flat_answers (buildable := valid) valid (engine_ r) (vec_of query) k None 0) as (hits & Hs & [Ha Hl Hclose]);
    [done|done|apply He|done|congruence|].
  destruct (retrieve_hits U r lib query k hits Hinv Hs Ha) as (out & places & Hr & Hrt & Hnd & Hch & -> & Hres).
  eexists _, places. split_and!; try done.
  - rewrite length_fmap, Hl. f_equal. by eapply count_chunks.
  - intros d i t qv v s c Ht Hp Hqv Ev Hd (h & -> & Hh)%list_elem_of_fmap.
    assert (contents (engine_ r) !! chunk_id d i = Some (chunk_entry d t)) as Hx by (apply Hc; eauto 6).
    rewrite Hq in Hqv. injection Hqv as <-. destruct (embed_ok t) as [Hvt _]. rewrite Hvt in Ev. injection Ev as <-.
    assert (Text.rc_score (to_retrieved (Engine.store_ (engine_ r)) h) = score h) as ->
      by (unfold to_retrieved; by destruct (VectorStore.metadata _ (id h))).
    refine (Hclose _ _ _ s h Hx _ Hh _ _); [done|by rewrite Hdim|].
    intros h' Hh' Hext. destruct (aq_entry _ _ _ _ _ Ha h' Hh') as (x & v & m & Hx' & _ & Hrs & _).
    rewrite Hext in Hx'. injection Hx' as <-. apply list_elem_of_lookup in Hh' as [n Hn].
    destruct (Forall2_lookup_r _ _ _ _ _ Hres Hn) as ([d' i'] & Hp' & Hrs'). cbn in Hrs'.
    apply Hp. apply list_elem_of_lookup. exists n. rewrite Hp'. f_equal.
    destruct (chunk_id_inj d' d i' i) as [-> ->]; [|done]. by eapply resolve_inj; [apply He|..].
Qed.

(** C33: retrieval over the exact index is exact. After any run of calls,
    [retrieve] returns as many chunks as the texts ingested last have, up to
    [k], with their distances and the closest first, and no chunk at another
    place is closer to the query than a returned one. *)
Theorem rag_flat_exact (cfg : RagConfig) (r : Rag.t FlatIndex.t) (ops : list RagOp) (query : string) (k : nat) :
  make cfg = Ok r → (N.of_nat (length (run_ids cfg ops)) < 2 ^ 32)%N →
  let r' := (run_log rag_call ops r).2 in
  let lib := (run_log (spec_call cfg) ops ∅).2 in
  ∃ out places, retrieve r' query k = Ok out ∧ retrieved cfg lib query k out ∧
    NoDup places ∧ Forall2 (chunk_hit cfg lib query) places out ∧
    length out = Nat.min k (length (all_places cfg lib)) ∧
    ∀ d i t qv v s c, chunk_at cfg lib d i t → (d, i) ∉ places → embed query = Ok qv → embed t = Ok v →
      distance qv v em_dim = Ok s → c ∈ out → ¬ flt s (Text.rc_score c).
Proof.
  intros Hmk Hlen. cbn zeta. set (U := list_to_set (run_ids cfg ops) : gset string).
  destruct (rag_make_ok (valid := valid) U cfg r Hmk) as (Hinv & Hcfg & _).
  pose proof (size_list_to_set_le (run_ids cfg ops)) as HU. fold U in HU.
  pose proof (rag_run_ok U ops r ∅ ltac:(lia) Hinv) as H. rewrite Hcfg in H. specialize (H (run_ids_in cfg ops)).
  destruct (run_log rag_call ops r) as [rs r'], (run_log (spec_call cfg) ops ∅) as [rs' lib].
  destruct H as (_ & Hinv' & Hcfg'). cbn [fst snd]. rewrite <- Hcfg'. by apply (retrieve_exact U).
Qed.
End Flat.
