(* ===== verification/RagDemo.v ===== *)
(** * The retrieval engine on a concrete library

    The hashing model, the exact index and the cosine metric, as the default
    configuration has them, and three documents, one of them with the separator
    of chunk ids in its name. *)
From S2P Require Import Prelude StdQueue Binary Rounding Distance Metadata VectorStore StoreSpec Index DistanceBounds FlatIndex OpCodec.
From S2P Require Import Engine EngineSpec EngineSearch Text Embedding EmbeddingBounds Rag RagSpec RagSearch RagFlat.
Local Open Scope nat_scope.
Import Rag.

#[local] Instance rag_metric : DistanceMetric := Cosine.
#[local] Instance rag_pqueue : PQueue FlatIndex.worse := list_pqueue FlatIndex.worse.
#[local] Instance rag_pqueue_laws : PQueueLaws FlatIndex.worse scored := list_pqueue_laws FlatIndex.worse scored.
#[local] Instance rag_order : MapOrder := list_order.
#[local] Instance rag_index : IndexOps FlatIndex.t := FlatIndex.flat_ops.
#[local] Instance rag_index_laws : IndexLaws FlatIndex.t small_vec := FlatIndex.flat_laws small_vec.
#[local] Instance rag_tame : MetricTame rag_metric small_vec := small_tame MetricCosine.

#[local] Instance rag_model : EmbeddingModel := Mock.mock_model 64.
#[local] Instance rag_model_laws : EmbeddingLaws rag_model small_vec := mock_laws 64 (conj eq_refl eq_refl).

Definition small_config : RagConfig :=
  {| chunk := {| Text.window := 3; Text.overlap := 1 |}; retrieve_k := 3; token_budget := 40 |}.

Definition store64 : VectorStore.t :=
  match VectorStore.make 64 with Ok s => s | Throw _ => store2 end.

Definition demo_rag : Rag.t FlatIndex.t :=
  {| cfg_ := small_config; doc_chunks_ := ∅;
     engine_ := {| Engine.cfg_dim := 64; Engine.store_ := store64; Engine.index_ := ix_make;
                   Engine.wal_ := None; Engine.blobs_ := None |} |}.

Definition demo_calls : list RagOp :=
  [Ingest {| doc_name := "a"; doc_text := "the quick brown fox jumps over the lazy dog" |};
   Ingest {| doc_name := "a#1"; doc_text := "Zebras run" |};
   Ingest {| doc_name := "a"; doc_text := "a shorter text" |};
   Ingest {| doc_name := "b"; doc_text := "to be removed" |};
   Remove "b"; Remove "c"].

(** The chunks and the answers of the run. *)
Example rag_answers :
  (run_log rag_call demo_calls demo_rag).1 =
  [Ok (inl 4); Ok (inl 1); Ok (inl 1); Ok (inl 1); Ok (inr true); Ok (inr false)].
Proof. vm_compute. reflexivity. Qed.

(** The text without tokens removes its document. *)
Example demo_blank :
  document_count (run_log rag_call (demo_calls ++ [Ingest {| doc_name := "a"; doc_text := "  " |}]) demo_rag).2 = 1.
Proof. vm_compute. reflexivity. Qed.

(** The chunk nearest to a text is the one that is equal to it. *)
Example demo_retrieve :
  fmap (M:=result) (fmap (M:=list) Text.rc_text)
    (retrieve (run_log rag_call demo_calls demo_rag).2 "zebras run" 1) = Ok ["zebras run"].
Proof. vm_compute. reflexivity. Qed.

Lemma rag_refines_witness :
  let '(rs, r') := run_log rag_call demo_calls demo_rag in
  let '(rs', lib) := run_log (spec_call small_config) demo_calls ∅ in
  rs = rs' ∧ document_count r' = size lib ∧ engine_inv (engine_ r') ∧
  ∀ x v m, contents (engine_ r') !! x = Some (v, m) ↔
    ∃ d i t, chunk_at small_config lib d i t ∧ x = chunk_id d i ∧ embed t = Ok v ∧ m = chunk_meta d t.
Proof. apply (rag_refines small_config demo_rag demo_calls); vm_compute; reflexivity. Defined.

Lemma rag_retrieve_witness :
  let r' := (run_log rag_call demo_calls demo_rag).2 in
  let lib := (run_log (spec_call small_config) demo_calls ∅).2 in
  (∃ out, retrieve r' "zebras" 2 = Ok out ∧ retrieved small_config lib "zebras" 2 out) ∧
  ∃ chunks, retrieve r' "zebras" (retrieve_k small_config) = Ok chunks ∧
    build_prompt r' "zebras" = Ok (Text.build (token_budget small_config) "zebras" chunks) ∧
    (retrieve_k small_config ≤ 10 → Text.approx_tokens "zebras" + Text.kScaffoldTokens ≤ token_budget small_config →
     Text.approx_tokens (Text.build (token_budget small_config) "zebras" chunks) ≤ token_budget small_config).
Proof.
  apply (rag_retrieve small_config demo_rag demo_calls "zebras" 2);
    [apply FlatIndex.flat_search_laws, rag_tame|vm_compute; reflexivity|vm_compute; reflexivity].
Defined.

Lemma rag_flat_exact_witness :
  let r' := (run_log rag_call demo_calls demo_rag).2 in
  let lib := (run_log (spec_call small_config) demo_calls ∅).2 in
  ∃ out places, retrieve r' "zebras" 2 = Ok out ∧ retrieved small_config lib "zebras" 2 out ∧
    NoDup places ∧ Forall2 (chunk_hit small_config lib "zebras") places out ∧
    length out = Nat.min 2 (length (all_places small_config lib)) ∧
    ∀ d i t qv v s c, chunk_at small_config lib d i t → (d, i) ∉ places → embed "zebras" = Ok qv → embed t = Ok v →
      distance qv v em_dim = Ok s → c ∈ out → ¬ flt s (Text.rc_score c).
Proof.
  apply (rag_flat_exact (valid := small_vec) small_config demo_rag demo_calls "zebras" 2);
    vm_compute; reflexivity.
Defined.

(** ** The hashing model *)

Lemma mock_bag_of_words_witness :
  (∃ v, Mock.mock_embed 256 "Hello big world" = Ok v ∧ length v = N.to_nat 256 ∧ small_vec v) ∧
  (Mock.counted (Text.tokenize "Hello big world") ≡ₚ Mock.counted (Text.tokenize "a world of BIG  hello") →
   (Z.of_nat (length (Mock.counted (Text.tokenize "Hello big world"))) < 2 ^ 24)%Z →
   Mock.mock_embed 256 "Hello big world" = Mock.mock_embed 256 "a world of BIG  hello").
Proof. apply (mock_bag_of_words 256). by split. Defined.
