(* ===== verification/RagProgram.v ===== *)
(** * The retrieval example ([examples/rag_demo.cpp])

    The program that ingests four documents with the hashing model, retrieves
    for a query and builds its prompt; what it prints is the record [Output]. *)
From S2P Require Import Prelude StdQueue Binary Distance VectorStore StoreSpec Index DistanceBounds FlatIndex OpCodec.
From S2P Require Import Engine EngineSpec EngineSearch Text Embedding EmbeddingBounds Rag RagSpec RagSearch RagFlat.
Local Open Scope nat_scope.
Import Rag.

Module RagProgram.

Record Output := {
  documents : nat;
  total_chunks : nat;
  indexed_vectors : nat;
  top_hits : list Text.RetrievedChunk;
  prompt : string;
}.

(** The configuration: small chunks, the cosine metric and the exact index of
    [RagConfig] by default. *)
Definition cfg : RagConfig :=
  {| chunk := {| Text.window := 12; Text.overlap := 4 |}; retrieve_k := 3; token_budget := 128 |}.

Definition corpus : list Document :=
  [{| doc_name := "hnsw";
      doc_text := "HNSW is a graph based approximate nearest neighbour index that uses a " +:+
        "hierarchy of navigable small world layers to find close vectors quickly." |};
   {| doc_name := "wal";
      doc_text := "A write ahead log records every mutation before it is applied so the " +:+
        "database can recover its state after a crash by replaying the log." |};
   {| doc_name := "cosine";
      doc_text := "Cosine similarity measures the angle between two vectors and is a common " +:+
        "distance metric for comparing text embeddings in a vector database." |};
   {| doc_name := "rag";
      doc_text := "Retrieval augmented generation retrieves relevant documents and injects them " +:+
        "into the prompt so a language model can answer using grounded context." |}].

Definition query : string := "how does a database recover after a crash".

#[local] Existing Instance Cosine.
#[local] Instance model : EmbeddingModel := Mock.mock_model 256.

Section Main.
Context {PQ : PQueue (A:=SearchResult) FlatIndex.worse} {MO : MapOrder}.

(** [for (const auto& doc : corpus) total_chunks += rag.ingest(doc);] *)
Fixpoint ingest_all (docs : list Document) (total : nat) : M (Rag.t FlatIndex.t) nat :=
  match docs with
  | [] => mret total
  | doc :: docs => n ← ingest doc; ingest_all docs (total + n)
  end.

Definition main : result Output :=
  rag ← make cfg;
  let '(r, rag) := ingest_all corpus 0 rag in
  total ← r;
  hits ← retrieve rag query (retrieve_k cfg);
  text ← build_prompt rag query;
  Ok {| documents := length corpus; total_chunks := total;
        indexed_vectors := VectorStore.size (Engine.store_ (engine_ rag)); top_hits := hits; prompt := text |}.
End Main.

(** ** What it prints *)

Section Spec.
Context {PQ : PQueue (A:=SearchResult) FlatIndex.worse} {PL : PQueueLaws FlatIndex.worse scored} {MO : MapOrder}.
#[local] Instance program_laws : EmbeddingLaws model small_vec := mock_laws 256 (conj eq_refl eq_refl).
#[local] Instance program_tame : MetricTame Cosine small_vec := small_tame MetricCosine.
Implicit Types (r : Rag.t FlatIndex.t).

Definition ingested (docs : list Document) (lib : library) : library :=
  foldl (λ lib doc, lib_put cfg (doc_name doc) (doc_text doc) lib) lib docs.

Lemma ingest_all_ok U docs r lib total :
  (N.of_nat (size U) < 2 ^ 32)%N → rag_inv (valid := small_vec) U r lib → cfg_ r = cfg →
  Forall (λ doc, Forall (.∈ U) (op_ids cfg (Ingest doc))) docs →
  ∃ r', ingest_all docs total r =
      (Ok (foldl (λ n doc, n + length (chunks_of cfg (doc_text doc))) total docs), r') ∧
    rag_inv (valid := small_vec) U r' (ingested docs lib) ∧ cfg_ r' = cfg.
Proof.
  intros HU. revert r lib total. induction docs as [|doc docs IH]; intros r lib total Hinv Hc Hdocs; [by exists r|].
  apply Forall_cons in Hdocs as [Hdoc Hdocs]. rewrite <- Hc in Hdoc.
  destruct (ingest_ok (valid := small_vec) U r lib doc HU Hinv Hdoc) as (r1 & H1 & Hc1 & Hinv1). rewrite Hc in H1, Hc1, Hinv1.
  destruct (IH r1 _ (total + length (chunks_of cfg (doc_text doc))) Hinv1 Hc1 Hdocs) as (r' & H' & Hinv' & Hc').
  exists r'. split; [|done]. cbn [ingest_all]. unfold mbind, M_bind. by rewrite H1.
Qed.

Lemma ingest_ids docs :
  Forall (λ doc, Forall (.∈ (list_to_set (run_ids cfg (Ingest <$> docs)) : gset string)) (op_ids cfg (Ingest doc))) docs.
Proof. pose proof (run_ids_in cfg (Ingest <$> docs)) as H. rewrite Forall_fmap in H. exact H. Qed.

(** The texts of the corpus. *)
Definition program_library : library := ingested corpus ∅.

(** The example program runs to its output, whatever the priority queue of the
    standard library does with ties: it ingests four documents in twelve chunks,
    each one in the index, retrieves three chunks than which no other chunk is
    closer to the query, and prints a prompt within the budget. *)
Theorem rag_demo_output :
  ∃ o places, main = Ok o ∧ documents o = 4 ∧ total_chunks o = 12 ∧ indexed_vectors o = 12 ∧
    length (top_hits o) = 3 ∧ retrieved cfg program_library query 3 (top_hits o) ∧
    Forall2 (chunk_hit cfg program_library query) places (top_hits o) ∧
    (∀ d i t qv v s c, chunk_at cfg program_library d i t → (d, i) ∉ places → embed query = Ok qv → embed t = Ok v →
       distance qv v em_dim = Ok s → c ∈ top_hits o → ¬ flt s (Text.rc_score c)) ∧
    prompt o = Text.build 128 query (top_hits o) ∧ Text.approx_tokens (prompt o) ≤ 128.
Proof.
  assert (∃ s, VectorStore.make em_dim = Ok s) as [s0 Hs0].
  { unfold VectorStore.make. destruct (N.eqb_spec em_dim 0) as [E|_]; [discriminate E|by eexists]. }
  assert (∃ r, make (Ix := FlatIndex.t) cfg = Ok r) as [r Hmk].
  { unfold make, Engine.open_engine. rewrite Hs0. cbn [mbind result_bind]. eexists. reflexivity. }
  set (U := list_to_set (run_ids cfg (Ingest <$> corpus)) : gset string).
  destruct (rag_make_ok (valid := small_vec) U cfg r Hmk) as (Hinv & Hcfg & _).
  assert (N.of_nat (size U) < 2 ^ 32)%N as HU.
  { pose proof (size_list_to_set_le (run_ids cfg (Ingest <$> corpus))) as H. fold U in H.
    assert (length (run_ids cfg (Ingest <$> corpus)) = 12) as E by (vm_compute; reflexivity). lia. }
  destruct (ingest_all_ok U corpus r ∅ 0 HU Hinv Hcfg (ingest_ids corpus)) as (r' & Hrun & Hinv' & Hcfg').
  destruct (retrieve_exact U r' _ query 3 Hinv') as (out & places & Hret & Hrt & _ & Hhits & Hlen & Hclose).
  rewrite Hcfg' in *. fold program_library in *.
  assert (length (all_places cfg program_library) = 12) as Hpl by (vm_compute; reflexivity).
  exists {| documents := 4; total_chunks := 12; indexed_vectors := 12; top_hits := out;
            prompt := Text.build 128 query out |}, places.
  rewrite Hpl in Hlen. change (Nat.min 3 12) with 3 in Hlen.
  split; [|split; [reflexivity|split; [reflexivity|split; [reflexivity|split; [exact Hlen|split; [exact Hrt|
    split; [exact Hhits|split; [exact Hclose|split; [reflexivity|]]]]]]]]].
  - unfold main. rewrite Hmk. cbn [mbind result_bind]. rewrite Hrun. cbn [mbind result_bind retrieve_k cfg].
    unfold build_prompt. rewrite Hcfg'. cbn [retrieve_k token_budget cfg]. rewrite Hret. cbn [mbind result_bind].
    assert (VectorStore.size (Engine.store_ (engine_ r')) = 12) as Hsize.
    { pose proof Hinv' as [[[Hwf _ _ _] _ _ _ _] _ _]. rewrite (size_abs _ Hwf), <- matching_all.
      etrans; [exact (count_chunks U r' program_library Hinv')|]. rewrite Hcfg'. exact Hpl. }
    rewrite Hsize. match goal with |- Ok {| total_chunks := ?a |} = _ => assert (a = 12) as -> by (vm_compute; reflexivity) end.
    reflexivity.
  - cbn [prompt]. apply Text.build_within; [apply (bool_decide_unpack _); vm_compute; exact I|].
    pose proof (Text.in_prompt_length 128 query out) as H. rewrite Hlen in H. clear -H. lia.
Qed.
End Spec.

#[local] Instance program_queue : PQueue (A:=SearchResult) FlatIndex.worse := list_pqueue FlatIndex.worse.
#[local] Instance program_order : MapOrder := list_order.

(** The best hits are of the text on the log. *)
Example main_output :
  match main with
  | Ok o => (documents o, total_chunks o, indexed_vectors o, Text.doc_id <$> top_hits o)
  | Throw _ => (0, 0, 0, [])
  end = (4, 12, 12, ["wal"; "wal"; "wal"]).
Proof. vm_compute. reflexivity. Qed.
End RagProgram.
