(* ===== verification/Threads.v ===== *)
(** * Threads and a mutex ([std::mutex], [std::lock_guard])

    Threads that run a guarded section each, in any interleaving. A thread
    prepares its section without the lock, waits for the lock, makes its accesses
    to the shared objects one at a time, and leaves. Nothing here knows the
    program: a task and its meaning are parameters. *)
From S2P Require Import Prelude.
Local Open Scope nat_scope.

(** ** Sections *)

(** Accesses to objects of type [S], each with its outcome, to a result in [A]. *)
Inductive critical (S A : Type) : Type :=
| Leave (a : A)
| Access {B : Type} (m : M S B) (k : result B → critical S A).
Arguments Leave {S A} a.
Arguments Access {S A B} m k.

(** The whole section, alone. *)
Fixpoint run_section {S A} (c : critical S A) (s : S) : A * S :=
  match c with
  | Leave a => (a, s)
  | Access m k => let '(r, s') := m s in run_section (k r) s'
  end.

(** An access whose exception unwinds the section. *)
Definition access {S B C} (m : M S B) (k : B → critical S (result C)) : critical S (result C) :=
  Access m (λ r, match r with Ok b => k b | Throw e => Leave (Throw e) end).

Lemma run_access {S B C} (m : M S B) (k : B → critical S (result C)) s :
  run_section (access m k) s = (b ← m; run_section (k b)) s.
Proof. unfold mbind, M_bind. cbn. by destruct (m s) as [[b|e] s']. Qed.

(** A const access. *)
Definition reading {S A} (f : S → A) : M S A := λ s, (Ok (f s), s).

(** ** Lists of which one element moves *)

Definition list_step {A} (R : A → A → Prop) (l' l : list A) : Prop :=
  ∃ i x y, l !! i = Some x ∧ R y x ∧ l' = <[i := y]> l.

Lemma list_step_Acc {A} (R : A → A → Prop) (l : list A) : Forall (Acc R) l → Acc (list_step R) l.
Proof.
  induction 1 as [|x l Hx _ IH]; [constructor; by intros l' (i & x & y & Hi & _)|].
  revert l IH. induction Hx as [x _ IHx]. intros l IH. induction IH as [l Hl IHl].
  constructor. intros l' ([|i] & x' & y & Hi & Hy & ->); cbn in Hi |- *.
  - injection Hi as <-. apply IHx; [done|by constructor].
  - apply IHl. by exists i, x', y.
Qed.

(** ** The machine *)

Section Machine.
Context {S T A : Type}.

(** What a task does: it ends without the lock, or runs a section under it and
    then [finish] outside. *)
Inductive plan :=
| Unlocked (a : A)
| Locked (c : critical S A) (finish : A → A).

Context (prepare : T → plan).

Inductive thread :=
| Arrived
| Waiting (c : critical S A) (finish : A → A)
| Inside (c : critical S A) (finish : A → A)
| Answered (a : A).

(** The objects, the owner of the mutex, a thread for each task; [history] records
    the tasks as they take the lock (or end without it). *)
Record config := { objects : S; mu : option nat; threads : list (T * thread); history : list (nat * T) }.

Definition boot (s : S) : config := {| objects := s; mu := None; threads := []; history := [] |}.

Definition arrive (t : T) (c : config) : config :=
  {| objects := objects c; mu := mu c; threads := threads c ++ [(t, Arrived)]; history := history c |}.

Definition become (i : nat) (t : T) (th : thread) (c : config) : list (T * thread) := <[i := (t, th)]> (threads c).

(** The next step of thread [i]; none when it is done, or blocked at the lock. *)
Definition move (i : nat) (c : config) : option config :=
  match threads c !! i with
  | Some (t, Arrived) =>
      match prepare t with
      | Unlocked a =>
          Some {| objects := objects c; mu := mu c; threads := become i t (Answered a) c; history := history c ++ [(i, t)] |}
      | Locked sec finish =>
          Some {| objects := objects c; mu := mu c; threads := become i t (Waiting sec finish) c; history := history c |}
      end
  | Some (t, Waiting sec finish) =>
      match mu c with
      | None =>
          Some {| objects := objects c; mu := Some i; threads := become i t (Inside sec finish) c;
                  history := history c ++ [(i, t)] |}
      | Some _ => None
      end
  | Some (t, Inside sec finish) =>
      match sec with
      | Access m k =>
          let '(r, s') := m (objects c) in
          Some {| objects := s'; mu := mu c; threads := become i t (Inside (k r) finish) c; history := history c |}
      | Leave a =>
          Some {| objects := objects c; mu := None; threads := become i t (Answered (finish a)) c; history := history c |}
      end
  | Some (_, Answered _) | None => None
  end.

(** A schedule: arrivals, and turns of the threads; the turn of a thread that is
    blocked or done passes. *)
Inductive event := Arrive (t : T) | Turn (i : nat).

Definition happen (e : event) (c : config) : config :=
  match e with
  | Arrive t => arrive t c
  | Turn i => default c (move i c)
  end.

Definition run_schedule (es : list event) (c : config) : config := foldl (flip happen) c es.

Definition is_inside (c : config) (i : nat) : Prop := ∃ t sec finish, threads c !! i = Some (t, Inside sec finish).
Definition is_answered (th : thread) : bool := match th with Answered _ => true | _ => false end.

(** ** Every schedule is the serial run in the order of the lock *)

(** The serial meaning of a task. *)
Context (handle : T → S → A * S).

Definition means (p : plan) (f : S → A * S) : Prop :=
  match p with
  | Unlocked a => ∀ s, f s = (a, s)
  | Locked sec finish => ∀ s, f s = (let '(a, s') := run_section sec s in (finish a, s'))
  end.

Context (Hmeans : ∀ t, means (prepare t) (handle t)).

(** The tasks one after the other. *)
Fixpoint serial (l : list T) (s : S) : list A * S :=
  match l with
  | [] => ([], s)
  | t :: l => let '(a, s1) := handle t s in let '(xs, s2) := serial l s1 in (a :: xs, s2)
  end.

Lemma serial_app l l' s :
  serial (l ++ l') s = let '(xs, s1) := serial l s in let '(ys, s2) := serial l' s1 in (xs ++ ys, s2).
Proof.
  revert s. induction l as [|t l IH]; intros s; cbn; [by destruct (serial l' s)|].
  destruct (handle t s) as [a s1]. rewrite IH. destruct (serial l s1) as [xs s2]. by destruct (serial l' s2).
Qed.

Lemma serial_snoc l t s xs s1 a s2 :
  serial l s = (xs, s1) → handle t s1 = (a, s2) → serial (l ++ [t]) s = (xs ++ [a], s2).
Proof. intros Hl Ht. rewrite serial_app, Hl. cbn. by rewrite Ht. Qed.

(** The position of a thread in the order, with its answer in the serial run. *)
Definition placed (o : list (nat * T)) (xs : list A) (i : nat) (t : T) (a : A) : Prop :=
  ∃ n, o !! n = Some (i, t) ∧ xs !! n = Some a.

Lemma placed_app o o' xs ys i t a : placed o xs i t a → placed (o ++ o') (xs ++ ys) i t a.
Proof. intros (n & Ho & Hx). exists n. split; by apply lookup_app_l_Some. Qed.

Lemma placed_last o xs i t a : length xs = length o → placed (o ++ [(i, t)]) (xs ++ [a]) i t a.
Proof.
  intros Hl. exists (length o). split; [by apply list_lookup_middle|]. by apply list_lookup_middle.
Qed.

(** What the thread of a task may look like, given the order so far and the
    answers of the serial run. *)
Definition thread_ok (o : list (nat * T)) (xs : list A) (lock : option nat) (i : nat) (t : T) (th : thread) : Prop :=
  match th with
  | Arrived => i ∉ o.*1
  | Waiting sec finish => prepare t = Locked sec finish ∧ i ∉ o.*1
  | Inside _ _ => lock = Some i
  | Answered a => placed o xs i t a ∧ lock ≠ Some i
  end.

(** The objects are those of the serial run; while a section runs, those it will
    have when the section has ended. *)
Definition objects_ok (xs : list A) (s' : S) (c : config) : Prop :=
  match mu c with
  | None => objects c = s'
  | Some i => ∃ t sec finish, threads c !! i = Some (t, Inside sec finish) ∧
      ∃ a, run_section sec (objects c) = (a, s') ∧ placed (history c) xs i t (finish a)
  end.

(** [xs] and [s'] are the outcome of the serial run. *)
Record agrees (xs : list A) (s' : S) (c : config) : Prop := {
  ag_threads i t th : threads c !! i = Some (t, th) → thread_ok (history c) xs (mu c) i t th;
  ag_objects : objects_ok xs s' c;
  ag_order : NoDup (history c).*1;
  ag_length : length xs = length (history c);
  ag_known i t : (i, t) ∈ history c → fst <$> threads c !! i = Some t;
}.

Definition machine_inv (s0 : S) (c : config) : Prop :=
  ∃ xs s', serial (history c).*2 s0 = (xs, s') ∧ agrees xs s' c.

Lemma boot_inv s : machine_inv s (boot s).
Proof. exists [], s. split; [done|]. split; cbn; [done|done|constructor|done|by intros ?? ?%elem_of_nil]. Qed.

(** An id that is in the order belongs to a thread. *)
Lemma order_lt xs s' c i : agrees xs s' c → i ∈ (history c).*1 → i < length (threads c).
Proof.
  intros Hag ([i' t] & -> & Hin)%list_elem_of_fmap. apply (ag_known _ _ _ Hag) in Hin. cbn.
  apply lookup_lt_is_Some. destruct (threads c !! i') as [[]|]; [by eexists|done].
Qed.

Lemma arrive_inv s0 t c : machine_inv s0 c → machine_inv s0 (arrive t c).
Proof.
  intros (xs & s' & Hs & Hag). exists xs, s'. split; [done|].
  pose proof Hag as [Ht Ho Hn Hl Hk]. split; cbn [arrive history mu threads objects].
  - intros i t' th [Hi|[Hi Hz]]%lookup_app_Some; [by apply Ht|].
    apply list_lookup_singleton_Some in Hz as [Hz [= <- <-]]. intros Hin.
    apply (order_lt _ _ _ _ Hag) in Hin. lia.
  - unfold objects_ok in *. cbn. destruct (mu c) as [i|]; [|done].
    destruct Ho as (t' & sec & f & Hi & H). exists t', sec, f. split; [by apply lookup_app_l_Some|done].
  - done.
  - done.
  - intros i t' Hin. apply Hk in Hin. destruct (threads c !! i) as [x|] eqn:E; [|done].
    by rewrite (lookup_app_l_Some _ _ _ _ E).
Qed.

(** *** A thread moves *)

Lemma become_fst c i t th th' j :
  threads c !! i = Some (t, th) → fst <$> become i t th' c !! j = fst <$> threads c !! j.
Proof.
  intros Hi. unfold become. destruct (decide (j = i)) as [->|]; [|by rewrite list_lookup_insert_ne].
  rewrite list_lookup_insert_eq by (by eapply lookup_lt_Some). by rewrite Hi.
Qed.

Lemma become_lookup c i t th j t' th' :
  become i t th c !! j = Some (t', th') → (j = i ∧ t' = t ∧ th' = th) ∨ (j ≠ i ∧ threads c !! j = Some (t', th')).
Proof. unfold become. intros [(<- & [= -> ->] & _)|[? ?]]%list_lookup_insert_Some; [by left|right; auto]. Qed.

Lemma become_eq c i x t th : threads c !! i = Some x → become i t th c !! i = Some (t, th).
Proof. intros Hi. apply list_lookup_insert_eq. by eapply lookup_lt_Some. Qed.

Lemma thread_ok_other o xs lock i t a j t' th :
  j ≠ i → thread_ok o xs lock j t' th → thread_ok (o ++ [(i, t)]) (xs ++ [a]) lock j t' th.
Proof.
  intros Hj. unfold thread_ok. rewrite fmap_app. cbn.
  destruct th; rewrite ?not_elem_of_app, ?list_elem_of_singleton; [done|tauto|done|].
  intros [? ?]. split; [by apply placed_app|done].
Qed.

Lemma order_snoc xs s' c i t th th' :
  agrees xs s' c → threads c !! i = Some (t, th) → i ∉ (history c).*1 →
  NoDup (history c ++ [(i, t)]).*1 ∧
  ∀ j t', (j, t') ∈ history c ++ [(i, t)] → fst <$> become i t th' c !! j = Some t'.
Proof.
  intros Hag Hi Hin. split.
  - rewrite fmap_app. apply NoDup_app. split_and!; [apply Hag| |apply NoDup_singleton].
    cbn. intros j Hj ->%list_elem_of_singleton. done.
  - intros j t'. rewrite elem_of_app, list_elem_of_singleton, (become_fst c i t th th' j Hi).
    intros [Hj|[= -> ->]]; [by apply (ag_known _ _ _ Hag)|]. by rewrite Hi.
Qed.

(** The thread that holds the lock is the only one inside. *)
Lemma holder xs s' c i t sec finish :
  agrees xs s' c → threads c !! i = Some (t, Inside sec finish) →
  mu c = Some i ∧ ∃ a, run_section sec (objects c) = (a, s') ∧ placed (history c) xs i t (finish a).
Proof.
  intros Hag Hi. pose proof (ag_threads _ _ _ Hag _ _ _ Hi) as Hm. cbn in Hm. split; [done|].
  pose proof (ag_objects _ _ _ Hag) as Ho. unfold objects_ok in Ho. rewrite Hm in Ho.
  destruct Ho as (t' & sec' & f' & Hi' & H). rewrite Hi in Hi'. by injection Hi' as <- <- <-.
Qed.

(** A step of a thread that does not hold the lock leaves the section of the
    holder as it is. *)
Lemma objects_ok_other xs s' c i x t th o ys :
  threads c !! i = Some x → (∀ t sec finish, x ≠ (t, Inside sec finish)) → objects_ok xs s' c →
  objects_ok (xs ++ ys) s' {| objects := objects c; mu := mu c; threads := become i t th c; history := history c ++ o |}.
Proof.
  intros Hi Hx. unfold objects_ok. cbn. destruct (mu c) as [j|]; [|done].
  intros (t' & sec & f & Hj & a & Hr & Hp). exists t', sec, f. split.
  - unfold become. rewrite list_lookup_insert_ne; [done|]. intros <-. rewrite Hi in Hj. injection Hj as ->. by eapply Hx.
  - exists a. split; [done|by apply placed_app].
Qed.

Lemma move_decode xs s' c i t sec finish :
  agrees xs s' c → threads c !! i = Some (t, Arrived) → prepare t = Locked sec finish →
  agrees xs s' {| objects := objects c; mu := mu c; threads := become i t (Waiting sec finish) c; history := history c |}.
Proof.
  intros Hag Hi Hp. pose proof Hag as [Ht Ho Hn Hl Hk]. split; cbn; [| |done|done|].
  - intros j t' th [(-> & -> & ->)|[_ Hj]]%become_lookup; [|by apply Ht]. split; [done|]. by apply Ht in Hi.
  - rewrite <- (app_nil_r xs), <- (app_nil_r (history c)). by eapply objects_ok_other.
  - intros j t' Hj. rewrite (become_fst c i t Arrived _ j Hi). by apply Hk.
Qed.

(** A task that needs no lock is placed when it ends. *)
Lemma move_unlocked xs s' c i t a :
  agrees xs s' c → threads c !! i = Some (t, Arrived) →
  agrees (xs ++ [a]) s'
    {| objects := objects c; mu := mu c; threads := become i t (Answered a) c; history := history c ++ [(i, t)] |}.
Proof.
  intros Hag Hi. pose proof (ag_threads _ _ _ Hag _ _ _ Hi) as Hin. cbn in Hin.
  destruct (order_snoc _ _ _ _ _ _ (Answered a) Hag Hi Hin) as [Hn Hk]. split; cbn; [| |done| |done].
  - intros j t' th [(-> & -> & ->)|[Hj Hj']]%become_lookup.
    + split; [apply placed_last, Hag|]. intros Hm. pose proof (ag_objects _ _ _ Hag) as Ho. unfold objects_ok in Ho.
      rewrite Hm in Ho. destruct Ho as (? & ? & ? & Hi' & _). congruence.
    + apply thread_ok_other; [done|]. by apply Hag.
  - by eapply objects_ok_other, Hag.
  - rewrite !length_app. f_equal. apply Hag.
Qed.

(** A waiting task is placed when it takes the lock. *)
Lemma move_acquire xs s1 c i t sec finish a s2 :
  agrees xs s1 c → threads c !! i = Some (t, Waiting sec finish) → mu c = None → run_section sec s1 = (a, s2) →
  agrees (xs ++ [finish a]) s2
    {| objects := objects c; mu := Some i; threads := become i t (Inside sec finish) c; history := history c ++ [(i, t)] |}.
Proof.
  intros Hag Hi Hm Hr. destruct (ag_threads _ _ _ Hag _ _ _ Hi) as [_ Hin].
  destruct (order_snoc _ _ _ _ _ _ (Inside sec finish) Hag Hi Hin) as [Hn Hk]. split; cbn; [| |done| |done].
  - intros j t' th [(-> & -> & ->)|[Hj Hj']]%become_lookup; [done|].
    apply (ag_threads _ _ _ Hag) in Hj'. apply (thread_ok_other _ _ _ i t (finish a)) in Hj'; [|done]. rewrite Hm in Hj'.
    destruct th; cbn in *; [done|done|done|]. split; [tauto|congruence].
  - pose proof (ag_objects _ _ _ Hag) as Ho. unfold objects_ok in *. rewrite Hm in Ho. cbn.
    exists t, sec, finish. split; [by eapply become_eq|]. rewrite Ho. exists a. split; [done|]. apply placed_last, Hag.
  - rewrite !length_app. f_equal. apply Hag.
Qed.

(** An access of the holder. *)
Lemma move_access xs s' c i t B (m : M S B) k finish r s1 :
  agrees xs s' c → threads c !! i = Some (t, Inside (Access m k) finish) → m (objects c) = (r, s1) →
  agrees xs s' {| objects := s1; mu := mu c; threads := become i t (Inside (k r) finish) c; history := history c |}.
Proof.
  intros Hag Hi Hr. destruct (holder _ _ _ _ _ _ _ Hag Hi) as (Hm & a & Ha & Hp).
  cbn in Ha. rewrite Hr in Ha. split; cbn; [| |apply Hag|apply Hag|].
  - intros j t' th [(-> & -> & ->)|[Hj Hj']]%become_lookup; [done|by apply Hag].
  - unfold objects_ok. cbn. rewrite Hm. exists t, (k r), finish. split; [by eapply become_eq|]. by exists a.
  - intros j t' Hj. rewrite (become_fst c i t _ _ j Hi). by apply Hag.
Qed.

(** The holder leaves. *)
Lemma move_leave xs s' c i t a finish :
  agrees xs s' c → threads c !! i = Some (t, Inside (Leave a) finish) →
  agrees xs s'
    {| objects := objects c; mu := None; threads := become i t (Answered (finish a)) c; history := history c |}.
Proof.
  intros Hag Hi. destruct (holder _ _ _ _ _ _ _ Hag Hi) as (Hm & a' & Ha & Hp).
  injection Ha as -> Ho. split; cbn; [| |apply Hag|apply Hag|].
  - intros j t' th [(-> & -> & ->)|[Hj Hj']]%become_lookup; [done|].
    apply (ag_threads _ _ _ Hag) in Hj'. rewrite Hm in Hj'. destruct th; cbn in *; [done|done|congruence|].
    split; [tauto|done].
  - done.
  - intros j t' Hj. rewrite (become_fst c i t _ _ j Hi). by apply Hag.
Qed.

Lemma move_inv s0 c i c' : machine_inv s0 c → move i c = Some c' → machine_inv s0 c'.
Proof.
  intros (xs & s' & Hs & Hag). unfold move.
  destruct (threads c !! i) as [[t [|sec f|[a|B m k] f|a]]|] eqn:Hi; [| | | |done|done].
  - pose proof (Hmeans t) as Hmt. destruct (prepare t) as [a|sec f] eqn:Hp; intros [= <-].
    + exists (xs ++ [a]), s'. split; [|by apply move_unlocked]. cbn. rewrite fmap_app. by eapply serial_snoc.
    + exists xs, s'. split; [done|by apply move_decode].
  - destruct (mu c) eqn:Hm; [done|]. intros [= <-]. destruct (run_section sec s') as [a s2] eqn:Hr.
    destruct (ag_threads _ _ _ Hag _ _ _ Hi) as [Hp _]. pose proof (Hmeans t) as Hmt. rewrite Hp in Hmt.
    exists (xs ++ [f a]), s2. split; [|by apply (move_acquire _ _ _ _ _ _ _ _ _ Hag Hi Hm)]. cbn. rewrite fmap_app.
    eapply serial_snoc; [done|]. by rewrite Hmt, Hr.
  - intros [= <-]. exists xs, s'. split; [done|by apply move_leave].
  - destruct (m (objects c)) as [r s1] eqn:Hr. intros [= <-]. exists xs, s'. split; [done|].
    by apply (move_access _ _ _ _ _ _ m).
Qed.

Lemma schedule_inv s0 es c : machine_inv s0 c → machine_inv s0 (run_schedule es c).
Proof.
  revert c. induction es as [|e es IH]; intros c Hc; [done|]. cbn. apply IH. destruct e as [t|i]; cbn.
  - by apply arrive_inv.
  - destruct (move i c) eqn:Hm; [by eapply move_inv|done].
Qed.

(** ** Progress *)

(** Some thread can move while one has no answer. *)
Lemma no_deadlock s0 c i t th :
  machine_inv s0 c → threads c !! i = Some (t, th) → is_answered th = false → ∃ j c', move j c = Some c'.
Proof.
  intros (xs & s' & _ & Hag) Hi Hth. destruct (mu c) as [j|] eqn:Hm.
  - pose proof (ag_objects _ _ _ Hag) as Ho. unfold objects_ok in Ho. rewrite Hm in Ho.
    destruct Ho as (t' & sec & f & Hj & _). exists j. unfold move. rewrite Hj.
    destruct sec as [a|B m k]; [by eexists|]. destruct (m (objects c)). by eexists.
  - exists i. unfold move. rewrite Hi, Hm. destruct th as [|sec f|sec f|a]; [|by eexists| |done].
    + destruct (prepare t); by eexists.
    + destruct (holder _ _ _ _ _ _ _ Hag Hi) as [? _]. congruence.
Qed.

(** ** Termination *)

(** The steps of one thread: [y] may follow [x]. *)
Definition thread_lt (y x : T * thread) : Prop :=
  match x.2, y.2 with
  | Arrived, (Waiting _ _ | Answered _) => True
  | Waiting _ _, Inside _ _ => True
  | Inside (Access m k) _, Inside sec _ => ∃ r, sec = k r
  | Inside (Leave _) _, Answered _ => True
  | _, _ => False
  end.

Lemma answered_Acc t a : Acc thread_lt (t, Answered a).
Proof. constructor. intros [t' []] Hy; contradiction. Qed.

Lemma inside_Acc t sec f : Acc thread_lt (t, Inside sec f).
Proof.
  revert t f. induction sec as [a|B m k IH]; intros t f; constructor; intros [t' [| |sec f'|b]] Hy; cbn in Hy; try contradiction.
  - apply answered_Acc.
  - destruct Hy as [r ->]. apply IH.
Qed.

Lemma waiting_Acc t sec f : Acc thread_lt (t, Waiting sec f).
Proof. constructor. intros [t' []] Hy; cbn in Hy; try contradiction. apply inside_Acc. Qed.

Lemma thread_Acc x : Acc thread_lt x.
Proof.
  destruct x as [t [|sec f|sec f|a]]; auto using waiting_Acc, inside_Acc, answered_Acc.
  constructor. intros [t' []] Hy; cbn in Hy; try contradiction; auto using waiting_Acc, answered_Acc.
Qed.

(** The one thread that changed. *)
Ltac one_moves Hi :=
  intros [= <-]; eexists _, _, _; split; [exact Hi|split; [|reflexivity]].

Lemma move_threads i c c' : move i c = Some c' → list_step thread_lt (threads c') (threads c).
Proof.
  unfold move, become. destruct (threads c !! i) as [[t [|sec f|[a|B m k] f|a]]|] eqn:Hi; [| | | |done|done].
  - destruct (prepare t); one_moves Hi; exact I.
  - destruct (mu c); [done|]. one_moves Hi; exact I.
  - one_moves Hi; exact I.
  - destruct (m (objects c)) as [r s1]. one_moves Hi; by exists r.
Qed.

(** Without further arrivals the machine stops. *)
Lemma moves_end c : Acc (λ c' c, ∃ i, move i c = Some c') c.
Proof.
  assert (Acc (list_step thread_lt) (threads c)) as H.
  { apply list_step_Acc, Forall_forall. intros x _. apply thread_Acc. }
  remember (threads c) as l eqn:Hl. revert c Hl. induction H as [l _ IH]. intros c ->.
  constructor. intros c' [i Hi]. by eapply IH; [by eapply move_threads|].
Qed.

(** *** The order only grows *)

Lemma move_order i c c' : move i c = Some c' → history c `prefix_of` history c'.
Proof.
  unfold move. destruct (threads c !! i) as [[t [|sec f|[a|B m k] f|a]]|]; [| | | |done|done].
  - destruct (prepare t); intros [= <-]; cbn; [by apply prefix_app_r|done].
  - destruct (mu c); intros [= <-]; cbn. by apply prefix_app_r.
  - by intros [= <-].
  - destruct (m (objects c)). by intros [= <-].
Qed.

Lemma schedule_order es c : history c `prefix_of` history (run_schedule es c).
Proof.
  revert c. induction es as [|e es IH]; intros c; [done|]. cbn. etrans; [|apply IH]. destruct e as [t|i]; cbn; [done|].
  destruct (move i c) eqn:Hm; [by eapply move_order|done].
Qed.

(** ** The outcome of a schedule *)

(** The configuration is explained by the serial run in the order of the lock. *)
Record linear (s0 : S) (c : config) : Prop := {
  (* one thread at a time is inside *)
  lin_exclusion i j : is_inside c i → is_inside c j → i = j;
  (* the tasks in the order are different threads of the machine *)
  lin_order : NoDup (history c).*1;
  lin_known i t : (i, t) ∈ history c → fst <$> threads c !! i = Some t;
  (* every answer is the one of the serial run *)
  lin_answers i t a : threads c !! i = Some (t, Answered a) → placed (history c) (serial (history c).*2 s0).1 i t a;
  (* when no thread is inside, the objects are those of the serial run *)
  lin_objects : (∀ i, ¬ is_inside c i) → objects c = (serial (history c).*2 s0).2;
}.

Lemma machine_linear s0 c : machine_inv s0 c → linear s0 c.
Proof.
  intros (xs & s' & Hs & Hag). split; rewrite ?Hs; cbn [fst snd].
  - intros i j (t & sec & f & Hi) (t' & sec' & f' & Hj).
    destruct (holder _ _ _ _ _ _ _ Hag Hi) as [Hmi _]. destruct (holder _ _ _ _ _ _ _ Hag Hj) as [Hm' _]. congruence.
  - apply Hag.
  - apply Hag.
  - intros i t a Hi. by apply (ag_threads _ _ _ Hag) in Hi as [? _].
  - intros Hno. pose proof (ag_objects _ _ _ Hag) as Ho. unfold objects_ok in Ho.
    destruct (mu c) as [i|]; [|done]. destruct Ho as (t & sec & f & Hi & _). destruct (Hno i). by eexists _, _, _.
Qed.

(** When all are answered, the order is all threads. *)
Lemma all_answered s0 c :
  machine_inv s0 c → forallb (λ x, is_answered x.2) (threads c) = true →
  (history c).*1 ≡ₚ seq 0 (length (threads c)) ∧ objects c = (serial (history c).*2 s0).2.
Proof.
  intros Hm Hall. pose proof (machine_linear _ _ Hm) as Hlin. rewrite forallb_forall in Hall.
  assert (∀ i x, threads c !! i = Some x → is_answered x.2 = true) as Hall'.
  { intros i x Hi. apply Hall, list_elem_of_In. by eapply list_elem_of_lookup_2. }
  split.
  - apply NoDup_Permutation; [apply Hlin|apply NoDup_seq|]. intros i. rewrite elem_of_seq. split.
    + destruct Hm as (xs & s' & _ & Hag). intros Hi. apply (order_lt _ _ _ _ Hag) in Hi. lia.
    + intros [_ [[t th] Hi]%lookup_lt_is_Some]. pose proof (Hall' _ _ Hi) as Ha. destruct th as [| | |a]; try done.
      destruct (lin_answers _ _ Hlin _ _ _ Hi) as (n & Hn & _). apply list_elem_of_fmap.
      exists (i, t). split; [done|by eapply list_elem_of_lookup_2].
  - apply Hlin. intros i (t & sec & f & Hi). by apply Hall' in Hi.
Qed.

(** A task that is answered before another arrives comes before it in the order. *)
Lemma real_time s0 c es i j t t' t'' a n m :
  machine_inv s0 c → threads c !! i = Some (t, Answered a) → length (threads c) ≤ j →
  NoDup (history (run_schedule es c)).*1 →
  history (run_schedule es c) !! n = Some (i, t') → history (run_schedule es c) !! m = Some (j, t'') → n < m.
Proof.
  intros Hm Hi Hj Hnd Hn Hm'. destruct (lin_answers _ _ (machine_linear _ _ Hm) _ _ _ Hi) as (n0 & Hn0 & _).
  destruct (schedule_order es c) as [o Ho]. rewrite Ho in *.
  assert (n = n0) as ->.
  { eapply (NoDup_lookup _ n n0 i Hnd); rewrite list_lookup_fmap; [by rewrite Hn|].
    by rewrite (lookup_app_l_Some _ _ _ _ Hn0). }
  apply lookup_lt_Some in Hn0. apply lookup_app_Some in Hm' as [Hin|[? _]]; [|lia].
  destruct Hm as (xs & s' & _ & Hag). assert (j < length (threads c)); [|lia].
  eapply order_lt; [done|]. apply list_elem_of_fmap. exists (j, t''). split; [done|by eapply list_elem_of_lookup_2].
Qed.
End Machine.
Arguments Unlocked {S A} a.
Arguments Locked {S A} c finish.
