(* ===== verification/Utf8.v ===== *)
(** * UTF-8

    The strings that are UTF-8 (RFC 3629), which a JSON library can print: a
    recognizer that runs over the bytes, and the texts of the retrieval layer
    that are UTF-8 when their sources are. *)
From Stdlib Require Import Strings.Ascii.
From S2P Require Import Prelude Binary Distance Text Rag RagSpec.
Local Open Scope string_scope.
Local Open Scope list_scope.
Local Open Scope nat_scope.

(** ** The recognizer *)

(** The ranges of the bytes that must follow, from the first byte of a character:
    no overlong form, no surrogate, nothing above U+10FFFF. *)
Definition lead (b : nat) : option (list (nat * nat)) :=
  let tail := (128, 191) in
  if b <? 128 then Some []
  else if (194 <=? b) && (b <=? 223) then Some [tail]
  else if b =? 224 then Some [(160, 191); tail]
  else if b =? 237 then Some [(128, 159); tail]
  else if (225 <=? b) && (b <=? 239) then Some [tail; tail]
  else if b =? 240 then Some [(144, 191); tail; tail]
  else if b =? 244 then Some [(128, 143); tail; tail]
  else if (241 <=? b) && (b <=? 243) then Some [tail; tail; tail]
  else None.

Definition utf8_step (expected : list (nat * nat)) (a : ascii) : option (list (nat * nat)) :=
  let b := nat_of_ascii a in
  match expected with
  | [] => lead b
  | (lo, hi) :: expected => if (lo <=? b) && (b <=? hi) then Some expected else None
  end.

Fixpoint utf8_run (expected : list (nat * nat)) (s : string) : option (list (nat * nat)) :=
  match s with
  | "" => Some expected
  | String a s => match utf8_step expected a with Some expected => utf8_run expected s | None => None end
  end.

Definition utf8 (s : string) : bool := match utf8_run [] s with Some [] => true | _ => false end.

(** The recognizer on the boundaries of its ranges. *)
Definition byte_string (l : list nat) : string := foldr (λ b s, String (ascii_of_nat b) s) "" l.

Example utf8_good :
  forallb (λ l, utf8 (byte_string l))
    [[]; [0; 127]; [194; 128]; [223; 191]; [224; 160; 128]; [237; 159; 191]; [238; 128; 128]; [239; 191; 191];
     [240; 144; 128; 128]; [244; 143; 191; 191]; [65; 195; 169; 66]] = true.
Proof. vm_compute. reflexivity. Qed.

Example utf8_bad :
  forallb (λ l, negb (utf8 (byte_string l)))
    [[128]; [192; 128]; [193; 191]; [194]; [194; 65]; [224; 159; 191]; [237; 160; 128]; [239; 191];
     [240; 143; 191; 191]; [244; 144; 128; 128]; [245; 128; 128; 128]; [255]] = true.
Proof. vm_compute. reflexivity. Qed.

(** ** Pieces of a text *)

Lemma utf8_run_iff s : utf8 s ↔ utf8_run [] s = Some [].
Proof. unfold utf8. destruct (utf8_run [] s) as [[]|]; by split. Qed.

Lemma utf8_run_app st s s' :
  utf8_run st (s +:+ s') = match utf8_run st s with Some st' => utf8_run st' s' | None => None end.
Proof.
  revert st. induction s as [|a s IH]; intros st; [by rewrite Text.append_nil|]. rewrite Text.append_cons. cbn.
  by destruct (utf8_step st a).
Qed.

Lemma utf8_app s s' : utf8 s → utf8 s' → utf8 (s +:+ s').
Proof. rewrite !utf8_run_iff. intros Hs Hs'. by rewrite utf8_run_app, Hs. Qed.

Lemma utf8_cons a s : nat_of_ascii a < 128 → utf8 s → utf8 (String a s).
Proof.
  rewrite !utf8_run_iff. intros Ha Hs. cbn [utf8_run utf8_step]. unfold lead.
  by destruct (Nat.ltb_spec (nat_of_ascii a) 128); [|lia].
Qed.

Lemma utf8_concat sep l : utf8 sep → Forall utf8 l → utf8 (String.concat sep l).
Proof.
  intros Hsep. induction 1 as [|s l Hs Hl IH]; [done|]. destruct l as [|s' l]; [done|].
  cbn [String.concat]. by repeat apply utf8_app.
Qed.

(** Bytes that must follow are above ASCII. *)
Definition high (st : list (nat * nat)) : Prop := Forall (λ r, 128 ≤ r.1) st.

Lemma utf8_step_high st a st' : high st → utf8_step st a = Some st' → high st'.
Proof.
  intros Hst. unfold utf8_step. destruct st as [|[lo hi] st].
  - unfold lead. repeat case_match; intros; simplify_eq; repeat constructor; cbn; lia.
  - apply Forall_cons in Hst as [_ Hst]. case_match; intros; by simplify_eq.
Qed.

(** So an ASCII character stands between characters. *)
Lemma utf8_step_ascii st a st' :
  high st → nat_of_ascii a < 128 → utf8_step st a = Some st' → st = [] ∧ st' = [].
Proof.
  intros Hst Ha. unfold utf8_step. destruct st as [|[lo hi] st].
  - unfold lead. destruct (Nat.ltb_spec (nat_of_ascii a) 128); [|lia]. by intros [= <-].
  - apply Forall_cons in Hst as [Hlo _]. cbn in Hlo. destruct (Nat.leb_spec lo (nat_of_ascii a)); [lia|done].
Qed.

(** ** Tokens, chunks and prompts *)

Lemma isspace_ascii a : Text.isspace a → nat_of_ascii a < 128.
Proof. unfold Text.isspace. intros H%Is_true_true. apply orb_true_iff in H as [H%Nat.eqb_eq|[_ H%Nat.leb_le]%andb_true_iff]; lia. Qed.

Lemma tolower_ascii a : Text.tolower a = a ∨ nat_of_ascii a < 128 ∧ nat_of_ascii (Text.tolower a) < 128.
Proof.
  unfold Text.tolower. destruct (_ && _) eqn:E; [right|by left].
  apply andb_true_iff in E as [H1%Nat.leb_le H2%Nat.leb_le]. rewrite nat_ascii_embedding by lia. lia.
Qed.

Lemma utf8_step_tolower st a st' : high st → utf8_step st a = Some st' → utf8_step st (Text.tolower a) = Some st'.
Proof.
  intros Hst Hs. destruct (tolower_ascii a) as [->|[Ha Hl]]; [done|].
  destruct (utf8_step_ascii st a st' Hst Ha Hs) as [-> ->]. cbn. unfold lead.
  by destruct (Nat.ltb_spec (nat_of_ascii (Text.tolower a)) 128); [|lia].
Qed.

Lemma tokenize_loop_utf8 text cur acc st :
  high st → utf8_run [] cur = Some st → utf8_run st text = Some [] → Forall utf8 acc →
  Forall utf8 (Text.tokenize_loop text cur acc).
Proof.
  revert cur acc st. induction text as [|a text IH]; intros cur acc st Hh Hc Ht Ha; cbn [Text.tokenize_loop].
  - cbn in Ht. injection Ht as ->. destruct (Text.is_empty cur); [done|].
    apply Forall_app_2; [done|]. by apply Forall_singleton, utf8_run_iff.
  - cbn [utf8_run] in Ht. destruct (utf8_step st a) as [st'|] eqn:E; [|done].
    destruct (Text.isspace a) eqn:Hsp.
    + destruct (utf8_step_ascii st a st' Hh) as [-> ->]; [by apply isspace_ascii, Is_true_true|done|].
      destruct (Text.is_empty cur) eqn:Ecur; (eapply IH; [constructor|..]; try done).
      apply Forall_app_2; [done|]. by apply Forall_singleton, utf8_run_iff.
    + apply (IH _ _ st'); [by eapply utf8_step_high| |done..].
      unfold Text.push_back. rewrite utf8_run_app, Hc. cbn [utf8_run]. by rewrite (utf8_step_tolower st a st').
Qed.

Lemma tokenize_utf8 text : utf8 text → Forall utf8 (Text.tokenize text).
Proof. rewrite utf8_run_iff. intros Ht. by eapply tokenize_loop_utf8; [constructor|..]. Qed.

(** The chunks of a UTF-8 text are UTF-8. *)
Lemma chunks_utf8 cfg text : utf8 text → Forall utf8 (chunks_of cfg text).
Proof.
  intros Ht. unfold chunks_of. destruct (Text.chunk_text_cases text (Rag.chunk cfg)) as [[_ ->]|(_ & cs & -> & Hw)]; [constructor|].
  apply Forall_fmap, Forall_lookup. intros i c Hi. destruct (Text.win_chunk _ _ _ _ _ Hw i c Hi) as (_ & _ & _ & Hc & _).
  cbn. rewrite Hc. apply utf8_concat; [done|]. unfold Text.slice. apply Forall_take, Forall_drop, tokenize_utf8, Ht.
Qed.

Lemma prompt_utf8 budget query chunks :
  utf8 query → Forall (λ c, utf8 (Text.rc_text c)) chunks → utf8 (Text.build budget query chunks).
Proof.
  intros Hq Hc. rewrite Text.build_text. unfold Text.prompt_text.
  assert (Forall utf8 (Text.bullet <$> Text.in_prompt budget query chunks)) as Hb.
  { apply Forall_fmap. unfold Text.in_prompt.
    destruct (Text.included_spec (budget - (Text.approx_tokens query + Text.kScaffoldTokens)) chunks 0)
      as (rest & Hr & _); [lia|]. rewrite Hr in Hc. apply Forall_app in Hc as [Hc _].
    eapply Forall_impl; [exact Hc|]. intros c Hu. unfold Text.bullet. cbn. by repeat apply utf8_app. }
  by repeat first [done | apply utf8_concat | apply utf8_app].
Qed.
