(* ===== verification/Server.v ===== *)
(** * The HTTP server ([server/server.cpp])

    The request handlers over a vector engine and a retrieval engine. JSON and
    HTTP are third-party libraries: their operations are the class [JsonLib], and
    a handler is a function from the body (or the matched part of the path) to
    the response, here run alone; [ServerThreads] interleaves them.
    Printing a response can throw (on text that is not UTF-8), also inside the
    handler of exceptions, when the message quotes such a body. *)
From S2P Require Import Prelude Binary Distance Metadata Bitset VectorStore StoreSpec Index.
From S2P Require Import OpCodec LogStore BlobStore Engine Text Embedding Rag.
Local Open Scope string_scope.
Local Open Scope list_scope.
Local Open Scope nat_scope.

(** What the handlers use of [nlohmann::json]. *)
Class JsonLib := {
  json : Type;
  parse : string → result json;
  dump : json → result string;
  dump_indent : nat → json → result string;
  is_string : json → bool;
  is_boolean : json → bool;
  is_number_integer : json → bool;
  is_number_float : json → bool;
  is_object : json → bool;
  is_empty : json → bool;
  get_string : json → result string;
  get_bool : json → result bool;
  get_int64 : json → result word64;
  get_double : json → result word64;
  get_float : json → result word32;
  items : json → list (string * json);
  elements : json → list json;
  at_key : json → string → result json;
  subscript : json → string → result json;
  contains : json → string → bool;
  value_size : json → string → nat → result nat;
  of_string : string → json;
  of_bool : bool → json;
  of_nat : nat → json;
  of_float : Score → json;
  of_object : list (string * json) → json;
  of_array : list json → json;
}.

(** The C++ exceptions, among the outcomes. *)
Definition is_std (e : exn) : bool :=
  match e with undefined_behaviour | out_of_fuel => false | _ => true end.

Definition clean {A} (r : result A) : Prop := ∀ e, r = Throw e → is_std e.

Module Server.
Section Server.
Context {J : JsonLib}.

(** ** JSON to the types of the engine *)

Definition json_to_meta_value (v : json) : result MetaValue :=
  if is_string v then s ← get_string v; Ok (MString s)
  else if is_boolean v then b ← get_bool v; Ok (MBool b)
  else if is_number_integer v then i ← get_int64 v; Ok (MInt i)
  else if is_number_float v then d ← get_double v; Ok (MDouble d)
  else s ← dump v; Ok (MString s).

Fixpoint meta_items (l : list (string * json)) (m : Metadata) : result Metadata :=
  match l with
  | [] => Ok m
  | (k, v) :: l => x ← json_to_meta_value v; meta_items l (<[k := x]> m)
  end.

Definition json_to_metadata (obj : json) : result Metadata :=
  if is_object obj then meta_items (items obj) ∅ else Ok ∅.

Fixpoint filter_items (l : list (string * json)) (clauses : list Filter) : result (list Filter) :=
  match l with
  | [] => Ok clauses
  | (k, v) :: l => x ← json_to_meta_value v; filter_items l (clauses ++ [Filter.eq k x])
  end.

Definition json_to_filter (obj : json) : result (option Filter) :=
  if negb (is_object obj) || is_empty obj then Ok None
  else clauses ← filter_items (items obj) []; Ok (Some (Filter.all_of clauses)).

Fixpoint vector_items (l : list json) (v : list word32) : result (list word32) :=
  match l with
  | [] => Ok v
  | x :: l => f ← get_float x; vector_items l (v ++ [f])
  end.

Definition json_to_vector (arr : json) : result (list word32) := vector_items (elements arr) [].

(** ** Responses *)

Record Response := { status : nat; content : string }.

(** [res.set_content]; the library answers 200 when no status is set. *)
Definition answer (j : json) : result Response := c ← dump j; Ok {| status := 200; content := c |}.

Definition fail (code : nat) (msg : string) : result Response :=
  c ← dump (of_object [("error", of_string msg)]); Ok {| status := code; content := c |}.

(** [e.what()]; the text of [std::system_error] is its first part only. *)
Definition what (e : exn) : string :=
  match e with
  | invalid_argument w | runtime_error w | system_error w => w
  | bad_optional_access => "bad optional access"
  | undefined_behaviour | out_of_fuel => ""
  end.

(** [try { ... } catch (const std::exception& e) { fail(res, 400, e.what()); }] *)
Definition catch_std (r : result Response) : result Response :=
  match r with
  | Throw e => if is_std e then fail 400 (what e) else Throw e
  | Ok _ => r
  end.

Definition try_catch {S} (m : M S Response) : M S Response := λ s, let '(r, s') := m s in (catch_std r, s').

(** ** The handlers *)

Context {EM : EmbeddingModel} {Ix Jx : Type} {IO : IndexOps Ix} {JO : IndexOps Jx} {MO : MapOrder}.

(** The vector engine and the retrieval engine, with an index each. *)
Record t := { vec_engine : Engine.t Ix; rag : Rag.t Jx }.

Definition set_vec (e : Engine.t Ix) (s : t) : t := {| vec_engine := e; rag := rag s |}.
Definition set_rag (r : Rag.t Jx) (s : t) : t := {| vec_engine := vec_engine s; rag := r |}.
Definition on_vec {A} (m : M (Engine.t Ix) A) : M t A := zoom vec_engine set_vec m.
Definition on_rag {A} (m : M (Rag.t Jx) A) : M t A := zoom rag set_rag m.

Definition kVecDim : Dim := 4.

Definition rag_cfg : Rag.RagConfig :=
  {| Rag.chunk := {| Text.window := 40; Text.overlap := 8 |}; Rag.retrieve_k := 5; Rag.token_budget := 512 |}.

(** The objects that [main] creates. *)
Definition start : result t :=
  e ← Engine.open_engine kVecDim None;
  r ← Rag.make rag_cfg;
  Ok {| vec_engine := e; rag := r |}.

(** [GET /api/stats]: the document, from the three counts that are read. *)
Definition stats_response (vectors documents chunks : nat) : result Response :=
  c ← dump_indent 2 (of_object [
      ("vector", of_object [
         ("dim", of_nat (N.to_nat kVecDim)); ("metric", of_string "l2");
         ("index", of_string (ix_name (Ix := Ix))); ("size", of_nat vectors)]);
      ("rag", of_object [
         ("dim", of_nat (N.to_nat em_dim)); ("documents", of_nat documents); ("chunks", of_nat chunks)])]);
  Ok {| status := 200; content := c |}.

Definition vector_count (s : t) : nat := VectorStore.size (Engine.store_ (vec_engine s)).
Definition chunk_count (s : t) : nat := VectorStore.size (Engine.store_ (Rag.engine_ (rag s))).

Definition get_stats (s : t) : result Response :=
  stats_response (vector_count s) (Rag.document_count (rag s)) (chunk_count s).

Definition string_field (body : json) (key : string) : result string := j ← at_key body key; get_string j.
Definition vector_field (body : json) (key : string) : result (list word32) := j ← at_key body key; json_to_vector j.

(** [body.contains(key) ? f(body[key]) : none] *)
Definition optional_field {A} (body : json) (key : string) (f : json → result A) (none : A) : result A :=
  if contains body key then j ← subscript body key; f j else Ok none.

(** [POST /api/vectors] *)
Definition post_vectors (req : string) : M t Response := try_catch (
  body ← lift (parse req);
  id ← lift (string_field body "id");
  vec ← lift (vector_field body "vector");
  meta ← lift (optional_field body "metadata" json_to_metadata ∅);
  iid ← on_vec (Engine.insert id vec meta);
  lift (answer (of_object [("ok", of_bool true); ("id", of_string id); ("internal_id", of_nat (N.to_nat iid))]))).

Fixpoint hits_json (s : VectorStore.t) (hits : list SearchResult) (arr : list json) : result (list json) :=
  match hits with
  | [] => Ok arr
  | h :: hits =>
      x ← VectorStore.external_id s (Distance.id h);
      hits_json s hits (arr ++ [of_object [("id", of_string x); ("score", of_float (score h))]])
  end.

(** [POST /api/search] *)
Definition post_search (req : string) : M t Response := try_catch (
  body ← lift (parse req);
  q ← lift (vector_field body "vector");
  k ← lift (value_size body "k" 10);
  ef ← lift (value_size body "ef" 0);
  filter ← lift (optional_field body "filter" json_to_filter None);
  s ← read_state;
  hits ← lift (Engine.search (vec_engine s) q k filter ef);
  arr ← lift (hits_json (Engine.store_ (vec_engine s)) hits []);
  lift (answer (of_object [("results", of_array arr)]))).

(** [DELETE /api/vectors/:id] *)
Definition delete_vector (id : string) : M t Response := try_catch (
  existed ← on_vec (Engine.erase id);
  lift (answer (of_object [("ok", of_bool true); ("existed", of_bool existed)]))).

(** [POST /api/documents] *)
Definition post_document (req : string) : M t Response := try_catch (
  body ← lift (parse req);
  id ← lift (string_field body "id");
  text ← lift (string_field body "text");
  chunks ← on_rag (Rag.ingest {| Rag.doc_name := id; Rag.doc_text := text |});
  lift (answer (of_object [("ok", of_bool true); ("chunks", of_nat chunks)]))).

(** [DELETE /api/documents/:id] *)
Definition delete_document (id : string) : M t Response := try_catch (
  existed ← on_rag (Rag.remove id);
  lift (answer (of_object [("ok", of_bool true); ("existed", of_bool existed)]))).

Definition chunk_json (h : Text.RetrievedChunk) : json :=
  of_object [("doc_id", of_string (Text.doc_id h)); ("text", of_string (Text.rc_text h)); ("score", of_float (Text.rc_score h))].

(** [POST /api/rag/search] *)
Definition post_rag_search (req : string) : M t Response := try_catch (
  body ← lift (parse req);
  query ← lift (string_field body "query");
  k ← lift (value_size body "k" 5);
  s ← read_state;
  hits ← lift (Rag.retrieve (rag s) query k);
  lift (answer (of_object [("results", of_array (chunk_json <$> hits))]))).

(** [POST /api/rag/prompt] *)
Definition post_rag_prompt (req : string) : M t Response := try_catch (
  body ← lift (parse req);
  query ← lift (string_field body "query");
  s ← read_state;
  prompt ← lift (Rag.build_prompt (rag s) query);
  lift (answer (of_object [("prompt", of_string prompt)]))).

(** A request that the routes accept: a body, or the part of the path after the
    last slash. *)
Inductive Request : Type :=
| GetStats
| PostVectors (body : string)
| PostSearch (body : string)
| DeleteVector (id : string)
| PostDocument (body : string)
| DeleteDocument (id : string)
| PostRagSearch (body : string)
| PostRagPrompt (body : string)
| AnyOptions.

Definition handle (req : Request) : M t Response :=
  match req with
  | GetStats => s ← read_state; lift (get_stats s)
  | PostVectors body => post_vectors body
  | PostSearch body => post_search body
  | DeleteVector id => delete_vector id
  | PostDocument body => post_document body
  | DeleteDocument id => delete_document id
  | PostRagSearch body => post_rag_search body
  | PostRagPrompt body => post_rag_prompt body
  | AnyOptions => mret {| status := 204; content := "" |}
  end.
End Server.
Arguments t Ix Jx : clear implicits.
End Server.
