(* ===== verification/ServerSpec.v ===== *)
(** * The server against its two databases

    Every sequence of requests is answered, with the statuses and the effects of
    an abstract server over a key-value database and a library of documents. The
    statuses are exact: what the engines hold, and so what the handlers print, is
    UTF-8, but for the message of a parse error. *)
From S2P Require Import Prelude StdQueue Binary Distance Metadata Bitset VectorStore StoreSpec Index.
From S2P Require Import OpCodec LogStore BlobStore Engine EngineSpec EngineSearch Text Embedding Rag RagSpec RagSearch Utf8 Server.
Local Open Scope nat_scope.
Import Server.

(** ** The JSON library *)

(** The value can be printed. *)
Definition dumps {J : JsonLib} (j : json) : Prop := ∃ c, dump j = Ok c.

(** Errors are C++ exceptions with a message that is UTF-8. *)
Definition plain {A} (r : result A) : Prop := ∀ e, r = Throw e → is_std e ∧ utf8 (what e).

(** What [nlohmann::json] documents of the operations used. Errors are exceptions;
    but for parse errors, which quote the input, their messages hold nothing but
    ASCII and the key asked for. [dump], without an error handler, prints a value
    exactly when all its strings and keys are UTF-8 (else a [type_error]); the
    parser accepts nothing else (else a [parse_error]). A key that is contained
    may be subscripted. *)
Class JsonLaws (J : JsonLib) : Prop := {
  parse_clean s : clean (parse s);
  get_string_plain j : plain (get_string j);
  get_bool_plain j : plain (get_bool j);
  get_int64_plain j : plain (get_int64 j);
  get_double_plain j : plain (get_double j);
  get_float_plain j : plain (get_float j);
  at_key_plain j k : utf8 k → plain (at_key j k);
  value_size_plain j k n : utf8 k → plain (value_size j k n);
  subscript_contains j k : contains j k → ∃ v, subscript j k = Ok v;
  dump_plain j : plain (dump j);
  dump_indent_plain n j : plain (dump_indent n j);
  dump_indent_dumps n j : (∃ c, dump_indent n j = Ok c) ↔ dumps j;
  dumps_string s : dumps (of_string s) ↔ utf8 s;
  dumps_bool b : dumps (of_bool b);
  dumps_nat n : dumps (of_nat n);
  dumps_float x : dumps (of_float x);
  dumps_object l : NoDup l.*1 → dumps (of_object l) ↔ Forall (λ kv, utf8 kv.1 ∧ dumps kv.2) l;
  dumps_array l : dumps (of_array l) ↔ Forall dumps l;
  parse_dumps s j : parse s = Ok j → dumps j;
  at_key_dumps j k v : dumps j → at_key j k = Ok v → dumps v;
  get_string_utf8 j s : dumps j → get_string j = Ok s → utf8 s;
}.

Lemma plain_bind {A B} (m : result A) (k : A → result B) :
  plain m → (∀ a, m = Ok a → plain (k a)) → plain (m ≫= k).
Proof. intros Hm Hk e. destruct m as [a|e']; cbn; [by apply Hk|]. intros [= <-]. by apply Hm. Qed.

Lemma plain_Ok {A} (a : A) : plain (Ok a).
Proof. by intros e. Qed.

Create HintDb plain.
#[export] Hint Resolve plain_Ok dump_plain dump_indent_plain get_string_plain get_bool_plain get_int64_plain get_double_plain : plain.
#[export] Hint Resolve get_float_plain at_key_plain value_size_plain : plain.

Section Decode.
Context {J : JsonLib} {JL : JsonLaws J}.

(** The arguments that a handler reads from a body. *)
Definition vectors_request (req : string) : result (string * list word32 * Metadata) :=
  body ← parse req; id ← string_field body "id"; vec ← vector_field body "vector";
  meta ← optional_field body "metadata" json_to_metadata ∅; Ok (id, vec, meta).

Definition search_request (req : string) : result (list word32 * nat * nat * option Filter) :=
  body ← parse req; q ← vector_field body "vector"; k ← value_size body "k" 10; ef ← value_size body "ef" 0;
  filter ← optional_field body "filter" json_to_filter None; Ok (q, k, ef, filter).

Definition document_request (req : string) : result (string * string) :=
  body ← parse req; id ← string_field body "id"; text ← string_field body "text"; Ok (id, text).

Definition query_request (req : string) : result (string * nat) :=
  body ← parse req; query ← string_field body "query"; k ← value_size body "k" 5; Ok (query, k).

Definition prompt_request (req : string) : result string := body ← parse req; string_field body "query".

Lemma json_to_meta_value_plain v : plain (json_to_meta_value v).
Proof.
  unfold json_to_meta_value. repeat case_match; apply plain_bind; auto with plain.
Qed.

Lemma meta_items_plain l m : plain (meta_items l m).
Proof.
  revert m. induction l as [|[k v] l IH]; intros m; cbn [meta_items]; [auto with plain|].
  apply plain_bind; [apply json_to_meta_value_plain|auto].
Qed.

Lemma filter_items_plain l cs : plain (filter_items l cs).
Proof.
  revert cs. induction l as [|[k v] l IH]; intros cs; cbn [filter_items]; [auto with plain|].
  apply plain_bind; [apply json_to_meta_value_plain|auto].
Qed.

Lemma vector_items_plain l v : plain (vector_items l v).
Proof.
  revert v. induction l as [|x l IH]; intros v; cbn [vector_items]; [auto with plain|].
  apply plain_bind; [auto with plain|auto].
Qed.

Lemma string_field_plain body k : utf8 k → plain (string_field body k).
Proof. intros Hk. apply plain_bind; auto with plain. Qed.

Lemma vector_field_plain body k : utf8 k → plain (vector_field body k).
Proof. intros Hk. apply plain_bind; [auto with plain|]. intros j _. apply vector_items_plain. Qed.

Lemma optional_field_plain {A} body k (f : json → result A) none :
  (∀ j, plain (f j)) → plain (optional_field body k f none).
Proof.
  intros Hf. unfold optional_field. destruct (contains body k) eqn:E; [|auto with plain].
  destruct (subscript_contains body k) as [v ->]; [by rewrite E|]. apply Hf.
Qed.

Lemma json_to_metadata_plain j : plain (json_to_metadata j).
Proof. unfold json_to_metadata. destruct (is_object j); [apply meta_items_plain|auto with plain]. Qed.

Lemma json_to_filter_plain j : plain (json_to_filter j).
Proof.
  unfold json_to_filter. destruct (_ || _); [auto with plain|].
  apply plain_bind; [apply filter_items_plain|auto with plain].
Qed.
#[local] Hint Resolve string_field_plain vector_field_plain optional_field_plain json_to_metadata_plain json_to_filter_plain : plain.

(** A failed decoding is a parse error, or has a message that is UTF-8. *)
Definition refusal {A} (b : string) (r : result A) : Prop :=
  ∀ e, r = Throw e → is_std e ∧ (parse b = Throw e ∨ utf8 (what e)).

Lemma refusal_bind {A} b (k : json → result A) : (∀ j, plain (k j)) → refusal b (parse b ≫= k).
Proof.
  intros Hk e. destruct (parse b) as [j|e'] eqn:E; cbn.
  - intros H. destruct (Hk j e H). auto.
  - intros [= <-]. split; [by apply (parse_clean _ _ E)|by left].
Qed.

Lemma requests_refusal b :
  refusal b (vectors_request b) ∧ refusal b (search_request b) ∧ refusal b (document_request b) ∧
  refusal b (query_request b) ∧ refusal b (prompt_request b).
Proof.
  unfold vectors_request, search_request, document_request, query_request, prompt_request.
  split_and!; apply refusal_bind; intros body; repeat (apply plain_bind; [auto with plain|intros ? _]); auto with plain.
Qed.

(** A parse error fails every decoding. *)
Lemma requests_parse b e :
  parse b = Throw e →
  vectors_request b = Throw e ∧ search_request b = Throw e ∧ document_request b = Throw e ∧
  query_request b = Throw e ∧ prompt_request b = Throw e.
Proof.
  intros H. unfold vectors_request, search_request, document_request, query_request, prompt_request. by rewrite H.
Qed.

(** The strings of a request are UTF-8. *)
Lemma string_field_utf8 body k x : dumps body → string_field body k = Ok x → utf8 x.
Proof. intros Hb (j & Hj & Hx)%result_bind_Ok. eapply get_string_utf8; [|done]. by eapply at_key_dumps. Qed.

Lemma vectors_request_utf8 b id vec meta : vectors_request b = Ok (id, vec, meta) → utf8 id.
Proof.
  intros (body & Hb%parse_dumps & (x & Hx%string_field_utf8 & (v & _ & (m & _ & [= -> _ _])%result_bind_Ok)%result_bind_Ok)%result_bind_Ok)%result_bind_Ok;
    done.
Qed.

Lemma document_request_utf8 b id text : document_request b = Ok (id, text) → utf8 id ∧ utf8 text.
Proof.
  intros (body & Hb%parse_dumps & (x & Hx%string_field_utf8 & (y & Hy%string_field_utf8 & [= -> ->])%result_bind_Ok)%result_bind_Ok)%result_bind_Ok;
    done.
Qed.

Lemma prompt_request_utf8 b query : prompt_request b = Ok query → utf8 query.
Proof. intros (body & Hb%parse_dumps & Hq%string_field_utf8)%result_bind_Ok; done. Qed.
End Decode.

(** ** The abstract server *)

Section Spec.
Context {J : JsonLib} {JL : JsonLaws J} {EM : EmbeddingModel} {MO : MapOrder}.
Context {Ix : Type} {IO : IndexOps Ix} {Met : DistanceMetric} {valid : list word32 → Prop} {IL : IndexLaws Ix valid}.
Context {ISL : IndexSearchLaws Ix valid valid}.
Context {Jx : Type} {JO : IndexOps Jx} {RMet : DistanceMetric} {rvalid : list word32 → Prop}.
Context {RIL : @IndexLaws Jx JO rvalid} {RISL : @IndexSearchLaws Jx RMet JO rvalid RIL rvalid}.
Context {EL : EmbeddingLaws EM rvalid}.
Implicit Types (s : Server.t Ix Jx) (d : db) (lib : library).

(** The vectors and the documents. *)
Definition world : Type := db * library.

Definition fits (v : list word32) : bool := bool_decide (length v = N.to_nat kVecDim).

(** An answer that quotes this text: when the text is not UTF-8, it cannot be
    printed, and an exception leaves the handler. *)
Definition quoting (text : string) (code : nat) : result nat :=
  if utf8 text then Ok code else Throw (runtime_error text).

(** The status and the effect of a request. *)
Definition spec_handle (req : Request) (w : world) : result nat * world :=
  let '(d, lib) := w in
  match req with
  | GetStats => (quoting (ix_name (Ix := Ix)) 200, w)
  | PostVectors b =>
      match vectors_request b with
      | Ok (id, vec, meta) => if fits vec then (Ok 200, (<[id := (vec, meta)]> d, lib)) else (Ok 400, w)
      | Throw e => (quoting (what e) 400, w)
      end
  | PostSearch b =>
      match search_request b with
      | Ok (q, _, _, _) => (Ok (if fits q then 200 else 400), w)
      | Throw e => (quoting (what e) 400, w)
      end
  | DeleteVector id => (Ok 200, (delete id d, lib))
  | PostDocument b =>
      match document_request b with
      | Ok (id, text) => (Ok 200, (d, lib_put rag_cfg id text lib))
      | Throw e => (quoting (what e) 400, w)
      end
  | DeleteDocument id => (Ok 200, (d, delete id lib))
  | PostRagSearch b => (match query_request b with Ok _ => Ok 200 | Throw e => quoting (what e) 400 end, w)
  | PostRagPrompt b => (match prompt_request b with Ok _ => Ok 200 | Throw e => quoting (what e) 400 end, w)
  | AnyOptions => (Ok 204, w)
  end.

(** The requests that no answer can be printed for: those whose body does not
    parse and whose parse error quotes bytes that are not UTF-8. (The name of the
    index, in the statistics, is ASCII in the program.) *)
Definition unquotable (req : Request) : Prop :=
  match req with
  | GetStats => ¬ utf8 (ix_name (Ix := Ix))
  | PostVectors b | PostSearch b | PostDocument b | PostRagSearch b | PostRagPrompt b =>
      ∃ e, parse b = Throw e ∧ ¬ utf8 (what e)
  | DeleteVector _ | DeleteDocument _ | AnyOptions => False
  end.

Lemma quoting_throws text code : (∃ e, quoting text code = Throw e) ↔ ¬ utf8 text.
Proof. unfold quoting. destruct (utf8 text); [by split; [intros []|intros []]|]. split; [by intros _ []|by eexists]. Qed.

Lemma refused_throws {A} b (r : result A) :
  refusal b r → (∀ e, parse b = Throw e → r = Throw e) →
  (∃ e, r = Throw e ∧ ¬ utf8 (what e)) ↔ ∃ e, parse b = Throw e ∧ ¬ utf8 (what e).
Proof.
  intros Hr Hp. split; intros (e & He & Hu); exists e; (split; [|done]); [|by apply Hp].
  by destruct (Hr e He) as [_ [|]].
Qed.

Lemma spec_throws req w : (∃ e, (spec_handle req w).1 = Throw e) ↔ unquotable req.
Proof.
  assert (∀ b A (r : result A) (st : result nat), refusal b r → (∀ e, parse b = Throw e → r = Throw e) →
    match r with Ok _ => ∃ n, st = Ok n | Throw e => st = quoting (what e) 400 end →
    (∃ e, st = Throw e) ↔ ∃ e, parse b = Throw e ∧ ¬ utf8 (what e)) as Hreq.
  { intros b A r st Hr Hp Hst. rewrite <- (refused_throws b r Hr Hp). destruct r as [a|e].
    - destruct Hst as [n ->]. split; [by intros [? ?]|by intros (? & ? & _)].
    - subst st. rewrite quoting_throws. split; [by exists e|]. by intros (e' & [= <-] & ?). }
  destruct w as [d lib]. destruct req; cbn [spec_handle unquotable fst]; try (split; [by intros [? ?]|done]); [exact (quoting_throws _ _)|..].
  all: match goal with |- context [parse ?b] =>
    destruct (requests_refusal b) as (? & ? & ? & ? & ?); pose proof (requests_parse b) as Hp end.
  - apply (Hreq body _ (vectors_request body)); [done|naive_solver|]. destruct (vectors_request _) as [[[]]|]; [case_match|]; by eauto.
  - apply (Hreq body _ (search_request body)); [done|naive_solver|]. destruct (search_request _) as [[[[]]]|]; by eauto.
  - apply (Hreq body _ (document_request body)); [done|naive_solver|]. destruct (document_request _) as [[]|]; by eauto.
  - apply (Hreq body _ (query_request body)); [done|naive_solver|]. destruct (query_request _) as [[]|]; by eauto.
  - apply (Hreq body _ (prompt_request body)); [done|naive_solver|]. destruct (prompt_request _); by eauto.
Qed.

(** What the databases hold is UTF-8, as far as it is printed. *)
Definition utf8_world (w : world) : Prop :=
  map_Forall (λ id _, utf8 id) w.1 ∧ map_Forall (λ id text, utf8 id ∧ utf8 text) w.2.

Lemma spec_utf8 req w : utf8_world w → utf8_world (spec_handle req w).2.
Proof.
  destruct w as [d lib]. intros [Hd Hl]. destruct req; cbn [spec_handle snd]; try done.
  - destruct (vectors_request body) as [[[id vec] meta]|e] eqn:E; [|done]. destruct (fits vec); [|done].
    split; [|done]. apply map_Forall_insert_2; [by apply vectors_request_utf8 in E|done].
  - by destruct (search_request body) as [[[[]]]|].
  - split; [by apply map_Forall_delete|done].
  - destruct (document_request body) as [[id text]|e] eqn:E; [|done]. apply document_request_utf8 in E.
    split; [done|]. cbn. unfold lib_put. case_match; [by apply map_Forall_delete|by apply map_Forall_insert_2].
  - split; [done|by apply map_Forall_delete].
Qed.

(** The ids that a request stores, in the two engines. *)
Definition vec_ids (req : Request) : list string :=
  match req with
  | PostVectors b => match vectors_request b with Ok (id, _, _) => [id] | Throw _ => [] end
  | DeleteVector id => [id]
  | _ => []
  end.

Definition doc_ids (req : Request) : list string :=
  match req with
  | PostDocument b =>
      match document_request b with
      | Ok (id, text) => op_ids rag_cfg (Ingest {| Rag.doc_name := id; Rag.doc_text := text |})
      | Throw _ => []
      end
  | _ => []
  end.

(** The vectors of a request are such that the metric is tame on them. *)
Definition sane (req : Request) : Prop :=
  match req with
  | PostVectors b => match vectors_request b with Ok (_, vec, _) => vec_sized vec ∧ (fits vec → valid vec) | Throw _ => True end
  | PostSearch b => match search_request b with Ok (q, _, _, _) => fits q → valid q | Throw _ => True end
  | _ => True
  end.

(** The vector engine holds the vectors. *)
Record vec_inv (U : gset string) (e : Engine.t Ix) d : Prop := {
  vi_engine : engine_inv e;
  vi_dim : Engine.cfg_dim e = kVecDim;
  vi_wal : Engine.wal_ e = None;
  vi_ids : ids_in U (Engine.store_ e);
  vi_contents : contents e = d;
}.

Record server_inv (U V : gset string) s (w : world) : Prop := {
  sv_vec : vec_inv U (vec_engine s) w.1;
  sv_rag : rag_inv V (rag s) w.2;
  sv_cfg : Rag.cfg_ (rag s) = rag_cfg;
  sv_utf8 : utf8_world w;
}.

(** The outcome has the status; or it is an exception, that the HTTP library
    answers. *)
Definition answered (st : result nat) (r : result Response) : Prop :=
  match st, r with
  | Ok code, Ok resp => status resp = code
  | Throw _, Throw e => is_std e
  | _, _ => False
  end.

(** What a step guarantees. *)
Definition handled (U V : gset string) (req : Request) s (w : world) : Prop :=
  ∃ r s', handle req s = (r, s') ∧ answered (spec_handle req w).1 r ∧ server_inv U V s' (spec_handle req w).2.

Lemma dumps_fields l : NoDup l.*1 → Forall (λ kv, utf8 kv.1 ∧ dumps kv.2) l → dumps (of_object l).
Proof. intros Hl. by apply dumps_object. Qed.

(** Print a literal object. *)
Ltac dumps_literal :=
  repeat match goal with
  | |- dumps (of_object _) => apply dumps_fields; [vm_decide|]
  | |- Forall _ (_ :: _) => apply Forall_cons_2
  | |- Forall _ [] => apply Forall_nil_2
  | |- _ ∧ dumps _ => cbn [fst snd]; split
  | |- dumps (of_string _) => apply dumps_string
  | |- dumps (of_array _) => apply dumps_array
  | |- dumps _ => first [apply dumps_nat | apply dumps_bool | apply dumps_float]
  end; try first [done | exact I].

Lemma dumps_error msg : dumps (of_object [("error"%string, of_string msg)]) ↔ utf8 msg.
Proof.
  rewrite dumps_object by vm_decide. rewrite Forall_singleton. cbn. rewrite dumps_string. naive_solver.
Qed.

(** The answer of a failure, and that of a success. *)
Lemma fail_answered code msg : answered (quoting msg code) (fail code msg).
Proof.
  unfold fail, answered, quoting. pose proof (dumps_error msg) as Hd. destruct (dump _) as [c|e] eqn:E.
  - assert (utf8 msg) as Hu by (apply Hd; by exists c). by destruct (utf8 msg).
  - destruct (utf8 msg); [|by apply (dump_plain _ _ E)]. destruct (proj2 Hd I) as [c Hc]. congruence.
Qed.

Lemma answer_ok j : dumps j → ∃ c, dump j = Ok c ∧ catch_std (answer j) = Ok {| status := 200; content := c |}.
Proof. intros [c Hc]. exists c. split; [done|]. unfold answer. by rewrite Hc. Qed.

Lemma answer_answered j : dumps j → answered (Ok 200) (catch_std (answer j)).
Proof. by intros (c & _ & ->)%answer_ok. Qed.

Lemma throw_answered e : is_std e → answered (quoting (what e) 400) (catch_std (Throw e)).
Proof. intros He. cbn [catch_std]. destruct (is_std e); [|done]. apply fail_answered. Qed.

Lemma error_answered e : is_std e → utf8 (what e) → answered (Ok 400) (catch_std (Throw e)).
Proof. intros He Hu. pose proof (throw_answered e He) as H. unfold quoting in H. by destruct (utf8 (what e)). Qed.

(** ** Decoding, then acting *)

(** The handler after its decoding. *)
Definition decoded {A} (r : result A) (act : A → M (Server.t Ix Jx) Response) : M (Server.t Ix Jx) Response :=
  try_catch (a ← lift r; act a).

Lemma decoded_throw {A} (act : A → M (Server.t Ix Jx) Response) e s :
  decoded (Throw e) act s = (catch_std (Throw e), s).
Proof. done. Qed.

Lemma decoded_ok {A} (r : result A) act a q s s' :
  r = Ok a → act a s = (q, s') → decoded r act s = (catch_std q, s').
Proof. intros -> H. unfold decoded, try_catch, mbind, M_bind, lift. by rewrite H. Qed.

(** Errors of decoding are C++ exceptions. *)
Ltac clean_error b :=
  let H := fresh in
  pose proof (requests_refusal b) as H; unfold refusal in H; destruct H as (? & ? & ? & ? & ?); naive_solver.

Ltac same_decoding :=
  unfold decoded, try_catch, mbind, M_bind, result_bind, lift;
  repeat match goal with
  | |- context [match ?r with Ok _ => _ | Throw _ => _ end] =>
      lazymatch r with match _ with _ => _ end => fail | _ => destruct r; [|done] end
  end.

Definition act_insert (a : string * list word32 * Metadata) : M (Server.t Ix Jx) Response :=
  let '(id, vec, meta) := a in
  iid ← on_vec (Engine.insert id vec meta);
  lift (answer (of_object [("ok", of_bool true); ("id", of_string id); ("internal_id", of_nat (N.to_nat iid))])).

Lemma post_vectors_eq req s : post_vectors req s = decoded (vectors_request req) act_insert s.
Proof. unfold post_vectors, vectors_request, act_insert. by same_decoding. Qed.

Definition act_search (a : list word32 * nat * nat * option Filter) : M (Server.t Ix Jx) Response :=
  let '(q, k, ef, filter) := a in
  s ← read_state;
  hits ← lift (Engine.search (vec_engine s) q k filter ef);
  arr ← lift (hits_json (Engine.store_ (vec_engine s)) hits []);
  lift (answer (of_object [("results", of_array arr)])).

Lemma post_search_eq req s : post_search req s = decoded (search_request req) act_search s.
Proof. unfold post_search, search_request, act_search. by same_decoding. Qed.

Definition act_ingest (a : string * string) : M (Server.t Ix Jx) Response :=
  let '(id, text) := a in
  chunks ← on_rag (Rag.ingest {| Rag.doc_name := id; Rag.doc_text := text |});
  lift (answer (of_object [("ok", of_bool true); ("chunks", of_nat chunks)])).

Lemma post_document_eq req s : post_document req s = decoded (document_request req) act_ingest s.
Proof. unfold post_document, document_request, act_ingest. by same_decoding. Qed.

Definition act_retrieve (a : string * nat) : M (Server.t Ix Jx) Response :=
  let '(query, k) := a in
  s ← read_state;
  hits ← lift (Rag.retrieve (rag s) query k);
  lift (answer (of_object [("results", of_array (chunk_json <$> hits))])).

Lemma post_rag_search_eq req s : post_rag_search req s = decoded (query_request req) act_retrieve s.
Proof. unfold post_rag_search, query_request, act_retrieve. by same_decoding. Qed.

Definition act_prompt (query : string) : M (Server.t Ix Jx) Response :=
  s ← read_state;
  prompt ← lift (Rag.build_prompt (rag s) query);
  lift (answer (of_object [("prompt", of_string prompt)])).

Lemma post_rag_prompt_eq req s : post_rag_prompt req s = decoded (prompt_request req) act_prompt s.
Proof. unfold post_rag_prompt, prompt_request, act_prompt. by same_decoding. Qed.

(** ** The calls of the vector engine *)

Section Calls.
Context (U V : gset string) (HU : (N.of_nat (size U) < 2 ^ 32)%N) (HV : (N.of_nat (size V) < 2 ^ 32)%N).

Lemma no_log (e : Engine.t Ix) op : Engine.wal_ e = None → can_log e op.
Proof. intros Hw w. by rewrite Hw. Qed.

Lemma not_logged op (e e' : Engine.t Ix) : Engine.wal_ e = None → logged op e e' → Engine.wal_ e' = None.
Proof. unfold logged. intros ->. by destruct (Engine.wal_ e'). Qed.

Lemma insert_handled e d id vec meta :
  vec_inv U e d → id ∈ U → vec_sized vec → (fits vec → valid vec) →
  ∃ r e', Engine.insert id vec meta e = (r, e') ∧
    if fits vec then (∃ i, r = Ok i) ∧ vec_inv U e' (<[id := (vec, meta)]> d)
    else r = Throw dim_error ∧ vec_inv U e' d.
Proof.
  intros [Hinv Hdim Hw Hids Hc] Hid Hs Hv.
  set (op := {| op_type := Insert; op_ext_id := id; op_vec := vec; op_meta := Some meta |}).
  destruct (apply_op_logged_spec e op Hinv) as (r & e' & Hr & Hinv' & Hd' & _ & Hl & Hg & Hc' & Ha).
  - split; [done|]. intros _. rewrite Hdim. cbn. intros Hl. apply Hv. by apply bool_decide_spec.
  - by apply (ids_in_room U); [|apply Hinv|].
  - by apply no_log.
  - exists r, e'. split; [exact Hr|]. unfold answers, spec_apply in *. cbn [op_type op_vec op_ext_id op_meta op] in *.
    rewrite Hdim, Hc in *. unfold fits. change (default ∅ (Some meta)) with meta in *.
    assert (∀ d', contents e' = d' → vec_inv U e' d') as Hve.
    { intros d' Hd''. split; [done|congruence|by eapply not_logged|by apply Hg|done]. }
    case_bool_decide; cbn in Ha, Hc'; [|by split; [|apply Hve]].
    split; [|by apply Hve]. destruct Ha as (i & -> & _). by exists i.
Qed.

Lemma erase_handled e d id :
  vec_inv U e d → id ∈ U → ∃ b e', Engine.erase id e = (Ok b, e') ∧ vec_inv U e' (delete id d).
Proof.
  intros [Hinv Hdim Hw Hids Hc] Hid.
  destruct (client_spec e (del_op id) Hinv) as (r & e' & Hr & Hsp & [Hinv' Hd' _ Hg Hl]).
  - by split.
  - by apply (ids_in_room U); [|apply Hinv|].
  - by apply no_log.
  - change (Engine.erase id e = (r, e')) in Hr. unfold spec_apply in Hsp. cbn [op_type op_ext_id del_op] in Hsp.
    assert (Engine.wal_ e' = None) as Hw' by (case_decide; [by eapply not_logged|congruence]).
    rewrite Hc in Hsp. assert ((∃ b, r = Ok b) ∧ contents e' = delete id d) as [[b ->] Hc'].
    { destruct (d !! id) eqn:E; injection Hsp as -> ->; [eauto|]. by rewrite delete_id by done; eauto. }
    exists b, e'. split; [done|]. split; [done|congruence|done|by apply Hg|done].
Qed.

(** ** Each request is handled *)

Lemma set_vec_inv s d lib e d' :
  server_inv U V s (d, lib) → vec_inv U e d' → utf8_world (d', lib) → server_inv U V (set_vec e s) (d', lib).
Proof. intros [_ Hr Hc _] He Hu. by split. Qed.

Lemma set_rag_inv s d lib r lib' :
  server_inv U V s (d, lib) → rag_inv V r lib' → Rag.cfg_ r = Rag.cfg_ (rag s) → utf8_world (d, lib') →
  server_inv U V (set_rag r s) (d, lib').
Proof. intros [Hv _ Hc _] Hr Hc' Hu. split; [done|done|cbn; congruence|done]. Qed.

(** A request whose decoding fails. *)
Lemma refused_handled {A} b (r : result A) act e s w :
  refusal b r → r = Throw e → server_inv U V s w →
  ∃ resp, decoded r act s = (resp, s) ∧ answered (quoting (what e) 400) resp ∧ server_inv U V s w.
Proof.
  intros Hr -> Hinv. eexists. split; [apply decoded_throw|]. split; [|done]. apply throw_answered. by apply (Hr e).
Qed.

Lemma post_vectors_handled s w b :
  server_inv U V s w → sane (PostVectors b) → Forall (.∈ U) (vec_ids (PostVectors b)) → handled U V (PostVectors b) s w.
Proof.
  intros Hinv Hs Hid. pose proof (spec_utf8 (PostVectors b) w (sv_utf8 _ _ _ _ Hinv)) as Hu8.
  destruct w as [d lib]. unfold handled, spec_handle in *. cbn [handle]. rewrite post_vectors_eq.
  cbn [sane vec_ids] in Hs, Hid. destruct (vectors_request b) as [[[id vec] meta]|e] eqn:E.
  - destruct Hs as [Hsz Hval]. apply Forall_cons in Hid as [Hid _]. pose proof (sv_vec _ _ _ _ Hinv) as Hvi.
    destruct (insert_handled _ d id vec meta Hvi Hid Hsz Hval) as (r & e' & Hr & H).
    destruct (fits vec).
    + destruct H as [[i ->] He']. eexists _, (set_vec e' s). split.
      { eapply decoded_ok; [done|]. unfold act_insert, on_vec, zoom, mbind, M_bind. rewrite Hr. reflexivity. }
      split; [|by eapply set_vec_inv]. apply answer_answered. pose proof (vectors_request_utf8 _ _ _ _ E). dumps_literal.
    + destruct H as [-> He']. eexists _, (set_vec e' s). split.
      { eapply (decoded_ok _ _ _ (Throw dim_error)); [done|].
        unfold act_insert, on_vec, zoom, mbind, M_bind. by rewrite Hr. }
      split; [by apply error_answered|by eapply set_vec_inv].
  - destruct (refused_handled b (vectors_request b) act_insert e s (d, lib)) as (resp & Hd & ?);
      [by apply requests_refusal|done..|]. rewrite E in Hd. by exists resp, s.
Qed.

Lemma hits_json_ok st hits arr :
  (∀ h, h ∈ hits → ∃ x, VectorStore.external_id st (Distance.id h) = Ok x) →
  ∃ xs, hits_json st hits arr =
      Ok (arr ++ zip_with (λ x h, of_object [("id", of_string x); ("score", of_float (score h))]) xs hits)%list ∧
    Forall2 (λ x h, VectorStore.external_id st (Distance.id h) = Ok x) xs hits.
Proof.
  revert arr. induction hits as [|h hits IH]; intros arr Hh.
  { exists []. split; [cbn; by rewrite app_nil_r|constructor]. }
  destruct (Hh h) as [x Hx]; [by left|]. cbn [hits_json]. rewrite Hx. cbn [mbind result_bind].
  destruct (IH (arr ++ [of_object [("id", of_string x); ("score", of_float (score h))]])) as (xs & -> & Hxs);
    [intros; apply Hh; by right|].
  exists (x :: xs). split; [cbn; by rewrite <- app_assoc|by constructor].
Qed.

(** The answer to a search of the right length. *)
Definition search_answer s (q : list word32) (k : nat) (f : option Filter) (j : json) : Prop :=
  ∃ hits xs, answers_query (Met := Met) (vec_engine s) q k f hits ∧
    Forall2 (λ x h, VectorStore.external_id (Engine.store_ (vec_engine s)) (Distance.id h) = Ok x) xs hits ∧
    j = of_object [("results",
      of_array (zip_with (λ x h, of_object [("id", of_string x); ("score", of_float (score h))]) xs hits))].

Lemma search_handled s d q k ef f :
  vec_inv U (vec_engine s) d → map_Forall (λ id _, utf8 id) d → (fits q → valid q) →
  ∃ r, act_search (q, k, ef, f) s = (r, s) ∧
    if fits q then ∃ j, r = answer j ∧ dumps j ∧ search_answer s q k f j
    else ∃ e, r = Throw e ∧ is_std e ∧ utf8 (what e).
Proof.
  intros [Hinv Hdim _ _ Hc] Hu8 Hv. unfold act_search, mbind, M_bind, read_state, lift. unfold fits in *.
  case_bool_decide as Hq.
  - destruct (search_answers valid (vec_engine s) q k f ef ISL Hinv) as (hits & -> & Ha);
      [apply Hinv|by apply Hv|by rewrite Hdim|].
    destruct (hits_json_ok (Engine.store_ (vec_engine s)) hits []) as (xs & -> & Hxs).
    { intros h Hh. destruct (aq_entry _ _ _ _ _ Ha h Hh) as (x & ? & ? & Hx & _). by exists x. }
    eexists. split; [done|]. eexists. split; [done|]. split; [|by exists hits, xs].
    dumps_literal. apply Forall_lookup. intros i j (x & h & -> & Hx & Hh)%lookup_zip_with_Some.
    assert (utf8 x); [|dumps_literal]. pose proof (Forall2_lookup_lr _ _ _ _ _ _ Hxs Hx Hh) as Hext.
    destruct (aq_entry _ _ _ _ _ Ha h) as (x' & v & m & Hext' & Hin & _); [by eapply list_elem_of_lookup_2|].
    rewrite Hext in Hext'. injection Hext' as <-. rewrite Hc in Hin. by apply (Hu8 x _ Hin).
  - rewrite search_wrong_length by (done || by rewrite Hdim). by eexists; split; [|eexists].
Qed.

Lemma post_search_handled s w b : server_inv U V s w → sane (PostSearch b) → handled U V (PostSearch b) s w.
Proof.
  destruct w as [d lib]. intros Hinv Hs. unfold handled, spec_handle. cbn [handle]. rewrite post_search_eq.
  cbn [sane] in Hs. destruct (search_request b) as [[[[q k] ef] f]|e] eqn:E.
  - destruct (search_handled s d q k ef f (sv_vec _ _ _ _ Hinv)) as (r & Hr & H); [apply (sv_utf8 _ _ _ _ Hinv)|done|].
    destruct (fits q).
    + destruct H as (j & -> & Hj & _). eexists _, s. split; [eapply decoded_ok; [done|exact Hr]|].
      split; [by apply answer_answered|done].
    + destruct H as (e & -> & He & Hu). eexists _, s. split; [eapply decoded_ok; [done|exact Hr]|].
      split; [by apply error_answered|done].
  - destruct (refused_handled b (search_request b) act_search e s (d, lib)) as (resp & Hd & ?);
      [by apply requests_refusal|done..|]. rewrite E in Hd. by exists resp, s.
Qed.

Lemma delete_vector_handled s w id : server_inv U V s w → id ∈ U → handled U V (DeleteVector id) s w.
Proof.
  intros Hinv Hid. pose proof (spec_utf8 (DeleteVector id) w (sv_utf8 _ _ _ _ Hinv)) as Hu8.
  destruct w as [d lib]. unfold handled, spec_handle. cbn [handle].
  destruct (erase_handled _ d id (sv_vec _ _ _ _ Hinv) Hid) as (b & e' & Hr & He').
  eexists _, (set_vec e' s). split.
  { unfold delete_vector, try_catch, on_vec, zoom, mbind, M_bind. rewrite Hr. reflexivity. }
  split; [apply answer_answered; dumps_literal|by eapply set_vec_inv].
Qed.

Lemma post_document_handled s w b :
  server_inv U V s w → Forall (.∈ V) (doc_ids (PostDocument b)) → handled U V (PostDocument b) s w.
Proof.
  intros Hinv Hid. pose proof (spec_utf8 (PostDocument b) w (sv_utf8 _ _ _ _ Hinv)) as Hu8.
  destruct w as [d lib]. unfold handled, spec_handle in *. cbn [handle]. rewrite post_document_eq.
  cbn [doc_ids] in Hid. destruct (document_request b) as [[id text]|e] eqn:E.
  - pose proof (sv_cfg _ _ _ _ Hinv) as Hcfg. set (doc := {| Rag.doc_name := id; Rag.doc_text := text |}) in *.
    rewrite <- Hcfg in Hid, Hu8 |- *.
    destruct (ingest_ok V (rag s) lib doc HV (sv_rag _ _ _ _ Hinv) Hid) as (r' & Hr & Hc & Hr').
    eexists _, (set_rag r' s). split.
    { eapply decoded_ok; [done|]. unfold act_ingest, on_rag, zoom, mbind, M_bind. fold doc. rewrite Hr. reflexivity. }
    split; [apply answer_answered; dumps_literal|by eapply set_rag_inv].
  - destruct (refused_handled b (document_request b) act_ingest e s (d, lib)) as (resp & Hd & ?);
      [by apply requests_refusal|done..|]. rewrite E in Hd. by exists resp, s.
Qed.

Lemma delete_document_handled s w id : server_inv U V s w → handled U V (DeleteDocument id) s w.
Proof.
  intros Hinv. pose proof (spec_utf8 (DeleteDocument id) w (sv_utf8 _ _ _ _ Hinv)) as Hu8.
  destruct w as [d lib]. unfold handled, spec_handle. cbn [handle].
  destruct (remove_ok V (rag s) lib id HV (sv_rag _ _ _ _ Hinv)) as (r' & Hr & Hc & Hr').
  eexists _, (set_rag r' s). split.
  { unfold delete_document, try_catch, on_rag, zoom, mbind, M_bind. rewrite Hr. reflexivity. }
  split; [apply answer_answered; dumps_literal|by eapply set_rag_inv].
Qed.

(** The answer to a query of the documents. *)
Definition retrieve_answer (w : world) (query : string) (k : nat) (j : json) : Prop :=
  ∃ out, retrieved (Met := RMet) rag_cfg w.2 query k out ∧
    j = of_object [("results", of_array (chunk_json <$> out))].

(** The chunks of the documents are UTF-8. *)
Lemma retrieved_utf8 d lib query k out :
  utf8_world (d, lib) → retrieved (Met := RMet) rag_cfg lib query k out →
  Forall (λ c, utf8 (Text.doc_id c) ∧ utf8 (Text.rc_text c)) out.
Proof.
  intros [_ Hl] [_ _ (places & _ & Hp)]. apply Forall_lookup. intros i c Hc.
  destruct (Forall2_lookup_r _ _ _ _ _ Hp Hc) as (p & _ & Hid & (text & Ht & Hi) & _).
  destruct (Hl _ _ Ht) as [Hu1 Hu2]. rewrite Hid. split; [done|]. by eapply (Forall_lookup_1 _ _ _ _ (chunks_utf8 rag_cfg text Hu2)).
Qed.

Lemma retrieve_handled s w query k :
  server_inv U V s w → ∃ j, act_retrieve (query, k) s = (answer j, s) ∧ dumps j ∧ retrieve_answer w query k j.
Proof.
  intros [_ Hr Hc Hu]. destruct (retrieve_ok RISL V (rag s) w.2 query k Hr) as (out & Ho & Ha). rewrite Hc in Ha.
  unfold act_retrieve, mbind, M_bind, read_state, lift. rewrite Ho. eexists. split; [done|].
  split; [|by exists out]. destruct w as [d lib]. pose proof (retrieved_utf8 d lib query k out Hu Ha) as Hout.
  dumps_literal. apply Forall_fmap. eapply Forall_impl; [exact Hout|]. intros c [H1 H2]. cbn. unfold chunk_json. dumps_literal.
Qed.

Lemma post_rag_search_handled s w b : server_inv U V s w → handled U V (PostRagSearch b) s w.
Proof.
  intros Hinv. unfold handled, spec_handle. cbn [handle]. rewrite post_rag_search_eq. destruct w as [d lib].
  destruct (query_request b) as [[query k]|e] eqn:E.
  - destruct (retrieve_handled s _ query k Hinv) as (j & Hr & Hj & _).
    eexists _, s. split; [eapply decoded_ok; [done|exact Hr]|]. split; [by apply answer_answered|done].
  - destruct (refused_handled b (query_request b) act_retrieve e s (d, lib)) as (resp & Hd & ?);
      [by apply requests_refusal|done..|]. rewrite E in Hd. by exists resp, s.
Qed.

Lemma post_rag_prompt_handled s w b : server_inv U V s w → handled U V (PostRagPrompt b) s w.
Proof.
  intros Hinv. unfold handled, spec_handle. cbn [handle]. rewrite post_rag_prompt_eq. destruct w as [d lib].
  destruct (prompt_request b) as [query|e] eqn:E.
  - pose proof (sv_rag _ _ _ _ Hinv) as Hrag. pose proof (sv_cfg _ _ _ _ Hinv) as Hcfg.
    destruct (retrieve_ok RISL V (rag s) lib query (Rag.retrieve_k (Rag.cfg_ (rag s))) Hrag) as (out & Ho & Ha).
    eexists _, s. split.
    { eapply decoded_ok; [done|]. unfold act_prompt, Rag.build_prompt, mbind, M_bind, result_bind, read_state, lift.
      rewrite Ho. reflexivity. }
    split; [|done]. apply answer_answered. rewrite Hcfg in Ha.
    pose proof (retrieved_utf8 d lib _ _ out (sv_utf8 _ _ _ _ Hinv) Ha) as Hout.
    pose proof (prompt_request_utf8 _ _ E) as Hq. dumps_literal. apply prompt_utf8; [done|].
    eapply Forall_impl; [exact Hout|]. by intros c [_ ?].
  - destruct (refused_handled b (prompt_request b) act_prompt e s (d, lib)) as (resp & Hd & ?);
      [by apply requests_refusal|done..|]. rewrite E in Hd. by exists resp, s.
Qed.

Lemma stats_handled s w : server_inv U V s w → handled U V GetStats s w.
Proof.
  destruct w as [d lib]. intros Hinv. eexists _, s. split; [done|]. split; [|done]. cbn [spec_handle fst].
  unfold get_stats, stats_response, quoting. set (j := of_object _).
  assert (dumps j ↔ utf8 (ix_name (Ix := Ix))) as Hj.
  { unfold j. split; [|intros; dumps_literal].
    intros H%dumps_object; [|vm_decide]. apply Forall_cons in H as [[_ H] _]. cbn in H.
    apply dumps_object in H; [|vm_decide]. rewrite !Forall_cons in H. cbn in H. rewrite !dumps_string in H. tauto. }
  rewrite <- (dump_indent_dumps 2) in Hj. destruct (dump_indent 2 j) as [c|e] eqn:E.
  - assert (utf8 (ix_name (Ix := Ix))) as Hu by (apply Hj; by exists c).
    apply Is_true_true in Hu. by rewrite Hu.
  - destruct (utf8 (ix_name (Ix := Ix))); [|by apply (dump_indent_plain _ _ _ E)]. by destruct (proj2 Hj I).
Qed.

Lemma request_handled s w req :
  server_inv U V s w → sane req → Forall (.∈ U) (vec_ids req) → Forall (.∈ V) (doc_ids req) → handled U V req s w.
Proof.
  intros Hinv Hs Hu Hv. destruct req.
  - apply stats_handled; [done].
  - by apply post_vectors_handled.
  - by apply post_search_handled.
  - apply delete_vector_handled; [done|]. by apply Forall_cons in Hu as [Hu _].
  - by apply post_document_handled.
  - by apply delete_document_handled.
  - by apply post_rag_search_handled.
  - by apply post_rag_prompt_handled.
  - destruct w. eexists _, s. by split.
Qed.

Lemma run_handled s w reqs :
  server_inv U V s w → Forall sane reqs →
  Forall (λ req, Forall (.∈ U) (vec_ids req) ∧ Forall (.∈ V) (doc_ids req)) reqs →
  let '(rs, s') := run_log handle reqs s in
  let '(sts, w') := run_log spec_handle reqs w in
  Forall2 answered sts rs ∧ server_inv U V s' w'.
Proof.
  revert s w. induction reqs as [|req reqs IH]; intros s w Hinv Hs Hids; [done|].
  apply Forall_cons in Hs as [Hs1 Hs]. apply Forall_cons in Hids as [[Hu Hv] Hids].
  destruct (request_handled s w req Hinv Hs1 Hu Hv) as (r & s1 & Hr & Hst & Hinv1).
  cbn [run_log]. rewrite Hr. destruct (spec_handle req w) as [st w1]. cbn [fst snd] in Hst, Hinv1.
  specialize (IH s1 w1 Hinv1 Hs Hids).
  destruct (run_log handle reqs s1), (run_log spec_handle reqs w1). destruct IH as [? ?].
  split; [by constructor|done].
Qed.
End Calls.

Lemma start_inv U V s : start = Ok s → server_inv U V s (∅, ∅).
Proof.
  unfold start. intros (e & He & (r & Hr & [= <-])%result_bind_Ok)%result_bind_Ok.
  destruct (open_memory kVecDim e eq_refl He) as (Hinv & Hc & Hd & Hw & _ & Hs).
  destruct (rag_make_ok V rag_cfg r Hr) as (Hrag & Hcfg & _). split; [|done..]. split; try done.
  intros x [i Hi]. apply (VectorStore.wf_slot _ x i (inv_store e Hinv)) in Hi. lia.
Qed.

Lemma ids_of_run {A} (f : A → list string) (l : list A) :
  Forall (λ x, Forall (.∈ (list_to_set (l ≫= f) : gset string)) (f x)) l.
Proof.
  apply Forall_forall. intros a Ha. apply Forall_forall. intros x Hx.
  apply elem_of_list_to_set, list_elem_of_bind. eauto.
Qed.

Lemma run_throws reqs w :
  Forall2 (λ req st, (∃ e, st = Throw e) ↔ unquotable req) reqs (run_log spec_handle reqs w).1.
Proof.
  revert w. induction reqs as [|req reqs IH]; intros w; [constructor|]. cbn [run_log].
  pose proof (spec_throws req w) as H. destruct (spec_handle req w) as [st w1]. specialize (IH w1).
  destruct (run_log spec_handle reqs w1). by constructor.
Qed.

(** C3: the server is its two databases. From the start, any sequence of requests
    is answered with exactly the statuses 200, 204 and 400 of the abstract server;
    an exception, which the HTTP library answers, leaves a handler just when the
    body does not parse and its parse error quotes bytes that are not UTF-8. No
    handler reaches undefined behaviour. The vectors and documents stored are
    exactly those of the abstract server, so a request that it answers with 400
    changes nothing. Afterwards a search of four numbers is answered, with status
    200, with entries of the database at their distances, and a query with chunks
    of the documents. The bodies may be any strings, parsed by any JSON library
    with the documented behaviour, as long as each vector that they insert or
    search for is one on which the metric is tame (for the squared distance of
    the program: its elements are finite). *)
Theorem server_refines (reqs : list Request) s :
  start = Ok s → Forall sane reqs →
  (N.of_nat (length (reqs ≫= vec_ids)) < 2 ^ 32)%N → (N.of_nat (length (reqs ≫= doc_ids)) < 2 ^ 32)%N →
  let '(rs, s') := run_log handle reqs s in
  let '(sts, w) := run_log spec_handle reqs (∅, ∅) in
  Forall2 answered sts rs ∧ Forall2 (λ req st, (∃ e, st = Throw e) ↔ unquotable req) reqs sts ∧
  engine_inv (vec_engine s') ∧
  contents (vec_engine s') = w.1 ∧ Rag.document_count (rag s') = size w.2 ∧
  (∀ b q k ef f, search_request b = Ok (q, k, ef, f) → fits q → valid q →
     ∃ j c, dump j = Ok c ∧ handle (PostSearch b) s' = (Ok {| status := 200; content := c |}, s') ∧
       search_answer s' q k f j) ∧
  (∀ b query k, query_request b = Ok (query, k) →
     ∃ j c, dump j = Ok c ∧ handle (PostRagSearch b) s' = (Ok {| status := 200; content := c |}, s') ∧
       retrieve_answer w query k j).
Proof.
  intros Hstart Hsane Hu Hv.
  set (U := list_to_set (reqs ≫= vec_ids) : gset string). set (V := list_to_set (reqs ≫= doc_ids) : gset string).
  pose proof (size_list_to_set_le (reqs ≫= vec_ids)) as HU. pose proof (size_list_to_set_le (reqs ≫= doc_ids)) as HV.
  fold U in HU. fold V in HV.
  pose proof (run_handled U V ltac:(lia) ltac:(lia) s (∅, ∅) reqs (start_inv U V s Hstart) Hsane) as H.
  pose proof (run_throws reqs (∅, ∅)) as Hth.
  destruct (run_log handle reqs s) as [rs s'], (run_log spec_handle reqs (∅, ∅)) as [sts w].
  destruct H as [Hst Hinv]; [by apply Forall_and; split; apply ids_of_run|].
  pose proof Hinv as [Hvec [_ Hcnt _] _ [Hu8 _]]. split_and!; [done|done|apply Hvec|apply Hvec| | |].
  - unfold Rag.document_count. by rewrite Hcnt, map_size_fmap.
  - intros b q k ef f Hb Hf Hq. cbn [handle]. rewrite post_search_eq.
    destruct (search_handled U s' w.1 q k ef f Hvec Hu8 (λ _, Hq)) as (r & Hr & H).
    destruct (fits q); [|done]. destruct H as (j & -> & (c & Hc & Hj)%answer_ok & Ha). exists j, c.
    split; [done|]. split; [|done]. rewrite Hb, <- Hj. eapply decoded_ok; [done|exact Hr].
  - intros b query k Hb. cbn [handle]. rewrite post_rag_search_eq, Hb.
    destruct (retrieve_handled U V s' w query k Hinv) as (j & Hr & (c & Hc & Hj)%answer_ok & Ha). exists j, c.
    split; [done|]. split; [|done]. rewrite <- Hj. eapply decoded_ok; [done|exact Hr].
Qed.
End Spec.
