(* ===== verification/ServerThreads.v ===== *)
(** * The server with concurrent requests ([server/server.cpp])

    The HTTP library calls the handlers from many threads. A handler decodes its
    request, takes the mutex [mu] with a [std::lock_guard], uses the engines, and
    releases it at the end of the scope or when an exception leaves it; the
    [catch] runs outside. Every interleaving answers as the handlers of [Server]
    run one after the other. *)
From stdpp Require Import pretty.
From Stdlib Require Import Strings.Ascii.
From S2P Require Import Prelude Threads StdQueue Binary Distance Metadata Bitset VectorStore StoreSpec Index.
From S2P Require Import OpCodec LogStore BlobStore Engine EngineSpec EngineSearch Text Embedding Rag RagSpec RagSearch.
From S2P Require Import Server ServerSpec.
Local Open Scope string_scope.
Local Open Scope list_scope.
Local Open Scope nat_scope.
Import Server.

Module ServerThreads.

(** ** The guarded sections of the handlers *)

Section Sections.
Context {J : JsonLib} {EM : EmbeddingModel} {Ix Jx : Type} {IO : IndexOps Ix} {JO : IndexOps Jx} {MO : MapOrder}.
Local Notation section := (critical (Server.t Ix Jx) (result Response)).
Local Notation threaded := (config (S := Server.t Ix Jx) (T := Request) (A := result Response)).

Definition stats_section : section :=
  access (reading vector_count) (λ vectors,
  access (reading (λ s, Rag.document_count (rag s))) (λ documents,
  access (reading chunk_count) (λ chunks,
  Leave (stats_response (Ix := Ix) vectors documents chunks)))).

Definition insert_section (a : string * list word32 * Metadata) : section :=
  let '(id, vec, meta) := a in
  access (on_vec (Engine.insert id vec meta)) (λ iid,
  Leave (answer (of_object [("ok", of_bool true); ("id", of_string id); ("internal_id", of_nat (N.to_nat iid))]))).

(** [external_id] is read from the store for each hit. *)
Fixpoint hits_section (hits : list SearchResult) (arr : list json) : section :=
  match hits with
  | [] => Leave (answer (of_object [("results", of_array arr)]))
  | h :: hits =>
      access (λ s, (VectorStore.external_id (Engine.store_ (vec_engine s)) (Distance.id h), s)) (λ x,
      hits_section hits (arr ++ [of_object [("id", of_string x); ("score", of_float (score h))]]))
  end.

Definition search_section (a : list word32 * nat * nat * option Filter) : section :=
  let '(q, k, ef, filter) := a in
  access (λ s, (Engine.search (vec_engine s) q k filter ef, s)) (λ hits, hits_section hits []).

Definition erase_section (id : string) : section :=
  access (on_vec (Engine.erase id)) (λ existed,
  Leave (answer (of_object [("ok", of_bool true); ("existed", of_bool existed)]))).

Definition ingest_section (a : string * string) : section :=
  let '(id, text) := a in
  access (on_rag (Rag.ingest {| Rag.doc_name := id; Rag.doc_text := text |})) (λ chunks,
  Leave (answer (of_object [("ok", of_bool true); ("chunks", of_nat chunks)]))).

Definition remove_section (id : string) : section :=
  access (on_rag (Rag.remove id)) (λ existed,
  Leave (answer (of_object [("ok", of_bool true); ("existed", of_bool existed)]))).

Definition retrieve_section (a : string * nat) : section :=
  let '(query, k) := a in
  access (λ s, (Rag.retrieve (rag s) query k, s)) (λ hits,
  Leave (answer (of_object [("results", of_array (chunk_json <$> hits))]))).

Definition prompt_section (query : string) : section :=
  access (λ s, (Rag.build_prompt (rag s) query, s)) (λ prompt,
  Leave (answer (of_object [("prompt", of_string prompt)]))).

(** [try { decode; lock_guard; ... } catch (const std::exception& e) { fail(...); }] *)
Definition guarded {A} (decoding : result A) (sec : A → section) : plan :=
  match decoding with
  | Ok a => Locked (sec a) catch_std
  | Throw e => Unlocked (catch_std (Throw e))
  end.

Definition prepare (req : Request) : plan (S := Server.t Ix Jx) :=
  match req with
  | GetStats => Locked stats_section (λ r, r)
  | PostVectors b => guarded (vectors_request b) insert_section
  | PostSearch b => guarded (search_request b) search_section
  | DeleteVector id => guarded (Ok id) erase_section
  | PostDocument b => guarded (document_request b) ingest_section
  | DeleteDocument id => guarded (Ok id) remove_section
  | PostRagSearch b => guarded (query_request b) retrieve_section
  | PostRagPrompt b => guarded (prompt_request b) prompt_section
  | AnyOptions => Unlocked (Ok {| status := 204; content := "" |})
  end.

(** A run of the server: arrivals of requests and turns of their threads. *)
Definition serve (s : Server.t Ix Jx) (es : list (event (T := Request))) : threaded :=
  run_schedule prepare es (boot s).

(** ** The program *)

(** [std::atoi]: white space, a sign, digits; the rest is not read. A value that
    is not an [int] is undefined. *)
Definition digit_of (a : ascii) : option Z :=
  let n := nat_of_ascii a in if (48 <=? n) && (n <=? 57) then Some (Z.of_nat (n - 48)) else None.

Fixpoint read_digits (s : string) (n : Z) : Z :=
  match s with
  | String a s => match digit_of a with Some d => read_digits s (10 * n + d) | None => n end
  | "" => n
  end.

Definition read_signed (s : string) : Z :=
  match s with
  | String "-" s => (- read_digits s 0)%Z
  | String "+" s => read_digits s 0
  | _ => read_digits s 0
  end.

Fixpoint skip_space (s : string) : string :=
  match s with String a s' => if Text.isspace a then skip_space s' else s | "" => "" end.

Definition atoi (s : string) : result Z :=
  let n := read_signed (skip_space s) in
  if ((- 2 ^ 31 <=? n) && (n <? 2 ^ 31))%Z then Ok n else Throw undefined_behaviour.

(** The headers of every response. *)
Definition default_headers : list (string * string) :=
  [("Access-Control-Allow-Origin", "*");
   ("Access-Control-Allow-Methods", "GET, POST, DELETE, OPTIONS");
   ("Access-Control-Allow-Headers", "Content-Type")].

Record Exit := { code : Z; out_lines : list string; err_lines : list string; final : threaded }.

(** [main], with the arguments after the program's name. [listen] binds the port,
    or fails; once bound it serves until it is stopped. *)
Definition main (args : list string) (listen : Z → option (list (event (T := Request)))) : result Exit :=
  port ← match args with a :: _ => atoi a | [] => Ok 8080%Z end;
  s ← start;
  let out := ["toy-vector-db server listening on http://localhost:" +:+ pretty port] in
  Ok match listen port with
     | Some es => {| code := 0; out_lines := out; err_lines := []; final := serve s es |}
     | None => {| code := 1; out_lines := out; err_lines := ["failed to bind port " +:+ pretty port]; final := serve s [] |}
     end.

(** ** The sections are the handlers *)

Lemma guarded_means {A} (decoding : result A) (sec : A → section) (act : A → M (Server.t Ix Jx) Response) f :
  (∀ s, f s = decoded decoding act s) → (∀ a s, act a s = run_section (sec a) s) → means (guarded decoding sec) f.
Proof.
  intros Hf Ha. unfold guarded. destruct decoding as [a|e]; cbn [means]; intros s; rewrite Hf; [|done].
  unfold decoded, try_catch, mbind, M_bind, lift. rewrite Ha. by destruct (run_section (sec a) s).
Qed.

(** Handlers that take the matched part of the path decode nothing. *)
Lemma path_means (id : string) (sec : string → section) f :
  (∀ s, f s = try_catch (run_section (sec id)) s) → means (guarded (Ok id) sec) f.
Proof. intros Hf s. rewrite Hf. unfold try_catch. by destruct (run_section (sec id) s). Qed.

Lemma hits_section_run hits arr s :
  run_section (hits_section hits arr) s =
  (x ← lift (hits_json (Engine.store_ (vec_engine s)) hits arr); lift (answer (of_object [("results", of_array x)]))) s.
Proof.
  revert arr. induction hits as [|h hits IH]; intros arr; [done|]. cbn [hits_section hits_json]. rewrite run_access.
  unfold mbind, M_bind, result_bind, lift in *. destruct (VectorStore.external_id _ _); [|done]. by rewrite IH.
Qed.

Lemma search_section_run a s : act_search a s = run_section (search_section a) s.
Proof.
  destruct a as [[[q k] ef] filter]. unfold search_section. rewrite run_access.
  unfold act_search, read_state, mbind, M_bind, lift. destruct (Engine.search _ q k filter ef); [|done].
  by rewrite hits_section_run.
Qed.

Lemma prepare_means req : means (prepare req) (handle req).
Proof.
  destruct req; cbn [prepare handle].
  - by intros s.
  - apply (guarded_means _ _ act_insert); [apply post_vectors_eq|]. intros [[id vec] meta] s. unfold insert_section. by rewrite run_access.
  - apply (guarded_means _ _ act_search); [apply post_search_eq|apply search_section_run].
  - apply path_means. intros s. unfold delete_vector, try_catch, erase_section. by rewrite run_access.
  - apply (guarded_means _ _ act_ingest); [apply post_document_eq|]. intros [id text] s. unfold ingest_section. by rewrite run_access.
  - apply path_means. intros s. unfold delete_document, try_catch, remove_section. by rewrite run_access.
  - apply (guarded_means _ _ act_retrieve); [apply post_rag_search_eq|]. intros [query k] s. unfold retrieve_section. by rewrite run_access.
  - apply (guarded_means _ _ act_prompt); [apply post_rag_prompt_eq|]. intros query s. unfold prompt_section. by rewrite run_access.
  - by intros s.
Qed.

Lemma serve_inv s es : machine_inv prepare handle s (serve s es).
Proof. apply schedule_inv; [apply prepare_means|apply boot_inv]. Qed.

Lemma serial_run_log reqs (s : Server.t Ix Jx) : serial handle reqs s = run_log handle reqs s.
Proof.
  revert s. induction reqs as [|req reqs IH]; intros s; [done|]. cbn. destruct (handle req s) as [r s1]. by rewrite IH.
Qed.
End Sections.

Section Linear.
Context {J : JsonLib} {JL : JsonLaws J} {EM : EmbeddingModel} {MO : MapOrder}.
Context {Ix : Type} {IO : IndexOps Ix} {Met : DistanceMetric} {valid : list word32 → Prop} {IL : IndexLaws Ix valid}.
Context {ISL : IndexSearchLaws Ix valid valid}.
Context {Jx : Type} {JO : IndexOps Jx} {RMet : DistanceMetric} {rvalid : list word32 → Prop}.
Context {RIL : @IndexLaws Jx JO rvalid} {RISL : @IndexSearchLaws Jx RMet JO rvalid RIL rvalid}.
Context {EL : EmbeddingLaws EM rvalid}.

(** The abstract server explains the served requests. *)
Lemma order_refines (s : Server.t Ix Jx) (reqs : list Request) :
  start = Ok s → Forall (sane (valid := valid)) reqs →
  (N.of_nat (length (reqs ≫= vec_ids)) < 2 ^ 32)%N → (N.of_nat (length (reqs ≫= doc_ids)) < 2 ^ 32)%N →
  let '(rs, s') := serial handle reqs s in
  let '(sts, w) := run_log (spec_handle (Ix := Ix)) reqs (∅, ∅) in
  Forall2 answered sts rs ∧ Forall2 (λ req st, (∃ e, st = Throw e) ↔ unquotable (Ix := Ix) req) reqs sts ∧
  contents (vec_engine s') = w.1 ∧ Rag.document_count (rag s') = size w.2.
Proof.
  intros Hstart Hsane Hu Hv. rewrite serial_run_log.
  set (U := list_to_set (reqs ≫= vec_ids) : gset string). set (V := list_to_set (reqs ≫= doc_ids) : gset string).
  pose proof (size_list_to_set_le (reqs ≫= vec_ids)) as HU. pose proof (size_list_to_set_le (reqs ≫= doc_ids)) as HV.
  fold U in HU. fold V in HV.
  pose proof (run_handled (Ix := Ix) (Jx := Jx) (valid := valid) (rvalid := rvalid) U V ltac:(lia) ltac:(lia) s (∅, ∅) reqs (start_inv (valid := valid) (rvalid := rvalid) U V s Hstart) Hsane) as H.
  pose proof (run_throws (Ix := Ix) reqs (∅, ∅)) as Hth.
  destruct (run_log handle reqs s) as [rs s'], (run_log (spec_handle (Ix := Ix)) reqs (∅, ∅)) as [sts w].
  destruct H as [Hst Hinv]; [by apply Forall_and; split; apply ids_of_run|].
  pose proof Hinv as [Hvec [_ Hcnt _] _ _]. split_and!; [done|done|apply Hvec|].
  unfold Rag.document_count. by rewrite Hcnt, map_size_fmap.
Qed.

(** C4: the server under concurrency. For every interleaving of the arrivals and
    steps of any number of requests, one thread at a time uses the engines, and
    the answers and the final state are those of the handlers run one after the
    other in the order in which they took the mutex (or ended, if they take
    none); a request answered before
    another arrives comes first in that order. Some thread can always move while
    a request is unanswered, and without new arrivals all steps end. When all are
    answered, the order is all requests once each, with exactly the statuses and
    effects of the abstract server; an exception leaves a handler just when the
    body does not parse and its parse error quotes bytes that are not UTF-8. As
    for requests one after the other, the vectors are such that the metric is
    tame on them. *)
Theorem server_linearizable (s : Server.t Ix Jx) (es : list (event (T := Request))) :
  start = Ok s → Forall (sane (valid := valid)) ((history (serve s es)).*2) →
  (N.of_nat (length ((history (serve s es)).*2 ≫= vec_ids)) < 2 ^ 32)%N →
  (N.of_nat (length ((history (serve s es)).*2 ≫= doc_ids)) < 2 ^ 32)%N →
  let c := serve s es in
  linear handle s c ∧
  (∀ es' i j t t' t'' a n m, threads c !! i = Some (t, Answered a) → length (threads c) ≤ j →
     history (serve s (es ++ es')) !! n = Some (i, t') → history (serve s (es ++ es')) !! m = Some (j, t'') → n < m) ∧
  (∀ i t th, threads c !! i = Some (t, th) → is_answered th = false → ∃ j c', move prepare j c = Some c') ∧
  Acc (λ c2 c1, ∃ i, move prepare i c1 = Some c2) c ∧
  (forallb (λ x, is_answered x.2) (threads c) = true →
   (history c).*1 ≡ₚ seq 0 (length (threads c)) ∧
   let '(sts, w) := run_log (spec_handle (Ix := Ix)) (history c).*2 (∅, ∅) in
   Forall2 answered sts (serial handle (history c).*2 s).1 ∧
   Forall2 (λ req st, (∃ e, st = Throw e) ↔ unquotable (Ix := Ix) req) (history c).*2 sts ∧
   contents (vec_engine (objects c)) = w.1 ∧ Rag.document_count (rag (objects c)) = size w.2).
Proof.
  intros Hstart Hsane Hu Hv c. pose proof (serve_inv s es) as Hinv. fold c in Hinv. split_and!.
  - by apply machine_linear in Hinv.
  - intros es' i j t t' t'' a n m Hi Hj. pose proof (lin_order _ _ _ (machine_linear _ _ _ _ (serve_inv s (es ++ es')))) as Hnd.
    unfold serve, run_schedule in *. rewrite foldl_app in Hnd |- *. by eapply real_time.
  - intros i t th. by eapply no_deadlock.
  - apply moves_end.
  - intros Hall. destruct (all_answered prepare handle s c Hinv Hall) as [Hp Ho]. split; [done|].
    pose proof (order_refines s (history c).*2 Hstart Hsane Hu Hv) as H. rewrite Ho.
    destruct (serial handle (history c).*2 s), (run_log (spec_handle (Ix := Ix)) (history c).*2 (∅, ∅)). by destruct H as (? & ? & ? & ?).
Qed.
End Linear.
End ServerThreads.
