(* ===== verification/ServerDemo.v ===== *)
(** * The server on concrete requests

    A small JSON library (a data type, a table of the bodies it parses, a printer
    that refuses what is not UTF-8), the vector engine over an HNSW graph and
    the retrieval engine over the exact index, as [main] creates them; requests one
    after the other, and requests of several threads. *)
From Stdlib Require Import Strings.Ascii.
From stdpp Require Import pretty.
From coqutil Require Import Word.Interface.
From S2P Require Import Prelude Threads StdQueue Binary Rounding Distance Metadata VectorStore StoreSpec Index DistanceBounds FlatIndex.
From S2P Require Import Hnsw HnswSearch HnswGraph HnswIndex HnswDemo RagDemo OpCodec Engine EngineSpec EngineSearch.
From S2P Require Import Text Embedding EmbeddingBounds Rag RagSpec RagSearch Utf8 Server ServerSpec ServerThreads.
Local Open Scope string_scope.
Local Open Scope list_scope.
Local Open Scope nat_scope.
Import Server.

(** ** A JSON library *)

Inductive Json : Type :=
| JNull
| JString (s : string)
| JBool (b : bool)
| JInt (i : word64)
| JFloat (d : word64)
| JObject (l : list (string * Json))
| JArray (l : list Json).

Definition type_error {A} : result A := Throw (runtime_error "[json.exception.type_error]").
Definition out_of_range {A} : result A := Throw (runtime_error "[json.exception.out_of_range]").

Definition quote : string := String (ascii_of_nat 34) "".

Fixpoint printable (j : Json) : bool :=
  match j with
  | JString s => utf8 s
  | JObject l => forallb (λ kv, utf8 kv.1 && printable kv.2) l
  | JArray l => forallb printable l
  | _ => true
  end.

(** Floats appear by their bits. *)
Fixpoint show (j : Json) : string :=
  match j with
  | JNull => "null"
  | JString s => quote +:+ s +:+ quote
  | JBool b => if b then "true" else "false"
  | JInt i => pretty (word.signed i)
  | JFloat d => "#" +:+ pretty (word.unsigned d)
  | JObject l => "{" +:+ String.concat "," (map (λ kv, quote +:+ kv.1 +:+ quote +:+ ":" +:+ show kv.2) l) +:+ "}"
  | JArray l => "[" +:+ String.concat "," (map show l) +:+ "]"
  end.

Definition dump_json (j : Json) : result string := if printable j then Ok (show j) else type_error.

Fixpoint member (k : string) (l : list (string * Json)) : option Json :=
  match l with
  | [] => None
  | (k', v) :: l => if bool_decide (k = k') then Some v else member k l
  end.

Definition field (j : Json) (k : string) : option Json :=
  match j with JObject l => member k l | _ => None end.

Definition int (z : Z) : Json := JInt (word.of_Z z).
Definition half : Json := JFloat (double_of (SpecFloat.S754_finite false 4503599627370496 (-53))).

Definition good_a : Json :=
  JObject [("id", JString "a"); ("vector", JArray [int 1; int 2; half; int 4]);
           ("metadata", JObject [("kind", JString "x"); ("n", int 3)])].
Definition good_b : Json := JObject [("id", JString "b"); ("vector", JArray [int 0; int 0; int 0; int 9])].
Definition short : Json := JObject [("id", JString "c"); ("vector", JArray [int 1; int 2])].
Definition near : Json :=
  JObject [("vector", JArray [int 1; int 2; int 1; int 4]); ("k", int 1); ("filter", JObject [("kind", JString "x")])].
Definition doc : Json := JObject [("id", JString "d"); ("text", JString "the quick brown fox jumps over the lazy dog")].
Definition ask : Json := JObject [("query", JString "quick fox")].
Definition late : Json := JObject [("query", JNull)].

Definition bodies : list (string * Json) :=
  [("good_a", good_a); ("good_b", good_b); ("short", short); ("near", near); ("doc", doc); ("ask", ask); ("late", late)].

#[local] Instance small_json : JsonLib := {|
  json := Json;
  parse s := match member s bodies with Some j => Ok j | None => Throw (runtime_error ("parse_error: " +:+ s)) end;
  dump := dump_json;
  dump_indent _ := dump_json;
  is_string j := match j with JString _ => true | _ => false end;
  is_boolean j := match j with JBool _ => true | _ => false end;
  is_number_integer j := match j with JInt _ => true | _ => false end;
  is_number_float j := match j with JFloat _ => true | _ => false end;
  is_object j := match j with JObject _ => true | _ => false end;
  is_empty j := match j with JNull | JObject [] | JArray [] => true | _ => false end;
  get_string j := match j with JString s => Ok s | _ => type_error end;
  get_bool j := match j with JBool b => Ok b | _ => type_error end;
  get_int64 j := match j with JInt i => Ok i | _ => type_error end;
  get_double j := match j with JFloat d => Ok d | _ => type_error end;
  get_float j :=
    match j with
    | JInt i => Ok (float_of (f_of_int (word.signed i)))
    | JFloat d => Ok (float_of (Mock.float_of_double (double_val d)))
    | _ => type_error
    end;
  items j := match j with JObject l => l | _ => [] end;
  elements j := match j with JObject l => snd <$> l | JArray l => l | JNull => [] | _ => [j] end;
  at_key j k := match j, field j k with JObject _, Some v => Ok v | JObject _, None => out_of_range | _, _ => type_error end;
  subscript j k := match field j k with Some v => Ok v | None => Throw undefined_behaviour end;
  contains j k := bool_decide (is_Some (field j k));
  value_size j k n :=
    match j, field j k with
    | JObject _, Some (JInt i) => Ok (Z.to_nat (word.unsigned i))
    | JObject _, None => Ok n
    | _, _ => type_error
    end;
  of_string := JString;
  of_bool := JBool;
  of_nat n := int (Z.of_nat n);
  of_float x := JFloat (double_of (Mock.double_of_float x));
  of_object := JObject;
  of_array := JArray;
|}.

(** What is printed is UTF-8. *)
Lemma dumps_printable (j : Json) : dumps (J := small_json) j ↔ printable j.
Proof.
  unfold dumps. cbn. unfold dump_json. destruct (printable j); split; [done|by eexists|by intros [c Hc]|done].
Qed.

Lemma printable_member k l v :
  Forall (λ kv, Is_true (printable kv.2)) l → member k l = Some v → printable v.
Proof.
  induction 1 as [|[k' v'] l Hv Hl IH]; cbn; [done|]. case_bool_decide; [by intros [= <-]|done].
Qed.

Lemma printable_object l : printable (JObject l) ↔ Forall (λ kv, utf8 kv.1 ∧ printable kv.2) l.
Proof. cbn. rewrite forallb_True. apply Forall_iff. intros [k v]. cbn. apply andb_True. Qed.

Lemma printable_bodies : Forall (λ kv, Is_true (printable kv.2)) bodies.
Proof. vm_compute. repeat constructor. Qed.

Lemma plain_type_error {A} : plain (A := A) type_error.
Proof. by intros e [= <-]. Qed.

Lemma plain_out_of_range {A} : plain (A := A) out_of_range.
Proof. by intros e [= <-]. Qed.

#[local] Instance small_json_laws : JsonLaws small_json.
Proof.
  split.
  - intros s e. cbn. case_match; [done|]. by intros [= <-].
  - intros []; cbn; auto using plain_type_error with plain.
  - intros []; cbn; auto using plain_type_error with plain.
  - intros []; cbn; auto using plain_type_error with plain.
  - intros []; cbn; auto using plain_type_error with plain.
  - intros []; cbn; auto using plain_type_error with plain.
  - intros [] k _; cbn; repeat case_match; auto using plain_type_error, plain_out_of_range with plain.
  - intros [] k n _; cbn; repeat case_match; auto using plain_type_error with plain.
  - intros j k H. cbn in *. destruct (field j k); [by eexists|done].
  - intros j. cbn. unfold dump_json. case_match; auto using plain_type_error with plain.
  - intros n j. cbn. unfold dump_json. case_match; auto using plain_type_error with plain.
  - done.
  - intros s. apply dumps_printable.
  - intros b. by apply dumps_printable.
  - intros n. by apply dumps_printable.
  - intros x. by apply dumps_printable.
  - intros l _. rewrite dumps_printable. cbn [of_object small_json]. rewrite printable_object.
    apply Forall_iff. intros kv. by rewrite dumps_printable.
  - intros l. rewrite dumps_printable. cbn. rewrite forallb_True. apply Forall_iff. intros j. by rewrite dumps_printable.
  - intros s j. rewrite dumps_printable. cbn [parse small_json]. destruct (member s bodies) eqn:E; [|done]. intros [= <-].
    by eapply printable_member; [apply printable_bodies|].
  - intros j k v. rewrite !dumps_printable. cbn [at_key small_json]. destruct j; try done. intros Hj.
    destruct (field (JObject l) k) eqn:E; [|done]. intros [= <-]. eapply printable_member; [|done].
    apply printable_object in Hj. eapply Forall_impl; [exact Hj|]. by intros kv [_ ?].
  - intros j x. rewrite dumps_printable. destruct j; cbn; try done. by intros ? [= <-].
Qed.

(** ** The server *)

#[local] Existing Instances demo_random hnsw_near hnsw_far hnsw_near_laws hnsw_far_laws hnsw_sort hnsw_sort_laws hnsw_order.
#[local] Existing Instances demo_draws demo_hnsw.
#[local] Existing Instances hnsw_metric hnsw_tame demo_hnsw_laws.
#[local] Existing Instances rag_pqueue rag_pqueue_laws rag_model rag_model_laws.

Definition rag_ops : IndexOps FlatIndex.t := FlatIndex.flat_ops (Met := Cosine).
Definition rag_laws : @IndexLaws FlatIndex.t rag_ops small_vec := FlatIndex.flat_laws (Met := Cosine) small_vec.
#[local] Existing Instances rag_ops rag_laws.
Definition rag_search_laws : @IndexSearchLaws FlatIndex.t Cosine rag_ops small_vec rag_laws small_vec :=
  @FlatIndex.flat_search_laws Cosine _ _ small_vec small_vec rag_tame.
#[local] Existing Instances rag_search_laws.

Definition server0 : Server.t Hnsw.t FlatIndex.t :=
  match start with Ok s => s | Throw _ => {| vec_engine := graph0; rag := demo_rag |} end.

Lemma server0_start : start = Ok server0.
Proof.
  unfold server0. assert (match start with Ok _ => true | Throw _ => false end = true) as H by (vm_compute; reflexivity).
  by destruct start.
Qed.

Definition requests : list Request :=
  [PostVectors "good_a"; PostVectors "good_b"; PostVectors "short"; PostVectors "garbage"; PostVectors "good_a";
   PostSearch "near"; PostSearch "short"; DeleteVector "b"; DeleteVector "b"; PostDocument "doc"; PostDocument "late";
   PostRagSearch "ask"; PostRagPrompt "ask"; PostRagPrompt "late"; DeleteDocument "none"; GetStats; AnyOptions].

Example request_statuses : (fmap (M:=result) status <$> (run_log handle requests server0).1) =
  Ok <$> [200; 200; 400; 400; 200; 200; 400; 200; 200; 200; 400; 200; 200; 400; 200; 200; 204].
Proof. vm_compute. reflexivity. Qed.

(** A body that the parser refuses with a message that quotes it: one that is not
    UTF-8 gets no answer. *)
Definition bad_byte : string := String (ascii_of_nat 195) "".

Example unanswered : (handle (PostVectors bad_byte) server0).1 = type_error ∧
  (spec_handle (Ix := Hnsw.t) (PostVectors bad_byte) (∅, ∅)).1 = Throw (runtime_error ("parse_error: " +:+ bad_byte)) ∧
  fmap (M:=result) status (handle (PostVectors "{") server0).1 = Ok 400.
Proof. vm_compute. split_and!; reflexivity. Qed.

Example stats : fmap (M:=result) content (get_stats server0) =
  fmap (M:=result) content (dump (JObject [
    ("vector", JObject [("dim", int 4); ("metric", JString "l2"); ("index", JString "l2"); ("size", int 0)]);
    ("rag", JObject [("dim", int 64); ("documents", int 0); ("chunks", int 0)])]) ≫= λ c, Ok {| status := 200; content := c |}).
Proof. vm_compute. reflexivity. Qed.

Example answer_near : fmap (M:=result) content (handle (PostSearch "near") (run_log handle requests server0).2).1 =
  Ok ("{" +:+ quote +:+ "results" +:+ quote +:+ ":[{" +:+ quote +:+ "id" +:+ quote +:+ ":" +:+ quote +:+ "a" +:+ quote +:+
      "," +:+ quote +:+ "score" +:+ quote +:+ ":#4598175219545276416}]}").
Proof. vm_compute. reflexivity. Qed.

Lemma requests_sane : Forall (sane (valid := finite_vec)) requests.
Proof.
  unfold requests. repeat (apply Forall_cons_2; [|]); try exact I; try apply Forall_nil_2; cbn [sane].
  all: match goal with |- context [vectors_request ?b] => let r := eval vm_compute in (vectors_request b) in
         change (vectors_request b) with r
       | |- context [search_request ?b] => let r := eval vm_compute in (search_request b) in
         change (search_request b) with r end; cbv iota beta.
  all: repeat split; try exact I; intros; vm_decide.
Qed.

(** The last of these requests gets an exception. *)
Definition all_requests : list Request := requests ++ [PostVectors bad_byte].

Lemma all_requests_sane : Forall (sane (valid := finite_vec)) all_requests.
Proof. apply Forall_app. split; [apply requests_sane|]. apply Forall_singleton. cbn [sane]. vm_compute. exact I. Qed.

Lemma server_refines_witness :
  let '(rs, s') := run_log handle all_requests server0 in
  let '(sts, w) := run_log (spec_handle (Ix := Hnsw.t)) all_requests (∅, ∅) in
  Forall2 answered sts rs ∧ Forall2 (λ req st, (∃ e, st = Throw e) ↔ unquotable (Ix := Hnsw.t) req) all_requests sts ∧
  engine_inv (vec_engine s') ∧
  contents (vec_engine s') = w.1 ∧ Rag.document_count (rag s') = size w.2 ∧
  (∀ b q k ef f, search_request b = Ok (q, k, ef, f) → fits q → finite_vec q →
     ∃ j c, dump j = Ok c ∧ handle (PostSearch b) s' = (Ok {| status := 200; content := c |}, s') ∧
       search_answer (Met := L2) s' q k f j) ∧
  (∀ b query k, query_request b = Ok (query, k) →
     ∃ j c, dump j = Ok c ∧ handle (PostRagSearch b) s' = (Ok {| status := 200; content := c |}, s') ∧
       retrieve_answer (RMet := Cosine) w query k j).
Proof.
  pose proof (server_refines (valid := finite_vec) (rvalid := small_vec) (RMet := Cosine) all_requests server0) as H.
  apply H; [apply server0_start|apply all_requests_sane|vm_compute; reflexivity|vm_compute; reflexivity].
Defined.

(** ** Several threads *)

Import ServerThreads.

(** The second insertion takes the lock first; the search and the deletion wait
    while others are inside; a request without a section ends in between. *)
Definition interleaved : list (event (T := Request)) :=
  [Arrive (PostVectors "good_a"); Arrive (PostVectors "good_b"); Turn 1; Turn 0; Turn 1; Turn 0; Turn 1; Turn 1; Turn 0;
   Arrive (PostSearch "near"); Turn 2; Turn 0; Turn 2; Turn 0; Turn 2; Arrive (DeleteVector "a"); Turn 3; Turn 2; Turn 3;
   Arrive (PostVectors "garbage"); Turn 4; Turn 2; Arrive AnyOptions; Turn 5; Turn 2; Arrive GetStats; Turn 6; Turn 6;
   Turn 3; Turn 6; Turn 6; Turn 6; Turn 6; Turn 3; Turn 3; Turn 3].

Example interleaved_history : (history (serve server0 interleaved)).*1 = [1; 0; 2; 4; 5; 6; 3].
Proof. vm_compute. reflexivity. Qed.

(** In the middle of the search the deletion is blocked at the lock. *)
Example deletion_waits : move prepare 3 (serve server0 (take 19 interleaved)) = None.
Proof. vm_compute. reflexivity. Qed.

Example ports : atoi "9090" = Ok 9090%Z ∧ atoi " -7x" = Ok (-7)%Z ∧ atoi "port" = Ok 0%Z ∧ atoi "99999999999" = Throw undefined_behaviour.
Proof. vm_compute. done. Qed.

Example port_taken : match main ["9090"] (λ _, None) with
  | Ok e => code e = 1%Z ∧ err_lines e = ["failed to bind port 9090"]
  | Throw _ => False
  end.
Proof. vm_compute. done. Qed.

Lemma server_linearizable_witness :
  let c := serve server0 interleaved in
  (history c).*2 = [PostVectors "good_b"; PostVectors "good_a"; PostSearch "near"; PostVectors "garbage"; AnyOptions;
                    GetStats; DeleteVector "a"] ∧
  linear handle server0 c ∧
  (history c).*1 ≡ₚ seq 0 7 ∧
  let '(sts, w) := run_log (spec_handle (Ix := Hnsw.t)) (history c).*2 (∅, ∅) in
  Forall2 answered sts (serial handle (history c).*2 server0).1 ∧
  Forall2 (λ req st, (∃ e, st = Throw e) ↔ unquotable (Ix := Hnsw.t) req) (history c).*2 sts ∧
  contents (vec_engine (objects c)) = w.1 ∧ Rag.document_count (rag (objects c)) = size w.2.
Proof.
  intros c. assert ((history c).*2 = [PostVectors "good_b"; PostVectors "good_a"; PostSearch "near";
    PostVectors "garbage"; AnyOptions; GetStats; DeleteVector "a"]) as Hh by (vm_compute; reflexivity).
  pose proof (server_linearizable (valid := finite_vec) (rvalid := small_vec) (RMet := Cosine) server0 interleaved) as H.
  cbn zeta in H. fold c in H. destruct H as (Hl & _ & _ & _ & Hall).
  - apply server0_start.
  - rewrite Hh. pose proof requests_sane as Hs. unfold requests in Hs. rewrite !Forall_cons in Hs. rewrite !Forall_cons.
    destruct Hs as (? & ? & ? & ? & ? & ? & ?). by split_and!.
  - rewrite Hh. vm_compute. reflexivity.
  - rewrite Hh. vm_compute. reflexivity.
  - split; [done|]. split; [done|]. destruct Hall as [Hp Hw]; [vm_compute; reflexivity|].
    split; [|done]. replace 7 with (length (threads c)); [done|vm_compute; reflexivity].
Defined.
