(* ===== verification/ConfigDemo.v ===== *)
(** * Configured engines on concrete calls

    The constructor with each index kind: the theorem of [EngineConfig] applied to
    a flat engine and to a graph engine, and runs of all six configurations. *)
From S2P Require Import Prelude StdQueue Binary Rounding Distance Metadata VectorStore StoreSpec Index DistanceBounds FlatIndex.
From S2P Require Import Hnsw HnswSearch HnswGraph HnswIndex HnswDemo RagDemo OpCodec Engine EngineSpec EngineSearch EngineConfig.
Local Open Scope string_scope.
Local Open Scope list_scope.
Local Open Scope nat_scope.
Import EngineConfig.

#[local] Existing Instances demo_random hnsw_near hnsw_far hnsw_near_laws hnsw_far_laws hnsw_sort hnsw_sort_laws hnsw_order.
#[local] Existing Instances demo_draws rag_pqueue rag_pqueue_laws.

Definition demo_config (m : MetricKind) (k : IndexKind) : EngineConfig :=
  {| dim := 2; metric := m; index := k; hnsw := demo_params; persistence := None |}.

Definition config_ops : list Op :=
  [put "a" (point 1 0); put "b" (point 0 2); put "c" (point 3 3); put "short" [float_of (f_of_int 1)]; del "b"; put "a" (point 2 1)].

(** The answers of the calls, and the slots nearest to (3, 3). *)
Definition run_config (m : MetricKind) (k : IndexKind) : option (list (result bool) * result (list InternalId)) :=
  match make (demo_config m k) with
  | Ok e =>
      let '(rs, e') := run_log client config_ops e in
      Some (rs, (fmap (M:=list) id) <$> Engine.search e' (point 3 3) 2 None 0)
  | Throw _ => None
  end.

Definition all_configs : list (MetricKind * IndexKind) :=
  m ← [MetricL2; MetricCosine; MetricDot]; k ← [Flat; Hnsw]; [(m, k)].

Example configs_answer : (λ '(m, k), fst <$> run_config m k) <$> all_configs =
  replicate 6 (Some [Ok true; Ok true; Ok true; Throw dim_error; Ok true; Ok true]).
Proof. vm_compute. reflexivity. Qed.

Example configs_search : (λ '(m, k), snd <$> run_config m k) <$> all_configs = replicate 6 (Some (Ok [2; 0]%N)).
Proof. vm_compute. reflexivity. Qed.

Lemma config_ops_ok : Forall (op_ok small_vec 2) config_ops.
Proof.
  unfold config_ops. repeat constructor; try (intros; vm_decide); try (cbn; intros; done).
  all: intros; vm_compute; done || discriminate.
Qed.

Lemma config_made m k : ∃ e, make (demo_config m k) = Ok e.
Proof. destruct m, k; eexists; reflexivity. Qed.

Lemma engine_every_config_witness :
  (∃ e, make (demo_config MetricDot Hnsw) = Ok e ∧ behaves Dot 2 config_ops e) ∧
  ∃ e, make (demo_config MetricCosine Flat) = Ok e ∧ behaves Cosine 2 config_ops e ∧ exhaustive Cosine 2 config_ops e.
Proof.
  split.
  - destruct (config_made MetricDot Hnsw) as [e He]. exists e. split; [exact He|].
    apply (engine_every_config (demo_config MetricDot Hnsw) e config_ops);
      [reflexivity|reflexivity|split; [apply demo_params_int|apply demo_draws]|exact He|apply config_ops_ok|reflexivity].
  - destruct (config_made MetricCosine Flat) as [e He]. exists e. split; [exact He|].
    destruct (engine_every_config (demo_config MetricCosine Flat) e config_ops) as [H1 H2];
      [reflexivity|reflexivity|discriminate|exact He|apply config_ops_ok|reflexivity|].
    split; [exact H1|]. by apply H2.
Defined.
