(* ===== verification/Suite.v ===== *)
(** * The repository's tests, run in the model ([tests/])

    The deterministic test cases of the test programs as code in the monads of the
    model, each named after its suite and case, and evaluated: the definitions
    behave as the authors' assertions say. Assertions on floats are equalities
    where the test compares with [EXPECT_FLOAT_EQ]. Left out are the cases that
    draw from [std::mt19937] or use real threads. *)
From Stdlib Require Import Floats.SpecFloat Strings.Ascii Strings.Byte.
From stdpp Require Import pretty.
From coqutil Require Import Word.Interface.
From S2P Require Import Prelude StdQueue Binary Rounding Distance Metadata Bitset VectorStore StoreSpec Index FlatIndex.
From S2P Require Import Hnsw HnswDemo Bytes OpCodec LogStore BlobStore Text Embedding.
Local Open Scope string_scope.
Local Open Scope list_scope.
Local Open Scope nat_scope.

Module Suite.

#[export] Instance score_eq_dec : EqDecision Score.
Proof. change (EqDecision spec_float). solve_decision. Defined.

(** ** Assertions *)

(** [EXPECT_TRUE]; the first failure ends the case. *)
Definition expect {S} (b : bool) : M S () :=
  if b then mret tt else throw (runtime_error "expectation failed").

Definition expect_false {S} (b : bool) : M S () := expect (negb b).
Definition expect_eq {S A} `{EqDecision A} (x y : A) : M S () := expect (bool_decide (x = y)).

(** [EXPECT_THROW(..., std::invalid_argument)], and [std::runtime_error]. *)
Definition is_invalid_argument {A} (r : result A) : bool := match r with Throw (invalid_argument _) => true | _ => false end.
Definition is_runtime_error {A} (r : result A) : bool := match r with Throw (runtime_error _) => true | _ => false end.

Definition expect_invalid {S A} (m : M S A) : M S () := λ s,
  let '(r, s') := m s in expect (is_invalid_argument r) s'.

(** Run a case on a fresh object. *)
Definition case {S} (init : result S) (m : M S ()) : bool :=
  match init with Ok s => match (m s).1 with Ok _ => true | Throw _ => false end | Throw _ => false end.

(** A value read from the object. *)
Definition look {S A} (f : S → result A) : M S A := λ s, (f s, s).

Definition fl (z : Z) : word32 := float_of (f_of_int z).

(** The decimal literal [n / 10]. *)
Definition tenth (n : Z) : word32 := float_of (fdiv (f_of_int n) (f_of_int 10)).

(** ** [test_vector_store.cpp] *)

Definition vec3 (a b c : Z) : list word32 := [fl a; fl b; fl c].
Definition store3 : result VectorStore.t := VectorStore.make 3.

Section VectorStoreTests.
Import VectorStore.

Definition VectorStore_InsertGetRoundTrip : bool := case store3 (
  id ← insert "doc-1" (vec3 1 2 3) ∅;
  s ← read_state;
  _ ← expect_eq (size s) 1;
  _ ← expect_eq (dim_ s) 3%N;
  got ← look (λ s, get s id);
  expect_eq got (vec3 1 2 3)).

Definition VectorStore_ResolveMapsExternalToInternal : bool := case store3 (
  id ← insert "doc-1" (vec3 1 1 1) ∅;
  resolved ← look (λ s, resolve s "doc-1");
  _ ← expect_eq resolved (Some id);
  missing ← look (λ s, resolve s "missing");
  expect_eq missing None).

Definition VectorStore_UpdateChangesVectorInPlace : bool := case store3 (
  id ← insert "doc-1" (vec3 1 1 1) ∅;
  b ← update "doc-1" (vec3 9 8 7) None;
  _ ← expect b;
  got ← look (λ s, get s id);
  _ ← expect_eq got (vec3 9 8 7);
  s ← read_state;
  expect_eq (size s) 1).

Definition VectorStore_UpdateMissingReturnsFalse : bool := case store3 (
  b ← update "nope" (vec3 1 2 3) None; expect_false b).

Definition VectorStore_EraseTombstones : bool := case store3 (
  id ← insert "doc-1" (vec3 1 1 1) ∅;
  s ← read_state; _ ← expect (is_live s id);
  b ← erase "doc-1"; _ ← expect b;
  s ← read_state;
  _ ← expect_false (is_live s id);
  _ ← expect_eq (size s) 0;
  r ← look (λ s, resolve s "doc-1");
  _ ← expect_eq r None;
  expect_eq (slot_count s) 1).

Definition VectorStore_EraseMissingReturnsFalse : bool := case store3 (b ← erase "ghost"; expect_false b).

Definition VectorStore_ReinsertRevivesSameSlot : bool := case store3 (
  id1 ← insert "doc-1" (vec3 1 1 1) ∅;
  _ ← erase "doc-1";
  id2 ← insert "doc-1" (vec3 2 2 2) ∅;
  _ ← expect_eq id1 id2;
  s ← read_state;
  _ ← expect_eq (slot_count s) 1;
  _ ← expect_eq (size s) 1;
  _ ← expect (is_live s id2);
  got ← look (λ s, get s id2);
  expect_eq (got !! 0) (Some (fl 2))).

Definition year (y : Z) : MetaValue := MInt (word.of_Z y).

Definition VectorStore_MetadataStoredAndRetrieved : bool := case store3 (
  id ← insert "doc-1" (vec3 1 1 1) (<["lang" := MString "en"]> (<["year" := year 2024]> ∅));
  s ← read_state;
  match metadata s id with
  | None => expect false
  | Some got => _ ← expect_eq (got !! "lang") (Some (MString "en")); expect_eq (got !! "year") (Some (year 2024))
  end).

Definition VectorStore_DimMismatchThrows : bool := case store3 (expect_invalid (insert "doc-1" [fl 1; fl 2] ∅)).

Definition VectorStore_ZeroDimThrows : bool := is_invalid_argument (VectorStore.make 0).

Definition VectorStore_UpdateReplacesMetadataWhenProvided : bool := case store3 (
  id ← insert "doc-1" (vec3 1 1 1) (<["lang" := MString "en"]> ∅);
  b ← update "doc-1" (vec3 2 2 2) (Some (<["lang" := MString "fr"]> (<["year" := year 2024]> ∅)));
  _ ← expect b;
  s ← read_state;
  _ ← (match metadata s id with
       | None => expect false
       | Some m => _ ← expect_eq (m !! "lang") (Some (MString "fr")); expect_eq (m !! "year") (Some (year 2024))
       end);
  got ← look (λ s, get s id);
  expect_eq (got !! 0) (Some (fl 2))).

Definition VectorStore_UpdateWithoutMetadataKeepsExisting : bool := case store3 (
  id ← insert "doc-1" (vec3 1 1 1) (<["lang" := MString "en"]> ∅);
  b ← update "doc-1" (vec3 9 9 9) None;
  _ ← expect b;
  got ← look (λ s, get s id);
  _ ← expect_eq (got !! 0) (Some (fl 9));
  s ← read_state;
  match metadata s id with None => expect false | Some m => expect_eq (m !! "lang") (Some (MString "en")) end).

Definition VectorStore_UpdateCanClearMetadataWithEmptyMap : bool := case store3 (
  id ← insert "doc-1" (vec3 1 1 1) (<["lang" := MString "en"]> ∅);
  b ← update "doc-1" (vec3 2 2 2) (Some ∅);
  _ ← expect b;
  s ← read_state;
  match metadata s id with None => expect false | Some m => expect_eq (base.size m) 0 end).

Definition VectorStore_UpdateDoesNotReviveTombstone : bool := case store3 (
  id ← insert "doc-1" (vec3 1 1 1) ∅;
  b ← erase "doc-1"; _ ← expect b;
  b ← update "doc-1" (vec3 2 2 2) None; _ ← expect_false b;
  s ← read_state;
  _ ← expect_false (is_live s id);
  _ ← expect_eq (size s) 0;
  r ← look (λ s, resolve s "doc-1"); _ ← expect_eq r None;
  id' ← insert "doc-1" (vec3 7 7 7) ∅;
  _ ← expect_eq id' id;
  s ← read_state;
  expect (is_live s id)).

Definition VectorStore_ApplyOpModelMatchesConvenienceApi : bool := case store3 (
  r ← apply {| op_type := Insert; op_ext_id := "doc-1"; op_vec := vec3 5 5 5; op_meta := None |};
  id ← value r;
  s ← read_state; _ ← expect_eq (size s) 1;
  let del := {| op_type := Delete; op_ext_id := "doc-1"; op_vec := []; op_meta := None |} in
  r ← apply del; _ ← expect (bool_decide (is_Some r));
  s ← read_state;
  _ ← expect_false (is_live s id);
  _ ← expect_eq (size s) 0;
  r ← apply del; expect_eq r None).
End VectorStoreTests.

Definition vector_store_tests : list bool :=
  [VectorStore_InsertGetRoundTrip; VectorStore_ResolveMapsExternalToInternal; VectorStore_UpdateChangesVectorInPlace;
   VectorStore_UpdateMissingReturnsFalse; VectorStore_EraseTombstones; VectorStore_EraseMissingReturnsFalse;
   VectorStore_ReinsertRevivesSameSlot; VectorStore_MetadataStoredAndRetrieved; VectorStore_DimMismatchThrows;
   VectorStore_ZeroDimThrows; VectorStore_UpdateReplacesMetadataWhenProvided;
   VectorStore_UpdateWithoutMetadataKeepsExisting; VectorStore_UpdateCanClearMetadataWithEmptyMap;
   VectorStore_UpdateDoesNotReviveTombstone; VectorStore_ApplyOpModelMatchesConvenienceApi].

Example vector_store_tests_pass : Forall (.= true) vector_store_tests.
Proof. vm_compute. repeat constructor. Qed.

(** ** [test_metadata_filter.cpp] *)

Section FilterTests.
Import Filter.

Definition doc (lang : string) (y : Z) (published : bool) : Metadata :=
  <["lang" := MString lang]> (<["year" := year y]> (<["published" := MBool published]> ∅)).

Definition en_doc : Metadata := doc "en" 2024 true.

Definition MetadataFilter_EqualityLeaf : bool :=
  matches (eq "lang" (MString "en")) en_doc && negb (matches (eq "lang" (MString "fr")) en_doc).

Definition MetadataFilter_MissingKeyNeverMatchesLeaf : bool :=
  negb (matches (eq "author" (MString "x")) en_doc) && matches (negate (eq "author" (MString "x"))) en_doc.

(** 2023.5 as a double. *)
Definition y2023_5 : MetaValue := MDouble (double_of (ddiv (double_of_int 4047) (double_of_int 2))).

Definition MetadataFilter_NumericRangeAcrossIntAndDouble : bool :=
  matches (ge "year" (year 2024)) en_doc && matches (ge "year" y2023_5) en_doc &&
  negb (matches (gt "year" (year 2024)) en_doc) && matches (lt "year" (year 2025)) en_doc.

Definition MetadataFilter_BoolEquality : bool :=
  matches (eq "published" (MBool true)) en_doc && negb (matches (eq "published" (MBool false)) en_doc).

Definition MetadataFilter_IncomparableTypesDoNotMatch : bool := negb (matches (eq "lang" (MInt (word.of_Z 1))) en_doc).

Definition MetadataFilter_InMembership : bool :=
  let m := doc "de" 2024 true in
  matches (in_ "lang" [MString "en"; MString "de"; MString "fr"]) m &&
  negb (matches (in_ "lang" [MString "en"; MString "fr"]) m).

Definition MetadataFilter_AndCombines : bool :=
  matches (all_of [eq "lang" (MString "en"); ge "year" (year 2020); eq "published" (MBool true)]) en_doc &&
  negb (matches (all_of [eq "lang" (MString "en"); ge "year" (year 2030)]) en_doc).

Definition MetadataFilter_OrCombines : bool :=
  matches (any_of [eq "lang" (MString "fr"); eq "lang" (MString "en")]) en_doc &&
  negb (matches (any_of [eq "lang" (MString "fr"); eq "lang" (MString "de")]) en_doc).

Definition MetadataFilter_NestedComposition : bool :=
  matches (all_of [in_ "lang" [MString "en"; MString "de"]; negate (eq "published" (MBool true)); ge "year" (year 2020)])
    (doc "en" 2024 false).
End FilterTests.

Definition metadata_tests : list bool :=
  [MetadataFilter_EqualityLeaf; MetadataFilter_MissingKeyNeverMatchesLeaf; MetadataFilter_NumericRangeAcrossIntAndDouble;
   MetadataFilter_BoolEquality; MetadataFilter_IncomparableTypesDoNotMatch; MetadataFilter_InMembership;
   MetadataFilter_AndCombines; MetadataFilter_OrCombines; MetadataFilter_NestedComposition].

Example metadata_tests_pass : Forall (.= true) metadata_tests.
Proof. vm_compute. repeat constructor. Qed.

(** ** [test_distance.cpp] *)

(** [EXPECT_NEAR(x, y, kEps)]: the difference in double precision. *)
Definition kEps : Score := fdiv (f_of_int 1) (f_of_int 100000).
Definition near (x y : Score) : bool :=
  SFleb (SFabs (dsub (Mock.double_of_float x) (Mock.double_of_float y))) (Mock.double_of_float kEps).
Definition near_result (x : result Score) (y : Score) : bool := match x with Ok x => near x y | Throw _ => false end.
Definition near_results (x y : result Score) : bool := match y with Ok y => near_result x y | Throw _ => false end.

Definition Distance_L2SquaredIsCorrect : bool := near_result (L2_distance (vec3 1 2 3) (vec3 4 6 3) 3) (f_of_int 25).
Definition Distance_L2OfIdenticalIsZero : bool :=
  let a := [fl 1; fl (-2); tenth 5; fl 7] in near_result (L2_distance a a 4) f_zero.
Definition Distance_CosineIdenticalDirectionIsZero : bool :=
  near_result (Cosine_distance (vec3 1 2 2) (vec3 2 4 4) 3) f_zero.
Definition Distance_CosineOrthogonalIsOne : bool := near_result (Cosine_distance (point 1 0) (point 0 1) 2) f_one.
Definition Distance_CosineOppositeIsTwo : bool := near_result (Cosine_distance (point 1 0) (point (-1) 0) 2) (f_of_int 2).
Definition Distance_CosineZeroVectorIsMaxDistance : bool := near_result (Cosine_distance (point 0 0) (point 1 1) 2) f_one.
Definition Distance_CosineIsNeverNegative : bool :=
  let a := [tenth 3; tenth 6; tenth 1; tenth 7; tenth 2] in
  match Cosine_distance a a 5 with Ok d => SFleb f_zero d && near d f_zero | Throw _ => false end.
Definition Distance_DotIsNegatedSimilarity : bool := near_result (Dot_distance (vec3 1 2 3) (vec3 1 1 1) 3) (f_of_int (-6)).
Definition Distance_MetricsAreSymmetric : bool :=
  let a := [tenth 1; tenth 7; tenth (-3); tenth 9] in
  let b := [tenth (-5); tenth 2; tenth 8; tenth 4] in
  near_results (L2_distance a b 4) (L2_distance b a 4) && near_results (Cosine_distance a b 4) (Cosine_distance b a 4) &&
  near_results (Dot_distance a b 4) (Dot_distance b a 4).

Definition distance_tests : list bool :=
  [Distance_L2SquaredIsCorrect; Distance_L2OfIdenticalIsZero; Distance_CosineIdenticalDirectionIsZero;
   Distance_CosineOrthogonalIsOne; Distance_CosineOppositeIsTwo; Distance_CosineZeroVectorIsMaxDistance;
   Distance_CosineIsNeverNegative; Distance_DotIsNegatedSimilarity; Distance_MetricsAreSymmetric].

Example distance_tests_pass : Forall (.= true) distance_tests.
Proof. vm_compute. repeat constructor. Qed.

(** ** [test_storage_seam.cpp] *)

Definition fresh_blobs : result BlobStore.t :=
  BlobStore.make true {| BlobStore.files := ∅; BlobStore.puts := []; BlobStore.gets := BlobStore.GetOk |}.

(** The payload has an embedded NUL. *)
Definition payload : list byte :=
  bytes_of_string "snapshot" ++ [x00] ++ bytes_of_string "binary" ++ [x01] ++ bytes_of_string "bytes".

Definition StorageSeam_BlobRoundTrip : bool := case fresh_blobs (
  e ← look (λ s, BlobStore.exists_ s "snap.0"); _ ← expect_false e;
  _ ← BlobStore.put "snap.0" payload;
  e ← look (λ s, BlobStore.exists_ s "snap.0"); _ ← expect e;
  got ← look (λ s, BlobStore.get s "snap.0");
  expect_eq got payload).

Definition StorageSeam_BlobGetMissingThrows : bool := case fresh_blobs (
  s ← read_state; expect (is_runtime_error (BlobStore.get s "nope"))).

(** Append the records to a new file; the file that is left. *)
Definition logged (records : list string) : result (list byte) :=
  let s := LogStore.reopen [] [] [] [] LogStore.Always in
  let '(r, s') := for_each (λ x, LogStore.append (bytes_of_string x)) records s in
  _ ← r; Ok (LogStore.file (LogStore.destroy s')).

(** What another process reads from a file. *)
Definition recovered (f : list byte) : result (list string) :=
  let '(r, xs) := LogStore.replay (λ rec xs, (Ok tt, xs ++ [string_of_bytes rec]))
                    (LogStore.reopen f [] [] [] LogStore.Off) [] in
  _ ← r; Ok xs.

Definition StorageSeam_LogAppendReplayPreservesRecords : bool :=
  bool_decide ((f ← logged ["alpha"; "beta"; "gamma"]; recovered f) = Ok ["alpha"; "beta"; "gamma"]).

Definition StorageSeam_LogReplayStopsAtTornTail : bool :=
  bool_decide ((f ← logged ["one"; "two"]; recovered (f ++ LogStore.header 0 1000)) = Ok ["one"; "two"]).

Definition StorageSeam_LogReplayStopsAtCrcMismatch : bool :=
  bool_decide ((f ← logged ["hello"; "world"]; recovered (<[21 := x58]> f)) = Ok ["hello"]).

Definition storage_tests : list bool :=
  [StorageSeam_BlobRoundTrip; StorageSeam_BlobGetMissingThrows; StorageSeam_LogAppendReplayPreservesRecords;
   StorageSeam_LogReplayStopsAtTornTail; StorageSeam_LogReplayStopsAtCrcMismatch].

Example storage_tests_pass : Forall (.= true) storage_tests.
Proof. vm_compute. repeat constructor. Qed.

(** ** [test_persistence.cpp]: the codec *)

Definition half (n : Z) : word32 := float_of (fdiv (f_of_int n) (f_of_int 2)).
Definition quarter (n : Z) : word32 := float_of (fdiv (f_of_int n) (f_of_int 4)).

Definition sample_op : Op :=
  {| op_type := Insert; op_ext_id := "doc-42"; op_vec := [half 3; fl (-2); quarter 13];
     op_meta := Some (<["lang" := MString "en"]> (<["year" := year 2024]>
       (<["score" := MDouble (double_of (ddiv (double_of_int 3) (double_of_int 4)))]> (<["ok" := MBool true]> ∅)))) |}.

#[local] Existing Instance list_order.

Definition OpCodec_InsertRoundTrip : bool :=
  match decode_op (encode_op sample_op) with
  | Ok got =>
      bool_decide (op_type got = Insert) && bool_decide (op_ext_id got = "doc-42") &&
      bool_decide (op_vec got = op_vec sample_op) && bool_decide (op_meta got = op_meta sample_op)
  | Throw _ => false
  end.

Definition skip_op : Op := {| op_type := Update; op_ext_id := "a"; op_vec := [fl 1; fl 2]; op_meta := None |}.
Definition clear_op : Op := {| op_type := Update; op_ext_id := "a"; op_vec := [fl 1; fl 2]; op_meta := Some ∅ |}.

Definition OpCodec_UpdateMetadataPresenceRoundTrips : bool :=
  bool_decide (op_meta <$> decode_op (encode_op skip_op) = Ok None) &&
  bool_decide (op_meta <$> decode_op (encode_op clear_op) = Ok (Some ∅)).

Definition OpCodec_DeleteRoundTrip : bool :=
  match decode_op (encode_op {| op_type := Delete; op_ext_id := "gone"; op_vec := []; op_meta := None |}) with
  | Ok got => bool_decide (op_type got = Delete) && bool_decide (op_ext_id got = "gone") && bool_decide (op_vec got = [])
  | Throw _ => false
  end.

Definition OpCodec_TruncatedRecordThrows : bool :=
  let bytes := encode_op {| op_type := Insert; op_ext_id := "x"; op_vec := [fl 1; fl 2]; op_meta := None |} in
  is_runtime_error (decode_op (take (length bytes / 2) bytes)).

Definition OpCodec_UnknownOpTypeThrows : bool := is_runtime_error (decode_op [x63]).

Definition codec_tests : list bool :=
  [OpCodec_InsertRoundTrip; OpCodec_UpdateMetadataPresenceRoundTrips; OpCodec_DeleteRoundTrip;
   OpCodec_TruncatedRecordThrows; OpCodec_UnknownOpTypeThrows].

Example codec_tests_pass : Forall (.= true) codec_tests.
Proof. vm_compute. repeat constructor. Qed.

(** ** [test_rag.cpp]: chunks, embeddings and prompts *)

Section TextTests.
Import Text.

(** [for (i < n) text += word + std::to_string(i) + " "] *)
Definition numbered_words (word : string) (n : nat) : string :=
  String.concat "" ((λ i, word +:+ pretty i +:+ " ") <$> seq 0 n).

Definition chunks_of (text : string) (w o : nat) : list Chunk :=
  match chunk_text text {| window := w; overlap := o |} with Ok cs => cs | Throw _ => [] end.

Definition Chunker_ShortDocIsSingleChunk : bool :=
  bool_decide ((λ c, (chunk_text_ c, start_token c, end_token c)) <$> chunks_of "hello world" 64 16 =
    [("hello world", 0, 2)]).

Definition Chunker_EmptyTextYieldsNoChunks : bool :=
  match chunk_text "   " {| window := 8; overlap := 2 |} with Ok [] => true | _ => false end.

Definition Chunker_ConsecutiveChunksOverlap : bool :=
  let chunks := chunks_of (numbered_words "t" 10) 4 2 in
  let spans := (λ c, (start_token c, end_token c)) <$> chunks in
  (2 <=? length chunks) && bool_decide (spans !! 0 = Some (0, 4)) && bool_decide (spans !! 1 = Some (2, 6)) &&
  bool_decide (snd <$> last spans = Some 10).

Definition Chunker_OverlapGteWindowIsClamped : bool :=
  let chunks := chunks_of "a b c d e" 2 5 in
  negb (length chunks =? 0) && bool_decide (end_token <$> last chunks = Some 5).

(** The square root of the sum of the squares, in double precision. *)
Definition norm_of (v : list word32) : spec_float :=
  dsqrt (foldl (λ n x, dadd n (dmul (Mock.double_of_float (float_val x)) (Mock.double_of_float (float_val x)))) (double_of_int 0) v).

Definition eps_1e5 : spec_float := ddiv (double_of_int 1) (double_of_int 100000).

Definition MockEmbedding_DeterministicAndNormalized : bool :=
  match Mock.mock_embed 64 "the quick brown fox" with
  | Ok a => (length a =? 64) && SFleb (SFabs (dsub (norm_of a) d_one)) eps_1e5
  | Throw _ => false
  end.

Definition dot_of (x y : list word32) : spec_float :=
  foldl (λ s '(a, b), dadd s (dmul (Mock.double_of_float (float_val a)) (Mock.double_of_float (float_val b)))) (double_of_int 0) (zip x y).

Definition MockEmbedding_SharedTokensAreCloserThanDisjoint : bool :=
  match (base ← Mock.mock_embed 128 "machine learning vector database";
         similar ← Mock.mock_embed 128 "vector database machine learning systems";
         unrelated ← Mock.mock_embed 128 "banana apple orange fruit";
         Ok (SFltb (dot_of base unrelated) (dot_of base similar))) with
  | Ok b => b
  | Throw _ => false
  end.

(** The bullets of a prompt. *)
Fixpoint count_bullets (s : string) : nat :=
  match s with
  | String "-" (String " " s') => S (count_bullets s')
  | String _ s' => count_bullets s'
  | "" => 0
  end.

Definition PromptBuilderBudget_SmallBudgetIncludesFewerChunks : bool :=
  let chunks := replicate 10 {| doc_id := "d"; rc_text := "alpha beta gamma delta epsilon"; rc_score := float_val (tenth 1) |} in
  count_bullets (build 40 "q" chunks) <? count_bullets (build 512 "q" chunks).
End TextTests.

Definition text_tests : list bool :=
  [Chunker_ShortDocIsSingleChunk; Chunker_EmptyTextYieldsNoChunks; Chunker_ConsecutiveChunksOverlap;
   Chunker_OverlapGteWindowIsClamped; MockEmbedding_DeterministicAndNormalized;
   MockEmbedding_SharedTokensAreCloserThanDisjoint; PromptBuilderBudget_SmallBudgetIncludesFewerChunks].

Example text_tests_pass : Forall (.= true) text_tests.
Proof. vm_compute. repeat constructor. Qed.
End Suite.
