(* ===== verification/EngineSuite.v ===== *)
(** * The tests of engine and retrieval, run in the model ([tests/])

    The deterministic cases of [test_flat_index.cpp], [test_hnsw.cpp],
    [test_edgecases.cpp], [test_parallel.cpp], [test_persistence.cpp] and [test_rag.cpp] on engines that the
    constructor makes. The levels of the graph come from the source of [HnswDemo]. *)
From Stdlib Require Import Floats.SpecFloat Strings.Byte.
From stdpp Require Import pretty.
From coqutil Require Import Word.Interface.
From S2P Require Import Prelude StdQueue Binary Rounding Distance Metadata Bitset VectorStore StoreSpec Index FlatIndex.
From S2P Require Import Hnsw HnswSearch HnswDemo Bytes OpCodec LogStore BlobStore Engine EngineConfig EngineBatch.
From S2P Require Import Text Embedding Rag RagDemo Suite.
Local Open Scope string_scope.
Local Open Scope list_scope.
Local Open Scope nat_scope.
Import EngineConfig Suite.

Module EngineSuite.

#[local] Existing Instances demo_random hnsw_near hnsw_far hnsw_sort hnsw_order rag_pqueue.

(** [EngineConfig{dim, metric, index}] *)
Definition cfg (d : Dim) (m : MetricKind) (k : IndexKind) : EngineConfig :=
  {| dim := d; metric := m; index := k; hnsw := Hnsw.default_hnsw; persistence := None |}.

Abbreviation engine_case c m := (case (EngineConfig.make c) m).

Definition v2 (a b : Z) : list word32 := [fl a; fl b].
Definition v4 (a : Z) : list word32 := [fl a; fl a; fl a; fl a].

Section Cases.
Context {Ix : Type} {IO : IndexOps Ix}.
Import Engine.

(** The calls with the default arguments. *)
Definition put (x : string) (v : list word32) : M (t Ix) () := _ ← insert x v ∅; mret tt.
Definition query (q : list word32) (k : nat) : M (t Ix) (list SearchResult) := look (λ e, search e q k None 0).
Definition query_ef (q : list word32) (k ef : nat) : M (t Ix) (list SearchResult) := look (λ e, search e q k None ef).
Definition query_where (q : list word32) (k : nat) (f : Filter) : M (t Ix) (list SearchResult) :=
  look (λ e, search e q k (Some f) 0).

Definition store : M (t Ix) VectorStore.t := look (λ e, Ok (store_ e)).
Definition id_of (x : string) : M (t Ix) (option InternalId) := look (λ e, VectorStore.resolve (store_ e) x).
Definition has (x : string) : M (t Ix) bool := r ← id_of x; mret (bool_decide (is_Some r)).

(** The hits are these entries, in order. *)
Definition expect_hits (hits : list SearchResult) (xs : list string) : M (t Ix) () :=
  _ ← expect_eq (length hits) (length xs);
  for_each (λ '(x, h), r ← id_of x; expect_eq r (Some (id h))) (zip xs hits).

Definition expect_sizes (n slots : nat) : M (t Ix) () :=
  s ← store; _ ← expect_eq (VectorStore.size s) n; expect_eq (VectorStore.slot_count s) slots.

(** *** Bodies that run on both kinds of index *)

Definition wrong_dim_query : M (t Ix) () := _ ← put "a" (v4 0); expect_invalid (query (v2 1 2) 5).

Definition delete_all : M (t Ix) () :=
  _ ← put "a" (v2 0 0); _ ← put "b" (v2 1 0);
  _ ← erase "a"; _ ← erase "b";
  s ← store; _ ← expect_eq (VectorStore.size s) 0;
  hits ← query_ef (v2 0 0) 5 32; expect_eq (length hits) 0.

Definition k_zero_and_huge : M (t Ix) () :=
  _ ← put "a" (v2 0 0); _ ← put "b" (v2 1 0);
  none ← query_ef (v2 0 0) 0 16; _ ← expect_eq (length none) 0;
  all ← query_ef (v2 0 0) 1000 16; expect_eq (length all) 2.
End Cases.

(** ** [test_flat_index.cpp] *)

Definition flat2 : EngineConfig := cfg 2 MetricL2 Flat.
Definition lang (s : string) : Metadata := <["lang" := MString s]> ∅.

Definition FlatIndex_ReturnsNearestInAscendingOrder : bool := engine_case flat2 (
  _ ← put "a" (v2 0 0); _ ← put "b" (v2 1 0); _ ← put "c" (v2 5 0); _ ← put "d" (v2 10 0);
  hits ← query (v2 0 0) 3;
  _ ← expect_hits hits ["a"; "b"; "c"];
  expect_eq (score <$> hits) [f_zero; f_one; f_of_int 25]).

Definition FlatIndex_KLargerThanCorpusReturnsAll : bool := engine_case flat2 (
  _ ← put "a" (v2 0 0); _ ← put "b" (v2 1 1);
  hits ← query (v2 0 0) 10; expect_eq (length hits) 2).

Definition FlatIndex_KZeroReturnsEmpty : bool := engine_case flat2 (
  _ ← put "a" (v2 0 0); hits ← query (v2 0 0) 0; expect_eq (length hits) 0).

Definition FlatIndex_ErasedVectorsAreNotReturned : bool := engine_case flat2 (
  _ ← put "a" (v2 0 0); _ ← put "b" (v2 1 0);
  _ ← Engine.erase "a";
  hits ← query (v2 0 0) 5; expect_hits hits ["b"]).

Definition FlatIndex_MetadataFilterRestrictsCandidates : bool := engine_case flat2 (
  _ ← Engine.insert "a" (v2 0 0) (lang "en");
  _ ← Engine.insert "b" (v2 1 0) (lang "fr");
  _ ← Engine.insert "c" (v2 2 0) (lang "fr");
  hits ← query_where (v2 0 0) 5 (Filter.eq "lang" (MString "fr")); expect_hits hits ["b"; "c"]).

Definition FlatIndex_NumericRangeFilter : bool := engine_case flat2 (
  _ ← for_each (λ i, _ ← Engine.insert ("doc-" +:+ pretty i) (v2 (Z.of_nat i) 0) (<["year" := year (2020 + Z.of_nat i)]> ∅); mret tt)
        (seq 0 5);
  hits ← query_where (v2 0 0) 10 (Filter.ge "year" (year 2023)); expect_eq (length hits) 2).

Definition FlatIndex_ReinsertSameIdDoesNotDuplicateResults : bool := engine_case flat2 (
  _ ← put "a" (v2 0 0); _ ← put "a" (v2 0 0); _ ← put "a" (v2 0 0); _ ← put "b" (v2 1 0);
  hits ← query (v2 0 0) 10; expect_eq (length hits) 2).

Definition FlatIndex_NameReflectsMetric : bool :=
  bool_decide (ix_name (IndexOps := operations (make_index (cfg 2 MetricCosine Flat))) = "cosine") &&
  bool_decide (ix_name (IndexOps := operations (make_index flat2)) = "l2").

Definition flat_index_tests : list bool :=
  [FlatIndex_ReturnsNearestInAscendingOrder; FlatIndex_KLargerThanCorpusReturnsAll; FlatIndex_KZeroReturnsEmpty;
   FlatIndex_ErasedVectorsAreNotReturned; FlatIndex_MetadataFilterRestrictsCandidates; FlatIndex_NumericRangeFilter;
   FlatIndex_ReinsertSameIdDoesNotDuplicateResults; FlatIndex_NameReflectsMetric].

Example flat_index_tests_pass : Forall (.= true) flat_index_tests.
Proof. vm_compute. repeat constructor. Qed.

(** ** [test_hnsw.cpp] *)

Definition hnsw_of (d : Dim) : EngineConfig := cfg d MetricL2 Hnsw.

Definition Hnsw_EmptyIndexReturnsEmpty : bool := engine_case (hnsw_of 4) (hits ← query (v4 0) 5; expect_eq (length hits) 0).

Definition Hnsw_SingleNode : bool := engine_case (hnsw_of 3) (
  _ ← put "only" (vec3 1 2 3); hits ← query (vec3 1 2 3) 5; expect_hits hits ["only"]).

Definition Hnsw_ErasedVectorsAreNotReturned : bool := engine_case (hnsw_of 2) (
  _ ← put "a" (v2 0 0); _ ← put "b" (v2 1 0); _ ← put "c" (v2 2 0);
  _ ← Engine.erase "a";
  hits ← query_ef (v2 0 0) 5 32;
  expect (forallb (λ h, negb (id h =? 0)%N) hits)).

(** ** [test_edgecases.cpp]: engines *)

Definition Edge_WrongDimQueryThrows : bool :=
  engine_case (cfg 4 MetricL2 Flat) wrong_dim_query && engine_case (cfg 4 MetricL2 Hnsw) wrong_dim_query.

Definition Edge_CompactReclaimsTombstonesAndKeepsData : bool := engine_case flat2 (
  _ ← put "a" (v2 0 0); _ ← put "b" (v2 1 0); _ ← put "c" (v2 2 0);
  _ ← Engine.erase "b";
  _ ← expect_sizes 2 3;
  _ ← Engine.compact;
  _ ← expect_sizes 2 2;
  a ← has "a"; _ ← expect a; c ← has "c"; _ ← expect c; b ← has "b"; _ ← expect_false b;
  hits ← query (v2 0 0) 5; expect_hits hits ["a"; "c"]).

Definition Edge_CompactRebuildsHnswSearchable : bool := engine_case (hnsw_of 4) (
  _ ← put "a" (v4 0); _ ← put "b" (v4 1); _ ← put "c" (v4 5);
  _ ← Engine.erase "b";
  _ ← Engine.compact;
  s ← store; _ ← expect_eq (VectorStore.slot_count s) 2;
  hits ← query_ef (v4 0) 1 16; expect_hits hits ["a"]).

Definition Edge_FilterOnMissingKeyReturnsEmpty : bool := engine_case flat2 (
  _ ← put "a" (v2 0 0); _ ← put "b" (v2 1 0);
  hits ← query_where (v2 0 0) 5 (Filter.eq "nonexistent" (MString "x")); expect_eq (length hits) 0).

Definition Edge_UpdateIsReflectedInSearch : bool := engine_case flat2 (
  _ ← put "a" (v2 0 0); _ ← put "b" (v2 10 0);
  hits ← query (v2 0 0) 1; _ ← expect_hits hits ["a"];
  _ ← Engine.update "a" (v2 20 0) None;
  hits ← query (v2 0 0) 1; expect_hits hits ["b"]).

Definition Edge_DeleteAllThenSearchIsEmpty_Flat : bool := engine_case flat2 delete_all.
Definition Edge_DeleteAllThenSearchIsEmpty_Hnsw : bool := engine_case (hnsw_of 2) delete_all.

Definition Edge_ZeroVectorCosineQueryIsSafeAndBounded : bool := engine_case (cfg 3 MetricCosine Flat) (
  _ ← put "a" (vec3 1 0 0); _ ← put "b" (vec3 0 1 0);
  hits ← query (vec3 0 0 0) 5;
  _ ← expect_eq (length hits) 2;
  expect (forallb (λ h, SFleb f_zero (score h) && SFleb (score h) (f_of_int 2)) hits)).

Definition Edge_KZeroAndKHugeOnBothIndexes : bool := engine_case flat2 k_zero_and_huge && engine_case (hnsw_of 2) k_zero_and_huge.

Definition engine_edge_tests : list bool :=
  [Hnsw_EmptyIndexReturnsEmpty; Hnsw_SingleNode; Hnsw_ErasedVectorsAreNotReturned; Edge_WrongDimQueryThrows;
   Edge_CompactReclaimsTombstonesAndKeepsData; Edge_CompactRebuildsHnswSearchable; Edge_FilterOnMissingKeyReturnsEmpty;
   Edge_UpdateIsReflectedInSearch; Edge_DeleteAllThenSearchIsEmpty_Flat; Edge_DeleteAllThenSearchIsEmpty_Hnsw;
   Edge_ZeroVectorCosineQueryIsSafeAndBounded; Edge_KZeroAndKHugeOnBothIndexes].

Example engine_edge_tests_pass : Forall (.= true) engine_edge_tests.
Proof. vm_compute. repeat constructor. Qed.

(** ** [test_persistence.cpp] *)

(** A directory with these files. *)
Definition directory (log : list byte) (b : BlobStore.t) : Engine.Persistence :=
  {| Engine.dir_created := true; Engine.blobs_created := true; Engine.log_opened := true;
     Engine.log_found := LogStore.reopen log [] [] [] LogStore.Always; Engine.blobs_found := b |}.

Definition empty_dir : Engine.Persistence :=
  directory [] {| BlobStore.files := ∅; BlobStore.puts := []; BlobStore.gets := BlobStore.GetOk |}.

Definition durable_cfg (d : Dim) (k : IndexKind) (p : Engine.Persistence) : EngineConfig :=
  {| dim := d; metric := MetricL2; index := k; hnsw := Hnsw.default_hnsw; persistence := Some p |}.

Section Sessions.
Context {Ix : Type} {IO : IndexOps Ix}.

(** The directory that a destroyed engine leaves. *)
Definition left_by (e : Engine.t Ix) : Engine.Persistence :=
  match Engine.wal_ e, Engine.blobs_ e with
  | Some w, Some b => directory (LogStore.file (LogStore.destroy w)) b
  | _, _ => empty_dir
  end.

(** A scope: the engine is made, used and destroyed. *)
Definition scope (e : result (Engine.t Ix)) (m : M (Engine.t Ix) ()) : result Engine.Persistence :=
  e ← e; let '(r, e') := m e in _ ← r; Ok (left_by e').

Definition file_size : M (Engine.t Ix) nat :=
  look (λ e, match Engine.wal_ e with Some w => Ok (length (LogStore.file w)) | None => Throw bad_optional_access end).
End Sessions.

Definition after (d : Dim) (k : IndexKind) (p : Engine.Persistence) (m : ∀ Ix {IO : IndexOps Ix}, M (Engine.t Ix) ())
    : result Engine.Persistence := scope (EngineConfig.make (durable_cfg d k p)) (m _).

(** Two scopes over one directory. *)
Definition persisted (d : Dim) (k : IndexKind) (m1 m2 : ∀ Ix {IO : IndexOps Ix}, M (Engine.t Ix) ()) : bool :=
  match (p ← after d k empty_dir m1; after d k p m2) with Ok _ => true | Throw _ => false end.

Definition abc : ∀ Ix {IO : IndexOps Ix}, M (Engine.t Ix) () := λ Ix IO,
  _ ← put "a" (vec3 1 0 0); _ ← put "b" (vec3 0 1 0); put "c" (vec3 0 0 1).

Definition Persistence_RecoversInsertsAfterReopen : bool := persisted 3 Flat
  (λ Ix IO, e ← read_state; _ ← expect (Engine.durable e); abc Ix)
  (λ Ix IO, s ← store; _ ← expect_eq (VectorStore.size s) 3;
     a ← has "a"; _ ← expect a; b ← has "b"; _ ← expect b;
     hits ← query (vec3 1 0 0) 1; expect_hits hits ["a"]).

Definition Persistence_RecoversMetadataAndSupportsFilteredSearch : bool := persisted 3 Flat
  (λ Ix IO, _ ← put "a" (vec3 1 0 0); _ ← Engine.insert "b" (vec3 0 1 0) (lang "fr"); mret tt)
  (λ Ix IO, hits ← query_where (vec3 1 0 0) 5 (Filter.eq "lang" (MString "fr")); expect_hits hits ["b"]).

Definition Persistence_DeletesArePersisted : bool := persisted 3 Flat
  (λ Ix IO, _ ← put "a" (vec3 1 0 0); _ ← put "b" (vec3 0 1 0); _ ← Engine.erase "a"; mret tt)
  (λ Ix IO, s ← store; _ ← expect_eq (VectorStore.size s) 1;
     a ← has "a"; _ ← expect_false a; b ← has "b"; expect b).

(** The vector and metadata of an entry. *)
Definition entry {Ix} {IO : IndexOps Ix} (x : string) : M (Engine.t Ix) (list word32 * option Metadata) :=
  o ← id_of x; i ← VectorStore.value o; s ← store; v ← lift (VectorStore.get s i); mret (v, VectorStore.metadata s i).

Definition Persistence_UpdatesArePersisted : bool := persisted 3 Flat
  (λ Ix IO, _ ← put "a" (vec3 1 1 1); _ ← Engine.update "a" (vec3 9 9 9) None; mret tt)
  (λ Ix IO, '(v, _) ← entry "a"; expect_eq (v !! 0) (Some (fl 9))).

Definition Persistence_SnapshotTruncatesWalAndRecovers : bool := persisted 3 Flat
  (λ Ix IO, _ ← for_each (λ i, put ("v" +:+ pretty i) (vec3 (Z.of_nat i) 0 0)) (seq 0 10);
     _ ← Engine.snapshot; n ← file_size; _ ← expect_eq n 0; put "v10" (vec3 10 0 0))
  (λ Ix IO, s ← store; _ ← expect_eq (VectorStore.size s) 11; a ← has "v0"; _ ← expect a; b ← has "v10"; expect b).

Definition Persistence_RecoversDurablePrefixAfterTornTail : bool :=
  match (p ← after 3 Flat empty_dir (λ Ix IO, _ ← put "a" (vec3 1 0 0); put "b" (vec3 0 1 0));
         let torn := LogStore.file (Engine.log_found p) ++ LogStore.header 0 9999 in
         after 3 Flat (directory torn (Engine.blobs_found p)) (λ Ix IO,
           s ← store; _ ← expect_eq (VectorStore.size s) 2; a ← has "a"; _ ← expect a; b ← has "b"; expect b)) with
  | Ok _ => true
  | Throw _ => false
  end.

Definition Persistence_NoOpDeleteOrUpdateIsNotLogged : bool := persisted 3 Flat
  (λ Ix IO, _ ← put "a" (vec3 1 0 0); n ← file_size;
     b ← Engine.erase "ghost"; _ ← expect_false b;
     b ← Engine.update "ghost" (vec3 2 2 2) None; _ ← expect_false b;
     _ ← Engine.flush; n' ← file_size; expect_eq n' n)
  (λ Ix IO, mret tt).

Definition Persistence_UpdatedMetadataIsPersisted : bool := persisted 3 Flat
  (λ Ix IO, _ ← Engine.insert "a" (vec3 1 1 1) (lang "en"); _ ← Engine.update "a" (vec3 2 2 2) (Some (lang "fr")); mret tt)
  (λ Ix IO, '(v, m) ← entry "a"; _ ← expect_eq (v !! 0) (Some (fl 2)); expect_eq m (Some (lang "fr"))).

Definition Persistence_CompactPersistsAndRecovers : bool := persisted 3 Flat
  (λ Ix IO, _ ← abc Ix; _ ← Engine.erase "b"; _ ← Engine.compact;
     s ← store; expect_eq (VectorStore.slot_count s) 2)
  (λ Ix IO, _ ← expect_sizes 2 2; a ← has "a"; _ ← expect a; b ← has "b"; _ ← expect_false b; c ← has "c"; expect c).

Definition Persistence_RecoveryRebuildsSearchableHnswGraph : bool := persisted 4 Hnsw
  (λ Ix IO, _ ← put "a" (v4 0); _ ← put "b" (v4 1); put "c" (v4 5))
  (λ Ix IO, hits ← query_ef (v4 0) 1 32; expect_hits hits ["a"]).

Definition persistence_tests : list bool :=
  [Persistence_RecoversInsertsAfterReopen; Persistence_RecoversMetadataAndSupportsFilteredSearch;
   Persistence_DeletesArePersisted; Persistence_UpdatesArePersisted; Persistence_SnapshotTruncatesWalAndRecovers;
   Persistence_RecoversDurablePrefixAfterTornTail; Persistence_NoOpDeleteOrUpdateIsNotLogged;
   Persistence_UpdatedMetadataIsPersisted; Persistence_CompactPersistsAndRecovers;
   Persistence_RecoveryRebuildsSearchableHnswGraph].

Example persistence_tests_pass : Forall (.= true) persistence_tests.
Proof. vm_compute. repeat constructor. Qed.

(** ** [test_rag.cpp] and [test_edgecases.cpp]: retrieval *)

#[local] Instance cosine_flat : IndexOps FlatIndex.t := operations (make_index (cfg 1 MetricCosine Flat)).

Abbreviation rag_body := (∀ EM : EmbeddingModel, M (Rag.t FlatIndex.t) ()).

(** [MockEmbeddingModel model(dim); RagEngine rag(model, cfg);] *)
Definition rag_case (d : Dim) (c : Rag.RagConfig) (m : rag_body) : bool :=
  case (Rag.make (EM := Mock.mock_model d) c) (m (Mock.mock_model d)).

(** [RagConfig{ChunkConfig{window, overlap}}] *)
Definition chunked (w o : nat) : Rag.RagConfig :=
  {| Rag.chunk := {| Text.window := w; Text.overlap := o |}; Rag.retrieve_k := 5; Rag.token_budget := 512 |}.

Section RagCases.
Context {EM : EmbeddingModel}.
Definition ingest (x text : string) : M (Rag.t FlatIndex.t) nat := Rag.ingest {| Rag.doc_name := x; Rag.doc_text := text |}.
Definition retrieve (q : string) (k : nat) : M (Rag.t FlatIndex.t) (list Text.RetrievedChunk) := look (λ r, Rag.retrieve r q k).
Definition documents : M (Rag.t FlatIndex.t) nat := look (λ r, Ok (Rag.document_count r)).
Definition chunk_total : M (Rag.t FlatIndex.t) nat := look (λ r, Ok (VectorStore.size (Engine.store_ (Rag.engine_ r)))).
End RagCases.

(** [s.find(w) != npos] *)
Definition finds (w s : string) : bool := bool_decide (is_Some (String.index 0 w s)).

Definition RagEngine_IngestReportsChunkCount : bool := rag_case 64 (chunked 4 1) (λ EM,
  n ← ingest "doc1" (numbered_words "word" 12); expect (3 <=? n)).

Definition RagEngine_RetrievesRelevantChunk : bool := rag_case 256 (chunked 6 2) (λ EM,
  _ ← ingest "d1" "the mitochondria is the powerhouse of the cell";
  _ ← ingest "d2" "vector databases use approximate nearest neighbour search";
  _ ← ingest "d3" "the quick brown fox jumps over the lazy dog";
  hits ← retrieve "nearest neighbour search in vector databases" 1;
  match hits with
  | h :: _ => _ ← expect_eq (Text.doc_id h) "d2"; expect (finds "nearest" (Text.rc_text h))
  | [] => expect false
  end).

Definition RagEngine_BuildPromptIncludesQueryAndContext : bool := rag_case 128 (chunked 8 2) (λ EM,
  _ ← ingest "d1" "paris is the capital of france and a major city";
  prompt ← look (λ r, Rag.build_prompt r "what is the capital of france");
  _ ← expect (finds "what is the capital of france" prompt);
  _ ← expect (finds "Context:" prompt);
  expect (finds "capital" prompt)).

Definition Edge_ReingestReplacesStaleChunks : bool := rag_case 64 (chunked 4 1) (λ EM,
  _ ← ingest "d" (numbered_words "alpha" 20);
  n ← chunk_total; _ ← expect (1 <? n);
  _ ← ingest "d" "tiny replacement text";
  n ← documents; _ ← expect_eq n 1;
  n ← chunk_total; _ ← expect_eq n 1;
  hits ← retrieve "alpha5" 5;
  expect (forallb (λ h, negb (finds "alpha" (Text.rc_text h))) hits)).

Definition Edge_DocumentCountTracksDistinctDocs : bool := rag_case 32 Rag.default_config (λ EM,
  _ ← ingest "d1" "first document about vectors";
  _ ← ingest "d2" "second document about graphs";
  _ ← ingest "d1" "first document re-ingested";
  n ← documents; expect_eq n 2).

Definition Edge_IngestEmptyTextIsNoop : bool := rag_case 32 Rag.default_config (λ EM,
  n ← ingest "empty" "   "; _ ← expect_eq n 0;
  n ← documents; _ ← expect_eq n 0;
  n ← chunk_total; expect_eq n 0).

Definition Edge_RemoveDocumentErasesChunks : bool := rag_case 64 (chunked 4 1) (λ EM,
  _ ← ingest "d1" "the quick brown fox jumps over the lazy dog again";
  _ ← ingest "d2" "vector databases use nearest neighbour search";
  before ← chunk_total; _ ← expect (0 <? before);
  n ← documents; _ ← expect_eq n 2;
  b ← Rag.remove "d1"; _ ← expect b;
  n ← documents; _ ← expect_eq n 1;
  n ← chunk_total; _ ← expect (n <? before);
  hits ← retrieve "quick brown fox" 5;
  _ ← expect (forallb (λ h, negb (bool_decide (Text.doc_id h = "d1"))) hits);
  hits ← retrieve "vector databases" 5; expect (0 <? length hits)).

Definition Edge_RemoveMissingDocumentReturnsFalse : bool := rag_case 32 Rag.default_config (λ EM,
  b ← Rag.remove "ghost"; expect_false b).

Definition Edge_ReingestAfterRemoveStartsFresh : bool := rag_case 32 Rag.default_config (λ EM,
  _ ← ingest "d" "alpha beta gamma";
  b ← Rag.remove "d"; _ ← expect b;
  n ← documents; _ ← expect_eq n 0;
  n ← ingest "d" "delta epsilon"; _ ← expect_eq n 1;
  n ← documents; expect_eq n 1).

Definition Edge_RetrieveOnEmptyCorpusIsEmpty : bool := rag_case 32 Rag.default_config (λ EM,
  hits ← retrieve "anything" 5; expect_eq (length hits) 0).

Definition rag_tests : list bool :=
  [RagEngine_IngestReportsChunkCount; RagEngine_RetrievesRelevantChunk; RagEngine_BuildPromptIncludesQueryAndContext;
   Edge_ReingestReplacesStaleChunks; Edge_DocumentCountTracksDistinctDocs; Edge_IngestEmptyTextIsNoop;
   Edge_RemoveDocumentErasesChunks; Edge_RemoveMissingDocumentReturnsFalse; Edge_ReingestAfterRemoveStartsFresh;
   Edge_RetrieveOnEmptyCorpusIsEmpty].

Example rag_tests_pass : Forall (.= true) rag_tests.
Proof. vm_compute. repeat constructor. Qed.
End EngineSuite.
