(* ===== verification/Bench.v ===== *)
(** * The recall benchmark ([bench/recall_harness.cpp])

    The program that measures an index against the exact one: a clustered data
    set, both engines built from it, the truth of every query, the sweep over
    search breadths and the sweep over thread counts. The generator, its
    distributions and the clock are the class [HarnessSources]; what the program
    prints is the record [Report]. *)
From stdpp Require Import pretty.
From S2P Require Import Prelude StdQueue Binary Rounding Distance Metadata Bitset VectorStore StoreSpec Index FlatIndex.
From S2P Require Import Hnsw HnswIndex Bytes OpCodec Engine EngineSpec EngineSearch EngineBatch Recall.
Local Open Scope nat_scope.
Import Engine.

#[local] Existing Instance L2.

(** [std::mt19937]; one draw of [std::uniform_real_distribution<float>(-1, 1)];
    [std::normal_distribution<float>(0, sigma)], whose object keeps a state
    between draws; one draw of [std::uniform_int_distribution<std::size_t>(0, b)];
    the readings of [std::chrono::steady_clock], in nanoseconds. *)
Class HarnessSources := {
  mt : Type;
  seeded : N → mt;
  uniform_real : mt → word32 * mt;
  normal : Type;
  normal_dist : word32 → normal;
  normal_draw : normal → mt → word32 * normal * mt;
  uniform_int : nat → mt → nat * mt;
  ticks : nat → Z;
}.

(** A loop that collects what its rounds return. *)
Fixpoint traverse {S A B} (body : A → M S B) (l : list A) : M S (list B) :=
  match l with
  | [] => mret []
  | x :: l => y ← body x; ys ← traverse body l; mret (y :: ys)
  end.

Module Bench.
Section Harness.
Context {HS : HarnessSources}.

(** The generator, and how often the clock was read. *)
Record world := { gen : mt; readings : nat }.

Definition set_gen (g : mt) (w : world) : world := {| gen := g; readings := readings w |}.

Definition draw {A} (d : mt → A * mt) : M world A := λ w, let '(x, g) := d (gen w) in (Ok x, set_gen g w).

Definition now : M world Z := λ w, (Ok (ticks (readings w)), {| gen := gen w; readings := S (readings w) |}).

(** [duration<double, Period>(t1 - t0).count()], with [unit_] nanoseconds to
    the period: [milli], [micro], and seconds. *)
Definition elapsed (unit_ t0 t1 : Z) : spec_float := ddiv (double_of_int (t1 - t0)) (double_of_int unit_).
Definition milli : Z := 1000000.
Definition micro : Z := 1000.
Definition second : Z := 1000000000.

(** ** The data *)

Definition random_vector (dim : Dim) : M world (list word32) :=
  traverse (λ _, draw uniform_real) (seq 0 (N.to_nat dim)).

(** [v[d] = c[d] + noise(rng)] for every element. *)
Fixpoint add_noise (noise : normal) (c : list word32) : M world (list word32) :=
  match c with
  | [] => mret []
  | x :: c => λ w,
      let '(z, noise, g) := normal_draw noise (gen w) in
      (v ← add_noise noise c; mret (float_of (fadd (float_val x) (float_val z)) :: v)) (set_gen g w)
  end.

Definition clustered_vector (centroids : list (list word32)) (which : nat) (sigma : word32) : M world (list word32) :=
  c ← lift (at_ centroids which);
  add_noise (normal_dist sigma) c.

Definition num_clusters : nat := 100.
(** [0.10F] *)
Definition sigma : word32 := float_of (fdiv f_one (binary_normalize 24 128 10 0 false)).

Definition ext_name (i : nat) : string := "v" +:+ pretty i.

(** [for (i = 0; i < n; ++i) e.insert("v" + std::to_string(i), data[i]);] *)
Definition insert_all {Ix} {IO : IndexOps Ix} {MO : MapOrder} (data : list (list word32)) (n : nat)
    (e : Engine.t Ix) : result (Engine.t Ix) :=
  for_range 0 n (λ i e, v ← at_ data i; let '(r, e') := insert (ext_name i) v ∅ e in _ ← r; Ok e') e.

(** ** The report *)

(** [r_p50] and [r_p95] are in microseconds. *)
Record Row := { r_ef : nat; r_recall : spec_float; r_p50 : spec_float; r_p95 : spec_float; r_qps : spec_float }.
Record SweepRow := { s_threads : nat; s_qps : spec_float; s_speedup : spec_float }.
Record Report := {
  flat_build_ms : spec_float;
  hnsw_build_ms : spec_float;
  flat_p50 : spec_float;
  rows : list Row;
  hw_threads : nat;
  sweep : list SweepRow;
}.

Definition ef_grid : list nat := [10; 20; 40; 80; 160; 320].
Definition thread_grid : list nat := [1; 2; 4; 8].
Definition bench_ef : nat := 80.
Definition min_batch : nat := 4000.

Definition d_95 : spec_float := ddiv (double_of_int 95) (double_of_int 100).

(** [hnsw] is an engine over any index; the program's is [main] below. *)
Context {PQ : PQueue (A:=SearchResult) FlatIndex.worse} {SS : StdSort} {MO : MapOrder}.
Context {Ix : Type} {IO : IndexOps Ix}.

(** ** Searches under the clock *)

(** One timed query: the results and the microseconds. *)
Definition timed_search {Jx} {JO : IndexOps Jx} (e : Engine.t Jx) (queries : list (list word32)) (k ef_arg : nat) (i : nat)
    : M world (list SearchResult * spec_float) :=
  t0 ← now;
  hits ← lift (v ← at_ queries i; search e v k None ef_arg);
  t1 ← now;
  mret (hits, elapsed micro t0 t1).

(** One round of the sweep over [efSearch]. *)
Definition ef_round (hnsw : Engine.t Ix) (queries : list (list word32)) (truth : list (gset InternalId)) (q k ef_ : nat)
    : M world Row :=
  runs ← traverse (timed_search hnsw queries k ef_) (seq 0 q);
  let got := runs.*1 in
  let lat := runs.*2 in
  recall ← lift (recall_at_k truth got k);
  let mean := foldl dadd (S754_zero false) lat in
  let mean := ddiv mean (double_of_nat (if length lat =? 0 then 1 else length lat)) in
  let qps := if flt (S754_zero false) mean then ddiv (double_of_int 1000000) mean else S754_zero false in
  p50 ← lift (percentile lat d_half);
  p95 ← lift (percentile lat d_95);
  mret {| r_ef := ef_; r_recall := recall; r_p50 := p50; r_p95 := p95; r_qps := qps |}.

(** ** Up to the truth *)

Record Setup := {
  p_data : list (list word32);
  p_flat : Engine.t FlatIndex.t;
  p_hnsw : Engine.t Ix;
  p_queries : list (list word32);
  p_truth : list (gset InternalId);
  p_flat_ms : spec_float;
  p_hnsw_ms : spec_float;
  p_flat_p50 : spec_float;
}.

Definition setup (n : nat) (dim : Dim) (q k : nat) : M world Setup :=
  centroids ← traverse (λ _, random_vector dim) (seq 0 num_clusters);
  data ← traverse (λ i, clustered_vector centroids (i mod num_clusters) sigma) (seq 0 n);
  flat ← lift (open_engine (Ix := FlatIndex.t) dim None);
  hnsw ← lift (open_engine (Ix := Ix) dim None);
  flat_start ← now;
  flat ← lift (insert_all data n flat);
  flat_end ← now;
  hnsw_start ← now;
  hnsw ← lift (insert_all data n hnsw);
  hnsw_end ← now;
  queries ← traverse (λ _, which ← draw (uniform_int (num_clusters - 1)); clustered_vector centroids which sigma) (seq 0 q);
  runs ← traverse (timed_search flat queries k 0) (seq 0 q);
  flat_p50 ← lift (percentile runs.*2 d_half);
  mret {| p_data := data; p_flat := flat; p_hnsw := hnsw; p_queries := queries;
          p_truth := (λ hits, list_to_set (id <$> hits) : gset InternalId) <$> runs.*1;
          p_flat_ms := elapsed milli flat_start flat_end; p_hnsw_ms := elapsed milli hnsw_start hnsw_end;
          p_flat_p50 := flat_p50 |}.

(** [batch.push_back(queries[i % q])]; a remainder by zero is undefined. *)
Definition batch_query_at (queries : list (list word32)) (q i : nat) : result (list word32) :=
  if q =? 0 then Throw undefined_behaviour else at_ queries (i mod q).

Definition make_batch (queries : list (list word32)) (q : nat) : result (list (list word32)) :=
  for_range 0 (Nat.max q min_batch) (λ i batch, v ← batch_query_at queries q i; Ok (batch ++ [v])) [].

(** The sweep over search breadths, and the batch. *)
Definition ef_sweep (p : Setup) (q k : nat) : M world (list Row * list (list word32)) :=
  rows ← traverse (ef_round (p_hnsw p) (p_queries p) (p_truth p) q k) ef_grid;
  batch ← lift (make_batch (p_queries p) q);
  mret (rows, batch).

(** ** The concurrency sweep *)

(** The rounds of the sweep, with the outcomes of [search_batch]. *)
Fixpoint sweep_rounds (outs : list (nat * result (list (list SearchResult)))) (single_thread_qps : spec_float)
    : M world (list SweepRow) :=
  match outs with
  | [] => mret []
  | (t, out) :: outs =>
      t0 ← now;
      out ← lift out;
      t1 ← now;
      let secs := elapsed second t0 t1 in
      let qps := if flt (S754_zero false) secs then ddiv (double_of_nat (length out)) secs else S754_zero false in
      let single_thread_qps := if t =? 1 then qps else single_thread_qps in
      let speedup := if flt (S754_zero false) single_thread_qps then ddiv qps single_thread_qps else d_one in
      rest ← sweep_rounds outs single_thread_qps;
      mret ({| s_threads := t; s_qps := qps; s_speedup := speedup |} :: rest)
  end.

(** [hw] is [std::thread::hardware_concurrency()]. *)
Definition finish (p : Setup) (rows : list Row) (hw : nat) (outs : list (result (list (list SearchResult)))) : M world Report :=
  sw ← sweep_rounds (zip thread_grid outs) (S754_zero false);
  mret {| flat_build_ms := p_flat_ms p; hnsw_build_ms := p_hnsw_ms p; flat_p50 := p_flat_p50 p; rows := rows;
          hw_threads := Nat.max 1 hw; sweep := sw |}.

(** [r] is an outcome of the program with these arguments. *)
Definition harness_run (n : nat) (dim : Dim) (q k hw : nat) (r : result Report) : Prop :=
  match (p ← setup n dim q k; s ← ef_sweep p q k; mret (p, s)) {| gen := seeded 42; readings := 0 |} with
  | (Throw x, _) => r = Throw x
  | (Ok (p, (rows, batch)), w) => ∃ outs,
      Forall2 (λ t out, EngineBatch.search_batch (p_hnsw p) batch k None bench_ef t hw out) thread_grid outs ∧
      r = (finish p rows hw outs w).1
  end.
End Harness.
Arguments Setup Ix : clear implicits.

(** [main]: the graph index with its default parameters; [args] are the values
    that [strtoul] reads from the command line. *)
Section Main.
Context {HS : HarnessSources} {PQ : PQueue (A:=SearchResult) FlatIndex.worse} {SS : StdSort} {MO : MapOrder}.
Context {RS : Hnsw.RandomSource} {PN : PQueue Hnsw.near_on_top} {PF : PQueue Hnsw.far_on_top}.

Definition arg (args : list nat) (i default : nat) : nat :=
  match args !! i with Some x => x | None => default end.

Definition main (args : list nat) (hw : nat) (r : result Report) : Prop :=
  harness_run (Ix := Hnsw.t) (IO := Hnsw.hnsw_ops Hnsw.default_hnsw)
    (arg args 0 20000) (to_u32 (arg args 1 128)) (arg args 2 200) (arg args 3 10) hw r.
End Main.
End Bench.
