(* ===== verification/BenchSpec.v ===== *)
(** * The benchmark measures what it says

    The harness runs to its report for every valid choice of its arguments,
    without an access out of range; both engines hold the same vectors under
    the same ids, the truth of a query is the exact answer, every recall is a
    share, and the oracle measured against itself has recall one. *)
From stdpp Require Import pretty.
From S2P Require Import Prelude StdQueue Binary Rounding Distance Metadata Bitset VectorStore StoreSpec Index FlatIndex.
From S2P Require Import Bytes OpCodec Engine EngineSpec EngineSearch EngineBatch Recall Bench.
Local Open Scope nat_scope.
Import Engine Bench.

#[local] Existing Instance L2.

(** The draws are bounded (the noise by far more than any generator gives), the
    cluster is one of those asked for, and the clock fits its 64 bits. *)
Class HarnessLaws (HS : HarnessSources) : Prop := {
  uniform_real_bound g : fle (float_val (uniform_real g).1) 1 0;
  normal_bound d g : fle (float_val (normal_draw d g).1.1) (2 ^ 20) 0;
  uniform_int_bound b g : (uniform_int b g).1 ≤ b;
  ticks_range i : (0 <= ticks i < 2 ^ 63)%Z;
}.

(** ** Loops *)

(** The state before round [i] satisfies [I i], and round [i] relates its element
    to its result. *)
Lemma traverse_inv {S A B} (I : nat → S → Prop) (R : nat → A → B → Prop) (body : A → M S B) l s :
  I 0 s →
  (∀ i x s, l !! i = Some x → I i s → ∃ y s', body x s = (Ok y, s') ∧ R i x y ∧ I (Datatypes.S i) s') →
  ∃ ys s', traverse body l s = (Ok ys, s') ∧ length ys = length l ∧
    (∀ i x y, l !! i = Some x → ys !! i = Some y → R i x y) ∧ I (length l) s'.
Proof.
  revert I R s. induction l as [|x l IH]; intros I R s HI Hbody; [by exists [], s|].
  destruct (Hbody 0 x s) as (y & s1 & H1 & Hy & HI1); [done..|].
  destruct (IH (λ i, I (Datatypes.S i)) (λ i, R (Datatypes.S i)) s1 HI1) as (ys & s2 & H2 & Hl & Hys & HI2).
  { intros i. by apply (Hbody (Datatypes.S i)). }
  exists (y :: ys), s2. split_and!; [|cbn; by rewrite Hl| |done].
  - cbn [traverse]. unfold mbind, M_bind. by rewrite H1, H2.
  - intros [|i] x' y' Hx' Hy'; cbn in Hx', Hy'; [by simplify_eq|by apply (Hys i)].
Qed.

(** The same for a property of the results alone and one that every round keeps. *)
Lemma traverse_all {S A B} (I : S → Prop) (P : B → Prop) (body : A → M S B) l s :
  I s → (∀ x s, x ∈ l → I s → ∃ y s', body x s = (Ok y, s') ∧ P y ∧ I s') →
  ∃ ys s', traverse body l s = (Ok ys, s') ∧ length ys = length l ∧ Forall P ys ∧ I s'.
Proof.
  intros HI Hbody. destruct (traverse_inv (λ _, I) (λ _ _, P) body l s HI) as (ys & s' & H & Hl & Hys & HI').
  { intros i x s1 Hx. apply Hbody. by eapply list_elem_of_lookup_2. }
  exists ys, s'. split_and!; [done..| |done]. apply Forall_lookup. intros i y Hy.
  destruct (lookup_lt_is_Some_2 l i) as [x Hx]; [rewrite <- Hl; by eapply lookup_lt_Some|]. by eapply Hys.
Qed.

(** Stepping over parts that succeed. *)
Lemma bind_step {S A B} (m : M S A) (k : A → M S B) s a s' :
  m s = (Ok a, s') → (x ← m; k x) s = k a s'.
Proof. intros H. unfold mbind, M_bind. by rewrite H. Qed.

Lemma lift_step {S A B} (r : result A) (k : A → M S B) s a :
  r = Ok a → (x ← lift r; k x) s = k a s.
Proof. by intros ->. Qed.

Section Data.
Context {HS : HarnessSources} {HL : HarnessLaws HS}.
Implicit Types (w : world).

(** A vector of the data set: its elements are finite. *)
Definition good_vec (dim : Dim) (v : list word32) : Prop := length v = N.to_nat dim ∧ finite_vec v.

(** The elements of a centroid. *)
Definition unit_vec (dim : Dim) (v : list word32) : Prop :=
  length v = N.to_nat dim ∧ Forall (λ x, fle (float_val x) 1 0) v.

Lemma random_vector_ok dim w :
  ∃ v w', random_vector dim w = (Ok v, w') ∧ unit_vec dim v ∧ readings w' = readings w.
Proof.
  destruct (traverse_all (λ w', readings w' = readings w) (λ x, fle (float_val x) 1 0) (λ _, draw uniform_real)
    (seq 0 (N.to_nat dim)) w) as (v & w' & Hv & Hl & Hall & Hr); [done| |].
  - intros x s _ Hs. unfold draw. destruct (uniform_real (gen s)) as [y g] eqn:E. eexists _, _. split_and!; [done| |done].
    pose proof (uniform_real_bound (gen s)) as H. by rewrite E in H.
  - exists v, w'. split; [done|]. split; [|done]. split; [by rewrite Hl, length_seq|done].
Qed.

Lemma add_noise_ok d c w :
  Forall (λ x, fle (float_val x) 1 0) c →
  ∃ v w', add_noise d c w = (Ok v, w') ∧ length v = length c ∧ finite_vec v ∧ readings w' = readings w.
Proof.
  intros Hc. revert d w. induction Hc as [|x c Hx Hc IH]; intros d w.
  { exists [], w. by split_and!; [..|constructor|]. }
  cbn [add_noise]. destruct (normal_draw d (gen w)) as [[z d'] g] eqn:E.
  pose proof (normal_bound d (gen w)) as Hz. rewrite E in Hz. cbn [fst] in Hz.
  destruct (IH d' (set_gen g w)) as (v & w' & Hv & Hl & Hfin & Hrd). rewrite (bind_step _ _ _ _ _ Hv).
  eexists _, _. split; [done|]. split; [cbn; congruence|]. split; [|done]. constructor; [|done].
  assert (fle (fadd (float_val x) (float_val z)) (1 + 2 ^ 20) 0) as Hs.
  { apply SFadd_upper; try done; try lia. }
  apply fle_finite in Hs. rewrite float_val_of; [done| |done].
  apply SFadd_valid; [done|apply float_val_valid..].
Qed.

Lemma clustered_vector_ok dim centroids which sg w :
  Forall (unit_vec dim) centroids → which < length centroids →
  ∃ v w', clustered_vector centroids which sg w = (Ok v, w') ∧ good_vec dim v ∧ readings w' = readings w.
Proof.
  intros Hc Hw. destruct (at_lt centroids which Hw) as (c & Ha & Hi). destruct (Forall_lookup_1 _ _ _ _ Hc Hi) as [Hl Hu].
  destruct (add_noise_ok (normal_dist sg) c w Hu) as (v & w' & Hv & Hlen & Hfin & Hrd).
  exists v, w'. unfold clustered_vector. rewrite (lift_step _ _ _ _ Ha). split; [done|]. split; [|done]. split; [congruence|done].
Qed.

(** The time between the reading [r] of the clock and the next one, in units of
    [unit_] nanoseconds; the latencies of [q] searches, each between two readings
    of its own, that start with the reading [r], in microseconds. *)
Definition interval (unit_ : Z) (r : nat) : spec_float :=
  ddiv (double_of_int (ticks (S r) - ticks r)) (double_of_int unit_).

Definition latencies (r q : nat) : list spec_float := (λ i, interval 1000 (r + 2 * i)) <$> seq 0 q.

Lemma length_latencies r q : length (latencies r q) = q.
Proof. unfold latencies. by rewrite length_fmap, length_seq. Qed.

(** Durations are numbers. *)
Lemma double_of_int_finite z : (Z.abs z < 2 ^ 64)%Z → finite (double_of_int z).
Proof.
  intros Hz. apply (fle_finite _ 1 64). apply binary_normalize_upper; [done|done|by vm_compute|done|].
  apply le2_below; [done|]. change (2 ^ (64 - 0))%Z with (2 ^ 64)%Z. lia.
Qed.

Lemma latencies_numbers r q : Forall not_nan (latencies r q).
Proof.
  apply Forall_fmap, Forall_forall. intros i _. pose proof (ticks_range (r + 2 * i)). pose proof (ticks_range (S (r + 2 * i))).
  apply SFdiv_not_nan; [apply double_of_int_finite; lia|apply binary_normalize_not_nan|by vm_compute].
Qed.
End Data.

(** ** Building an engine *)

Lemma ext_name_inj i j : ext_name i = ext_name j → i = j.
Proof. unfold ext_name. intros H. by apply (inj (String.append "v")), pretty_nat_inj in H. Qed.

Section Build.
Context {Ix : Type} {IO : IndexOps Ix} {IL : IndexLaws Ix finite_vec} {MO : MapOrder}.
Implicit Types (e : Engine.t Ix).

(** Inserting an id that was never used, in an engine without a log. *)
Lemma insert_fresh e x v m :
  engine_inv e → wal_ e = None → has_room (store_ e) → good_vec (cfg_dim e) v →
  VectorStore.ext_to_int_ (store_ e) !! x = None →
  ∃ e', insert x v m e = (Ok (N.of_nat (VectorStore.slot_count (store_ e))), e') ∧ engine_inv e' ∧
    cfg_dim e' = cfg_dim e ∧ wal_ e' = None ∧
    inserted (store_ e) (store_ e') x (N.of_nat (VectorStore.slot_count (store_ e))) v m.
Proof.
  intros Hinv Hw Hroom [Hl Hfin] Hx. pose proof Hinv as [Hwf Hdim Hv Hix].
  assert (vec_sized v) as Hsz. { pose proof (VectorStore.wf_dim_u32 _ Hwf). unfold vec_sized. rewrite Hdim in *. lia. }
  destruct (do_insert_new (store_ e) x v m Hwf Hsz Hroom Hx) as (s & Hins & Hi); [congruence|].
  assert (VectorStore.resolve (store_ e) x = Ok None) as Hres by (unfold VectorStore.resolve; by rewrite Hx).
  pose proof (vecs_ok_inserted _ _ _ _ _ _ _ Hfin Hv Hi) as Hv'.
  destruct (index_add_ok e s _ x v m Hinv Hi) as (ix & Hadd & Hix'); [by eapply inserted_was_dead|done|].
  set (op := {| op_type := Insert; op_ext_id := x; op_vec := v; op_meta := Some m |}).
  assert (VectorStore.apply op (store_ e) = (Ok (Some (N.of_nat (VectorStore.slot_count (store_ e)))), s)) as Happ.
  { unfold VectorStore.apply, mbind, M_bind; cbn. by rewrite Hins. }
  assert (on_wal (LogStore.LogStore.append (encode_op op)) e = (Ok tt, e)) as Hlog.
  { unfold on_wal, zoom, on_ptr. rewrite Hw. destruct e; cbn in *. by rewrite Hw. }
  exists (set_index ix (set_store s e)). split.
  - unfold insert. fold op. rewrite (apply_op_logged op e e Hlog). unfold apply_op.
    unfold mbind at 1, M_bind at 1, mret at 1, M_ret at 1. cbn [op_type op_ext_id op].
    unfold mbind at 1, M_bind at 1, read_state at 1. unfold mbind at 1, M_bind at 1, lift at 1. rewrite Hres.
    rewrite bool_decide_true by done. unfold mbind at 1, M_bind at 1. rewrite (on_store_eq _ _ _ _ Happ).
    unfold mbind at 1, M_bind at 1, VectorStore.value, mret at 1, M_ret at 1.
    unfold mbind at 1, M_bind at 1. by rewrite Hadd.
  - split_and!; [|done|done|done].
    split; [apply Hi| |done|done]. cbn. by rewrite (grows_dim _ _ (ins_grows _ _ _ _ _ _ Hi)).
Qed.

(** After [i] insertions: slot [j] holds the [j]-th vector under the [j]-th name. *)
Record built (dim : Dim) (data : list (list word32)) (i : nat) e : Prop := {
  bt_inv : engine_inv e;
  bt_dim : cfg_dim e = dim;
  bt_wal : wal_ e = None;
  bt_slots : VectorStore.slot_count (store_ e) = i;
  bt_size : size (contents e) = i;
  bt_ids j : j < i → VectorStore.ext_to_int_ (store_ e) !! ext_name j = Some (N.of_nat j);
  bt_names x : is_Some (VectorStore.ext_to_int_ (store_ e) !! x) → ∃ j, j < i ∧ x = ext_name j;
  bt_entry j v : j < i → data !! j = Some v → contents e !! ext_name j = Some (v, ∅);
}.

Lemma built_empty dim data e : (dim < 2 ^ 32)%N → open_engine dim None = Ok e → built dim data 0 e.
Proof.
  intros Hdim Ho. destruct (open_memory dim e Hdim Ho) as (Hinv & Hc & Hd & Hw & _ & Hs). split; try done; try lia.
  - by rewrite Hc.
  - intros x [i Hi]. apply (VectorStore.wf_slot _ x i (inv_store e Hinv)) in Hi. lia.
Qed.

Lemma built_insert dim data i e v :
  (N.of_nat i < 2 ^ 32)%N → data !! i = Some v → good_vec dim v → built dim data i e →
  ∃ r e', insert (ext_name i) v ∅ e = (Ok r, e') ∧ built dim data (S i) e'.
Proof.
  intros Hi Hv Hg [Hinv Hd Hw Hs Hsz Hids Hnames Hent].
  destruct (VectorStore.ext_to_int_ (store_ e) !! ext_name i) as [j|] eqn:Hx.
  { destruct (Hnames (ext_name i)) as (j' & Hj & E); [by eexists|]. apply ext_name_inj in E. lia. }
  destruct (insert_fresh e (ext_name i) v ∅ Hinv Hw) as (e' & Hins & Hinv' & Hd' & Hw' & Hi');
    [unfold has_room; by rewrite Hs|by rewrite Hd|done|].
  eexists _, e'. split; [exact Hins|]. rewrite Hs in Hi'.
  assert (contents e !! ext_name i = None) as Hc by (unfold contents; by rewrite VectorStore.abs_lookup, Hx).
  assert (contents e' = <[ext_name i := (v, ∅)]> (contents e)) as Hc' by exact (ins_abs _ _ _ _ _ _ Hi').
  split; try done.
  - congruence.
  - destruct (ins_new _ _ _ _ _ _ Hi' Hx) as [_ H]. unfold VectorStore.slot_count in *. lia.
  - rewrite Hc', map_size_insert_None by done. lia.
  - intros j Hj. destruct (decide (j = i)) as [->|]; [apply (ins_id _ _ _ _ _ _ Hi')|].
    apply (grows_ids _ _ (ins_grows _ _ _ _ _ _ Hi')). apply Hids. lia.
  - intros x [->|[j [Hj ->]]%Hnames]%(ins_ids _ _ _ _ _ _ Hi'); [exists i|exists j]; split; by lia || done.
  - intros j v' Hj Hv'. rewrite Hc'. destruct (decide (j = i)) as [->|].
    + rewrite lookup_insert_eq. congruence.
    + rewrite lookup_insert_ne by (by intros E%ext_name_inj). apply Hent; [lia|done].
Qed.

Lemma insert_all_ok dim data e :
  (N.of_nat (length data) < 2 ^ 32)%N → Forall (good_vec dim) data → built dim data 0 e →
  ∃ e', insert_all data (length data) e = Ok e' ∧ built dim data (length data) e'.
Proof.
  intros Hn Hall Hb. apply (for_range_inv (built dim data)); [|done]. intros i e1 Hi Hb1.
  destruct (at_lt data i) as (v & Ha & Hv); [lia|]. rewrite Ha. cbn [mbind result_bind].
  destruct (built_insert dim data i e1 v) as (r & e2 & H2 & Hb2); [lia|done|by apply (Forall_lookup_1 _ _ _ _ Hall Hv)|done|].
  exists e2. by rewrite H2.
Qed.

(** What the slots show. *)
Lemma built_slot dim data e j v :
  built dim data (length data) e → data !! j = Some v →
  VectorStore.external_id (store_ e) (N.of_nat j) = Ok (ext_name j) ∧ VectorStore.get (store_ e) (N.of_nat j) = Ok v.
Proof.
  intros Hb Hv. pose proof (lookup_lt_Some _ _ _ Hv) as Hj. pose proof (inv_store _ (bt_inv _ _ _ _ Hb)) as Hwf.
  pose proof (bt_ids _ _ _ _ Hb j Hj) as Hx. pose proof (bt_entry _ _ _ _ Hb j v Hj Hv) as Hc.
  destruct (read_slot (store_ e) _ _ Hwf Hx) as (v' & m' & Hg & _ & _ & He & _ & Habs).
  unfold contents in Hc. rewrite Hc in Habs. destruct (VectorStore.is_live _ _); [|done]. injection Habs as -> _. done.
Qed.

Lemma built_vecs dim data e : built dim data (length data) e → vecs_ok finite_vec (store_ e).
Proof. intros Hb. apply Hb. Qed.
End Build.

(** ** Searches under the clock *)

Lemma half_share : has_sign false d_half ∧ fle d_half 1 0.
Proof. split; [done|]. unfold fle, d_half, le2. vm_compute. discriminate. Qed.

Lemma share_95 : has_sign false d_95 ∧ fle d_95 1 0.
Proof. assert (d_95 = S754_finite false 8556839292003942 (-53)) as -> by (vm_compute; reflexivity). split; [done|]. by vm_compute. Qed.

Section Searches.
Context {HS : HarnessSources} {HL : HarnessLaws HS} {SS : StdSort} {SL : StdSortLaws}.

Lemma timed_search_ok {Jx} {JO : IndexOps Jx} (e : Engine.t Jx) queries k ef_ i qv hits w :
  queries !! i = Some qv → search e qv k None ef_ = Ok hits →
  ∃ w', timed_search e queries k ef_ i w = (Ok (hits, interval 1000 (readings w)), w') ∧ readings w' = 2 + readings w.
Proof.
  intros Hq Hs. unfold timed_search.
  assert ((v ← at_ queries i; search e v k None ef_) = Ok hits) as H by (unfold at_; by rewrite Hq).
  eexists. erewrite bind_step by (unfold now; reflexivity). erewrite lift_step by exact H.
  erewrite bind_step by (unfold now; reflexivity). by split.
Qed.

(** Timed searches return the answers, and the latencies that the clock shows. *)
Lemma timed_searches_ok {Jx} {JO : IndexOps Jx} (P : list word32 → list SearchResult → Prop) (e : Engine.t Jx)
    queries k ef_ q w :
  length queries = q → (∀ qv, qv ∈ queries → ∃ hits, search e qv k None ef_ = Ok hits ∧ P qv hits) →
  ∃ runs w', traverse (timed_search e queries k ef_) (seq 0 q) w = (Ok runs, w') ∧
    Forall2 (λ qv hits, search e qv k None ef_ = Ok hits ∧ P qv hits) queries runs.*1 ∧
    runs.*2 = latencies (readings w) q ∧ readings w' = readings w + 2 * q.
Proof.
  intros Hl Hall.
  destruct (traverse_inv (λ i s, readings s = readings w + 2 * i) (λ _ i (r : list SearchResult * spec_float),
    (∃ qv, queries !! i = Some qv ∧ search e qv k None ef_ = Ok r.1 ∧ P qv r.1) ∧ r.2 = interval 1000 (readings w + 2 * i))
    (timed_search e queries k ef_) (seq 0 q) w) as (runs & w' & Hr & Hlen & H2 & Hw); [lia| |].
  - intros i x s [-> Hi]%lookup_seq Hs. destruct (lookup_lt_is_Some_2 queries i) as [qv Hq]; [lia|].
    destruct (Hall qv) as (hits & Hsr & HP); [by eapply list_elem_of_lookup_2|].
    destruct (timed_search_ok e queries k ef_ i qv hits s Hq Hsr) as (s' & Ht & Hs').
    eexists _, s'. split_and!; [done|by exists qv|by cbn; rewrite Hs|lia].
  - rewrite length_seq in Hlen, Hw. exists runs, w'.
    assert (∀ i r, runs !! i = Some r →
      (∃ qv, queries !! i = Some qv ∧ search e qv k None ef_ = Ok r.1 ∧ P qv r.1) ∧
      r.2 = interval 1000 (readings w + 2 * i)) as Hruns.
    { intros i r Hi. apply (H2 i i r); [|done]. apply lookup_seq_lt. rewrite <- Hlen. by eapply lookup_lt_Some. }
    split_and!; [done| | |done].
    + apply Forall2_same_length_lookup. split; [by rewrite length_fmap, Hlen|].
      intros i qv hits Hq (r & -> & Hri)%list_lookup_fmap_Some.
      destruct (Hruns i r Hri) as [(qv' & Hq' & Hx) _]. by simplify_eq.
    + apply list_eq_same_length with q; [by rewrite length_latencies|by rewrite length_fmap|].
      intros i x y _ (r & -> & Hri)%list_lookup_fmap_Some (j & -> & [-> _]%lookup_seq)%list_lookup_fmap_Some.
      by apply (Hruns i r).
Qed.

Lemma percentile_total lat p :
  Forall not_nan lat → (Z.of_nat (length lat) < 2 ^ 53)%Z → has_sign false p ∧ fle p 1 0 → ∃ x, percentile lat p = Ok x.
Proof.
  intros Hn Hl [Hs Hp]. destruct (decide (lat = [])) as [->|Hne]; [by eexists|].
  destruct (percentile_ok lat p) as (i & x & _ & _ & _ & H); [done..|]. by exists x.
Qed.

Lemma share_percentile lat p :
  lat ≠ [] → Forall not_nan lat → (Z.of_nat (length lat) < 2 ^ 53)%Z → has_sign false p ∧ fle p 1 0 →
  ∃ x i, percentile lat p = Ok x ∧ order_statistic lat p x i.
Proof. intros Hne Hn Hl [Hs Hp]. destruct (percentile_rank lat p) as (i & x & H); [done..|]. by exists x, i. Qed.
End Searches.

(** ** The whole program *)

Section Run.
Context {HS : HarnessSources} {HL : HarnessLaws HS} {SS : StdSort} {SL : StdSortLaws}.
Context {PQ : PQueue (A:=SearchResult) FlatIndex.worse} {PL : PQueueLaws FlatIndex.worse scored}.
Context {Ix : Type} {IO : IndexOps Ix} {IL : IndexLaws Ix finite_vec} {ISL : IndexSearchLaws Ix finite_vec finite_vec}.
Context {MO : MapOrder}.

(** Queries per second from the mean of the latencies in microseconds. *)
Definition mean_qps (lat : list spec_float) : spec_float :=
  let mean := ddiv (foldl dadd (S754_zero false) lat) (double_of_nat (length lat)) in
  if flt (S754_zero false) mean then ddiv (double_of_int 1000000) mean else S754_zero false.

(** A row of the sweep over search breadths, whose searches start with the
    reading [r] of the clock: the recall is computed from the answers to the
    queries, is a share, and is one when they contain the whole truth; the
    latencies shown are order statistics of those that the clock measured, and
    the rate is the reciprocal of their mean. *)
Record measured (hnsw : Engine.t Ix) queries truth k (r : nat) (row : Row) : Prop := {
  ms_answers : ∃ got,
    Forall2 (λ qv h, search hnsw qv k None (r_ef row) = Ok h ∧ answers_query hnsw qv k None h) queries got ∧
    recall_at_k truth got k = Ok (r_recall row) ∧
    (truth ≠ [] → (∀ i t g, truth !! i = Some t → got !! i = Some g → count_hits t g = k) → r_recall row = d_one);
  ms_sign : has_sign false (r_recall row);
  ms_share : ¬ flt d_one (r_recall row);
  ms_latency : ∃ i j, order_statistic (latencies r (length queries)) d_half (r_p50 row) i ∧
    order_statistic (latencies r (length queries)) d_95 (r_p95 row) j;
  ms_qps : r_qps row = mean_qps (latencies r (length queries));
}.

Lemma ef_round_ok hnsw queries truth q k ef_ w :
  length queries = q → length truth = q → 0 < q → 0 < k → (Z.of_nat k < 2 ^ 53)%Z → (Z.of_nat q < 2 ^ 53)%Z →
  (∀ qv, qv ∈ queries → ∃ hits, search hnsw qv k None ef_ = Ok hits ∧ answers_query hnsw qv k None hits) →
  ∃ row w', ef_round hnsw queries truth q k ef_ w = (Ok row, w') ∧ r_ef row = ef_ ∧
    measured hnsw queries truth k (readings w) row ∧ readings w' = readings w + 2 * q.
Proof.
  intros Hl Ht Hq Hk Hkb Hqb Hall. unfold ef_round.
  destruct (timed_searches_ok (λ qv, answers_query hnsw qv k None) hnsw queries k ef_ q w Hl Hall)
    as (runs & w' & Hrun & Hgot & Hlat & Hw'). rewrite (bind_step _ _ _ _ _ Hrun).
  destruct (recall_at_k_ok truth runs.*1 k) as (x & Hx & Hs & Hr & _ & Hone); [done|done|by rewrite Ht| | |].
  { by rewrite Ht, <- Hl, (Forall2_length _ _ _ Hgot). }
  { apply Forall_forall. intros g [i Hi]%list_elem_of_lookup.
    destruct (Forall2_lookup_r _ _ _ _ _ Hgot Hi) as (qv & _ & _ & Ha). apply Ha. }
  rewrite (lift_step _ _ _ _ Hx). cbv zeta. rewrite Hlat.
  pose proof (latencies_numbers (readings w) q) as Hn. pose proof (length_latencies (readings w) q) as Hll.
  assert (latencies (readings w) q ≠ []) as Hne by (intros E; rewrite E in Hll; cbn in Hll; lia).
  destruct (share_percentile _ d_half Hne Hn) as (p50 & i & H50 & Hi); [by rewrite Hll|apply half_share|].
  destruct (share_percentile _ d_95 Hne Hn) as (p95 & j & H95 & Hj); [by rewrite Hll|apply share_95|].
  rewrite (lift_step _ _ _ _ H50), (lift_step _ _ _ _ H95).
  eexists _, w'. split; [done|]. split; [done|]. split; [|done]. split; [|done|done|..]; cbn [r_p50 r_p95 r_qps]; rewrite ?Hl.
  - exists runs.*1. split_and!; done.
  - by exists i, j.
  - unfold mean_qps. by rewrite Hll, (proj2 (Nat.eqb_neq q 0)) by lia.
Qed.

Lemma make_batch_ok queries q :
  0 < q → length queries = q →
  ∃ batch, make_batch queries q = Ok batch ∧ length batch = Nat.max q min_batch ∧ Forall (λ v, v ∈ queries) batch.
Proof.
  intros Hq Hl. apply (for_range_inv (λ i batch, length batch = i ∧ Forall (λ v, v ∈ queries) batch)); [|by split; [|constructor]].
  intros i batch _ [Hb Hall]. unfold batch_query_at. destruct (Nat.eqb_spec q 0); [lia|].
  destruct (at_lt queries (i mod q)) as (v & Ha & Hv); [rewrite Hl; by apply Nat.mod_upper_bound|].
  rewrite Ha. cbn [mbind result_bind]. eexists. split; [done|]. rewrite length_app. cbn. split; [lia|].
  apply Forall_app. split; [done|]. apply Forall_singleton. by eapply list_elem_of_lookup_2.
Qed.

(** What the sweeps work on. *)
Record set_up (n : nat) (dim : Dim) (q k : nat) (p : Setup Ix) : Prop := {
  pr_data : length (p_data p) = n ∧ Forall (good_vec dim) (p_data p);
  pr_flat : built (IL := FlatIndex.flat_laws finite_vec) dim (p_data p) n (p_flat p);
  pr_hnsw : built dim (p_data p) n (p_hnsw p);
  pr_flat_build : ∃ e, open_engine dim None = Ok e ∧ insert_all (p_data p) n e = Ok (p_flat p);
  pr_hnsw_build : ∃ e, open_engine dim None = Ok e ∧ insert_all (p_data p) n e = Ok (p_hnsw p);
  pr_queries : length (p_queries p) = q ∧ Forall (good_vec dim) (p_queries p);
  pr_flat_ms : p_flat_ms p = interval 1000000 0;
  pr_hnsw_ms : p_hnsw_ms p = interval 1000000 2;
  pr_flat_p50 : 0 < q → ∃ i, order_statistic (latencies 4 q) d_half (p_flat_p50 p) i;
  pr_truth : Forall2 (λ qv t, ∃ hits, search (p_flat p) qv k None 0 = Ok hits ∧
    answers_exactly (p_flat p) qv k None hits ∧ t = list_to_set (id <$> hits)) (p_queries p) (p_truth p);
}.

(** Every query of the right length is answered by the index under test. *)
Lemma built_search dim data n e qv k ef_ :
  built dim data n e → good_vec dim qv →
  ∃ hits, search e qv k None ef_ = Ok hits ∧ answers_query e qv k None hits.
Proof.
  intros Hb [Hl Hf]. apply (search_answers (buildable := finite_vec) finite_vec e qv k None ef_ ISL);
    [apply Hb|apply (bt_inv _ _ _ _ Hb)|done|].
  by rewrite (bt_dim _ _ _ _ Hb).
Qed.

(** The draws: centroids, data and queries. *)
Lemma cluster_draws dim centroids q w :
  Forall (unit_vec dim) centroids → length centroids = num_clusters →
  ∃ queries w', traverse (λ _ : nat, which ← draw (uniform_int (num_clusters - 1)); clustered_vector centroids which sigma)
      (seq 0 q) w = (Ok queries, w') ∧ length queries = q ∧ Forall (good_vec dim) queries ∧ readings w' = readings w.
Proof.
  intros Hc Hl. destruct (traverse_all (λ w', readings w' = readings w) (good_vec dim)
    (λ _ : nat, which ← draw (uniform_int (num_clusters - 1)); clustered_vector centroids which sigma) (seq 0 q) w)
    as (queries & w' & H & Hql & Hq & Hr); [done| |].
  - intros i s _ Hs. destruct (uniform_int (num_clusters - 1) (gen s)) as [which g] eqn:E.
    pose proof (uniform_int_bound (num_clusters - 1) (gen s)) as Hb. rewrite E in Hb. cbn [fst] in Hb.
    rewrite (bind_step _ _ s which (set_gen g s)) by (unfold draw; by rewrite E).
    destruct (clustered_vector_ok dim centroids which sigma (set_gen g s)) as (v & w' & H & Hg & Hr); [done| |].
    { rewrite Hl. unfold num_clusters in *. lia. }
    exists v, w'. split_and!; [done..|]. by rewrite Hr.
  - exists queries, w'. rewrite length_seq in Hql. done.
Qed.

(** The exact answers, and the truth made of them. *)
Lemma flat_runs dim data n flat queries q k w :
  built (IL := FlatIndex.flat_laws finite_vec) dim data n flat → length queries = q → Forall (good_vec dim) queries →
  ∃ runs w', traverse (timed_search flat queries k 0) (seq 0 q) w = (Ok runs, w') ∧
    runs.*2 = latencies (readings w) q ∧ readings w' = readings w + 2 * q ∧
    Forall2 (λ qv t, ∃ hits, search flat qv k None 0 = Ok hits ∧ answers_exactly flat qv k None hits ∧
      t = list_to_set (id <$> hits)) queries ((λ hits, list_to_set (id <$> hits) : gset InternalId) <$> runs.*1).
Proof.
  intros Hb Hl Hq.
  destruct (timed_searches_ok (λ qv, answers_exactly flat qv k None) flat queries k 0 q w Hl)
    as (runs & w' & Hrun & Hgot & Hlat & Hw').
  - intros qv [Hlen Hf]%(proj1 (Forall_forall _ _) Hq).
    apply (flat_answers (buildable := finite_vec) finite_vec flat qv k None 0);
      [exact L2_tame|apply Hb|apply (bt_inv _ _ _ _ Hb)|done|by rewrite (bt_dim _ _ _ _ Hb)].
  - exists runs, w'. split_and!; [done..|]. apply Forall2_fmap_r. eapply Forall2_impl; [exact Hgot|].
    intros qv hits [Hs Ha]. by exists hits.
Qed.

Lemma setup_ok n dim q k w :
  (0 < dim < 2 ^ 32)%N → (N.of_nat n < 2 ^ 32)%N → (Z.of_nat q < 2 ^ 53)%Z →
  readings w = 0 →
  ∃ p w', setup (Ix := Ix) n dim q k w = (Ok p, w') ∧ set_up n dim q k p ∧ readings w' = 4 + 2 * q.
Proof.
  intros Hdim Hn Hqb Hw0. unfold setup.
  destruct (traverse_all (λ s, readings s = 0) (unit_vec dim) (λ _, random_vector dim) (seq 0 num_clusters) w)
    as (centroids & w1 & H1 & Hcl & Hc & Hw1); [done| |].
  { intros x s _ <-. apply random_vector_ok. }
  rewrite (bind_step _ _ _ _ _ H1). rewrite length_seq in Hcl.
  destruct (traverse_all (λ s, readings s = 0) (good_vec dim) (λ i, clustered_vector centroids (i mod num_clusters) sigma)
    (seq 0 n) w1) as (data & w2 & H2 & Hdl & Hd & Hw2); [done| |].
  { intros i s _ <-. apply clustered_vector_ok; [done|]. rewrite Hcl. by apply Nat.mod_upper_bound. }
  rewrite (bind_step _ _ _ _ _ H2). rewrite length_seq in Hdl.
  assert (∃ s, VectorStore.make dim = Ok s) as [s0 Hmk].
  { unfold VectorStore.make. destruct (N.eqb_spec dim 0); [lia|by eexists]. }
  assert (∃ e, open_engine (Ix := FlatIndex.t) dim None = Ok e) as [flat0 Hf0] by (unfold open_engine; rewrite Hmk; by eexists).
  assert (∃ e, open_engine (Ix := Ix) dim None = Ok e) as [hnsw0 Hh0] by (unfold open_engine; rewrite Hmk; by eexists).
  rewrite (lift_step _ _ _ _ Hf0), (lift_step _ _ _ _ Hh0).
  erewrite bind_step by (unfold now; reflexivity).
  destruct (insert_all_ok (IL := FlatIndex.flat_laws finite_vec) dim data flat0) as (flat & Hfl & Hbf);
    [by rewrite Hdl|done|apply built_empty; [lia|done]|].
  rewrite Hdl in Hfl, Hbf. rewrite (lift_step _ _ _ _ Hfl).
  erewrite bind_step by (unfold now; reflexivity). erewrite bind_step by (unfold now; reflexivity).
  destruct (insert_all_ok dim data hnsw0) as (hnsw & Hhn & Hbh); [by rewrite Hdl|done|apply built_empty; [lia|done]|].
  rewrite Hdl in Hhn, Hbh. rewrite (lift_step _ _ _ _ Hhn).
  erewrite bind_step by (unfold now; reflexivity).
  cbn [readings]. rewrite Hw2. match goal with |- context [mbind _ _ ?s] => set (w3 := s) end.
  destruct (cluster_draws dim centroids q w3 Hc Hcl) as (queries & w4 & H4 & Hql & Hqg & Hw4).
  rewrite (bind_step _ _ _ _ _ H4). assert (readings w4 = 4) as Hr4 by (rewrite Hw4; done).
  destruct (flat_runs dim data n flat queries q k w4 Hbf Hql Hqg) as (runs & w5 & H5 & Hlat & Hw5 & Htruth).
  rewrite (bind_step _ _ _ _ _ H5), Hlat, Hr4. pose proof (latencies_numbers 4 q) as Hnn. pose proof (length_latencies 4 q) as Hll.
  destruct (percentile_total (latencies 4 q) d_half) as (p50 & H50); [done|by rewrite Hll|apply half_share|].
  rewrite (lift_step _ _ _ _ H50). eexists _, w5. split; [done|]. split; [|lia].
  split; cbn; try done; [by exists flat0|by exists hnsw0|]. intros Hq.
  destruct (share_percentile (latencies 4 q) d_half) as (x & i & Hx & Hi); [|done|by rewrite Hll|apply half_share|].
  - intros E. rewrite E in Hll. cbn in Hll. lia.
  - exists i. congruence.
Qed.

(** The first reading of row [j] of the sweep over search breadths. *)
Definition row_start (q j : nat) : nat := 4 + 2 * q * S j.

Lemma ef_sweep_ok n dim q k p w :
  set_up n dim q k p → readings w = row_start q 0 → 0 < q → (Z.of_nat q < 2 ^ 53)%Z → 0 < k → (Z.of_nat k < 2 ^ 53)%Z →
  ∃ rows batch w', ef_sweep p q k w = (Ok (rows, batch), w') ∧ r_ef <$> rows = ef_grid ∧
    (∀ j row, rows !! j = Some row → measured (p_hnsw p) (p_queries p) (p_truth p) k (row_start q j) row) ∧
    length batch = Nat.max q min_batch ∧ Forall (λ v, v ∈ p_queries p) batch ∧ readings w' = row_start q 6.
Proof.
  intros [_ _ Hbh _ _ [Hql Hqg] _ _ _ Htruth] Hw Hq Hqb Hk Hkb. unfold ef_sweep.
  assert (length (p_truth p) = q) as Htl by (rewrite <- Hql; symmetry; by eapply Forall2_length).
  destruct (traverse_inv (λ j s, readings s = row_start q j)
    (λ j ef_ row, r_ef row = ef_ ∧ measured (p_hnsw p) (p_queries p) (p_truth p) k (row_start q j) row)
    (ef_round (p_hnsw p) (p_queries p) (p_truth p) q k) ef_grid w) as (rows & w6 & H6 & Hl6 & Hrows & Hw6); [done| |].
  { intros j ef_ s _ Hs. destruct (ef_round_ok (p_hnsw p) (p_queries p) (p_truth p) q k ef_ s)
      as (row & s' & H & He & Hm & Hr); [done..| |].
    - intros qv Hqv. eapply built_search; [exact Hbh|]. by apply (proj1 (Forall_forall _ _) Hqg).
    - exists row, s'. rewrite Hs in Hm, Hr. split_and!; [done..|]. unfold row_start in *. lia. }
  rewrite (bind_step _ _ _ _ _ H6). destruct (make_batch_ok (p_queries p) q Hq Hql) as (batch & Hbat & Hbl & Hbq).
  rewrite (lift_step _ _ _ _ Hbat). exists rows, batch, w6.
  assert (∀ j row, rows !! j = Some row → ∃ ef_, ef_grid !! j = Some ef_) as Hgrid.
  { intros j row Hj. apply lookup_lt_is_Some_2. rewrite <- Hl6. by eapply lookup_lt_Some. }
  split_and!; [done| | |done..].
  - apply list_eq_same_length with 6; [done|by rewrite length_fmap|].
    intros j x y _ (row & -> & Hj)%list_lookup_fmap_Some Hy. by apply (Hrows j y row).
  - intros j row Hj. destruct (Hgrid j row Hj) as [ef_ He]. by apply (Hrows j ef_ row).
Qed.

(** Without queries the batch is a remainder by zero. *)
Lemma ef_sweep_no_queries p k w :
  p_queries p = [] → p_truth p = [] → ∃ w', ef_sweep p 0 k w = (Throw undefined_behaviour, w').
Proof.
  intros Hq Ht. unfold ef_sweep. rewrite Hq, Ht.
  destruct (traverse_all (λ _, True) (λ _ : Row, True) (ef_round (p_hnsw p) [] [] 0 k) ef_grid w) as (rows & w6 & H6 & _); [done| |].
  { intros ef_ s _ _. eexists _, _. split; [|done]. unfold ef_round. erewrite bind_step by reflexivity. reflexivity. }
  rewrite (bind_step _ _ _ _ _ H6). exists w6. done.
Qed.

(** Queries per second of a batch of [m] queries between the reading [r] of the
    clock and the next one; the rows of the sweep over thread counts when it
    starts with the reading [r]. *)
Definition batch_qps (m r : nat) : spec_float :=
  let secs := interval 1000000000 r in
  if flt (S754_zero false) secs then ddiv (double_of_nat m) secs else S754_zero false.

Definition swept (m r : nat) : list SweepRow :=
  imap (λ j t, {| s_threads := t; s_qps := batch_qps m (r + 2 * j);
    s_speedup := if flt (S754_zero false) (batch_qps m r) then ddiv (batch_qps m (r + 2 * j)) (batch_qps m r) else d_one |})
    thread_grid.

Lemma sweep_rounds_ok (out : list (list SearchResult)) w :
  ∃ w', sweep_rounds (zip thread_grid (replicate (length thread_grid) (Ok out))) (S754_zero false) w =
    (Ok (swept (length out) (readings w)), w').
Proof.
  destruct w as [g r]. exists {| gen := g; readings := 8 + r |}. unfold swept. cbn [readings imap compose thread_grid].
  replace (r + 2 * 0) with r by lia. replace (r + 2 * 1) with (2 + r) by lia.
  replace (r + 2 * 2) with (4 + r) by lia. replace (r + 2 * 3) with (6 + r) by lia. reflexivity.
Qed.

Lemma Forall2_replicate_iff {A B} (R : A → B → Prop) (l : list A) (k : list B) y :
  (∀ x z, x ∈ l → R x z ↔ z = y) → Forall2 R l k ↔ k = replicate (length l) y.
Proof.
  revert k. induction l as [|x l IH]; intros [|z k] HR; cbn; [done|by split; inversion 1..|].
  rewrite Forall2_cons, (HR x z), (IH k) by set_solver. naive_solver.
Qed.

Lemma batch_answers n dim q k p batch :
  set_up n dim q k p → Forall (λ v, v ∈ p_queries p) batch →
  ∃ answers, Forall2 (λ qv r, search (p_hnsw p) qv k None bench_ef = Ok r) batch answers.
Proof.
  intros [_ _ Hb _ _ [_ Hq] _] Hin. induction Hin as [|qv batch Hqv _ [answers IH]]; [by exists []|].
  destruct (built_search dim (p_data p) n (p_hnsw p) qv k bench_ef Hb) as (hits & Hs & _);
    [by apply (proj1 (Forall_forall _ _) Hq)|].
  exists (hits :: answers). by constructor.
Qed.

(** From there the program has one outcome, whatever its threads do. *)
Lemma harness_outcome n dim q k hw p w rows batch w' :
  setup (Ix := Ix) n dim q k {| gen := seeded 42; readings := 0 |} = (Ok p, w) → set_up n dim q k p →
  ef_sweep p q k w = (Ok (rows, batch), w') → Forall (λ v, v ∈ p_queries p) batch →
  ∀ r, harness_run (Ix := Ix) n dim q k hw r ↔
    r = Ok {| flat_build_ms := interval 1000000 0; hnsw_build_ms := interval 1000000 2; flat_p50 := p_flat_p50 p;
              Bench.rows := rows; hw_threads := Nat.max 1 hw; sweep := swept (length batch) (readings w') |}.
Proof.
  intros Hp Hpr Hs Hin. destruct (batch_answers n dim q k p batch Hpr Hin) as [answers Hans].
  rewrite (Forall2_length _ _ _ Hans). destruct (sweep_rounds_ok answers w') as (w2 & Hsw).
  set (rep := {| Bench.rows := rows |}). intros r. unfold harness_run.
  rewrite (bind_step _ _ _ _ _ Hp), (bind_step _ _ _ _ _ Hs). cbn [mret M_ret].
  assert (∀ outs, Forall2 (λ t out, EngineBatch.search_batch (p_hnsw p) batch k None bench_ef t hw out) thread_grid outs ↔
    outs = replicate (length thread_grid) (Ok answers)) as Houts.
  { intros outs. apply Forall2_replicate_iff. intros t out _. by apply EngineBatch.search_batch_outcome. }
  assert ((finish p rows hw (replicate (length thread_grid) (Ok answers)) w').1 = Ok rep) as Hfin.
  { unfold finish. rewrite (bind_step _ _ _ _ _ Hsw), (pr_flat_ms _ _ _ _ _ Hpr), (pr_hnsw_ms _ _ _ _ _ Hpr). done. }
  split; [by intros (outs & ->%Houts & ->)|]. intros ->. exists (replicate (length thread_grid) (Ok answers)).
  split; [by apply Houts|by rewrite Hfin].
Qed.

(** C36: the benchmark measures what it says. For any index that keeps its
    contract, any draws and clock, and at least one result per query, the
    program runs to its report, one and the same for every interleaving of the
    threads of its batches, without an access out of range. Both engines hold
    the same vectors in the same slots under the same names, the truth of each
    query is the exact answer, and every recall of the sweep is computed from
    answers to all queries and lies between zero and one. The times are those of
    the clock, whose readings come in order: the two builds take the intervals
    after the readings 0 and 2, in milliseconds; search [i] of a round takes the
    interval after the reading [r + 2 * i], in microseconds, where the exact
    round starts at [r = 4] and row [j] of the sweep at [4 + 2 * q * (j + 1)];
    each p50 and p95 shown is the order statistic of these [q] latencies at a
    half and at 0.95, the rate of a row the reciprocal of their mean; the rows of
    the second sweep divide the size of the batch by the seconds of the
    intervals behind those, and by the rate of the first row. Without queries
    the program divides by zero when it fills its batch. *)
Theorem harness_measures (n : nat) (dim : Dim) (q k hw : nat) :
  (0 < dim < 2 ^ 32)%N → (N.of_nat n < 2 ^ 32)%N → (Z.of_nat q < 2 ^ 53)%Z → 0 < k → (Z.of_nat k < 2 ^ 53)%Z →
  ∃ p w, setup (Ix := Ix) n dim q k {| gen := seeded 42; readings := 0 |} = (Ok p, w) ∧ set_up n dim q k p ∧
    (∀ j v, p_data p !! j = Some v →
      (VectorStore.external_id (store_ (p_flat p)) (N.of_nat j) = Ok (ext_name j) ∧
       VectorStore.get (store_ (p_flat p)) (N.of_nat j) = Ok v) ∧
      VectorStore.external_id (store_ (p_hnsw p)) (N.of_nat j) = Ok (ext_name j) ∧
      VectorStore.get (store_ (p_hnsw p)) (N.of_nat j) = Ok v) ∧
    if decide (q = 0) then ∀ r, harness_run (Ix := Ix) n dim q k hw r ↔ r = Throw undefined_behaviour
    else ∃ rep, (∀ r, harness_run (Ix := Ix) n dim q k hw r ↔ r = Ok rep) ∧
      flat_build_ms rep = interval 1000000 0 ∧ hnsw_build_ms rep = interval 1000000 2 ∧
      (∃ i, order_statistic (latencies 4 q) d_half (flat_p50 rep) i) ∧
      r_ef <$> rows rep = ef_grid ∧
      (∀ j row, rows rep !! j = Some row →
         measured (p_hnsw p) (p_queries p) (p_truth p) k (4 + 2 * q * S j) row) ∧
      hw_threads rep = Nat.max 1 hw ∧ sweep rep = swept (Nat.max q min_batch) (4 + 2 * q * 7).
Proof.
  intros Hdim Hn Hqb Hk Hkb.
  destruct (setup_ok n dim q k {| gen := seeded 42; readings := 0 |}) as (p & w & Hp & Hpr & Hw); [done..|].
  exists p, w. split_and!; [done..| |].
  - intros j v Hv. destruct Hpr as [[Hl _] Hbf Hbh _ _ _ _ _ _ _]. rewrite <- Hl in Hbf, Hbh.
    split; [by eapply (built_slot (IL := FlatIndex.flat_laws finite_vec))|by eapply built_slot].
  - case_decide as Hq.
    + subst q. pose proof Hpr as [_ _ _ _ _ [Hql _] _ _ _ Htr]. apply nil_length_inv in Hql. rewrite Hql in Htr.
      apply Forall2_nil_inv_l in Htr. destruct (ef_sweep_no_queries p k w Hql Htr) as [w' Hs].
      intros r. unfold harness_run. rewrite (bind_step _ _ _ _ _ Hp). unfold mbind, M_bind. by rewrite Hs.
    + destruct (ef_sweep_ok n dim q k p w Hpr) as (rows & batch & w' & Hs & Hef & Hm & Hl & Hin & Hw');
        [unfold row_start; lia|lia|done..|].
      eexists. split; [exact (harness_outcome n dim q k hw p w rows batch w' Hp Hpr Hs Hin)|].
      cbn. rewrite Hl, Hw'. split_and!; try done. apply (pr_flat_p50 _ _ _ _ _ Hpr). lia.
Qed.
End Run.

(** The oracle against itself: with the exact index under test and enough data,
    every recall is exactly one. *)
Section Oracle.
Context {HS : HarnessSources} {HL : HarnessLaws HS} {SS : StdSort} {SL : StdSortLaws}.
Context {PQ : PQueue (A:=SearchResult) FlatIndex.worse} {PL : PQueueLaws FlatIndex.worse scored} {MO : MapOrder}.

(** The exact index ignores the breadth. *)
Lemma scan_params s qv k p p' ids heap :
  allowed p = allowed p' → FlatIndex.scan s qv k p ids heap = FlatIndex.scan s qv k p' ids heap.
Proof.
  intros Hp. revert heap. induction ids as [|i ids IH]; intros heap; [done|]. cbn [FlatIndex.scan].
  assert (FlatIndex.scan_step s qv k p i heap = FlatIndex.scan_step s qv k p' i heap) as ->
    by (unfold FlatIndex.scan_step; by rewrite Hp).
  destruct (FlatIndex.scan_step s qv k p' i heap); cbn [mbind result_bind]; auto.
Qed.

Lemma flat_search_ef (e : Engine.t FlatIndex.t) qv k ef_ ef' : search e qv k None ef_ = search e qv k None ef'.
Proof.
  unfold search. destruct (negb _); [done|]. destruct (k =? 0) eqn:E; [done|]. cbn [ix_search FlatIndex.flat_ops].
  unfold FlatIndex.search. rewrite E. erewrite scan_params; done.
Qed.

Lemma all_hits g : count_hits (list_to_set (id <$> g)) g = length g.
Proof. rewrite count_hits_filter, filter_full, length_fmap; [done|]. intros x Hx. by apply elem_of_list_to_set. Qed.

Lemma oracle_recall n dim q k (p : Setup FlatIndex.t) r row :
  set_up (IL := FlatIndex.flat_laws finite_vec) n dim q k p → 0 < q → k ≤ n →
  measured (p_hnsw p) (p_queries p) (p_truth p) k r row → r_recall row = d_one.
Proof.
  intros [_ Hbf _ (e & He & Hf) (e' & He' & Hh) [Hql _] _ _ _ Htr] Hq Hk [(got & Hgot & _ & Hone) _ _ _ _].
  assert (p_hnsw p = p_flat p) as Heq by congruence. rewrite Heq in Hgot. apply Hone.
  { pose proof (Forall2_length _ _ _ Htr). by destruct (p_truth p); [cbn in *; lia|]. }
  intros i t g Ht Hg. destruct (Forall2_lookup_r _ _ _ _ _ Htr Ht) as (qv & Hqv & hits & Hs & Hx & ->).
  destruct (Forall2_lookup_l _ _ _ _ _ Hgot Hqv) as (g' & Hg' & Hs' & _). rewrite Hg in Hg'. injection Hg' as <-.
  rewrite (flat_search_ef _ _ _ _ 0), Hs in Hs'. injection Hs' as <-.
  rewrite all_hits, (ax_length _ _ _ _ _ Hx), matching_all, (bt_size _ _ _ _ Hbf). lia.
Qed.

(** Calibration. Run with the exact index under test and at least [k] vectors,
    the benchmark reports a recall of exactly one in every row, whatever the
    draws, the clock and the interleaving. *)
Theorem harness_oracle (n : nat) (dim : Dim) (q k hw : nat) :
  (0 < dim < 2 ^ 32)%N → (N.of_nat n < 2 ^ 32)%N → 0 < q → (Z.of_nat q < 2 ^ 53)%Z → 0 < k ≤ n → (Z.of_nat k < 2 ^ 53)%Z →
  ∃ rep, (∀ r, harness_run (Ix := FlatIndex.t) n dim q k hw r ↔ r = Ok rep) ∧
    r_ef <$> rows rep = ef_grid ∧ Forall (λ row, r_recall row = d_one) (rows rep).
Proof.
  intros Hdim Hn Hq Hqb [Hk Hkn] Hkb.
  destruct (setup_ok (IL := FlatIndex.flat_laws finite_vec) n dim q k {| gen := seeded 42; readings := 0 |})
    as (p & w & Hp & Hpr & Hw); [done..|].
  destruct (ef_sweep_ok (IL := FlatIndex.flat_laws finite_vec) n dim q k p w Hpr)
    as (rows & batch & w' & Hs & Hef & Hm & _ & Hin & _); [unfold row_start; lia|done..|].
  eexists. split; [exact (harness_outcome (IL := FlatIndex.flat_laws finite_vec) n dim q k hw p w rows batch w' Hp Hpr Hs Hin)|].
  split; [done|]. apply Forall_lookup. intros j row Hj. by eapply oracle_recall, Hm.
Qed.
End Oracle.
