(* ===== verification/BenchDemo.v ===== *)
(** * The benchmark on concrete sources

    A small generator and clock, and the queues, sort and random source of the
    other demos: the theorems of [BenchSpec] applied to them, and a run of the
    model. *)
From S2P Require Import Prelude StdQueue Binary Rounding Distance Metadata Bitset VectorStore StoreSpec Index FlatIndex.
From S2P Require Import Hnsw HnswSearch HnswIndex HnswDemo Bytes OpCodec Engine EngineSpec EngineSearch Recall Bench BenchSpec.
From coqutil Require Import Word.Interface.
Local Open Scope nat_scope.
Import Engine Bench.

#[local] Existing Instance L2.

(** Elements between -1/2 and 1/2 in steps of an eighth, noise in sixteenths, the
    clusters in turn, a microsecond per reading. *)
Definition small_float (z : Z) (e : Z) : word32 := float_of (binary_normalize 24 128 z e false).

Definition step_rng (g : N) : N := ((g * 5 + 3) mod 1024)%N.

#[local] Instance demo_sources : HarnessSources := {|
  mt := N;
  seeded s := s;
  uniform_real g := (small_float (Z.of_N (g mod 9) - 4) (-3), step_rng g);
  normal := ();
  normal_dist _ := tt;
  normal_draw _ g := (small_float (Z.of_N (g mod 5) - 2) (-4), tt, step_rng g);
  uniform_int b g := (N.to_nat (g mod N.of_nat (S b)), step_rng g);
  ticks i := (1000 * Z.of_nat i) mod 2 ^ 63;
|}%Z.

(** A bound on finitely many residues. *)
Lemma small_residues (P : Z → Prop) (m : N) :
  m ≠ 0%N → Forall P (Z.of_nat <$> seq 0 (N.to_nat m)) → ∀ g, P (Z.of_N (g mod m)).
Proof.
  intros Hm HP g. rewrite Forall_forall in HP. apply HP, list_elem_of_fmap. exists (N.to_nat (g mod m)).
  pose proof (N.mod_lt g m Hm) as H. set (r := (g mod m)%N) in *. clearbody r.
  split; [lia|]. apply elem_of_seq. lia.
Qed.

#[local] Instance demo_sources_laws : HarnessLaws demo_sources.
Proof.
  split.
  - intros g. apply (small_residues (λ z, fle (float_val (small_float (z - 4) (-3))) 1 0) 9); [done|].
    repeat (constructor; [vm_compute; try discriminate; exact I|]). constructor.
  - intros d g. apply (small_residues (λ z, fle (float_val (small_float (z - 2) (-4))) (2 ^ 20) 0) 5); [done|].
    repeat (constructor; [vm_compute; try discriminate; exact I|]). constructor.
  - intros b g. cbn [uniform_int demo_sources fst]. pose proof (N.mod_lt g (N.of_nat (S b)) ltac:(lia)) as H.
    set (r := (g mod N.of_nat (S b))%N) in *. clearbody r. lia.
  - intros i. apply Z.mod_pos_bound. lia.
Qed.

#[local] Instance bench_worse : PQueue (A:=SearchResult) FlatIndex.worse := list_pqueue FlatIndex.worse.
#[local] Instance bench_worse_laws : PQueueLaws FlatIndex.worse scored := list_pqueue_laws FlatIndex.worse scored.
#[local] Instance bench_near : PQueue Hnsw.near_on_top := list_pqueue Hnsw.near_on_top.
#[local] Instance bench_far : PQueue Hnsw.far_on_top := list_pqueue Hnsw.far_on_top.
#[local] Instance bench_near_laws : PQueueLaws Hnsw.near_on_top HnswSearch.numbered := list_pqueue_laws Hnsw.near_on_top HnswSearch.numbered.
#[local] Instance bench_far_laws : PQueueLaws Hnsw.far_on_top HnswSearch.numbered := list_pqueue_laws Hnsw.far_on_top HnswSearch.numbered.
#[local] Instance bench_sort : StdSort := insertion_sort.
#[local] Instance bench_sort_laws : StdSortLaws := insertion_sort_laws.
#[local] Instance bench_order : MapOrder := list_order.
#[local] Instance bench_tame : MetricTame L2 finite_vec := L2_tame.

#[local] Instance bench_random : Hnsw.RandomSource := demo_random.

Lemma default_int : HnswIndex.params_int Hnsw.default_hnsw.
Proof. unfold HnswIndex.params_int. cbn. lia. Defined.

#[local] Instance bench_draws : HnswIndex.LevelDraws Hnsw.default_hnsw.
Proof.
  intros g. unfold Hnsw.random_level, Hnsw.uniform_01, bench_random, demo_random.
  assert (g mod 3 < 3)%N as Hg by (by apply N.mod_lt).
  destruct (g mod 3)%N as [|[[|p|]|[|p|]|]]; try lia; eexists _, _; (split; [vm_compute; reflexivity|lia]).
Qed.

#[local] Instance bench_hnsw : IndexOps Hnsw.t := Hnsw.hnsw_ops Hnsw.default_hnsw.
#[local] Instance bench_hnsw_laws : IndexLaws Hnsw.t finite_vec := HnswIndex.hnsw_laws Hnsw.default_hnsw default_int finite_vec.

(** The program on three vectors of length two and two queries for two results.
    The clock goes on by a microsecond per reading. *)
Lemma harness_measures_witness :
  ∃ rep, (∀ r, main [3; 2; 2; 2] 8 r ↔ r = Ok rep) ∧ r_ef <$> rows rep = ef_grid ∧
    Forall (λ row, has_sign false (r_recall row) ∧ ¬ flt d_one (r_recall row)) (rows rep) ∧
    (∀ row, rows rep !! 0 = Some row → ∃ i, order_statistic [d_one; d_one] d_half (r_p50 row) i) ∧
    s_threads <$> sweep rep = thread_grid.
Proof.
  destruct (harness_measures (Ix := Hnsw.t) 3 2 2 2 8) as (p & w & _ & Hp & _ & rep & Hrun & _ & _ & _ & Hef & Hm & _ & Hts);
    [split; reflexivity|reflexivity|reflexivity|lia|reflexivity|].
  exists rep. split; [exact Hrun|]. split; [exact Hef|]. split; [|split].
  - apply Forall_lookup. intros j row Hj. destruct (Hm j row Hj) as [_ H1 H2 _ _]. by split.
  - intros row Hrow. destruct (ms_latency _ _ _ _ _ _ (Hm 0 row Hrow)) as (i & _ & Hi & _). exists i.
    rewrite (proj1 (pr_queries _ _ _ _ _ Hp)) in Hi.
    assert (latencies (4 + 2 * 2 * 1) 2 = [d_one; d_one]) as <- by (vm_compute; reflexivity). exact Hi.
  - rewrite Hts. reflexivity.
Defined.

Lemma harness_oracle_witness :
  ∃ rep, (∀ r, harness_run (Ix := FlatIndex.t) 3 2 2 2 8 r ↔ r = Ok rep) ∧
    r_ef <$> rows rep = ef_grid ∧ Forall (λ row, r_recall row = d_one) (rows rep).
Proof. apply (harness_oracle 3 2 2 2 8); [split; reflexivity|reflexivity|lia|reflexivity|lia|reflexivity]. Defined.

(** The recalls of that program: here the graph index finds everything. *)
Example demo_recalls :
  match (p ← setup (Ix := Hnsw.t) 3 2 2 2; traverse (ef_round (p_hnsw p) (p_queries p) (p_truth p) 2 2) ef_grid)
    {| gen := seeded 42; readings := 0 |} with
  | (Ok rows, w) => (r_recall <$> rows, readings w)
  | _ => ([], 0)
  end = (replicate 6 d_one, 32).
Proof. vm_compute. reflexivity. Qed.

(** [0.10F], [0.5] and [0.95] are the literals of the source. *)
Example literals : word.unsigned sigma = 1036831949%Z ∧ word.unsigned (double_of d_half) = 4602678819172646912%Z ∧
  word.unsigned (double_of d_95) = 4606732058837280358%Z.
Proof. vm_compute. split_and!; reflexivity. Qed.
